(* ===== verification/_CoqProject ===== *)
-Q . S2P
Prelude.v
Election.v
RoleStore.v
MpdProtocol.v
SourceRegistry.v
Disposition.v
SkipTraversal.v
Transition.v
WifiRoles.v
SourceHealth.v
Reconcile.v
Radio.v
WifiAcquire.v
WifiPhy.v
StableId.v
NegativeCache.v
AudioRouting.v
EmitThrottle.v
SpectrumDemand.v
Coalescer.v
MpdServer.v
Paths.v
Availability.v
ArtworkUrl.v
Queue.v
Dlna.v
DlnaSource.v
DlnaDescent.v
SharesText.v
Shares.v
SambaServer.v
UsbClassifier.v
UsbAliases.v
UsbRuntime.v
OptionsStore.v
Options.v
OptionsRender.v
Durations.v
MpdReplies.v
MpdLink.v
MpdPlayer.v
PlaybackReport.v
Supervisor.v
Observers.v
SourceProbe.v
