(* ===== verification/Prelude.v ===== *)
(** * A verification library for evo-device-audio

    The repository is the audio device distribution of the evo framework: Rust crates
    under [src/crates] (multi-room, audio topology, the HTTP surface, the MPD client)
    and plugins under [src/plugins] (MPD playback, options, network, storage, ALSA,
    artwork and metadata).  The framework itself (the steward and its SDK) is a
    dependency and not part of the repository: where the code calls it, the model has
    an interface or a parameter.

    ** How the program is put together, and where each part is modelled

    - Playback ([plugins/org.evoframework.playback.mpd], [crates/evo-mpd-shared]).
      A command to MPD is serialised, and its answer lines are read and classified, in
      [MpdProtocol] ([protocol.rs], [framing.rs], [error.rs]).  Where music comes from
      is the registry of [SourceRegistry] ([source_registry.rs]): records, a
      reachability state machine, probes, subscribers.  When the next item of the queue
      cannot be played, [SkipTraversal] ([skip_traversal.rs]) walks on, asking the
      registry and MPD, and reports through an emitter; the emitter of
      [Disposition] ([disposition_emitter.rs]) is one instance of the interface
      [DispositionSink] that the walk is written against.  [Queue] ([queue.rs]) has the
      edits of the queue, the playlist verbs, the publication of the envelope and what
      the removal or renaming of a volume does to the queue; [Availability]
      ([availability.rs], [gone_curation.rs]) finds the source of an item, tells whether
      it can be played and removes items whose file is gone.  Both talk to the player
      through the interface of [MpdServer], which has the laws of a player that answers
      and an instance in memory.  The connection itself is [MpdLink] ([connection.rs],
      [endpoint.rs]): a link to a peer that reacts to the bytes it hears with lines that
      take time, the loops that read an answer, every verb, and the handshake; the
      answers are read by the parsers of [MpdReplies] ([types.rs] and the end of
      [connection.rs]), their times by the [f64] of [Durations].  [MpdPlayer] puts the
      player in memory behind such a link.  [Supervisor] ([playback_supervisor/actor.rs])
      is the task that runs commands over it: it tries, reconnects with a backoff and
      tries again, reports the state of the player ([PlaybackReport], [report.rs]) and
      waits in [idle] on a second link.  [Observers] has the two tasks beside it: the
      ambient observer ([ambient_observer.rs]), which publishes the same subjects without a
      custody, and the applier of the startup volume ([startup_volume.rs]).  [SourceProbe]
      ([source_probe.rs]) reads the format of a song from the head of its file, in sixteen
      containers, and the directories of [mpd.conf].  [ArtworkUrl]
      ([evo-device-audio-shared]) makes the artwork URLs of their rows.
    - Media servers ([crates/evo-dlna], [plugins/org.evoframework.source.dlna]).  [Dlna]
      is the client: the SOAP request, the reading of its answer, DIDL objects, device
      descriptions, discovery.  [DlnaSource] is the plugin: the servers it knows, with
      sweeps and announcements as tasks of a step machine, its side file, and its
      verbs.  [DlnaDescent] is the other end, in the queue plugin ([queue.rs],
      [collect_dlna_container_leaves] and the container form of the selection): it
      walks a container through the browse verb of [DlnaSource], which the theorems
      compose with it.
    - Options ([plugins/org.evoframework.playback.options]).  [Transition]
      ([transition.rs]) is the orchestrated change of the mixer type, over the
      interface [TransitionExecutor] (the source's trait).  [OptionsStore] ([lib.rs]) has
      the settings, their file and its last-known-good copy, call by call of the file
      system, and the programs a handler is made of: [run] performs one alone, [crash]
      cuts it, [interleave] performs several.  [Options] has the request types, and the
      inline form of the transition that the plugin runs under its lock.  [OptionsRender]
      ([plugins/org.evoframework.delivery.alsa], [options_render.rs] and the observer of
      [lib.rs]) is the other end: the published settings become a fragment of the ALSA
      configuration, which a reader of such fragments turns back into a chain of stages.
    - Multi-room ([crates/evo-multiroom]).  [Election] ([election.rs]) chooses the
      source host of each group from the live members and keeps a mirror of what it
      stored; [RoleStore] ([role_store.rs]) keeps the roles of devices.  Both work over
      an interface to the framework's store ([ElectionStore], and the row store of
      [RoleStore]) whose laws are those of a map.
    - Audio topology ([crates/evo-audio-topology]).  [AudioRouting]
      ([audio_routing.rs]) is the table of resolved routings, the handles given to
      plugins and the forwarder to out-of-process plugins.
    - Network ([plugins/org.evoframework.network]).  [WifiPhy] ([wifi_phy.rs]) parses
      what [iw] prints and creates the access-point interface; [WifiRoles]
      ([wifi_roles.rs]) assigns radios to roles; [WifiAcquire] ([wifi_acquire.rs])
      reads a network out of a configuration; [Radio] ([rfkill.rs], [wifi_radio.rs])
      combines block state, flight mode and preference; [SourceHealth] ([health.rs])
      demotes and re-admits event sources; [Reconcile] ([reconcile.rs]) compares what
      they report.
    - Network shares ([plugins/org.evoframework.network.shares]).  [SharesText]
      ([runtime.rs]) has the records of shares and every text the plugin writes or reads:
      mount points, arguments of the helpers, the credentials file, names of systemd
      units, the mount table, what the discovery tools print.  [Shares] is the runtime:
      the store, the state of each share, the ring of events, mounting with the ladder
      of SMB dialects, unmounting, reconciling with the mount table, the passes that
      mount again, and the verbs, over the interface [Outside] to commands, files and
      the vault.  Paths of the standard library are in [Paths].
    - SMB server ([plugins/org.evoframework.network.smb-server]).  [SambaServer]
      ([runtime.rs]) renders [smb.conf] and decides which shares it may export, applies
      the settings step by step, and adds, revokes and adopts users across the state
      file, the vault and the system, over the interface [SambaOutside].
    - Storage ([plugins/org.evoframework.storage.usb]).  [UsbClassifier]
      ([classifier.rs], [fs_matrix.rs]) reads the mount table, the swap table and the
      list of devices and gives every USB partition a role; [StableId] ([stable_id.rs])
      derives the name a volume is mounted under; [UsbAliases] ([aliases.rs]) keeps the
      names operators gave; [UsbRuntime] ([runtime.rs]) rebuilds the registry of drives
      from the three at every pass, mounts what may be mounted, and has the verbs, as
      runs over the interface [UsbOutside] to the privileged helper and the library
      plugin.  The repair is split where it waits, so that a pass can come in between.
    - Audio terminus ([plugins/org.evoframework.audio.terminus]).  [SpectrumDemand]
      ([demand.rs]) keeps the demand for spectrum frames and recovers it on load, over
      interfaces to JSON values and to the framework's subjects; [EmitThrottle]
      ([emit_throttle.rs]) spaces the frames out.
    - HTTP ([crates/evo-device-audio-http]).  [NegativeCache]
      ([artwork_negative_cache.rs]) is the bounded memory of artwork misses;
      [Coalescer] ([artwork_resolve_coalescer.rs]) lets concurrent requests for one
      artwork share a dispatch, as a step machine of tasks over an interface to the
      broadcast channel.

    Each file has the data of its part (records for structs, inductive types for
    enums), one definition per operation with the branches and early returns of the
    source, then the theorems and, where a theorem has hypotheses, an application of it
    at a concrete input.  [Prelude] has what they share: results, saturating
    arithmetic, strings, sorting, and their lemmas.

    ** Conventions

    - A string is a list of Unicode scalar values ([str]); [lit] turns an ASCII literal
      into one.  Bytes on a wire are [N] below 256, and [as_bytes] is the UTF-8
      encoding.  Lengths in bytes are [str_len].
    - Integers are [N] or [Z]; the places where the code saturates, wraps or parses at a
      width write that out ([sat_add], [parse_u32], [mod 2 ^ 32]).
    - [Result] is [result], [Option] is [option]; a panic, where one is possible in the
      source, is [None] of an option around the result.
    - State is passed explicitly; what an operation sends out (happenings, records,
      frames, commands) is a log in the state, so that its order is part of the model.
    - A connection to MPD is a value with a clock in milliseconds: a read takes the time
      its line takes or the whole of its budget.
    - The clock, the file system, MPD, [iw], the stores and the network are arguments.
      Their assumed behaviour is in hypotheses of a Section or in the laws of a class,
      and every theorem that uses one is applied to a concrete instance.
    - Where tasks interleave ([Coalescer], [Options]), a step is one critical section or
      one call outside.  Elsewhere
      locks make an operation one atomic step; an operation that calls out after
      releasing the lock does so in the same call ([AudioRouting.publish_topology]).
    - Loops over lists are structural.  These loops have fuel.  [StableId.deconflict_go]:
      the source's own bound is 1024, the fuel is the 1023 turns from 2 to that bound, and
      [deconflict_fresh] shows that a free name is found before it runs out unless 1024
      names are in use.  [Supervisor.reconnect_loop] has eleven turns, one more than the
      source allows attempts ([reconnecting_delays]).  The applier of [Observers] has nine polls for a
      window of two seconds and 301 cycles for a minute, and [startup_ends] shows that
      it stops before they are used up.
    - The descent of [DlnaDescent] has no bound of its own in the source; it runs with
      fuel, [descent_ends] gives an amount that is enough when the pages of each
      container end, [descent_over_source_ends] shows that over the source plugin they
      do, and [endless_pages_never_end] that over another peer they need not.
    - The walks of [SourceProbe] have one turn more than the head has bytes; [probe_settles]
      shows that more give nothing else, and which files no number of turns is enough for.

    ** What the theorems show

    - Playback: [advance_outcome] (the walk plays the first playable item, as a
      reference without reports says), [advance_accounts_for_every_skip] (every skipped
      item is reported once), [advance_coalesces_offline_runs], [advance_any_sink] (the
      same for every emitter), [ring_keeps_latest]; [subscriber_tracks] (a subscriber
      to state changes can rebuild the states), [probe_reachable_evidence];
      [serialise_command_one_line] (no injection of a second command),
      [serialise_command_roundtrip], [classify_ack_roundtrip], [read_line_rejects];
      [answers_stay_in_step], [wire_refines_player] (what is proved over the interface
      of a player holds over a connection to one), [command_list_ok_groups],
      [file_counts_correct], [forbidden_batch_is_not_sent], [idle_within_budget];
      [status_roundtrip], [status_over_the_wire], [queue_items_roundtrip], [playlist_entries_roundtrip],
      [library_entries_roundtrip], [subsystem_roundtrip], [parse_thousandths];
      [volume_comes_back] (muting and unmuting, whatever is commanded between),
      [command_survives_a_restart], [reconnect_correct], [format_follows_the_song] (in
      every life of the task), [observed_format_follows_the_song], [startup_ends],
      [startup_volume_applied], [report_readable], [truncate_correct];
      [written_header_is_probed] (a header of nine formats is read back), [probe_settles],
      [tag_is_passed_over], [directive_is_found];
      [drop_correct], [park_restore_roundtrip], [rewrite_correct] (a volume leaves, is
      remounted, is renamed, and the queue is what it should be), [enqueue_correct],
      [play_from_position_correct], [under_is_segment_aware],
      [rewrite_queue_path_roundtrip]; [resolve_source_correct], [prune_queue_correct],
      [prune_stored_playlist_correct], [gone_items_unavailable];
      [artwork_url_roundtrip].
    - Media servers: [soap_envelope_roundtrip] (no object id can alter a request),
      [xml_unescape_escape], [extract_tag_correct], [browse_page_correct],
      [pick_stream_uri_best], [discover_correct]; [sweep_correct], [announcement_correct],
      [servers_stay_unique] (in every interleaving), [item_uri_roundtrip],
      [handle_browse_correct]; [descent_ends], [descent_over_source_ends],
      [collected_correct], [descent_over_directory] (the descent composed with the
      source collects the tree of the server), [enqueue_collected_correct] (a selection
      that fails before its first write leaves the queue alone).
    - Options: [run_transition_log] (the phases in order, rollback exactly once on a
      failure, one terminal report), [unmute_only_after_verify];
      [inline_transition_refines] (the form the plugin runs is that state machine on an
      executor made of its parts), [settings_stay_valid], [setter_commits] (a request
      does what the function [edit] of the settings says, or nothing),
      [settings_survive_a_crash], [restore_undoes_a_setter], [presets_are_a_map],
      [transitions_exclude_each_other] (in every interleaving, and no deadlock);
      [settings_reach_the_device] (what is published is the chain of the device),
      [drop_in_is_never_torn], [aplay_listing_roundtrip].
    - Multi-room: [evaluate_correct], [new_source_host_spec],
      [new_source_host_agreement] (peers that see the same live members agree),
      [evaluate_idempotent], [mirror_invariant] (the mirror is what is stored),
      [evaluate_put_failure]; [set_role_refines], [clear_role_refines],
      [unparsable_row_survives_clear].
    - Topology: [endpoints_correct], [table_refines], [forwarder_in_step].
    - Network: [parse_wifi_devices_roundtrip], [ensure_ap_vif_correct], [assign_auto],
      [assign_honours_pins], [parse_wpa_supplicant_conf_roundtrip] and its
      well-formedness, [parse_nm_profile_rows_roundtrip], [radio_state_correct],
      [run_probes_correct], [detect_discrepancies_correct].
    - Network shares: [runtime_invariant] (of every sequence of verbs and passes),
      [reconcile_correct], [ladder_in_order], [unmount_truthful], [remove_verb_correct],
      [edit_correct], [disconnected_stays_disconnected], [refused_share_is_left_alone],
      [ring_has_the_last]; [unit_name_roundtrip], [default_mount_root_safe],
      [credentials_file_correct], [is_path_mounted_correct], [version_correct],
      [prune_correct], [parse_avahi_correct], [smbclient_listing_correct].
    - SMB server: [conf_correct] (the configuration read back is the allowed shares and
      nothing else), [apply_correct] (the steps of an application refine [apply_log]),
      [add_user_correct], [revoke_user_correct], [names_stay_unique],
      [reconcile_users_correct], [normalize_correct], [service_user_blocked].
    - Storage: [derive_safe_name] (a name is one safe path component), [derive_unique];
      [mount_table_roundtrip], [classify_correct] (two passes and a one-step reference),
      [boot_drive_invariant], [partition_index_correct], [human_size_exact];
      [aliases_are_a_map], [tuples_stay_unique], [save_is_atomic],
      [saved_names_are_loaded]; [system_partitions_untouched] and
      [registry_well_formed] (of every sequence of verbs, passes and changes outside),
      [held_drive_is_left_alone], [registry_lists_every_partition],
      [vanished_volumes_are_retracted], [mount_correct], [remove_mounted_correct],
      [rename_umount_correct], [parked_rows_follow], [wire_words_roundtrip].
    - Terminus: [demand_survives_restart], [demand_always_valid],
      [parse_render_envelope], [emit_rate_bounded], [emit_not_starved].
    - HTTP: [cache_sound] and [cache_complete] (refinement of an unbounded map);
      [single_flight] (at most one fetcher per key and no waiter left behind, in every
      interleaving), [one_dispatch_per_key], [flight_ends], [never_hangs],
      [returned_outcome], [memo_hit_fresh], [keys_isolated].

    Theorems that record where the code departs from what it means to do:
    [one_minute_backoff_unused], [precomputed_key_decoded], [derive_not_mountable],
    [sanitise_underscores], [order_unbounded], [newest_evicted],
    [clear_not_forwarded], [reactive_skips_not_coalesced], [interface_modes_run_on],
    [fractional_channels_ignored], [tie_goes_to_last], [probe_budget_exhausted],
    [oversized_count_accepted],
    [concurrent_calls_dispatch_twice], [forget_joins_older_fetch],
    [failed_load_clears_queue], [one_missing_row_loses_the_rest], [albums_confused],
    [prefixed_tag_is_missed], [error_body_panics], [announcement_lost],
    [file_and_memory_part], [unnamed_server_is_unplayable], [prefixed_answer_divides],
    [endless_pages_never_end], [exactly_full_is_truncated], [later_pages_come_first],
    [mount_points_collide], [line_feed_in_name_adds_a_line], [written_version_is_second],
    [nfs_host_becomes_option], [parent_is_a_key], [sibling_share_is_pruned],
    [disconnect_of_absent_mount_is_retried], [failed_add_keeps_the_share],
    [failed_removal_leaves_a_ghost], [late_failure_makes_a_ghost],
    [unprotected_file_stays]; [parent_escapes], [line_feed_adds_a_section],
    [stock_name_is_taken], [concurrent_adds_lose_the_user],
    [concurrent_apply_installs_unchecked], [refused_settings_are_stored],
    [late_save_failure_parts], [adopted_upper_case_stays]; [mount_point_not_ascii],
    [dev_root_is_removable], [partitions_share_a_name], [twin_is_detached],
    [failures_are_forgotten], [hibernated_volume_is_mounted_again],
    [check_runs_on_a_mounted_volume], [failed_rename_loses_the_queue],
    [opt_in_is_ignored]; [refused_change_takes_effect], [staging_file_is_shared],
    [rollback_undoes_other_setters], [restore_brings_the_failed_mode_back],
    [rolled_back_and_muted], [closed_channel_refuses_every_transition],
    [hardware_loses_its_coordinates], [restore_takes_a_torn_copy];
    [resampling_is_never_rendered], [device_name_opens_a_block],
    [amixer_cuts_at_an_apostrophe]; [huge_time_panics], [duration_refuses_the_song],
    [late_answer_is_taken_for_the_next], [malformed_line_leaves_the_rest],
    [command_waits_without_end]; [late_answer_skips_twice], [second_timeout_counts_ten],
    [violation_keeps_the_connection], [ended_idle_spins], [stop_is_swallowed],
    [delete_is_not_escaped]; [empty_object_hangs], [wrapping_chunk_hangs],
    [ape_reads_the_frame_count], [xing_tag_is_missed], [bits_are_cut],
    [extended_rate_is_cut], [directive_is_not_delimited].

    ** Not modelled

    Serialisation formats of third-party crates (serde, TOML), D-Bus, netlink, HTTP and
    process plumbing, log lines, and signal processing in floating point.  Of the shares
    plugin: the tasks that run the passes, the wait for a link, the stores of
    credentials and their migration, and the polling of the player.  Next in the plan:
    the selection of the queue by criteria, the scanning of sources, the artwork admission
    pools, topology scoring (over the framework's types) and the name normalisers. *)

From stdpp Require Export base gmap list strings fin_maps sorting pretty.
From Stdlib Require Export NArith Lia.
From Stdlib Require Ascii.

#[global] Set Default Goal Selector "1".

(** ** Notation scope and hint database of the development *)

Declare Scope evo_scope.
Delimit Scope evo_scope with evo.
Create HintDb evo discriminated.

(** ** Results *)

(** Rust's [Result<A, E>]. *)
Inductive result (A E : Type) : Type :=
| Ok (a : A)
| Err (e : E).
Arguments Ok {A E} a.
Arguments Err {A E} e.

Notation "'let?' x ':=' e 'in' k" :=
  (match e with Ok x => k | Err err => Err err end)
  (at level 10, x pattern, e at level 100, k at level 200) : evo_scope.
Open Scope evo_scope.

Definition is_ok {A E} (r : result A E) : bool :=
  match r with Ok _ => true | Err _ => false end.

(** [Option::ok_or] *)
Definition ok_or {A E} (o : option A) (e : E) : result A E :=
  match o with Some a => Ok a | None => Err e end.

(** [Result::map_err] *)
Definition map_err {A E F} (f : E -> F) (r : result A E) : result A F :=
  match r with Ok a => Ok a | Err e => Err (f e) end.

#[export] Instance result_eq_dec `{EqDecision A, EqDecision E} : EqDecision (result A E).
Proof. solve_decision. Defined.

(** ** Machine integers

    Unsigned integers are [N]; each operation writes its width out. *)

Definition U16_MAX : N := 65535.
Definition U32_MAX : N := 4294967295.
Definition U64_MAX : N := 18446744073709551615.

(** [uN::saturating_add] for the type whose largest value is [mx]. *)
Definition sat_add (mx a b : N) : N := N.min mx (a + b).

(** [uN::saturating_sub]: truncated subtraction on [N]. *)
Definition sat_sub (a b : N) : N := a - b.

Lemma sat_add_le mx a b : (sat_add mx a b <= mx)%N.
Proof. unfold sat_add. lia. Qed.

Lemma sat_add_ge mx a b : (a <= mx -> a <= sat_add mx a b)%N.
Proof. unfold sat_add. lia. Qed.

Lemma sat_add_exact mx a b : (a + b <= mx -> sat_add mx a b = a + b)%N.
Proof. unfold sat_add. lia. Qed.

#[export] Hint Resolve sat_add_le sat_add_ge : evo.

(** ** Strings

    A Rust [str] is the list of its Unicode scalar values: [chars] is the
    identity, equality is list equality, and the byte order of UTF-8 is the
    lexicographic order of the code points. *)

Abbreviation char := N.
Abbreviation str := (list N).

(** An ASCII literal of the source. *)
Definition lit (s : string) : str :=
  (fix go s := match s with
               | EmptyString => []
               | String c s' => Ascii.N_of_ascii c :: go s'
               end) s.
Arguments lit s%_string : simpl never.

Lemma lit_cons c s : lit (String c s) = Ascii.N_of_ascii c :: lit s.
Proof. reflexivity. Qed.

#[export] Instance lit_inj : Inj (=) (=) lit.
Proof.
  intros s. induction s as [|c s IH]; intros [|c' s'] H; try discriminate H; [done|].
  rewrite !lit_cons in H. injection H as Hc Hs.
  apply IH in Hs as ->. f_equal.
  rewrite <-(Ascii.ascii_N_embedding c), <-(Ascii.ascii_N_embedding c'). by f_equal.
Qed.

(** The quotation mark, which a literal cannot hold. *)
Definition DQUOTE : char := 34.
Definition BACKSLASH : char := 92.
Definition LF : char := 10.
Definition CR : char := 13.
Definition TAB : char := 9.
Definition NUL : char := 0.

Definition in_range (lo hi c : N) : bool := (lo <=? c)%N && (c <=? hi)%N.

(** [char::is_whitespace]: the code points of [White_Space]. *)
Definition is_whitespace (c : char) : bool :=
  in_range 9 13 c || (c =? 32)%N || (c =? 133)%N || (c =? 160)%N || (c =? 5760)%N
  || in_range 8192 8202 c || (c =? 8232)%N || (c =? 8233)%N || (c =? 8239)%N
  || (c =? 8287)%N || (c =? 12288)%N.

Definition is_ascii_digit (c : char) : bool := in_range 48 57 c.
Definition is_ascii_upper (c : char) : bool := in_range 65 90 c.
Definition is_ascii_lower (c : char) : bool := in_range 97 122 c.
Definition is_ascii_alphanumeric (c : char) : bool :=
  is_ascii_digit c || is_ascii_upper c || is_ascii_lower c.
Definition is_ascii_hexdigit (c : char) : bool :=
  is_ascii_digit c || in_range 65 70 c || in_range 97 102 c.

(** [char::is_control]: the category Cc. *)
Definition is_control (c : char) : bool := (c <=? 31)%N || in_range 127 159 c.

Definition ascii_lower_char (c : char) : char := if is_ascii_upper c then c + 32 else c.
Definition ascii_upper_char (c : char) : char := if is_ascii_lower c then c - 32 else c.
Definition to_ascii_lowercase (s : str) : str := map ascii_lower_char s.
Definition to_ascii_uppercase (s : str) : str := map ascii_upper_char s.

(** [str::eq_ignore_ascii_case] *)
Definition eq_ignore_ascii_case (s t : str) : bool :=
  bool_decide (to_ascii_lowercase s = to_ascii_lowercase t).

Fixpoint drop_while (p : char -> bool) (s : str) : str :=
  match s with
  | [] => []
  | c :: s' => if p c then drop_while p s' else s
  end.

Fixpoint take_while (p : char -> bool) (s : str) : str :=
  match s with
  | [] => []
  | c :: s' => if p c then c :: take_while p s' else []
  end.

(** [str::trim_start], [trim_end], [trim] *)
Definition trim_start (s : str) : str := drop_while is_whitespace s.
Definition trim_end (s : str) : str := rev (drop_while is_whitespace (rev s)).
Definition trim (s : str) : str := trim_end (trim_start s).

Definition str_is_empty (s : str) : bool :=
  match s with [] => true | _ => false end.

(** [str::strip_prefix], [starts_with], [strip_suffix], [ends_with] *)
Fixpoint strip_prefix (pre s : str) : option str :=
  match pre, s with
  | [], _ => Some s
  | p :: pre', c :: s' => if (p =? c)%N then strip_prefix pre' s' else None
  | _ :: _, [] => None
  end.

Definition starts_with (pre s : str) : bool :=
  match strip_prefix pre s with Some _ => true | None => false end.

Definition strip_suffix (suf s : str) : option str :=
  match strip_prefix (rev suf) (rev s) with
  | Some r => Some (rev r)
  | None => None
  end.

Definition ends_with (suf s : str) : bool :=
  match strip_suffix suf s with Some _ => true | None => false end.

(** [str::split_once] at the first occurrence of [pat]. *)
Fixpoint split_once (pat s : str) : option (str * str) :=
  match strip_prefix pat s with
  | Some rest => Some ([], rest)
  | None =>
      match s with
      | [] => None
      | c :: s' =>
          match split_once pat s' with
          | Some (a, b) => Some (c :: a, b)
          | None => None
          end
      end
  end.

(** [str::contains] *)
Definition str_contains (pat s : str) : bool :=
  match split_once pat s with Some _ => true | None => false end.

(** [str::split] at a character. *)
Fixpoint split_char (sep : char) (s : str) : list str :=
  match s with
  | [] => [[]]
  | c :: s' =>
      if (c =? sep)%N then [] :: split_char sep s'
      else match split_char sep s' with
           | [] => [[c]]
           | w :: ws => (c :: w) :: ws
           end
  end.

(** [str::split_whitespace] *)
Fixpoint split_on (p : char -> bool) (s : str) : list str :=
  match s with
  | [] => [[]]
  | c :: s' =>
      if p c then [] :: split_on p s'
      else match split_on p s' with
           | [] => [[c]]
           | w :: ws => (c :: w) :: ws
           end
  end.
Definition split_whitespace (s : str) : list str :=
  filter (fun w => str_is_empty w = false) (split_on is_whitespace s).

(** [str::lines]: split at LF, a CR just before an LF is dropped, and a last
    empty piece is not a line. *)
Fixpoint lines_go (cur : str) (s : str) : list str :=
  match s with
  | [] => match cur with [] => [] | _ => [rev cur] end
  | c :: s' =>
      if (c =? LF)%N then
        rev (match cur with
             | c' :: cur' => if (c' =? CR)%N then cur' else cur
             | [] => []
             end) :: lines_go [] s'
      else lines_go (c :: cur) s'
  end.
Definition lines (s : str) : list str := lines_go [] s.

(** [char::encode_utf8], [str::as_bytes] *)
Definition encode_utf8 (c : char) : list N :=
  (if c <? 128 then [c]
   else if c <? 2048 then [192 + c / 64; 128 + c mod 64]
   else if c <? 65536 then [224 + c / 4096; 128 + c / 64 mod 64; 128 + c mod 64]
   else [240 + c / 262144; 128 + c / 4096 mod 64; 128 + c / 64 mod 64; 128 + c mod 64])%N.
Definition as_bytes (s : str) : list N := concat (map encode_utf8 s).

Local Open Scope N_scope.
(** [String::from_utf8] *)
Definition continuation (b : N) : bool := in_range 128 191 b.
Definition payload (b : N) : N := b - 128.

Fixpoint from_utf8 (bs : list N) : option str :=
  match bs with
  | [] => Some []
  | b0 :: t0 =>
      if b0 <? 128 then cons b0 <$> from_utf8 t0
      else match t0 with
      | [] => None
      | b1 :: t1 =>
          if in_range 194 223 b0 then
            if continuation b1 then cons ((b0 - 192) * 64 + payload b1) <$> from_utf8 t1 else None
          else match t1 with
          | [] => None
          | b2 :: t2 =>
              let lo3 := if b0 =? 224 then 160 else 128 in
              let hi3 := if b0 =? 237 then 159 else 191 in
              if in_range 224 239 b0 then
                if in_range lo3 hi3 b1 && continuation b2
                then cons ((b0 - 224) * 4096 + payload b1 * 64 + payload b2) <$> from_utf8 t2
                else None
              else match t2 with
              | [] => None
              | b3 :: t3 =>
                  let lo4 := if b0 =? 240 then 144 else 128 in
                  let hi4 := if b0 =? 244 then 143 else 191 in
                  if in_range 240 244 b0 && in_range lo4 hi4 b1 && continuation b2 && continuation b3
                  then cons ((b0 - 240) * 262144 + payload b1 * 4096 + payload b2 * 64 + payload b3)
                         <$> from_utf8 t3
                  else None
              end
          end
      end
  end.
Local Close Scope N_scope.

(** [str::replace] with a pattern that is not empty: the occurrences from the left that
    do not overlap; [skip] characters of an occurrence are still to be passed over. *)
Fixpoint replace_go (pat rep : str) (skip : nat) (s : str) : str :=
  match s with
  | [] => []
  | c :: s' =>
      match skip with
      | S k => replace_go pat rep k s'
      | O => if starts_with pat s then rep ++ replace_go pat rep (length pat - 1) s'
             else c :: replace_go pat rep 0 s'
      end
  end.
Definition str_replace (pat rep s : str) : str := replace_go pat rep 0 s.

(** Length of the UTF-8 encoding. *)
Definition utf8_width (c : char) : N :=
  if (c <? 128)%N then 1 else if (c <? 2048)%N then 2 else if (c <? 65536)%N then 3 else 4.
Definition str_len (s : str) : N := foldr (fun c n => utf8_width c + n)%N 0%N s.

Lemma str_len_app s t : str_len (s ++ t) = (str_len s + str_len t)%N.
Proof.
  unfold str_len. induction s as [|c s IH]; cbn [foldr app]; [done|]. rewrite IH. lia.
Qed.

(** The index expression [&s[..n]] in bytes; [None] is the panic inside a character or
    beyond the end. *)
Fixpoint slice_to (n : N) (s : str) : option str :=
  if (n =? 0)%N then Some []
  else
    match s with
    | [] => None
    | c :: s' =>
        if (utf8_width c <=? n)%N then option_map (cons c) (slice_to (n - utf8_width c) s') else None
    end.

(** Lexicographic order on strings ([Ord for str]). *)
Fixpoint str_compare (s t : str) : comparison :=
  match s, t with
  | [], [] => Eq
  | [], _ :: _ => Lt
  | _ :: _, [] => Gt
  | a :: s', b :: t' =>
      match N.compare a b with
      | Eq => str_compare s' t'
      | r => r
      end
  end.
Definition str_leb (s t : str) : bool :=
  match str_compare s t with Gt => false | _ => true end.

(** [str::parse::<u32>()] (and the other unsigned widths): an optional sign,
    at least one digit, no overflow. *)
Fixpoint parse_digits (acc : N) (s : str) : option N :=
  match s with
  | [] => Some acc
  | c :: s' => if is_ascii_digit c then parse_digits (acc * 10 + (c - 48)) s' else None
  end.
Definition parse_uint (mx : N) (s : str) : option N :=
  let digits := match s with c :: s' => if (c =? 43)%N then s' else s | [] => s end in
  match digits with
  | [] => None
  | _ => match parse_digits 0 digits with
         | Some n => if (n <=? mx)%N then Some n else None
         | None => None
         end
  end.
Definition parse_u32 : str -> option N := parse_uint U32_MAX.

(** [Display] of an unsigned integer. *)
Definition dec (n : N) : str := lit (pretty n).
Arguments dec n : simpl never.

(** ** Lemmas on strings *)

Lemma str_compare_eq s t : str_compare s t = Eq <-> s = t.
Proof.
  revert t. induction s as [|a s IH]; intros [|b t]; simpl; try done.
  destruct (N.compare_spec a b) as [->|Hlt|Hgt].
  - rewrite IH. split; [by intros ->|by intros [= ->]].
  - split; [done|]. intros [= -> ->]. lia.
  - split; [done|]. intros [= -> ->]. lia.
Qed.

Lemma str_compare_antisym s t : str_compare t s = CompOpp (str_compare s t).
Proof.
  revert t. induction s as [|a s IH]; intros [|b t]; simpl; try done.
  rewrite (N.compare_antisym a b). destruct (N.compare a b); simpl; [apply IH|done|done].
Qed.

Lemma str_compare_trans s t u :
  str_compare s t = Lt -> str_compare t u = Lt -> str_compare s u = Lt.
Proof.
  revert t u. induction s as [|a s IH]; intros [|b t] [|c u]; simpl; try done.
  destruct (N.compare_spec a b), (N.compare_spec b c), (N.compare_spec a c);
    subst; try done; try lia. apply IH.
Qed.

(** The order of strings as a relation, total and antisymmetric. *)
Definition str_le (s t : str) : Prop := str_leb s t = true.

#[export] Instance str_le_dec s t : Decision (str_le s t).
Proof. unfold str_le. apply _. Defined.

#[export] Instance str_le_total : Total str_le.
Proof.
  intros s t. unfold str_le, str_leb. rewrite (str_compare_antisym s t).
  destruct (str_compare s t); simpl; auto.
Qed.

#[export] Instance str_le_preorder : PreOrder str_le.
Proof.
  split.
  - intros s. unfold str_le, str_leb. by rewrite (proj2 (str_compare_eq s s) eq_refl).
  - intros s t u. unfold str_le, str_leb.
    destruct (str_compare s t) eqn:Hst; [|intros _|done].
    + apply str_compare_eq in Hst as ->. done.
    + destruct (str_compare t u) eqn:Htu; [|intros _|done].
      * apply str_compare_eq in Htu as ->. by rewrite Hst.
      * by rewrite (str_compare_trans _ _ _ Hst Htu).
Qed.

#[export] Instance str_le_antisym : AntiSymm (=) str_le.
Proof.
  intros s t. unfold str_le, str_leb. rewrite (str_compare_antisym s t).
  destruct (str_compare s t) eqn:H; simpl; try done.
  intros _ _. by apply str_compare_eq.
Qed.

Lemma str_le_cases s t : str_le s t \/ str_le t s.
Proof. apply (total str_le). Qed.

Lemma drop_while_forall p s : Forall (fun c => p c = true) s -> drop_while p s = [].
Proof. induction 1 as [|c s Hc _ IH]; simpl; [done|]. by rewrite Hc. Qed.

Lemma drop_while_suffix p s : exists pre, s = pre ++ drop_while p s /\ Forall (fun c => p c = true) pre.
Proof.
  induction s as [|c s (pre & Heq & Hall)]; simpl; [by exists []|].
  destruct (p c) eqn:Hc.
  - exists (c :: pre). split; [simpl; by f_equal|by constructor].
  - by exists [].
Qed.

Lemma drop_while_head p s c s' : drop_while p s = c :: s' -> p c = false.
Proof.
  induction s as [|d s IH]; simpl; [done|].
  destruct (p d) eqn:Hd; [exact IH|]. by intros [= <- _].
Qed.

Lemma drop_while_idem p s : drop_while p (drop_while p s) = drop_while p s.
Proof.
  destruct (drop_while p s) as [|c s'] eqn:H; [done|].
  simpl. by rewrite (drop_while_head _ _ _ _ H).
Qed.

(** A non-empty string trimmed at its end keeps its first character. *)
Lemma trim_end_head c s : is_whitespace c = false -> exists s', trim_end (c :: s) = c :: s'.
Proof.
  intros Hc. unfold trim_end.
  destruct (drop_while_suffix is_whitespace (rev (c :: s))) as (pre & Heq & Hall).
  destruct (drop_while is_whitespace (rev (c :: s))) as [|d r] eqn:Hd.
  - rewrite app_nil_r in Heq. rewrite <-Heq in Hall. simpl in Hall.
    apply Forall_app in Hall as [_ Hall]. inversion Hall as [|? ? Hcc]; congruence.
  - assert (Hrev : c :: s = rev (d :: r) ++ rev pre).
    { by rewrite <-rev_app_distr, <-Heq, rev_involutive. }
    destruct (rev (d :: r)) as [|e q] eqn:Hq.
    { apply (f_equal (@length _)) in Hq. by rewrite length_rev in Hq. }
    injection Hrev as <- _. by exists q.
Qed.

Lemma trim_idem s : trim (trim s) = trim s.
Proof.
  unfold trim at 2 3. destruct (trim_start s) as [|c s'] eqn:Hs; [done|].
  pose proof (drop_while_head _ _ _ _ Hs) as Hc.
  destruct (trim_end_head c s' Hc) as (q & Hq).
  unfold trim. rewrite Hq. unfold trim_start. simpl. rewrite Hc, <-Hq.
  unfold trim_end. by rewrite rev_involutive, drop_while_idem.
Qed.

Lemma strip_prefix_Some pre s r : strip_prefix pre s = Some r <-> s = pre ++ r.
Proof.
  revert s. induction pre as [|p pre IH]; intros s; simpl.
  - split; congruence.
  - destruct s as [|c s]; [split; done|]. destruct (N.eqb_spec p c) as [->|Hne].
    + rewrite IH. split; [by intros ->|by intros [= ->]].
    + split; [done|]. intros [= -> _]. done.
Qed.

Lemma strip_prefix_app pre r : strip_prefix pre (pre ++ r) = Some r.
Proof. by apply strip_prefix_Some. Qed.

Lemma starts_with_spec pre s : starts_with pre s = true <-> exists r, s = pre ++ r.
Proof.
  unfold starts_with. destruct (strip_prefix pre s) as [r|] eqn:H.
  - apply strip_prefix_Some in H. split; eauto.
  - split; [done|]. intros [r ->]. by rewrite strip_prefix_app in H.
Qed.

Lemma split_once_app pat s a b : split_once pat s = Some (a, b) -> s = a ++ pat ++ b.
Proof.
  revert a b. induction s as [|c s IH]; intros a b; simpl.
  - destruct (strip_prefix pat []) as [r|] eqn:H; [|done].
    apply strip_prefix_Some in H. intros [= <- <-]. done.
  - destruct (strip_prefix pat (c :: s)) as [r|] eqn:H.
    + apply strip_prefix_Some in H. intros [= <- <-]. done.
    + destruct (split_once pat s) as [[a' b']|] eqn:Hs; [|done].
      intros [= <- <-]. simpl. f_equal. by apply IH.
Qed.

(** The first occurrence of a one-character pattern is where it is. *)
Lemma split_once_char_intro c a b :
  c ∉ a -> split_once [c] (a ++ c :: b) = Some (a, b).
Proof.
  induction a as [|d a IH]; intros Hnot; simpl.
  - by rewrite N.eqb_refl.
  - rewrite not_elem_of_cons in Hnot. destruct Hnot as [Hne Hnot].
    destruct (N.eqb_spec c d); [congruence|]. by rewrite IH.
Qed.

(** Replacing in a text made of tokens, where the pattern begins with a character that
    no token has behind its first one: the tokens that are the pattern are replaced. *)
Lemma replace_go_skip pat rep t s : replace_go pat rep (length t) (t ++ s) = replace_go pat rep 0 s.
Proof. induction t as [|c t IH]; cbn; [by destruct s|done]. Qed.

Lemma replace_go_pass a p rep t s : a ∉ t -> replace_go (a :: p) rep 0 (t ++ s) = t ++ replace_go (a :: p) rep 0 s.
Proof.
  induction t as [|c t IH]; [done|]. rewrite not_elem_of_cons. intros [Hc Ht].
  cbn [app replace_go]. unfold starts_with. cbn [strip_prefix].
  destruct (N.eqb_spec a c); [congruence|]. by rewrite IH.
Qed.

Lemma str_replace_tokens {A} (f : A -> str) a p rep l :
  (forall x, x ∈ l -> f x = a :: p \/
     exists c t, f x = c :: t /\ a ∉ t /\ forall rest, starts_with (a :: p) (f x ++ rest) = false) ->
  str_replace (a :: p) rep (concat (map f l)) =
  concat (map (fun x => if decide (f x = a :: p) then rep else f x) l).
Proof.
  unfold str_replace. induction l as [|x l IH]; intros Hl; [done|]. cbn [map concat].
  specialize (IH ltac:(intros y Hy; by apply Hl, list_elem_of_further)).
  destruct (Hl x (list_elem_of_here _ _)) as [Hx|(c & t & Hx & Ht & Hno)].
  - rewrite decide_True by done. rewrite Hx. cbn [app replace_go].
    rewrite (proj2 (starts_with_spec _ _)) by (by exists (concat (map f l))). f_equal.
    replace (length (a :: p) - 1) with (length p) by (cbn; lia). by rewrite replace_go_skip, IH.
  - rewrite decide_False; [rewrite Hx in *|].
    + specialize (Hno (concat (map f l))). cbn [app] in *. cbn [replace_go]. rewrite Hno.
      by rewrite replace_go_pass, IH.
    + intros Heq. specialize (Hno []). rewrite Heq, app_nil_r in Hno.
      by rewrite (proj2 (starts_with_spec _ _)) in Hno by (exists []; by rewrite app_nil_r).
Qed.

Lemma parse_digits_app acc s t :
  parse_digits acc (s ++ t) = match parse_digits acc s with Some n => parse_digits n t | None => None end.
Proof.
  revert acc. induction s as [|c s IH]; intros acc; simpl; [done|].
  destruct (is_ascii_digit c); [apply IH|done].
Qed.

Lemma parse_uint_bound mx s n : parse_uint mx s = Some n -> (n <= mx)%N.
Proof.
  unfold parse_uint. destruct (match s with [] => s | _ => _ end); [done|].
  destruct (parse_digits 0 _); [|done].
  destruct (N.leb_spec n1 mx); [|done]. by intros [= <-].
Qed.

#[export] Instance dec_inj : Inj (=) (=) dec.
Proof. intros m n H. unfold dec in H. by apply (inj lit), (inj pretty) in H. Qed.

(** ** Sorting, first and last extrema

    Rust's [sort], [sort_by], [sort_by_key] are stable: an element is inserted
    in front of the first later element it does not exceed. *)

Section sort.
Context {A : Type} (le : A -> A -> Prop) `{!forall x y, Decision (le x y)}.

Fixpoint sort_insert (x : A) (l : list A) : list A :=
  match l with
  | [] => [x]
  | y :: l' => if decide (le x y) then x :: l else y :: sort_insert x l'
  end.

Definition sort_by (l : list A) : list A := foldr sort_insert [] l.

Lemma sort_insert_perm x l : sort_insert x l ≡ₚ x :: l.
Proof.
  induction l as [|y l IH]; simpl; [done|].
  destruct (decide (le x y)); [done|]. rewrite IH. apply Permutation_swap.
Qed.

Lemma sort_by_perm l : sort_by l ≡ₚ l.
Proof. induction l as [|x l IH]; simpl; [done|]. by rewrite sort_insert_perm, IH. Qed.

Context `{!Total le}.

Lemma sort_insert_HdRel y x l : le y x -> HdRel le y l -> HdRel le y (sort_insert x l).
Proof.
  intros Hyx Hhd. destruct l as [|z l]; simpl; [by constructor|].
  destruct (decide (le x z)); [by constructor|].
  inversion Hhd; subst. by constructor.
Qed.

Lemma sort_insert_sorted x l : Sorted le l -> Sorted le (sort_insert x l).
Proof.
  induction l as [|y l IH]; intros Hs; simpl; [by repeat constructor|].
  destruct (decide (le x y)) as [Hle|Hnle].
  - constructor; [done|by constructor].
  - inversion Hs as [|? ? Hs' Hhd]; subst. constructor; [by apply IH|].
    apply sort_insert_HdRel; [|done]. destruct (total le x y); [done|done].
Qed.

Lemma sort_by_sorted l : Sorted le (sort_by l).
Proof. induction l as [|x l IH]; simpl; [constructor|by apply sort_insert_sorted]. Qed.

Lemma sort_by_elem l x : x ∈ sort_by l <-> x ∈ l.
Proof. by rewrite sort_by_perm. Qed.

Lemma sort_by_length l : length (sort_by l) = length l.
Proof. by rewrite sort_by_perm. Qed.

(** A sorted list stays as it is, and one in strictly the other order is reversed. *)
Lemma sort_by_id l : Sorted le l -> sort_by l = l.
Proof.
  induction 1 as [|x l _ IH Hhd]; [done|]. change (sort_insert x (sort_by l) = x :: l). rewrite IH.
  destruct Hhd as [|y l Hxy]; [done|]. cbn. by rewrite decide_True.
Qed.

Lemma sort_insert_last x l : (forall y, y ∈ l -> ~ le x y) -> sort_insert x l = l ++ [x].
Proof.
  induction l as [|y l IH]; intros Hl; [done|]. cbn.
  rewrite decide_False by apply Hl, list_elem_of_here. f_equal. apply IH. intros z Hz.
  by apply Hl, list_elem_of_further.
Qed.

Lemma sort_by_reverse l : StronglySorted (fun x y => ~ le x y) l -> sort_by l = reverse l.
Proof.
  induction 1 as [|x l _ IH Hx]; [done|]. change (sort_insert x (sort_by l) = reverse (x :: l)).
  rewrite IH, reverse_cons. apply sort_insert_last.
  intros y Hy. rewrite elem_of_reverse in Hy. by apply (proj1 (Forall_forall _ _) Hx).
Qed.
End sort.

(** [Iterator::max_by_key] returns the last maximum. *)
Definition max_by_key {A} (key : A -> N) (l : list A) : option A :=
  match l with
  | [] => None
  | x :: l' => Some (foldl (fun best y => if (key best <=? key y)%N then y else best) x l')
  end.

Lemma foldl_max_ge {A} (key : A -> N) l x :
  let m := foldl (fun best y => if (key best <=? key y)%N then y else best) x l in
  (key x <= key m)%N /\ (m = x \/ m ∈ l) /\ forall y, y ∈ l -> (key y <= key m)%N.
Proof.
  revert x. induction l as [|y l IH]; intros x; simpl.
  - split_and!; [lia|by left|]. intros y Hy. by apply elem_of_nil in Hy.
  - specialize (IH (if (key x <=? key y)%N then y else x)) as (Hge & Hin & Hall).
    set (m := foldl _ _ _) in *.
    destruct (N.leb_spec (key x) (key y)); (split_and!;
      [lia
      |set_solver
      |intros z [->|Hz]%elem_of_cons; [lia|by apply Hall]]).
Qed.

Lemma max_by_key_spec {A} (key : A -> N) l m :
  max_by_key key l = Some m -> m ∈ l /\ forall y, y ∈ l -> (key y <= key m)%N.
Proof.
  destruct l as [|x l]; [done|]. intros [= Hm].
  destruct (foldl_max_ge key l x) as (Hge & Hin & Hall). rewrite Hm in *.
  split; [set_solver|]. intros y [->|Hy]%elem_of_cons; [done|by apply Hall].
Qed.

(** [Iterator::min] on strings. *)
Definition str_min (s t : str) : str := if str_leb s t then s else t.
Definition min_str (l : list str) : option str :=
  match l with [] => None | x :: l' => Some (foldl str_min x l') end.

Lemma str_min_spec s t : (str_min s t = s \/ str_min s t = t) /\ str_le (str_min s t) s /\ str_le (str_min s t) t.
Proof.
  unfold str_min. destruct (str_leb s t) eqn:H.
  - split_and!; [by left|reflexivity|exact H].
  - split_and!; [by right| |reflexivity].
    destruct (str_le_cases s t) as [Hc|Hc]; [unfold str_le in Hc; congruence|done].
Qed.

Lemma min_str_spec l m : min_str l = Some m <-> m ∈ l /\ forall y, y ∈ l -> str_le m y.
Proof.
  assert (Hfold : forall l x, let m := foldl str_min x l in
            (m = x \/ m ∈ l) /\ str_le m x /\ forall y, y ∈ l -> str_le m y).
  { clear l m. induction l as [|y l IH]; intros x; simpl.
    - split_and!; [by left|reflexivity|]. intros y Hy. by apply elem_of_nil in Hy.
    - destruct (IH (str_min x y)) as (Hin & Hle & Hall).
      destruct (str_min_spec x y) as (Hor & Hx & Hy). set (m := foldl _ _ _) in *.
      split_and!.
      + destruct Hin as [->|Hin]; [|set_solver]. destruct Hor as [-> | ->]; set_solver.
      + by transitivity (str_min x y).
      + intros z [->|Hz]%elem_of_cons; [by transitivity (str_min x y)|by apply Hall]. }
  destruct l as [|x l]; simpl.
  { split; [done|]. intros [Hm _]. by apply elem_of_nil in Hm. }
  destruct (Hfold l x) as (Hin & Hle & Hall). set (m' := foldl _ _ _) in *.
  assert (Hm' : m' ∈ x :: l /\ forall y, y ∈ x :: l -> str_le m' y).
  { split; [set_solver|]. intros y [->|Hy]%elem_of_cons; [done|by apply Hall]. }
  split; [by intros [= <-]|]. intros [Hmin Hmle]. f_equal.
  apply (anti_symm str_le); [by apply Hm'|apply Hmle, Hm'].
Qed.

(** Membership of a string in a list, as the code's [contains] on a set. *)
Definition str_in (s : str) (l : list str) : bool := bool_decide (s ∈ l).

Lemma str_in_spec s l : str_in s l = true <-> s ∈ l.
Proof. apply bool_decide_eq_true. Qed.

(** Ordering of numbers by an [N] key, for [sort_by_key]. *)
Definition key_le {A} (key : A -> N) (x y : A) : Prop := (key x <= key y)%N.
#[export] Instance key_le_dec {A} (key : A -> N) x y : Decision (key_le key x y).
Proof. unfold key_le. apply _. Defined.
#[export] Instance key_le_total {A} (key : A -> N) : Total (key_le key).
Proof. intros x y. unfold key_le. lia. Qed.


Lemma sort_by_head_min l : head (sort_by str_le l) = min_str l.
Proof.
  pose proof (sort_by_sorted str_le l) as Hs.
  pose proof (sort_by_elem str_le l) as Hel.
  destruct (sort_by str_le l) as [|m s] eqn:Heq; simpl; symmetry.
  - destruct l as [|x l]; [done|]. exfalso.
    specialize (Hel x). rewrite elem_of_cons in Hel. set_solver.
  - apply min_str_spec. split; [apply Hel; set_solver|].
    intros y Hy%Hel. apply Sorted_StronglySorted in Hs; [|apply _].
    apply StronglySorted_inv in Hs as [_ Hall].
    apply elem_of_cons in Hy as [->|Hy]; [reflexivity|].
    by eapply Forall_forall in Hall.
Qed.

(** The minimum depends on the elements only. *)
Lemma min_str_ext l1 l2 : (forall x, x ∈ l1 <-> x ∈ l2) -> min_str l1 = min_str l2.
Proof.
  intros Hext. destruct (min_str l1) as [m|] eqn:H1.
  - apply min_str_spec in H1 as [Hin Hle]. symmetry. apply min_str_spec.
    split; [by apply Hext|]. intros y Hy. by apply Hle, Hext.
  - destruct l1 as [|x l1]; [|done]. destruct l2 as [|y l2]; [done|].
    exfalso. apply (not_elem_of_nil y), Hext. set_solver.
Qed.

Lemma min_str_None l : min_str l = None <-> l = [].
Proof. by destruct l. Qed.

(** ** Lists *)

Lemma omap_cons_app {A B} (f : A -> option B) x (l : list A) :
  omap f (x :: l) = option_list (f x) ++ omap f l.
Proof. cbn. by destruct (f x). Qed.

Lemma omap_ext_elem {A B} (f g : A -> option B) (l : list A) :
  (forall x, x ∈ l -> f x = g x) -> omap f l = omap g l.
Proof.
  induction l as [|x l IH]; intros Hext; [done|].
  rewrite !omap_cons_app, (Hext x), IH; [done| |]; set_solver.
Qed.

(** ** Decimal numerals *)

Lemma is_ascii_digit_char x :
  (x < 10)%N -> is_ascii_digit (Ascii.N_of_ascii (pretty_N_char x)) = true
                /\ (Ascii.N_of_ascii (pretty_N_char x) - 48 = x)%N.
Proof.
  intros Hx. destruct x as [|p]; [done|].
  do 4 (destruct p as [p|p|]; try (split; reflexivity)); lia.
Qed.

Lemma pretty_N_go_digits n s :
  Forall (fun c => is_ascii_digit c = true) (lit s) ->
  Forall (fun c => is_ascii_digit c = true) (lit (pretty_N_go n s)).
Proof.
  revert s. induction (N.lt_wf_0 n) as [n _ IH]. intros s Hs.
  destruct (decide (0 < n)%N) as [Hn|Hn].
  - rewrite pretty_N_go_step by done. apply IH; [apply N.div_lt; lia|].
    rewrite lit_cons. constructor; [|done]. apply is_ascii_digit_char, N.mod_lt. done.
  - assert (n = 0%N) as -> by lia. by rewrite pretty_N_go_0.
Qed.

Lemma parse_pretty_N_go n s :
  parse_digits 0 (lit (pretty_N_go n s)) = parse_digits n (lit s).
Proof.
  revert s. induction (N.lt_wf_0 n) as [n _ IH]. intros s.
  destruct (decide (0 < n)%N) as [Hn|Hn].
  - rewrite pretty_N_go_step, IH by (done || apply N.div_lt; lia).
    rewrite lit_cons. cbn [parse_digits].
    destruct (is_ascii_digit_char (n mod 10)) as [-> ->]; [by apply N.mod_lt|].
    f_equal. pose proof (N.div_mod n 10). lia.
  - assert (n = 0%N) as -> by lia. by rewrite pretty_N_go_0.
Qed.

Lemma dec_digits n : Forall (fun c => is_ascii_digit c = true) (dec n).
Proof.
  unfold dec, pretty, pretty_N. case_decide; [by repeat constructor|].
  by apply pretty_N_go_digits.
Qed.

Lemma dec_nonempty n : dec n <> [].
Proof.
  intros H. assert (Hp : parse_digits 0 (dec n) = Some n).
  { unfold dec, pretty, pretty_N. case_decide; [by subst|]. by rewrite parse_pretty_N_go. }
  rewrite H in Hp. injection Hp as <-. discriminate H.
Qed.

Lemma parse_digits_dec n : parse_digits 0 (dec n) = Some n.
Proof.
  unfold dec, pretty, pretty_N. case_decide; [by subst|]. by rewrite parse_pretty_N_go.
Qed.

(** Parsing what [Display] prints gives the number back. *)
Lemma parse_uint_dec mx n : (n <= mx)%N -> parse_uint mx (dec n) = Some n.
Proof.
  intros Hn. pose proof (dec_digits n) as Hd. pose proof (parse_digits_dec n) as Hp.
  pose proof (dec_nonempty n) as Hne. unfold parse_uint.
  destruct (dec n) as [|c s]; [done|].
  destruct (N.eqb_spec c 43) as [->|_].
  { apply Forall_inv in Hd. vm_compute in Hd. discriminate. }
  rewrite Hp. by rewrite (proj2 (N.leb_le n mx) Hn).
Qed.

Lemma dec_not_elem c n : is_ascii_digit c = false -> c ∉ dec n.
Proof.
  intros Hc Hin. pose proof (dec_digits n) as Hd. rewrite Forall_forall in Hd.
  specialize (Hd c Hin). congruence.
Qed.
#[export] Hint Resolve dec_not_elem : evo.

Lemma elem_of_concat_map {A B} (f : A -> list B) (l : list A) b :
  b ∈ concat (map f l) <-> exists a, a ∈ l /\ b ∈ f a.
Proof.
  induction l as [|a l IH]; simpl.
  - split; [by intros ?%not_elem_of_nil|]. by intros (? & ?%not_elem_of_nil & _).
  - rewrite elem_of_app, IH. setoid_rewrite elem_of_cons. naive_solver.
Qed.

(** ** Lines and trimming of delimited text *)

(** What makes a line: no line feed, and no return at the end. *)
Definition one_line (l : str) : Prop := LF ∉ l /\ last l <> Some CR.
#[export] Instance one_line_dec l : Decision (one_line l).
Proof. unfold one_line. apply _. Defined.

Lemma one_line_app a b : LF ∉ a -> b <> [] -> one_line b -> one_line (a ++ b).
Proof.
  intros Ha Hne [Hb Hl]. split; [by rewrite elem_of_app; intros [?|?]|].
  rewrite last_app. destruct (last b) eqn:Hlb; [done|by apply last_None in Hlb].
Qed.

Lemma lines_go_app cur l s :
  LF ∉ l -> lines_go cur (l ++ LF :: s) = lines_go (rev l ++ cur) (LF :: s).
Proof.
  revert cur. induction l as [|c l IH]; intros cur Hnot; [done|].
  rewrite not_elem_of_cons in Hnot. destruct Hnot as [Hc Hnot]. cbn [app lines_go rev].
  destruct (N.eqb_spec c LF); [congruence|]. by rewrite IH, <-app_assoc.
Qed.

(** A line is taken off the front of a text. *)
Lemma lines_cons l s : LF ∉ l -> last l <> Some CR -> lines (l ++ LF :: s) = l :: lines s.
Proof.
  intros Hnot Hlast. unfold lines. rewrite lines_go_app, app_nil_r by done. cbn [lines_go].
  rewrite N.eqb_refl. f_equal. destruct l as [|x l _] using rev_ind; [done|].
  rewrite last_snoc in Hlast. rewrite rev_app_distr. cbn [rev app].
  destruct (N.eqb_spec x CR); [congruence|]. cbn [rev]. by rewrite rev_involutive.
Qed.

Lemma lines_concat ls s :
  Forall (fun l => LF ∉ l /\ last l <> Some CR) ls ->
  lines (concat (map (fun l => l ++ [LF]) ls) ++ s) = ls ++ lines s.
Proof.
  induction 1 as [|l ls [Hl Hcr] _ IH]; [done|]. cbn [map concat]. rewrite <-!app_assoc.
  cbn [app]. by rewrite lines_cons, IH.
Qed.

(** A text of lines. *)
Definition unlines (ls : list str) : str := concat (map (fun l => l ++ [LF]) ls).
Lemma lines_unlines ls : Forall one_line ls -> lines (unlines ls) = ls.
Proof. intros H. unfold unlines. rewrite <-(app_nil_r (concat _)), (lines_concat ls []) by exact H. by rewrite app_nil_r. Qed.

(** Trimming leaves a text that begins and ends with characters that are not white. *)
Lemma trim_delimited c s d :
  is_whitespace c = false -> is_whitespace d = false -> trim (c :: s ++ [d]) = c :: s ++ [d].
Proof.
  intros Hc Hd. unfold trim, trim_start, trim_end. cbn [drop_while]. rewrite Hc.
  rewrite app_comm_cons, rev_app_distr. cbn [rev app drop_while]. rewrite Hd.
  cbn [rev]. by rewrite rev_app_distr, rev_involutive.
Qed.

Lemma trim_single c : is_whitespace c = false -> trim [c] = [c].
Proof. intros Hc. unfold trim, trim_start, trim_end. cbn. rewrite Hc. cbn. by rewrite Hc. Qed.

(** Text that trimming leaves alone. *)
Definition tidy (s : str) : Prop :=
  s <> [] /\ (forall c, head s = Some c -> is_whitespace c = false)
  /\ (forall c, last s = Some c -> is_whitespace c = false).

Lemma trim_tidy s : tidy s -> trim s = s.
Proof.
  intros (Hne & Hh & Hl). destruct s as [|c s]; [done|]. specialize (Hh c eq_refl).
  destruct s as [|d s _] using rev_ind; [by apply trim_single|].
  apply trim_delimited; [done|]. apply Hl. by rewrite app_comm_cons, last_snoc.
Qed.

Lemma digit_not_ws c : is_ascii_digit c = true -> is_whitespace c = false.
Proof.
  unfold is_ascii_digit, is_whitespace, in_range. intros Hc. apply andb_prop in Hc as [H1 H2].
  apply N.leb_le in H1, H2. repeat (apply orb_false_intro); try (apply N.eqb_neq; lia);
    apply andb_false_iff; rewrite !N.leb_gt; lia.
Qed.
Lemma dec_tidy n : tidy (dec n).
Proof.
  pose proof (dec_digits n) as Hd. split_and!; [apply dec_nonempty|..]; intros c Hc.
  - destruct (dec n) as [|d l]; [done|]. injection Hc as ->. inversion Hd; subst. by apply digit_not_ws.
  - apply last_Some in Hc as [l Hc]. rewrite Hc in Hd. apply Forall_app in Hd as [_ Hd]. inversion Hd; subst. by apply digit_not_ws.
Qed.

Lemma trim_space c s : is_whitespace c = true -> trim (c :: s) = trim s.
Proof. intros Hc. unfold trim, trim_start. cbn [drop_while]. by rewrite Hc. Qed.

Lemma trim_space_end c s : is_whitespace c = true -> trim (s ++ [c]) = trim s.
Proof.
  intros Hc. unfold trim. assert (trim_start (s ++ [c]) = [] /\ trim_start s = [] \/ trim_start (s ++ [c]) = trim_start s ++ [c]) as H.
  { unfold trim_start. induction s as [|d s IH]; cbn; [rewrite Hc; by left|]. destruct (is_whitespace d); [done|by right]. }
  destruct H as [[-> ->]| ->]; [done|]. unfold trim_end. rewrite rev_app_distr. cbn [rev app drop_while]. by rewrite Hc.
Qed.

Lemma tidy_app c pre s : is_whitespace c = false -> tidy s -> tidy ((c :: pre) ++ s).
Proof.
  intros Hc (Hne & _ & Hl). split_and!; [done|by intros ? [= <-]|].
  intros d Hd. apply Hl. rewrite last_app in Hd. destruct (last s) eqn:Hs; [done|].
  by apply last_None in Hs.
Qed.

(** ** Splitting a text that was joined *)

Lemma split_char_piece sep p r : sep ∉ p -> split_char sep (p ++ sep :: r) = p :: split_char sep r.
Proof.
  induction p as [|c p IH]; intros Hp; cbn; [by rewrite N.eqb_refl|].
  apply not_elem_of_cons in Hp as [Hc Hp]. destruct (N.eqb_spec c sep) as [->|_]; [done|]. by rewrite IH.
Qed.

Lemma split_char_last sep p : sep ∉ p -> split_char sep p = [p].
Proof.
  induction p as [|c p IH]; intros Hp; cbn; [done|].
  apply not_elem_of_cons in Hp as [Hc Hp]. destruct (N.eqb_spec c sep) as [->|_]; [done|]. by rewrite IH.
Qed.

(** A word: what [split_whitespace] leaves in one piece. *)
Definition word (s : str) : Prop := s <> [] /\ Forall (fun c => is_whitespace c = false) s.

Lemma split_on_piece p w c s :
  Forall (fun d => p d = false) w -> p c = true -> split_on p (w ++ c :: s) = w :: split_on p s.
Proof. intros Hw Hc. induction Hw as [|d w Hd _ IH]; cbn; [by rewrite Hc|]. by rewrite Hd, IH. Qed.

Lemma split_on_last p w : Forall (fun d => p d = false) w -> split_on p w = [w].
Proof. induction 1 as [|d w Hd _ IH]; cbn; [done|]. by rewrite Hd, IH. Qed.

Lemma str_is_empty_false s : s <> [] -> str_is_empty s = false.
Proof. by destruct s. Qed.

Lemma words_cons w c s :
  word w -> is_whitespace c = true -> split_whitespace (w ++ c :: s) = w :: split_whitespace s.
Proof.
  intros [Hne Hw] Hc. unfold split_whitespace. rewrite split_on_piece by done.
  by rewrite filter_cons_True by by apply str_is_empty_false.
Qed.

Lemma words_last w : word w -> split_whitespace w = [w].
Proof.
  intros [Hne Hw]. unfold split_whitespace. rewrite split_on_last by done.
  by rewrite filter_cons_True by by apply str_is_empty_false.
Qed.

(** ** UTF-8 *)

(** What fits the encoding. *)
Definition scalar (c : N) : Prop := (c < 1114112)%N.

Lemma encode_utf8_byte c b : scalar c -> b ∈ encode_utf8 c -> (b < 256)%N.
Proof.
  unfold scalar, encode_utf8. intros Hc Hb.
  repeat case_match; rewrite ?N.ltb_lt, ?N.ltb_ge in *;
    repeat (apply elem_of_cons in Hb as [->|Hb]); try (by apply elem_of_nil in Hb);
    zify; Z.to_euclidean_division_equations; lia.
Qed.

Lemma same_digits_64 a b : (a / 64 = b / 64 -> a mod 64 = b mod 64 -> a = b)%N.
Proof. intros H1 H2. pose proof (N.div_mod a 64). pose proof (N.div_mod b 64). lia. Qed.

Lemma encode_utf8_inj c d r r' :
  scalar c -> scalar d -> encode_utf8 c ++ r = encode_utf8 d ++ r' -> c = d /\ r = r'.
Proof.
  unfold scalar, encode_utf8. intros Hc Hd.
  destruct (N.ltb_spec c 128), (N.ltb_spec d 128); [by intros [= -> ->]|..];
  destruct (N.ltb_spec c 2048), (N.ltb_spec d 2048); try lia; cbn [app];
  destruct (N.ltb_spec c 65536), (N.ltb_spec d 65536); try lia; cbn [app]; intros [= ]; subst;
    first [split; [|done] | exfalso; zify; Z.div_mod_to_equations; lia].
  all: assert (H64 : forall x, (x / 4096 = x / 64 / 64)%N /\ (x / 262144 = x / 64 / 64 / 64)%N)
    by (intros x; by rewrite !N.Div0.div_div).
  all: destruct (H64 c) as [Hc1 Hc2], (H64 d) as [Hd1 Hd2]; rewrite ?Hc1, ?Hd1, ?Hc2, ?Hd2 in *.
  all: repeat match goal with H : (_ + _ = _ + _)%N |- _ => apply N.add_cancel_l in H end.
  all: repeat (apply same_digits_64; [|assumption]); assumption.
Qed.

Lemma as_bytes_inj s t : Forall scalar s -> Forall scalar t -> as_bytes s = as_bytes t -> s = t.
Proof.
  assert (Hne : forall c, encode_utf8 c <> []) by (intros c; unfold encode_utf8; repeat case_match; done).
  intros Hs. revert t. induction Hs as [|c s Hc _ IH]; intros [|d t] Ht H; [done| | |].
  - unfold as_bytes in H. cbn in H. symmetry in H. apply app_eq_nil in H as [H _]. by apply Hne in H.
  - unfold as_bytes in H. cbn in H. apply app_eq_nil in H as [H _]. by apply Hne in H.
  - apply Forall_cons in Ht as [Hd Ht]. unfold as_bytes in H. cbn in H.
    apply encode_utf8_inj in H as [-> H]; [|done|done]. f_equal. by apply IH.
Qed.

(** *** Decoding what was encoded *)

Local Open Scope N_scope.
(** Characters that are not surrogates. *)
Definition unicode (c : N) : Prop := c < 55296 \/ 57344 <= c < 1114112.
Lemma from_utf8_cons c s r : unicode c -> from_utf8 r = Some s -> from_utf8 (encode_utf8 c ++ r) = Some (c :: s).
Proof.
  intros Hc Hr. unfold encode_utf8, unicode in *.
  destruct (N.ltb_spec c 128) as [H1|H1].
  { cbn [app from_utf8]. rewrite (proj2 (N.ltb_lt c 128)) by done. by rewrite Hr. }
  destruct (N.ltb_spec c 2048) as [H2|H2].
  { cbn [app from_utf8].
    pose proof (N.div_mod' c 64). pose proof (N.mod_lt c 64 ltac:(lia)).
    set (q := c / 64) in *. set (m := c mod 64) in *. clearbody q m.
    rewrite (proj2 (N.ltb_ge _ 128)) by lia. unfold in_range, continuation, in_range, payload.
    repeat rewrite (proj2 (N.leb_le _ _)) by lia. cbn [andb]. rewrite Hr. cbn. do 2 f_equal. lia. }
  assert (H64 : c / 4096 = c / 64 / 64 /\ c / 262144 = c / 64 / 64 / 64) by (by rewrite !N.Div0.div_div).
  destruct H64 as [E2 E3]. rewrite ?E2, ?E3.
  pose proof (N.div_mod' c 64) as D0. pose proof (N.mod_lt c 64 ltac:(lia)) as L0.
  set (x1 := c / 64) in *. set (m0 := c mod 64) in *.
  pose proof (N.div_mod' x1 64) as D1. pose proof (N.mod_lt x1 64 ltac:(lia)) as L1.
  set (x2 := x1 / 64) in *. set (m1 := x1 mod 64) in *.
  pose proof (N.div_mod' x2 64) as D2. pose proof (N.mod_lt x2 64 ltac:(lia)) as L2.
  set (x3 := x2 / 64) in *. set (m2 := x2 mod 64) in *.
  clear E2 E3. clearbody x1 m0 x2 m1 x3 m2. unfold continuation, in_range, payload.
  destruct (N.ltb_spec c 65536) as [H3|H3]; cbn [app from_utf8]; rewrite (proj2 (N.ltb_ge _ 128)) by lia;
    unfold continuation, in_range, payload.
  - assert (T1 : (194 <=? 224 + x2) && (224 + x2 <=? 223) = false) by (apply andb_false_iff; right; apply N.leb_gt; lia).
    rewrite T1. rewrite (proj2 (N.leb_le 224 _)), (proj2 (N.leb_le _ 239)) by lia. cbn [andb].
    assert (T2 : (if 224 + x2 =? 224 then 160 else 128) <=? 128 + m1 = true).
    { apply N.leb_le. destruct (N.eqb_spec (224 + x2) 224); lia. }
    assert (T3 : 128 + m1 <=? (if 224 + x2 =? 237 then 159 else 191) = true).
    { apply N.leb_le. destruct (N.eqb_spec (224 + x2) 237); lia. }
    rewrite T2, T3. repeat rewrite (proj2 (N.leb_le _ _)) by lia. cbn [andb]. rewrite Hr. cbn. do 2 f_equal. lia.
  - assert (T1 : (194 <=? 240 + x3) && (240 + x3 <=? 223) = false) by (apply andb_false_iff; right; apply N.leb_gt; lia).
    assert (T4 : (224 <=? 240 + x3) && (240 + x3 <=? 239) = false) by (apply andb_false_iff; right; apply N.leb_gt; lia).
    rewrite T1, T4. rewrite (proj2 (N.leb_le 240 _)), (proj2 (N.leb_le _ 244)) by lia. cbn [andb].
    assert (T2 : (if 240 + x3 =? 240 then 144 else 128) <=? 128 + m2 = true).
    { apply N.leb_le. destruct (N.eqb_spec (240 + x3) 240); lia. }
    assert (T3 : 128 + m2 <=? (if 240 + x3 =? 244 then 143 else 191) = true).
    { apply N.leb_le. destruct (N.eqb_spec (240 + x3) 244); lia. }
    rewrite T2, T3. repeat rewrite (proj2 (N.leb_le _ _)) by lia. cbn [andb]. rewrite Hr. cbn. do 2 f_equal. lia.
Qed.
Lemma from_utf8_as_bytes s : Forall unicode s -> from_utf8 (as_bytes s) = Some s.
Proof. induction 1 as [|c s Hc _ IH]; [done|]. unfold as_bytes. cbn [map concat]. by apply from_utf8_cons. Qed.
Local Close Scope N_scope.
