(* ===== verification/Election.v ===== *)
(** * Source-host election ([crates/evo-multiroom/src/election.rs])

    The election runtime's in-memory mirror, the evaluation of every group
    against the local live-device set, and the durable writes and happenings it
    makes.  The persistence store and the group records belong to the framework
    crate: the store is an interface ([ElectionStore]) with the law the code
    relies on, the group record has the fields the code reads.  Not modelled: the
    happening's wall-clock [at] field and the log lines. *)

From S2P Require Import Prelude.
Local Open Scope N_scope.

(** ** Data *)

(** [ElectionConfig]; durations in milliseconds. *)
Record ElectionConfig := { eval_interval : N; liveness_window : N }.
Definition ElectionConfig_default : ElectionConfig :=
  {| eval_interval := 30 * 1000; liveness_window := 60 * 1000 |}.

(** [PersistedSourceHostElection] *)
Record SourceHostElection := {
  group_id : str;
  source_host_device_id : option str;
  candidate_count : N;
  elected_at_ms : N;
}.

(** The fields of a framework group the election reads. *)
Record Group := {
  g_group_id : str;
  g_display_name : str;
  g_members : list str;
  g_pinned_source_host : option str;
}.

(** The fields of an audio-plane connection the election reads. *)
Record PeerConnection := { remote_device_id : str; last_channel_activity_ms : N }.

(** [Happening::SourceHostElected] *)
Record SourceHostElected := {
  h_group_id : str;
  h_display_name : str;
  h_source_host : option str;
  h_prior_source_host : option str;
  h_candidate_count : N;
}.

(** The kinds of happenings the subscriber tells apart. *)
Inductive HappeningKind :=
| PeerDiscovered | PeerUpdated | PeerLost
| GroupCreated | GroupMembershipChanged | GroupDeleted
| OtherHappening.

Inductive ElectionError (PE GE : Type) := EPersistence (e : PE) | EGroups (e : GE).
Arguments EPersistence {PE GE} e.
Arguments EGroups {PE GE} e.

#[export] Instance SourceHostElection_eq_dec : EqDecision SourceHostElection.
Proof. solve_decision. Defined.

(** ** The persistence interface *)

Class ElectionStore (P PE : Type) := {
  put_source_host_election : SourceHostElection -> P -> result P PE;
  list_source_host_elections : P -> result (list SourceHostElection) PE;
  (** The row the store holds for a group. *)
  stored_row : P -> str -> option SourceHostElection;
}.

(** What the code relies on: a put that succeeds makes the record the row of its
    group and leaves the other rows alone; a listing holds exactly the rows, one
    for each group. *)
Class ElectionStoreLaws (P PE : Type) `{ElectionStore P PE} := {
  put_row : forall r p p' k, put_source_host_election r p = Ok p' ->
    stored_row p' k = if decide (k = group_id r) then Some r else stored_row p k;
  list_rows : forall p rows, list_source_host_elections p = Ok rows ->
    (forall r, r ∈ rows <-> stored_row p (group_id r) = Some r)
    /\ NoDup (map group_id rows);
}.

(** A concrete store: the rows in a map, refusing the groups of a deny list. *)
Record MapStore := { ms_rows : gmap str SourceHostElection; ms_deny : list str }.
Definition MapStore_put (r : SourceHostElection) (p : MapStore) : result MapStore str :=
  if str_in (group_id r) (ms_deny p) then Err (lit "disk")
  else Ok {| ms_rows := <[group_id r := r]> (ms_rows p); ms_deny := ms_deny p |}.
Definition MapStore_list (p : MapStore) : result (list SourceHostElection) str :=
  Ok (map snd (filter (fun kv => kv.1 = group_id kv.2) (map_to_list (ms_rows p)))).
#[export] Instance MapStore_store : ElectionStore MapStore str := {
  put_source_host_election := MapStore_put;
  list_source_host_elections := MapStore_list;
  stored_row p k := match ms_rows p !! k with
                    | Some r => if decide (k = group_id r) then Some r else None
                    | None => None
                    end;
}.

(** ** The election *)

(** [now_ms().saturating_sub(liveness_window)], the peers whose channel was
    active since, and the local device ([live_device_set]). *)
Definition live_device_set (local : str) (cfg : ElectionConfig)
    (audio_plane : option (list PeerConnection)) (now : N) : gset str :=
  let cutoff := sat_sub now (liveness_window cfg mod 2 ^ 64) in
  let set0 : gset str := {[ local ]} in
  match audio_plane with
  | None => set0
  | Some conns =>
      foldl (fun set c =>
               if cutoff <=? last_channel_activity_ms c
               then {[ remote_device_id c ]} ∪ set else set) set0 conns
  end.

(** [candidates]: the members that are live, in member order. *)
Definition candidates (live : gset str) (members : list str) : list str :=
  filter (fun m => m ∈ live) members.

(** [elect_source_host] *)
Definition elect_source_host (members : list str) (live : gset str) : option str * N :=
  let cands := sort_by str_le (candidates live members) in
  (head cands, N.of_nat (length cands) mod 2 ^ 32).

(** The choice in [evaluate]: a pin that is a live member, else the least
    candidate. *)
Definition new_source_host (live : gset str) (g : Group) : option str :=
  let cands := candidates live (g_members g) in
  match g_pinned_source_host g with
  | Some pin => if str_in pin cands then Some pin else min_str cands
  | None => min_str cands
  end.

Definition is_election_trigger (h : HappeningKind) : bool :=
  match h with
  | PeerDiscovered | PeerUpdated | PeerLost
  | GroupCreated | GroupMembershipChanged | GroupDeleted => true
  | OtherHappening => false
  end.

Section runtime.
Context {P PE GE : Type} `{ElectionStore P PE}.

(** The runtime's own state, the store behind it and the happenings handed to
    the bus, in order (a failed emit is only logged). *)
Record ElectionRuntime := {
  elections : gmap str SourceHostElection;
  persistence : P;
  emitted : list SourceHostElected;
}.

(** [rehydrate] *)
Definition rehydrate (rt : ElectionRuntime) : result ElectionRuntime (ElectionError PE GE) :=
  match list_source_host_elections (persistence rt) with
  | Err e => Err (EPersistence e)
  | Ok rows =>
      Ok {| elections := list_to_map (rev (map (fun r => (group_id r, r)) rows));
            persistence := persistence rt; emitted := emitted rt |}
  end.

(** [get] and [list] *)
Definition get (rt : ElectionRuntime) (id : str) : option SourceHostElection :=
  elections rt !! id.
Definition group_id_le (a b : SourceHostElection) : Prop := str_le (group_id a) (group_id b).
#[global] Instance group_id_le_dec a b : Decision (group_id_le a b).
Proof. unfold group_id_le. apply _. Defined.
Definition list_elections (rt : ElectionRuntime) : list SourceHostElection :=
  sort_by group_id_le (map snd (map_to_list (elections rt))).
Definition source_host_for (rt : ElectionRuntime) (id : str) : option str :=
  match get rt id with Some e => source_host_device_id e | None => None end.

(** The body of [evaluate]'s loop over the groups. *)
Definition evaluate_group (live : gset str) (now : N) (g : Group) (rt : ElectionRuntime)
    : ElectionRuntime * result unit (ElectionError PE GE) :=
  let host := new_source_host live g in
  let count := N.of_nat (length (candidates live (g_members g))) mod 2 ^ 32 in
  let prior := elections rt !! g_group_id g in
  let prior_host := match prior with Some e => source_host_device_id e | None => None end in
  if bool_decide (prior_host = host) && bool_decide (is_Some prior) then (rt, Ok tt)
  else
    let record := {| group_id := g_group_id g; source_host_device_id := host;
                     candidate_count := count; elected_at_ms := now |} in
    match put_source_host_election record (persistence rt) with
    | Err e => (rt, Err (EPersistence e))
    | Ok p' =>
        ({| elections := <[ g_group_id g := record ]> (elections rt);
            persistence := p';
            emitted := emitted rt ++
              [{| h_group_id := g_group_id g; h_display_name := g_display_name g;
                  h_source_host := host; h_prior_source_host := prior_host;
                  h_candidate_count := count |}] |}, Ok tt)
    end.

Fixpoint evaluate_groups (live : gset str) (now : N) (gs : list Group) (rt : ElectionRuntime)
    : ElectionRuntime * result unit (ElectionError PE GE) :=
  match gs with
  | [] => (rt, Ok tt)
  | g :: gs' =>
      match evaluate_group live now g rt with
      | (rt', Ok _) => evaluate_groups live now gs' rt'
      | (rt', Err e) => (rt', Err e)
      end
  end.

(** [g.elections.retain(..)] *)
Definition retain_groups (gs : list Group) (rt : ElectionRuntime) : ElectionRuntime :=
  {| elections := filter (fun kv => kv.1 ∈ map g_group_id gs) (elections rt);
     persistence := persistence rt; emitted := emitted rt |}.

(** [evaluate]: [groups] is what [group_store.list()] returned. *)
Definition evaluate (groups : result (list Group) GE) (live : gset str) (now : N)
    (rt : ElectionRuntime) : ElectionRuntime * result unit (ElectionError PE GE) :=
  match groups with
  | Err e => (rt, Err (EGroups e))
  | Ok gs => evaluate_groups live now gs (retain_groups gs rt)
  end.
End runtime.
Arguments ElectionRuntime P : clear implicits.

(** ** Candidates and the election rule *)

Lemma elem_of_candidates live ms m : m ∈ candidates live ms <-> m ∈ ms /\ m ∈ live.
Proof. unfold candidates. rewrite list_elem_of_filter. tauto. Qed.

Lemma live_device_set_spec local cfg conns now d :
  d ∈ live_device_set local cfg (Some conns) now <->
  d = local \/ exists c, c ∈ conns /\ remote_device_id c = d
                   /\ now - liveness_window cfg mod 2 ^ 64 <= last_channel_activity_ms c.
Proof.
  unfold live_device_set, sat_sub. generalize (now - liveness_window cfg mod 2 ^ 64). intros cutoff.
  assert (Hgen : forall s0 : gset str,
    d ∈ foldl (fun set c => if cutoff <=? last_channel_activity_ms c
                          then {[ remote_device_id c ]} ∪ set else set) s0 conns
    <-> d ∈ s0 \/ exists c, c ∈ conns /\ remote_device_id c = d /\ cutoff <= last_channel_activity_ms c).
  { induction conns as [|c conns IH]; intros s0; simpl.
    - set_solver.
    - rewrite IH. destruct (N.leb_spec cutoff (last_channel_activity_ms c)) as [Hle|Hlt].
      + rewrite elem_of_union, elem_of_singleton. split.
        * intros [[->|H]|(c' & H & ? & ?)]; [|by left|]; right;
            [exists c|exists c']; (split; [set_solver|done]).
        * intros [H|(c' & H & ? & ?)]; [by left; right|].
          apply elem_of_cons in H as [->|H]; [left; left; congruence|right; eauto].
      + split; intros [H|(c' & H & Hid & Hc)]; [by left|right; exists c'; set_solver|by left|].
        apply elem_of_cons in H as [->|H]; [lia|right; eauto]. }
  rewrite Hgen. set_solver.
Qed.

Lemma new_source_host_cases live g :
  match g_pinned_source_host g with
  | Some pin => (pin ∈ candidates live (g_members g) /\ new_source_host live g = Some pin)
                \/ (pin ∉ candidates live (g_members g)
                    /\ new_source_host live g = min_str (candidates live (g_members g)))
  | None => new_source_host live g = min_str (candidates live (g_members g))
  end.
Proof.
  unfold new_source_host. destruct (g_pinned_source_host g) as [pin|]; [|done].
  destruct (str_in pin _) eqn:Hin.
  - left. by apply str_in_spec in Hin.
  - right. split; [|done]. intros Hc. apply str_in_spec in Hc. congruence.
Qed.

(** The source-host the evaluation picks for a group is a live member; it is the
    operator's pin whenever the pin is a live member, and the least live member (in
    the order of device ids) exactly when no pin applies. *)
Theorem new_source_host_spec live g h :
  new_source_host live g = Some h <->
    h ∈ g_members g /\ h ∈ live /\
    (g_pinned_source_host g = Some h \/
     ((forall pin, g_pinned_source_host g = Some pin -> pin ∈ g_members g -> pin ∉ live)
      /\ forall m, m ∈ g_members g -> m ∈ live -> str_le h m)).
Proof.
  pose proof (new_source_host_cases live g) as Hc.
  assert (Hmin : forall x, min_str (candidates live (g_members g)) = Some x <->
            (x ∈ g_members g /\ x ∈ live) /\ forall m, m ∈ g_members g -> m ∈ live -> str_le x m).
  { intros x. rewrite min_str_spec, elem_of_candidates.
    setoid_rewrite elem_of_candidates. naive_solver. }
  destruct (g_pinned_source_host g) as [pin|].
  - destruct Hc as [[Hin ->]|[Hnin ->]]; rewrite elem_of_candidates in *.
    + naive_solver.
    + rewrite Hmin. naive_solver.
  - rewrite Hc, Hmin. naive_solver.
Qed.

(** Two nodes whose views of a group agree on the pin and on which devices are
    live members elect the same source-host, whatever the order or repetition of the
    members and whatever else each one sees live. *)
Theorem new_source_host_agreement live1 live2 g1 g2 :
  g_pinned_source_host g1 = g_pinned_source_host g2 ->
  (forall d, d ∈ g_members g1 /\ d ∈ live1 <-> d ∈ g_members g2 /\ d ∈ live2) ->
  new_source_host live1 g1 = new_source_host live2 g2.
Proof.
  intros Hpin Hext.
  assert (Hc : forall d, d ∈ candidates live1 (g_members g1) <-> d ∈ candidates live2 (g_members g2)).
  { intros d. by rewrite !elem_of_candidates. }
  pose proof (new_source_host_cases live1 g1) as H1.
  pose proof (new_source_host_cases live2 g2) as H2. rewrite Hpin in H1.
  rewrite (min_str_ext _ _ Hc) in H1.
  destruct (g_pinned_source_host g2) as [pin|]; [|congruence].
  rewrite (Hc pin) in H1.
  destruct H1 as [[? ->]|[? ->]], H2 as [[? ->]|[? ->]]; done.
Qed.

(** The exposed pure function is [evaluate]'s rule for a group without a pin. *)
Lemma elect_source_host_rule members live g :
  g_members g = members -> g_pinned_source_host g = None ->
  elect_source_host members live =
    (new_source_host live g, N.of_nat (length (candidates live members)) mod 2 ^ 32).
Proof.
  intros <- Hpin. unfold elect_source_host, new_source_host. rewrite Hpin.
  by rewrite sort_by_head_min, sort_by_length.
Qed.

(** ** Evaluation *)

Section evaluate.
Context {P PE GE : Type} `{ElectionStore P PE}.
Implicit Types (rt : ElectionRuntime P) (g : Group).

(** The happening [evaluate] emits for a group, judged against the mirror. *)
Definition transition (live : gset str) (els : gmap str SourceHostElection) (g : Group)
    : option SourceHostElected :=
  let prior := els !! g_group_id g in
  let prior_host := match prior with Some e => source_host_device_id e | None => None end in
  if bool_decide (prior_host = new_source_host live g) && bool_decide (is_Some prior) then None
  else Some {| h_group_id := g_group_id g; h_display_name := g_display_name g;
               h_source_host := new_source_host live g; h_prior_source_host := prior_host;
               h_candidate_count := N.of_nat (length (candidates live (g_members g))) mod 2 ^ 32 |}.

(** The mirror holds the election of a group. *)
Definition elected (live : gset str) rt g : Prop :=
  exists e, elections rt !! g_group_id g = Some e
            /\ source_host_device_id e = new_source_host live g.

Lemma transition_None live rt g :
  transition live (elections rt) g = None <-> elected live rt g.
Proof.
  unfold transition, elected. destruct (elections rt !! g_group_id g) as [e|] eqn:He.
  - rewrite (bool_decide_eq_true_2 (is_Some (Some e))) by done. rewrite andb_true_r.
    case_bool_decide; split; intros; naive_solver.
  - rewrite (bool_decide_eq_false_2 (is_Some None)) by (intros [? ?]; done).
    rewrite andb_false_r. split; [done|]. intros (? & ? & _). done.
Qed.

Lemma evaluate_group_ok live now g rt rt' :
  evaluate_group (GE:=GE) live now g rt = (rt', Ok tt) ->
  elected live rt' g
  /\ (forall k, k <> g_group_id g -> elections rt' !! k = elections rt !! k)
  /\ dom (elections rt') = dom (elections rt) ∪ {[ g_group_id g ]}
  /\ emitted rt' = emitted rt ++ option_list (transition live (elections rt) g)
  /\ (elected live rt g -> rt' = rt).
Proof.
  unfold evaluate_group. intros Heval.
  pose proof (transition_None live rt g) as Htr. unfold transition in *.
  set (skip := bool_decide _ && bool_decide _) in *. destruct skip eqn:Hskip.
  - injection Heval as <-. apply proj1 in Htr. specialize (Htr eq_refl).
    split_and!; [done|done| |by rewrite app_nil_r|done].
    destruct Htr as (e & He & _). apply elem_of_dom_2 in He. set_solver.
  - destruct (put_source_host_election _ _) as [p'|e]; [|done].
    injection Heval as <-. split_and!; simpl.
    + eexists. split; [apply lookup_insert_eq|done].
    + intros k Hk. by rewrite lookup_insert_ne.
    + rewrite dom_insert_L. set_solver.
    + done.
    + intros Hel. apply Htr in Hel. done.
Qed.

Lemma evaluate_groups_ok live now gs rt rt' :
  NoDup (map g_group_id gs) ->
  evaluate_groups (GE:=GE) live now gs rt = (rt', Ok tt) ->
  (forall g, g ∈ gs -> elected live rt' g)
  /\ (forall k, k ∉ map g_group_id gs -> elections rt' !! k = elections rt !! k)
  /\ dom (elections rt') = dom (elections rt) ∪ list_to_set (map g_group_id gs)
  /\ emitted rt' = emitted rt ++ omap (transition live (elections rt)) gs.
Proof.
  revert rt. induction gs as [|g gs IH]; intros rt Hnd; cbn [evaluate_groups map].
  { intros [= <-]. split_and!; [set_solver|done|set_solver|by rewrite app_nil_r]. }
  apply NoDup_cons in Hnd as [Hnin Hnd].
  destruct (evaluate_group live now g rt) as [rt1 [[]|e]] eqn:Hg; [|done]. intros Hgs.
  apply evaluate_group_ok in Hg as (Hel & Hother & Hdom & Hem & _).
  apply IH in Hgs as (Hels & Hothers & Hdoms & Hems); [|done].
  split_and!.
  - intros g' [->|Hg']%elem_of_cons; [|by apply Hels].
    destruct Hel as (e & He & Hhost). exists e. by rewrite Hothers.
  - intros k [Hk1 Hk2]%not_elem_of_cons. by rewrite Hothers, Hother.
  - rewrite Hdoms, Hdom. set_solver.
  - rewrite Hems, Hem, <-app_assoc, omap_cons_app. do 2 f_equal.
    apply omap_ext_elem. intros g' Hg'. unfold transition.
    rewrite Hother; [done|]. intros Heq. apply Hnin. rewrite <-Heq.
    by apply list_elem_of_fmap_2.
Qed.

Lemma evaluate_groups_fixed live now gs rt :
  (forall g, g ∈ gs -> elected live rt g) ->
  evaluate_groups (GE:=GE) live now gs rt = (rt, Ok tt).
Proof.
  induction gs as [|g gs IH]; intros Hall; simpl; [done|].
  assert (Hg : evaluate_group (GE:=GE) live now g rt = (rt, Ok tt)).
  { destruct (Hall g) as (e & He & Hhost); [set_solver|].
    unfold evaluate_group. rewrite He, Hhost.
    by rewrite bool_decide_eq_true_2, bool_decide_eq_true_2 by eauto. }
  rewrite Hg. apply IH. set_solver.
Qed.

Lemma retain_groups_dom gs rt :
  dom (elections (retain_groups gs rt)) = dom (elections rt) ∩ list_to_set (map g_group_id gs).
Proof.
  apply set_eq. intros k. rewrite elem_of_intersection, elem_of_list_to_set, !elem_of_dom.
  simpl. unfold is_Some. setoid_rewrite map_lookup_filter_Some. naive_solver.
Qed.

Lemma retain_groups_id gs rt :
  dom (elections rt) ⊆ list_to_set (map g_group_id gs) -> retain_groups gs rt = rt.
Proof.
  intros Hsub. unfold retain_groups. destruct rt as [els p em]; simpl in *. f_equal.
  apply map_filter_id. intros k e Hk. apply elem_of_dom_2 in Hk. set_solver.
Qed.

(** C22: An evaluation that succeeds leaves exactly the listed groups in the mirror,
    each with the source-host the rule picks, and emits, in group order, one
    happening for each group whose source-host changed or had no record, carrying
    the prior source-host. *)
Theorem evaluate_correct live now gs rt rt' :
  NoDup (map g_group_id gs) ->
  evaluate (GE:=GE) (Ok gs) live now rt = (rt', Ok tt) ->
  dom (elections rt') = list_to_set (map g_group_id gs)
  /\ (forall g, g ∈ gs -> source_host_for rt' (g_group_id g) = new_source_host live g)
  /\ emitted rt' = emitted rt ++ omap (transition live (elections rt)) gs.
Proof.
  intros Hnd Heval. apply evaluate_groups_ok in Heval as (Hel & _ & Hdom & Hem); [|done].
  split_and!.
  - rewrite Hdom, retain_groups_dom. set_solver.
  - intros g (e & He & Hhost)%Hel. unfold source_host_for, get. by rewrite He.
  - rewrite Hem. simpl. f_equal. apply omap_ext_elem. intros g Hg. unfold transition. simpl.
    replace (filter (fun kv => kv.1 ∈ map g_group_id gs) (elections rt) !! g_group_id g)
      with (elections rt !! g_group_id g); [done|]. symmetry.
    destruct (elections rt !! g_group_id g) as [e|] eqn:He.
    + apply map_lookup_filter_Some. split; [done|]. simpl. by apply list_elem_of_fmap_2.
    + apply map_lookup_filter_None. by left.
Qed.

(** Evaluating again against the same view is a no-op: the mirror, the store and
    the happenings are unchanged, whatever the clock says. *)
Theorem evaluate_idempotent live now now' gs rt rt' :
  NoDup (map g_group_id gs) ->
  evaluate (GE:=GE) (Ok gs) live now rt = (rt', Ok tt) ->
  evaluate (GE:=GE) (Ok gs) live now' rt' = (rt', Ok tt).
Proof.
  intros Hnd Heval. pose proof Heval as Heval'.
  apply evaluate_correct in Heval as (Hdom & _ & _); [|done].
  apply evaluate_groups_ok in Heval' as (Hel & _); [|done].
  unfold evaluate. rewrite retain_groups_id by (rewrite Hdom; done).
  by apply evaluate_groups_fixed.
Qed.
End evaluate.

(** ** The mirror and the store *)

Section mirror.
Context {P PE GE : Type} `{ElectionStoreLaws P PE}.
Implicit Types (rt : ElectionRuntime P).

(** Every mirrored election is the row the store holds for its group. *)
Definition mirror_ok rt : Prop :=
  forall k e, elections rt !! k = Some e -> stored_row (persistence rt) k = Some e.

(** What the runtime's tasks do to the state. *)
Inductive rt_step : ElectionRuntime P -> ElectionRuntime P -> Prop :=
| step_rehydrate rt rt' : rehydrate (GE:=GE) rt = Ok rt' -> rt_step rt rt'
| step_evaluate rt groups live now rt' r :
    evaluate (GE:=GE) groups live now rt = (rt', r) -> rt_step rt rt'.

Lemma rehydrate_mirror rt rt' : rehydrate (GE:=GE) rt = Ok rt' -> mirror_ok rt'.
Proof.
  unfold rehydrate. destruct (list_source_host_elections _) as [rows|] eqn:Hl; [|done].
  intros [= <-] k e. simpl. intros Hk%elem_of_list_to_map_2.
  apply list_elem_of_In, in_rev, list_elem_of_In in Hk.
  apply list_elem_of_fmap in Hk as (r & [= -> ->] & Hr).
  by apply (list_rows _ _ Hl).
Qed.

Lemma evaluate_group_mirror live now g rt rt' r :
  evaluate_group (GE:=GE) live now g rt = (rt', r) -> mirror_ok rt -> mirror_ok rt'.
Proof.
  unfold evaluate_group. destruct (_ && _); [by intros [= <- <-]|].
  destruct (put_source_host_election _ _) as [p'|e] eqn:Hput; [|by intros [= <- <-]].
  intros [= <- <-] Hm k e Hk. simpl in *. rewrite (put_row _ _ _ _ Hput). simpl.
  destruct (decide (k = g_group_id g)) as [->|Hne].
  - by rewrite lookup_insert_eq in Hk.
  - rewrite lookup_insert_ne in Hk by done. by apply Hm.
Qed.

Lemma evaluate_mirror groups live now rt rt' r :
  evaluate (GE:=GE) groups live now rt = (rt', r) -> mirror_ok rt -> mirror_ok rt'.
Proof.
  unfold evaluate. destruct groups as [gs|e]; [|by intros [= <- <-]].
  intros Heval Hm. assert (Hm' : mirror_ok (retain_groups gs rt)).
  { intros k e [Hk _]%map_lookup_filter_Some. by apply Hm. }
  revert Heval Hm'. generalize (retain_groups gs rt). clear Hm rt.
  induction gs as [|g gs IH]; intros rt Heval Hm; simpl in Heval; [by injection Heval as <- <-|].
  destruct (evaluate_group live now g rt) as [rt1 [u|e]] eqn:Hg.
  - eapply IH; [done|]. by eapply evaluate_group_mirror.
  - injection Heval as <- <-. by eapply evaluate_group_mirror.
Qed.

End mirror.

(** ** Failed writes *)

Section failure.
Context {P PE GE : Type} `{ElectionStore P PE}.
Implicit Types (rt : ElectionRuntime P).

(** When the store refuses a write, the evaluation stops at that group with
    the store's error: the groups before it are committed, its own mirror entry
    and those of the groups after it are what they were, and no happening is
    emitted for them. *)
Theorem evaluate_put_failure live now gs rt rt' e :
  NoDup (map g_group_id gs) ->
  evaluate (GE:=GE) (Ok gs) live now rt = (rt', Err (EPersistence e)) ->
  exists gs1 g gs2, gs = gs1 ++ g :: gs2
    /\ (forall g1, g1 ∈ gs1 -> elected live rt' g1)
    /\ (forall g2, g2 ∈ g :: gs2 -> elections rt' !! g_group_id g2 = elections rt !! g_group_id g2)
    /\ (exists r, group_id r = g_group_id g /\ source_host_device_id r = new_source_host live g
                  /\ put_source_host_election r (persistence rt') = Err e)
    /\ emitted rt' = emitted rt
         ++ omap (transition live (elections (retain_groups gs rt))) gs1.
Proof.
  intros Hnd. unfold evaluate. remember (retain_groups gs rt) as rt0 eqn:Hrt0.
  assert (Hkeep : forall g, g ∈ gs -> elections rt0 !! g_group_id g = elections rt !! g_group_id g).
  { intros g Hg. subst rt0. simpl. destruct (elections rt !! g_group_id g) as [x|] eqn:He.
    - apply map_lookup_filter_Some. split; [done|]. simpl. by apply list_elem_of_fmap_2.
    - apply map_lookup_filter_None. by left. }
  assert (Hem : emitted rt0 = emitted rt) by (by subst rt0). clear Hrt0. rewrite <-Hem. clear Hem.
  assert (Hsplit : evaluate_groups (GE:=GE) live now gs rt0 = (rt', Err (EPersistence e)) ->
    exists gs1 g gs2, gs = gs1 ++ g :: gs2
      /\ evaluate_groups (GE:=GE) live now gs1 rt0 = (rt', Ok tt)
      /\ evaluate_group (GE:=GE) live now g rt' = (rt', Err (EPersistence e))).
  { clear. revert rt0. induction gs as [|g gs IH]; intros rt0; simpl; [done|].
    destruct (evaluate_group live now g rt0) as [rt1 [[]|e1]] eqn:Hg.
    - intros (gs1 & g' & gs2 & -> & Hgs1 & Hg')%IH. exists (g :: gs1), g', gs2.
      split_and!; [done| |done]. simpl. by rewrite Hg.
    - intros [= -> ->]. exists [], g, gs. split_and!; [done| |].
      + simpl. revert Hg. unfold evaluate_group. destruct (_ && _); [done|].
        destruct (put_source_host_election _ _); [done|]. by intros [= -> _].
      + revert Hg. unfold evaluate_group. destruct (_ && _) eqn:Hs; [done|].
        destruct (put_source_host_election _ (persistence rt0)) eqn:Hp; [done|].
        intros [= -> ->]. by rewrite Hs, Hp. }
  intros (gs1 & g & gs2 & -> & Hgs1 & Hg)%Hsplit. clear Hsplit.
  rewrite map_app in Hnd. cbn [map] in Hnd. apply NoDup_app in Hnd as (Hnd1 & Hdisj & _).
  apply evaluate_groups_ok in Hgs1 as (Hel & Hother & _ & Hem); [|done].
  exists gs1, g, gs2. split_and!; [done|done| | |done].
  - intros g2 Hg2. rewrite Hother, Hkeep; [done|set_solver|].
    intros Hin. apply (Hdisj _ Hin). change (g_group_id g :: map g_group_id gs2) with (map g_group_id (g :: gs2)).
    by apply list_elem_of_fmap_2.
  - revert Hg. unfold evaluate_group. destruct (_ && _); [done|].
    destruct (put_source_host_election _ _) eqn:Hp; [done|]. intros [= ->].
    eexists. by split_and!; [| |exact Hp].
Qed.
End failure.

(** ** Witnesses on the map store *)

#[export] Instance MapStore_laws : ElectionStoreLaws MapStore str.
Proof.
  split.
  - intros r p p' k. simpl. unfold MapStore_put. destruct (str_in _ _); [done|].
    intros [= <-]. simpl. destruct (decide (k = group_id r)) as [->|Hne].
    + rewrite lookup_insert_eq. by rewrite decide_True.
    + by rewrite lookup_insert_ne by done.
  - intros p rows [= <-].
    assert (Hel : forall r, r ∈ map snd (filter (fun kv => kv.1 = group_id kv.2) (map_to_list (ms_rows p)))
                 <-> ms_rows p !! group_id r = Some r).
    { intros r. rewrite list_elem_of_fmap. split.
      - intros ([k r'] & -> & Hin). apply list_elem_of_filter in Hin as [Hk Hin].
        simpl in *. subst k. by apply elem_of_map_to_list.
      - intros Hin. exists (group_id r, r). split; [done|]. apply list_elem_of_filter.
        split; [done|]. by apply elem_of_map_to_list. }
    split.
    + intros r. rewrite Hel. simpl. destruct (ms_rows p !! group_id r) as [r'|]; [|done].
      destruct (decide (group_id r = group_id r')) as [Heq|Hne]; [done|].
      split; [intros [= ->]|intros [=]]; done.
    + assert (Hmap : forall l : list (str * SourceHostElection),
        map group_id (map snd (filter (fun kv => kv.1 = group_id kv.2) l))
        = map fst (filter (fun kv => kv.1 = group_id kv.2) l)).
      { induction l as [|[k r] l IH]; [done|]. rewrite filter_cons. simpl.
        destruct (decide (k = group_id r)) as [->|]; simpl; by rewrite ?IH. }
      rewrite Hmap. eapply sublist_NoDup;
        [apply (NoDup_fst_map_to_list (ms_rows p))|].
      apply (fmap_sublist fst), sublist_filter.
Qed.

Definition wit_group (pin : option str) : Group :=
  {| g_group_id := lit "kitchen"; g_display_name := lit "Kitchen";
     g_members := [lit "b"; lit "c"; lit "a"]; g_pinned_source_host := pin |}.
Definition wit_rt (deny : list str) : ElectionRuntime MapStore :=
  {| elections := ∅; persistence := {| ms_rows := ∅; ms_deny := deny |}; emitted := [] |}.
Definition wit_live : gset str := {[ lit "c"; lit "b" ]}.

Lemma new_source_host_agreement_witness :
  new_source_host wit_live (wit_group None) =
  new_source_host ({[ lit "z" ]} ∪ wit_live) (wit_group None).
Proof.
  apply new_source_host_agreement; [reflexivity|]. intros d. simpl. unfold wit_live.
  rewrite !elem_of_cons, elem_of_nil, !elem_of_union, !elem_of_singleton. split.
  - intros [? ?]; split; tauto.
  - intros [Hm [->|Hl]]; [|split; tauto]. exfalso.
    destruct Hm as [Hm|[Hm|[Hm|[]]]]; vm_compute in Hm; discriminate.
Defined.

Lemma evaluate_correct_witness :
  let rt' := (evaluate (GE:=str) (Ok [wit_group None]) wit_live 7 (wit_rt [])).1 in
  source_host_for rt' (lit "kitchen") = Some (lit "b").
Proof.
  intros rt'.
  assert (Hnd : NoDup (map g_group_id [wit_group None])) by (apply NoDup_singleton).
  assert (Heval : evaluate (GE:=str) (Ok [wit_group None]) wit_live 7 (wit_rt []) = (rt', Ok tt))
    by (vm_compute; reflexivity).
  destruct (evaluate_correct _ _ _ _ _ Hnd Heval) as (_ & Hh & _).
  transitivity (new_source_host wit_live (wit_group None)); [|vm_compute; reflexivity].
  apply (Hh (wit_group None)), list_elem_of_here.
Defined.

Lemma evaluate_idempotent_witness :
  let rt' := (evaluate (GE:=str) (Ok [wit_group None]) wit_live 7 (wit_rt [])).1 in
  evaluate (GE:=str) (Ok [wit_group None]) wit_live 9 rt' = (rt', Ok tt).
Proof.
  intros rt'. apply (evaluate_idempotent wit_live 7 9 [wit_group None] (wit_rt [])).
  - apply NoDup_singleton.
  - vm_compute; reflexivity.
Defined.


Lemma evaluate_put_failure_witness :
  exists gs1 g gs2, [wit_group None] = gs1 ++ g :: gs2.
Proof.
  destruct (evaluate_put_failure (GE:=str) wit_live 7 [wit_group None] (wit_rt [lit "kitchen"])
              (wit_rt [lit "kitchen"]) (lit "disk")) as (gs1 & g & gs2 & Heq & _).
  - apply NoDup_singleton.
  - vm_compute; reflexivity.
  - exists gs1, g, gs2. exact Heq.
Defined.
