(* ===== verification/RoleStore.v ===== *)
(** * Device roles ([crates/evo-multiroom/src/role_store.rs])

    The operator-declared multi-room role of each device: validation of the id,
    the read, the write, the clear and the listing, with the durable happening and
    the broadcast each change makes.  The persistence store and the [Role] type
    (its wire names and their parser) belong to the framework crates and are
    interfaces here.  Not modelled: the happening's wall-clock [at]. *)

From S2P Require Import Prelude.
Local Open Scope N_scope.

(** ** Interfaces of the framework crates *)

Class RoleCodec (Role : Type) := {
  role_eq_dec :: EqDecision Role;
  Auto : Role;
  as_str : Role -> str;
  from_str : str -> option Role;
}.
(** The documented round trip of [Role::as_str] and [FromStr]. *)
Class RoleCodecLaws (Role : Type) `{RoleCodec Role} := {
  from_as_str : forall r, from_str (as_str r) = Some r;
}.

(** [PersistedDeviceRole] *)
Record PersistedDeviceRole := {
  device_id : str; role : str; set_at_ms : N; set_by : option str;
}.

Class RoleRows (P PE : Type) := {
  get_device_role : str -> P -> result (option PersistedDeviceRole) PE;
  put_device_role : PersistedDeviceRole -> P -> result P PE;
  delete_device_role : str -> P -> result P PE;
  list_device_roles : P -> result (list PersistedDeviceRole) PE;
  row_of : P -> str -> option PersistedDeviceRole;
}.
Class RoleRowsLaws (P PE : Type) `{RoleRows P PE} := {
  get_row : forall d p o, get_device_role d p = Ok o -> o = row_of p d;
  put_row : forall r p p' d, put_device_role r p = Ok p' ->
    row_of p' d = if decide (d = device_id r) then Some r else row_of p d;
  delete_row : forall d0 p p' d, delete_device_role d0 p = Ok p' ->
    row_of p' d = if decide (d = d0) then None else row_of p d;
  list_rows : forall p rows r, list_device_roles p = Ok rows ->
    r ∈ rows <-> row_of p (device_id r) = Some r;
}.

(** ** Data *)

(** [RoleChange] *)
Inductive RoleChange (Role : Type) :=
| RoleSet (device : str) (prior_role : option Role) (new_role : Role)
| RoleCleared (device : str) (prior_role : Role).
Arguments RoleSet {Role}. Arguments RoleCleared {Role}.

(** [Happening::DeviceRoleChanged] *)
Record DeviceRoleChanged := {
  rh_device : str; rh_prior_role : option str; rh_new_role : str; rh_set_by : option str;
}.

Inductive RoleStoreError (PE : Type) :=
| InvalidDeviceId | RPersistence (e : PE) | UnknownRole (s : str).
Arguments InvalidDeviceId {PE}. Arguments RPersistence {PE}. Arguments UnknownRole {PE}.

Definition ROLE_SUBSCRIBER_CAPACITY : N := 32.

(** [validate_device_id] *)
Definition validate_device_id {PE} (s : str) : result str (RoleStoreError PE) :=
  let trimmed := trim s in
  if str_is_empty trimmed then Err InvalidDeviceId else Ok trimmed.

(** ** Operations *)

Section store.
Context {Role P PE : Type} `{RoleCodec Role, RoleRows P PE}.

(** The store, the happenings handed to the bus (a failed emit is only logged)
    and the changes handed to the broadcast channel, in order. *)
Record RoleStore := {
  rows : P;
  happenings : list DeviceRoleChanged;
  broadcasts : list (RoleChange Role);
}.

Definition parse_row (o : option PersistedDeviceRole) : option Role :=
  match o with Some r => from_str (role r) | None => None end.

Definition read_prior (d : str) (st : RoleStore) : result (option Role) (RoleStoreError PE) :=
  match get_device_role d (rows st) with
  | Ok o => Ok (parse_row o)
  | Err e => Err (RPersistence e)
  end.

Definition set_role (id : str) (r : Role) (by_ : option str) (now : N) (st : RoleStore)
    : RoleStore * result unit (RoleStoreError PE) :=
  match validate_device_id id with
  | Err e => (st, Err e)
  | Ok d =>
      match read_prior d st with
      | Err e => (st, Err e)
      | Ok prior =>
          if bool_decide (prior = Some r) then (st, Ok tt)
          else
            match put_device_role {| device_id := d; role := as_str r; set_at_ms := now;
                                     set_by := by_ |} (rows st) with
            | Err e => (st, Err (RPersistence e))
            | Ok p' =>
                ({| rows := p';
                    happenings := happenings st ++
                      [{| rh_device := d; rh_prior_role := option_map as_str prior;
                          rh_new_role := as_str r; rh_set_by := by_ |}];
                    broadcasts := broadcasts st ++ [RoleSet d prior r] |}, Ok tt)
            end
      end
  end.

Definition get_role (id : str) (st : RoleStore) : result Role (RoleStoreError PE) :=
  match validate_device_id id with
  | Err e => Err e
  | Ok d =>
      match read_prior d st with
      | Err e => Err e
      | Ok o => Ok (default Auto o)
      end
  end.

Definition clear_role (id : str) (st : RoleStore) : RoleStore * result unit (RoleStoreError PE) :=
  match validate_device_id id with
  | Err e => (st, Err e)
  | Ok d =>
      match read_prior d st with
      | Err e => (st, Err e)
      | Ok None => (st, Ok tt)
      | Ok (Some prior_role) =>
          match delete_device_role d (rows st) with
          | Err e => (st, Err (RPersistence e))
          | Ok p' =>
              ({| rows := p';
                  happenings := happenings st ++
                    [{| rh_device := d; rh_prior_role := Some (as_str prior_role);
                        rh_new_role := as_str Auto; rh_set_by := None |}];
                  broadcasts := broadcasts st ++ [RoleCleared d prior_role] |}, Ok tt)
          end
      end
  end.

Fixpoint list_rows_go (rs : list PersistedDeviceRole)
    : result (list (str * Role)) (RoleStoreError PE) :=
  match rs with
  | [] => Ok []
  | r :: rs' =>
      match from_str (role r) with
      | None => Err (UnknownRole (role r))
      | Some ro => let? out := list_rows_go rs' in Ok ((device_id r, ro) :: out)
      end
  end.

Definition list_explicit_roles (st : RoleStore)
    : result (list (str * Role)) (RoleStoreError PE) :=
  match list_device_roles (rows st) with
  | Err e => Err (RPersistence e)
  | Ok rs => list_rows_go rs
  end.
End store.
Arguments RoleStore Role P : clear implicits.

(** ** The abstract view and the refinement *)

(** What the store promises: the explicit roles as a function of the device. *)
Definition explicit_role {Role P PE} `{RoleCodec Role, RoleRows P PE} (st : RoleStore Role P) (d : str)
  : option Role := parse_row (row_of (rows st) d).

Lemma validate_device_id_ok {PE} s d :
  validate_device_id (PE:=PE) s = Ok d <-> d = trim s /\ d <> [].
Proof.
  unfold validate_device_id. destruct (trim s) as [|c t]; simpl; split.
  - done.
  - intros [-> []]. done.
  - by intros [= <-].
  - by intros [-> _].
Qed.

Section refinement.
Context {Role P PE : Type} `{RoleCodecLaws Role, RoleRowsLaws P PE}.
Implicit Types (st : RoleStore Role P).

Lemma read_prior_ok d st o : read_prior (PE:=PE) d st = Ok o -> o = explicit_role st d.
Proof.
  unfold read_prior, explicit_role. destruct (get_device_role d (rows st)) as [r|] eqn:Hg; [|done].
  intros [= <-]. by rewrite (get_row _ _ _ Hg).
Qed.

(** A successful [set_role] is the update of the abstract role map at the
    trimmed id: the device then reads back as that role, every other device is
    untouched, and a happening and a broadcast carrying the prior role are made
    exactly when the role changed. *)
Theorem set_role_refines id r by_ now st st' :
  set_role (PE:=PE) id r by_ now st = (st', Ok tt) ->
  (forall d, explicit_role st' d = if decide (d = trim id) then Some r else explicit_role st d)
  /\ broadcasts st' = broadcasts st ++
       (if decide (explicit_role st (trim id) = Some r) then []
        else [RoleSet (trim id) (explicit_role st (trim id)) r])
  /\ (length (happenings st') - length (happenings st) =
       length (broadcasts st') - length (broadcasts st))%nat.
Proof.
  unfold set_role. destruct (validate_device_id id) as [d|] eqn:Hv; [|done].
  apply validate_device_id_ok in Hv as [-> _].
  destruct (read_prior (trim id) st) as [prior|] eqn:Hp; [|done].
  apply read_prior_ok in Hp. rewrite <-Hp. case_bool_decide as Hd.
  - intros [= <-]. split_and!; [|by rewrite decide_True, app_nil_r|lia].
    intros d. case_decide as Heq; [|done]. subst d. congruence.
  - destruct (put_device_role _ _) as [p'|] eqn:Hput; [|done]. intros [= <-]. simpl.
    split_and!; [|by rewrite decide_False|rewrite !length_app; simpl; lia].
    intros d. unfold explicit_role. simpl. rewrite (put_row _ _ _ _ Hput). simpl.
    case_decide; [|done]. simpl. apply from_as_str.
Qed.

(** Reading a role after setting it returns it (reads succeed on a store whose
    row lookup succeeds), whatever white space surrounds either id. *)
Theorem get_after_set id id' r by_ now st st' r' :
  trim id' = trim id ->
  set_role (PE:=PE) id r by_ now st = (st', Ok tt) ->
  get_role (PE:=PE) id' st' = Ok r' -> r' = r.
Proof.
  intros Htrim (Hexp & _ & _)%set_role_refines. unfold get_role.
  destruct (validate_device_id id') as [d|] eqn:Hv; [|done].
  apply validate_device_id_ok in Hv as [-> _].
  destruct (read_prior _ st') as [o|] eqn:Hp; [|done]. intros [= <-].
  apply read_prior_ok in Hp. by rewrite Hp, Hexp, Htrim, decide_True.
Qed.

(** A successful [clear_role] removes the device's explicit role (it then
    reads as [Auto]) and leaves every other device alone; on a device without one
    it changes nothing and announces nothing. *)
Theorem clear_role_refines id st st' :
  clear_role (PE:=PE) id st = (st', Ok tt) ->
  (forall d, explicit_role st' d = if decide (d = trim id) then None else explicit_role st d)
  /\ (explicit_role st (trim id) = None -> st' = st).
Proof.
  unfold clear_role. destruct (validate_device_id id) as [d|] eqn:Hv; [|done].
  apply validate_device_id_ok in Hv as [-> _].
  destruct (read_prior (trim id) st) as [[prior|]|] eqn:Hp; [| |done];
    apply read_prior_ok in Hp; rewrite <-Hp.
  - destruct (delete_device_role _ _) as [p'|] eqn:Hdel; [|done]. intros [= <-].
    split; [|done]. intros d. unfold explicit_role. simpl. rewrite (delete_row _ _ _ _ Hdel).
    by case_decide.
  - intros [= <-]. split; [|done]. intros d. case_decide as Heq; [|done]. by subst d.
Qed.

(** The listing is the graph of the abstract map when it succeeds. *)
Lemma list_rows_go_spec rs out :
  list_rows_go (Role:=Role) (PE:=PE) rs = Ok out ->
  forall d ro, (d, ro) ∈ out <-> exists r, r ∈ rs /\ device_id r = d /\ from_str (role r) = Some ro.
Proof.
  revert out. induction rs as [|r rs IH]; intros out; simpl.
  - intros [= <-] d ro. split; [by intros ?%not_elem_of_nil|].
    intros (? & ?%not_elem_of_nil & _). done.
  - destruct (from_str (role r)) as [x|] eqn:Hx; [|done].
    destruct (list_rows_go rs) as [out'|] eqn:Ho; [|done]. intros [= <-] d ro.
    rewrite elem_of_cons, (IH out' eq_refl). split.
    + intros [[= -> ->]|(r' & Hin & Hr')]; [exists r|exists r']; (split; [set_solver|done]).
    + intros (r' & [->|Hin]%elem_of_cons & <- & Hro); [left; congruence|right; eauto].
Qed.

(** The corrupt-row corner.  A row whose stored role does not parse makes the
    listing fail, reads as [Auto], and is left in place by [clear_role], which
    reports success. *)
Theorem unparsable_row_survives_clear id st rs r :
  get_device_role (trim id) (rows st) = Ok (Some r) -> trim id <> [] ->
  device_id r = trim id -> from_str (Role:=Role) (role r) = None ->
  list_device_roles (rows st) = Ok rs ->
  clear_role (PE:=PE) id st = (st, Ok tt)
  /\ get_role (PE:=PE) id st = Ok Auto
  /\ exists s, list_explicit_roles (PE:=PE) st = Err (UnknownRole s).
Proof.
  intros Hget Hne Hdev Hbad Hlist.
  assert (Hv : validate_device_id (PE:=PE) id = Ok (trim id)) by (by apply validate_device_id_ok).
  assert (Hp : read_prior (PE:=PE) (trim id) st = Ok None).
  { unfold read_prior. by rewrite Hget; simpl; rewrite Hbad. }
  split_and!.
  - unfold clear_role. by rewrite Hv, Hp.
  - unfold get_role. by rewrite Hv, Hp.
  - unfold list_explicit_roles. rewrite Hlist.
    assert (Hin : r ∈ rs).
    { apply (list_rows _ _ r Hlist). rewrite Hdev. symmetry. by apply (get_row _ _ _ Hget). }
    clear -Hin Hbad. induction rs as [|r' rs IH]; [by apply not_elem_of_nil in Hin|]. simpl.
    apply elem_of_cons in Hin as [<-|Hin]; [rewrite Hbad; eauto|].
    destruct (from_str (role r')); [|eauto]. destruct (IH Hin) as [s ->]. eauto.
Qed.
End refinement.

(** ** Witnesses: roles as booleans of a map store *)

Inductive DemoRole := Source | Receiver | DAuto.
#[export] Instance DemoRole_eq_dec : EqDecision DemoRole.
Proof. solve_decision. Defined.
Definition demo_from_str (s : str) : option DemoRole :=
  if bool_decide (s = lit "source") then Some Source
  else if bool_decide (s = lit "receiver") then Some Receiver
  else if bool_decide (s = lit "auto") then Some DAuto else None.
#[export] Instance DemoRole_codec : RoleCodec DemoRole := {
  Auto := DAuto;
  as_str r := match r with Source => lit "source" | Receiver => lit "receiver" | DAuto => lit "auto" end;
  from_str := demo_from_str;
}.
#[export] Instance DemoRole_laws : RoleCodecLaws DemoRole.
Proof. split. intros []; vm_compute; reflexivity. Qed.

#[export] Instance map_rows : RoleRows (gmap str PersistedDeviceRole) str := {
  get_device_role d p := Ok (match p !! d with
                             | Some r => if decide (device_id r = d) then Some r else None
                             | None => None end);
  put_device_role r p := Ok (<[device_id r := r]> p);
  delete_device_role d p := Ok (delete d p);
  list_device_roles p := Ok (map snd (filter (fun kv => kv.1 = device_id kv.2) (map_to_list p)));
  row_of p d := match p !! d with
                | Some r => if decide (device_id r = d) then Some r else None
                | None => None end;
}.
#[export] Instance map_rows_laws : RoleRowsLaws (gmap str PersistedDeviceRole) str.
Proof.
  split.
  - by intros d p o [= <-].
  - intros r p p' d [= <-]. simpl. destruct (decide (d = device_id r)) as [->|Hne].
    + by rewrite lookup_insert_eq, decide_True.
    + by rewrite lookup_insert_ne by done.
  - intros d0 p p' d [= <-]. simpl. destruct (decide (d = d0)) as [->|Hne].
    + by rewrite lookup_delete_eq.
    + by rewrite lookup_delete_ne by done.
  - intros p rows r [= <-]. rewrite list_elem_of_fmap. simpl. split.
    + intros ([k r'] & -> & [Hk Hin]%list_elem_of_filter). simpl in *. subst k.
      apply elem_of_map_to_list in Hin. by rewrite Hin, decide_True.
    + intros Hin. destruct (p !! device_id r) as [r'|] eqn:Hr; [|done].
      case_decide as Hd; [|done]. injection Hin as ->.
      exists (device_id r, r). split; [done|]. apply list_elem_of_filter.
      split; [done|]. by apply elem_of_map_to_list.
Qed.

Definition demo_store (p : gmap str PersistedDeviceRole) : RoleStore DemoRole (gmap str PersistedDeviceRole) :=
  {| rows := p; happenings := []; broadcasts := [] |}.
Definition demo_bad_row : PersistedDeviceRole :=
  {| device_id := lit "dev"; role := lit "leader"; set_at_ms := 1; set_by := None |}.

Lemma set_role_refines_witness :
  let st' := (set_role (PE:=str) (lit " dev ") Source None 5 (demo_store ∅)).1 in
  explicit_role st' (lit "dev") = Some Source.
Proof.
  intros st'.
  assert (Hs : set_role (PE:=str) (lit " dev ") Source None 5 (demo_store ∅) = (st', Ok tt))
    by (vm_compute; reflexivity).
  destruct (set_role_refines _ _ _ _ _ _ Hs) as (Hexp & _).
  transitivity (if decide (lit "dev" = trim (lit " dev ")) then Some Source
                else explicit_role (demo_store ∅) (lit "dev"));
    [apply Hexp|vm_compute; reflexivity].
Defined.

Lemma get_after_set_witness :
  exists r, get_role (PE:=str) (lit "dev") (set_role (PE:=str) (lit " dev ") Source None 5 (demo_store ∅)).1 = Ok r
            /\ r = Source.
Proof.
  exists Source. split; [vm_compute; reflexivity|].
  apply (get_after_set (PE:=str) (lit " dev ") (lit "dev") Source None 5 (demo_store ∅)
           (set_role (PE:=str) (lit " dev ") Source None 5 (demo_store ∅)).1); vm_compute; reflexivity.
Defined.

Lemma clear_role_refines_witness :
  let st := (set_role (PE:=str) (lit "dev") Source None 5 (demo_store ∅)).1 in
  explicit_role (clear_role (PE:=str) (lit "dev") st).1 (lit "dev") = None.
Proof.
  intros st.
  assert (Hc : clear_role (PE:=str) (lit "dev") st = ((clear_role (PE:=str) (lit "dev") st).1, Ok tt))
    by (vm_compute; reflexivity).
  destruct (clear_role_refines _ _ _ Hc) as (Hexp & _).
  transitivity (if decide (lit "dev" = trim (lit "dev")) then None else explicit_role st (lit "dev"));
    [apply Hexp|vm_compute; reflexivity].
Defined.

Lemma unparsable_row_survives_clear_witness :
  clear_role (PE:=str) (lit "dev") (demo_store {[ lit "dev" := demo_bad_row ]})
    = (demo_store {[ lit "dev" := demo_bad_row ]}, Ok tt).
Proof.
  apply (unparsable_row_survives_clear (PE:=str) (lit "dev") (demo_store {[ lit "dev" := demo_bad_row ]})
           [demo_bad_row] demo_bad_row); vm_compute; first [reflexivity|discriminate].
Defined.
