(* ===== verification/MpdProtocol.v ===== *)
(** * The MPD text protocol ([crates/evo-mpd-shared/src/protocol.rs], [framing.rs],
    [error.rs])

    Command serialisation with its quoting, the welcome banner, the classification
    of response lines and the checks on a line read from the socket.  A command is a
    list of bytes ([N] below 256), a line a [str].  The socket read itself (its
    bytes, I/O errors and timer) is the argument of the framing definition. *)

From S2P Require Import Prelude.
Local Open Scope N_scope.

(** ** Errors *)

(** [io::ErrorKind] as far as the code tells kinds apart. *)
Inductive IoErrorKind := InvalidData | UnexpectedEof | OtherIo (what : str).

Inductive TransportError :=
| Io (source : IoErrorKind)
| Closed
| TcpConnect (endpoint : str) (source : IoErrorKind)
| UnixConnect (path : str) (source : IoErrorKind).

Inductive ProtocolError :=
| BadWelcome (line : str)
| BadVersion (s : str)
| LineTooLong (len limit : N)
| NonUtf8 (n : N)
| Unterminated
| MalformedKeyValue (line : str)
| MalformedAck (line : str)
| UnparseableField (field value : str)
| MissingField (field : str)
| UnknownPlayState (s : str)
| CommandForbiddenChar (ch : char)
| UnexpectedListOk.

Inductive ConfigError := EmptyHost | EmptyPath.

Inductive MpdError :=
| Transport (e : TransportError)
| Protocol (e : ProtocolError)
| Ack (code list_position : N) (command message : str)
| Timeout (operation : str) (elapsed_ms : N)
| Config (e : ConfigError).

(** ** Data *)

Definition LINE_MAX : N := 64 * 1024.

(** [Field] *)
Record Field := { key : str; value : str }.

(** [ClassifiedLine] *)
Inductive ClassifiedLine :=
| LineOk
| LineListOk
| LineAck (code list_position : N) (command message : str)
| LineField (f : Field).

(** [MpdVersion] *)
Record MpdVersion := { major : N; minor : N; patch : N }.

(** ** Serialisation *)

Definition forbidden (ch : char) : bool := (ch =? LF) || (ch =? CR) || (ch =? NUL).

(** The loops that look for a forbidden character. *)
Fixpoint check_chars (s : str) : result unit ProtocolError :=
  match s with
  | [] => Ok tt
  | ch :: s' => if forbidden ch then Err (CommandForbiddenChar ch) else check_chars s'
  end.

Definition encode_char (ch : char) : list N :=
  if ch =? BACKSLASH then [BACKSLASH; BACKSLASH]
  else if ch =? DQUOTE then [BACKSLASH; DQUOTE]
  else encode_utf8 ch.

(** [encode_argument], returning the bytes it appends. *)
Definition encode_argument (arg : str) : result (list N) ProtocolError :=
  let? _ := check_chars arg in
  Ok ([DQUOTE] ++ concat (map encode_char arg) ++ [DQUOTE]).

Fixpoint encode_arguments (args : list str) : result (list N) ProtocolError :=
  match args with
  | [] => Ok []
  | arg :: args' =>
      let? a := encode_argument arg in
      let? rest := encode_arguments args' in
      Ok ([32] ++ a ++ rest)
  end.

(** [serialise_command] *)
Definition serialise_command (command : str) (args : list str) : result (list N) ProtocolError :=
  let? _ := check_chars command in
  let? rest := encode_arguments args in
  Ok (as_bytes command ++ rest ++ [LF]).

(** ** Parsing *)

(** [parse_version_triple] *)
Definition parse_version_triple (s : str) : result MpdVersion ProtocolError :=
  let trimmed := trim s in
  match split_char 46 trimmed with
  | [a; b; c] =>
      let? ma := ok_or (parse_u32 a) (BadVersion trimmed) in
      let? mi := ok_or (parse_u32 b) (BadVersion trimmed) in
      let? pa := ok_or (parse_u32 c) (BadVersion trimmed) in
      Ok {| major := ma; minor := mi; patch := pa |}
  | _ => Err (BadVersion trimmed)
  end.

(** [parse_welcome] *)
Definition parse_welcome (line : str) : result MpdVersion ProtocolError :=
  let? rest := ok_or (strip_prefix (lit "OK MPD ") line) (BadWelcome line) in
  parse_version_triple rest.

(** [parse_field_line] *)
Definition parse_field_line (line : str) : result Field ProtocolError :=
  let? kv := ok_or (split_once (lit ": ") line) (MalformedKeyValue line) in
  if str_is_empty kv.1 then Err (MalformedKeyValue line)
  else Ok {| key := kv.1; value := kv.2 |}.

(** [parse_ack_line] *)
Definition parse_ack_line (line : str) : result ClassifiedLine ProtocolError :=
  let bad := MalformedAck line in
  let? rest := ok_or (strip_prefix (lit "ACK [") line) bad in
  let? cp := ok_or (split_once (lit "] ") rest) bad in
  let? cs := ok_or (split_once [64] cp.1) bad in
  let? code := ok_or (parse_u32 cs.1) bad in
  let? list_position := ok_or (parse_u32 cs.2) bad in
  let? rest := ok_or (strip_prefix [123] cp.2) bad in
  let? ca := ok_or (split_once [125] rest) bad in
  let message := default ca.2 (strip_prefix [32] ca.2) in
  Ok (LineAck code list_position ca.1 message).

(** [classify_line] *)
Definition classify_line (line : str) : result ClassifiedLine ProtocolError :=
  if bool_decide (line = lit "OK") then Ok LineOk
  else if bool_decide (line = lit "list_OK") then Ok LineListOk
  else if starts_with (lit "ACK [") line then parse_ack_line line
  else let? f := parse_field_line line in Ok (LineField f).

(** ** Framing *)

(** What the timed read of the socket delivered. *)
Inductive ReadOutcome :=
| ReadText (scratch : str)
| ReadFailed (e : IoErrorKind)
| ReadElapsed.

(** [classify_read_error] *)
Definition classify_read_error (e : IoErrorKind) : MpdError :=
  match e with
  | InvalidData => Protocol (NonUtf8 0)
  | UnexpectedEof => Transport Closed
  | _ => Transport (Io e)
  end.

Definition pop (s : str) : str := removelast s.

(** [read_line_with_timeout] *)
Definition read_line_with_timeout (outcome : ReadOutcome) (budget_ms : N) (operation : str)
    : result str MpdError :=
  match outcome with
  | ReadFailed e => Err (classify_read_error e)
  | ReadElapsed => Err (Timeout operation budget_ms)
  | ReadText scratch =>
      if str_len scratch =? 0 then Err (Transport Closed)
      else if LINE_MAX <? str_len scratch then
        Err (Protocol (LineTooLong (str_len scratch) LINE_MAX))
      else if negb (ends_with [LF] scratch) then Err (Transport Closed)
      else
        let s := pop scratch in
        Ok (if ends_with [CR] s then pop s else s)
  end.

(** ** Lemmas *)

Lemma check_chars_ok s : check_chars s = Ok tt <-> Forall (fun c => forbidden c = false) s.
Proof.
  induction s as [|c s IH]; simpl; [split; [constructor|done]|].
  destruct (forbidden c) eqn:Hc; rewrite Forall_cons.
  - split; [done|]. intros [? _]. congruence.
  - rewrite IH. tauto.
Qed.

Lemma check_chars_unit s u : check_chars s = Ok u -> u = tt.
Proof. by destruct u. Qed.

Lemma encode_utf8_high c b : 128 <= c -> b ∈ encode_utf8 c -> 128 <= b.
Proof.
  intros Hc. unfold encode_utf8. rewrite (proj2 (N.ltb_ge c 128) Hc).
  destruct (c <? 2048); [|destruct (c <? 65536)]; rewrite ?elem_of_cons, elem_of_nil;
    intros Hb; destruct_or! Hb; subst;
    (eapply N.le_trans; [|apply N.le_add_r]); lia.
Qed.

(** A byte below 128 in an encoding is the ASCII character itself. *)
Lemma encode_utf8_low c b : b ∈ encode_utf8 c -> b < 128 -> b = c.
Proof.
  intros Hin Hb. destruct (N.lt_ge_cases c 128) as [Hc|Hc].
  - unfold encode_utf8 in Hin. rewrite (proj2 (N.ltb_lt c 128) Hc) in Hin.
    by apply list_elem_of_singleton in Hin.
  - pose proof (encode_utf8_high _ _ Hc Hin). lia.
Qed.

Lemma forbidden_small c : forbidden c = true -> c < 32.
Proof. unfold forbidden, LF, CR, NUL. rewrite !orb_true_iff, !N.eqb_eq. lia. Qed.

Lemma as_bytes_safe s b :
  Forall (fun c => forbidden c = false) s -> b ∈ as_bytes s -> forbidden b = false.
Proof.
  intros Hs Hb. unfold as_bytes in Hb. apply elem_of_concat_map in Hb as (c & Hc & Hb). rewrite Forall_forall in Hs.
  specialize (Hs c Hc). destruct (forbidden b) eqn:Hf; [|done].
  pose proof (forbidden_small _ Hf). rewrite <-(encode_utf8_low c b Hb) in Hs by lia. congruence.
Qed.

Lemma encode_argument_safe arg o b :
  encode_argument arg = Ok o -> b ∈ o -> forbidden b = false.
Proof.
  unfold encode_argument. destruct (check_chars arg) as [[]|] eqn:Hc; [|done].
  apply check_chars_ok in Hc. intros [= <-] Hb.
  rewrite elem_of_cons, elem_of_app, elem_of_cons, elem_of_nil in Hb.
  destruct Hb as [->|[Hb|[->|[]]]]; [done| |done].
  apply elem_of_concat_map in Hb as (c & Hin & Hb). rewrite Forall_forall in Hc.
  specialize (Hc c Hin). unfold encode_char in Hb.
  destruct (c =? BACKSLASH); [set_solver|]. destruct (c =? DQUOTE); [set_solver|].
  destruct (forbidden b) eqn:Hf; [|done]. pose proof (forbidden_small _ Hf).
  rewrite <-(encode_utf8_low c b Hb) in Hc by lia. congruence.
Qed.

Lemma encode_arguments_safe args o b :
  encode_arguments args = Ok o -> b ∈ o -> forbidden b = false.
Proof.
  revert o. induction args as [|arg args IH]; intros o; simpl; [intros [= <-]; set_solver|].
  destruct (encode_argument arg) as [a|] eqn:Ha; [|done].
  destruct (encode_arguments args) as [r|] eqn:Hr; [|done].
  intros [= <-] Hb. rewrite elem_of_cons, elem_of_app in Hb.
  destruct Hb as [->|[Hb|Hb]]; [done|by eapply encode_argument_safe|by eapply IH].
Qed.

(** ** No command injection *)

(** A serialised command is one protocol line: it ends in a line feed and no
    byte before it is a line feed, a carriage return or a NUL, whatever the command
    and the arguments hold. *)
Theorem serialise_command_one_line command args out :
  serialise_command command args = Ok out ->
  exists body, out = body ++ [LF] /\ LF ∉ body /\ CR ∉ body /\ NUL ∉ body.
Proof.
  unfold serialise_command. destruct (check_chars command) as [[]|] eqn:Hc; [|done].
  apply check_chars_ok in Hc. destruct (encode_arguments args) as [r|] eqn:Hr; [|done].
  intros [= <-]. exists (as_bytes command ++ r). split; [by rewrite app_assoc|].
  assert (Hall : forall b, b ∈ as_bytes command ++ r -> forbidden b = false).
  { intros b [Hb|Hb]%elem_of_app; [by eapply as_bytes_safe|by eapply encode_arguments_safe]. }
  split_and!; intros H; apply Hall in H; by vm_compute in H.
Qed.

(** Serialisation fails exactly when the command or an argument holds a
    forbidden character, and then names one that is there. *)
Theorem serialise_command_total command args :
  match serialise_command command args with
  | Ok _ => Forall (fun s => Forall (fun c => forbidden c = false) s) (command :: args)
  | Err e => exists ch s, e = CommandForbiddenChar ch /\ s ∈ command :: args
                          /\ ch ∈ s /\ forbidden ch = true
  end.
Proof.
  assert (Hcheck : forall s e, check_chars s = Err e ->
            exists ch, e = CommandForbiddenChar ch /\ ch ∈ s /\ forbidden ch = true).
  { induction s as [|c s IH]; intros e; simpl; [done|]. destruct (forbidden c) eqn:Hc.
    - intros [= <-]. exists c. split_and!; [done|apply list_elem_of_here|done].
    - intros (ch & ? & ? & ?)%IH. exists ch. split_and!; [done|by apply list_elem_of_further|done]. }
  assert (Hargs : match encode_arguments args with
    | Ok _ => Forall (fun s => Forall (fun c => forbidden c = false) s) args
    | Err e => exists ch s, e = CommandForbiddenChar ch /\ s ∈ args /\ ch ∈ s /\ forbidden ch = true
    end).
  { induction args as [|arg args IH]; simpl; [constructor|]. unfold encode_argument.
    destruct (check_chars arg) as [[]|e] eqn:Hc.
    - apply check_chars_ok in Hc. destruct (encode_arguments args) as [r|e].
      + by constructor.
      + destruct IH as (ch & s & ? & ? & ? & ?). exists ch, s. set_solver.
    - apply Hcheck in Hc as (ch & ? & ? & ?). exists ch, arg. set_solver. }
  unfold serialise_command. destruct (check_chars command) as [[]|e] eqn:Hc.
  - apply check_chars_ok in Hc. destruct (encode_arguments args) as [r|e].
    + by constructor.
    + destruct Hargs as (ch & s & ? & ? & ? & ?). exists ch, s. set_solver.
  - apply Hcheck in Hc as (ch & ? & ? & ?). exists ch, command. set_solver.
Qed.

(** ** Quoting loses nothing

    The documented MPD argument syntax: a space, a quotation mark, the bytes with
    a backslash before a quotation mark or a backslash, a quotation mark. *)

Fixpoint unquote (bs : list N) : option (list N * list N) :=
  match bs with
  | [] => None
  | b :: rest =>
      if b =? DQUOTE then Some ([], rest)
      else if b =? BACKSLASH then
        match rest with
        | [] => None
        | e :: rest' => match unquote rest' with
                        | Some (a, r) => Some (e :: a, r)
                        | None => None
                        end
        end
      else match unquote rest with
           | Some (a, r) => Some (b :: a, r)
           | None => None
           end
  end.

Fixpoint unquote_args (fuel : nat) (bs : list N) : option (list (list N)) :=
  match fuel with
  | O => None
  | S fuel' =>
      match bs with
      | [b] => if b =? LF then Some [] else None
      | sp :: q :: rest =>
          if (sp =? 32) && (q =? DQUOTE) then
            match unquote rest with
            | Some (a, r) => option_map (cons a) (unquote_args fuel' r)
            | None => None
            end
          else None
      | [] => None
      end
  end.

Lemma unquote_plain bs r rest :
  Forall (fun b => (b =? DQUOTE) = false /\ (b =? BACKSLASH) = false) bs ->
  unquote r = Some rest -> unquote (bs ++ r) = Some (bs ++ rest.1, rest.2).
Proof.
  intros Hall Hr. induction Hall as [|b bs [Hq Hb] _ IH]; simpl.
  - rewrite Hr. by destruct rest.
  - by rewrite Hq, Hb, IH.
Qed.

Lemma encode_utf8_plain c :
  (c =? BACKSLASH) = false -> (c =? DQUOTE) = false ->
  Forall (fun b => (b =? DQUOTE) = false /\ (b =? BACKSLASH) = false) (encode_utf8 c).
Proof.
  intros Hb Hq. apply Forall_forall. intros b Hin.
  rewrite !N.eqb_neq in *. unfold DQUOTE, BACKSLASH in *.
  destruct (N.lt_ge_cases b 128) as [Hlt|Hge]; [|lia].
  rewrite (encode_utf8_low c b) by done. done.
Qed.

Lemma unquote_encoded arg r :
  unquote (concat (map encode_char arg) ++ DQUOTE :: r) = Some (as_bytes arg, r).
Proof.
  induction arg as [|c arg IH]; [done|]. cbn [map concat]. rewrite <-app_assoc.
  unfold encode_char at 1, as_bytes. cbn [map concat].
  destruct (c =? BACKSLASH) eqn:Hb; [|destruct (c =? DQUOTE) eqn:Hq].
  - apply N.eqb_eq in Hb as ->. cbn -[concat map]. by rewrite IH.
  - apply N.eqb_eq in Hq as ->. cbn -[concat map]. by rewrite IH.
  - rewrite (unquote_plain _ _ _ (encode_utf8_plain _ Hb Hq) IH). done.
Qed.

(** The arguments are read back by the quoting rules. *)
Lemma arguments_read_back args r fuel : encode_arguments args = Ok r -> (length args < fuel)%nat ->
  unquote_args fuel (r ++ [LF]) = Some (map as_bytes args).
Proof.
  revert r fuel. induction args as [|arg args IH]; intros r [|fuel] Hr Hf; cbn [length] in Hf; try lia;
    cbn [encode_arguments] in Hr; [by injection Hr as <-|].
  unfold encode_argument in Hr. destruct (check_chars arg) as [u'|]; [|done].
  destruct (encode_arguments args) as [r'|] eqn:Hr'; [|done]. injection Hr as <-.
  assert (Heq : ([32] ++ ([DQUOTE] ++ concat (map encode_char arg) ++ [DQUOTE]) ++ r') ++ [LF]
                = 32 :: DQUOTE :: (concat (map encode_char arg) ++ DQUOTE :: (r' ++ [LF]))).
  { simpl. by rewrite <-!app_assoc. }
  simpl app in Heq |- *. rewrite Heq. cbn [unquote_args].
  change ((32 =? 32) && (DQUOTE =? DQUOTE)) with true. cbn match.
  rewrite unquote_encoded, (IH r' fuel) by (done || lia). done.
Qed.

(** What follows the command in a serialised command is read back, by the
    documented MPD quoting rules, as exactly the UTF-8 bytes of the arguments. *)
Theorem serialise_command_roundtrip command args out :
  serialise_command command args = Ok out ->
  exists tail, out = as_bytes command ++ tail
    /\ unquote_args (S (length args)) tail = Some (map as_bytes args).
Proof.
  unfold serialise_command. destruct (check_chars command) as [u|]; [|done].
  destruct (encode_arguments args) as [r|] eqn:Hr; [|done]. intros [= <-].
  exists (r ++ [LF]). split; [done|]. by apply arguments_read_back; [|lia].
Qed.

(** ** Response lines *)

Lemma split_once_two x y a b : x ∉ a -> split_once [x; y] (a ++ x :: y :: b) = Some (a, b).
Proof.
  induction a as [|c a IH]; intros Hnot; simpl.
  - by rewrite !N.eqb_refl.
  - rewrite not_elem_of_cons in Hnot. destruct Hnot as [Hne Hnot].
    destruct (N.eqb_spec x c); [congruence|]. by rewrite IH.
Qed.

Definition render_ack (code pos : N) (command message : str) : str :=
  lit "ACK [" ++ dec code ++ [64] ++ dec pos ++ lit "] {" ++ command ++ lit "} " ++ message.

(** The error line MPD documents, [ACK \[code@position\] {command} message], is
    classified as that acknowledgement for every code and position of a [u32], every
    message and every command without a closing brace. *)
Theorem classify_ack_roundtrip code pos command message :
  code <= U32_MAX -> pos <= U32_MAX -> 125 ∉ command ->
  classify_line (render_ack code pos command message)
    = Ok (LineAck code pos command message).
Proof.
  intros Hcode Hpos Hbrace. unfold classify_line, render_ack.
  set (rest := dec code ++ _).
  rewrite bool_decide_eq_false_2, bool_decide_eq_false_2 by (vm_compute; discriminate).
  unfold starts_with. rewrite strip_prefix_app. unfold parse_ack_line.
  rewrite strip_prefix_app. cbn [ok_or]. subst rest.
  assert (Hs1 : split_once (lit "] ") (dec code ++ [64] ++ dec pos ++ lit "] {" ++ command ++ lit "} " ++ message)
                = Some (dec code ++ [64] ++ dec pos, [123] ++ command ++ lit "} " ++ message)).
  { replace (dec code ++ [64] ++ dec pos ++ lit "] {" ++ command ++ lit "} " ++ message)
      with ((dec code ++ [64] ++ dec pos) ++ 93 :: 32 :: ([123] ++ command ++ lit "} " ++ message))
      by (rewrite <-!app_assoc; reflexivity).
    apply split_once_two. rewrite !not_elem_of_app, list_elem_of_singleton.
    split_and!; [by apply dec_not_elem|done|by apply dec_not_elem]. }
  rewrite Hs1. cbn [ok_or fst snd].
  change (dec code ++ [64] ++ dec pos) with (dec code ++ 64 :: dec pos).
  rewrite (split_once_char_intro 64) by (by apply dec_not_elem). cbn [ok_or fst snd].
  unfold parse_u32. rewrite !parse_uint_dec by done. cbn [ok_or].
  rewrite strip_prefix_app. cbn [ok_or].
  change (lit "} " ++ message) with (125 :: 32 :: message).
  by rewrite split_once_char_intro.
Qed.

(** A [key: value] line is classified as that field for every non-empty key
    without a colon that does not start an [ACK], and every value. *)
Theorem classify_field_roundtrip k v :
  k <> [] -> 58 ∉ k -> starts_with (lit "ACK [") (k ++ lit ": " ++ v) = false ->
  classify_line (k ++ lit ": " ++ v) = Ok (LineField {| key := k; value := v |}).
Proof.
  intros Hne Hcolon Hack. unfold classify_line.
  assert (Hneq : forall s, 58 ∉ s -> k ++ lit ": " ++ v <> s).
  { intros s Hs Heq. apply Hs. rewrite <-Heq.
    apply elem_of_app. right. apply list_elem_of_here. }
  rewrite bool_decide_eq_false_2, bool_decide_eq_false_2
    by (apply Hneq; vm_compute; intros H; repeat (apply elem_of_cons in H as [H|H]; [discriminate|]);
        by apply not_elem_of_nil in H).
  rewrite Hack. unfold parse_field_line.
  change (k ++ lit ": " ++ v) with (k ++ 58 :: 32 :: v).
  change (lit ": ") with [58; 32]. rewrite split_once_two by done. cbn.
  by destruct k.
Qed.

(** ** Reading a line *)

Lemma ends_with_snoc c s : ends_with [c] (s ++ [c]) = true.
Proof.
  unfold ends_with, strip_suffix. rewrite rev_app_distr. simpl. by rewrite N.eqb_refl.
Qed.

Lemma ends_with_snoc_ne c d s : c <> d -> ends_with [c] (s ++ [d]) = false.
Proof.
  intros Hne. unfold ends_with, strip_suffix. rewrite rev_app_distr. simpl.
  by rewrite (proj2 (N.eqb_neq c d) Hne).
Qed.

Lemma pop_snoc s c : pop (s ++ [c]) = s.
Proof. apply removelast_last. Qed.

(** A line the peer ended with LF or with CR LF, within the limit, comes back
    without its terminator, and exactly one of each is removed. *)
Theorem read_line_strips_terminator s eol budget op :
  (eol = [LF] /\ ends_with [CR] s = false \/ eol = [CR; LF]) ->
  str_len (s ++ eol) <= LINE_MAX ->
  read_line_with_timeout (ReadText (s ++ eol)) budget op = Ok s.
Proof.
  intros Heol Hlen. unfold read_line_with_timeout.
  assert (Hpos : (str_len (s ++ eol) =? 0) = false).
  { apply N.eqb_neq. rewrite str_len_app. destruct Heol as [[-> _]| ->]; cbn; lia. }
  rewrite Hpos, (proj2 (N.ltb_ge LINE_MAX (str_len (s ++ eol)))) by done.
  destruct Heol as [[-> Hcr]| ->].
  - rewrite ends_with_snoc, pop_snoc. simpl. by rewrite Hcr.
  - change [CR; LF] with ([CR] ++ [LF]). rewrite app_assoc, ends_with_snoc, pop_snoc. simpl.
    by rewrite ends_with_snoc, pop_snoc.
Qed.

(** Every line the framing returns comes from a text that was read in full, ends in
    a line feed and is within the limit, and is strictly shorter than it: a partial
    line, an oversized line, a failed and a timed-out read are all errors. *)
Theorem read_line_rejects outcome budget op s :
  read_line_with_timeout outcome budget op = Ok s ->
  exists text, outcome = ReadText text /\ ends_with [LF] text = true
    /\ str_len text <= LINE_MAX /\ str_len s < str_len text.
Proof.
  unfold read_line_with_timeout. destruct outcome as [text|e|]; [|done|done].
  destruct (str_len text =? 0); [done|].
  destruct (N.ltb_spec LINE_MAX (str_len text)) as [|Hle]; [done|].
  destruct (ends_with [LF] text) eqn:He; [|done]. simpl. intros [= Hs].
  exists text. split_and!; [done|done|done|].
  assert (Hpop : forall t, t <> [] -> str_len (pop t) < str_len t).
  { intros t Ht. destruct (exists_last Ht) as (t' & c & ->). rewrite pop_snoc, str_len_app.
    cbn. unfold utf8_width. repeat case_match; lia. }
  assert (Hpop' : forall t, str_len (pop t) <= str_len t).
  { intros [|c t]; [done|]. apply N.lt_le_incl. by apply Hpop. }
  destruct text as [|c text]; [done|].
  specialize (Hpop (c :: text) ltac:(done)). specialize (Hpop' (pop (c :: text))).
  destruct (ends_with [CR] _) in Hs; subst s; lia.
Qed.

(** ** Witnesses *)

Definition demo_command : list N :=
  [97; 100; 100; 32; 34; 97; 92; 34; 98; 92; 92; 195; 169; 34; 10].

Lemma serialise_command_one_line_witness :
  exists body, demo_command = body ++ [LF] /\ LF ∉ body /\ CR ∉ body /\ NUL ∉ body.
Proof.
  apply (serialise_command_one_line (lit "add") [[97; 34; 98; 92; 233]]). vm_compute. reflexivity.
Defined.

Lemma serialise_command_roundtrip_witness :
  exists tail, demo_command = as_bytes (lit "add") ++ tail
    /\ unquote_args 2 tail = Some [[97; 34; 98; 92; 195; 169]].
Proof.
  apply (serialise_command_roundtrip (lit "add") [[97; 34; 98; 92; 233]]). vm_compute. reflexivity.
Defined.

Lemma classify_ack_roundtrip_witness :
  classify_line (lit "ACK [50@0] {play} No such song") = Ok (LineAck 50 0 (lit "play") (lit "No such song")).
Proof.
  apply (classify_ack_roundtrip 50 0 (lit "play") (lit "No such song")).
  - vm_compute. discriminate.
  - vm_compute. discriminate.
  - vm_compute. intros H. repeat (apply elem_of_cons in H as [H|H]; [discriminate|]).
    by apply not_elem_of_nil in H.
Defined.

Lemma read_line_strips_terminator_witness :
  read_line_with_timeout (ReadText (lit "OK" ++ [CR; LF])) 100 (lit "ping") = Ok (lit "OK").
Proof. apply read_line_strips_terminator; [right; reflexivity|vm_compute; discriminate]. Defined.

Lemma read_line_rejects_witness :
  exists text, ReadText (lit "OK" ++ [LF]) = ReadText text /\ ends_with [LF] text = true
    /\ str_len text <= LINE_MAX /\ str_len (lit "OK") < str_len text.
Proof. apply (read_line_rejects _ 100 (lit "ping")). vm_compute. reflexivity. Defined.
