(* ===== verification/SourceRegistry.v ===== *)
(** * The library source registry
    ([plugins/org.evoframework.playback.mpd/src/source_registry.rs])

    The registered sources with their reachability state machine, the broadcast of
    state changes, the defaults per kind and the reachability probes.  The file
    system's and the media server's answers are arguments; the registry's
    persistence is modelled as the list of records it writes and reads (the TOML text
    and the staging file are not). *)

From S2P Require Import Prelude.
Local Open Scope N_scope.

(** ** Data *)

(** [SourceKind] *)
Inductive SourceKind :=
| LocalInternal
| LocalUsb (device_node label : str)
| NetworkNasSmb (server share username : str)
| NetworkNasNfs (server export : str)
| CloudGdrive (account_ref : str)
| CloudOnedrive (account_ref : str)
| NetworkDlna (service_id control_url base_url : str).

(** [SourceState] *)
Inductive SourceState :=
| Probing
| Online
| Degraded (reason : str) (since_ms : N)
| Offline (reason : str) (since_ms : N)
| Retired.

(** [SourceStateDiscriminant] *)
Inductive SourceStateDiscriminant := DProbing | DOnline | DDegraded | DOffline | DRetired.

#[export] Instance SourceState_eq_dec : EqDecision SourceState.
Proof. solve_decision. Defined.
#[export] Instance SourceStateDiscriminant_eq_dec : EqDecision SourceStateDiscriminant.
Proof. solve_decision. Defined.

(** [SourceState::discriminant] *)
Definition discriminant (s : SourceState) : SourceStateDiscriminant :=
  match s with
  | Probing => DProbing
  | Online => DOnline
  | Degraded _ _ => DDegraded
  | Offline _ _ => DOffline
  | Retired => DRetired
  end.

(** [SourceState::is_reachable] *)
Definition is_reachable (s : SourceState) : bool :=
  match s with Online | Degraded _ _ => true | _ => false end.

(** [ScanPolicy] *)
Inductive ScanPolicy :=
| EagerIncremental (on_online on_mount_event : bool)
| LazyBrowseDriven (prefetch_recent : N)
| BrowseOnly.

(** [SourceRecord] *)
Record SourceRecord := {
  id : str;
  display_name : str;
  kind : SourceKind;
  mount_path : str;
  mpd_storage_name : option str;
  state : SourceState;
  last_seen_online_at_ms : option N;
  probe_cadence_ms : N;
  scan_policy : ScanPolicy;
  track_count : N;
  track_count_available : N;
  last_scan_at_ms : option N;
}.

Definition set_state (s : SourceState) (r : SourceRecord) : SourceRecord :=
  {| id := id r; display_name := display_name r; kind := kind r; mount_path := mount_path r;
     mpd_storage_name := mpd_storage_name r; state := s;
     last_seen_online_at_ms := last_seen_online_at_ms r; probe_cadence_ms := probe_cadence_ms r;
     scan_policy := scan_policy r; track_count := track_count r;
     track_count_available := track_count_available r; last_scan_at_ms := last_scan_at_ms r |}.

Definition set_last_seen (t : option N) (r : SourceRecord) : SourceRecord :=
  {| id := id r; display_name := display_name r; kind := kind r; mount_path := mount_path r;
     mpd_storage_name := mpd_storage_name r; state := state r;
     last_seen_online_at_ms := t; probe_cadence_ms := probe_cadence_ms r;
     scan_policy := scan_policy r; track_count := track_count r;
     track_count_available := track_count_available r; last_scan_at_ms := last_scan_at_ms r |}.

Definition set_counts (total available : N) (scan : option N) (r : SourceRecord) : SourceRecord :=
  {| id := id r; display_name := display_name r; kind := kind r; mount_path := mount_path r;
     mpd_storage_name := mpd_storage_name r; state := state r;
     last_seen_online_at_ms := last_seen_online_at_ms r; probe_cadence_ms := probe_cadence_ms r;
     scan_policy := scan_policy r; track_count := total;
     track_count_available := available; last_scan_at_ms := scan |}.

(** [SourceStateChange] *)
Record SourceStateChange := {
  source_id : str; old_state : SourceState; new_state : SourceState; at_ms : N;
}.

(** [RegistryError] *)
Inductive RegistryError :=
| Duplicate (source_id : str) | Unknown (source_id : str) | Persist (reason : str).

(** [SourceRegistry]: the map and every change sent on the broadcast channel. *)
Record SourceRegistry := {
  sources : gmap str SourceRecord;
  state_changes : list SourceStateChange;
}.

Definition SOURCE_REGISTRY_VERSION : N := 1.
Definition new : SourceRegistry := {| sources := ∅; state_changes := [] |}.

(** ** Operations *)

Definition snapshot (reg : SourceRegistry) : list SourceRecord :=
  map snd (map_to_list (sources reg)).

Definition get (reg : SourceRegistry) (sid : str) : option SourceRecord := sources reg !! sid.

Definition register (r : SourceRecord) (reg : SourceRegistry)
    : SourceRegistry * result unit RegistryError :=
  match sources reg !! id r with
  | Some _ => (reg, Err (Duplicate (id r)))
  | None => ({| sources := <[id r := r]> (sources reg); state_changes := state_changes reg |}, Ok tt)
  end.

Definition upsert (r : SourceRecord) (reg : SourceRegistry) : SourceRegistry :=
  {| sources := <[id r := r]> (sources reg); state_changes := state_changes reg |}.

(** [transition]; [t_seen] and [t_at] are the two readings of the clock. *)
Definition transition (sid : str) (s : SourceState) (t_seen t_at : N) (reg : SourceRegistry)
    : SourceRegistry * result SourceState RegistryError :=
  match sources reg !! sid with
  | None => (reg, Err (Unknown sid))
  | Some r =>
      if decide (discriminant (state r) = discriminant s) then
        ({| sources := <[sid := set_state s r]> (sources reg);
            state_changes := state_changes reg |}, Ok (state r))
      else
        let r1 := set_state s r in
        let r2 := match s with Online => set_last_seen (Some t_seen) r1 | _ => r1 end in
        ({| sources := <[sid := r2]> (sources reg);
            state_changes := state_changes reg ++
              [{| source_id := sid; old_state := state r; new_state := s; at_ms := t_at |}] |},
         Ok (state r))
  end.

Definition remove (sid : str) (reg : SourceRegistry) : SourceRegistry * result SourceRecord RegistryError :=
  match sources reg !! sid with
  | None => (reg, Err (Unknown sid))
  | Some r => ({| sources := delete sid (sources reg); state_changes := state_changes reg |}, Ok r)
  end.

Definition update_track_counts (sid : str) (total available now : N) (reg : SourceRegistry)
    : SourceRegistry * result unit RegistryError :=
  match sources reg !! sid with
  | None => (reg, Err (Unknown sid))
  | Some r =>
      ({| sources := <[sid := set_counts total available (Some now) r]> (sources reg);
          state_changes := state_changes reg |}, Ok tt)
  end.

Definition apply_track_counts_with_scan_time (sid : str) (total available : N) (at_ : option N)
    (reg : SourceRegistry) : SourceRegistry * result unit RegistryError :=
  match sources reg !! sid with
  | None => (reg, Err (Unknown sid))
  | Some r =>
      let scan := match at_ with Some _ => at_ | None => last_scan_at_ms r end in
      ({| sources := <[sid := set_counts total available scan r]> (sources reg);
          state_changes := state_changes reg |}, Ok tt)
  end.

(** What reading the state file gave: no path configured or no file, a read or
    parse failure, or the persisted records. *)
Inductive StateFile := NoStatePath | StateNotFound | StateUnreadable (reason : str)
                     | StateParsed (records : list SourceRecord).

Definition load_from_disk (f : StateFile) (reg : SourceRegistry)
    : SourceRegistry * result nat RegistryError :=
  match f with
  | NoStatePath | StateNotFound => (reg, Ok 0%nat)
  | StateUnreadable reason => (reg, Err (Persist reason))
  | StateParsed rs =>
      ({| sources := foldl (fun m r => <[id r := r]> m) (sources reg) rs;
          state_changes := state_changes reg |}, Ok (length rs))
  end.

(** The version and records [persist] writes. *)
Definition persisted (reg : SourceRegistry) : N * list SourceRecord :=
  (SOURCE_REGISTRY_VERSION, snapshot reg).

(** ** Defaults *)

Definition LOCAL_INTERNAL_SOURCE_ID : str := lit "local-internal".
Definition DEFAULT_LOCAL_INTERNAL_PROBE_CADENCE_MS : N := 60000.
Definition DEFAULT_LOCAL_USB_PROBE_CADENCE_MS : N := 5000.
Definition DEFAULT_NAS_PROBE_CADENCE_MS : N := 30000.
Definition DEFAULT_CLOUD_PROBE_CADENCE_MS : N := 300000.
Definition DEFAULT_DLNA_PROBE_CADENCE_MS : N := 60000.

Definition make_local_internal_record (music_directory : str) : SourceRecord :=
  {| id := LOCAL_INTERNAL_SOURCE_ID; display_name := lit "Local library"; kind := LocalInternal;
     mount_path := music_directory; mpd_storage_name := None; state := Probing;
     last_seen_online_at_ms := None;
     probe_cadence_ms := DEFAULT_LOCAL_INTERNAL_PROBE_CADENCE_MS;
     scan_policy := EagerIncremental true false;
     track_count := 0; track_count_available := 0; last_scan_at_ms := None |}.

Definition default_scan_policy_for (k : SourceKind) : ScanPolicy :=
  match k with
  | LocalInternal | LocalUsb _ _ | NetworkNasSmb _ _ _ | NetworkNasNfs _ _ =>
      EagerIncremental true (match k with LocalUsb _ _ => true | _ => false end)
  | CloudGdrive _ | CloudOnedrive _ => LazyBrowseDriven 0
  | NetworkDlna _ _ _ => BrowseOnly
  end.

Definition default_probe_cadence_for (k : SourceKind) : N :=
  match k with
  | LocalInternal => DEFAULT_LOCAL_INTERNAL_PROBE_CADENCE_MS
  | LocalUsb _ _ => DEFAULT_LOCAL_USB_PROBE_CADENCE_MS
  | NetworkNasSmb _ _ _ | NetworkNasNfs _ _ => DEFAULT_NAS_PROBE_CADENCE_MS
  | CloudGdrive _ | CloudOnedrive _ => DEFAULT_CLOUD_PROBE_CADENCE_MS
  | NetworkDlna _ _ _ => DEFAULT_DLNA_PROBE_CADENCE_MS
  end.

Definition should_start_online_scan (r : SourceRecord) : bool :=
  match state r with Online => true | _ => false end
  && match scan_policy r with EagerIncremental true _ => true | _ => false end
  && match last_scan_at_ms r with None => true | Some _ => false end.

(** ** Probes *)

(** The timed [fs::metadata]: elapsed, no such path, another error, a directory, or
    something else. *)
Inductive MetaOutcome := MetaElapsed | MetaNotFound | MetaError (e : str) | MetaDir | MetaOther.
(** The timed media-server browse. *)
Inductive BrowseOutcome := BrowseElapsed | BrowseError (e : str) | BrowseOk.

Definition PROBE_BUDGET : N := 3000.

(** [probe_local_directory]; [elapsed] and [budget] in milliseconds. *)
Definition probe_local_directory (meta : MetaOutcome) (elapsed budget now : N) : SourceState :=
  match meta with
  | MetaDir => if budget <? elapsed then Degraded (lit "probe exceeded budget") now else Online
  | MetaOther => Offline (lit "path exists but is not a directory") now
  | MetaNotFound => Offline (lit "mount path not present") now
  | MetaError e => Offline (lit "metadata error: " ++ e) now
  | MetaElapsed => Offline (lit "probe budget " ++ dec budget ++ lit " ms exhausted") now
  end.

Definition probe_dlna (control_url : str) (b : BrowseOutcome) (now : N) : SourceState :=
  if str_is_empty control_url then Probing
  else match b with
       | BrowseOk => Online
       | BrowseError e => Offline (lit "dlna probe: " ++ e) now
       | BrowseElapsed => Degraded (lit "dlna probe exceeded budget") now
       end.

Definition probe_source (r : SourceRecord) (meta : MetaOutcome) (b : BrowseOutcome)
    (elapsed budget now : N) : SourceState :=
  match kind r with
  | LocalInternal | LocalUsb _ _ => probe_local_directory meta elapsed budget now
  | NetworkNasSmb _ _ _ | NetworkNasNfs _ _ => probe_local_directory meta elapsed budget now
  | NetworkDlna _ control_url _ => probe_dlna control_url b now
  | CloudGdrive _ | CloudOnedrive _ => Probing
  end.

(** ** What a subscriber sees *)

(** The states of the sources up to their discriminant. *)
Definition view (reg : SourceRegistry) : gmap str SourceStateDiscriminant :=
  (fun r => discriminant (state r)) <$> sources reg.

(** A subscriber that read a view and applies the changes it receives. *)
Definition apply_change (v : gmap str SourceStateDiscriminant) (c : SourceStateChange) :=
  <[source_id c := discriminant (new_state c)]> v.

(** The operations the supervisors run between registrations. *)
Inductive RegOp :=
| OpTransition (sid : str) (s : SourceState) (t_seen t_at : N)
| OpCounts (sid : str) (total available now : N)
| OpCountsAt (sid : str) (total available : N) (at_ : option N).

Definition run_op (reg : SourceRegistry) (o : RegOp) : SourceRegistry :=
  match o with
  | OpTransition sid s t1 t2 => (transition sid s t1 t2 reg).1
  | OpCounts sid a b now => (update_track_counts sid a b now reg).1
  | OpCountsAt sid a b at_ => (apply_track_counts_with_scan_time sid a b at_ reg).1
  end.

Lemma transition_changes sid s t1 t2 reg :
  exists cs, state_changes (transition sid s t1 t2 reg).1 = state_changes reg ++ cs
    /\ view (transition sid s t1 t2 reg).1 = foldl apply_change (view reg) cs
    /\ Forall (fun c => discriminant (old_state c) <> discriminant (new_state c)
                        /\ view reg !! source_id c = Some (discriminant (old_state c))) cs.
Proof.
  unfold transition. destruct (sources reg !! sid) as [r|] eqn:Hr.
  2:{ exists []. by rewrite app_nil_r. }
  assert (Hv : view reg !! sid = Some (discriminant (state r))).
  { unfold view. by rewrite lookup_fmap, Hr. }
  case_decide as Hd; simpl.
  - exists []. rewrite app_nil_r. split_and!; [done| |constructor]. simpl. unfold view. simpl.
    rewrite fmap_insert. simpl. rewrite <-Hd. apply insert_id. exact Hv.
  - eexists. split_and!; [done| |].
    + simpl. unfold view. simpl. rewrite fmap_insert. unfold apply_change. simpl. by destruct s.
    + constructor; [|constructor]. simpl. done.
Qed.

Lemma run_op_changes reg o :
  exists cs, state_changes (run_op reg o) = state_changes reg ++ cs
    /\ view (run_op reg o) = foldl apply_change (view reg) cs
    /\ Forall (fun c => discriminant (old_state c) <> discriminant (new_state c)
                        /\ view reg !! source_id c = Some (discriminant (old_state c))) cs.
Proof.
  destruct o as [sid s t1 t2|sid a b now|sid a b at_]; simpl; [apply transition_changes|..].
  - exists []. rewrite app_nil_r. unfold update_track_counts.
    destruct (sources reg !! sid) as [r|] eqn:Hr; simpl; [|done].
    split_and!; [done| |constructor]. unfold view. simpl. rewrite fmap_insert. simpl.
    apply insert_id. by rewrite lookup_fmap, Hr.
  - exists []. rewrite app_nil_r. unfold apply_track_counts_with_scan_time.
    destruct (sources reg !! sid) as [r|] eqn:Hr; simpl; [|done].
    split_and!; [done| |constructor]. unfold view. simpl. rewrite fmap_insert. simpl.
    apply insert_id. by rewrite lookup_fmap, Hr.
Qed.

(** A subscriber that starts from a snapshot and applies every broadcast tracks
    the reachability state of every source, whatever sequence of transitions and
    track-count updates runs; the broadcast is exactly the sequence of changes that
    tell states apart, so no reachability change is missed and none is invented. *)
Theorem subscriber_tracks reg ops :
  exists cs, state_changes (foldl run_op reg ops) = state_changes reg ++ cs
    /\ view (foldl run_op reg ops) = foldl apply_change (view reg) cs
    /\ Forall (fun c => discriminant (old_state c) <> discriminant (new_state c)) cs.
Proof.
  revert reg. induction ops as [|o ops IH]; intros reg; cbn [foldl].
  { exists []. by rewrite app_nil_r. }
  destruct (run_op_changes reg o) as (cs1 & Hc1 & Hv1 & Hf1).
  destruct (IH (run_op reg o)) as (cs2 & Hc2 & Hv2 & Hf2).
  exists (cs1 ++ cs2). rewrite Hc2, Hc1, Hv2, Hv1, app_assoc, foldl_app.
  split_and!; [done|done|]. apply Forall_app. split; [|done].
  eapply Forall_impl; [exact Hf1|]. by intros c [? _].
Qed.

(** A transition on every branch: an unknown source is an error and nothing
    changes; otherwise the previous state is returned, the source gets exactly the
    new state, [last_seen_online_at_ms] is stamped exactly when it enters [Online]
    from another state, every other field and source is untouched, and a change is
    broadcast exactly when the two states differ in discriminant. *)
Theorem transition_correct sid s t1 t2 reg :
  match sources reg !! sid with
  | None => transition sid s t1 t2 reg = (reg, Err (Unknown sid))
  | Some r =>
      exists r', transition sid s t1 t2 reg =
        ({| sources := <[sid := r']> (sources reg);
            state_changes := state_changes reg ++
              (if decide (discriminant (state r) = discriminant s) then []
               else [{| source_id := sid; old_state := state r; new_state := s; at_ms := t2 |}]) |},
         Ok (state r))
      /\ state r' = s
      /\ last_seen_online_at_ms r' =
           (if decide (s = Online /\ state r <> Online) then Some t1 else last_seen_online_at_ms r)
      /\ set_last_seen (last_seen_online_at_ms r) (set_state (state r) r') = r
  end.
Proof.
  unfold transition. destruct (sources reg !! sid) as [r|]; [|done].
  case_decide as Hd.
  - exists (set_state s r). rewrite app_nil_r. split_and!; [done|done| |by destruct r].
    rewrite decide_False; [done|]. intros [-> Hne]. apply Hne.
    destruct (state r); simpl in Hd; congruence.
  - eexists. split; [done|]. split_and!; [by destruct s| |by destruct s, r].
    case_decide as Hs.
    + destruct Hs as [-> _]. done.
    + destruct s; try done. exfalso. apply Hs. split; [done|]. intros Heq. apply Hd. by rewrite Heq.
Qed.

(** A registry persisted and loaded into an empty one holds the same sources. *)
Theorem persist_load_roundtrip reg :
  (forall k r, sources reg !! k = Some r -> id r = k) ->
  sources (load_from_disk (StateParsed (persisted reg).2) new).1 = sources reg.
Proof.
  intros Hid. unfold persisted, snapshot. simpl.
  assert (Hgen : forall (l : list (str * SourceRecord)) (m : gmap str SourceRecord),
    NoDup l.*1 -> (forall k r, (k, r) ∈ l -> id r = k) ->
    foldl (fun m r => <[id r := r]> m) m (map snd l)
    = (list_to_map l : gmap str SourceRecord) ∪ m).
  { induction l as [|[k r] l IH]; intros m Hnd Hk; [by rewrite list_to_map_nil, map_empty_union|].
    cbn [map foldl snd fst fmap list_fmap] in *. apply NoDup_cons in Hnd as [Hnin Hnd].
    rewrite IH by (done || (intros k' r' Hin; apply Hk; by apply list_elem_of_further)).
    rewrite (Hk k r) by apply list_elem_of_here.
    change (list_to_map ((k, r) :: l)) with (<[k := r]> (list_to_map l : gmap str SourceRecord)).
    rewrite <-insert_union_r by (by apply not_elem_of_list_to_map_1).
    by rewrite insert_union_l. }
  rewrite Hgen.
  - rewrite list_to_map_to_list. by rewrite map_union_empty.
  - apply NoDup_fst_map_to_list.
  - intros k r Hin%elem_of_map_to_list. by apply Hid.
Qed.

(** The registry's map is keyed by the records' ids under every operation. *)
Definition keyed (reg : SourceRegistry) : Prop :=
  forall k r, sources reg !! k = Some r -> id r = k.

Lemma keyed_insert reg k r cs :
  keyed reg -> id r = k -> keyed {| sources := <[k := r]> (sources reg); state_changes := cs |}.
Proof.
  intros Hk Hr k' r'. simpl. destruct (decide (k = k')) as [->|Hne].
  - rewrite lookup_insert_eq. by intros [= <-].
  - rewrite lookup_insert_ne by done. apply Hk.
Qed.

(** A probe that runs out of its budget: [Degraded] for a media server, but
    [Offline] for a directory. *)
Theorem probe_budget_exhausted r b elapsed budget now :
  match kind r with
  | NetworkDlna _ url _ =>
      url <> [] -> discriminant (probe_source r MetaElapsed BrowseElapsed elapsed budget now) = DDegraded
  | CloudGdrive _ | CloudOnedrive _ => probe_source r MetaElapsed b elapsed budget now = Probing
  | _ => discriminant (probe_source r MetaElapsed b elapsed budget now) = DOffline
  end.
Proof.
  unfold probe_source. destruct (kind r); try done.
  intros Hurl. unfold probe_dlna. by destruct control_url.
Qed.

(** A probe reports a source reachable only on positive evidence for its kind: the
    mount path answered as a directory, or (for a media server with a control URL)
    the browse answered or was still pending at the budget. *)
Theorem probe_reachable_evidence r meta b elapsed budget now :
  is_reachable (probe_source r meta b elapsed budget now) = true ->
  match kind r with
  | NetworkDlna _ url _ => url <> [] /\ (b = BrowseOk \/ b = BrowseElapsed)
  | CloudGdrive _ | CloudOnedrive _ => False
  | _ => meta = MetaDir
  end.
Proof.
  unfold probe_source. destruct (kind r); try done;
    try (destruct meta; simpl; try done; by repeat case_match).
  unfold probe_dlna. destruct control_url; [done|]. destruct b; naive_solver.
Qed.

(** A scan is started only for an online source that was never scanned and indexes
    on going online; the default records of every browse-only or lazy kind never
    qualify. *)
Lemma online_scan_once r total available now :
  should_start_online_scan (set_counts total available (Some now) r) = false.
Proof. unfold should_start_online_scan. simpl. by rewrite andb_false_r. Qed.

(** ** Witnesses *)

Definition demo_reg : SourceRegistry :=
  (register (make_local_internal_record (lit "/music")) new).1.

Lemma probe_reachable_evidence_witness : MetaDir = MetaDir.
Proof.
  apply (probe_reachable_evidence (make_local_internal_record (lit "/music")) MetaDir BrowseElapsed 3 PROBE_BUDGET 9).
  vm_compute. reflexivity.
Defined.

Example demo_transitions :
  map (fun c => discriminant (new_state c))
    (state_changes (foldl run_op demo_reg
       [OpTransition LOCAL_INTERNAL_SOURCE_ID Online 5 5;
        OpTransition LOCAL_INTERNAL_SOURCE_ID (Degraded (lit "slow") 6) 6 6;
        OpTransition LOCAL_INTERNAL_SOURCE_ID (Degraded (lit "slower") 7) 7 7]))
  = [DOnline; DDegraded].
Proof. vm_compute. reflexivity. Qed.
