(* ===== verification/Disposition.v ===== *)
(** * Dispositions and their ring buffer
    ([plugins/org.evoframework.playback.mpd/src/disposition_emitter.rs])

    The operator-facing audit trail of autonomous decisions: the record the SDK's
    builder fills in, the bounded ring the emitter keeps, what it publishes and what
    it reloads.  The interface [DispositionSink] is what skip-traversal needs of an
    emitter.  The subject announcements and the TOML file are not modelled beyond
    the list of records they carry. *)

From S2P Require Import Prelude.
Local Open Scope N_scope.

(** ** The records of the SDK that the code builds *)

Inductive DispositionKind :=
| TrackSkippedSourceOffline
| TrackSkippedFileNotFound
| TrackSkippedPermissionDenied
| TrackSkippedDecoderFailure
| TracksSkippedRun
| QueueExhaustedNoPlayable
| PlaybackPausedSourceOffline.

Inductive DispositionAction := SkipForward | Stop | Pause.

Inductive RecoveryHint :=
| WakeSource (source_id : str)
| RescanSource (source_id : str)
| CheckMountPermissions (source_id : str)
| InspectTrack (uri : str)
| AddPlayableTrack.

Record DispositionRun := { run_count : N; run_from : N; run_to : N }.

#[export] Instance DispositionKind_eq_dec : EqDecision DispositionKind.
Proof. solve_decision. Defined.

Record Disposition := {
  d_at_ms : N;
  d_kind : DispositionKind;
  d_action : DispositionAction;
  d_queue_position : option N;
  d_track_uri : option str;
  d_source_id : option str;
  d_recovery_hint : option RecoveryHint;
  d_runs : option DispositionRun;
}.

(** ** The emitter interface *)

Class DispositionSink (E : Type) := emit : Disposition -> E -> E.

(** A plain log of everything emitted. *)
#[export] Instance log_sink : DispositionSink (list Disposition) := fun d log => log ++ [d].

Definition emit_all {E} `{DispositionSink E} (ds : list Disposition) (e : E) : E :=
  foldl (fun e d => emit d e) e ds.

Lemma emit_all_snoc {E} `{DispositionSink E} (ds : list Disposition) d (e : E) :
  emit_all (ds ++ [d]) e = emit d (emit_all ds e).
Proof. unfold emit_all. by rewrite foldl_app. Qed.

(** ** The ring *)

Definition DISPOSITION_RING_BUFFER_CAPACITY : nat := 32.
Definition DISPOSITION_STATE_PAYLOAD_VERSION : N := 1.

(** [EmitterInner]: the ring, oldest first, and the envelopes published so far
    (their dispositions, most recent first). *)
Record DispositionEmitter := {
  ring : list Disposition;
  published : list (list Disposition);
}.
Definition emitter_new : DispositionEmitter := {| ring := []; published := [] |}.

(** [pop_front] when full, then [push_back]. *)
Definition push_bounded (d : Disposition) (r : list Disposition) : list Disposition :=
  (if (DISPOSITION_RING_BUFFER_CAPACITY <=? length r)%nat then tail r else r) ++ [d].

(** [snapshot] and the dispositions of [render_envelope]: most recent first. *)
Definition snapshot (e : DispositionEmitter) : list Disposition := rev (ring e).

(** [emit]: the ring, then persist (a failure is logged), then publish. *)
Definition emitter_emit (d : Disposition) (e : DispositionEmitter) : DispositionEmitter :=
  let r := push_bounded d (ring e) in
  {| ring := r; published := published e ++ [rev r] |}.
#[export] Instance emitter_sink : DispositionSink DispositionEmitter := emitter_emit.

(** What [persist] writes: the version and the ring, oldest first. *)
Definition persisted (e : DispositionEmitter) : N * list Disposition :=
  (DISPOSITION_STATE_PAYLOAD_VERSION, ring e).

(** [load_from_disk] of a parsed file: the number of records it held is returned. *)
Definition load_from_disk (ds : list Disposition) (e : DispositionEmitter) : DispositionEmitter * nat :=
  ({| ring := foldl (fun r d => push_bounded d r) [] ds; published := published e |}, length ds).

(** ** The ring holds the most recent records *)

Definition last_n {A} (n : nat) (l : list A) : list A := drop (length l - n) l.

Lemma push_bounded_last d r :
  (length r <= DISPOSITION_RING_BUFFER_CAPACITY)%nat ->
  push_bounded d r = last_n DISPOSITION_RING_BUFFER_CAPACITY (r ++ [d]).
Proof.
  unfold push_bounded, last_n. intros Hlen. rewrite length_app. cbn [length].
  destruct (Nat.leb_spec DISPOSITION_RING_BUFFER_CAPACITY (length r)) as [Hge|Hlt].
  - replace (length r + 1 - DISPOSITION_RING_BUFFER_CAPACITY)%nat with 1%nat by lia.
    destruct r as [|x r]; [vm_compute in Hge; lia|done].
  - replace (length r + 1 - DISPOSITION_RING_BUFFER_CAPACITY)%nat with 0%nat by lia. done.
Qed.

Lemma last_n_length {A} n (l : list A) : (length (last_n n l) <= n)%nat.
Proof. unfold last_n. rewrite length_drop. lia. Qed.

Lemma last_n_app_last {A} n (l1 l2 : list A) : last_n n (last_n n l1 ++ l2) = last_n n (l1 ++ l2).
Proof.
  unfold last_n. destruct (decide (length l1 <= n)%nat) as [Hle|Hgt].
  - replace (length l1 - n)%nat with 0%nat by lia. done.
  - rewrite <-(drop_app_le l1 l2) by lia. rewrite drop_drop. f_equal.
    rewrite length_drop, !length_app. lia.
Qed.

Lemma pushes_last ds r :
  (length r <= DISPOSITION_RING_BUFFER_CAPACITY)%nat ->
  foldl (fun r d => push_bounded d r) r ds = last_n DISPOSITION_RING_BUFFER_CAPACITY (r ++ ds).
Proof.
  revert r. induction ds as [|d ds IH]; intros r Hr; cbn [foldl].
  - rewrite app_nil_r. unfold last_n.
    replace (length r - DISPOSITION_RING_BUFFER_CAPACITY)%nat with 0%nat by lia. done.
  - rewrite push_bounded_last by done. rewrite IH by apply last_n_length.
    by rewrite last_n_app_last, <-app_assoc.
Qed.

Lemma emit_all_ring ds e : ring (emit_all ds e) = foldl (fun r d => push_bounded d r) (ring e) ds.
Proof. revert e. induction ds as [|d ds IH]; intros e; [done|]. apply (IH (emitter_emit d e)). Qed.

(** Whatever is emitted, the ring holds exactly the most recent 32 dispositions
    in order, so its size never exceeds the capacity, and a restart that reloads the
    persisted ring restores it. *)
Theorem ring_keeps_latest ds e :
  (length (ring e) <= DISPOSITION_RING_BUFFER_CAPACITY)%nat ->
  ring (emit_all ds e) = last_n DISPOSITION_RING_BUFFER_CAPACITY (ring e ++ ds)
  /\ (length (ring (emit_all ds e)) <= DISPOSITION_RING_BUFFER_CAPACITY)%nat
  /\ ring (load_from_disk (persisted (emit_all ds e)).2 emitter_new).1 = ring (emit_all ds e).
Proof.
  intros Hlen. rewrite emit_all_ring, pushes_last by done.
  split_and!; [done|apply last_n_length|]. unfold load_from_disk, persisted.
  cbn [fst snd ring]. rewrite emit_all_ring, !pushes_last by (done || apply Nat.le_0_l). cbn [app].
  rewrite <-(app_nil_r (last_n _ (ring e ++ ds))) at 1. by rewrite last_n_app_last, app_nil_r.
Qed.

Lemma ring_keeps_latest_witness :
  (length (ring (emit_all [] emitter_new)) <= DISPOSITION_RING_BUFFER_CAPACITY)%nat.
Proof. apply ring_keeps_latest. simpl. lia. Defined.
