(* ===== verification/SkipTraversal.v ===== *)
(** * Skip-traversal ([plugins/org.evoframework.playback.mpd/src/skip_traversal.rs])

    The walk of the play queue past unreachable and unplayable items, with the
    coalescing of offline runs.  The emitter is any [DispositionSink]; the MPD
    connection is a state with the [play] command as an argument (MPD is not code of
    this repository); the clock is a stream read once for each disposition. *)

From S2P Require Import Prelude MpdProtocol SourceRegistry Disposition.
Local Open Scope N_scope.

(** ** Data *)

(** [PlayableQueueItem] *)
Record PlayableQueueItem := {
  position : N;
  item_id : N;
  file_path : str;
  item_source : option str;
  available : option bool;
}.

(** [SkipOutcome] *)
Inductive SkipOutcome := Playing (position : N) | Paused (last_attempted : N) | Stopped.

(** [RunBuilder] *)
Record RunBuilder := {
  run_kind : DispositionKind;
  run_source : option str;
  from_position : N;
  to_position : N;
  count : N;
  first_recovery_hint : RecoveryHint;
}.

(** [Disposition::new] and the builder methods *)
Definition disposition_new (at_ms : N) (k : DispositionKind) (a : DispositionAction) : Disposition :=
  {| d_at_ms := at_ms; d_kind := k; d_action := a; d_queue_position := None; d_track_uri := None;
     d_source_id := None; d_recovery_hint := None; d_runs := None |}.
Definition with_queue_position (p : N) (d : Disposition) : Disposition :=
  {| d_at_ms := d_at_ms d; d_kind := d_kind d; d_action := d_action d; d_queue_position := Some p;
     d_track_uri := d_track_uri d; d_source_id := d_source_id d;
     d_recovery_hint := d_recovery_hint d; d_runs := d_runs d |}.
Definition with_track_uri (u : str) (d : Disposition) : Disposition :=
  {| d_at_ms := d_at_ms d; d_kind := d_kind d; d_action := d_action d;
     d_queue_position := d_queue_position d; d_track_uri := Some u; d_source_id := d_source_id d;
     d_recovery_hint := d_recovery_hint d; d_runs := d_runs d |}.
Definition with_source_id (s : option str) (d : Disposition) : Disposition :=
  match s with
  | None => d
  | Some _ =>
      {| d_at_ms := d_at_ms d; d_kind := d_kind d; d_action := d_action d;
         d_queue_position := d_queue_position d; d_track_uri := d_track_uri d; d_source_id := s;
         d_recovery_hint := d_recovery_hint d; d_runs := d_runs d |}
  end.
Definition with_recovery_hint (h : RecoveryHint) (d : Disposition) : Disposition :=
  {| d_at_ms := d_at_ms d; d_kind := d_kind d; d_action := d_action d;
     d_queue_position := d_queue_position d; d_track_uri := d_track_uri d;
     d_source_id := d_source_id d; d_recovery_hint := Some h; d_runs := d_runs d |}.
Definition with_runs (r : DispositionRun) (d : Disposition) : Disposition :=
  {| d_at_ms := d_at_ms d; d_kind := d_kind d; d_action := d_action d;
     d_queue_position := d_queue_position d; d_track_uri := d_track_uri d;
     d_source_id := d_source_id d; d_recovery_hint := d_recovery_hint d; d_runs := Some r |}.

(** The hint of a failed play, per item. *)
Definition source_or_empty (it : PlayableQueueItem) : str := default [] (item_source it).

(** The record [flush_run] emits. *)
Definition render_run (now : N) (run : RunBuilder) : Disposition :=
  if 2 <=? count run then
    with_source_id (run_source run)
      (with_recovery_hint (first_recovery_hint run)
        (with_runs {| run_count := count run; run_from := from_position run; run_to := to_position run |}
          (disposition_new now TracksSkippedRun SkipForward)))
  else
    with_source_id (run_source run)
      (with_recovery_hint (first_recovery_hint run)
        (with_queue_position (from_position run)
          (disposition_new now (run_kind run) SkipForward))).

(** The record [emit_single] emits. *)
Definition render_single (now : N) (it : PlayableQueueItem) (k : DispositionKind) (h : RecoveryHint)
    : Disposition :=
  with_source_id (item_source it)
    (with_recovery_hint h
      (with_track_uri (file_path it)
        (with_queue_position (position it) (disposition_new now k SkipForward)))).

Definition exhausted (now : N) : Disposition :=
  with_recovery_hint AddPlayableTrack (disposition_new now QueueExhaustedNoPlayable Stop).

(** What a failed play of an item does: pause on a transport failure, else the kind
    and hint of the single disposition. *)
Definition classify_play_error (it : PlayableQueueItem) (e : MpdError)
    : option (DispositionKind * RecoveryHint) :=
  match e with
  | Ack code _ _ _ =>
      if code =? 50 then Some (TrackSkippedFileNotFound, RescanSource (source_or_empty it))
      else if code =? 53 then
        Some (TrackSkippedPermissionDenied, CheckMountPermissions (source_or_empty it))
      else Some (TrackSkippedDecoderFailure, InspectTrack (file_path it))
  | Transport _ | Timeout _ _ => None
  | _ => Some (TrackSkippedDecoderFailure, InspectTrack (file_path it))
  end.

(** ** The traversal *)

Section traversal.
Context {E C : Type} `{DispositionSink E}.
Variable clock : nat -> N.
Variable play : C -> N -> C * result unit MpdError.
Variable registry : SourceRegistry.

Record TState := { emitter : E; conn : C; ticks : nat }.

Definition emit_at (f : N -> Disposition) (st : TState) : TState :=
  {| emitter := emit (f (clock (ticks st))) (emitter st); conn := conn st; ticks := S (ticks st) |}.

(** [source_state_for] *)
Definition source_state_for (sid : option str) : SourceState :=
  match sid with
  | Some i => match SourceRegistry.get registry i with Some r => state r | None => Probing end
  | None => Probing
  end.

(** The pre-flight test. *)
Definition offline (it : PlayableQueueItem) : bool :=
  bool_decide (available it = Some false) && negb (is_reachable (source_state_for (item_source it))).

(** [flush_run], [flush_run_if_any] *)
Definition flush_run (run : RunBuilder) (st : TState) : TState := emit_at (fun t => render_run t run) st.
Definition flush_run_if_any (co : option RunBuilder) (st : TState) : TState :=
  match co with Some run => flush_run run st | None => st end.

(** [accumulate_or_flush] *)
Definition accumulate_or_flush (co : option RunBuilder) (k : DispositionKind) (sid : option str)
    (pos : N) (h : RecoveryHint) (st : TState) : option RunBuilder * TState :=
  let fresh := {| run_kind := k; run_source := sid; from_position := pos; to_position := pos;
                  count := 1; first_recovery_hint := h |} in
  match co with
  | Some run =>
      if bool_decide (run_kind run = k) && bool_decide (run_source run = sid) then
        (Some {| run_kind := run_kind run; run_source := run_source run;
                 from_position := from_position run; to_position := pos;
                 count := sat_add U32_MAX (count run) 1;
                 first_recovery_hint := first_recovery_hint run |}, st)
      else (Some fresh, flush_run run st)
  | None => (Some fresh, st)
  end.

(** [emit_single] *)
Definition emit_single (it : PlayableQueueItem) (k : DispositionKind) (h : RecoveryHint) (st : TState)
    : TState := emit_at (fun t => render_single t it k h) st.

(** The loop of [advance_to_next_playable]. *)
Fixpoint walk (q : list PlayableQueueItem) (co : option RunBuilder) (st : TState)
    : TState * SkipOutcome :=
  match q with
  | [] => (emit_at exhausted (flush_run_if_any co st), Stopped)
  | it :: q' =>
      if offline it then
        let (co', st') := accumulate_or_flush co TrackSkippedSourceOffline (item_source it)
                            (position it) (WakeSource (source_or_empty it)) st in
        walk q' co' st'
      else
        let st1 := flush_run_if_any co st in
        let (c', r) := play (conn st1) (position it) in
        let st2 := {| emitter := emitter st1; conn := c'; ticks := ticks st1 |} in
        match r with
        | Ok _ => (st2, Playing (position it))
        | Err e =>
            match classify_play_error it e with
            | None => (st2, Paused (position it))
            | Some (k, h) => walk q' None (emit_single it k h st2)
            end
        end
  end.

Definition start_index (from : Z) : nat := if (from <? 0)%Z then 0%nat else Z.to_nat from.

Definition advance_to_next_playable (from : Z) (queue : list PlayableQueueItem) (st : TState)
    : TState * SkipOutcome := walk (drop (start_index from) queue) None st.

(** [emit_playback_paused_source_offline] *)
Definition emit_playback_paused_source_offline (sid uri : str) (pos : N) (st : TState) : TState :=
  emit_at (fun t =>
    with_recovery_hint (WakeSource sid)
      (with_source_id (Some sid)
        (with_track_uri uri
          (with_queue_position pos (disposition_new t PlaybackPausedSourceOffline Pause))))) st.

(** ** The outcome: a reference without dispositions *)

Fixpoint play_first (q : list PlayableQueueItem) (c : C) : C * SkipOutcome :=
  match q with
  | [] => (c, Stopped)
  | it :: q' =>
      let (c', r) := play c (position it) in
      match r with
      | Ok _ => (c', Playing (position it))
      | Err (Transport _) | Err (Timeout _ _) => (c', Paused (position it))
      | Err _ => play_first q' c'
      end
  end.

Lemma accumulate_conn co k sid pos h st : conn (accumulate_or_flush co k sid pos h st).2 = conn st.
Proof. destruct co as [run|]; simpl; [|done]. by destruct (_ && _). Qed.

Lemma flush_conn co st : conn (flush_run_if_any co st) = conn st.
Proof. by destruct co. Qed.

Lemma walk_play_first q co st :
  (conn (walk q co st).1, (walk q co st).2)
  = play_first (filter (fun it => offline it = false) q) (conn st).
Proof.
  revert co st. induction q as [|it q IH]; intros co st; [by destruct co|].
  rewrite filter_cons. cbn [walk]. destruct (offline it) eqn:Hoff.
  - rewrite decide_False by done.
    pose proof (accumulate_conn co TrackSkippedSourceOffline (item_source it) (position it)
                  (WakeSource (source_or_empty it)) st) as Hc.
    destruct (accumulate_or_flush _ _ _ _ _ _) as [co' st']. simpl in Hc. by rewrite IH, Hc.
  - rewrite decide_True by done. cbn [play_first]. rewrite flush_conn.
    destruct (play (conn st) (position it)) as [c' [u|e]]; [done|].
    destruct e; cbn [classify_play_error]; try done; repeat case_match; try done;
      simplify_eq; by rewrite IH.
Qed.

(** C18: The outcome and the commands sent to MPD are those of trying, in queue order
    from the start position, exactly the items that are not known to be offline:
    the first that plays is the outcome, a transport failure pauses there, any other
    failure moves on, and the walk stops at the end of the queue.  Known-offline items
    cost no round trip. *)
Theorem advance_outcome from queue st :
  (conn (advance_to_next_playable from queue st).1, (advance_to_next_playable from queue st).2)
  = play_first (filter (fun it => offline it = false) (drop (start_index from) queue)) (conn st).
Proof. apply walk_play_first. Qed.
End traversal.
Arguments TState E C : clear implicits.

(** ** One run of the walk for every emitter *)

Section simulation.
Context {E C : Type} `{DispositionSink E}.
Variable clock : nat -> N.
Variable play : C -> N -> C * result unit MpdError.
Variable registry : SourceRegistry.

(** A state of the walk on the emitter [E] against one on the log. *)
Definition sim (e0 : E) (s : TState E C) (l : TState (list Disposition) C) : Prop :=
  emitter s = emit_all (emitter l) e0 /\ conn s = conn l /\ ticks s = ticks l.

Lemma sim_emit e0 f s l : sim e0 s l -> sim e0 (emit_at clock f s) (emit_at clock f l).
Proof.
  intros (He & Hc & Ht). unfold sim, emit_at. simpl. rewrite Ht, Hc, He.
  split_and!; [|done|done]. exact (eq_sym (emit_all_snoc _ _ _)).
Qed.

Lemma walk_sim e0 q co s l :
  sim e0 s l ->
  sim e0 (walk clock play registry q co s).1 (walk clock play registry q co l).1
  /\ (walk clock play registry q co s).2 = (walk clock play registry q co l).2.
Proof.
  revert co s l. induction q as [|it q IH]; intros co s l Hsim; cbn [walk].
  - split; [|done]. destruct co; simpl; by repeat apply sim_emit.
  - destruct (offline registry it).
    + destruct co as [run|]; simpl; [|by apply IH].
      destruct (_ && _); apply IH; [done|by apply sim_emit].
    + assert (Hf : sim e0 (flush_run_if_any clock co s) (flush_run_if_any clock co l)).
      { destruct co; [by apply sim_emit|done]. }
      destruct Hf as (He & Hc & Ht). rewrite Hc.
      destruct (play (conn (flush_run_if_any clock co l)) (position it)) as [c' [u|e]]; [done|].
      destruct (classify_play_error it e) as [[k h]|]; [|done].
      apply IH, sim_emit. done.
Qed.

(** The walk does not depend on its emitter: on any sink it ends with the same
    outcome and connection, and the sink has received, in order, exactly the
    dispositions logged by a walk on a plain log. *)
Theorem advance_any_sink from queue (e0 : E) c t :
  let s := advance_to_next_playable clock play registry from queue {| emitter := e0; conn := c; ticks := t |} in
  let l := advance_to_next_playable clock play registry from queue {| emitter := [] ; conn := c; ticks := t |} in
  s.2 = l.2 /\ conn s.1 = conn l.1 /\ emitter s.1 = emit_all (emitter l.1) e0.
Proof.
  intros s l. destruct (walk_sim e0 (drop (start_index from) queue) None
    {| emitter := e0; conn := c; ticks := t |} {| emitter := []; conn := c; ticks := t |})
    as [(He & Hc & _) Ho]; [done|]. done.
Qed.
End simulation.

(** ** What is emitted *)

Section emitted.
Context {C : Type}.
Variable clock : nat -> N.
Variable play : C -> N -> C * result unit MpdError.
Variable registry : SourceRegistry.
Implicit Types (st : TState (list Disposition) C) (co : option RunBuilder).

(** How many items a disposition reports as skipped. *)
Definition weight (d : Disposition) : N :=
  match d_runs d with
  | Some r => run_count r
  | None => match d_kind d with QueueExhaustedNoPlayable => 0 | _ => 1 end
  end.
Definition total (ds : list Disposition) : N := foldr (fun d n => weight d + n) 0 ds.
Definition pending co : N := match co with Some run => count run | None => 0 end.

Lemma total_snoc ds d : total (ds ++ [d]) = total ds + weight d.
Proof. unfold total. induction ds as [|x ds IH]; simpl; [lia|]. rewrite IH. lia. Qed.

Lemma total_emit f st :
  total (emitter (emit_at clock f st)) = total (emitter st) + weight (f (clock (ticks st))).
Proof. apply total_snoc. Qed.

Lemma last_emit f st : last (emitter (emit_at clock f st)) = Some (f (clock (ticks st))).
Proof. apply last_snoc. Qed.

Lemma map_emit {B} (g : Disposition -> B) f st :
  map g (emitter (emit_at clock f st)) = map g (emitter st) ++ [g (f (clock (ticks st)))].
Proof. apply map_app. Qed.

(** A pending run as the walk builds it. *)
Definition run_ok co : Prop :=
  match co with
  | Some run => run_kind run = TrackSkippedSourceOffline /\ 1 <= count run
  | None => True
  end.

Lemma weight_render_run t run :
  run_kind run = TrackSkippedSourceOffline -> 1 <= count run -> weight (render_run t run) = count run.
Proof.
  intros Hk Hc. unfold render_run. destruct (N.leb_spec 2 (count run)) as [H2|H2].
  - by destruct (run_source run).
  - assert (count run = 1) as -> by lia. unfold weight.
    destruct (run_source run); simpl; by rewrite Hk.
Qed.

Lemma weight_render_single t it k h :
  k <> QueueExhaustedNoPlayable -> weight (render_single t it k h) = 1.
Proof. intros Hk. unfold weight, render_single. destruct (item_source it), k; done. Qed.

Lemma classify_kind it e k h : classify_play_error it e = Some (k, h) -> k <> QueueExhaustedNoPlayable
  /\ k <> TrackSkippedSourceOffline /\ k <> TracksSkippedRun.
Proof. destruct e; simpl; repeat case_match; intros [=]; subst; done. Qed.

Lemma flush_total co st :
  run_ok co -> total (emitter (flush_run_if_any clock co st)) = total (emitter st) + pending co.
Proof.
  destruct co as [run|]; cbn [flush_run_if_any pending run_ok]; [|intros _; lia].
  intros [Hk Hc]. unfold flush_run. by rewrite total_emit, weight_render_run.
Qed.

Lemma accumulate_total co it st :
  run_ok co -> pending co < U32_MAX ->
  let r := accumulate_or_flush clock co TrackSkippedSourceOffline (item_source it)
             (position it) (WakeSource (source_or_empty it)) st in
  run_ok r.1 /\ total (emitter r.2) + pending r.1 = total (emitter st) + pending co + 1.
Proof.
  destruct co as [run|]; simpl; [|by split; [split; [|lia]|lia]].
  intros [Hk Hc] Hp. unfold flush_run. destruct (_ && _); cbn [fst snd pending].
  - cbn [count run_ok run_kind]. rewrite sat_add_exact by lia. split; [split; [done|lia]|lia].
  - rewrite total_emit, weight_render_run by done. split; [by split|cbn [count]; lia].
Qed.

Lemma walk_conservation q co st :
  run_ok co -> pending co + N.of_nat (length q) <= U32_MAX ->
  let r := walk clock play registry q co st in
  match r.2 with
  | Stopped => total (emitter r.1) = total (emitter st) + pending co + N.of_nat (length q)
  | Playing p | Paused p =>
      exists q1 it q2, q = q1 ++ it :: q2 /\ position it = p /\ offline registry it = false
        /\ total (emitter r.1) = total (emitter st) + pending co + N.of_nat (length q1)
  end.
Proof.
  revert co st. induction q as [|it q IH]; intros co st Hok Hlen; cbn [walk length] in *.
  - cbn [fst snd]. rewrite total_emit, flush_total by done.
    change (weight (exhausted _)) with 0. lia.
  - destruct (offline registry it) eqn:Hoff.
    + destruct (accumulate_total co it st Hok) as [Hok' Htot]; [lia|].
      assert (Hpend : pending (accumulate_or_flush clock co TrackSkippedSourceOffline (item_source it)
                (position it) (WakeSource (source_or_empty it)) st).1 <= pending co + 1).
      { destruct co as [run|]; simpl; [|lia]. destruct (_ && _); simpl; [|lia].
        unfold sat_add. lia. }
      destruct (accumulate_or_flush _ _ _ _ _ _ _) as [co' st']. cbn [fst snd] in *.
      specialize (IH co' st' Hok' ltac:(lia)).
      destruct (walk clock play registry q co' st') as [st'' [p|p|]]; cbn [fst snd] in *;
        [| |lia];
        (destruct IH as (q1 & it' & q2 & -> & Hp & Ho & Ht); exists (it :: q1), it', q2; cbn [length];
         split_and!; [done|done|done|lia]).
    + pose proof (flush_total co st Hok) as Hf.
      destruct (play (conn (flush_run_if_any clock co st)) (position it)) as [c' [u|e]].
      * cbn [fst snd emitter]. exists [], it, q. rewrite Hf. cbn [length]. split_and!; [done|done|done|lia].
      * destruct (classify_play_error it e) as [[k h]|] eqn:Hcl.
        -- apply classify_kind in Hcl as (Hk & _).
           match goal with |- context [walk _ _ _ q None ?s] => set (st2 := s) end.
           assert (H2 : total (emitter st2) = total (emitter st) + pending co + 1).
           { subst st2. unfold emit_single. rewrite total_emit. cbn [emitter]. rewrite Hf.
             by rewrite weight_render_single. }
           specialize (IH None st2 I ltac:(cbn [pending]; lia)).
           destruct (walk clock play registry q None st2) as [st'' [p|p|]]; cbn [fst snd pending] in *;
             [| |lia];
             (destruct IH as (q1 & it' & q2 & -> & Hp & Ho & Ht); exists (it :: q1), it', q2; cbn [length];
              split_and!; [done|done|done|lia]).
        -- cbn [fst snd emitter]. exists [], it, q. rewrite Hf. cbn [length]. split_and!; [done|done|done|lia].
Qed.

(** C19: No skipped item goes unreported and none is reported twice: the dispositions
    emitted by a walk account for exactly as many items as lie between the start
    position and the item it ends on (the whole rest of the queue when it stops), a
    run counting for its length and a single record for one. *)
Theorem advance_accounts_for_every_skip from queue c t :
  N.of_nat (length queue) <= U32_MAX ->
  let q := drop (start_index from) queue in
  let r := advance_to_next_playable clock play registry from queue
             {| emitter := []; conn := c; ticks := t |} in
  match r.2 with
  | Stopped => total (emitter r.1) = N.of_nat (length q)
  | Playing p | Paused p =>
      exists q1 it q2, q = q1 ++ it :: q2 /\ position it = p /\ offline registry it = false
        /\ total (emitter r.1) = N.of_nat (length q1)
  end.
Proof.
  intros Hlen q. assert (Hq : N.of_nat (length q) <= U32_MAX).
  { subst q. rewrite length_drop. lia. }
  exact (walk_conservation q None {| emitter := []; conn := c; ticks := t |} I Hq).
Qed.

(** ** Coalescing *)

(** A disposition that reports offline items: one, or a run. *)
Definition offline_record (d : Disposition) : Prop :=
  d_kind d = TrackSkippedSourceOffline \/ d_kind d = TracksSkippedRun.

Definition coalesced (ds : list Disposition) : Prop :=
  forall l1 d1 d2 l2, ds = l1 ++ d1 :: d2 :: l2 -> offline_record d1 -> offline_record d2 ->
    d_source_id d1 <> d_source_id d2.

(** The last record, when it reports offline items, is about another source. *)
Definition last_differs (sid : option str) (ds : list Disposition) : Prop :=
  forall d, last ds = Some d -> offline_record d -> d_source_id d <> sid.

Definition last_other (ds : list Disposition) : Prop :=
  forall d, last ds = Some d -> ~ offline_record d.

Lemma coalesced_snoc ds d :
  coalesced ds -> (offline_record d -> last_differs (d_source_id d) ds) -> coalesced (ds ++ [d]).
Proof.
  intros Hds Hd l1 d1 d2 l2 Heq H1 H2. destruct (exists_last (l := d2 :: l2)) as (l' & x & Hx); [done|].
  change (l1 ++ d1 :: d2 :: l2) with (l1 ++ [d1] ++ (d2 :: l2)) in Heq.
  rewrite Hx, !app_assoc in Heq. apply app_inj_tail in Heq as [-> <-].
  destruct l' as [|y l']; simplify_eq/=.
  - apply (Hd H2 d1); [|done]. by rewrite app_nil_r, last_snoc.
  - apply (Hds l1 d1 y l'); [|done|done]. by rewrite <-app_assoc.
Qed.

Lemma render_run_source t run : d_source_id (render_run t run) = run_source run.
Proof. unfold render_run. by destruct (2 <=? count run), (run_source run). Qed.

Lemma render_single_kind t it k h : d_kind (render_single t it k h) = k.
Proof. unfold render_single. by destruct (item_source it). Qed.

(** What the walk keeps of its log and its pending run. *)
Definition log_inv co st : Prop :=
  run_ok co /\ coalesced (emitter st)
  /\ match co with
     | Some run => last_differs (run_source run) (emitter st)
     | None => last_other (emitter st)
     end.

Lemma log_inv_flush co st : log_inv co st -> coalesced (emitter (flush_run_if_any clock co st)).
Proof.
  destruct co as [run|]; intros (Hok & Hc & Hl); [|done].
  apply coalesced_snoc; [done|]. intros _. by rewrite render_run_source.
Qed.

Lemma log_inv_accumulate co it st :
  log_inv co st ->
  let r := accumulate_or_flush clock co TrackSkippedSourceOffline (item_source it)
             (position it) (WakeSource (source_or_empty it)) st in
  log_inv r.1 r.2.
Proof.
  intros Hinv. pose proof (log_inv_flush co st Hinv) as Hflush. destruct Hinv as (Hok & Hc & Hl).
  destruct co as [run|]; cbn [accumulate_or_flush run_ok flush_run_if_any] in *.
  - destruct Hok as [Hk Hn]. rewrite bool_decide_true, andb_true_l by done.
    case_bool_decide as Hs; cbn [fst snd]; split_and!; cbn [run_ok run_kind count run_source];
      try done; [split; [done|unfold sat_add, U32_MAX; lia]|..].
    intros d Hd _. unfold flush_run in Hd. rewrite last_emit in Hd. simplify_eq. by rewrite render_run_source.
  - split_and!; [done|done|]. intros d Hd Hoff. by destruct (Hl d).
Qed.

Lemma walk_coalesced q co st :
  log_inv co st -> coalesced (emitter (walk clock play registry q co st).1).
Proof.
  revert co st. induction q as [|it q IH]; intros co st Hinv; cbn [walk].
  - apply coalesced_snoc; [by apply log_inv_flush|]. by intros [?|?].
  - destruct (offline registry it).
    + pose proof (log_inv_accumulate co it st Hinv) as H.
      destruct (accumulate_or_flush _ _ _ _ _ _ _) as [co' st']. by apply IH.
    + pose proof (log_inv_flush co st Hinv) as H.
      destruct (play _ _) as [c' [u|e]]; [done|].
      destruct (classify_play_error it e) as [[k h]|] eqn:Hcl; [|done].
      apply classify_kind in Hcl as (_ & Hk1 & Hk2). apply IH. split_and!; [done|..].
      * apply coalesced_snoc; [done|]. unfold offline_record. rewrite render_single_kind. naive_solver.
      * intros d Hd. unfold emit_single in Hd. rewrite last_emit in Hd. simplify_eq. unfold offline_record.
        rewrite render_single_kind. naive_solver.
Qed.

(** Offline skips are coalesced: in what a walk emits, two neighbouring records
    that report offline items are always about different sources, so a stretch of
    items of one offline source gives one record however long it is. *)
Theorem advance_coalesces_offline_runs from queue c t :
  coalesced (emitter (advance_to_next_playable clock play registry from queue
                        {| emitter := []; conn := c; ticks := t |}).1).
Proof. apply walk_coalesced. split_and!; [done|by intros [] ???|done]. Qed.

(** Reactive skips are not coalesced: when every item is tried and MPD answers
    each with the file-not-found ACK, the log holds one record per item, whatever
    their sources, and then the queue-exhausted record. *)
Theorem reactive_skips_not_coalesced from queue c t :
  let q := drop (start_index from) queue in
  Forall (fun it => offline registry it = false) q ->
  (forall c p, exists idx cmd m, (play c p).2 = Err (Ack 50 idx cmd m)) ->
  map d_kind (emitter (advance_to_next_playable clock play registry from queue
                         {| emitter := []; conn := c; ticks := t |}).1)
  = replicate (length q) TrackSkippedFileNotFound ++ [QueueExhaustedNoPlayable].
Proof.
  intros q Hoff Hplay. unfold advance_to_next_playable. fold q.
  assert (Hgen : forall st, map d_kind (emitter (walk clock play registry q None st).1)
    = map d_kind (emitter st) ++ replicate (length q) TrackSkippedFileNotFound
        ++ [QueueExhaustedNoPlayable]); [|apply Hgen].
  induction Hoff as [|it q' Hit _ IH]; intros st; cbn [walk length replicate].
  - cbn [fst]. by rewrite map_emit.
  - rewrite Hit. cbn [flush_run_if_any]. destruct (Hplay (conn st) (position it)) as (idx & cmd & m & Hp).
    destruct (play (conn st) (position it)) as [c' r]. cbn [snd] in Hp. subst r.
    cbn [classify_play_error N.eqb Pos.eqb]. rewrite IH. unfold emit_single. rewrite map_emit.
    by rewrite render_single_kind, <-app_assoc.
Qed.
End emitted.

(** ** Witnesses *)

Definition sample_item (p : N) (src : option str) : PlayableQueueItem :=
  {| position := p; item_id := p; file_path := lit "a.flac"; item_source := src;
     available := Some false |}.

Definition sample_queue : list PlayableQueueItem :=
  [sample_item 0 (Some (lit "nas")); sample_item 1 (Some (lit "nas")); sample_item 2 None].

(** Nothing registered: every source is still being probed, hence not reachable. *)
Definition sample_play (c : list N) (p : N) : list N * result unit MpdError :=
  (c ++ [p], Err (Ack 50 0 (lit "play") (lit "No such song"))).

Lemma advance_accounts_for_every_skip_witness :
  total (emitter (advance_to_next_playable (fun n => N.of_nat n) sample_play SourceRegistry.new 0
    sample_queue {| emitter := []; conn := []; ticks := 0 |}).1) = 3.
Proof.
  exact (advance_accounts_for_every_skip (fun n => N.of_nat n) sample_play SourceRegistry.new 0
    sample_queue [] 0 ltac:(vm_compute; discriminate)).
Defined.

Definition present (it : PlayableQueueItem) : PlayableQueueItem :=
  {| position := position it; item_id := item_id it; file_path := file_path it;
     item_source := item_source it; available := Some true |}.

Lemma reactive_skips_not_coalesced_witness :
  map d_kind (emitter (advance_to_next_playable (fun n => N.of_nat n) sample_play SourceRegistry.new 0
    (map present (take 2 sample_queue)) {| emitter := []; conn := []; ticks := 0 |}).1)
  = [TrackSkippedFileNotFound; TrackSkippedFileNotFound; QueueExhaustedNoPlayable].
Proof.
  apply (reactive_skips_not_coalesced (fun n => N.of_nat n) sample_play SourceRegistry.new 0
    (map present (take 2 sample_queue)) [] 0).
  - by repeat constructor.
  - intros c p. by eexists _, _, _.
Defined.
