(* ===== verification/Transition.v ===== *)
(** * Mixer-mode transitions ([plugins/org.evoframework.playback.options/src/transition.rs])

    [run_transition] drives the phases of a mixer-type change through an injected
    executor and reports to an injected happener.  The executor is an interface
    ([TransitionExecutor], the source's trait) over a state of its own; the happener
    only records, so what is sent to it is part of the log, in order with the calls
    made to the executor.  The clock is a stream read once for each happening. *)

From S2P Require Import Prelude.
Local Open Scope N_scope.

(** [MixerType] ([lib.rs]) *)
Inductive MixerType := Hardware | Software | NoMixer.

#[export] Instance MixerType_eq_dec : EqDecision MixerType.
Proof. solve_decision. Defined.

(** [TransitionOutcome] *)
Inductive TransitionOutcome :=
| Applied (effective_level : N)
| RolledBack (at_phase reason : str)
| Failed (at_phase reason : str)
| NoOp.

(** The trait [TransitionExecutor]: one operation per phase, and the rollback. *)
Class TransitionExecutor (X : Type) := {
  read_carried_level : MixerType -> X -> X * result N str;
  pre_mute : X -> X * result unit str;
  set_new_authority : MixerType -> N -> X -> X * result unit str;
  switch_fragment : MixerType -> X -> X * result unit str;
  restart_playback : X -> X * result unit str;
  verify_effective_level : N -> X -> X * result N str;
  unmute : X -> X * result unit str;
  rollback : MixerType -> str -> X -> X * result unit str;
}.

(** A call made to the executor, with its arguments. *)
Inductive Step :=
| ReadCarriedLevel (from : MixerType)
| PreMute
| SetNewAuthority (to : MixerType) (carried_level : N)
| SwitchFragment (to : MixerType)
| RestartPlayback
| VerifyEffectiveLevel (expected : N)
| Unmute
| Rollback (from : MixerType) (at_phase : str).

(** The trait [TransitionHappener]: what is emitted. *)
Inductive Happening :=
| EmitStarted (from to : MixerType) (at_ms : N)
| EmitApplied (from to : MixerType) (carried_level effective_level : N) (at_ms : N)
| EmitRolledBack (from to : MixerType) (at_phase reason : str) (at_ms : N)
| EmitFailed (from to : MixerType) (at_phase reason : str) (at_ms : N).

(** A call is logged with whether it succeeded. *)
Inductive Event := Call (s : Step) (failure : option str) | Emit (h : Happening).

(** ** The run *)

Section run.
Context {X : Type} `{TransitionExecutor X}.
Variable clock : nat -> N.

Record RunState := { exec : X; log : list Event; ticks : nat }.

(** State, and early return of the outcome. *)
Definition M (A : Type) : Type := RunState -> RunState * result A TransitionOutcome.
Definition ret {A} (a : A) : M A := fun st => (st, Ok a).
Definition bind {A B} (m : M A) (k : A -> M B) : M B := fun st =>
  let (st', r) := m st in match r with Ok a => k a st' | Err o => (st', Err o) end.

Definition emit_happening (h : N -> Happening) : M unit := fun st =>
  ({| exec := exec st; log := log st ++ [Emit (h (clock (ticks st)))]; ticks := S (ticks st) |}, Ok tt).

Definition failure_of {A} (r : result A str) : option str :=
  match r with Ok _ => None | Err e => Some e end.

(** An awaited call to the executor. *)
Definition call {A} (s : Step) (f : X -> X * result A str) : M (result A str) := fun st =>
  let (x, r) := f (exec st) in
  ({| exec := x; log := log st ++ [Call s (failure_of r)]; ticks := ticks st |}, Ok r).

(** [rollback_or_fail] *)
Definition rollback_or_fail (from to : MixerType) (at_phase reason : str) : M TransitionOutcome :=
  bind (call (Rollback from at_phase) (rollback from at_phase)) (fun r =>
  match r with
  | Ok _ =>
      bind (emit_happening (EmitRolledBack from to at_phase reason)) (fun _ =>
      ret (RolledBack at_phase reason))
  | Err rollback_err =>
      let combined := reason ++ lit "; rollback failed: " ++ rollback_err in
      bind (emit_happening (EmitFailed from to at_phase combined)) (fun _ =>
      ret (Failed at_phase combined))
  end).

(** One phase of [run_transition]: call it, and on an error return what
    [rollback_or_fail] gives. *)
Definition phase {A} (from to : MixerType) (name : str) (s : Step) (f : X -> X * result A str) : M A :=
  bind (call s f) (fun r =>
  match r with
  | Ok a => ret a
  | Err e => bind (rollback_or_fail from to name e) (fun o => fun st => (st, Err o))
  end).

(** The body of [run_transition] after the test for a change. *)
Definition run_phases (from to : MixerType) : M TransitionOutcome :=
  bind (emit_happening (EmitStarted from to)) (fun _ =>
  bind (phase from to (lit "read_carried_level") (ReadCarriedLevel from) (read_carried_level from))
    (fun carried_level =>
  bind (phase from to (lit "pre_mute") PreMute pre_mute) (fun _ =>
  bind (phase from to (lit "set_new_authority") (SetNewAuthority to carried_level)
          (set_new_authority to carried_level)) (fun _ =>
  bind (phase from to (lit "switch_fragment") (SwitchFragment to) (switch_fragment to)) (fun _ =>
  bind (phase from to (lit "restart_playback") RestartPlayback restart_playback) (fun _ =>
  bind (phase from to (lit "verify_effective_level") (VerifyEffectiveLevel carried_level)
          (verify_effective_level carried_level)) (fun effective_level =>
  bind (phase from to (lit "unmute") Unmute unmute) (fun _ =>
  bind (emit_happening (EmitApplied from to carried_level effective_level)) (fun _ =>
  ret (Applied effective_level)))))))))).

Definition run_transition (from to : MixerType) (st : RunState) : RunState * TransitionOutcome :=
  if bool_decide (from = to) then (st, NoOp)
  else match run_phases from to st with (st', Ok o) | (st', Err o) => (st', o) end.

(** ** The specification: the phases as data *)

Definition phases (from to : MixerType) (lvl : N) : list (str * Step) :=
  [(lit "read_carried_level", ReadCarriedLevel from); (lit "pre_mute", PreMute);
   (lit "set_new_authority", SetNewAuthority to lvl); (lit "switch_fragment", SwitchFragment to);
   (lit "restart_playback", RestartPlayback);
   (lit "verify_effective_level", VerifyEffectiveLevel lvl); (lit "unmute", Unmute)].

Definition succeeded (p : str * Step) : Event := Call p.2 None.

(** What the run logs after the start, as its outcome says. *)
Definition logged (from to : MixerType) (o : TransitionOutcome) (es : list Event) : Prop :=
  match o with
  | NoOp => False
  | Applied eff => exists lvl t,
      es = map succeeded (phases from to lvl) ++ [Emit (EmitApplied from to lvl eff t)]
  | RolledBack ph reason => exists lvl done step later t,
      phases from to lvl = done ++ (ph, step) :: later
      /\ es = map succeeded done ++ [Call step (Some reason); Call (Rollback from ph) None;
                                      Emit (EmitRolledBack from to ph reason t)]
  | Failed ph reason => exists lvl done step later e rollback_err t,
      phases from to lvl = done ++ (ph, step) :: later
      /\ reason = e ++ lit "; rollback failed: " ++ rollback_err
      /\ es = map succeeded done ++ [Call step (Some e); Call (Rollback from ph) (Some rollback_err);
                                      Emit (EmitFailed from to ph reason t)]
  end.

(** The rest of a run, from a state: its outcome and what it appends to the log. *)
Definition appends (m : M TransitionOutcome) (st : RunState)
    (P : TransitionOutcome -> list Event -> Prop) : Prop :=
  exists o es, (m st).2 ∈ [Ok o; Err o] /\ log (m st).1 = log st ++ es /\ P o es.

Lemma appends_emit h k st P :
  (forall t st', log st' = log st ++ [Emit (h t)] ->
     appends (k tt) st' (fun o es => P o (Emit (h t) :: es))) ->
  appends (bind (emit_happening h) k) st P.
Proof.
  intros Hk. specialize (Hk (clock (ticks st)) (emit_happening h st).1 eq_refl).
  unfold appends. change (bind (emit_happening h) k st) with (k tt (emit_happening h st).1).
  destruct Hk as (o & es & Ho & Hl & HP). exists o, (Emit (h (clock (ticks st))) :: es).
  split_and!; [exact Ho|rewrite Hl; cbn [emit_happening fst log]; by rewrite <-app_assoc|done].
Qed.

Lemma appends_rollback from to ph reason st (P : TransitionOutcome -> list Event -> Prop) :
  (forall t, P (RolledBack ph reason)
    [Call (Rollback from ph) None; Emit (EmitRolledBack from to ph reason t)]) ->
  (forall e t, let combined := reason ++ lit "; rollback failed: " ++ e in
    P (Failed ph combined)
      [Call (Rollback from ph) (Some e); Emit (EmitFailed from to ph combined t)]) ->
  appends (rollback_or_fail from to ph reason) st P.
Proof.
  intros Hok Hfail. unfold appends, rollback_or_fail, bind, call.
  destruct (rollback from ph (exec st)) as [x [u|e]]; cbn -[lit];
    (eexists _, _; split_and!; [by left|by rewrite <-app_assoc|]); [apply Hok|apply Hfail].
Qed.

Lemma appends_phase {A} from to ph s (f : X -> X * result A str) (k : A -> M TransitionOutcome) st
    (P : TransitionOutcome -> list Event -> Prop) :
  (forall a st', appends (k a) st' (fun o es => P o (Call s None :: es))) ->
  (forall e t, P (RolledBack ph e)
    [Call s (Some e); Call (Rollback from ph) None; Emit (EmitRolledBack from to ph e t)]) ->
  (forall e e' t, let combined := e ++ lit "; rollback failed: " ++ e' in
    P (Failed ph combined)
      [Call s (Some e); Call (Rollback from ph) (Some e'); Emit (EmitFailed from to ph combined t)]) ->
  appends (bind (phase from to ph s f) k) st P.
Proof.
  intros Hok Hrb Hfail. unfold appends, phase, bind, call.
  destruct (f (exec st)) as [x [a|e]]; cbn [failure_of ret].
  - destruct (Hok a {| exec := x; log := log st ++ [Call s None]; ticks := ticks st |})
      as (o & es & Ho & Hl & HP).
    exists o, (Call s None :: es). split_and!; [done|rewrite Hl; cbn [log]; by rewrite <-app_assoc|done].
  - destruct (appends_rollback from to ph e
      {| exec := x; log := log st ++ [Call s (Some e)]; ticks := ticks st |}
      (fun o es => P o (Call s (Some e) :: es))) as (o & es & Ho & Hl & HP);
      [intros t; apply Hrb|intros e' t; apply Hfail|].
    destruct (rollback_or_fail from to ph e _) as [st' r]. cbn [fst snd] in *.
    exists o, (Call s (Some e) :: es).
    destruct r; cbn [fst snd log] in *; rewrite Hl, <-app_assoc; split_and!; try done; set_solver.
Qed.
End run.
Arguments RunState X : clear implicits.

(** ** The theorems *)

Section theorems.
Context {X : Type} `{TransitionExecutor X}.
Variable clock : nat -> N.

(** A phase failed after [n] others that used the carried level [lvl]. *)
Ltac failed_after from to lvl n :=
  intros; exists lvl, (take n (phases from to lvl)); repeat eexists.

Lemma run_phases_logged from to st :
  appends (run_phases clock from to) st (fun o es => exists t es',
    es = Emit (EmitStarted from to t) :: es' /\ logged from to o es').
Proof.
  unfold run_phases. apply appends_emit. intros t0 st0 _.
  eassert (Hgoal : appends _ st0 (logged from to)); last first.
  { destruct Hgoal as (o & es & Ho & Hl & HP). exists o, es. split_and!; [exact Ho|exact Hl|].
    by exists t0, es. }
  apply appends_phase; [intros lvl st1|failed_after from to 0 0%nat..].
  apply appends_phase; [intros _ st2|failed_after from to lvl 1%nat..].
  apply appends_phase; [intros _ st3|failed_after from to lvl 2%nat..].
  apply appends_phase; [intros _ st4|failed_after from to lvl 3%nat..].
  apply appends_phase; [intros _ st5|failed_after from to lvl 4%nat..].
  apply appends_phase; [intros eff st6|failed_after from to lvl 5%nat..].
  apply appends_phase; [intros _ st7|failed_after from to lvl 6%nat..].
  apply appends_emit. intros t st8 _. exists (Applied eff), [].
  split_and!; [by left|by rewrite app_nil_r|by exists lvl, t].
Qed.

(** C1: A transition to another mixer type starts with the started happening, then
    runs the phases in order (read the carried level, mute, hand that same level to
    the new authority, switch, restart, verify that same level, unmute) up to the
    first that fails.  When none fails it ends with the applied happening; when one
    fails the rollback is called exactly once, naming that phase, no later phase
    runs, and it ends with the rolled-back happening, or the failed one carrying
    both reasons when the rollback itself failed. *)
Theorem run_transition_log from to st :
  from <> to ->
  let (st', o) := run_transition clock from to st in
  exists t es, log st' = log st ++ Emit (EmitStarted from to t) :: es /\ logged from to o es.
Proof.
  intros Hne. unfold run_transition. rewrite bool_decide_false by done.
  destruct (run_phases_logged from to st) as (o & es & Ho & Hl & t & es' & -> & HP).
  destruct (run_phases clock from to st) as [st' r]. cbn [fst snd] in *.
  assert (match r with Ok o' | Err o' => o' = o end) by (set_unfold; naive_solver).
  destruct r; subst; by exists t, es'.
Qed.

(** A change to the type already in force does nothing: no call, no happening,
    outcome [NoOp]; and that is the only way to get [NoOp]. *)
Theorem run_transition_noop from to st :
  ((run_transition clock from to st).2 = NoOp <-> from = to)
  /\ (from = to -> (run_transition clock from to st).1 = st).
Proof.
  unfold run_transition. case_bool_decide as Heq; [done|].
  pose proof (run_phases_logged from to st) as (o & es & Ho & _ & t & es' & _ & HP).
  destruct (run_phases clock from to st) as [st' r]. cbn [fst snd] in *.
  split; [|done]. split; [|done]. intros Hno. exfalso.
  destruct r; subst; set_unfold; naive_solver.
Qed.

(** Find an event in a log written out call by call. *)
Ltac locate_event l := repeat (destruct l as [|? l]; simplify_eq/=); try (by destruct l).

Ltac find_event := repeat first [apply list_elem_of_here | apply list_elem_of_further].

Lemma logged_unmute from to o es l f r :
  logged from to o es -> es = l ++ Call Unmute f :: r ->
  exists lvl, Call (ReadCarriedLevel from) None ∈ l /\ Call (SetNewAuthority to lvl) None ∈ l
    /\ Call (VerifyEffectiveLevel lvl) None ∈ l.
Proof.
  intros Hlog ->. destruct o as [eff|ph reason|ph reason|]; cbn [logged] in Hlog; [..|done].
  - destruct Hlog as (lvl & t & Heq). exists lvl. locate_event l; split_and!; find_event.
  - destruct Hlog as (lvl & done & step & later & t & Hph & Heq). exists lvl.
    unfold phases in Hph. locate_event done; locate_event l; split_and!; find_event.
  - destruct Hlog as (lvl & done & step & later & e & e' & t & Hph & _ & Heq). exists lvl.
    unfold phases in Hph. locate_event done; locate_event l; split_and!; find_event.
Qed.

(** C2: No blast: whatever fails, whenever the chain is unmuted during a transition,
    the level carried over from the old authority has been read, and that same level
    has been given to the new authority and verified, all successfully, earlier in
    the same run. *)
Theorem unmute_only_after_verify from to st l f r :
  log (run_transition clock from to st).1 = log st ++ l ++ Call Unmute f :: r ->
  exists lvl, Call (ReadCarriedLevel from) None ∈ l /\ Call (SetNewAuthority to lvl) None ∈ l
    /\ Call (VerifyEffectiveLevel lvl) None ∈ l.
Proof.
  unfold run_transition. case_bool_decide as Hne.
  { cbn [fst]. intros Hl. apply (f_equal length) in Hl. rewrite !length_app in Hl. simpl in Hl. lia. }
  destruct (run_phases_logged from to st) as (o & es & Ho & Hl & t & es' & -> & HP).
  destruct (run_phases clock from to st) as [st' [o'|o']]; cbn [fst snd] in *;
    (rewrite Hl; intros Heq%app_inv_head; destruct l as [|x l]; simplify_eq/=;
     destruct (logged_unmute _ _ _ _ _ _ _ HP eq_refl) as (lvl & H1 & H2 & H3);
     exists lvl; split_and!; by apply list_elem_of_further).
Qed.

End theorems.

(** ** Witnesses *)

(** An audio chain: the authority in force, its level, whether it is muted, and the
    phases that fail. *)
Record Chain := { authority : MixerType; level : N; muted : bool; broken : list str }.

Definition step_of (name : str) (f : Chain -> Chain) (c : Chain) : Chain * result unit str :=
  if str_in name (broken c) then (c, Err (lit "broken")) else (f c, Ok tt).

Definition set_chain (a : MixerType) (l : N) (m : bool) (c : Chain) : Chain :=
  {| authority := a; level := l; muted := m; broken := broken c |}.

#[export] Instance chain_executor : TransitionExecutor Chain := {
  read_carried_level _ c := (c, Ok (level c));
  pre_mute := step_of (lit "pre_mute") (fun c => set_chain (authority c) (level c) true c);
  set_new_authority to l := step_of (lit "set_new_authority") (set_chain to l true);
  switch_fragment _ := step_of (lit "switch_fragment") (fun c => c);
  restart_playback := step_of (lit "restart_playback") (fun c => c);
  verify_effective_level l c :=
    if level c =? l then (c, Ok l) else (c, Err (lit "level mismatch"));
  unmute := step_of (lit "unmute") (fun c => set_chain (authority c) (level c) false c);
  rollback from _ := step_of (lit "rollback") (fun c => set_chain from (level c) false c);
}.

Definition chain_run (broken : list str) : RunState Chain * TransitionOutcome :=
  run_transition (fun n => N.of_nat n) Software Hardware
    {| exec := {| authority := Software; level := 40; muted := false; broken := broken |};
       log := []; ticks := 0 |}.

Example chain_run_ok :
  (chain_run []).2 = Applied 40
  /\ exec (chain_run []).1 = {| authority := Hardware; level := 40; muted := false; broken := [] |}.
Proof. by vm_compute. Qed.

Example chain_run_rolled_back :
  (chain_run [lit "restart_playback"]).2 = RolledBack (lit "restart_playback") (lit "broken").
Proof. by vm_compute. Qed.

Lemma run_transition_log_witness : exists t es,
  log (chain_run []).1 = Emit (EmitStarted Software Hardware t) :: es.
Proof.
  destruct (run_transition_log (fun n => N.of_nat n) Software Hardware
    {| exec := {| authority := Software; level := 40; muted := false; broken := [] |};
       log := []; ticks := 0 |} ltac:(discriminate)) as (t & es & Hl & _).
  exists t, es. exact Hl.
Defined.

Lemma unmute_only_after_verify_witness : exists lvl,
  Call (SetNewAuthority Hardware lvl) None ∈ take 7 (log (chain_run []).1).
Proof.
  destruct (unmute_only_after_verify (fun n => N.of_nat n) Software Hardware
    {| exec := {| authority := Software; level := 40; muted := false; broken := [] |};
       log := []; ticks := 0 |}
    (take 7 (log (chain_run []).1)) None (drop 8 (log (chain_run []).1)))
    as (lvl & _ & H & _); [by vm_compute|].
  exists lvl. exact H.
Defined.
