(* ===== verification/WifiRoles.v ===== *)
(** * Wi-Fi role assignment ([plugins/org.evoframework.network/src/wifi_roles.rs])

    Which radio carries the station link and which the access point, from the radio
    inventory, the operator's overrides and the band priority. *)

From S2P Require Import Prelude.
Local Open Scope N_scope.

(** ** Data *)

(** [PhyBandSupport], [PhyCapability], [WifiDev] ([wifi_phy.rs]) *)
Record PhyBandSupport := { ghz_2_4 : bool; ghz_5 : bool; ghz_6 : bool }.

Definition b2n (b : bool) : N := if b then 1 else 0.
Definition band_count (b : PhyBandSupport) : N := b2n (ghz_2_4 b) + b2n (ghz_5 b) + b2n (ghz_6 b).
Definition has_fast_band (b : PhyBandSupport) : bool := ghz_5 b || ghz_6 b.

Record PhyCapability := {
  cap_phy : str;
  supports_managed_plus_ap : bool;
  max_channels : N;
  interface_modes : list str;
  bands : PhyBandSupport;
}.

Record WifiDev := { dev_ifname : str; dev_phy : str; dev_iftype : str }.

(** [ConnectionClass] *)
Inductive ConnectionClass := Onboard | Usb.

(** [WifiRadio] *)
Record WifiRadio := {
  ifname : str;
  phy : str;
  capability : PhyCapability;
  connection_class : ConnectionClass;
  is_ap_vif : bool;
}.

(** [BandClass] *)
Inductive BandClass := Ghz6 | Ghz5 | Ghz2_4.

(** [RoleAssignment] *)
Record RoleAssignment := {
  sta_ifname : str;
  ap_ifname : str;
  same_iface : bool;
  had_explicit_ap : bool;
  rationale : str;
}.

(** [RoleOverrides] *)
Record RoleOverrides := { explicit_sta : str; explicit_ap : str; default_sta_fallback : str }.

(** ** Operations *)

(** [is_virtual_ap_ifname] *)
Definition is_virtual_ap_ifname (name : str) : bool :=
  match strip_prefix (lit "ap") (to_ascii_lowercase (trim name)) with
  | Some rest => str_is_empty rest || forallb is_ascii_digit rest
  | None => false
  end.

(** [WifiRadio::from_dev_and_capability] *)
Definition from_dev_and_capability (d : WifiDev) (c : PhyCapability) (cc : ConnectionClass) : WifiRadio :=
  {| ifname := dev_ifname d; phy := dev_phy d; capability := c; connection_class := cc;
     is_ap_vif := is_virtual_ap_ifname (dev_ifname d) |}.

(** [WifiRadio::sta_capable], [WifiRadio::ap_capable] *)
Definition has_mode (mode : str) (r : WifiRadio) : bool :=
  existsb (fun m => eq_ignore_ascii_case m mode) (interface_modes (capability r)).
Definition sta_capable (r : WifiRadio) : bool := has_mode (lit "managed") r.
Definition ap_capable (r : WifiRadio) : bool := has_mode (lit "ap") r.

(** [BandClass::supported_by] *)
Definition supported_by (b : BandClass) (s : PhyBandSupport) : bool :=
  match b with Ghz6 => ghz_6 s | Ghz5 => ghz_5 s | Ghz2_4 => ghz_2_4 s end.

(** The loop of [sta_score] over the band priority, from index [idx]. *)
Fixpoint band_score (idx : N) (prio : list BandClass) (s : PhyBandSupport) : N :=
  match prio with
  | [] => 0
  | b :: prio' => if supported_by b s then 10 ^ sat_sub 3 idx else band_score (idx + 1) prio' s
  end.

Definition class_score (c : ConnectionClass) : N := match c with Onboard => 2 | Usb => 1 end.

(** [sta_score] *)
Definition sta_score (prio : list BandClass) (r : WifiRadio) : N :=
  band_score 0 prio (bands (capability r)) + class_score (connection_class r)
  + (if 1 <? band_count (bands (capability r)) then 1 else 0).

(** [rank_for_sta]: [None] is the panic of [expect]. *)
Definition rank_for_sta (candidates : list WifiRadio) (prio : list BandClass) : option WifiRadio :=
  max_by_key (sta_score prio) candidates.

(** [{:?}] of a connection class. *)
Definition class_name (c : ConnectionClass) : str :=
  match c with Onboard => lit "Onboard" | Usb => lit "Usb" end.

Definition sta_candidates (inventory : list WifiRadio) : list WifiRadio :=
  List.filter (fun r => sta_capable r && negb (is_ap_vif r)) inventory.
Definition ap_candidates (inventory : list WifiRadio) : list WifiRadio :=
  List.filter ap_capable inventory.

(** U+2014 *)
Definition EM_DASH : str := [8212].

(** The rationale of the last branch. *)
Definition rationale_for (explicit_sta explicit_ap : str) (sta ap : WifiRadio) : str :=
  if str_is_empty explicit_sta && str_is_empty explicit_ap then
    if bool_decide (ifname sta = ifname ap) then
      lit "auto-assigned: only one radio (" ++ ifname sta ++ lit ", phy " ++ phy sta ++
      lit "); STA + AP share " ++ EM_DASH ++ lit " concurrent-vif if PHY supports, else single-mode"
    else
      lit "auto-assigned: STA on " ++ ifname sta ++ lit " (phy " ++ phy sta ++ lit ", class " ++
      class_name (connection_class sta) ++ lit "), AP on " ++ ifname ap ++ lit " (phy " ++ phy ap ++
      lit ", class " ++ class_name (connection_class ap) ++
      lit ") " ++ EM_DASH ++ lit " split-radio by band priority + connection class"
  else if negb (str_is_empty explicit_sta) then
    lit "STA pinned to " ++ ifname sta ++ lit " by operator; AP auto-assigned to " ++ ifname ap
  else
    lit "AP pinned to " ++ ifname ap ++ lit " by operator; STA auto-assigned to " ++ ifname sta.

(** Both legs pinned. *)
Definition assign_pinned (sta ap : str) : RoleAssignment :=
  let same := bool_decide (sta = ap) in
  {| sta_ifname := sta; ap_ifname := ap; same_iface := same; had_explicit_ap := true;
     rationale := if same then lit "operator pinned both legs to one iface"
                  else lit "operator pinned STA + AP explicitly (split-radio)" |}.

(** No candidate for the station. *)
Definition assign_fallback (default_sta ap : str) : RoleAssignment :=
  let fallback := if str_is_empty default_sta then lit "wlan0" else default_sta in
  let chosen_ap := if str_is_empty ap then fallback else ap in
  {| sta_ifname := fallback; ap_ifname := chosen_ap;
     same_iface := bool_decide (chosen_ap = fallback);
     had_explicit_ap := negb (str_is_empty ap);
     rationale := lit "no STA-capable radio in inventory; falling back to default ifname (apply pipeline will surface the gap)" |}.

Definition choose_sta (candidates : list WifiRadio) (first : WifiRadio) (prio : list BandClass)
    (sta : str) : option WifiRadio :=
  if str_is_empty sta then rank_for_sta candidates prio
  else Some (default first (find (fun r => bool_decide (ifname r = sta)) candidates)).

Definition choose_ap (candidates : list WifiRadio) (chosen_sta : WifiRadio) (ap : str) : WifiRadio :=
  default chosen_sta
    (if str_is_empty ap then find (fun r => bool_decide (ifname r <> ifname chosen_sta)) candidates
     else find (fun r => bool_decide (ifname r = ap)) candidates).

(** [assign_wifi_roles]: [None] is a panic. *)
Definition assign_wifi_roles (inventory : list WifiRadio) (prio : list BandClass) (o : RoleOverrides)
    : option RoleAssignment :=
  let sta := trim (explicit_sta o) in
  let ap := trim (explicit_ap o) in
  if negb (str_is_empty sta) && negb (str_is_empty ap) then Some (assign_pinned sta ap)
  else
    match sta_candidates inventory with
    | [] => Some (assign_fallback (default_sta_fallback o) ap)
    | (first :: _) as candidates =>
        match choose_sta candidates first prio sta with
        | None => None
        | Some chosen_sta =>
            let chosen_ap := choose_ap (ap_candidates inventory) chosen_sta ap in
            Some {| sta_ifname := ifname chosen_sta; ap_ifname := ifname chosen_ap;
                    same_iface := bool_decide (ifname chosen_sta = ifname chosen_ap);
                    had_explicit_ap := negb (str_is_empty ap);
                    rationale := rationale_for sta ap chosen_sta chosen_ap |}
        end
    end.

(** ** The choice of the station *)

(** Position in the priority list of the first band the radio supports; the length of
    the list when it supports none of them. *)
Fixpoint band_rank (prio : list BandClass) (s : PhyBandSupport) : nat :=
  match prio with
  | [] => 0
  | b :: prio' => if supported_by b s then 0 else S (band_rank prio' s)
  end.

(** The bonus of a connection class and of several bands never outweighs a band. *)
Lemma sta_score_rank prio r1 r2 :
  (length prio <= 3)%nat -> sta_score prio r1 <= sta_score prio r2 ->
  (band_rank prio (bands (capability r2)) <= band_rank prio (bands (capability r1)))%nat.
Proof.
  unfold sta_score, class_score. intros Hlen Hle.
  destruct (connection_class r1), (connection_class r2),
    (1 <? band_count (bands (capability r1))), (1 <? band_count (bands (capability r2)));
  (destruct prio as [|b1 [|b2 [|b3 [|b4 prio]]]]; [| | | |simpl in Hlen; lia];
   cbn [band_score band_rank] in *; repeat case_match;
   try lia; exfalso; by apply Hle; vm_compute).
Qed.

Lemma max_by_key_some {A} (key : A -> N) x l : exists m, max_by_key key (x :: l) = Some m.
Proof. by eexists. Qed.

Lemma choose_sta_some first rest prio sta : exists r, choose_sta (first :: rest) first prio sta = Some r.
Proof. unfold choose_sta. by case_match; eexists. Qed.

Lemma find_prop_Some {A} (P : A -> Prop) `{!forall x, Decision (P x)} (l : list A) x :
  find (fun y => bool_decide (P y)) l = Some x -> x ∈ l /\ P x.
Proof. intros [Hin Hp]%find_some. by rewrite list_elem_of_In, <-(bool_decide_spec (P x)), <-Is_true_true in *. Qed.

Lemma find_prop_None {A} (P : A -> Prop) `{!forall x, Decision (P x)} (l : list A) :
  find (fun y => bool_decide (P y)) l = None -> forall x, x ∈ l -> ~ P x.
Proof.
  intros Hf x Hx%list_elem_of_In Hp. apply (find_none _ _ Hf) in Hx. by rewrite bool_decide_true in Hx.
Qed.

Lemma choose_sta_elem cands first prio sta r :
  first ∈ cands -> choose_sta cands first prio sta = Some r -> r ∈ cands.
Proof.
  intros Hfirst.
  unfold choose_sta, rank_for_sta. destruct (str_is_empty sta); [by intros [? _]%max_by_key_spec|].
  intros [= <-]. destruct (find _ _) as [x|] eqn:Hf; cbn [default]; [|done].
  by apply find_prop_Some in Hf as [? _].
Qed.

(** Role assignment never panics. *)
Theorem assign_wifi_roles_total inventory prio o : is_Some (assign_wifi_roles inventory prio o).
Proof.
  unfold assign_wifi_roles. destruct (_ && _); [done|].
  destruct (sta_candidates inventory) as [|first rest]; [done|].
  destruct (choose_sta_some first rest prio (trim (explicit_sta o))) as [r ->]. done.
Qed.

Lemma sta_candidates_spec inventory r :
  r ∈ sta_candidates inventory <-> r ∈ inventory /\ sta_capable r = true /\ is_ap_vif r = false.
Proof.
  unfold sta_candidates. rewrite !list_elem_of_In, filter_In, andb_true_iff, negb_true_iff. done.
Qed.

Lemma ap_candidates_spec inventory r :
  r ∈ ap_candidates inventory <-> r ∈ inventory /\ ap_capable r = true.
Proof. unfold ap_candidates. by rewrite !list_elem_of_In, filter_In. Qed.

(** With nothing pinned and a radio that can be a station, the station goes to a
    physical station-capable radio of the inventory, and no other such radio supports
    a band of higher priority, whatever its connection class; the access point goes
    to an AP-capable radio on another interface when the inventory has one, and
    shares the station's interface only otherwise. *)
Theorem assign_auto inventory prio o a :
  (length prio <= 3)%nat -> trim (explicit_sta o) = [] -> trim (explicit_ap o) = [] ->
  sta_candidates inventory <> [] -> assign_wifi_roles inventory prio o = Some a ->
  exists sta,
    sta ∈ inventory /\ sta_capable sta = true /\ is_ap_vif sta = false /\ sta_ifname a = ifname sta
    /\ (forall r, r ∈ sta_candidates inventory ->
          (band_rank prio (bands (capability sta)) <= band_rank prio (bands (capability r)))%nat)
    /\ (if same_iface a then
          ap_ifname a = ifname sta /\
          forall r, r ∈ inventory -> ap_capable r = true -> ifname r = ifname sta
        else exists ap, ap ∈ inventory /\ ap_capable ap = true /\ ap_ifname a = ifname ap
               /\ ifname ap <> ifname sta)
    /\ had_explicit_ap a = false.
Proof.
  intros Hlen Hsta Hap Hne. unfold assign_wifi_roles. rewrite Hsta, Hap. cbn [str_is_empty negb andb].
  destruct (sta_candidates inventory) as [|first rest] eqn:Hc; [done|]. rewrite <-Hc in *.
  destruct (choose_sta (sta_candidates inventory) first prio []) as [sta|] eqn:Hs; [|done]. intros [= <-].
  unfold choose_sta, rank_for_sta in Hs. cbn [str_is_empty] in Hs. apply max_by_key_spec in Hs as [Hin Hmax].
  exists sta. apply sta_candidates_spec in Hin as (Hin & Hcap & Hvif).
  cbn [sta_ifname ap_ifname same_iface had_explicit_ap]. split_and!; try done.
  - intros r Hr. by apply sta_score_rank, Hmax.
  - unfold choose_ap. cbn [str_is_empty]. destruct (find _ _) as [ap|] eqn:Hf; cbn [default].
    + apply find_prop_Some in Hf as [Hap' Hdiff]. rewrite bool_decide_false by done.
      apply ap_candidates_spec in Hap' as [? ?]. by exists ap.
    + rewrite bool_decide_true by done. split; [done|]. intros r Hr Hrcap.
      destruct (decide (ifname r = ifname sta)) as [|Hd]; [done|].
      by destruct (find_prop_None _ _ Hf r); [apply ap_candidates_spec|].
Qed.

(** Operator pins win where they can: with both legs pinned the assignment is
    exactly the two (trimmed) names; with only the station pinned to a name some
    station-capable physical radio bears, the station has that name; with only the
    access point pinned to a name some AP-capable radio bears, the access point has
    it. *)
Theorem assign_honours_pins inventory prio o a :
  let sta := trim (explicit_sta o) in let ap := trim (explicit_ap o) in
  assign_wifi_roles inventory prio o = Some a ->
  (sta <> [] -> ap <> [] -> sta_ifname a = sta /\ ap_ifname a = ap)
  /\ (sta <> [] -> (exists r, r ∈ sta_candidates inventory /\ ifname r = sta) -> sta_ifname a = sta)
  /\ (ap <> [] -> (exists r, r ∈ ap_candidates inventory /\ ifname r = ap) -> ap_ifname a = ap)
  /\ (had_explicit_ap a = true <-> ap <> []).
Proof.
  intros sta ap. unfold assign_wifi_roles. fold sta ap.
  destruct (_ && _) eqn:Hboth.
  { intros [= <-]. destruct sta, ap; done. }
  destruct (sta_candidates inventory) as [|first rest] eqn:Hc.
  { intros [= <-]. split_and!; cbn.
    - by destruct sta, ap.
    - intros _ (r & Hr & _). by apply elem_of_nil in Hr.
    - by destruct ap.
    - by destruct ap. }
  rewrite <-Hc. destruct (choose_sta _ _ _ _) as [cs|] eqn:Hcs; [|done]. intros [= <-]. cbn.
  split_and!.
  - by destruct sta, ap.
  - intros Hne (r & Hr & Hn). unfold choose_sta in Hcs. destruct (str_is_empty sta) eqn:He; [by destruct sta|].
    injection Hcs as <-. destruct (find _ _) as [x|] eqn:Hf; cbn [default].
    + by apply find_prop_Some in Hf as [_ ?].
    + by destruct (find_prop_None _ _ Hf r).
  - intros Hne (r & Hr & Hn). unfold choose_ap. destruct (str_is_empty ap) eqn:He; [by destruct ap|].
    destruct (find _ _) as [x|] eqn:Hf; cbn [default].
    + by apply find_prop_Some in Hf as [_ ?].
    + by destruct (find_prop_None _ _ Hf r).
  - by destruct ap.
Qed.

(** ** Ties and witnesses *)

Definition radio (name p : str) (b : PhyBandSupport) (cc : ConnectionClass) : WifiRadio :=
  from_dev_and_capability {| dev_ifname := name; dev_phy := p; dev_iftype := lit "managed" |}
    {| cap_phy := p; supports_managed_plus_ap := true; max_channels := 1;
       interface_modes := [lit "managed"; lit "AP"]; bands := b |} cc.

Definition single : PhyBandSupport := {| ghz_2_4 := true; ghz_5 := false; ghz_6 := false |}.
Definition dual : PhyBandSupport := {| ghz_2_4 := true; ghz_5 := true; ghz_6 := false |}.
Definition no_overrides : RoleOverrides :=
  {| explicit_sta := []; explicit_ap := []; default_sta_fallback := [] |}.
Definition two_radios : list WifiRadio :=
  [radio (lit "wlan0") (lit "phy0") single Onboard; radio (lit "wlan1") (lit "phy1") dual Usb].

(** Of radios with equal scores the last of the inventory is taken, also where the
    scores are equal because the multi-band bonus of a USB dongle makes up for its
    connection class. *)
Lemma tie_goes_to_last x l y prio :
  Forall (fun r => sta_score prio r <= sta_score prio y) (x :: l) ->
  rank_for_sta ((x :: l) ++ [y]) prio = Some y.
Proof.
  intros Hall. unfold rank_for_sta, max_by_key. cbn [app]. f_equal. rewrite foldl_app. cbn [foldl].
  destruct (foldl_max_ge (sta_score prio) l x) as (_ & Hin & _). set (m := foldl _ x l) in *.
  assert (sta_score prio m <= sta_score prio y) as Hle.
  { rewrite Forall_forall in Hall. apply Hall, elem_of_cons. naive_solver. }
  by apply N.leb_le in Hle as ->.
Qed.

Example usb_beats_onboard : rank_for_sta two_radios [Ghz2_4]
  = Some (radio (lit "wlan1") (lit "phy1") dual Usb).
Proof. by vm_compute. Qed.

Lemma assign_auto_witness : exists sta, sta ∈ two_radios /\ ifname sta = lit "wlan1".
Proof.
  destruct (assign_auto two_radios [Ghz6; Ghz5; Ghz2_4] no_overrides
    (default (assign_pinned [] []) (assign_wifi_roles two_radios [Ghz6; Ghz5; Ghz2_4] no_overrides)))
    as (sta & Hin & _ & _ & Hn & _); [simpl; lia|done|done|by vm_compute|by vm_compute|].
  exists sta. split; [done|]. rewrite <-Hn. by vm_compute.
Defined.

Lemma assign_honours_pins_witness :
  sta_ifname (assign_pinned (lit "wlan1") (lit "wlan0")) = lit "wlan1".
Proof.
  destruct (assign_honours_pins two_radios [Ghz5]
    {| explicit_sta := lit "wlan1 "; explicit_ap := lit "wlan0"; default_sta_fallback := [] |}
    (assign_pinned (lit "wlan1") (lit "wlan0"))) as (H & _); [by vm_compute|].
  destruct H as [H _]; [vm_compute; discriminate|vm_compute; discriminate|].
  rewrite H. by vm_compute.
Defined.
