(* ===== verification/SourceHealth.v ===== *)
(** * Link-source health ([plugins/org.evoframework.network/src/health.rs])

    The state machine that demotes a network event source when its probe fails and
    re-admits it when a later probe succeeds, with the schedule of re-probes.
    Instants and durations are in seconds (the schedule's unit). *)

From S2P Require Import Prelude.
Local Open Scope N_scope.

(** [LinkSourceError] ([source.rs]) and its text *)
Inductive LinkSourceError :=
| Disconnected (what : str) | Silent | DaemonError (what : str) | OtherFailure (what : str).

Definition error_text (e : LinkSourceError) : str :=
  match e with
  | Disconnected w => lit "source disconnected: " ++ w
  | Silent => lit "source silent past expected cadence"
  | DaemonError w => lit "source daemon reported error: " ++ w
  | OtherFailure w => lit "source failure: " ++ w
  end.

Definition DEFAULT_PROBE_INTERVAL : N := 60.

Definition BACKOFF_SCHEDULE : list N := [30; 60; 2 * 60; 5 * 60; 15 * 60; 60 * 60; 6 * 60 * 60].

(** [backoff_for]: the index is clamped to the schedule, so [default] is not reached. *)
Definition backoff_for (failure_count : N) : N :=
  default 0 (BACKOFF_SCHEDULE !! Nat.min (N.to_nat failure_count) (length BACKOFF_SCHEDULE - 1)).

(** [SourceAdmissionState] *)
Inductive SourceAdmissionState :=
| AdmittedSource
| Demoted (reason : str) (failure_count : N) (next_attempt_at : N).

Definition is_admitted (s : SourceAdmissionState) : bool :=
  match s with AdmittedSource => true | Demoted _ _ _ => false end.

Definition reprobe_due (s : SourceAdmissionState) (now : N) : bool :=
  match s with AdmittedSource => false | Demoted _ _ next_attempt_at => next_attempt_at <=? now end.

Definition failure_count_of (s : SourceAdmissionState) : N :=
  match s with AdmittedSource => 0 | Demoted _ n _ => n end.

(** [ProbeOutcome] *)
Inductive ProbeOutcome :=
| StillAdmitted
| DemotedNow (reason : str)
| StillDemoted (new_failure_count : N) (reason : str)
| Readmitted.

(** [apply_probe_result] *)
Definition apply_probe_result (current : SourceAdmissionState) (probe : result unit LinkSourceError)
    (now : N) : SourceAdmissionState * ProbeOutcome :=
  match current, probe with
  | AdmittedSource, Ok _ => (AdmittedSource, StillAdmitted)
  | AdmittedSource, Err err =>
      let reason := error_text err in
      (Demoted reason 1 (now + backoff_for 0), DemotedNow reason)
  | Demoted _ _ _, Ok _ => (AdmittedSource, Readmitted)
  | Demoted _ failure_count _, Err err =>
      let reason := error_text err in
      let new_failure_count := sat_add U32_MAX failure_count 1 in
      (Demoted reason new_failure_count (now + backoff_for new_failure_count),
       StillDemoted new_failure_count reason)
  end.

(** ** Runs of probes *)

Abbreviation Probe := (result unit LinkSourceError * N)%type.

Definition apply_probe (s : SourceAdmissionState) (p : Probe) : SourceAdmissionState :=
  (apply_probe_result s p.1 p.2).1.

Definition run_probes (s : SourceAdmissionState) (ps : list Probe) : SourceAdmissionState :=
  foldl apply_probe s ps.

(** Failed probes at the end of a run, most recent probe first. *)
Fixpoint trailing_failures (rev_ps : list Probe) : N :=
  match rev_ps with
  | (Err _, _) :: rest => 1 + trailing_failures rest
  | _ => 0
  end.

(** The backoff after the [n]-th failure in a row. *)
Definition backoff_after (n : N) : N := backoff_for (if n =? 1 then 0 else n).

(** The state a run should end in. *)
Definition expected_state (rev_ps : list Probe) : SourceAdmissionState :=
  match rev_ps with
  | (Err e, now) :: _ =>
      let n := N.min U32_MAX (trailing_failures rev_ps) in
      Demoted (error_text e) n (now + backoff_after n)
  | _ => AdmittedSource
  end.

Lemma trailing_pos e now ps : 1 <= trailing_failures ((Err e, now) :: ps).
Proof. cbn [trailing_failures]. lia. Qed.

Lemma expected_step rev_ps p : apply_probe (expected_state rev_ps) p = expected_state (p :: rev_ps).
Proof.
  unfold apply_probe. destruct p as [[u|e] now]; [by destruct rev_ps as [|[[?|?] ?] ?]|].
  destruct rev_ps as [|[[u'|e'] now'] rest]; [done..|].
  unfold expected_state. cbn [apply_probe_result fst snd].
  assert (Ht : sat_add U32_MAX (N.min U32_MAX (trailing_failures ((Err e', now') :: rest))) 1
    = N.min U32_MAX (trailing_failures ((Err e, now) :: (Err e', now') :: rest))).
  { unfold sat_add. cbn [trailing_failures]. lia. }
  rewrite Ht. f_equal. unfold backoff_after. f_equal. f_equal.
  destruct (N.eqb_spec (N.min U32_MAX (trailing_failures ((Err e, now) :: (Err e', now') :: rest))) 1)
    as [H1|_]; [|done].
  exfalso. pose proof (trailing_pos e' now' rest). revert H1. unfold U32_MAX.
  cbn [trailing_failures] in *. lia.
Qed.

(** After any run of probes of an admitted source, the source is admitted exactly
    when its last probe succeeded (or there was none); otherwise it is demoted with
    the reason of the last failure, the number of failures since the last success
    (saturating at 32 bits), and a re-probe due one backoff after the last failure. *)
Theorem run_probes_correct ps : run_probes AdmittedSource ps = expected_state (rev ps).
Proof.
  induction ps as [|p ps IH] using rev_ind; [done|].
  unfold run_probes in *. rewrite foldl_app, rev_app_distr, IH. apply expected_step.
Qed.

Lemma backoff_for_elem n : backoff_for n ∈ BACKOFF_SCHEDULE.
Proof.
  unfold backoff_for.
  destruct (lookup_lt_is_Some_2 BACKOFF_SCHEDULE
    (Nat.min (N.to_nat n) (length BACKOFF_SCHEDULE - 1))) as [x Hx]; [cbn [length BACKOFF_SCHEDULE]; lia|].
  rewrite Hx. by eapply list_elem_of_lookup_2.
Qed.

Lemma backoff_cases n : n <= 6 \/ (6 < n /\ backoff_for n = 21600).
Proof.
  destruct (N.le_gt_cases n 6); [by left|right]. split; [done|]. unfold backoff_for.
  rewrite Nat.min_r by (cbn [length BACKOFF_SCHEDULE]; lia). done.
Qed.

Lemma backoff_small n : n <= 6 -> n ∈ [0; 1; 2; 3; 4; 5; 6].
Proof. intros Hn. rewrite !elem_of_cons. lia. Qed.

(** The backoff grows with the failure count and stays between 30 seconds and six
    hours for every count. *)
Theorem backoff_monotone m n :
  m <= n -> backoff_for m <= backoff_for n /\ 30 <= backoff_for m /\ backoff_for n <= 21600.
Proof.
  intros Hmn. destruct (backoff_cases n) as [Hn|[Hn' Hn]]; destruct (backoff_cases m) as [Hm|[Hm' Hm]]; try lia;
    repeat match goal with H : _ <= 6 |- _ => apply backoff_small in H end;
    set_unfold; destruct_or!; subst; try lia; rewrite ?Hn, ?Hm; vm_compute; split_and!; discriminate.
Qed.

(** The second entry of the schedule, one minute, is never used: whatever the
    results, the re-probe of a demoted source is never set to 60 seconds after its
    last failure. *)
Theorem one_minute_backoff_unused ps p reason n at_ :
  run_probes AdmittedSource (ps ++ [p]) = Demoted reason n at_ -> at_ <> p.2 + 60.
Proof.
  assert (Hrun : forall ps, run_probes AdmittedSource ps = expected_state (rev ps)).
  { intros qs. induction qs as [|q qs IH] using rev_ind; [done|].
    unfold run_probes in *. rewrite foldl_app, rev_app_distr, IH. apply expected_step. }
  rewrite Hrun, rev_app_distr. destruct p as [[u|e] now]; [done|].
  cbn [rev app expected_state snd]. intros [= _ _ <-].
  set (c := N.min U32_MAX _). unfold backoff_after. destruct (N.eqb_spec c 1) as [_|Hc].
  - change (backoff_for 0) with 30. lia.
  - assert (1 <= c). { subst c. pose proof (trailing_pos e now (rev ps)). unfold U32_MAX. lia. }
    destruct (backoff_cases c) as [Hs|[_ Hs]]; [|lia]. apply backoff_small in Hs.
    set_unfold. destruct_or!; rewrite ?Hs; try lia;
      match goal with |- context [backoff_for ?k] => let v := eval vm_compute in (backoff_for k) in
        change (backoff_for k) with v end; lia.
Qed.

(** Observers are told of exactly the changes of admission: a probe reports a
    demotion when and only when it takes an admitted source out of service, and a
    re-admission when and only when it brings a demoted one back; a demoted source is
    due exactly from its next attempt on, an admitted one never. *)
Theorem probe_outcome_correct s probe now :
  let (s', o) := apply_probe_result s probe now in
  ((exists r, o = DemotedNow r) <-> is_admitted s = true /\ is_admitted s' = false)
  /\ (o = Readmitted <-> is_admitted s = false /\ is_admitted s' = true)
  /\ (is_admitted s' = true <-> is_ok probe = true)
  /\ (reprobe_due s' now = false).
Proof.
  pose proof (backoff_for_elem 0) as H0.
  assert (Hb : forall n, now + backoff_for n <=? now = false).
  { intros n. apply N.leb_gt. pose proof (backoff_for_elem n) as H. set_unfold. destruct_or!; lia. }
  destruct s as [|r n a], probe as [u|e]; cbn -[backoff_for N.leb];
    rewrite ?Hb; split_and!; try done; naive_solver.
Qed.

Lemma backoff_monotone_witness : backoff_for 0 <= backoff_for 9.
Proof. apply backoff_monotone. lia. Defined.

Lemma one_minute_backoff_unused_witness : 220 <> 100 + 60.
Proof.
  apply (one_minute_backoff_unused [(Err Silent, 10)] (Err Silent, 100)
    (error_text Silent) 2 220). by vm_compute.
Defined.
