(* ===== verification/Reconcile.v ===== *)
(** * Cross-source reconciliation ([plugins/org.evoframework.network/src/reconcile.rs])

    The rules that compare what the kernel and the network daemons report, and the
    discrepancies they raise. *)

From stdpp Require Import gmap.
From S2P Require Import Prelude.

(** ** Data *)

(** [ConnectivityVerdict] *)
Inductive ConnectivityVerdict := Full | Portal | Limited | NoConnectivity | Unknown.

#[export] Instance ConnectivityVerdict_eq_dec : EqDecision ConnectivityVerdict.
Proof. solve_decision. Defined.

Definition is_up (v : ConnectivityVerdict) : bool :=
  match v with Full | Portal | Limited => true | _ => false end.

(** [{:?}] of a verdict. *)
Definition verdict_name (v : ConnectivityVerdict) : str :=
  match v with
  | Full => lit "Full" | Portal => lit "Portal" | Limited => lit "Limited"
  | NoConnectivity => lit "None" | Unknown => lit "Unknown"
  end.

(** [LinkSourceView] *)
Record LinkSourceView := {
  carrier_up : option bool;
  address_attached : option bool;
  wifi_associated : option bool;
  connectivity_verdict : option ConnectivityVerdict;
  updated_at : option N;
}.

(** [DiscrepancyKind] *)
Inductive DiscrepancyKind :=
  CarrierDownButDaemonReportsUp | CarrierUpButDaemonReportsDown | DaemonsDisagree.

#[export] Instance DiscrepancyKind_eq_dec : EqDecision DiscrepancyKind.
Proof. solve_decision. Defined.

(** [Discrepancy] *)
Record Discrepancy := {
  rule : str;
  kind : DiscrepancyKind;
  detail : str;
  trusted : str;
  untrusted : str;
}.

(** [RULES], without the descriptions. *)
Record ReconciliationRule := { rule_id : str; rule_sources : list str; rule_kind : DiscrepancyKind }.

Definition RTNETLINK : str := lit "rtnetlink".
Definition NETWORK_MANAGER : str := lit "network-manager".

Definition RULES : list ReconciliationRule :=
  [{| rule_id := lit "carrier_down_but_daemon_full"; rule_sources := [RTNETLINK; NETWORK_MANAGER];
      rule_kind := CarrierDownButDaemonReportsUp |};
   {| rule_id := lit "carrier_up_but_daemon_none"; rule_sources := [RTNETLINK; NETWORK_MANAGER];
      rule_kind := CarrierUpButDaemonReportsDown |};
   {| rule_id := lit "daemons_disagree";
      rule_sources := [NETWORK_MANAGER; lit "connman"; lit "systemd-networkd"];
      rule_kind := DaemonsDisagree |}].

(** ** Detection *)

Abbreviation Views := (gmap str LinkSourceView).

(** The first rule. *)
Definition detect_carrier_down (k d : LinkSourceView) : list Discrepancy :=
  match carrier_up k, connectivity_verdict d with
  | Some false, Some verdict =>
      if is_up verdict then
        [{| rule := lit "carrier_down_but_daemon_full"; kind := CarrierDownButDaemonReportsUp;
            detail := lit "rtnetlink: carrier_up = false; network-manager: connectivity = "
                      ++ verdict_name verdict;
            trusted := RTNETLINK; untrusted := NETWORK_MANAGER |}]
      else []
  | _, _ => []
  end.

(** The second rule. *)
Definition detect_carrier_up (k d : LinkSourceView) : list Discrepancy :=
  match carrier_up k, address_attached k, connectivity_verdict d with
  | Some true, Some true, Some NoConnectivity =>
      [{| rule := lit "carrier_up_but_daemon_none"; kind := CarrierUpButDaemonReportsDown;
          detail := lit "rtnetlink: carrier_up + address_attached; network-manager: connectivity = None";
          trusted := RTNETLINK; untrusted := NETWORK_MANAGER |}]
  | _, _, _ => []
  end.

Definition candidate_daemons : list str := [NETWORK_MANAGER; lit "connman"; lit "systemd-networkd"].

Definition active_daemons (views : Views) : list (str * ConnectivityVerdict) :=
  omap (fun n => v ← views !! n; c ← connectivity_verdict v; Some (n, c)) candidate_daemons.

(** [slice::windows(2)] *)
Fixpoint windows2 {A} (l : list A) : list (A * A) :=
  match l with
  | x :: (y :: _) as l' => (x, y) :: windows2 l'
  | _ => []
  end.

(** The third rule, on neighbours of the active daemons. *)
Definition detect_disagreement (w : (str * ConnectivityVerdict) * (str * ConnectivityVerdict))
    : list Discrepancy :=
  let '((n1, v1), (n2, v2)) := w in
  if bool_decide (v1 <> v2) then
    [{| rule := lit "daemons_disagree"; kind := DaemonsDisagree;
        detail := n1 ++ lit ": " ++ verdict_name v1 ++ lit "; " ++ n2 ++ lit ": " ++ verdict_name v2;
        trusted := []; untrusted := [] |}]
  else [].

Definition on_kernel_and_nm (views : Views) (f : LinkSourceView -> LinkSourceView -> list Discrepancy)
    : list Discrepancy :=
  match views !! RTNETLINK, views !! NETWORK_MANAGER with
  | Some k, Some d => f k d
  | _, _ => []
  end.

(** [detect_discrepancies] *)
Definition detect_discrepancies (views : Views) : list Discrepancy :=
  on_kernel_and_nm views detect_carrier_down ++ on_kernel_and_nm views detect_carrier_up
  ++ concat (map detect_disagreement (windows2 (active_daemons views))).

(** ** Correctness *)

(** The verdict a source reports. *)
Definition reports (views : Views) (n : str) (v : ConnectivityVerdict) : Prop :=
  exists view, views !! n = Some view /\ connectivity_verdict view = Some v.

Lemma active_daemons_spec views n v :
  (n, v) ∈ active_daemons views <-> n ∈ candidate_daemons /\ reports views n v.
Proof.
  unfold active_daemons, reports. rewrite list_elem_of_omap. split.
  - intros (m & Hm & Heq). destruct (views !! m) as [view|] eqn:Hv; [|done]. cbn in Heq.
    destruct (connectivity_verdict view) as [c|] eqn:Hc; [|done]. cbn in Heq. simplify_eq. eauto.
  - intros (Hn & view & Hv & Hc). exists n. by rewrite Hv; cbn; rewrite Hc.
Qed.

Lemma windows2_elem {A} (l : list A) x y : (x, y) ∈ windows2 l -> x ∈ l /\ y ∈ l.
Proof.
  induction l as [|a [|b l] IH]; [by intros ?%elem_of_nil..|]. cbn [windows2].
  intros [[= -> ->]|[Hx Hy]%IH]%elem_of_cons.
  - split; [apply list_elem_of_here|apply list_elem_of_further, list_elem_of_here].
  - split; by apply list_elem_of_further.
Qed.

Lemma windows2_all_eq {A B} (f : A -> B) l :
  (forall p, p ∈ windows2 l -> f p.1 = f p.2) <-> (forall x y, x ∈ l -> y ∈ l -> f x = f y).
Proof.
  induction l as [|a l IH].
  { split; [intros _ x y Hx; by apply elem_of_nil in Hx|intros _ p Hp; by apply elem_of_nil in Hp]. }
  destruct l as [|b l].
  { split; [|intros _ p Hp; by apply elem_of_nil in Hp].
    intros _ x y ->%list_elem_of_singleton ->%list_elem_of_singleton. done. }
  cbn [windows2]. split.
  - intros Hw. assert (Hab : f a = f b) by (apply (Hw (a, b)), list_elem_of_here).
    assert (Hrest : forall x y, x ∈ b :: l -> y ∈ b :: l -> f x = f y).
    { apply IH. intros p Hp. by apply Hw, list_elem_of_further. }
    intros x y [->|Hx]%elem_of_cons [->|Hy]%elem_of_cons; [done|..].
    + rewrite Hab. apply Hrest; [apply list_elem_of_here|done].
    + rewrite Hab. apply Hrest; [done|apply list_elem_of_here].
    + by apply Hrest.
  - intros Hall p [->|Hp]%elem_of_cons.
    + apply Hall; [apply list_elem_of_here|apply list_elem_of_further, list_elem_of_here].
    + apply IH; [|done]. intros x y Hx Hy. by apply Hall; apply list_elem_of_further.
Qed.

Lemma kinds_of_detection views d :
  d ∈ detect_discrepancies views <->
  d ∈ on_kernel_and_nm views detect_carrier_down \/ d ∈ on_kernel_and_nm views detect_carrier_up
  \/ exists w, w ∈ windows2 (active_daemons views) /\ d ∈ detect_disagreement w.
Proof. unfold detect_discrepancies. by rewrite !elem_of_app, elem_of_concat_map. Qed.

(** Each rule's condition on the views. *)
Definition carrier_down_condition (views : Views) : Prop :=
  exists k v, views !! RTNETLINK = Some k /\ carrier_up k = Some false
    /\ reports views NETWORK_MANAGER v /\ is_up v = true.
Definition carrier_up_condition (views : Views) : Prop :=
  exists k, views !! RTNETLINK = Some k /\ carrier_up k = Some true /\ address_attached k = Some true
    /\ reports views NETWORK_MANAGER NoConnectivity.
Definition disagreement_condition (views : Views) : Prop :=
  exists n1 n2 v1 v2, n1 ∈ candidate_daemons /\ n2 ∈ candidate_daemons
    /\ reports views n1 v1 /\ reports views n2 v2 /\ v1 <> v2.

Definition raised (views : Views) (k : DiscrepancyKind) : Prop :=
  exists d, d ∈ detect_discrepancies views /\ kind d = k.

Lemma in_carrier_down views d :
  d ∈ on_kernel_and_nm views detect_carrier_down ->
  kind d = CarrierDownButDaemonReportsUp /\ carrier_down_condition views.
Proof.
  unfold on_kernel_and_nm, detect_carrier_down, carrier_down_condition, reports.
  repeat case_match; try (by intros ?%elem_of_nil). intros ->%list_elem_of_singleton. naive_solver.
Qed.

Lemma in_carrier_up views d :
  d ∈ on_kernel_and_nm views detect_carrier_up ->
  kind d = CarrierUpButDaemonReportsDown /\ carrier_up_condition views.
Proof.
  unfold on_kernel_and_nm, detect_carrier_up, carrier_up_condition, reports.
  repeat case_match; try (by intros ?%elem_of_nil). intros ->%list_elem_of_singleton. naive_solver.
Qed.

Lemma in_disagreement w d :
  d ∈ detect_disagreement w -> kind d = DaemonsDisagree /\ w.1.2 <> w.2.2.
Proof.
  destruct w as [[n1 v1] [n2 v2]]. cbn. case_bool_decide; [|by intros ?%elem_of_nil].
  by intros ->%list_elem_of_singleton.
Qed.

Lemma disagreement_in_window views :
  disagreement_condition views -> exists w, w ∈ windows2 (active_daemons views) /\ w.1.2 <> w.2.2.
Proof.
  intros (n1 & n2 & v1 & v2 & Hn1 & Hn2 & Hr1 & Hr2 & Hne).
  destruct (decide (Exists (fun w => w.1.2 <> w.2.2) (windows2 (active_daemons views)))) as [He|He].
  { apply Exists_exists in He as (w & ? & ?). eauto. }
  destruct Hne. assert (Hall : forall p, p ∈ windows2 (active_daemons views) -> p.1.2 = p.2.2).
  { intros p Hp. apply dec_stable. intros Hd. apply He, Exists_exists. eauto. }
  apply (proj1 (windows2_all_eq snd _) Hall (n1, v1) (n2, v2)); by apply active_daemons_spec.
Qed.

(** Each kind of discrepancy is raised exactly when its rule's condition holds of
    what the sources report: a kernel without carrier against a manager that reports
    some connectivity, a kernel with carrier and address against a manager that
    reports none, two of the known daemons with different verdicts.  Comparing
    neighbours only loses no disagreement. *)
Theorem detect_discrepancies_correct views :
  (raised views CarrierDownButDaemonReportsUp <-> carrier_down_condition views)
  /\ (raised views CarrierUpButDaemonReportsDown <-> carrier_up_condition views)
  /\ (raised views DaemonsDisagree <-> disagreement_condition views).
Proof.
  unfold raised. setoid_rewrite kinds_of_detection. split_and!; split.
  - intros (d & [H|[H|(w & _ & H)]] & Hk); [by apply in_carrier_down in H as [_ ?]
      |by apply in_carrier_up in H as [? _]; congruence|by apply in_disagreement in H as [? _]; congruence].
  - intros (k & v & Hk & Hc & (view & Hn & Hv) & Hup). eexists. split; [left|].
    + unfold on_kernel_and_nm, detect_carrier_down. rewrite Hk, Hn, Hc, Hv, Hup.
      apply list_elem_of_here.
    + done.
  - intros (d & [H|[H|(w & _ & H)]] & Hk); [by apply in_carrier_down in H as [? _]; congruence
      |by apply in_carrier_up in H as [_ ?]|by apply in_disagreement in H as [? _]; congruence].
  - intros (k & Hk & Hc & Ha & (view & Hn & Hv)). eexists. split; [right; left|].
    + unfold on_kernel_and_nm, detect_carrier_up. rewrite Hk, Hn, Hc, Ha, Hv.
      apply list_elem_of_here.
    + done.
  - intros (d & [H|[H|([[n1 v1] [n2 v2]] & Hw & H)]] & Hk);
      [by apply in_carrier_down in H as [? _]; congruence
      |by apply in_carrier_up in H as [? _]; congruence|].
    apply in_disagreement in H as [_ Hne]. apply windows2_elem in Hw as [H1 H2].
    apply active_daemons_spec in H1 as [? ?]. apply active_daemons_spec in H2 as [? ?].
    by exists n1, n2, v1, v2.
  - intros ([[n1 v1] [n2 v2]] & Hw & Hne)%disagreement_in_window. cbn in Hne.
    eexists. split; [right; right; eexists; split; [exact Hw|]|].
    + cbn. rewrite bool_decide_true by done. apply list_elem_of_here.
    + done.
Qed.
