(* ===== verification/Radio.v ===== *)
(** * Radio state ([plugins/org.evoframework.network/src/rfkill.rs], [wifi_radio.rs])

    The kernel's block state read from [/sys/class/rfkill] and its combination with
    flight mode and the operator's preference.  The directory is a parameter: the list
    of its entries' names in the order the file system gives them, with the contents
    of the four files of each ([None] when unreadable). *)

From S2P Require Import Prelude.
Local Open Scope N_scope.

(** ** rfkill *)

(** [RadioKind] *)
Inductive RadioKind := Wlan | Bluetooth | Wwan | UnknownRadio (s : str).

#[export] Instance RadioKind_eq_dec : EqDecision RadioKind.
Proof. solve_decision. Defined.

Definition from_kernel_str (s : str) : RadioKind :=
  let t := trim s in
  if bool_decide (t = lit "wlan") then Wlan
  else if bool_decide (t = lit "bluetooth") then Bluetooth
  else if bool_decide (t = lit "wwan") then Wwan
  else UnknownRadio t.

Definition operator_label (k : RadioKind) : str :=
  match k with Wlan => lit "wifi" | Bluetooth => lit "bluetooth" | Wwan => lit "wwan" | UnknownRadio s => s end.

(** [RfkillEntry] *)
Record RfkillEntry := {
  index : N;
  rf_name : str;
  rf_kind : RadioKind;
  rf_soft : bool;
  rf_hard : bool;
}.

(** A directory entry: its name ([None] when not UTF-8) and its files. *)
Record SysfsEntry := {
  se_file_name : option str;
  se_name : option str;
  se_type : option str;
  se_soft : option str;
  se_hard : option str;
}.

(** [read_trim], [read_bool] *)
Definition read_trim (f : option str) : option str := option_map trim f.
Definition read_bool (f : option str) : option bool :=
  s ← read_trim f;
  if bool_decide (s = lit "0") then Some false
  else if bool_decide (s = lit "1") then Some true
  else None.

(** [parse_one]; the reason of a failure is only logged. *)
Definition parse_one (e : SysfsEntry) (idx : N) : option RfkillEntry :=
  name ← read_trim (se_name e);
  kind_raw ← read_trim (se_type e);
  soft ← read_bool (se_soft e);
  hard ← read_bool (se_hard e);
  Some {| index := idx; rf_name := name; rf_kind := from_kernel_str kind_raw;
          rf_soft := soft; rf_hard := hard |}.

(** The body of the loop of [read_from]. *)
Definition read_entry (e : SysfsEntry) : option RfkillEntry :=
  name ← se_file_name e;
  idx_str ← strip_prefix (lit "rfkill") name;
  idx ← parse_u32 idx_str;
  parse_one e idx.

(** [read_from]: [None] when the directory cannot be read. *)
Definition read_from (dir : option (list SysfsEntry)) : list RfkillEntry :=
  match dir with
  | None => []
  | Some es => sort_by (key_le index) (omap read_entry es)
  end.

(** [RadioBlockState] *)
Record RadioBlockState := { soft_blocked : bool; hard_blocked : bool }.
Definition is_clear (b : RadioBlockState) : bool := negb (soft_blocked b) && negb (hard_blocked b).

(** [aggregate_for] *)
Definition aggregate_for (entries : list RfkillEntry) (kind : RadioKind) : option RadioBlockState :=
  match filter (fun e => rf_kind e = kind) entries with
  | [] => None
  | matching => Some {| soft_blocked := existsb rf_soft matching; hard_blocked := existsb rf_hard matching |}
  end.

(** ** The radio *)

(** [RadioState], [RadioSource], [RadioStateView] *)
Inductive RadioState := Enabled | Disabled.
Definition is_enabled (s : RadioState) : bool := match s with Enabled => true | Disabled => false end.
Definition from_bool (b : bool) : RadioState := if b then Enabled else Disabled.
Inductive RadioSource := Preference | FlightMode | HardwareBlock.
Record RadioStateView := {
  effective_state : RadioState;
  preference : RadioState;
  view_hard_blocked : bool;
  view_soft_blocked : bool;
  radio_source : RadioSource;
}.

(** [resolve] *)
Definition resolve (pref : RadioState) (flight_mode : bool) (block : option RadioBlockState)
    : RadioStateView :=
  let '(hard, soft) :=
    match block with Some b => (hard_blocked b, soft_blocked b) | None => (false, false) end in
  let '(eff, src) :=
    if hard then (Disabled, HardwareBlock)
    else if flight_mode then (Disabled, FlightMode)
    else (pref, Preference) in
  {| effective_state := eff; preference := pref; view_hard_blocked := hard;
     view_soft_blocked := soft; radio_source := src |}.

(** ** Correctness *)

Lemma read_from_elem es r : r ∈ read_from (Some es) <-> exists e, e ∈ es /\ read_entry e = Some r.
Proof. unfold read_from. by rewrite sort_by_elem, list_elem_of_omap. Qed.

(** Every directory entry that parses is read, whatever its neighbours hold, none
    is invented or lost, and the result is in the order of the kernel's indices. *)
Theorem read_from_correct es :
  Sorted (key_le index) (read_from (Some es)) /\ read_from (Some es) ≡ₚ omap read_entry es.
Proof. split; [apply (sort_by_sorted (key_le index))|apply sort_by_perm]. Qed.

Lemma existsb_elem {A} (f : A -> bool) l : existsb f l = true <-> exists x, x ∈ l /\ f x = true.
Proof. rewrite existsb_exists. by setoid_rewrite list_elem_of_In. Qed.

Lemma aggregate_hard entries kind :
  (exists b, aggregate_for entries kind = Some b /\ hard_blocked b = true) <->
  exists e, e ∈ entries /\ rf_kind e = kind /\ rf_hard e = true.
Proof.
  unfold aggregate_for.
  assert (Hin : forall e, e ∈ filter (fun e => rf_kind e = kind) entries <-> rf_kind e = kind /\ e ∈ entries).
  { intros e. by rewrite list_elem_of_filter. }
  destruct (filter _ entries) as [|e0 l].
  - split; [by intros (? & ? & _)|]. intros (e & He & Hk & _).
    assert (e ∈ []) as ?%elem_of_nil; [|done]. by apply Hin.
  - split.
    + intros (b & [= <-] & Hb). change (existsb rf_hard (e0 :: l) = true) in Hb. apply existsb_elem in Hb as (e & He & Hh).
      apply Hin in He as [? ?]. eauto.
    + intros (e & He & Hk & Hh). eexists. split; [done|]. change (existsb rf_hard (e0 :: l) = true).
      apply existsb_elem. exists e. split; [by apply Hin|done].
Qed.

(** The Wi-Fi radio is reported enabled exactly when the operator prefers it
    enabled, flight mode is off and no Wi-Fi radio that the kernel lists is
    hard-blocked; a soft block does not count.  The source named is the hardware block
    first, then flight mode, then the preference. *)
Theorem radio_state_correct es pref flight_mode :
  let v := resolve pref flight_mode (aggregate_for (read_from (Some es)) Wlan) in
  let blocked := exists e r, e ∈ es /\ read_entry e = Some r /\ rf_kind r = Wlan /\ rf_hard r = true in
  (effective_state v = Enabled <-> pref = Enabled /\ flight_mode = false /\ ~ blocked)
  /\ (radio_source v = HardwareBlock <-> blocked)
  /\ (radio_source v = FlightMode <-> flight_mode = true /\ ~ blocked)
  /\ preference v = pref.
Proof.
  intros v blocked.
  assert (Hb : blocked <-> exists b, aggregate_for (read_from (Some es)) Wlan = Some b /\ hard_blocked b = true).
  { rewrite aggregate_hard. subst blocked. setoid_rewrite read_from_elem. naive_solver. }
  clearbody blocked. subst v. unfold resolve.
  destruct (aggregate_for _ _) as [[soft [|]]|]; cbn; [|destruct flight_mode, pref..]; cbn;
    naive_solver.
Qed.
