(* ===== verification/WifiAcquire.v ===== *)
(** * Wi-Fi acquisition ([plugins/org.evoframework.network/src/wifi_acquire.rs])

    Reading a network out of a [wpa_supplicant.conf] and picking a profile out of
    NetworkManager's terse rows. *)

From S2P Require Import Prelude.
Local Open Scope N_scope.

(** ** Data *)

(** [WpaNetwork] *)
Record WpaNetwork := { ssid : str; psk : option str; open : bool; hidden : bool }.

(** [BlockAccumulator] *)
Record BlockAccumulator := {
  b_ssid : option str;
  b_psk : option str;
  key_mgmt_none : bool;
  b_hidden : bool;
}.

Definition empty_block : BlockAccumulator :=
  {| b_ssid := None; b_psk := None; key_mgmt_none := false; b_hidden := false |}.

(** ** Values *)

(** [u8::from_str_radix(_, 16)] on two hexadecimal digits. *)
Definition hex_value (c : char) : N :=
  if is_ascii_digit c then c - 48 else ascii_lower_char c - 87.

Fixpoint hex_bytes (s : str) : list N :=
  match s with
  | a :: b :: s' => (hex_value a * 16 + hex_value b) :: hex_bytes s'
  | _ => []
  end.

(** The escapes of [unquote]: its loop over the characters. *)
Fixpoint unescape (s : str) : str :=
  match s with
  | [] => []
  | c :: s' =>
      if c =? BACKSLASH then
        match s' with
        | [] => [BACKSLASH]
        | e :: s'' =>
            (if e =? 110 then LF else if e =? 116 then TAB else if e =? 114 then CR else e) :: unescape s''
        end
      else c :: unescape s'
  end.

(** [unquote] *)
Definition unquote (raw : str) : str :=
  let raw := trim raw in
  unescape (default raw (r ← strip_prefix [DQUOTE] raw; strip_suffix [DQUOTE] r)).

(** [decode_value] *)
Definition decode_value (raw : str) : option str :=
  let raw := trim raw in
  if str_is_empty raw then None
  else if starts_with [DQUOTE] raw then Some (unquote raw)
  else if (2 <=? str_len raw) && (str_len raw mod 2 =? 0) && forallb is_ascii_hexdigit raw then
    match from_utf8 (hex_bytes raw) with
    | Some text => if negb (str_is_empty text) && negb (existsb is_control text) then Some text
                   else Some raw
    | None => Some raw
    end
  else Some raw.

(** ** Blocks *)

(** [BlockAccumulator::set] *)
Definition set (key value : str) (b : BlockAccumulator) : BlockAccumulator :=
  if bool_decide (key = lit "ssid") then
    {| b_ssid := decode_value value; b_psk := b_psk b; key_mgmt_none := key_mgmt_none b;
       b_hidden := b_hidden b |}
  else if bool_decide (key = lit "psk") then
    {| b_ssid := b_ssid b; b_psk := decode_value value; key_mgmt_none := key_mgmt_none b;
       b_hidden := b_hidden b |}
  else if bool_decide (key = lit "key_mgmt") then
    let mechanisms := map to_ascii_uppercase (split_whitespace (unquote value)) in
    {| b_ssid := b_ssid b; b_psk := b_psk b;
       key_mgmt_none := match mechanisms with [] => false | _ => true end
                        && forallb (fun m => bool_decide (m = lit "NONE")) mechanisms;
       b_hidden := b_hidden b |}
  else if bool_decide (key = lit "scan_ssid") then
    {| b_ssid := b_ssid b; b_psk := b_psk b; key_mgmt_none := key_mgmt_none b;
       b_hidden := bool_decide (trim value = lit "1") |}
  else b.

Definition non_empty (o : option str) : option str :=
  s ← o; if str_is_empty s then None else Some s.

(** [BlockAccumulator::finish] *)
Definition finish (b : BlockAccumulator) : option WpaNetwork :=
  s ← non_empty (b_ssid b);
  let p := non_empty (b_psk b) in
  let o := key_mgmt_none b || match p with None => true | Some _ => false end in
  Some {| ssid := s; psk := if o then None else p; open := o; hidden := b_hidden b |}.

(** The loop of [parse_wpa_supplicant_conf]: [None] outside a block. *)
Fixpoint parse_conf_lines (ls : list str) (block : option BlockAccumulator) : option WpaNetwork :=
  match ls with
  | [] => b ← block; finish b
  | line :: ls' =>
      let line := trim line in
      if str_is_empty line || starts_with (lit "#") line then parse_conf_lines ls' block
      else match block with
      | None =>
          let squashed := filter (fun c => is_whitespace c = false) line in
          if bool_decide (squashed = lit "network={") || bool_decide (squashed = lit "network=")
          then parse_conf_lines ls' (Some empty_block)
          else parse_conf_lines ls' None
      | Some cur =>
          if starts_with (lit "}") line then
            match finish cur with
            | Some net => Some net
            | None => parse_conf_lines ls' None
            end
          else if bool_decide (line = lit "{") then parse_conf_lines ls' (Some cur)
          else match split_once (lit "=") line with
          | None => parse_conf_lines ls' (Some cur)
          | Some (key, value) => parse_conf_lines ls' (Some (set (trim key) (trim value) cur))
          end
      end
  end.

(** [parse_wpa_supplicant_conf] *)
Definition parse_wpa_supplicant_conf (raw : str) : option WpaNetwork :=
  parse_conf_lines (lines raw) None.

(** ** NetworkManager profiles *)

(** [NmProfileRow] *)
Record NmProfileRow := { name : str; kind : str }.

(** [pick_foreign_wifi_profile] *)
Definition is_foreign_wifi (ours hotspot : str) (r : NmProfileRow) : bool :=
  bool_decide (trim (kind r) = lit "802-11-wireless") && bool_decide (trim (name r) <> trim ours)
  && bool_decide (trim (name r) <> trim hotspot) && negb (str_is_empty (trim (name r))).
Definition pick_foreign_wifi_profile (rows : list NmProfileRow) (ours hotspot : str)
    : option NmProfileRow := find (is_foreign_wifi ours hotspot) rows.

(** [split_terse] *)
Fixpoint split_terse_go (cur : str) (s : str) : list str :=
  match s with
  | [] => [rev cur]
  | c :: s' =>
      if c =? BACKSLASH then
        match s' with
        | [] => [rev cur]
        | next :: s'' => split_terse_go (next :: cur) s''
        end
      else if c =? 58 then rev cur :: split_terse_go [] s'
      else split_terse_go (c :: cur) s'
  end.
Definition split_terse (line : str) : list str := split_terse_go [] line.

(** [parse_nm_profile_rows] *)
Definition parse_nm_profile_rows (raw : str) : list NmProfileRow :=
  omap (fun line =>
    if str_is_empty (trim line) then None
    else match split_terse line with
         | n :: k :: _ => Some {| name := n; kind := k |}
         | _ => None
         end) (lines raw).

(** ** What a parse returns *)

Lemma finish_wf b net :
  finish b = Some net -> ssid net <> [] /\ (open net = true <-> psk net = None) /\ psk net <> Some [].
Proof.
  unfold finish. destruct (b_ssid b) as [[|c s]|]; [done| |done]. cbn. intros [= <-]. cbn.
  destruct (key_mgmt_none b), (b_psk b) as [[|d p]|]; cbn; split_and!; done.
Qed.

Lemma parse_conf_lines_wf ls block net :
  parse_conf_lines ls block = Some net ->
  ssid net <> [] /\ (open net = true <-> psk net = None) /\ psk net <> Some [].
Proof.
  revert block. induction ls as [|l ls IH]; intros block; cbn [parse_conf_lines].
  - destruct block as [b|]; [apply finish_wf|done].
  - destruct (_ || _); [apply IH|]. destruct block as [cur|].
    + destruct (starts_with _ _).
      * destruct (finish cur) eqn:Hf; [intros [= <-]; by eapply finish_wf|apply IH].
      * destruct (bool_decide _); [apply IH|]. destruct (split_once _ _) as [[k v]|]; apply IH.
    + destruct (_ || _); apply IH.
Qed.

(** A network read from any file whatever has a name, and either it is open and
    has no key, or it has a key that is not empty. *)
Theorem parse_wpa_supplicant_conf_wf raw net :
  parse_wpa_supplicant_conf raw = Some net ->
  ssid net <> [] /\ (open net = true <-> psk net = None) /\ psk net <> Some [].
Proof. apply parse_conf_lines_wf. Qed.

(** ** Writing a configuration *)

Definition escape_char (c : char) : str :=
  if c =? LF then [BACKSLASH; 110]
  else if c =? BACKSLASH then [BACKSLASH; BACKSLASH]
  else if c =? DQUOTE then [BACKSLASH; DQUOTE]
  else [c].
Definition escape (s : str) : str := concat (map escape_char s).
Definition quote (s : str) : str := DQUOTE :: escape s ++ [DQUOTE].

Definition render_lines (s : str) (p : option str) (h : bool) : list str :=
  [lit "network={"; lit "ssid=" ++ quote s;
   match p with Some k => lit "psk=" ++ quote k | None => lit "key_mgmt=NONE" end;
   if h then lit "scan_ssid=1" else lit "scan_ssid=0"; lit "}"].

Definition render_conf (junk : list str) (s : str) (p : option str) (h : bool) : str :=
  concat (map (fun l => l ++ [LF]) (junk ++ render_lines s p h)).

Lemma unescape_escape s : unescape (escape s) = s.
Proof.
  unfold escape. induction s as [|c s IH]; [done|]. cbn [map concat]. unfold escape_char at 1.
  destruct (N.eqb_spec c LF) as [->|H1]; [cbn; by rewrite IH|].
  destruct (N.eqb_spec c BACKSLASH) as [->|H2]; [cbn; by rewrite IH|].
  destruct (N.eqb_spec c DQUOTE) as [->|H3]; [cbn; by rewrite IH|].
  cbn [app unescape]. destruct (N.eqb_spec c BACKSLASH); [done|]. by rewrite IH.
Qed.

Lemma escape_no_lf s : LF ∉ escape s.
Proof.
  unfold escape. rewrite elem_of_concat_map. intros (c & _ & Hin). revert Hin. unfold escape_char.
  destruct (N.eqb_spec c LF); [set_unfold; naive_solver|].
  destruct (N.eqb_spec c BACKSLASH); [set_unfold; naive_solver|].
  destruct (N.eqb_spec c DQUOTE); set_unfold; naive_solver.
Qed.

Lemma trim_quote s : trim (quote s) = quote s.
Proof. by apply trim_delimited. Qed.

Lemma strip_suffix_snoc s d : strip_suffix [d] (s ++ [d]) = Some s.
Proof. unfold strip_suffix. rewrite rev_app_distr. cbn. by rewrite N.eqb_refl, rev_involutive. Qed.

Lemma unquote_quote s : unquote (quote s) = s.
Proof.
  unfold unquote. rewrite trim_quote. unfold quote. cbn [strip_prefix N.eqb DQUOTE Pos.eqb].
  cbn [mbind option_bind]. rewrite strip_suffix_snoc. apply unescape_escape.
Qed.

Lemma decode_quote s : decode_value (quote s) = Some s.
Proof.
  unfold decode_value. rewrite trim_quote. cbn -[unquote quote trim]. f_equal. apply unquote_quote.
Qed.

Lemma trim_lit_quote c pre s :
  is_whitespace c = false -> trim ((c :: pre) ++ quote s) = (c :: pre) ++ quote s.
Proof.
  intros Hc. unfold quote. cbn [app].
  replace (c :: pre ++ DQUOTE :: escape s ++ [DQUOTE])
    with (c :: (pre ++ DQUOTE :: escape s) ++ [DQUOTE]) by (by rewrite <-app_assoc).
  by apply trim_delimited.
Qed.

(** One line of a block with a quoted value. *)
Lemma parse_quoted_line c key s rest cur :
  is_whitespace c = false -> c <> 35 -> c <> 125 -> 61 ∉ c :: key ->
  parse_conf_lines ((c :: key ++ 61 :: quote s) :: rest) (Some cur)
  = parse_conf_lines rest (Some (set (trim (c :: key)) (quote s) cur)).
Proof.
  intros Hc H35 H125 H61. cbn [parse_conf_lines].
  replace (c :: key ++ 61 :: quote s) with ((c :: key ++ [61]) ++ quote s)
    by (cbn; by rewrite <-app_assoc).
  rewrite trim_lit_quote by done.
  replace ((c :: key ++ [61]) ++ quote s) with ((c :: key) ++ 61 :: quote s)
    by (cbn; by rewrite <-app_assoc).
  assert (Hh : starts_with (lit "#") ((c :: key) ++ 61 :: quote s) = false).
  { unfold starts_with. change (lit "#") with [35]. cbn [strip_prefix app].
    by destruct (N.eqb_spec 35 c); [congruence|]. }
  assert (Hb : starts_with (lit "}") ((c :: key) ++ 61 :: quote s) = false).
  { unfold starts_with. change (lit "}") with [125]. cbn [strip_prefix app].
    by destruct (N.eqb_spec 125 c); [congruence|]. }
  rewrite Hh, Hb. cbn [app str_is_empty orb].
  rewrite bool_decide_false by
    (intros Heq; change (lit "{") with [123] in Heq; apply (f_equal length) in Heq;
     rewrite length_cons, length_app in Heq; cbn in Heq; lia).
  change (c :: key ++ 61 :: quote s) with ((c :: key) ++ 61 :: quote s).
  change (lit "=") with [61]. by rewrite split_once_char_intro, trim_quote.
Qed.

(** The lines a file may hold before a block without any effect: no line that opens a
    block, and no line break inside one. *)
Definition harmless (l : str) : Prop :=
  (LF ∉ l /\ last l <> Some CR)
  /\ filter (fun c => is_whitespace c = false) (trim l) ∉ [lit "network={"; lit "network="].

Lemma parse_skips_harmless junk rest :
  Forall harmless junk -> parse_conf_lines (junk ++ rest) None = parse_conf_lines rest None.
Proof.
  induction 1 as [|l junk [_ Hl] _ IH]; [done|]. cbn [app parse_conf_lines].
  destruct (_ || _); [done|]. rewrite !bool_decide_false; [done|..];
    intros Heq; apply Hl; rewrite Heq, !elem_of_cons; tauto.
Qed.

Lemma render_lines_ok s p h : Forall (fun l => LF ∉ l /\ last l <> Some CR) (render_lines s p h).
Proof.
  assert (Hq : forall c pre s', LF ∉ c :: pre ->
    LF ∉ (c :: pre) ++ quote s' /\ last ((c :: pre) ++ quote s') <> Some CR).
  { intros c pre s' Hp. unfold quote. split.
    - intros [?|[?|[?|?%list_elem_of_singleton]%elem_of_app]%elem_of_cons]%elem_of_app;
        [done|done|by apply (escape_no_lf s')|done].
    - rewrite app_comm_cons, app_assoc. by rewrite last_snoc. }
  unfold render_lines. repeat constructor; try (by vm_compute; set_solver);
    try (destruct p, h; try apply Hq; vm_compute; set_solver).
Qed.

(** The lines of a block that hold no quoted value. *)
Lemma parse_plain_line line key value rest cur :
  trim line = line -> str_is_empty line = false -> starts_with (lit "#") line = false ->
  starts_with (lit "}") line = false -> line <> lit "{" -> split_once (lit "=") line = Some (key, value) ->
  parse_conf_lines (line :: rest) (Some cur) = parse_conf_lines rest (Some (set (trim key) (trim value) cur)).
Proof.
  intros Htrim He Hh Hb Hbrace Hsplit. cbn [parse_conf_lines].
  by rewrite Htrim, He, Hh, Hb, bool_decide_false, Hsplit.
Qed.

(** Side conditions on closed strings. *)
Ltac by_decide := first [reflexivity | lia | apply (bool_decide_eq_true_1 _); reflexivity].

Lemma set_ssid s b :
  set (trim (lit "ssid")) (quote s) b
  = {| b_ssid := Some s; b_psk := b_psk b; key_mgmt_none := key_mgmt_none b; b_hidden := b_hidden b |}.
Proof. rewrite <-(decode_quote s). reflexivity. Qed.

Lemma set_psk k b :
  set (trim (lit "psk")) (quote k) b
  = {| b_ssid := b_ssid b; b_psk := Some k; key_mgmt_none := key_mgmt_none b; b_hidden := b_hidden b |}.
Proof. rewrite <-(decode_quote k). reflexivity. Qed.

Lemma parse_block_end s p none h rest :
  s <> [] -> p <> Some [] ->
  parse_conf_lines (lit "}" :: rest)
    (Some {| b_ssid := Some s; b_psk := p; key_mgmt_none := none; b_hidden := h |})
  = Some {| ssid := s; psk := if none then None else p;
            open := none || match p with None => true | Some _ => false end; hidden := h |}.
Proof. intros Hs Hp. destruct s as [|c s], p as [[|d p]|], none; done. Qed.

Lemma parse_block s p h rest :
  s <> [] -> p <> Some [] ->
  parse_conf_lines (render_lines s p h ++ rest) None
  = Some {| ssid := s; psk := p; open := match p with None => true | Some _ => false end; hidden := h |}.
Proof.
  intros Hs Hp. unfold render_lines. cbn [app].
  change (parse_conf_lines (lit "network={" :: ?l) None) with (parse_conf_lines l (Some empty_block)).
  etransitivity; [apply (parse_quoted_line 115 (lit "sid")); by_decide|].
  change (115 :: lit "sid") with (lit "ssid"). rewrite set_ssid. cbn [b_psk key_mgmt_none b_hidden empty_block].
  assert (Hscan : forall p none, parse_conf_lines ((if h then lit "scan_ssid=1" else lit "scan_ssid=0") :: lit "}" :: rest)
      (Some {| b_ssid := Some s; b_psk := p; key_mgmt_none := none; b_hidden := false |})
    = parse_conf_lines (lit "}" :: rest)
      (Some {| b_ssid := Some s; b_psk := p; key_mgmt_none := none; b_hidden := h |})).
  { intros p' none. by destruct h. }
  destruct p as [k|].
  - etransitivity; [apply (parse_quoted_line 112 (lit "sk")); by_decide|].
    change (112 :: lit "sk") with (lit "psk"). rewrite set_psk. cbn [b_ssid key_mgmt_none b_hidden].
    by rewrite Hscan, parse_block_end.
  - etransitivity; [apply (parse_plain_line _ (lit "key_mgmt") (lit "NONE")); by_decide|].
    change (set (trim (lit "key_mgmt")) (trim (lit "NONE")) ?b) with
      {| b_ssid := b_ssid b; b_psk := b_psk b; key_mgmt_none := true; b_hidden := b_hidden b |}.
    cbn [b_ssid b_psk b_hidden]. by rewrite Hscan, parse_block_end.
Qed.

(** A block written with quoted, escaped values is read back exactly, for every
    name and every key that are not empty (quotes, backslashes and line breaks in them
    included) and for an open network, whatever lines that open no block come before
    it. *)
Theorem parse_wpa_supplicant_conf_roundtrip junk s p h :
  Forall harmless junk -> s <> [] -> p <> Some [] ->
  parse_wpa_supplicant_conf (render_conf junk s p h)
  = Some {| ssid := s; psk := p; open := match p with None => true | Some _ => false end; hidden := h |}.
Proof.
  intros Hj Hs Hp. unfold parse_wpa_supplicant_conf, render_conf.
  rewrite <-(app_nil_r (concat _)), lines_concat.
  - cbn [lines lines_go]. rewrite app_nil_r, parse_skips_harmless by done.
    rewrite <-(app_nil_r (render_lines s p h)). by apply parse_block.
  - apply Forall_app. split; [|apply render_lines_ok].
    eapply Forall_impl; [exact Hj|]. by intros l [? _].
Qed.

(** ** Profile rows *)

Definition terse_escape_char (c : char) : str :=
  if (c =? BACKSLASH) || (c =? 58) then [BACKSLASH; c] else [c].
Definition terse_escape (s : str) : str := concat (map terse_escape_char s).
Definition render_row (r : NmProfileRow) : str := terse_escape (name r) ++ 58 :: terse_escape (kind r).

Lemma split_terse_escape cur s rest :
  split_terse_go cur (terse_escape s ++ rest) = split_terse_go (rev s ++ cur) rest.
Proof.
  unfold terse_escape. revert cur. induction s as [|c s IH]; intros cur; [done|]. cbn [map concat rev].
  rewrite <-!app_assoc. cbn [app]. rewrite <-IH. unfold terse_escape_char at 1.
  destruct (N.eqb_spec c BACKSLASH) as [->|H1]; [done|].
  destruct (N.eqb_spec c 58) as [->|H2]; [done|]. cbn [orb app split_terse_go].
  destruct (N.eqb_spec c BACKSLASH); [done|]. by destruct (N.eqb_spec c 58).
Qed.

Lemma split_terse_row r : split_terse (render_row r) = [name r; kind r].
Proof.
  unfold split_terse, render_row. rewrite split_terse_escape. cbn [split_terse_go N.eqb Pos.eqb BACKSLASH].
  rewrite <-(app_nil_r (terse_escape (kind r))), split_terse_escape. cbn [split_terse_go].
  by rewrite !app_nil_r, !rev_involutive.
Qed.

Lemma terse_escape_elem c s : c <> BACKSLASH -> c ∉ s -> c ∉ terse_escape s.
Proof.
  intros Hc Hs. unfold terse_escape. rewrite elem_of_concat_map. intros (d & Hd & Hin). revert Hin.
  unfold terse_escape_char. destruct (_ || _); rewrite !elem_of_cons; intros ?; set_solver.
Qed.

Lemma terse_escape_last s c : last (terse_escape s) = Some c -> last s = Some c.
Proof.
  unfold terse_escape. destruct s as [|d s _] using rev_ind; [done|].
  rewrite map_app, concat_app, last_snoc. cbn [map concat]. rewrite app_nil_r.
  unfold terse_escape_char at 2. destruct (_ || _); [|by rewrite last_snoc].
  change [BACKSLASH; d] with ([BACKSLASH] ++ [d]). by rewrite app_assoc, last_snoc.
Qed.

Lemma trim_not_empty c s : c ∈ s -> is_whitespace c = false -> str_is_empty (trim s) = false.
Proof.
  intros Hin Hc. unfold trim. assert (H : exists d s', trim_start s = d :: s' /\ is_whitespace d = false).
  { unfold trim_start. induction s as [|d s IH]; [by apply elem_of_nil in Hin|]. cbn [drop_while].
    destruct (is_whitespace d) eqn:Hd; [|eauto]. apply elem_of_cons in Hin as [->|?]; [congruence|auto]. }
  destruct H as (d & s' & -> & Hd). by destruct (trim_end_head d s' Hd) as [q ->].
Qed.

Definition printable_row (r : NmProfileRow) : Prop :=
  LF ∉ name r /\ LF ∉ kind r /\ last (kind r) <> Some CR.

(** Rows printed in NetworkManager's terse form, colons and backslashes escaped,
    are read back exactly and in order. *)
Theorem parse_nm_profile_rows_roundtrip rows :
  Forall printable_row rows ->
  parse_nm_profile_rows (concat (map (fun l => l ++ [LF]) (map render_row rows))) = rows.
Proof.
  intros Hrows. unfold parse_nm_profile_rows. rewrite <-(app_nil_r (concat _)), lines_concat.
  - cbn [lines lines_go]. rewrite app_nil_r. induction rows as [|r rows IH]; [done|].
    apply Forall_cons in Hrows as [_ Hrows]. cbn [map]. rewrite omap_cons_app, IH by done.
    assert (H58 : 58 ∈ render_row r).
    { unfold render_row. rewrite elem_of_app. right. apply list_elem_of_here. }
    rewrite (trim_not_empty 58), split_terse_row by done. by destruct r.
  - apply Forall_map. eapply Forall_impl; [exact Hrows|]. intros r (Hn & Hk & Hl). unfold render_row. split.
    + rewrite elem_of_app, elem_of_cons. intros [H|[H|H]]; [|done|];
        revert H; by apply terse_escape_elem.
    + intros H. apply Hl, terse_escape_last. destruct (terse_escape (kind r)) as [|e l] eqn:He.
      * rewrite last_snoc in H. done.
      * rewrite last_app in H. change (last (58 :: e :: l)) with (last (e :: l)) in H.
        destruct (last (e :: l)) eqn:Hel; [done|by apply last_None in Hel].
Qed.

(** ** Precomputed keys *)

(** A precomputed key of 32 printable bytes is not passed through as written. *)
Definition printable_key : str := concat (replicate 32 (lit "61")).

Theorem precomputed_key_decoded :
  length printable_key = 64%nat
  /\ parse_wpa_supplicant_conf (concat (map (fun l => l ++ [LF])
       [lit "network={"; lit "ssid=net"; lit "psk=" ++ printable_key; lit "}"]))
     = Some {| ssid := lit "net"; psk := Some (replicate 32 97); open := false; hidden := false |}.
Proof. split; by vm_compute. Qed.

(** ** Witnesses *)

Lemma parse_wpa_supplicant_conf_wf_witness : lit "cafe" <> [] /\ (true = true <-> None = @None str).
Proof.
  destruct (parse_wpa_supplicant_conf_wf
    (render_conf [] (lit "cafe") None false)
    {| ssid := lit "cafe"; psk := None; open := true; hidden := false |} eq_refl) as (H1 & H2 & _).
  split; [exact H1|exact H2].
Defined.

Lemma parse_wpa_supplicant_conf_roundtrip_witness :
  parse_wpa_supplicant_conf (render_conf [lit "country=GB"] [DQUOTE; 233; BACKSLASH] (Some [LF; 32]) true)
  = Some {| ssid := [DQUOTE; 233; BACKSLASH]; psk := Some [LF; 32]; open := false; hidden := true |}.
Proof.
  apply (parse_wpa_supplicant_conf_roundtrip [lit "country=GB"]); [|discriminate|discriminate].
  constructor; [|constructor]. split; [|by_decide]. split; [by_decide|]. vm_compute. discriminate.
Defined.

Lemma parse_nm_profile_rows_roundtrip_witness :
  parse_nm_profile_rows (concat (map (fun l => l ++ [LF])
    (map render_row [{| name := lit "a:b\c"; kind := lit "802-11-wireless" |}])))
  = [{| name := lit "a:b\c"; kind := lit "802-11-wireless" |}].
Proof.
  apply parse_nm_profile_rows_roundtrip. constructor; [|constructor].
  split; [by_decide|split; [by_decide|vm_compute; discriminate]].
Defined.
