(* ===== verification/WifiPhy.v ===== *)
(** * Wi-Fi hardware probing ([plugins/org.evoframework.network/src/wifi_phy.rs])

    The parsers of what [iw] prints and the operations built on them.  Running [iw]
    is a parameter: a state with a dispatch function from the arguments to the
    command's output (as [from_utf8_lossy] decodes it).  Paths, time limits and log
    lines are left out. *)

From stdpp Require Import gmap.
From S2P Require Import Prelude WifiRoles.
Local Open Scope N_scope.

(** ** [iw phy <phy> info] *)

Definition starts_indented (line : str) : bool := starts_with (lit " ") line || starts_with [TAB] line.

(** The first loop of [parse_phy_info]. *)
Fixpoint modes_go (in_modes : bool) (ls : list str) : list str :=
  match ls with
  | [] => []
  | line :: ls' =>
      let lt := trim line in
      if bool_decide (lt = lit "Supported interface modes:") then modes_go true ls'
      else if in_modes then
        match strip_prefix (lit "*") lt with
        | Some rest => trim rest :: modes_go true ls'
        | None => modes_go (str_is_empty lt || starts_indented line) ls'
        end
      else modes_go false ls'
  end.

(** The body of the loop of [parse_phy_band_support] once a channel is read. *)
Definition add_channel (mhz : N) (b : PhyBandSupport) : PhyBandSupport :=
  if in_range 2400 2500 mhz then {| ghz_2_4 := true; ghz_5 := ghz_5 b; ghz_6 := ghz_6 b |}
  else if in_range 4900 5900 mhz then {| ghz_2_4 := ghz_2_4 b; ghz_5 := true; ghz_6 := ghz_6 b |}
  else if in_range 5901 7200 mhz then {| ghz_2_4 := ghz_2_4 b; ghz_5 := ghz_5 b; ghz_6 := true |}
  else b.

(** The channel a line of a frequencies block lists. *)
Definition channel_line (lt : str) : option N :=
  rest ← strip_prefix (lit "* ") lt;
  if str_contains (lit "(disabled)") rest then None
  else parse_u32 (default [] (head (split_whitespace rest))).

Fixpoint bands_go (in_frequencies : bool) (ls : list str) (b : PhyBandSupport) : PhyBandSupport :=
  match ls with
  | [] => b
  | line :: ls' =>
      let lt := trim line in
      if starts_with (lit "Frequencies:") lt then bands_go true ls' b
      else if in_frequencies then
        if negb (starts_indented line) && negb (str_is_empty lt) then bands_go false ls' b
        else bands_go true ls' (match channel_line lt with Some mhz => add_channel mhz b | None => b end)
      else bands_go false ls' b
  end.

(** [parse_phy_band_support] *)
Definition no_bands : PhyBandSupport := {| ghz_2_4 := false; ghz_5 := false; ghz_6 := false |}.
Definition parse_phy_band_support (raw : str) : PhyBandSupport := bands_go false (lines raw) no_bands.

Definition flush_combo (current : str) : list str := if str_is_empty current then [] else [current].

(** The loop of [extract_interface_combinations]. *)
Fixpoint combos_go (in_combos : bool) (current : str) (ls : list str) : list str :=
  match ls with
  | [] => flush_combo current
  | line :: ls' =>
      let lt := trim_end line in
      if bool_decide (trim lt = lit "valid interface combinations:") then combos_go true current ls'
      else if negb in_combos then combos_go false current ls'
      else if negb (starts_indented line) && negb (str_is_empty lt) then
        flush_combo current ++ combos_go false [] ls'
      else
        let trimmed := trim lt in
        match strip_prefix (lit "* ") trimmed with
        | Some rest => flush_combo current ++ combos_go true rest ls'
        | None =>
            if negb (str_is_empty trimmed) then combos_go true (current ++ lit " " ++ trimmed) ls'
            else combos_go true current ls'
        end
  end.

(** [extract_interface_combinations] *)
Definition extract_interface_combinations (raw : str) : list str := combos_go false [] (lines raw).

(** [has_mode_token]: the search over the bytes, with the byte before. *)
Definition before_ok (prev : option N) : bool :=
  match prev with None => true | Some b => bool_decide (b ∈ lit " ,{(/") end.
Definition after_ok (next : option N) : bool :=
  match next with None => true | Some b => bool_decide (b ∈ lit " ,})/") end.

Fixpoint token_go (prev : option N) (bytes tb : list N) : bool :=
  match strip_prefix tb bytes with
  | Some rest => before_ok prev && after_ok (head rest)
  | None => false
  end || match bytes with [] => false | b :: bytes' => token_go (Some b) bytes' tb end.

Definition has_mode_token (combo token : str) : bool := token_go None (as_bytes combo) (as_bytes token).
Definition combo_has_managed (combo : str) : bool := has_mode_token combo (lit "managed").
Definition combo_has_ap (combo : str) : bool := has_mode_token combo (lit "AP").

(** [parse_channel_count] *)
Definition parse_channel_count (combo : str) : option N :=
  '(_, rest) ← split_once (lit "#channels <=") combo;
  parse_u32 (take_while is_ascii_digit (trim_start rest)).

(** [parse_phy_info] *)
Definition parse_phy_info (phy_name raw : str) : PhyCapability :=
  let combos := extract_interface_combinations raw in
  {| cap_phy := phy_name;
     supports_managed_plus_ap := existsb (fun c => combo_has_managed c && combo_has_ap c) combos;
     max_channels := foldl (fun m c => match parse_channel_count c with
                                       | Some n => if m <? n then n else m
                                       | None => m
                                       end) 0 combos;
     interface_modes := modes_go false (lines raw);
     bands := parse_phy_band_support raw |}.

(** ** [iw dev] *)

(** [parse_iface_to_phy_map] *)
Fixpoint iface_map_go (cur_phy : option str) (ls : list str) (m : gmap str str) : gmap str str :=
  match ls with
  | [] => m
  | line :: ls' =>
      let lt := trim line in
      match strip_prefix (lit "phy#") lt with
      | Some rest => iface_map_go (Some (lit "phy" ++ trim rest)) ls' m
      | None =>
          match strip_prefix (lit "Interface ") lt with
          | Some rest =>
              iface_map_go cur_phy ls'
                (match cur_phy with Some p => <[trim rest := p]> m | None => m end)
          | None => iface_map_go cur_phy ls' m
          end
      end
  end.
Definition parse_iface_to_phy_map (raw : str) : gmap str str := iface_map_go None (lines raw) ∅.

(** [flush_wifi_dev], [flush_wifi_dev_iface]: both take the interface and the type,
    so the caller goes on with neither. *)
Definition flush_wifi_dev (rows : list WifiDev) (p iface iftype : option str) : list WifiDev :=
  match iface, iftype, p with
  | Some ifn, Some ty, Some p => rows ++ [{| dev_ifname := ifn; dev_phy := p; dev_iftype := ty |}]
  | _, _, _ => rows
  end.

(** The loop of [parse_wifi_devices]. *)
Fixpoint devices_go (rows : list WifiDev) (cur_phy cur_iface cur_type : option str) (ls : list str)
    : list WifiDev :=
  match ls with
  | [] => flush_wifi_dev rows cur_phy cur_iface cur_type
  | line :: ls' =>
      let lt := trim line in
      match strip_prefix (lit "phy#") lt with
      | Some rest =>
          devices_go (flush_wifi_dev rows cur_phy cur_iface cur_type)
            (Some (lit "phy" ++ trim rest)) None None ls'
      | None =>
          match strip_prefix (lit "Interface ") lt with
          | Some rest =>
              devices_go (flush_wifi_dev rows cur_phy cur_iface cur_type) cur_phy (Some (trim rest)) None ls'
          | None =>
              devices_go rows cur_phy cur_iface
                (match strip_prefix (lit "type ") lt with
                 | Some rest => Some (trim rest)
                 | None => cur_type
                 end) ls'
          end
      end
  end.
Definition parse_wifi_devices (raw : str) : list WifiDev := devices_go [] None None None (lines raw).

(** ** [iw dev <sta> link] *)

(** [StaLinkInfo] *)
Record StaLinkInfo := {
  connected : bool;
  freq_mhz : option N;
  channel : option N;
  band : option str;
}.
Definition no_link : StaLinkInfo := {| connected := false; freq_mhz := None; channel := None; band := None |}.

(** [parse_freq_mhz] *)
Definition parse_freq_mhz (raw : str) : option N :=
  let t := trim raw in
  let whole := match split_once (lit ".") t with Some (h, _) => h | None => t end in
  parse_u32 (trim whole).

(** [freq_to_channel] *)
Definition freq_to_channel (mhz : N) : option N :=
  if in_range 2412 2472 mhz then Some ((mhz - 2407) / 5)
  else if mhz =? 2484 then Some 14
  else if in_range 5000 5895 mhz then Some ((mhz - 5000) / 5)
  else if in_range 5955 7115 mhz then Some ((mhz - 5950) / 5)
  else None.

(** [freq_to_band] *)
Definition freq_to_band (mhz : N) : option str :=
  if mhz <? 3000 then Some (lit "bg")
  else if (3000 <=? mhz) && (mhz <? 5900) then Some (lit "a")
  else if 5900 <=? mhz then Some (lit "6GHz")
  else None.

(** The loop of [parse_sta_link_info]. *)
Fixpoint link_go (ls : list str) (i : StaLinkInfo) : StaLinkInfo :=
  match ls with
  | [] => i
  | line :: ls' =>
      let lt := trim line in
      if starts_with (lit "Not connected") lt then
        {| connected := false; freq_mhz := freq_mhz i; channel := channel i; band := band i |}
      else
        let i := if starts_with (lit "Connected to") lt
                 then {| connected := true; freq_mhz := freq_mhz i; channel := channel i; band := band i |}
                 else i in
        link_go ls'
          (match strip_prefix (lit "freq:") lt with
           | Some rest =>
               match parse_freq_mhz rest with
               | Some v => {| connected := connected i; freq_mhz := Some v;
                              channel := freq_to_channel v; band := freq_to_band v |}
               | None => i
               end
           | None => i
           end)
  end.
Definition parse_sta_link_info (raw : str) : StaLinkInfo := link_go (lines raw) no_link.

(** ** Operations that run [iw] *)

(** What a command leaves: success, the exit code if it has one, its two outputs. *)
Record ExecOutput := {
  status_success : bool; status_code : option Z; out_stdout : str; out_stderr : str }.

Definition dec_z (z : Z) : str := (if (z <? 0)%Z then lit "-" else []) ++ dec (Z.abs_N z).

Fixpoint join (sep : str) (l : list str) : str :=
  match l with
  | [] => []
  | [s] => s
  | s :: l' => s ++ sep ++ join sep l'
  end.

(** [str::trim_start_matches("phy")] *)
Fixpoint trim_start_phy (s : str) : str :=
  match s with
  | 112 :: 104 :: 121 :: s' => trim_start_phy s'
  | _ => s
  end.

Section exec.
Context {X PE : Type}.
Variable dispatch : list str -> X -> X * result ExecOutput PE.
Variable transient : str -> PE.

(** [iw_output] *)
Definition iw_output (args : list str) (x : X) : X * result str PE :=
  let (x', r) := dispatch args x in
  match r with
  | Err e => (x', Err e)
  | Ok out =>
      if status_success out then (x', Ok (out_stdout out))
      else (x', Err (transient (lit "iw " ++ join (lit " ") args ++ lit " failed (exit "
             ++ dec_z (default (-1)%Z (status_code out)) ++ lit "): "
             ++ trim (out_stderr out) ++ [LF] ++ trim (out_stdout out))))
  end.

(** [phy_capability] *)
Definition phy_capability (p : str) (x : X) : X * result PhyCapability PE :=
  let phy_arg := lit "phy" ++ trim_start_phy (trim p) in
  let (x', r) := iw_output [phy_arg; lit "info"] x in
  (x', let? out := r in Ok (parse_phy_info phy_arg out)).

(** [wifi_iface_to_phy_map] *)
Definition wifi_iface_to_phy_map (x : X) : X * result (gmap str str) PE :=
  let (x', r) := iw_output [lit "dev"] x in (x', let? out := r in Ok (parse_iface_to_phy_map out)).

(** [phy_for_ifname] *)
Definition phy_for_ifname (ifn : str) (x : X) : X * result (option str) PE :=
  let (x', r) := wifi_iface_to_phy_map x in (x', let? m := r in Ok (m !! trim ifn)).

(** [list_wifi_devices] *)
Definition list_wifi_devices (x : X) : X * result (list WifiDev) PE :=
  let (x', r) := iw_output [lit "dev"] x in (x', let? out := r in Ok (parse_wifi_devices out)).

(** [iw_dev_exists] *)
Definition iw_dev_exists (ifn : str) (x : X) : X * bool :=
  let name := trim ifn in
  if str_is_empty name then (x, false)
  else let (x', r) := wifi_iface_to_phy_map x in
       (x', match r with Ok m => bool_decide (is_Some (m !! name)) | Err _ => false end).

(** [is_sta_capable] *)
Definition is_sta_capable (ifn : str) (x : X) : X * bool :=
  let name := trim ifn in
  if str_is_empty name then (x, false)
  else
    let (x1, r) := list_wifi_devices x in
    match r with
    | Err _ => (x1, false)
    | Ok devs =>
        match find (fun d => bool_decide (dev_ifname d = name)) devs with
        | None => (x1, false)
        | Some d =>
            let ty := to_ascii_lowercase (dev_iftype d) in
            if bool_decide (ty = lit "ap") || str_contains (lit "__ap") ty then (x1, false)
            else if bool_decide (ty = lit "managed") then (x1, true)
            else
              let (x2, r2) := phy_capability (dev_phy d) x1 in
              (x2, match r2 with
                   | Ok cap => existsb (fun m => eq_ignore_ascii_case m (lit "managed")) (interface_modes cap)
                   | Err _ => false
                   end)
        end
    end.

(** [ensure_ap_vif_present] *)
Definition ensure_ap_vif_present (sta_if ap_if : str) (x : X) : X * result unit PE :=
  let sta := trim sta_if in
  let ap := trim ap_if in
  if str_is_empty sta || str_is_empty ap || bool_decide (sta = ap) then (x, Ok tt)
  else
    let (x1, present) := iw_dev_exists ap x in
    if present then (x1, Ok tt)
    else
      let (x2, r) := iw_output [lit "dev"; sta; lit "interface"; lit "add"; ap; lit "type"; lit "__ap"] x1 in
      (x2, let? _ := r in Ok tt).

(** [ensure_ap_vif_absent] *)
Definition ensure_ap_vif_absent (ap_if : str) (x : X) : X * result unit PE :=
  let ap := trim ap_if in
  if str_is_empty ap then (x, Ok tt)
  else
    let (x1, present) := iw_dev_exists ap x in
    if negb present then (x1, Ok tt)
    else let (x2, r) := iw_output [lit "dev"; ap; lit "del"] x1 in (x2, let? _ := r in Ok tt).

(** [sta_link_info] *)
Definition sta_link_info (sta_if : str) (x : X) : X * StaLinkInfo :=
  let sta := trim sta_if in
  if str_is_empty sta then (x, no_link)
  else let (x', r) := iw_output [lit "dev"; sta; lit "link"] x in
       (x', match r with Ok s => parse_sta_link_info s | Err _ => no_link end).

(** [sta_phy_supports_concurrent_sta_ap] *)
Definition sta_phy_supports_concurrent_sta_ap (sta_if : str) (x : X) : X * bool :=
  let (x1, r) := phy_for_ifname sta_if x in
  match r with
  | Ok (Some p) =>
      let (x2, r2) := phy_capability p x1 in
      (x2, match r2 with Ok cap => supports_managed_plus_ap cap | Err _ => false end)
  | _ => (x1, false)
  end.
End exec.

(** ** What [iw dev] prints *)

Record IfaceBlock := { ib_name : str; ib_before : list str; ib_type : str; ib_after : list str }.
Record PhyBlock := { pb_id : str; pb_ifaces : list IfaceBlock }.

Definition iface_lines (i : IfaceBlock) : list str :=
  (TAB :: lit "Interface " ++ ib_name i) :: ib_before i ++ (TAB :: TAB :: lit "type " ++ ib_type i) :: ib_after i.
Definition phy_lines (b : PhyBlock) : list str :=
  (lit "phy#" ++ pb_id b) :: concat (map iface_lines (pb_ifaces b)).
Definition render_dev (bs : list PhyBlock) : str :=
  concat (map (fun l => l ++ [LF]) (concat (map phy_lines bs))).

Definition phy_rows (b : PhyBlock) : list WifiDev :=
  map (fun i => {| dev_ifname := ib_name i; dev_phy := lit "phy" ++ pb_id b; dev_iftype := ib_type i |})
    (pb_ifaces b).
Definition dev_rows (bs : list PhyBlock) : list WifiDev := concat (map phy_rows bs).

(** A line without a carriage return at its end or a break inside. *)
Definition word (s : str) : Prop := tidy s /\ one_line s.

(** Any other line of the output: it starts none of the three the parsers look for. *)
Definition other_line (l : str) : Prop :=
  one_line l /\ Forall (fun pre => strip_prefix pre (trim l) = None) [lit "phy#"; lit "Interface "; lit "type "].

Definition iface_ok (i : IfaceBlock) : Prop :=
  word (ib_name i) /\ word (ib_type i) /\ Forall other_line (ib_before i) /\ Forall other_line (ib_after i).
Definition phy_ok (b : PhyBlock) : Prop := word (pb_id b) /\ Forall iface_ok (pb_ifaces b).

Lemma trim_interface s : tidy s -> trim (TAB :: lit "Interface " ++ s) = lit "Interface " ++ s.
Proof. intros Hs. rewrite trim_space by done. by apply trim_tidy, (tidy_app 73 (lit "nterface ")). Qed.

Lemma trim_type s : tidy s -> trim (TAB :: TAB :: lit "type " ++ s) = lit "type " ++ s.
Proof. intros Hs. rewrite !trim_space by done. by apply trim_tidy, (tidy_app 116 (lit "ype ")). Qed.

Lemma trim_phy s : tidy s -> trim (lit "phy#" ++ s) = lit "phy#" ++ s.
Proof. intros Hs. by apply trim_tidy, (tidy_app 112 (lit "hy#")). Qed.

Lemma devices_go_other rows p i t ls rest :
  Forall other_line ls -> devices_go rows p i t (ls ++ rest) = devices_go rows p i t rest.
Proof.
  induction 1 as [|l ls [_ Hl] _ IH]; [done|]. cbn [app devices_go].
  rewrite !Forall_cons in Hl. destruct Hl as (-> & -> & -> & _). done.
Qed.

Lemma devices_go_iface rows p i t b rest :
  iface_ok b ->
  devices_go rows p i t (iface_lines b ++ rest)
  = devices_go (flush_wifi_dev rows p i t) p (Some (ib_name b)) (Some (ib_type b)) rest.
Proof.
  intros ([Hn _] & [Ht _] & Hb & Ha). unfold iface_lines. cbn [app devices_go].
  rewrite trim_interface, <-app_assoc by done.
  change (strip_prefix (lit "phy#") (lit "Interface " ++ ib_name b)) with (@None str).
  rewrite strip_prefix_app, trim_tidy, devices_go_other by done. cbn [app devices_go].
  rewrite trim_type by done.
  change (strip_prefix (lit "phy#") (lit "type " ++ ib_type b)) with (@None str).
  change (strip_prefix (lit "Interface ") (lit "type " ++ ib_type b)) with (@None str).
  by rewrite strip_prefix_app, trim_tidy, devices_go_other.
Qed.

Lemma devices_go_ifaces is_ rows p i t rest :
  Forall iface_ok is_ ->
  exists rows' i' t',
    devices_go rows (Some p) i t (concat (map iface_lines is_) ++ rest) = devices_go rows' (Some p) i' t' rest
    /\ flush_wifi_dev rows' (Some p) i' t'
       = flush_wifi_dev rows (Some p) i t
         ++ map (fun i => {| dev_ifname := ib_name i; dev_phy := p; dev_iftype := ib_type i |}) is_.
Proof.
  intros His. revert rows i t. induction His as [|b is_ Hb _ IH]; intros rows i t.
  { exists rows, i, t. by rewrite app_nil_r. }
  cbn [map concat]. rewrite <-app_assoc, devices_go_iface by done.
  destruct (IH (flush_wifi_dev rows (Some p) i t) (Some (ib_name b)) (Some (ib_type b)))
    as (rows' & i' & t' & Hgo & Hfl).
  exists rows', i', t'. split; [done|]. rewrite Hfl. cbn. by rewrite <-app_assoc.
Qed.

Lemma devices_go_phys bs rows p i t :
  Forall phy_ok bs ->
  devices_go rows p i t (concat (map phy_lines bs)) = flush_wifi_dev rows p i t ++ dev_rows bs.
Proof.
  intros Hbs. revert rows p i t. induction Hbs as [|b bs [[Hid _] His] _ IH]; intros rows p i t.
  { cbn. by rewrite app_nil_r. }
  cbn [map concat]. unfold phy_lines at 1. cbn [app devices_go].
  rewrite trim_phy, strip_prefix_app, trim_tidy by done.
  destruct (devices_go_ifaces (pb_ifaces b) (flush_wifi_dev rows p i t) (lit "phy" ++ pb_id b) None None
    (concat (map phy_lines bs)) His) as (rows' & i' & t' & -> & Hfl).
  rewrite IH, Hfl. unfold dev_rows. cbn [map concat]. by rewrite app_assoc.
Qed.

Ltac no_lf := apply (bool_decide_eq_true_1 _); reflexivity.

Lemma dev_lines_ok bs :
  Forall phy_ok bs -> Forall one_line (concat (map phy_lines bs)).
Proof.
  intros Hbs. apply Forall_concat, Forall_map. eapply Forall_impl; [exact Hbs|].
  intros b [[[Hne _] Hid] His]. unfold phy_lines. constructor.
  { apply one_line_app; [no_lf|done|done]. }
  apply Forall_concat, Forall_map. eapply Forall_impl; [exact His|].
  intros i ([[Hn1 _] Hn2] & [[Ht1 _] Ht2] & Hb & Ha). unfold iface_lines.
  assert (Hother : forall ls, Forall other_line ls -> Forall one_line ls).
  { intros ls H. eapply Forall_impl; [exact H|]. by intros l [? _]. }
  constructor; [by apply (one_line_app (TAB :: lit "Interface ")); [no_lf|..]|].
  apply Forall_app. split; [by apply Hother|].
  constructor; [by apply (one_line_app (TAB :: TAB :: lit "type ")); [no_lf|..]|by apply Hother].
Qed.

Lemma lines_render_dev bs : Forall phy_ok bs -> lines (render_dev bs) = concat (map phy_lines bs).
Proof.
  intros Hbs. unfold render_dev. rewrite <-(app_nil_r (concat (map (fun l => l ++ [LF]) _))).
  rewrite lines_concat by by apply dev_lines_ok. cbn. by rewrite app_nil_r.
Qed.

(** The device listing is read back exactly: every interface of every radio, in
    order, with its name, its radio and its type, whatever other lines are printed
    between them. *)
Theorem parse_wifi_devices_roundtrip bs :
  Forall phy_ok bs -> parse_wifi_devices (render_dev bs) = dev_rows bs.
Proof. intros Hbs. unfold parse_wifi_devices. by rewrite lines_render_dev, devices_go_phys. Qed.

Definition record_row (m : gmap str str) (d : WifiDev) : gmap str str := <[dev_ifname d := dev_phy d]> m.

Lemma iface_map_other ls p rest m :
  Forall other_line ls -> iface_map_go p (ls ++ rest) m = iface_map_go p rest m.
Proof.
  induction 1 as [|l ls [_ Hl] _ IH]; [done|]. cbn [app iface_map_go].
  rewrite !Forall_cons in Hl. destruct Hl as (-> & -> & _ & _). done.
Qed.

Lemma iface_map_iface p b rest m :
  iface_ok b ->
  iface_map_go (Some p) (iface_lines b ++ rest) m = iface_map_go (Some p) rest (<[ib_name b := p]> m).
Proof.
  intros ([Hn _] & [Ht _] & Hb & Ha). unfold iface_lines. cbn [app iface_map_go].
  rewrite trim_interface, <-app_assoc by done.
  change (strip_prefix (lit "phy#") (lit "Interface " ++ ib_name b)) with (@None str).
  rewrite strip_prefix_app, trim_tidy, iface_map_other by done. cbn [app iface_map_go].
  rewrite trim_type by done.
  change (strip_prefix (lit "phy#") (lit "type " ++ ib_type b)) with (@None str).
  change (strip_prefix (lit "Interface ") (lit "type " ++ ib_type b)) with (@None str).
  by rewrite iface_map_other.
Qed.

Lemma iface_map_phys bs p m :
  Forall phy_ok bs -> iface_map_go p (concat (map phy_lines bs)) m = foldl record_row m (dev_rows bs).
Proof.
  intros Hbs. revert p m. induction Hbs as [|b bs [[Hid _] His] _ IH]; intros p m; [done|].
  cbn [map concat]. unfold phy_lines at 1. cbn [app iface_map_go].
  rewrite trim_phy, strip_prefix_app, trim_tidy by done.
  unfold dev_rows. cbn [map concat]. rewrite foldl_app. fold (dev_rows bs). rewrite <-(IH (Some (lit "phy" ++ pb_id b))).
  unfold phy_rows. revert m. induction His as [|i is_ Hi _ IHi]; intros m; [done|].
  cbn [map concat foldl]. rewrite <-app_assoc, iface_map_iface by done. by rewrite IHi.
Qed.

Definition dev_names (bs : list PhyBlock) : list str := map dev_ifname (dev_rows bs).

Lemma record_rows_lookup rows m n :
  is_Some (foldl record_row m rows !! n) <-> n ∈ map dev_ifname rows \/ is_Some (m !! n).
Proof.
  revert m. induction rows as [|d rows IH]; intros m; cbn [foldl map].
  - split; [by right|]. intros [H|H]; [by apply elem_of_nil in H|done].
  - rewrite IH, elem_of_cons. unfold record_row. destruct (decide (n = dev_ifname d)) as [->|Hne].
    + rewrite lookup_insert_eq. naive_solver.
    + rewrite lookup_insert_ne by done. naive_solver.
Qed.

Lemma parse_iface_map_names bs n :
  Forall phy_ok bs -> (is_Some (parse_iface_to_phy_map (render_dev bs) !! n) <-> n ∈ dev_names bs).
Proof.
  intros Hbs. unfold parse_iface_to_phy_map. rewrite lines_render_dev, iface_map_phys by done.
  rewrite record_rows_lookup, lookup_empty. unfold dev_names. split; [|by left].
  intros [H|[? H]]; [done|done].
Qed.

(** ** The access-point interface *)

Section iw.
Context {X PE : Type}.
Variable dispatch : list str -> X -> X * result ExecOutput PE.
Variable transient : str -> PE.
(** What [iw] manages: the devices it lists, which listing does not change, and which
    hold an interface once adding it succeeded and lack it once deleting it did. *)
Variable devices : X -> list PhyBlock.
Hypothesis devices_ok : forall x, Forall phy_ok (devices x).
Hypothesis iw_dev : forall x, exists err,
  dispatch [lit "dev"] x
  = (x, Ok {| status_success := true; status_code := Some 0%Z;
              out_stdout := render_dev (devices x); out_stderr := err |}).
Hypothesis iw_add : forall sta ap x x' out,
  dispatch [lit "dev"; sta; lit "interface"; lit "add"; ap; lit "type"; lit "__ap"] x = (x', Ok out) ->
  status_success out = true -> ap ∈ dev_names (devices x').
Hypothesis iw_del : forall ap x x' out,
  dispatch [lit "dev"; ap; lit "del"] x = (x', Ok out) ->
  status_success out = true -> ap ∉ dev_names (devices x').

Lemma iw_dev_exists_spec n x :
  iw_dev_exists dispatch transient n x = (x, bool_decide (trim n <> [] /\ trim n ∈ dev_names (devices x))).
Proof.
  unfold iw_dev_exists, wifi_iface_to_phy_map, iw_output. destruct (iw_dev x) as [err ->].
  cbn [status_success out_stdout]. destruct (trim n) as [|c s] eqn:Hn; [done|].
  cbn [str_is_empty]. f_equal. apply bool_decide_ext. rewrite parse_iface_map_names by apply devices_ok.
  naive_solver.
Qed.

(** When creating the access-point interface reports success, the interface is
    there, and asking again changes nothing; when removing it reports success, it is
    gone.  (An empty name, or the name of the station's own interface, asks for
    nothing.) *)
Theorem ensure_ap_vif_correct sta ap x x' :
  let asked := trim sta <> [] /\ trim ap <> [] /\ trim sta <> trim ap in
  (ensure_ap_vif_present dispatch transient sta ap x = (x', Ok tt) ->
     (asked -> trim ap ∈ dev_names (devices x')
               /\ ensure_ap_vif_present dispatch transient sta ap x' = (x', Ok tt))
     /\ (~ asked -> x' = x))
  /\ (ensure_ap_vif_absent dispatch transient ap x = (x', Ok tt) -> trim ap <> [] ->
      trim ap ∉ dev_names (devices x')).
Proof.
  intros asked.
  assert (Hpresent : asked -> trim ap ∈ dev_names (devices x') ->
    ensure_ap_vif_present dispatch transient sta ap x' = (x', Ok tt)).
  { intros (Hs & Ha & Hne) Hin. unfold ensure_ap_vif_present. rewrite iw_dev_exists_spec, trim_idem.
    rewrite (bool_decide_true _ (conj Ha Hin)).
    by destruct (str_is_empty _ || _ || _). }
  split.
  - intros Hrun. unfold ensure_ap_vif_present in Hrun. rewrite iw_dev_exists_spec, trim_idem in Hrun.
    destruct (str_is_empty (trim sta) || str_is_empty (trim ap) || bool_decide (trim sta = trim ap)) eqn:Hask.
    { injection Hrun as ->. split; [|done]. intros (Hs & Ha & Hne). exfalso.
      rewrite bool_decide_false in Hask by done. by destruct (trim sta), (trim ap). }
    assert (Hasked : asked).
    { apply orb_false_iff in Hask as [[H1 H2]%orb_false_iff H3%bool_decide_eq_false].
      split_and!; [by intros Heq; rewrite Heq in H1|by intros Heq; rewrite Heq in H2|done]. }
    split; [|done]. intros _. assert (Hin : trim ap ∈ dev_names (devices x')); [|by auto].
    case_bool_decide as Hd; [injection Hrun as <-; tauto|].
    unfold iw_output in Hrun. destruct (dispatch _ x) as [x1 [out|e]] eqn:Hdisp; [|done].
    destruct (status_success out) eqn:Hok; [|done]. injection Hrun as <-. by eapply iw_add.
  - intros Hrun Ha. unfold ensure_ap_vif_absent in Hrun. rewrite iw_dev_exists_spec, trim_idem in Hrun.
    destruct (str_is_empty (trim ap)) eqn:He; [by destruct (trim ap)|].
    case_bool_decide as Hd; cbn [negb] in Hrun; [|injection Hrun as <-; tauto].
    unfold iw_output in Hrun. destruct (dispatch _ x) as [x1 [out|e]] eqn:Hdisp; [|done].
    destruct (status_success out) eqn:Hok; [|done]. injection Hrun as <-. by eapply iw_del.
Qed.
End iw.

(** ** Frequencies *)

Lemma in_range_true lo hi c : lo <= c -> c <= hi -> in_range lo hi c = true.
Proof. intros ? ?. unfold in_range. by rewrite !(proj2 (N.leb_le _ _)). Qed.

Lemma in_range_false lo hi c : c < lo \/ hi < c -> in_range lo hi c = false.
Proof. unfold in_range. rewrite andb_false_iff, !N.leb_gt. tauto. Qed.

Lemma freq_offset base c : (base + 5 * c - base) / 5 = c.
Proof. replace (base + 5 * c - base) with (c * 5) by lia. by apply N.div_mul. Qed.

(** Channel numbers and centre frequencies correspond: the centre frequency of
    each channel of the three bands maps back to the channel, and every frequency has
    a band name. *)
Theorem freq_to_channel_correct c :
  (1 <= c <= 13 -> freq_to_channel (2407 + 5 * c) = Some c /\ freq_to_band (2407 + 5 * c) = Some (lit "bg"))
  /\ (c <= 179 -> freq_to_channel (5000 + 5 * c) = Some c /\ freq_to_band (5000 + 5 * c) = Some (lit "a"))
  /\ (1 <= c <= 233 -> freq_to_channel (5950 + 5 * c) = Some c /\ freq_to_band (5950 + 5 * c) = Some (lit "6GHz")).
Proof.
  unfold freq_to_channel, freq_to_band. split_and!; intros Hc.
  - rewrite in_range_true, freq_offset by lia. split; [done|].
    by rewrite (proj2 (N.ltb_lt _ _)) by lia.
  - rewrite in_range_false by lia. rewrite (proj2 (N.eqb_neq _ _)) by lia.
    rewrite in_range_true, freq_offset by lia. split; [done|].
    rewrite (proj2 (N.ltb_ge _ _)), (proj2 (N.leb_le _ _)), (proj2 (N.ltb_lt _ _)) by lia. done.
  - rewrite in_range_false by lia. rewrite (proj2 (N.eqb_neq _ _)) by lia.
    rewrite in_range_false, in_range_true, freq_offset by lia. split; [done|].
    rewrite (proj2 (N.ltb_ge _ 3000)), (proj2 (N.leb_le 3000 _)), (proj2 (N.ltb_ge _ 5900)),
      (proj2 (N.leb_le 5900 _)) by lia. done.
Qed.

(** The list of interface modes is not closed by the next heading: [iw] indents every
    heading of a radio's description, and only a line that is not indented ends the
    list, so the bullets of all the sections that follow are taken for modes. *)
Theorem interface_modes_run_on ls :
  Forall (fun l => starts_indented l = true /\ trim l <> lit "Supported interface modes:") ls ->
  modes_go true ls = omap (fun l => trim <$> strip_prefix (lit "*") (trim l)) ls.
Proof.
  induction 1 as [|l ls [Hi Hh] _ IH]; [done|]. rewrite omap_cons_app. cbn [modes_go].
  rewrite bool_decide_false, Hi, orb_true_r, IH by done. by destruct (strip_prefix _ _).
Qed.

(** A channel listed with a fraction, which the link parser accepts, gives no band. *)
Theorem fractional_channels_ignored :
  parse_freq_mhz (lit " 5180.0") = Some 5180
  /\ parse_phy_band_support (lit "Frequencies:" ++ [LF; TAB] ++ lit "* 5180.0 MHz [36] (22.0 dBm)") = no_bands.
Proof. split; by vm_compute. Qed.

(** ** Witnesses *)

Definition sample_devices (ap0 : bool) : list PhyBlock :=
  [{| pb_id := lit "0";
      pb_ifaces :=
        (if ap0 then [{| ib_name := lit "ap0"; ib_before := []; ib_type := lit "AP"; ib_after := [] |}] else [])
        ++ [{| ib_name := lit "wlan0"; ib_before := [TAB :: TAB :: lit "ifindex 3"]; ib_type := lit "managed";
               ib_after := [TAB :: TAB :: lit "channel 36 (5180 MHz)"] |}] |}].

Ltac solve_word := split; [split_and!; [discriminate|by intros ? [= <-]..]|split; [no_lf|vm_compute; discriminate]].

Lemma sample_devices_ok ap0 : Forall phy_ok (sample_devices ap0).
Proof.
  constructor; [|constructor]. split; [solve_word|].
  assert (Hw : iface_ok {| ib_name := lit "wlan0"; ib_before := [TAB :: TAB :: lit "ifindex 3"];
    ib_type := lit "managed"; ib_after := [TAB :: TAB :: lit "channel 36 (5180 MHz)"] |}).
  { split_and!; [solve_word|solve_word|..]; (constructor; [|constructor]);
      (split; [split; [no_lf|vm_compute; discriminate]|repeat constructor]). }
  assert (Hap : iface_ok {| ib_name := lit "ap0"; ib_before := []; ib_type := lit "AP"; ib_after := [] |}).
  { split_and!; [solve_word|solve_word|by constructor|by constructor]. }
  destruct ap0; repeat (apply Forall_cons; split; [assumption|]); apply Forall_nil_2.
Qed.

Definition exec_ok (out : str) : ExecOutput :=
  {| status_success := true; status_code := Some 0%Z; out_stdout := out; out_stderr := [] |}.

(** A host on which the one interface [ap0] can be added and removed. *)
Definition sample_dispatch (args : list str) (ap0 : bool) : bool * result ExecOutput str :=
  match args with
  | [_] => (ap0, Ok (exec_ok (render_dev (sample_devices ap0))))
  | [_; _; _; _; ap; _; _] =>
      if bool_decide (ap = lit "ap0") then (true, Ok (exec_ok [])) else (ap0, Err (lit "refused"))
  | [_; ap; _] =>
      if bool_decide (ap = lit "ap0") then (false, Ok (exec_ok [])) else (ap0, Err (lit "refused"))
  | _ => (ap0, Err (lit "usage"))
  end.

Lemma parse_wifi_devices_roundtrip_witness :
  parse_wifi_devices (render_dev (sample_devices true))
  = [{| dev_ifname := lit "ap0"; dev_phy := lit "phy0"; dev_iftype := lit "AP" |};
     {| dev_ifname := lit "wlan0"; dev_phy := lit "phy0"; dev_iftype := lit "managed" |}].
Proof. exact (parse_wifi_devices_roundtrip (sample_devices true) (sample_devices_ok true)). Defined.

Lemma ensure_ap_vif_correct_witness :
  lit "ap0" ∈ dev_names (sample_devices true) /\ lit "ap0" ∉ dev_names (sample_devices false).
Proof.
  assert (Hadd : forall sta ap x x' out,
    sample_dispatch [lit "dev"; sta; lit "interface"; lit "add"; ap; lit "type"; lit "__ap"] x = (x', Ok out) ->
    status_success out = true -> ap ∈ dev_names (sample_devices x')).
  { intros sta ap x x' out. cbn. case_bool_decide as Hap; [|done]. intros [= <- _] _. subst ap.
    apply (bool_decide_eq_true_1 _). reflexivity. }
  assert (Hdel : forall ap x x' out, sample_dispatch [lit "dev"; ap; lit "del"] x = (x', Ok out) ->
    status_success out = true -> ap ∉ dev_names (sample_devices x')).
  { intros ap x x' out. cbn. case_bool_decide as Hap; [|done]. intros [= <- _] _. subst ap.
    apply (bool_decide_eq_true_1 _). reflexivity. }
  pose proof (fun sta ap x x' => ensure_ap_vif_correct sample_dispatch (fun s => s) sample_devices sample_devices_ok
    (fun x => ex_intro _ [] eq_refl) Hadd Hdel sta ap x x') as Hmain.
  split.
  - destruct (Hmain (lit "wlan0") (lit "ap0") false true) as [H _].
    destruct (H ltac:(by vm_compute)) as [H' _].
    apply H'. split_and!; vm_compute; discriminate.
  - destruct (Hmain (lit "wlan0") (lit "ap0") true false) as [_ H].
    apply H; [by vm_compute|vm_compute; discriminate].
Defined.
