(* ===== verification/StableId.v ===== *)
(** * Stable ids of USB volumes ([plugins/org.evoframework.storage.usb/src/stable_id.rs])

    The name a volume is mounted under: a ladder of sources, each cleaned up, with a
    partition suffix and a suffix against collisions. *)

From S2P Require Import Prelude.
Local Open Scope N_scope.

(** ** Data *)

(** [IdSource] *)
Inductive IdSource := OperatorAlias | FsLabel | VendorModel | ModelOnly | Synthesized.

Definition wire_str (s : IdSource) : str :=
  match s with
  | OperatorAlias => lit "operator_alias"
  | FsLabel => lit "fs_label"
  | VendorModel => lit "vendor_model"
  | ModelOnly => lit "model_only"
  | Synthesized => lit "synthesized"
  end.

(** [DerivationInput] *)
Record DerivationInput := {
  label : option str;
  vendor : option str;
  model : option str;
  serial_short : option str;
  partition_index : N;
  partition_count : N;
  partuuid : option str;
}.

(** [DerivationContext] *)
Record DerivationContext := { operator_alias : option str; in_use_stable_ids : list str }.

(** [DerivedId] *)
Record DerivedId := { stable_id : str; display_name : str; id_source : IdSource }.

(** ** Operations *)

Definition HYPHEN : char := 45.
Definition UNDERSCORE : char := 95.

Definition kept (c : char) : bool := is_ascii_alphanumeric c || (c =? UNDERSCORE).

(** The loop of [sanitise]; [out] is built in reverse. *)
Fixpoint sanitise_go (out : str) (last_hyphen : bool) (input : str) : str :=
  match input with
  | [] => out
  | ch :: input' =>
      if kept ch then sanitise_go (ch :: out) false input'
      else if negb last_hyphen && negb (str_is_empty out) then sanitise_go (HYPHEN :: out) true input'
      else sanitise_go out last_hyphen input'
  end.

Definition is_hyphen (c : char) : bool := c =? HYPHEN.

(** [sanitise] *)
Definition sanitise (input : str) : str :=
  let out := rev (drop_while is_hyphen (sanitise_go [] false input)) in
  let out := drop_while is_hyphen out in
  let out := take 32 out in
  match out with
  | first :: rest => if negb (is_ascii_alphanumeric first) then rest else out
  | [] => []
  end.

(** [with_partition_suffix] *)
Definition with_partition_suffix (base : str) (i : DerivationInput) : str :=
  if 1 <? partition_count i then base ++ lit "-p" ++ dec (partition_index i) else base.

Definition numbered (candidate : str) (n : N) : str := candidate ++ lit "-" ++ dec n.

(** The loop of [deconflict], [fuel] turns before the bound of 1024. *)
Fixpoint deconflict_go (candidate : str) (in_use : list str) (n : N) (fuel : nat) : str :=
  match fuel with
  | O => numbered candidate n
  | S fuel' =>
      if negb (str_in (numbered candidate n) in_use) then numbered candidate n
      else if 1024 <? n + 1 then numbered candidate (n + 1)
      else deconflict_go candidate in_use (n + 1) fuel'
  end.

(** [deconflict]: from 2, at most 1023 turns. *)
Definition deconflict (candidate : str) (in_use : list str) : str :=
  if negb (str_in candidate in_use) then candidate
  else deconflict_go candidate in_use 2 1023.

(** What each rung returns. *)
Definition finish_id (base : str) (src : IdSource) (i : DerivationInput) (c : DerivationContext) : DerivedId :=
  {| stable_id := deconflict (with_partition_suffix base i) (in_use_stable_ids c);
     display_name := base; id_source := src |}.

(** A rung: a token that is not empty once sanitised. *)
Definition rung (token : option str) : option str :=
  t ← token; let s := sanitise t in if str_is_empty s then None else Some s.

Definition vendor_present (i : DerivationInput) : bool :=
  match vendor i with
  | Some v => negb (str_is_empty (trim v)) && negb (eq_ignore_ascii_case (trim v) (lit "usb"))
  | None => false
  end.

(** The vendor-model rung. *)
Definition vendor_model (i : DerivationInput) : option str :=
  if vendor_present i then
    m ← model i; v ← vendor i;
    if negb (str_is_empty (sanitise v)) && negb (str_is_empty (sanitise m))
    then Some (sanitise v ++ lit "-" ++ sanitise m) else None
  else None.

(** The last six characters of the serial number, padded with zeros on the left. *)
Definition serial_six (serial : option str) : str :=
  match serial with
  | None => lit "000000"
  | Some s =>
      let s := filter (fun c => is_ascii_alphanumeric c = true) (to_ascii_lowercase s) in
      let n := length s in
      if bool_decide (6 <= n)%nat then drop (n - 6) s else replicate (6 - n) 48 ++ s
  end.

Definition vendor_token (i : DerivationInput) : str :=
  to_ascii_lowercase
    (default (lit "usb")
      (v ← vendor i;
       let v := trim v in
       if str_is_empty v || eq_ignore_ascii_case v (lit "usb") then None else rung (Some v))).

Definition synthesized (i : DerivationInput) : str :=
  sanitise (lit "unlabelled-" ++ vendor_token i ++ lit "-" ++ serial_six (serial_short i)).

(** [derive] *)
Definition derive (i : DerivationInput) (c : DerivationContext) : DerivedId :=
  match rung (operator_alias c) with
  | Some s => finish_id s OperatorAlias i c
  | None =>
      match rung (label i) with
      | Some s => finish_id s FsLabel i c
      | None =>
          match vendor_model i with
          | Some base => finish_id base VendorModel i c
          | None =>
              match rung (model i) with
              | Some s => finish_id s ModelOnly i c
              | None => finish_id (synthesized i) Synthesized i c
              end
          end
      end
  end.

(** ** Tokens *)

Definition allowed (c : char) : bool := kept c || is_hyphen c.

Lemma sanitise_go_app out b s : exists pre, sanitise_go out b s = pre ++ out /\ Forall (fun c => allowed c = true) pre.
Proof.
  revert out b. induction s as [|ch s IH]; intros out b; cbn [sanitise_go]; [by exists []|].
  destruct (kept ch) eqn:Hk; [|destruct (_ && _)].
  - destruct (IH (ch :: out) false) as (pre & -> & Hpre). exists (pre ++ [ch]).
    rewrite <-app_assoc. split; [done|]. apply Forall_app. split; [done|]. constructor; [|done].
    unfold allowed. by rewrite Hk.
  - destruct (IH (HYPHEN :: out) true) as (pre & -> & Hpre). exists (pre ++ [HYPHEN]).
    rewrite <-app_assoc. split; [done|]. apply Forall_app. split; [done|]. by constructor.
  - by destruct (IH out b) as (pre & -> & Hpre); exists pre.
Qed.

(** The first character kept is the first of the output. *)
Lemma sanitise_go_first b s :
  sanitise_go [] b s = [] \/ exists pre c, sanitise_go [] b s = pre ++ [c] /\ kept c = true /\ c ∈ s.
Proof.
  revert b. induction s as [|ch s IH]; intros b; cbn [sanitise_go]; [by left|].
  destruct (kept ch) eqn:Hk.
  - right. destruct (sanitise_go_app [ch] false s) as (pre & -> & _). exists pre, ch.
    split_and!; [done|done|apply list_elem_of_here].
  - rewrite andb_false_r. destruct (IH b) as [->|(pre & c & -> & Hc & Hin)]; [by left|right].
    exists pre, c. split_and!; [done|done|by apply list_elem_of_further].
Qed.

Lemma drop_while_snoc p pre c : p c = false -> exists pre', drop_while p (pre ++ [c]) = pre' ++ [c].
Proof.
  intros Hc. induction pre as [|d pre [pre' IH]]; cbn [app drop_while].
  - exists []. by rewrite Hc.
  - destruct (p d); [by exists pre'|by exists (d :: pre)].
Qed.

Lemma kept_not_hyphen c : kept c = true -> is_hyphen c = false.
Proof. unfold is_hyphen. intros Hk. destruct (N.eqb_spec c HYPHEN) as [->|]; [|done]. by vm_compute in Hk. Qed.

Lemma drop_while_Forall P p s : Forall P s -> Forall P (drop_while p s).
Proof.
  induction 1 as [|c s Hc Hs IH]; [done|]. cbn [drop_while]. destruct (p c); [done|by constructor].
Qed.

(** What [sanitise] returns: nothing, a run that starts with the first kept character
    of the input, or such a run without that character when it is no letter or digit. *)
Lemma sanitise_shape s :
  sanitise s = [] \/ exists c rest, c ∈ s /\ kept c = true /\ Forall (fun d => allowed d = true) rest
    /\ (length rest <= 31)%nat
    /\ sanitise s = (if is_ascii_alphanumeric c then c :: rest else rest)
    /\ exists pre, sanitise_go [] false s = pre ++ [c].
Proof.
  unfold sanitise. destruct (sanitise_go_app [] false s) as (all & Hall & Hok). rewrite app_nil_r in Hall.
  destruct (sanitise_go_first false s) as [Heq|(pre & c & Heq & Hc & Hin)]; rewrite Heq; [by left|right].
  destruct (drop_while_snoc is_hyphen pre c (kept_not_hyphen _ Hc)) as [pre' Hpre]. rewrite Hpre.
  assert (Hrest : Forall (fun d => allowed d = true) (rev pre')).
  { apply Forall_rev. assert (Hd : Forall (fun d => allowed d = true) (drop_while is_hyphen (pre ++ [c]))).
    { apply drop_while_Forall. by rewrite <-Heq, Hall. }
    rewrite Hpre in Hd. by apply Forall_app in Hd as [? _]. }
  exists c, (take 31 (rev pre')). rewrite rev_app_distr. cbn [rev app drop_while].
  rewrite (kept_not_hyphen _ Hc). cbn [take].
  split_and!; [done|done|by apply Forall_take|rewrite length_take; lia| |by eexists].
  by destruct (is_ascii_alphanumeric c).
Qed.

(** The documented form of a token. *)
Definition is_token (s : str) : Prop :=
  (exists c rest, s = c :: rest /\ is_ascii_alphanumeric c = true)
  /\ Forall (fun d => allowed d = true) s /\ (length s <= 32)%nat.

Lemma sanitise_allowed s : Forall (fun d => allowed d = true) (sanitise s) /\ (length (sanitise s) <= 32)%nat.
Proof.
  destruct (sanitise_shape s) as [->|(c & rest & _ & Hc & Hrest & Hlen & -> & _)]; [by split; [|simpl; lia]|].
  assert (Ha : allowed c = true) by (unfold allowed; by rewrite Hc).
  destruct (is_ascii_alphanumeric c); cbn [length]; split; (done || lia || by constructor).
Qed.

(** What is left of a name after cleaning it up is nothing or a token of the
    documented form (a letter or digit, then letters, digits, underscores and hyphens,
    at most 32 in all), for every name without an underscore; and for every name
    whatever, only the documented characters and at most 32 of them. *)
Theorem sanitise_token s :
  (Forall (fun d => allowed d = true) (sanitise s) /\ (length (sanitise s) <= 32)%nat)
  /\ (UNDERSCORE ∉ s -> sanitise s = [] \/ is_token (sanitise s)).
Proof.
  split; [apply sanitise_allowed|]. intros Hno.
  destruct (sanitise_allowed s) as [Hall Hlen].
  destruct (sanitise_shape s) as [Heq|(c & rest & Hin & Hc & _ & _ & Heq & _)]; [by left|right].
  assert (Hal : is_ascii_alphanumeric c = true).
  { unfold kept in Hc. apply orb_true_iff in Hc as [?|Hu]; [done|]. apply N.eqb_eq in Hu. congruence. }
  rewrite Hal in Heq. split_and!; [|done|done]. by exists c, rest.
Qed.

(** A name that begins with underscores escapes the rule for the first character. *)
Theorem sanitise_underscores :
  sanitise (lit "__a") = lit "_a" /\ sanitise (lit "_-a") = lit "-a"
  /\ ~ is_token (sanitise (lit "__a")) /\ ~ is_token (sanitise (lit "_-a")).
Proof.
  split_and!; [by vm_compute..| |]; intros ((c & rest & Heq & Hc) & _);
    vm_compute in Heq; injection Heq as <- _; by vm_compute in Hc.
Qed.

(** ** Collisions *)

Lemma deconflict_go_spec candidate in_use fuel n :
  N.of_nat fuel + n = 1025 ->
  deconflict_go candidate in_use n fuel ∉ in_use
  \/ forall m, n <= m <= 1024 -> numbered candidate m ∈ in_use.
Proof.
  revert n. induction fuel as [|fuel IH]; intros n Hn; cbn [deconflict_go].
  { right. intros m Hm. lia. }
  destruct (str_in (numbered candidate n) in_use) eqn:Hin; cbn [negb].
  - apply str_in_spec in Hin. destruct (N.ltb_spec 1024 (n + 1)) as [Hlast|Hmore].
    + right. intros m Hm. by replace m with n by lia.
    + destruct (IH (n + 1)) as [H|H]; [lia|by left|]. right. intros m Hm.
      destruct (decide (m = n)) as [->|]; [done|]. apply H. lia.
  - left. intros H. apply str_in_spec in H. congruence.
Qed.

#[export] Instance numbered_inj candidate : Inj (=) (=) (numbered candidate).
Proof. intros m n Heq. unfold numbered in Heq. by apply app_inv_head, app_inv_head, dec_inj in Heq. Qed.

(** Every name the loop tries. *)
Definition attempts (candidate : str) : list str :=
  candidate :: map (fun k => numbered candidate (N.of_nat k)) (seq 2 1023).

Lemma attempts_NoDup candidate : NoDup (attempts candidate).
Proof.
  constructor.
  - intros (k & Heq & _)%list_elem_of_fmap. unfold numbered in Heq.
    apply (f_equal length) in Heq. rewrite !length_app in Heq. simpl in Heq. lia.
  - apply (NoDup_fmap_2 (fun k => numbered candidate (N.of_nat k))), NoDup_seq.
Qed.

Lemma deconflict_fresh candidate in_use :
  (length in_use < 1024)%nat -> deconflict candidate in_use ∉ in_use.
Proof.
  intros Hlen. unfold deconflict. destruct (str_in candidate in_use) eqn:Hin; cbn [negb].
  - destruct (deconflict_go_spec candidate in_use 1023 2) as [H|H]; [done|done|]. exfalso.
    assert (Hsub : attempts candidate ⊆+ in_use).
    { apply NoDup_submseteq; [apply attempts_NoDup|]. intros x [->|Hx]%elem_of_cons.
      - by apply str_in_spec.
      - apply list_elem_of_fmap in Hx as (k & -> & Hk). apply elem_of_seq in Hk. apply H. lia. }
    apply submseteq_length in Hsub. unfold attempts in Hsub. cbn [length] in Hsub.
    rewrite length_map, length_seq in Hsub. lia.
  - intros H. apply str_in_spec in H. congruence.
Qed.

Lemma deconflict_go_prefix candidate in_use n fuel :
  exists m, deconflict_go candidate in_use n fuel = numbered candidate m.
Proof.
  revert n. induction fuel as [|fuel IH]; intros n; cbn [deconflict_go]; [by eexists|].
  destruct (negb _); [by eexists|]. destruct (_ <? _); [by eexists|apply IH].
Qed.

Lemma deconflict_allowed candidate in_use :
  candidate <> [] -> Forall (fun d => allowed d = true) candidate ->
  deconflict candidate in_use <> [] /\ Forall (fun d => allowed d = true) (deconflict candidate in_use).
Proof.
  intros Hne Hall. unfold deconflict. destruct (negb _); [done|].
  destruct (deconflict_go_prefix candidate in_use 2 1023) as [m ->]. unfold numbered.
  split; [by destruct candidate|]. apply Forall_app. split; [done|]. apply Forall_app. split; [by constructor|].
  eapply Forall_impl; [apply dec_digits|]. intros d Hd. unfold allowed, kept, is_ascii_alphanumeric.
  rewrite Hd. by rewrite ?orb_true_r.
Qed.

(** ** The derivation *)

Lemma rung_ok t s :
  rung t = Some s -> s <> [] /\ Forall (fun d => allowed d = true) s.
Proof.
  unfold rung. destruct t as [t|]; [|done]. cbn. pose proof (sanitise_allowed t) as [Ha _].
  destruct (sanitise t) as [|c s']; [done|]. intros [= <-]. done.
Qed.

Lemma vendor_model_ok i base :
  vendor_model i = Some base -> base <> [] /\ Forall (fun d => allowed d = true) base.
Proof.
  unfold vendor_model. destruct (vendor_present i); [|done].
  destruct (model i) as [m|], (vendor i) as [v|]; try done. cbn.
  pose proof (sanitise_allowed v) as [Hv _]. pose proof (sanitise_allowed m) as [Hm _].
  destruct (sanitise v) as [|c s]; [done|]. destruct (sanitise m); [done|]. intros [= <-].
  split; [done|]. apply Forall_cons in Hv as [? ?]. constructor; [done|]. apply Forall_app. by split; [|constructor].
Qed.

Lemma sanitise_starts c s : is_ascii_alphanumeric c = true -> exists rest, sanitise (c :: s) = c :: rest.
Proof.
  intros Hc. assert (Hk : kept c = true) by (unfold kept; by rewrite Hc).
  unfold sanitise. cbn [sanitise_go]. rewrite Hk.
  destruct (sanitise_go_app [c] false s) as (pre & -> & _).
  destruct (drop_while_snoc is_hyphen pre c (kept_not_hyphen _ Hk)) as [pre' ->].
  rewrite rev_app_distr. cbn [rev app drop_while]. rewrite (kept_not_hyphen _ Hk). cbn [take].
  rewrite Hc. by eexists.
Qed.

Lemma synthesized_ok i : synthesized i <> [] /\ Forall (fun d => allowed d = true) (synthesized i).
Proof.
  split; [|apply sanitise_allowed]. unfold synthesized.
  destruct (sanitise_starts 117 (lit "nlabelled-" ++ vendor_token i ++ lit "-" ++ serial_six (serial_short i)))
    as [rest Heq]; [done|].
  intros H. change (lit "unlabelled-") with (117 :: lit "nlabelled-") in H. cbn [app] in H.
  by rewrite Heq in H.
Qed.

Lemma suffix_allowed base i :
  base <> [] -> Forall (fun d => allowed d = true) base ->
  with_partition_suffix base i <> [] /\ Forall (fun d => allowed d = true) (with_partition_suffix base i).
Proof.
  intros Hne Hall. unfold with_partition_suffix. destruct (1 <? partition_count i); [|done].
  split; [by destruct base|]. apply Forall_app. split; [done|]. apply Forall_app. split; [by repeat constructor|].
  eapply Forall_impl; [apply dec_digits|]. intros d Hd. unfold allowed, kept, is_ascii_alphanumeric.
  rewrite Hd. by rewrite ?orb_true_r.
Qed.

(** The rung a derivation ends on, and its base name. *)
Definition chosen (i : DerivationInput) (c : DerivationContext) (base : str) (src : IdSource) : Prop :=
  match src with
  | OperatorAlias => rung (operator_alias c) = Some base
  | FsLabel => rung (operator_alias c) = None /\ rung (label i) = Some base
  | VendorModel => rung (operator_alias c) = None /\ rung (label i) = None /\ vendor_model i = Some base
  | ModelOnly => rung (operator_alias c) = None /\ rung (label i) = None /\ vendor_model i = None
                 /\ rung (model i) = Some base
  | Synthesized => rung (operator_alias c) = None /\ rung (label i) = None /\ vendor_model i = None
                   /\ rung (model i) = None /\ base = synthesized i
  end.

Lemma derive_chosen i c :
  exists base src, chosen i c base src /\ derive i c = finish_id base src i c.
Proof.
  unfold derive. destruct (rung (operator_alias c)) as [s|] eqn:H1; [by exists s, OperatorAlias|].
  destruct (rung (label i)) as [s|] eqn:H2; [by exists s, FsLabel|].
  destruct (vendor_model i) as [s|] eqn:H3; [by exists s, VendorModel|].
  destruct (rung (model i)) as [s|] eqn:H4; [by exists s, ModelOnly|].
  by exists (synthesized i), Synthesized.
Qed.

Lemma chosen_ok i c base src : chosen i c base src -> base <> [] /\ Forall (fun d => allowed d = true) base.
Proof.
  destruct src; cbn [chosen]; intros H; destruct_and?; subst;
    first [by eapply rung_ok|by eapply vendor_model_ok|apply synthesized_ok].
Qed.

(** Every volume, whatever its descriptors hold, gets a name that can serve as one
    component of a path: it is not empty and has only letters, digits, underscores and
    hyphens, so no separator, no dot and no blank. *)
Theorem derive_safe_name i c :
  stable_id (derive i c) <> [] /\ Forall (fun d => allowed d = true) (stable_id (derive i c)).
Proof.
  destruct (derive_chosen i c) as (base & src & Hch & ->). apply chosen_ok in Hch as [Hne Hall].
  destruct (suffix_allowed base i Hne Hall) as [Hne' Hall']. by apply deconflict_allowed.
Qed.

(** Two volumes never share a name: with fewer than 1024 names in use, the name
    derived is none of them, and it is the plain name of the first rung of the ladder
    that gives one (alias, label, vendor and model, model, synthesized) whenever that
    one is free. *)
Theorem derive_unique i c :
  (length (in_use_stable_ids c) < 1024)%nat ->
  stable_id (derive i c) ∉ in_use_stable_ids c
  /\ chosen i c (display_name (derive i c)) (id_source (derive i c))
  /\ (with_partition_suffix (display_name (derive i c)) i ∉ in_use_stable_ids c ->
      stable_id (derive i c) = with_partition_suffix (display_name (derive i c)) i).
Proof.
  intros Hlen. destruct (derive_chosen i c) as (base & src & Hch & ->). cbn [finish_id stable_id display_name id_source].
  split_and!; [by apply deconflict_fresh|done|]. intros Hno. unfold deconflict.
  destruct (str_in _ _) eqn:Hin; [by apply str_in_spec in Hin|done].
Qed.

(** ** What the mount helper accepts ([dist/bin/evo-usb-mount]) *)

(** [^[A-Za-z0-9][A-Za-z0-9_-]{0,31}(-p[0-9]+)?$] *)
Definition token_ok (s : str) : bool :=
  match s with
  | c :: _ => is_ascii_alphanumeric c && forallb allowed s && (N.of_nat (length s) <=? 32)
  | [] => false
  end.
Definition strip_partition (s : str) : option str :=
  let digits := take_while is_ascii_digit (rev s) in
  if str_is_empty digits then None
  else strip_suffix (lit "-p") (take (length s - length digits) s).
Definition mountable (s : str) : bool :=
  token_ok s || match strip_partition s with Some t => token_ok t | None => false end.

Definition no_descriptors : DerivationInput :=
  {| label := None; vendor := None; model := None; serial_short := None; partition_index := 1;
     partition_count := 1; partuuid := None |}.
Definition nothing_in_use : DerivationContext := {| operator_alias := None; in_use_stable_ids := [] |}.

(** A long vendor and model, a second volume with a label of 32 characters, and a label
    that begins with two underscores get names the mount helper refuses. *)
Theorem derive_not_mountable :
  let named v m l := {| label := l; vendor := v; model := m; serial_short := None; partition_index := 1;
                        partition_count := 1; partuuid := None |} in
  let l32 := lit "abcdefghijklmnopqrstuvwxyz012345" in
  mountable (stable_id (derive (named (Some (lit "Western_Digital")) (Some (lit "My_Passport_Ultra_25E2")) None)
                          nothing_in_use)) = false
  /\ mountable (stable_id (derive (named None None (Some l32))
       {| operator_alias := None; in_use_stable_ids := [l32] |})) = false
  /\ mountable (stable_id (derive (named None None (Some (lit "__music"))) nothing_in_use)) = false
  /\ mountable (stable_id (derive (named None None (Some (lit "music"))) nothing_in_use)) = true.
Proof. by vm_compute. Qed.

(** With every descriptor missing the name is not the documented [unlabelled-usb]. *)
Example derive_nothing : stable_id (derive no_descriptors nothing_in_use) = lit "unlabelled-usb-000000".
Proof. by vm_compute. Qed.

Definition one_in_use : DerivationContext :=
  {| operator_alias := Some (lit "My Music"); in_use_stable_ids := [lit "My-Music"] |}.

Lemma one_in_use_small : (length (in_use_stable_ids one_in_use) < 1024)%nat.
Proof. cbn [length in_use_stable_ids one_in_use]. lia. Qed.

Lemma derive_unique_witness :
  stable_id (derive no_descriptors one_in_use) ∉ in_use_stable_ids one_in_use.
Proof. exact (proj1 (derive_unique no_descriptors one_in_use one_in_use_small)). Defined.
