(* ===== verification/NegativeCache.v ===== *)
(** * Artwork negative cache ([crates/evo-device-audio-http/src/artwork_negative_cache.rs])

    A bounded map of artwork misses with a time to live, evicting the oldest keys.
    The lock makes every operation atomic; clock readings are arguments. *)

From stdpp Require Import gmap.
From S2P Require Import Prelude.
Local Open Scope N_scope.

(** ** Data *)

Definition DEFAULT_TTL : N := 120000.
Definition DEFAULT_CAPACITY : N := 50000.

(** [Key] *)
Abbreviation Key := (str * str * str)%type.

(** [NegativeEntry]; instants are in milliseconds. *)
Record NegativeEntry := {
  status : str;
  detail : str;
  provider_id : option str;
  expires_at : N;
}.

Definition is_fresh (now : N) (e : NegativeEntry) : bool := now <? expires_at e.

(** [NegativeCache] with its [Inner] *)
Record NegativeCache := {
  inner_map : gmap Key NegativeEntry;
  inner_order : list Key;
  ttl : N;
  capacity : N;
}.

(** [with_tunables], [new] *)
Definition with_tunables (t c : N) : NegativeCache :=
  {| inner_map := ∅; inner_order := []; ttl := t; capacity := N.max c 1 |}.
Definition new : NegativeCache := with_tunables DEFAULT_TTL DEFAULT_CAPACITY.

Definition set_inner (m : gmap Key NegativeEntry) (o : list Key) (c : NegativeCache) : NegativeCache :=
  {| inner_map := m; inner_order := o; ttl := ttl c; capacity := capacity c |}.

Definition len (c : NegativeCache) : N := N.of_nat (size (inner_map c)).
Definition is_empty (c : NegativeCache) : bool := len c =? 0.

Definition without (k : Key) (o : list Key) : list Key := filter (fun k' => k' <> k) o.

(** [get] *)
Definition get (now : N) (k : Key) (c : NegativeCache) : NegativeCache * option NegativeEntry :=
  match inner_map c !! k with
  | None => (c, None)
  | Some e =>
      if is_fresh now e then (c, Some e)
      else (set_inner (delete k (inner_map c)) (without k (inner_order c)) c, None)
  end.

(** The [while] loop of [put_with_ttl]. *)
Fixpoint evict (cap : N) (m : gmap Key NegativeEntry) (o : list Key) : gmap Key NegativeEntry * list Key :=
  match o with
  | [] => (m, [])
  | k :: o' => if cap <=? N.of_nat (size m) then evict cap (delete k m) o' else (m, o)
  end.

(** What [put_with_ttl] does before it inserts. *)
Definition make_room (now2 : N) (k : Key) (c : NegativeCache) : gmap Key NegativeEntry * list Key :=
  if bool_decide (is_Some (inner_map c !! k)) then (inner_map c, without k (inner_order c))
  else if capacity c <=? len c then
    let live := filter (fun ke => is_fresh now2 ke.2 = true) (inner_map c) in
    evict (capacity c) live (filter (fun k' => is_Some (live !! k')) (inner_order c))
  else (inner_map c, inner_order c).

(** [put_with_ttl]: the clock is read twice. *)
Definition put_with_ttl (now now2 : N) (k : Key) (st dt : str) (prov : option str) (t : N)
    (c : NegativeCache) : NegativeCache :=
  let e := {| status := st; detail := dt; provider_id := prov; expires_at := now + t |} in
  let '(m, o) := make_room now2 k c in
  set_inner (<[k := e]> m) (o ++ [k]) c.

(** [put] *)
Definition put (now now2 : N) (k : Key) (st dt : str) (prov : option str) (c : NegativeCache) : NegativeCache :=
  put_with_ttl now now2 k st dt prov (ttl c) c.

(** [forget], [clear] *)
Definition forget (k : Key) (c : NegativeCache) : NegativeCache :=
  set_inner (delete k (inner_map c)) (inner_order c) c.
Definition clear (c : NegativeCache) : NegativeCache := set_inner ∅ [] c.

(** ** Runs *)

(** An operation, with its clock readings. *)
Inductive CacheOp :=
| OGet (now : N) (k : Key)
| OPut (now now2 : N) (k : Key) (st dt : str) (prov : option str) (t : N)
| OForget (k : Key)
| OClear.

Definition run_op (c : NegativeCache) (o : CacheOp) : NegativeCache :=
  match o with
  | OGet now k => (get now k c).1
  | OPut now now2 k st dt prov t => put_with_ttl now now2 k st dt prov t c
  | OForget k => forget k c
  | OClear => clear c
  end.
Definition run_ops (c : NegativeCache) (os : list CacheOp) : NegativeCache := foldl run_op c os.

(** The specification: an unbounded map that never drops anything by itself. *)
Definition spec_op (m : gmap Key NegativeEntry) (o : CacheOp) : gmap Key NegativeEntry :=
  match o with
  | OGet _ _ => m
  | OPut now _ k st dt prov t =>
      <[k := {| status := st; detail := dt; provider_id := prov; expires_at := now + t |}]> m
  | OForget k => delete k m
  | OClear => ∅
  end.
Definition spec_ops (os : list CacheOp) : gmap Key NegativeEntry := foldl spec_op ∅ os.

(** ** Invariants *)

(** Every key of the map is in the order, and the map is within its capacity. *)
Definition wf (c : NegativeCache) : Prop :=
  (forall k, is_Some (inner_map c !! k) -> k ∈ inner_order c) /\ len c <= capacity c /\ 1 <= capacity c.

Lemma evict_sub cap m o : (evict cap m o).1 ⊆ m.
Proof.
  revert m. induction o as [|k o IH]; intros m; cbn [evict]; [done|].
  destruct (_ <=? _); [|done]. etransitivity; [apply IH|apply delete_subseteq].
Qed.

Lemma evict_wf cap m o :
  1 <= cap -> (forall k, is_Some (m !! k) -> k ∈ o) ->
  N.of_nat (size (evict cap m o).1) < cap
  /\ (forall k, is_Some ((evict cap m o).1 !! k) -> k ∈ (evict cap m o).2).
Proof.
  intros Hcap. revert m. induction o as [|k o IH]; intros m Hdom; cbn [evict].
  - assert (m = ∅) as ->.
    { apply map_empty. intros k. apply eq_None_not_Some. intros Hk. by apply Hdom, elem_of_nil in Hk. }
    cbn [fst snd]. rewrite map_size_empty. split; [lia|]. intros k. by rewrite lookup_empty; intros [? ?].
  - destruct (N.leb_spec cap (N.of_nat (size m))) as [Hge|Hlt]; [|by split].
    apply IH. intros k' Hk'. destruct (decide (k' = k)) as [->|Hne].
    + rewrite lookup_delete_eq in Hk'. by destruct Hk'.
    + rewrite lookup_delete_ne in Hk' by done. apply Hdom in Hk'. by apply elem_of_cons in Hk' as [?|?].
Qed.

Lemma without_elem k k' o : k' ∈ without k o <-> k' <> k /\ k' ∈ o.
Proof. unfold without. by rewrite list_elem_of_filter. Qed.

Lemma make_room_sub now2 k c : (make_room now2 k c).1 ⊆ inner_map c.
Proof.
  unfold make_room. case_bool_decide; [done|]. destruct (_ <=? _); [|done].
  etransitivity; [apply evict_sub|apply map_filter_subseteq].
Qed.

Lemma make_room_order now2 k c k' :
  wf c -> is_Some ((make_room now2 k c).1 !! k') -> k' = k \/ k' ∈ (make_room now2 k c).2.
Proof.
  intros (Hord & Hlen & Hcap). unfold make_room. case_bool_decide as Hk.
  - cbn [fst snd]. intros Hk'. destruct (decide (k' = k)) as [|Hne]; [by left|right].
    apply without_elem. split; [done|]. by apply Hord.
  - destruct (N.leb_spec (capacity c) (len c)); [|right; by apply Hord].
    intros Hk'. right. eapply evict_wf; [done| |done]. intros j Hj. apply list_elem_of_filter.
    split; [done|]. apply Hord. destruct Hj as [e He]. apply map_lookup_filter_Some in He as [He _]. by eexists.
Qed.

Lemma make_room_size now2 k c e :
  wf c -> N.of_nat (size (<[k := e]> (make_room now2 k c).1)) <= capacity c.
Proof.
  intros (Hord & Hlen & Hcap). unfold make_room, len in *. case_bool_decide as Hk.
  - destruct Hk as [e' He']. cbn [fst]. by rewrite (map_size_insert_Some k e _ (ex_intro _ e' He')).
  - assert (Hgen : forall m : gmap Key NegativeEntry, N.of_nat (size m) < capacity c ->
      N.of_nat (size (<[k := e]> m)) <= capacity c).
    { intros m Hm. rewrite map_size_insert. destruct (m !! k); cbn; lia. }
    destruct (N.leb_spec (capacity c) (N.of_nat (size (inner_map c)))); [|by apply Hgen].
    apply Hgen. apply evict_wf; [done|]. intros j Hj. apply list_elem_of_filter.
    split; [done|]. apply Hord. destruct Hj as [e' He']. apply map_lookup_filter_Some in He' as [He' _]. by eexists.
Qed.

Lemma put_wf now now2 k st dt prov t c : wf c -> wf (put_with_ttl now now2 k st dt prov t c).
Proof.
  intros Hwf. unfold put_with_ttl. set (e := Build_NegativeEntry _ _ _ _).
  pose proof (make_room_order now2 k c) as Hord. pose proof (make_room_size now2 k c e Hwf) as Hsize.
  destruct (make_room now2 k c) as [m o]. cbn [fst snd] in *.
  split_and!; cbn [set_inner inner_map inner_order]; [|exact Hsize|apply Hwf].
  intros k' Hk'. rewrite elem_of_app, list_elem_of_singleton.
  destruct (decide (k' = k)) as [|Hne]; [by right|left]. rewrite lookup_insert_ne in Hk' by done.
  by destruct (Hord k' Hwf Hk').
Qed.

Lemma delete_wf k o c :
  wf c -> (forall k', k' <> k -> k' ∈ inner_order c -> k' ∈ o) -> wf (set_inner (delete k (inner_map c)) o c).
Proof.
  intros (Hord & Hlen & Hcap) Ho. split_and!; cbn [set_inner inner_map inner_order capacity]; [| |done].
  - intros k' Hk'. destruct (decide (k' = k)) as [->|Hne].
    + rewrite lookup_delete_eq in Hk'. by destruct Hk'.
    + rewrite lookup_delete_ne in Hk' by done. by apply Ho, Hord.
  - change (N.of_nat (size (delete k (inner_map c))) <= capacity c). unfold len in Hlen. rewrite map_size_delete. destruct (inner_map c !! k); cbn; lia.
Qed.

Lemma run_op_wf c o : wf c -> wf (run_op c o).
Proof.
  intros Hwf. destruct o as [now k|now now2 k st dt prov t|k|]; cbn [run_op].
  - unfold get. destruct (inner_map c !! k) as [e|]; [|done]. destruct (is_fresh now e); [done|].
    apply delete_wf; [done|]. intros k' Hne Hk'. by apply without_elem.
  - by apply put_wf.
  - by apply delete_wf.
  - split_and!; [|apply N.le_0_l|apply Hwf]. cbn. intros k. rewrite lookup_empty. by intros [? ?].
Qed.

Lemma run_op_sub c o m : inner_map c ⊆ m -> inner_map (run_op c o) ⊆ spec_op m o.
Proof.
  intros Hsub. destruct o as [now k|now now2 k st dt prov t|k|]; cbn [run_op spec_op].
  - unfold get. destruct (inner_map c !! k) as [e|]; [|done]. destruct (is_fresh now e); [done|].
    etransitivity; [apply delete_subseteq|done].
  - unfold put_with_ttl. pose proof (make_room_sub now2 k c) as Hm. destruct (make_room now2 k c) as [m' o].
    cbn [set_inner inner_map fst] in *. apply insert_mono. by etransitivity.
  - cbn. by apply delete_mono.
  - done.
Qed.

Lemma with_tunables_wf t cap : wf (with_tunables t cap).
Proof.
  split_and!.
  - cbn. intros k. rewrite lookup_empty. by intros [? ?].
  - unfold len, with_tunables. cbn [inner_map capacity]. rewrite map_size_empty. lia.
  - cbn [with_tunables capacity]. lia.
Qed.

Lemma run_ops_inv t cap os :
  wf (run_ops (with_tunables t cap) os) /\ inner_map (run_ops (with_tunables t cap) os) ⊆ spec_ops os
  /\ capacity (run_ops (with_tunables t cap) os) = N.max cap 1.
Proof.
  induction os as [|o os IH] using rev_ind.
  - split_and!; [apply with_tunables_wf|done|done].
  - destruct IH as (Hwf & Hsub & Hcap). unfold run_ops, spec_ops in *. rewrite !foldl_app. cbn [foldl].
    split_and!; [by apply run_op_wf|by apply run_op_sub|]. rewrite <-Hcap.
    destruct o as [now k|now now2 k st dt prov t'|k|]; cbn [run_op]; [| |done|done].
    + unfold get. destruct (_ !! _) as [e|]; [by destruct (is_fresh now e)|done].
    + unfold put_with_ttl. by destruct (make_room _ _ _).
Qed.

(** Whatever the operations, the cache never holds more entries than its capacity,
    and an answer it gives is never made up or out of date: it is exactly the last
    entry put for that key and not forgotten or cleared since, and it has not
    expired. *)
Theorem cache_sound t cap os now k e :
  let c := run_ops (with_tunables t cap) os in
  len c <= N.max cap 1
  /\ ((get now k c).2 = Some e -> spec_ops os !! k = Some e /\ now < expires_at e).
Proof.
  intros c. destruct (run_ops_inv t cap os) as ((Hord & Hlen & _) & Hsub & Hcap). fold c in Hord, Hlen, Hsub, Hcap.
  split; [by rewrite <-Hcap|]. unfold get. destruct (inner_map c !! k) as [e'|] eqn:Hk; [|done].
  destruct (is_fresh now e') eqn:Hf; [|done]. intros [= ->].
  split; [by eapply lookup_weaken|by apply N.ltb_lt].
Qed.

(** ** Completeness below the capacity *)

Definition op_time (o : CacheOp) (last : N) : N :=
  match o with OGet now _ => now | OPut _ now2 _ _ _ _ _ => now2 | _ => last end.
Definition op_ok (o : CacheOp) (last : N) : Prop :=
  match o with OGet now _ => last <= now | OPut now now2 _ _ _ _ _ => last <= now <= now2 | _ => True end.

(** The clock does not run back, and there are never more keys than the capacity. *)
Fixpoint within (cap : N) (m : gmap Key NegativeEntry) (last : N) (os : list CacheOp) (now : N) : Prop :=
  match os with
  | [] => last <= now
  | o :: os' =>
      op_ok o last /\ N.of_nat (size (spec_op m o)) <= cap
      /\ within cap (spec_op m o) (op_time o last) os' now
  end.

(** Every entry of the specification that is still fresh is in the cache. *)
Definition complete_at (c : NegativeCache) (m : gmap Key NegativeEntry) (last : N) : Prop :=
  forall k e, m !! k = Some e -> is_fresh last e = true -> inner_map c !! k = Some e.

Lemma is_fresh_earlier t1 t2 e : t1 <= t2 -> is_fresh t2 e = true -> is_fresh t1 e = true.
Proof. unfold is_fresh. rewrite !N.ltb_lt. lia. Qed.

Lemma make_room_keeps now2 k e c m :
  inner_map c ⊆ m -> N.of_nat (size (<[k := e]> m)) <= capacity c -> (make_room now2 k c).1 = inner_map c.
Proof.
  intros Hsub Hsize. unfold make_room. case_bool_decide as Hk; [done|].
  destruct (N.leb_spec (capacity c) (len c)) as [Hfull|]; [|done]. exfalso.
  assert (Hin : inner_map c ⊆ <[k := e]> (inner_map c)).
  { apply insert_subseteq. by apply eq_None_not_Some. }
  assert (Hmono : <[k := e]> (inner_map c) ⊆ <[k := e]> m) by by apply insert_mono.
  apply map_subseteq_size in Hmono. rewrite map_size_insert_None in Hmono by by apply eq_None_not_Some.
  unfold len in *. lia.
Qed.

Lemma complete_step c m o last :
  inner_map c ⊆ m -> op_ok o last -> N.of_nat (size (spec_op m o)) <= capacity c ->
  complete_at c m last -> complete_at (run_op c o) (spec_op m o) (op_time o last).
Proof.
  intros Hsub Hok Hsize Hc k e Hk Hf.
  destruct o as [now j|now now2 j st dt prov t|j|]; cbn [run_op spec_op op_time op_ok] in *.
  - specialize (Hc k e Hk (is_fresh_earlier _ _ _ Hok Hf)). unfold get.
    destruct (inner_map c !! j) as [e'|] eqn:Hj; [|done]. destruct (is_fresh now e') eqn:Hf'; [done|].
    cbn [fst set_inner inner_map]. destruct (decide (j = k)) as [->|Hne]; [congruence|].
    by rewrite lookup_delete_ne.
  - unfold put_with_ttl. pose proof (make_room_keeps now2 j _ c m Hsub Hsize) as Hm.
    destruct (make_room now2 j c) as [m' o']. cbn [fst set_inner inner_map] in *. subst m'.
    destruct (decide (j = k)) as [->|Hne].
    + rewrite lookup_insert_eq in *. done.
    + rewrite lookup_insert_ne in * by done. apply Hc; [done|]. eapply is_fresh_earlier; [|done]. lia.
  - cbn [forget set_inner inner_map]. destruct (decide (j = k)) as [->|Hne].
    + by rewrite lookup_delete_eq in Hk.
    + rewrite lookup_delete_ne in * by done. by apply Hc.
  - by rewrite lookup_empty in Hk.
Qed.

Lemma complete_run cap c m last os now :
  wf c -> inner_map c ⊆ m -> capacity c = cap -> complete_at c m last -> within cap m last os now ->
  exists last', last' <= now /\ complete_at (run_ops c os) (foldl spec_op m os) last'.
Proof.
  revert c m last. induction os as [|o os IH]; intros c m last Hwf Hsub Hcap Hc Hin; cbn [within] in Hin.
  - by exists last.
  - destruct Hin as (Hok & Hsize & Hin). subst cap.
    apply (IH (run_op c o) (spec_op m o) (op_time o last));
      [by apply run_op_wf|by apply run_op_sub| |by apply complete_step|done].
    destruct o as [now' k|now' now2 k st dt prov t'|k|]; cbn [run_op]; [| |done|done].
    + unfold get. destruct (_ !! _) as [e|]; [by destruct (is_fresh now' e)|done].
    + unfold put_with_ttl. by destruct (make_room _ _ _).
Qed.

(** As long as no more keys are in use than the capacity and the clock does not
    run back, nothing is lost: every key put and not forgotten since, whose entry has
    not expired, is answered with that entry. *)
Theorem cache_complete t cap os now k e :
  1 <= cap -> within cap ∅ 0 os now -> spec_ops os !! k = Some e -> now < expires_at e ->
  (get now k (run_ops (with_tunables t cap) os)).2 = Some e.
Proof.
  intros Hcap Hin Hk Hf. destruct (run_ops_inv t cap []) as (Hwf & _ & _).
  destruct (complete_run cap (with_tunables t cap) ∅ 0 os now) as (last & Hle & Hc);
    [done|done|cbn; lia|intros ? ? H; by rewrite lookup_empty in H|done|].
  assert (Hfresh : is_fresh now e = true) by by apply N.ltb_lt.
  specialize (Hc k e Hk (is_fresh_earlier _ _ _ Hle Hfresh)). unfold get. by rewrite Hc, Hfresh.
Qed.

(** ** [forget] leaves the key in the order *)

Definition cycle (k : Key) (n : nat) : list CacheOp :=
  concat (replicate n [OPut 0 0 k [] [] None 1; OForget k]).

Lemma cycle_order k n c :
  inner_map c !! k = None -> len c < capacity c ->
  inner_order (run_ops c (cycle k n)) = inner_order c ++ replicate n k.
Proof.
  revert c. induction n as [|n IH]; intros c Hk Hlen; [by rewrite app_nil_r|].
  change (run_ops c (cycle k (S n))) with (run_ops (forget k (put_with_ttl 0 0 k [] [] None 1 c)) (cycle k n)).
  assert (Hroom : make_room 0 k c = (inner_map c, inner_order c)).
  { unfold make_room. rewrite bool_decide_false by (rewrite Hk; by intros [? ?]).
    by rewrite (proj2 (N.leb_gt _ _)). }
  assert (Hmap : inner_map (forget k (put_with_ttl 0 0 k [] [] None 1 c)) = inner_map c).
  { unfold forget, put_with_ttl. rewrite Hroom. cbn [set_inner inner_map].
    rewrite delete_insert_eq. by apply delete_id. }
  rewrite IH.
  - unfold forget, put_with_ttl. rewrite Hroom. cbn [set_inner inner_order replicate].
    by rewrite <-app_assoc.
  - rewrite Hmap. done.
  - unfold len in *. rewrite Hmap. unfold forget, put_with_ttl. by rewrite Hroom.
Qed.

(** Putting and forgetting one key over and over makes the eviction order grow without
    bound in a cache that never holds more than one entry. *)
Theorem order_unbounded t cap k n :
  length (inner_order (run_ops (with_tunables t cap) (cycle k n))) = n.
Proof.
  rewrite cycle_order; [cbn [with_tunables inner_order app]; by rewrite length_replicate|done|].
  unfold len. cbn. rewrite map_size_empty. lia.
Qed.

(** And a forgotten key's old place in the order evicts its new entry: the entry put
    last is dropped while an older one is kept. *)
Theorem newest_evicted :
  let k (s : string) : Key := (lit s, [], []) in
  let put_at s := OPut 0 0 (k s) [] [] None 100 in
  let c := run_ops (with_tunables 100 2) [put_at "a"%string; OForget (k "a"%string); put_at "b"%string;
                                         put_at "a"%string; put_at "c"%string] in
  (get 1 (k "a"%string) c).2 = None /\ is_Some (get 1 (k "b"%string) c).2.
Proof. split; [by vm_compute|]. vm_compute. by eexists. Qed.

(** ** Witness *)

Definition demo_key : Key := (lit "mpd-path", lit "a.flac", lit "large").

Lemma cache_complete_witness :
  (get 50 demo_key (run_ops (with_tunables 100 2) [OPut 1 2 demo_key (lit "not_found") [] None 100])).2
  = Some {| status := lit "not_found"; detail := []; provider_id := None; expires_at := 101 |}.
Proof.
  apply (cache_complete 100 2 [OPut 1 2 demo_key (lit "not_found") [] None 100] 50 demo_key);
    [lia| |by vm_compute|cbn; lia].
  cbn [within op_ok op_time]. split_and!; [lia|lia|by vm_compute|lia].
Defined.
