(* ===== verification/AudioRouting.v ===== *)
(** * Audio routing broker ([crates/evo-audio-topology/src/audio_routing.rs])

    The framework-side table of resolved routings, the per-plugin handles with their
    stage checks, and the forwarder to out-of-process plugins.  Endpoints and formats
    are types of the plugin SDK and stay abstract.  Every operation runs under the
    table's lock, with the callbacks of a publication after it, in the same call. *)

From stdpp Require Import gmap.
From S2P Require Import Prelude.

(** [PluginAudioRole] *)
Inductive PluginAudioRole := Source | Composition | Delivery.

#[export] Instance PluginAudioRole_eq_dec : EqDecision PluginAudioRole.
Proof. solve_decision. Defined.

(** The errors of the SDK's trait that the broker returns. *)
Inductive AudioRoutingMethod := MWriteEndpoint | MReadEndpoint.
Inductive AudioRoutingError :=
| WrongStage (kind : AudioRoutingMethod)
| EndpointNotConfigured
| NotCompositionPlugin.

Section routing.
Context {W R F : Type}.

(** [ResolvedRouting] *)
Record ResolvedRouting := { write : option W; read : option R; format : F; reason : str }.

(** [RouteChange] *)
Record RouteChange := { new_format : F; change_reason : str }.

(** A registered callback: the forwarder's closure for a plugin, or one of a plugin's
    own, known by a number. *)
Inductive Callback := Forward (plugin : str) | Own (id : N).

(** [PluginRoutingState] *)
Record PluginRoutingState := { resolved : option ResolvedRouting; on_change : option Callback }.
Definition default_state : PluginRoutingState := {| resolved := None; on_change := None |}.

(** The runtime's table, with what has been sent to each forwarder's sink and to each
    plugin's own callback. *)
Record World := {
  plugins : gmap str PluginRoutingState;
  pushed : list (str * (option ResolvedRouting * str));
  invoked : list (N * RouteChange);
}.

Definition with_plugins (p : gmap str PluginRoutingState) (w : World) : World :=
  {| plugins := p; pushed := pushed w; invoked := invoked w |}.

Definition runtime_new : World := {| plugins := ∅; pushed := []; invoked := [] |}.

(** [AudioRoutingRuntime::resolved_for] *)
Definition resolved_for (plugin : str) (w : World) : option ResolvedRouting :=
  s ← plugins w !! plugin; resolved s.

(** [AudioRoutingForwarderSink::push], logged. *)
Definition push (plugin : str) (r : option ResolvedRouting) (why : str) (w : World) : World :=
  {| plugins := plugins w; pushed := pushed w ++ [(plugin, (r, why))]; invoked := invoked w |}.

(** Calling a callback; the forwarder's reads the table when it runs. *)
Definition fire (cb : Callback) (c : RouteChange) (w : World) : World :=
  match cb with
  | Forward p => push p (resolved_for p w) (change_reason c) w
  | Own i => {| plugins := plugins w; pushed := pushed w; invoked := invoked w ++ [(i, c)] |}
  end.

(** [RouterAudioRouting] *)
Record RouterAudioRouting := { plugin_name : str; role : PluginAudioRole }.

Definition entry_or_default (plugin : str) (w : World) : PluginRoutingState :=
  default default_state (plugins w !! plugin).

(** [AudioRoutingRuntime::handle_for_plugin] *)
Definition handle_for_plugin (plugin : str) (r : PluginAudioRole) (w : World) : World * RouterAudioRouting :=
  (with_plugins (<[plugin := entry_or_default plugin w]> (plugins w)) w,
   {| plugin_name := plugin; role := r |}).

(** [AudioRoutingRuntime::publish_topology] *)
Definition publish_topology (plugin : str) (r : ResolvedRouting) (w : World)
    : World * option ResolvedRouting :=
  let entry := entry_or_default plugin w in
  let w1 := with_plugins (<[plugin := {| resolved := Some r; on_change := on_change entry |}]> (plugins w)) w in
  (match on_change entry with
   | Some cb => fire cb {| new_format := format r; change_reason := reason r |} w1
   | None => w1
   end, resolved entry).

(** [AudioRoutingRuntime::clear_topology] *)
Definition clear_topology (plugin : str) (w : World) : World :=
  match plugins w !! plugin with
  | Some e => with_plugins (<[plugin := {| resolved := None; on_change := on_change e |}]> (plugins w)) w
  | None => w
  end.

(** [AudioRoutingRuntime::forget_plugin] *)
Definition forget_plugin (plugin : str) (w : World) : World :=
  with_plugins (delete plugin (plugins w)) w.

(** [RouterAudioRouting::resolved] *)
Definition handle_resolved (h : RouterAudioRouting) (w : World) : result ResolvedRouting AudioRoutingError :=
  ok_or (resolved_for (plugin_name h) w) EndpointNotConfigured.

(** The trait's methods *)
Definition write_endpoint (h : RouterAudioRouting) (w : World) : result W AudioRoutingError :=
  match role h with
  | Source | Composition =>
      let? r := handle_resolved h w in ok_or (write r) EndpointNotConfigured
  | Delivery => Err (WrongStage MWriteEndpoint)
  end.

Definition read_endpoint (h : RouterAudioRouting) (w : World) : result R AudioRoutingError :=
  match role h with
  | Delivery | Composition =>
      let? r := handle_resolved h w in ok_or (read r) EndpointNotConfigured
  | Source => Err (WrongStage MReadEndpoint)
  end.

Definition composition_endpoints (h : RouterAudioRouting) (w : World) : result (R * W) AudioRoutingError :=
  match role h with
  | Composition =>
      let? r := handle_resolved h w in
      let? rd := ok_or (read r) EndpointNotConfigured in
      let? wr := ok_or (write r) EndpointNotConfigured in
      Ok (rd, wr)
  | _ => Err NotCompositionPlugin
  end.

Definition current_format (h : RouterAudioRouting) (w : World) : result F AudioRoutingError :=
  let? r := handle_resolved h w in Ok (format r).

Definition on_route_change (h : RouterAudioRouting) (cb : option Callback) (w : World) : World :=
  match plugins w !! plugin_name h with
  | Some e => with_plugins (<[plugin_name h := {| resolved := resolved e; on_change := cb |}]> (plugins w)) w
  | None => w
  end.

(** [install_audio_routing_forwarder] *)
Definition install_audio_routing_forwarder (h : RouterAudioRouting) (w : World) : World :=
  let p := plugin_name h in
  let w1 := on_route_change h (Some (Forward p)) w in
  match resolved_for p w1 with
  | Some initial => push p (Some initial) (reason initial) w1
  | None => w1
  end.

(** ** The handles *)

(** A handle gives out an endpoint only to a plugin of the stage it belongs to,
    and then exactly the endpoint last published for that plugin: the write endpoint
    to sources and compositions, the read endpoint to deliveries and compositions,
    both at once to compositions only; the format goes to every stage. *)
Theorem endpoints_correct h w :
  (forall e, write_endpoint h w = Ok e <->
     role h <> Delivery /\ exists r, resolved_for (plugin_name h) w = Some r /\ write r = Some e)
  /\ (forall e, read_endpoint h w = Ok e <->
     role h <> Source /\ exists r, resolved_for (plugin_name h) w = Some r /\ read r = Some e)
  /\ (forall rd wr, composition_endpoints h w = Ok (rd, wr) <->
     role h = Composition /\ read_endpoint h w = Ok rd /\ write_endpoint h w = Ok wr)
  /\ (forall f, current_format h w = Ok f <->
     exists r, resolved_for (plugin_name h) w = Some r /\ format r = f).
Proof.
  unfold write_endpoint, read_endpoint, composition_endpoints, current_format, handle_resolved, ok_or.
  destruct (resolved_for (plugin_name h) w) as [[wr rd f why]|], (role h); cbn;
    try destruct wr; try destruct rd; cbn; naive_solver.
Qed.

(** What a publication leaves in the table. *)
Lemma resolved_publish plugin r w p :
  resolved_for p (publish_topology plugin r w).1 = if decide (p = plugin) then Some r else resolved_for p w.
Proof.
  assert (Hfire : forall cb c w', resolved_for p (fire cb c w') = resolved_for p w') by by intros [].
  unfold publish_topology. cbn [fst]. destruct (on_change _); rewrite ?Hfire; unfold resolved_for; cbn;
    destruct (decide (p = plugin)) as [->|]; by rewrite ?lookup_insert_eq, ?lookup_insert_ne.
Qed.

(** ** Runs *)

(** What happens to the table from outside a handle. *)
Inductive TableOp :=
| OHandle (plugin : str) (r : PluginAudioRole)
| OPublish (plugin : str) (r : ResolvedRouting)
| OClear (plugin : str)
| OForget (plugin : str).

Definition run_op (w : World) (o : TableOp) : World :=
  match o with
  | OHandle p r => (handle_for_plugin p r w).1
  | OPublish p r => (publish_topology p r w).1
  | OClear p => clear_topology p w
  | OForget p => forget_plugin p w
  end.

(** The specification: the last routing published for each plugin and not withdrawn. *)
Definition spec_op (m : gmap str ResolvedRouting) (o : TableOp) : gmap str ResolvedRouting :=
  match o with
  | OHandle _ _ => m
  | OPublish p r => <[p := r]> m
  | OClear p | OForget p => delete p m
  end.

Lemma run_op_spec w m o :
  (forall p, resolved_for p w = m !! p) -> forall p, resolved_for p (run_op w o) = spec_op m o !! p.
Proof.
  intros Hm p. destruct o as [q r|q r|q|q]; cbn [run_op spec_op].
  - rewrite <-Hm. unfold handle_for_plugin, resolved_for, entry_or_default. cbn.
    destruct (decide (p = q)) as [->|]; [|by rewrite lookup_insert_ne].
    rewrite lookup_insert_eq. by destruct (plugins w !! q).
  - rewrite resolved_publish, Hm. destruct (decide (p = q)) as [->|];
      by rewrite ?lookup_insert_eq, ?lookup_insert_ne.
  - unfold clear_topology. destruct (decide (p = q)) as [->|Hne].
    + rewrite lookup_delete_eq. unfold resolved_for. destruct (plugins w !! q) eqn:Hq; [|by rewrite Hq].
      cbn. by rewrite lookup_insert_eq.
    + rewrite lookup_delete_ne, <-Hm by done. unfold resolved_for. destruct (plugins w !! q); [|done].
      cbn. by rewrite lookup_insert_ne.
  - unfold forget_plugin, resolved_for. cbn. destruct (decide (p = q)) as [->|].
    + by rewrite !lookup_delete_eq.
    + rewrite !lookup_delete_ne by done. apply Hm.
Qed.

(** After any operations, what a handle sees for its plugin is the last routing
    published for that plugin and not cleared or forgotten since; operations on other
    plugins never affect it, and neither does handing out a handle again. *)
Theorem table_refines os :
  forall p, resolved_for p (foldl run_op runtime_new os) = foldl spec_op ∅ os !! p.
Proof.
  induction os as [|o os IH] using rev_ind; [done|]. rewrite !foldl_app. cbn [foldl].
  by apply run_op_spec.
Qed.

(** ** The forwarder *)

(** What the out-of-process plugin was last sent. *)
Definition last_pushed (plugin : str) (w : World) : option (option ResolvedRouting) :=
  last (map (fun e => e.2.1) (filter (fun e => e.1 = plugin) (pushed w))).

Definition forwarding (plugin : str) (w : World) : Prop :=
  exists e, plugins w !! plugin = Some e /\ on_change e = Some (Forward plugin).

(** The remote side agrees with the table; before anything is published it has been
    sent nothing. *)
Definition in_step (plugin : str) (w : World) : Prop :=
  forwarding plugin w /\
  match resolved_for plugin w with
  | Some r => last_pushed plugin w = Some (Some r)
  | None => last_pushed plugin w = None
  end.

Lemma last_pushed_push plugin p r why w :
  last_pushed plugin (push p r why w) = if decide (p = plugin) then Some r else last_pushed plugin w.
Proof.
  unfold last_pushed, push. cbn [pushed]. rewrite filter_app, filter_cons. cbn [fst].
  rewrite filter_nil. destruct (decide (p = plugin)); [|by rewrite app_nil_r].
  rewrite map_app. cbn [map]. by rewrite last_snoc.
Qed.

(** A forwarder is only ever registered for its own plugin. *)
Definition own_forwarders (w : World) : Prop :=
  forall q e p, plugins w !! q = Some e -> on_change e = Some (Forward p) -> p = q.

Definition published (o : TableOp) : bool :=
  match o with OHandle _ _ | OPublish _ _ => true | _ => false end.

Lemma plugins_publish plugin r w :
  plugins (publish_topology plugin r w).1
  = <[plugin := {| resolved := Some r; on_change := on_change (entry_or_default plugin w) |}]> (plugins w).
Proof. unfold publish_topology. cbn [fst]. destruct (on_change _) as [[]|]; done. Qed.

Lemma own_forwarders_insert q e w :
  own_forwarders w -> (forall p, on_change e = Some (Forward p) -> p = q) ->
  own_forwarders (with_plugins (<[q := e]> (plugins w)) w).
Proof.
  intros Hw He q' e' p. cbn. destruct (decide (q' = q)) as [->|Hne].
  - rewrite lookup_insert_eq. intros [= <-]. apply He.
  - rewrite lookup_insert_ne by done. apply Hw.
Qed.

Lemma entry_own q w p :
  own_forwarders w -> on_change (entry_or_default q w) = Some (Forward p) -> p = q.
Proof. unfold entry_or_default. intros Hw. destruct (plugins w !! q) eqn:Hq; [|done]. cbn. by apply Hw. Qed.

Lemma last_pushed_publish plugin q r w :
  own_forwarders w ->
  last_pushed plugin (publish_topology q r w).1
  = match on_change (entry_or_default q w) with
    | Some (Forward _) => if decide (q = plugin) then Some (Some r) else last_pushed plugin w
    | _ => last_pushed plugin w
    end.
Proof.
  intros Hw. pose proof (entry_own q w) as Hown. unfold publish_topology. cbn [fst].
  destruct (on_change (entry_or_default q w)) as [[p|i]|]; [|done..].
  rewrite (Hown p Hw eq_refl). cbn [fire]. rewrite last_pushed_push. unfold resolved_for. cbn.
  by rewrite lookup_insert_eq.
Qed.

Lemma in_step_op plugin w o :
  own_forwarders w -> in_step plugin w -> published o = true ->
  own_forwarders (run_op w o) /\ in_step plugin (run_op w o).
Proof.
  intros Hw ((e & He & Hcb) & Hstep) Ho. destruct o as [q r|q r|q|q]; [| |done..]; cbn [run_op].
  - assert (Hsame : plugins (handle_for_plugin q r w).1 !! plugin = Some e).
    { unfold handle_for_plugin, entry_or_default. cbn. destruct (decide (plugin = q)) as [->|].
      - by rewrite lookup_insert_eq, He.
      - by rewrite lookup_insert_ne. }
    split.
    + unfold handle_for_plugin. cbn [fst]. apply own_forwarders_insert; [done|]. intros p. by apply entry_own.
    + split; [by exists e|]. unfold resolved_for in *. rewrite Hsame. by rewrite He in Hstep.
  - assert (Hown : own_forwarders (publish_topology q r w).1).
    { pose proof (own_forwarders_insert q
        {| resolved := Some r; on_change := on_change (entry_or_default q w) |} w Hw
        (fun p => entry_own q w p Hw)) as H.
      unfold own_forwarders in *. by rewrite plugins_publish. }
    split; [exact Hown|]. split.
    + unfold forwarding. rewrite plugins_publish. destruct (decide (plugin = q)) as [->|Hne].
      * rewrite lookup_insert_eq. eexists. split; [done|]. unfold entry_or_default. by rewrite He.
      * rewrite lookup_insert_ne by done. by exists e.
    + rewrite resolved_publish, last_pushed_publish by done. destruct (decide (plugin = q)) as [->|Hne].
      * unfold entry_or_default. rewrite He. change (default default_state (Some e)) with e. rewrite Hcb.
        by rewrite decide_True.
      * destruct (on_change (entry_or_default q w)) as [[p|i]|]; [|done..].
        by rewrite decide_False.
Qed.

Lemma install_in_step h w :
  is_Some (plugins w !! plugin_name h) -> own_forwarders w -> last_pushed (plugin_name h) w = None ->
  own_forwarders (install_audio_routing_forwarder h w)
  /\ in_step (plugin_name h) (install_audio_routing_forwarder h w).
Proof.
  intros [e He] Hw Hnone. unfold install_audio_routing_forwarder, on_route_change. rewrite He.
  set (w1 := with_plugins _ w).
  assert (Hw1 : own_forwarders w1) by (apply own_forwarders_insert; [done|by intros p [= ->]]).
  assert (Hf1 : forwarding (plugin_name h) w1).
  { unfold forwarding, w1. cbn. rewrite lookup_insert_eq. by eexists. }
  assert (Hl1 : last_pushed (plugin_name h) w1 = None) by done.
  destruct (resolved_for (plugin_name h) w1) as [r|] eqn:Hr; cbn zeta.
  - split; [exact Hw1|]. split; [exact Hf1|].
    change (resolved_for (plugin_name h) (push (plugin_name h) (Some r) (reason r) w1))
      with (resolved_for (plugin_name h) w1).
    rewrite Hr, last_pushed_push. by rewrite decide_True.
  - split; [exact Hw1|]. split; [exact Hf1|]. by rewrite Hr.
Qed.

(** Once the forwarder is installed for an admitted plugin, the out-of-process side
    is kept in step with the table through any further publications (for this plugin
    or others) and any further handles: the last thing it was sent is the current
    routing, and it has been sent nothing while there is none. *)
Theorem forwarder_in_step h w os :
  is_Some (plugins w !! plugin_name h) -> own_forwarders w -> last_pushed (plugin_name h) w = None ->
  Forall (fun o => published o = true) os ->
  in_step (plugin_name h) (foldl run_op (install_audio_routing_forwarder h w) os).
Proof.
  intros He Hw Hnone Hos. destruct (install_in_step h w He Hw Hnone) as [Hw1 H1].
  revert Hw1 H1. generalize (install_audio_routing_forwarder h w).
  induction Hos as [|o os Ho _ IH]; intros w1 Hw1 H1; [done|]. cbn [foldl].
  destruct (in_step_op (plugin_name h) w1 o Hw1 H1 Ho) as [Hw2 H2]. by apply IH.
Qed.

(** Clearing a topology is not forwarded: afterwards the handle in the framework
    refuses, and the out-of-process side still holds the routing that was cleared. *)
Theorem clear_not_forwarded plugin w r :
  in_step plugin w -> resolved_for plugin w = Some r ->
  resolved_for plugin (clear_topology plugin w) = None
  /\ last_pushed plugin (clear_topology plugin w) = Some (Some r).
Proof.
  intros ((e & He & _) & Hstep) Hr. rewrite Hr in Hstep. unfold clear_topology. rewrite He. split.
  - unfold resolved_for. cbn. by rewrite lookup_insert_eq.
  - exact Hstep.
Qed.
End routing.
Arguments ResolvedRouting : clear implicits.
Arguments World : clear implicits.

(** ** Witness *)

Definition demo_routing (w : N) : ResolvedRouting N N N :=
  {| write := Some w; read := None; format := 44100%N; reason := lit "boot" |}.

Lemma forwarder_in_step_witness :
  in_step (lit "org.evo.playback") (foldl run_op
    (install_audio_routing_forwarder {| plugin_name := lit "org.evo.playback"; role := Source |}
      (handle_for_plugin (lit "org.evo.playback") Source (runtime_new (W := N) (R := N) (F := N))).1)
    [OPublish (lit "org.evo.playback") (demo_routing 7)]).
Proof.
  apply (forwarder_in_step {| plugin_name := lit "org.evo.playback"; role := Source |}).
  - eexists. by vm_compute.
  - intros q e p Hq Hcb. revert Hq. cbn [handle_for_plugin fst plugins with_plugins runtime_new].
    destruct (decide (q = lit "org.evo.playback")) as [->|Hne].
    + rewrite lookup_insert_eq. intros [= <-]. by vm_compute in Hcb.
    + rewrite lookup_insert_ne, lookup_empty by done. done.
  - by vm_compute.
  - by repeat constructor.
Defined.

Lemma clear_not_forwarded_witness :
  let w := foldl run_op
    (install_audio_routing_forwarder {| plugin_name := lit "p"; role := Source |}
      (handle_for_plugin (lit "p") Source (runtime_new (W := N) (R := N) (F := N))).1)
    [OPublish (lit "p") (demo_routing 7)] in
  last_pushed (lit "p") (clear_topology (lit "p") w) = Some (Some (demo_routing 7)).
Proof.
  intros w. apply (clear_not_forwarded (lit "p") w (demo_routing 7)); [|by vm_compute].
  split; [|by vm_compute]. eexists. split; by vm_compute.
Defined.
