(* ===== verification/EmitThrottle.v ===== *)
(** * Emit throttle ([plugins/org.evoframework.audio.terminus/src/emit_throttle.rs])

    The schedule that spaces out the frames of the spectrum subject.  Instants and
    durations are natural numbers of one unit. *)

From S2P Require Import Prelude.
Local Open Scope N_scope.

(** [EmitThrottle] *)
Record EmitThrottle := { next_emit_at : option N }.

Definition new : EmitThrottle := {| next_emit_at := None |}.

(** [should_emit] *)
Definition should_emit (now min_gap : N) (th : EmitThrottle) : EmitThrottle * bool :=
  match next_emit_at th with
  | Some scheduled =>
      if now <? scheduled then (th, false)
      else ({| next_emit_at := Some (if now - scheduled <? min_gap then scheduled + min_gap
                                     else now + min_gap) |}, true)
  | None => ({| next_emit_at := Some (now + min_gap) |}, true)
  end.

(** [reset] *)
Definition reset (th : EmitThrottle) : EmitThrottle := {| next_emit_at := None |}.

(** ** Runs *)

(** The times at which a run of calls emits. *)
Fixpoint emits (min_gap : N) (th : EmitThrottle) (times : list N) : list N :=
  match times with
  | [] => []
  | now :: times' =>
      let (th', b) := should_emit now min_gap th in
      (if b then [now] else []) ++ emits min_gap th' times'
  end.

(** One step of an armed schedule: it moves on by at least a gap when it emits, never
    ahead of a gap after the emission. *)
Lemma should_emit_armed now gap s :
  let (th', b) := should_emit now gap {| next_emit_at := Some s |} in
  exists s', next_emit_at th' = Some s'
    /\ (if b then s <= now /\ s + gap <= s' <= now + gap else now < s /\ s' = s).
Proof.
  unfold should_emit. cbn [next_emit_at]. destruct (N.ltb_spec now s) as [Hlt|Hge]; cbn; [by exists s|].
  eexists. split; [done|]. destruct (N.ltb_spec (now - s) gap); lia.
Qed.

Lemma emits_armed gap s times k t :
  emits gap {| next_emit_at := Some s |} times !! k = Some t -> s + N.of_nat k * gap <= t.
Proof.
  revert s k. induction times as [|now times IH]; intros s k; cbn [emits]; [done|].
  pose proof (should_emit_armed now gap s) as Hstep.
  destruct (should_emit now gap _) as [[th'] b]. destruct Hstep as (s' & Hs' & Hb).
  cbn [next_emit_at] in Hs'. subst th'. destruct b.
  - destruct k as [|k]; cbn [app lookup list_lookup].
    + intros [= <-]. lia.
    + intros Hk. specialize (IH s' k Hk). lia.
  - destruct Hb as [_ ->]. apply IH.
Qed.

(** The long-run rate never exceeds one frame per gap: counting from the first
    frame, the [k]-th one after it comes at least [k] gaps later, whenever the calls
    are made. *)
Theorem emit_rate_bounded gap times t0 k t :
  emits gap new times !! 0%nat = Some t0 -> emits gap new times !! k = Some t ->
  t0 + N.of_nat k * gap <= t.
Proof.
  destruct times as [|now times]; [done|]. cbn [emits should_emit new next_emit_at app].
  intros [= ->]. destruct k as [|k]; cbn [lookup list_lookup]; [intros [= <-]; lia|].
  intros Hk. apply emits_armed in Hk. lia.
Qed.

(** No frame is held back for longer than a gap: a call made at least one gap after
    the last frame emits, after any earlier calls. *)
Theorem emit_not_starved gap times now :
  let th := foldl (fun th t => (should_emit t gap th).1) new times in
  (forall t, last (emits gap new times) = Some t -> t + gap <= now) ->
  (should_emit now gap th).2 = true.
Proof.
  cbn zeta.
  assert (Hinv : forall th0 pre, (next_emit_at th0 = None /\ last pre = None
      \/ exists s t, next_emit_at th0 = Some s /\ last pre = Some t /\ s <= t + gap) ->
    let th := foldl (fun th t => (should_emit t gap th).1) th0 times in
    let es := pre ++ emits gap th0 times in
    next_emit_at th = None /\ last es = None
    \/ exists s t, next_emit_at th = Some s /\ last es = Some t /\ s <= t + gap).
  { induction times as [|now' times IH]; intros th0 pre H0; cbn zeta in *; cbn [foldl emits].
    { by rewrite app_nil_r. }
    destruct (should_emit now' gap th0) as [th' b] eqn:Hs. cbn [fst]. rewrite app_assoc. apply IH.
    destruct th0 as [[s|]]; cbn [next_emit_at] in *.
    - pose proof (should_emit_armed now' gap s) as Hstep. rewrite Hs in Hstep.
      destruct Hstep as (s' & Hs' & Hb). right. destruct b.
      + exists s', now'. rewrite last_snoc. split_and!; [done|done|lia].
      + destruct H0 as [[? _]|(s0 & t & [= <-] & Hl & Hle)]; [done|]. exists s', t.
        rewrite app_nil_r. split_and!; [done|done|lia].
    - unfold should_emit in Hs. cbn [next_emit_at] in Hs. injection Hs as <- <-. right.
      exists (now' + gap), now'. rewrite last_snoc. split_and!; [done|done|lia]. }
  intros Hlate. specialize (Hinv new [] (or_introl (conj eq_refl eq_refl))). cbn zeta in Hinv.
  unfold should_emit at 1. destruct Hinv as [[-> _]|(s & t & -> & Hl & Hle)]; [done|].
  specialize (Hlate t Hl). by destruct (N.ltb_spec now s); [lia|].
Qed.

Lemma emit_rate_bounded_witness : 0 + N.of_nat 2 * 33 <= 85.
Proof.
  apply (emit_rate_bounded 33 [0; 21; 43; 64; 85] 0 2 85); by vm_compute.
Defined.

Lemma emit_not_starved_witness :
  (should_emit 100 33 (foldl (fun th t => (should_emit t 33 th).1) new [0; 21; 43])).2 = true.
Proof. apply emit_not_starved. vm_compute. intros t [= <-]. discriminate. Defined.
