(* ===== verification/SpectrumDemand.v ===== *)
(** * Spectrum demand ([plugins/org.evoframework.audio.terminus/src/demand.rs])

    The one demand every seat of a device shares: the request that sets it, the
    envelope it is published in, and its recovery from the framework's mirror on load.
    JSON values and the framework's subject registry are interfaces with the laws the
    code relies on; decoding a request (serde) is a parameter. *)

From S2P Require Import Prelude.
Local Open Scope N_scope.

(** ** Interfaces *)

(** JSON values ([serde_json::Value]): what the code reads and builds. *)
Class JsonOps (V : Type) := {
  jget : str -> V -> option V;
  as_u64 : V -> option N;
  as_bool : V -> option bool;
  as_str : V -> option str;
  j_u64 : N -> V;
  j_bool : bool -> V;
  j_str : str -> V;
  j_object : list (str * V) -> V;
}.

Definition assoc {V} (k : str) (l : list (str * V)) : option V :=
  snd <$> find (fun kv => bool_decide (kv.1 = k)) l.

Class JsonLaws (V : Type) `{JsonOps V} := {
  as_u64_num n : n <= U64_MAX -> as_u64 (j_u64 n) = Some n;
  as_bool_bool b : as_bool (j_bool b) = Some b;
  as_str_str s : as_str (j_str s) = Some s;
  jget_object k l : NoDup (map fst l) -> jget k (j_object l) = assoc k l;
}.

(** The subject registry of the framework: announcing a subject and updating its state
    may fail; the durable mirror is read through the subject's canonical id. *)
Class SubjectRegistry (G V Id E : Type) := {
  announce : V -> G -> G * result unit E;
  update_state : V -> G -> G * result unit E;
  resolve_addressing : G -> result (option Id) E;
  current_state : Id -> G -> result (option V) E;
}.

(** ** Data *)

Definition DEMAND_PAYLOAD_VERSION : N := 1.

(** [FrequencyScale] *)
Inductive FrequencyScale := Log | Mel | Linear.

Definition scale_str (s : FrequencyScale) : str :=
  match s with Log => lit "log" | Mel => lit "mel" | Linear => lit "linear" end.

Definition from_wire (s : str) : option FrequencyScale :=
  if bool_decide (s = lit "log") then Some Log
  else if bool_decide (s = lit "mel") then Some Mel
  else if bool_decide (s = lit "linear") then Some Linear
  else None.

(** [SpectrumDemand] *)
Record SpectrumDemand := {
  enabled : bool;
  bins : N;
  channels : N;
  rate_hz_target : N;
  frequency_scale : FrequencyScale;
  updated_at_ms : N;
}.

Definition disabled_default : SpectrumDemand :=
  {| enabled := false; bins := 256; channels := 1; rate_hz_target := 30; frequency_scale := Log;
     updated_at_ms := 0 |}.

(** [SetDemandRequest] *)
Record SetDemandRequest := {
  req_v : N;
  req_enabled : bool;
  req_bins : N;
  req_channels : N;
  req_rate_hz_target : N;
  req_frequency_scale : FrequencyScale;
}.

(** [PluginError::Permanent], by what it reports. *)
Inductive DemandError :=
| BadPayload (e : str) | UnsupportedVersion (v : N) | BinsOutsideEnum (b : N) | ChannelsOutsideEnum (c : N).

Definition validate_bins (b : N) : result unit DemandError :=
  if bool_decide (b ∈ [32; 64; 128; 256]) then Ok tt else Err (BinsOutsideEnum b).
Definition validate_channels (c : N) : result unit DemandError :=
  if bool_decide (c ∈ [1; 2]) then Ok tt else Err (ChannelsOutsideEnum c).

(** [u32::clamp(1, 60)] *)
Definition clamp_rate (r : N) : N := if r <? 1 then 1 else if 60 <? r then 60 else r.

(** [as u32] *)
Definition as_u32 (n : N) : N := n mod 2 ^ 32.

Section json.
Context {V : Type} `{JsonOps V}.

(** [render_envelope] *)
Definition render_envelope (d : SpectrumDemand) : V :=
  j_object
    [(lit "v", j_u64 DEMAND_PAYLOAD_VERSION); (lit "enabled", j_bool (enabled d));
     (lit "bins", j_u64 (bins d)); (lit "channels", j_u64 (channels d));
     (lit "rate_hz_target", j_u64 (rate_hz_target d));
     (lit "frequency_scale", j_str (scale_str (frequency_scale d)));
     (lit "updated_at_ms", j_u64 (updated_at_ms d))].

Definition get_u64 (k : str) (v : V) : option N := x ← jget k v; as_u64 x.

(** [parse_envelope] *)
Definition parse_envelope (v : V) : option SpectrumDemand :=
  version ← get_u64 (lit "v") v;
  if negb (as_u32 version =? DEMAND_PAYLOAD_VERSION) then None
  else
    en ← (x ← jget (lit "enabled") v; as_bool x);
    b ← get_u64 (lit "bins") v;
    if negb (is_ok (validate_bins (as_u32 b))) then None
    else
      c ← get_u64 (lit "channels") v;
      if negb (is_ok (validate_channels (as_u32 c))) then None
      else
        r ← get_u64 (lit "rate_hz_target") v;
        sc ← match jget (lit "frequency_scale") v with
             | None => Some Log
             | Some scale_val => s ← as_str scale_val; from_wire s
             end;
        t ← get_u64 (lit "updated_at_ms") v;
        Some {| enabled := en; bins := as_u32 b; channels := as_u32 c;
                rate_hz_target := clamp_rate (as_u32 r); frequency_scale := sc; updated_at_ms := t |}.

(** ** The store *)

(** [SpectrumDemandStore]: the value of the watch channel with everything sent on it,
    and the registry it announces to. *)
Record SpectrumDemandStore (G : Type) := { demand : SpectrumDemand; sent : list SpectrumDemand; registry : G }.
Arguments demand {G}. Arguments sent {G}. Arguments registry {G}.

Context {G Id E : Type} `{!SubjectRegistry G V Id E}.
Context {Payload : Type} (decode : Payload -> result SetDemandRequest str).

(** [rehydrate_or_default] *)
Definition rehydrate_or_default (g : G) : SpectrumDemand :=
  match resolve_addressing g with
  | Ok (Some id) =>
      match current_state id g with
      | Ok (Some state) => default disabled_default (parse_envelope state)
      | _ => disabled_default
      end
  | _ => disabled_default
  end.

(** [announce_initial]; a failed announcement is only logged. *)
Definition announce_initial (g : G) : SpectrumDemandStore G :=
  let seed := rehydrate_or_default g in
  {| demand := seed; sent := []; registry := (announce (render_envelope seed) g).1 |}.

(** [apply]; a failed update is only logged. *)
Definition apply (next : SpectrumDemand) (st : SpectrumDemandStore G) : SpectrumDemandStore G :=
  {| demand := next; sent := sent st ++ [next];
     registry := (update_state (render_envelope next) (registry st)).1 |}.

(** [handle_set_demand], returning the demand its answer reports as applied. *)
Definition handle_set_demand (now : N) (payload : Payload) (st : SpectrumDemandStore G)
    : SpectrumDemandStore G * result SpectrumDemand DemandError :=
  match decode payload with
  | Err e => (st, Err (BadPayload e))
  | Ok parsed =>
      if negb (req_v parsed =? DEMAND_PAYLOAD_VERSION) then (st, Err (UnsupportedVersion (req_v parsed)))
      else match validate_bins (req_bins parsed) with
      | Err e => (st, Err e)
      | Ok _ =>
          match validate_channels (req_channels parsed) with
          | Err e => (st, Err e)
          | Ok _ =>
              let next := {| enabled := req_enabled parsed; bins := req_bins parsed;
                             channels := req_channels parsed;
                             rate_hz_target := clamp_rate (req_rate_hz_target parsed);
                             frequency_scale := req_frequency_scale parsed; updated_at_ms := now |} in
              (apply next st, Ok next)
          end
      end
  end.

(** ** Validity *)

(** What the producer may be asked for. *)
Definition valid (d : SpectrumDemand) : Prop :=
  bins d ∈ [32; 64; 128; 256] /\ channels d ∈ [1; 2] /\ 1 <= rate_hz_target d <= 60.

Lemma clamp_rate_range r : 1 <= clamp_rate r <= 60.
Proof. unfold clamp_rate. destruct (N.ltb_spec r 1), (N.ltb_spec 60 r); lia. Qed.

Lemma clamp_rate_id r : 1 <= r <= 60 -> clamp_rate r = r.
Proof. unfold clamp_rate. destruct (N.ltb_spec r 1), (N.ltb_spec 60 r); lia. Qed.

Lemma validate_bins_ok b : is_ok (validate_bins b) = true <-> b ∈ [32; 64; 128; 256].
Proof. unfold validate_bins. by case_bool_decide. Qed.

Lemma validate_channels_ok c : is_ok (validate_channels c) = true <-> c ∈ [1; 2].
Proof. unfold validate_channels. by case_bool_decide. Qed.

Lemma parse_envelope_valid v d : parse_envelope v = Some d -> valid d.
Proof.
  unfold parse_envelope. destruct (get_u64 (lit "v") v) as [ver|]; [|done]. cbn.
  destruct (negb _); [done|]. destruct (jget (lit "enabled") v); [|done]. cbn.
  destruct (as_bool _) as [en|]; [|done]. cbn. destruct (get_u64 (lit "bins") v) as [b|]; [|done]. cbn.
  destruct (is_ok (validate_bins _)) eqn:Hb; [|done]. cbn.
  destruct (get_u64 (lit "channels") v) as [c|]; [|done]. cbn.
  destruct (is_ok (validate_channels _)) eqn:Hc; [|done]. cbn.
  destruct (get_u64 (lit "rate_hz_target") v) as [r|]; [|done]. cbn.
  destruct (match jget _ v with None => _ | Some _ => _ end); [|done]. cbn.
  destruct (get_u64 (lit "updated_at_ms") v); [|done]. cbn. intros [= <-].
  split_and!; cbn; [by apply validate_bins_ok|by apply validate_channels_ok|apply clamp_rate_range..].
Qed.

Lemma disabled_default_valid : valid disabled_default.
Proof. split_and!; cbn; [..|lia|lia]; by apply (bool_decide_eq_true_1 _). Qed.

Lemma rehydrate_valid g : valid (rehydrate_or_default g).
Proof.
  unfold rehydrate_or_default. destruct (resolve_addressing g) as [[id|]|]; try apply disabled_default_valid.
  destruct (current_state id g) as [[v|]|]; try apply disabled_default_valid.
  destruct (parse_envelope v) eqn:Hp; [by eapply parse_envelope_valid|apply disabled_default_valid].
Qed.

Definition run_requests (reqs : list (N * Payload)) (st : SpectrumDemandStore G) : SpectrumDemandStore G :=
  foldl (fun st r => (handle_set_demand r.1 r.2 st).1) st reqs.

(** Whatever the mirror held at load and whatever requests have come since, the
    demand the producer reads asks for a supported number of bins and channels and for
    a rate between 1 and 60, and so does every demand it was ever sent. *)
Theorem demand_always_valid g reqs :
  let st := run_requests reqs (announce_initial g) in
  valid (demand st) /\ Forall valid (sent st).
Proof.
  cbn zeta. assert (H0 : valid (demand (announce_initial g)) /\ Forall valid (sent (announce_initial g)))
    by (split; [apply rehydrate_valid|constructor]).
  revert H0. generalize (announce_initial g). induction reqs as [|[now p] reqs IH]; intros st [Hd Hs]; [done|].
  cbn [run_requests foldl fst snd]. apply IH. unfold handle_set_demand.
  destruct (decode p) as [parsed|]; [|done]. destruct (negb _); [done|].
  destruct (validate_bins (req_bins parsed)) eqn:Hb; [|done].
  destruct (validate_channels (req_channels parsed)) eqn:Hc; [|done].
  cbn [fst apply demand sent].
  assert (Hv : valid {| enabled := req_enabled parsed; bins := req_bins parsed; channels := req_channels parsed;
      rate_hz_target := clamp_rate (req_rate_hz_target parsed);
      frequency_scale := req_frequency_scale parsed; updated_at_ms := now |}).
  { split_and!; cbn; [apply validate_bins_ok; by rewrite Hb|apply validate_channels_ok; by rewrite Hc
      |apply clamp_rate_range..]. }
  split; [exact Hv|]. apply Forall_app. split; [done|]. by apply Forall_singleton.
Qed.

(** ** Round trip and durability *)

Context `{!JsonLaws V}.

Lemma from_wire_scale s : from_wire (scale_str s) = Some s.
Proof. by destruct s. Qed.

(** A published demand is read back exactly. *)
Theorem parse_render_envelope d :
  valid d -> updated_at_ms d <= U64_MAX -> parse_envelope (render_envelope d) = Some d.
Proof.
  intros (Hb & Hc & Hr) Ht.
  assert (Hbs : bins d < 2 ^ 32) by (set_unfold; destruct_or!; subst; lia).
  assert (Hcs : channels d < 2 ^ 32) by (set_unfold; destruct_or!; subst; lia).
  assert (Hget : forall k, jget k (render_envelope d) = assoc k _)
    by (intros k; apply jget_object; apply (bool_decide_eq_true_1 _); by vm_compute).
  assert (H64 : forall n, n < 2 ^ 32 -> as_u64 (j_u64 n) = Some n)
    by (intros n Hn; apply as_u64_num; unfold U64_MAX; lia).
  unfold parse_envelope, get_u64. rewrite !Hget.
  change (assoc (lit "v") _) with (Some (j_u64 (V := V) DEMAND_PAYLOAD_VERSION)).
  change (assoc (lit "enabled") _) with (Some (j_bool (V := V) (enabled d))).
  change (assoc (lit "bins") _) with (Some (j_u64 (V := V) (bins d))).
  change (assoc (lit "channels") _) with (Some (j_u64 (V := V) (channels d))).
  change (assoc (lit "rate_hz_target") _) with (Some (j_u64 (V := V) (rate_hz_target d))).
  change (assoc (lit "frequency_scale") _) with (Some (j_str (V := V) (scale_str (frequency_scale d)))).
  change (assoc (lit "updated_at_ms") _) with (Some (j_u64 (V := V) (updated_at_ms d))).
  assert (Hrs : rate_hz_target d < 2 ^ 32) by lia.
  cbn [mbind option_bind].
  rewrite (H64 DEMAND_PAYLOAD_VERSION), (H64 (bins d)), (H64 (channels d)), (H64 (rate_hz_target d)) by done.
  rewrite as_bool_bool, as_str_str, as_u64_num by done.
  cbn [mbind option_bind]. unfold as_u32.
  rewrite (N.mod_small (bins d)), (N.mod_small (channels d)), (N.mod_small (rate_hz_target d)) by done.
  rewrite from_wire_scale.
  rewrite (proj2 (validate_bins_ok _) Hb), (proj2 (validate_channels_ok _) Hc), clamp_rate_id by done.
  by destruct d.
Qed.

(** The mirror keeps what a successful update wrote. *)
Context (update_kept : forall v g g', update_state v g = (g', Ok tt) ->
  exists id, resolve_addressing g' = Ok (Some id) /\ current_state id g' = Ok (Some v)).

Lemma handle_ok_valid now payload st st' d :
  handle_set_demand now payload st = (st', Ok d) -> valid d /\ st' = apply d st /\ updated_at_ms d = now.
Proof.
  unfold handle_set_demand. destruct (decode payload) as [parsed|]; [|done]. destruct (negb _); [done|].
  destruct (validate_bins (req_bins parsed)) eqn:Hb; [|done].
  destruct (validate_channels (req_channels parsed)) eqn:Hc; [|done]. intros [= <- <-].
  split; [|done]. split_and!; cbn; [apply validate_bins_ok; by rewrite Hb
    |apply validate_channels_ok; by rewrite Hc|apply clamp_rate_range..].
Qed.

(** The operator's demand survives a restart: once a request was answered with
    success and its update reached the mirror, a store built anew from that mirror
    starts with exactly the demand the answer reported. *)
Theorem demand_survives_restart now payload st st' d :
  now <= U64_MAX -> handle_set_demand now payload st = (st', Ok d) ->
  (update_state (render_envelope d) (registry st)).2 = Ok tt ->
  demand st' = d /\ demand (announce_initial (registry st')) = d.
Proof.
  intros Hnow Hrun Hup. apply handle_ok_valid in Hrun as (Hv & -> & Ht). split; [done|].
  cbn [announce_initial demand apply registry].
  destruct (update_state (render_envelope d) (registry st)) as [g' r] eqn:Hu. cbn [fst snd] in *. subst r.
  destruct (update_kept _ _ _ Hu) as (id & Hres & Hcur). unfold rehydrate_or_default.
  rewrite Hres, Hcur, parse_render_envelope; [done|done|by rewrite Ht].
Qed.

(** A refused request changes nothing: not the demand, not what was sent, not the
    registry. *)
Lemma handle_refused now payload st st' e :
  handle_set_demand now payload st = (st', Err e) -> st' = st.
Proof.
  unfold handle_set_demand. destruct (decode payload) as [parsed|]; [|by intros [= ->]].
  destruct (negb _); [by intros [= ->]|]. destruct (validate_bins _); [|by intros [= ->]].
  destruct (validate_channels _); [done|by intros [= ->]].
Qed.
End json.
Arguments SpectrumDemandStore G : clear implicits.
Arguments demand {G}.
Arguments sent {G}.
Arguments registry {G}.

(** ** Instances *)

Inductive Json := JNum (n : N) | JBool (b : bool) | JStr (s : str) | JObj (l : list (str * Json)).

#[export] Instance json_ops : JsonOps Json := {
  jget k v := match v with JObj l => assoc k l | _ => None end;
  as_u64 v := match v with JNum n => if n <=? U64_MAX then Some n else None | _ => None end;
  as_bool v := match v with JBool b => Some b | _ => None end;
  as_str v := match v with JStr s => Some s | _ => None end;
  j_u64 := JNum;
  j_bool := JBool;
  j_str := JStr;
  j_object := JObj;
}.

#[export] Instance json_laws : JsonLaws Json.
Proof.
  split; [|done..]. intros n Hn. cbn. by apply N.leb_le in Hn as ->.
Qed.

(** A registry that holds at most one subject and never fails. *)
#[export] Instance one_subject : SubjectRegistry (option Json) Json unit unit := {
  announce v g := (Some v, Ok tt);
  update_state v g := (Some v, Ok tt);
  resolve_addressing g := Ok (match g with Some _ => Some tt | None => None end);
  current_state _ g := Ok g;
}.

Definition demo_request : SetDemandRequest :=
  {| req_v := 1; req_enabled := true; req_bins := 64; req_channels := 2; req_rate_hz_target := 90;
     req_frequency_scale := Mel |}.
Definition demo_demand : SpectrumDemand :=
  {| enabled := true; bins := 64; channels := 2; rate_hz_target := 60; frequency_scale := Mel;
     updated_at_ms := 7 |}.
Definition demo_store : SpectrumDemandStore (option Json) :=
  {| demand := disabled_default; sent := []; registry := None |}.

(** A count beyond 32 bits is cut to its low 32 bits before it is checked, so an
    envelope whose field is out of range is not refused. *)
Theorem oversized_count_accepted :
  bins <$> parse_envelope (JObj
    [(lit "v", JNum (2 ^ 32 + 1)); (lit "enabled", JBool true); (lit "bins", JNum (2 ^ 32 + 32));
     (lit "channels", JNum 1); (lit "rate_hz_target", JNum 30); (lit "updated_at_ms", JNum 5)]) = Some 32.
Proof. by vm_compute. Qed.

Lemma parse_render_envelope_witness :
  parse_envelope (render_envelope (V := Json) demo_demand) = Some demo_demand.
Proof.
  apply (parse_render_envelope (V := Json) demo_demand); [|cbn; unfold U64_MAX; lia].
  split_and!; cbn; [..|lia|lia]; by apply (bool_decide_eq_true_1 _).
Defined.

Lemma one_subject_kept (v : Json) (g g' : option Json) :
  update_state v g = (g', Ok tt) ->
  exists id, resolve_addressing g' = Ok (Some id) /\ current_state id g' = Ok (Some v).
Proof. intros [= <-]. by exists tt. Qed.

Lemma demand_survives_restart_witness :
  demand (announce_initial (V := Json) (Some (render_envelope demo_demand))) = demo_demand.
Proof.
  destruct (demand_survives_restart (V := Json) (G := option Json) (fun r => Ok r) one_subject_kept
    7 demo_request demo_store
    {| demand := demo_demand; sent := [demo_demand]; registry := Some (render_envelope demo_demand) |} demo_demand)
    as [_ Hr]; [unfold U64_MAX; lia|by vm_compute|done|].
  exact Hr.
Defined.
