(* ===== verification/Coalescer.v ===== *)
(** * The artwork resolve coalescer ([crates/evo-device-audio-http/src/artwork_resolve_coalescer.rs])

    Concurrent requests for one artwork share one dispatch to the plugins: a memo with a
    short time to live in front of a single flight per key.  The tasks are a step
    machine: a step is what a task does between two points where another may run, that
    is, one critical section of the memo's lock or of the flights' lock, the answer of
    the fetcher, or the end of a wait.  [tokio]'s broadcast channel is the interface
    [Broadcast]; a channel carries at most one message here. *)

From stdpp Require Import gmap.
From S2P Require Import Prelude.
Local Open Scope N_scope.

(** ** Data *)

(** Durations and instants are in milliseconds. *)
Definition RESOLVE_MEMO_TTL : N := 30000.
Definition INFLIGHT_WAIT_DEADLINE : N := 30000.

(** [ResolveOutcome] *)
Abbreviation ResolveOutcome := (result (str * option str) str).

(** [Key] *)
Abbreviation Key := (str * str * str)%type.

(** [CoalesceError] *)
Inductive CoalesceError :=
| WaitDeadlineElapsed (scheme value size : str) (waited_ms : N)
| FetcherError (scheme value size reason : str).

(** [Display for CoalesceError] *)
Definition display (e : CoalesceError) : str :=
  match e with
  | WaitDeadlineElapsed scheme value size waited_ms =>
      lit "artwork resolve coalescer wait deadline elapsed for (scheme=" ++ scheme ++ lit ", value=" ++
      value ++ lit ", size=" ++ size ++ lit ") after " ++ dec waited_ms ++ lit " ms"
  | FetcherError scheme value size reason =>
      lit "artwork resolve fetcher failed for (scheme=" ++ scheme ++ lit ", value=" ++ value ++
      lit ", size=" ++ size ++ lit "): " ++ reason
  end.

(** [MemoEntry] and [MemoEntry::is_fresh] *)
Record MemoEntry := { outcome : ResolveOutcome; expires_at : N }.
Definition is_fresh (now : N) (e : MemoEntry) : bool := now <? expires_at e.

(** The result a caller gets for an outcome. *)
Definition wrap (k : Key) (o : ResolveOutcome) : result (str * option str) CoalesceError :=
  let '(scheme, value, size) := k in
  match o with
  | Ok hash => Ok hash
  | Err reason => Err (FetcherError scheme value size reason)
  end.

Definition deadline_elapsed (k : Key) (waited : N) : result (str * option str) CoalesceError :=
  let '(scheme, value, size) := k in Err (WaitDeadlineElapsed scheme value size (waited mod 2 ^ 64)).

(** [tokio::sync::broadcast], as a receiver sees it that subscribed to the open channel:
    a message sent before the sender is dropped is received, then the channel is
    closed. *)
Inductive Recv := Pending | Received (o : ResolveOutcome) | Closed.

Class Broadcast (ch : Type) := {
  channel : ch;
  send : ResolveOutcome -> ch -> ch;
  close : ch -> ch;
  recv : ch -> Recv;
  recv_open : recv channel = Pending;
  recv_closed : recv (close channel) = Closed;
  recv_sent : forall o, recv (close (send o channel)) = Received o;
}.

(** [ArtworkResolveCoalescer]; the map of flights holds the sender of each channel, and
    channels are named by numbers. *)
Record ArtworkResolveCoalescer := {
  memo : gmap Key MemoEntry;
  inflight : gmap Key nat;
  memo_ttl : N;
  wait_deadline : N;
}.

(** [with_tunables], [new] *)
Definition with_tunables (ttl deadline : N) : ArtworkResolveCoalescer :=
  {| memo := ∅; inflight := ∅; memo_ttl := ttl; wait_deadline := deadline |}.
Definition new : ArtworkResolveCoalescer := with_tunables RESOLVE_MEMO_TTL INFLIGHT_WAIT_DEADLINE.

Definition with_memo (m : gmap Key MemoEntry) (s : ArtworkResolveCoalescer) : ArtworkResolveCoalescer :=
  {| memo := m; inflight := inflight s; memo_ttl := memo_ttl s; wait_deadline := wait_deadline s |}.
Definition with_inflight (i : gmap Key nat) (s : ArtworkResolveCoalescer) : ArtworkResolveCoalescer :=
  {| memo := memo s; inflight := i; memo_ttl := memo_ttl s; wait_deadline := wait_deadline s |}.

(** [forget], [clear] *)
Definition forget (k : Key) (s : ArtworkResolveCoalescer) : ArtworkResolveCoalescer :=
  with_memo (delete k (memo s)) s.
Definition clear (s : ArtworkResolveCoalescer) : ArtworkResolveCoalescer := with_memo ∅ s.

(** Where a task is in [resolve_or_coalesce].  From [Fetching] to [Publish] it holds the
    [InflightGuard]; the outcome in the last two is the guard's. *)
Inductive Pc :=
| CheckMemo
| JoinInflight
| Waiting (c : nat) (started : N)
| Fetching
| Store (o : ResolveOutcome)
| Publish (o : ResolveOutcome)
| Returned (r : result (str * option str) CoalesceError)
| Cancelled.

Record Task := { task_key : Key; pc : Pc }.

(** The shared state, the channels, the tasks and the clock; [dispatched], [answers] and
    [stored] log the calls of fetchers, their answers and what was memoised. *)
Record World (ch : Type) := {
  shared : ArtworkResolveCoalescer;
  chans : list ch;
  tasks : gmap nat Task;
  clock : N;
  dispatched : list Key;
  answers : list (Key * ResolveOutcome);
  stored : list (Key * ResolveOutcome * N);
}.
Arguments shared {ch} w : rename.
Arguments chans {ch} w : rename.
Arguments tasks {ch} w : rename.
Arguments clock {ch} w : rename.
Arguments dispatched {ch} w : rename.
Arguments answers {ch} w : rename.
Arguments stored {ch} w : rename.

(** What may happen next: a request arrives, a task takes its next step, the fetcher of a
    task answers, a wait runs into its deadline, a request is dropped, the operator
    forgets a key or clears the memo, time passes. *)
Inductive Event :=
| Call (t : nat) (k : Key)
| Step (t : nat)
| Answer (t : nat) (o : ResolveOutcome)
| Elapse (t : nat)
| Cancel (t : nat)
| Forget (k : Key)
| Clear
| Tick (d : N).

Definition with_shared {ch} (s : ArtworkResolveCoalescer) (w : World ch) : World ch :=
  {| shared := s; chans := chans w; tasks := tasks w; clock := clock w;
     dispatched := dispatched w; answers := answers w; stored := stored w |}.
Definition with_chans {ch} (cs : list ch) (w : World ch) : World ch :=
  {| shared := shared w; chans := cs; tasks := tasks w; clock := clock w;
     dispatched := dispatched w; answers := answers w; stored := stored w |}.
Definition with_tasks {ch} (ts : gmap nat Task) (w : World ch) : World ch :=
  {| shared := shared w; chans := chans w; tasks := ts; clock := clock w;
     dispatched := dispatched w; answers := answers w; stored := stored w |}.
Definition with_clock {ch} (n : N) (w : World ch) : World ch :=
  {| shared := shared w; chans := chans w; tasks := tasks w; clock := n;
     dispatched := dispatched w; answers := answers w; stored := stored w |}.

Definition goto {ch} (t : nat) (k : Key) (p : Pc) (w : World ch) : World ch :=
  with_tasks (<[ t := {| task_key := k; pc := p |} ]> (tasks w)) w.

Definition log_dispatch {ch} (k : Key) (w : World ch) : World ch :=
  {| shared := shared w; chans := chans w; tasks := tasks w; clock := clock w;
     dispatched := k :: dispatched w; answers := answers w; stored := stored w |}.
Definition log_answer {ch} (k : Key) (o : ResolveOutcome) (w : World ch) : World ch :=
  {| shared := shared w; chans := chans w; tasks := tasks w; clock := clock w;
     dispatched := dispatched w; answers := (k, o) :: answers w; stored := stored w |}.
Definition log_stored {ch} (k : Key) (o : ResolveOutcome) (w : World ch) : World ch :=
  {| shared := shared w; chans := chans w; tasks := tasks w; clock := clock w;
     dispatched := dispatched w; answers := answers w; stored := (k, o, clock w) :: stored w |}.

(** ** Steps *)

Section steps.
Context {ch : Type} `{Broadcast ch}.

(** The memo check: a fresh entry answers, an expired one is removed. *)
Definition check_memo (t : nat) (k : Key) (w : World ch) : World ch :=
  match memo (shared w) !! k with
  | Some e =>
      if is_fresh (clock w) e then goto t k (Returned (wrap k (outcome e))) w
      else goto t k JoinInflight (with_shared (with_memo (delete k (memo (shared w))) (shared w)) w)
  | None => goto t k JoinInflight w
  end.

(** Join the flight of the key, or open one and call the fetcher. *)
Definition join_inflight (t : nat) (k : Key) (w : World ch) : World ch :=
  match inflight (shared w) !! k with
  | Some c => goto t k (Waiting c (clock w)) w
  | None =>
      let c := length (chans w) in
      goto t k Fetching
        (log_dispatch k
           (with_chans (chans w ++ [channel])
              (with_shared (with_inflight (<[ k := c ]> (inflight (shared w))) (shared w)) w)))
  end.

(** [Drop for InflightGuard], with the outcome the guard holds. *)
Definition drop_guard (k : Key) (o : option ResolveOutcome) (w : World ch) : World ch :=
  match inflight (shared w) !! k with
  | Some c =>
      with_chans
        (alter (fun b => close (match o with Some v => send v b | None => b end)) c (chans w))
        (with_shared (with_inflight (delete k (inflight (shared w))) (shared w)) w)
  | None => w
  end.

(** Memoise the outcome. *)
Definition store (t : nat) (k : Key) (o : ResolveOutcome) (w : World ch) : World ch :=
  let e := {| outcome := o; expires_at := clock w + memo_ttl (shared w) |} in
  goto t k (Publish o)
    (log_stored k o (with_shared (with_memo (<[ k := e ]> (memo (shared w))) (shared w)) w)).

(** The next step of a task; [None] when it has to wait. *)
Definition step_task (t : nat) (w : World ch) : option (World ch) :=
  match tasks w !! t with
  | None => None
  | Some {| task_key := k; pc := p |} =>
      match p with
      | CheckMemo => Some (check_memo t k w)
      | JoinInflight => Some (join_inflight t k w)
      | Waiting c _ =>
          match chans w !! c with
          | None => None
          | Some b =>
              match recv b with
              | Pending => None
              | Received o => Some (goto t k (Returned (wrap k o)) w)
              | Closed => Some (goto t k CheckMemo w)
              end
          end
      | Store o => Some (store t k o w)
      | Publish o => Some (goto t k (Returned (wrap k o)) (drop_guard k (Some o) w))
      | Fetching | Returned _ | Cancelled => None
      end
  end.

(** A request is dropped at one of its awaits, or before it runs. *)
Definition cancel (t : nat) (w : World ch) : option (World ch) :=
  match tasks w !! t with
  | Some {| task_key := k; pc := CheckMemo |}
  | Some {| task_key := k; pc := Waiting _ _ |} => Some (goto t k Cancelled w)
  | Some {| task_key := k; pc := Fetching |} => Some (goto t k Cancelled (drop_guard k None w))
  | _ => None
  end.

Definition step (w : World ch) (e : Event) : option (World ch) :=
  match e with
  | Call t k => match tasks w !! t with None => Some (goto t k CheckMemo w) | Some _ => None end
  | Step t => step_task t w
  | Answer t o =>
      match tasks w !! t with
      | Some {| task_key := k; pc := Fetching |} => Some (goto t k (Store o) (log_answer k o w))
      | _ => None
      end
  | Elapse t =>
      match tasks w !! t with
      | Some {| task_key := k; pc := Waiting _ started |} =>
          if started + wait_deadline (shared w) <=? clock w
          then Some (goto t k (Returned (deadline_elapsed k (clock w - started))) w)
          else None
      | _ => None
      end
  | Cancel t => cancel t w
  | Forget k => Some (with_shared (forget k (shared w)) w)
  | Clear => Some (with_shared (clear (shared w)) w)
  | Tick d => Some (with_clock (clock w + d) w)
  end.

Fixpoint run (w : World ch) (es : list Event) : option (World ch) :=
  match es with
  | [] => Some w
  | e :: es' => match step w e with Some w' => run w' es' | None => None end
  end.

Definition initial (s : ArtworkResolveCoalescer) (now : N) : World ch :=
  {| shared := s; chans := []; tasks := ∅; clock := now; dispatched := []; answers := []; stored := [] |}.

(** The worlds that can come about with the given tunables. *)
Inductive reachable (ttl deadline : N) : World ch -> Prop :=
| reachable_start now : reachable ttl deadline (initial (with_tunables ttl deadline) now)
| reachable_step w e w' : reachable ttl deadline w -> step w e = Some w' -> reachable ttl deadline w'.

(** ** The invariant *)

(** A task that holds the guard of its key. *)
Definition holds_guard (p : Pc) : bool :=
  match p with Fetching | Store _ | Publish _ => true | _ => false end.

(** What a task of a key may have in its hands, given the answers so far. *)
Definition justified (ans : list (Key * ResolveOutcome)) (deadline : N) (k : Key) (p : Pc) : Prop :=
  match p with
  | Store o | Publish o => (k, o) ∈ ans
  | Returned r =>
      (exists o, (k, o) ∈ ans /\ r = wrap k o) \/
      exists waited, deadline <= waited /\ r = deadline_elapsed k waited
  | _ => True
  end.

(** Task [t] holds the guard of key [k]. *)
Definition holder (w : World ch) (t : nat) (k : Key) : Prop :=
  exists p, tasks w !! t = Some {| task_key := k; pc := p |} /\ holds_guard p = true.

(** The channel a waiter holds: of the flight of its key, or ready. *)
Definition waits_on (w : World ch) (k : Key) (c : nat) : Prop :=
  (forall k', inflight (shared w) !! k' = Some c -> k' = k) /\
  exists b, chans w !! c = Some b /\
    (inflight (shared w) !! k = Some c \/ recv b = Closed \/
     exists o, recv b = Received o /\ (k, o) ∈ answers w).

(** One flight per key, held by one task; a waiter's channel is open as long as the flight
    it joined, and then it is ready. *)
Record flights_ok (w : World ch) : Prop := {
  f_open : forall k c, inflight (shared w) !! k = Some c -> chans w !! c = Some channel;
  f_inj : forall k k' c, inflight (shared w) !! k = Some c -> inflight (shared w) !! k' = Some c -> k = k';
  f_holder : forall k, is_Some (inflight (shared w) !! k) <-> exists t, holder w t k;
  f_unique : forall t t' k, holder w t k -> holder w t' k -> t = t';
  f_waiter : forall t k c s, tasks w !! t = Some {| task_key := k; pc := Waiting c s |} -> waits_on w k c;
}.

(** Every outcome in the memo or in the hands of a task is an answer of that key. *)
Record outcomes_ok (ttl deadline : N) (w : World ch) : Prop := {
  o_tunables : memo_ttl (shared w) = ttl /\ wait_deadline (shared w) = deadline;
  o_task : forall t k p, tasks w !! t = Some {| task_key := k; pc := p |} ->
    justified (answers w) deadline k p;
  o_memo : forall k e, memo (shared w) !! k = Some e ->
    exists at_, (k, outcome e, at_) ∈ stored w /\ expires_at e = at_ + ttl;
  o_stored : forall k o at_, (k, o, at_) ∈ stored w -> (k, o) ∈ answers w /\ at_ <= clock w;
  o_started : forall t k c s, tasks w !! t = Some {| task_key := k; pc := Waiting c s |} -> s <= clock w;
}.

(** ** Frame lemmas *)

Implicit Types (w : World ch) (k : Key) (t : nat).

Lemma tasks_goto t k p w t' x :
  tasks (goto t k p w) !! t' = Some x <->
  (t' = t /\ x = {| task_key := k; pc := p |}) \/ (t' <> t /\ tasks w !! t' = Some x).
Proof. cbn. rewrite lookup_insert_Some. naive_solver. Qed.

Lemma holder_goto t k p w t' k' :
  holder (goto t k p w) t' k' <->
  (t' = t /\ k' = k /\ holds_guard p = true) \/ (t' <> t /\ holder w t' k').
Proof.
  unfold holder. setoid_rewrite tasks_goto. split.
  - intros (q & [(-> & [= -> ->])|(Hne & Hq)] & Hg); eauto 6.
  - intros [(-> & -> & Hg)|(Hne & q & Hq & Hg)]; eauto 6.
Qed.

Lemma waits_on_frame w w' k c :
  inflight (shared w') = inflight (shared w) -> chans w' = chans w -> answers w ⊆ answers w' ->
  waits_on w k c -> waits_on w' k c.
Proof.
  unfold waits_on. intros -> -> Hans (Hk & b & Hb & Hr). split; [done|].
  exists b. split; [done|]. destruct Hr as [?|[?|(o & ? & ?)]]; eauto 6.
Qed.

(** Nothing changes for the flights when only the memo, the clock or a log does. *)
Lemma flights_frame w w' :
  inflight (shared w') = inflight (shared w) -> chans w' = chans w -> tasks w' = tasks w ->
  answers w ⊆ answers w' -> flights_ok w -> flights_ok w'.
Proof.
  intros Hi Hc Ht Ha [Ho Hj Hh Hu Hw].
  assert (Hhold : forall t k, holder w' t k <-> holder w t k) by (unfold holder; by rewrite Ht).
  split.
  - rewrite Hi, Hc. done.
  - rewrite Hi. done.
  - intros k. rewrite Hi, Hh. by setoid_rewrite Hhold.
  - intros t t' k. rewrite !Hhold. eauto.
  - intros t k c s. rewrite Ht. intros Ht'. eapply waits_on_frame; eauto.
Qed.

(** A task moves on without taking or giving up a guard. *)
Lemma flights_goto t k p w :
  flights_ok w ->
  (forall k', holder w t k' <-> k' = k /\ holds_guard p = true) ->
  (forall c s, p = Waiting c s -> waits_on w k c) ->
  flights_ok (goto t k p w).
Proof.
  intros [Ho Hj Hh Hu Hw] Hsame Hwait. split; try done.
  - intros k'. change (shared (goto t k p w)) with (shared w). rewrite Hh.
    setoid_rewrite holder_goto. split.
    + intros (t' & Ht'). destruct (decide (t' = t)) as [->|Hne].
      * apply Hsame in Ht' as [-> Hp]. exists t. eauto.
      * exists t'. eauto.
    + intros (t' & [(-> & -> & Hp)|(_ & Ht')]); [exists t; by apply Hsame|eauto].
  - intros t1 t2 k'. rewrite !holder_goto.
    intros [(-> & -> & Hp)|(Hne1 & H1)] [(-> & ? & Hp')|(Hne2 & H2)]; subst; try done.
    + apply (Hu t t2 k); [by apply Hsame|done].
    + apply (Hu t1 t k); [done|by apply Hsame].
    + by apply (Hu t1 t2 k').
  - intros t' k' c s [(-> & [= -> Hp])|(Hne & Ht')]%tasks_goto.
    + apply (waits_on_frame w); eauto.
    + apply (waits_on_frame w); eauto.
Qed.

(** A task that finds no flight opens one. *)
Lemma flights_open t k w :
  flights_ok w -> inflight (shared w) !! k = None -> (forall k', ~ holder w t k') ->
  flights_ok (join_inflight t k w).
Proof.
  intros [Ho Hj Hh Hu Hw] Hnone Hidle. unfold join_inflight. rewrite Hnone.
  assert (Hlt : forall k' c, inflight (shared w) !! k' = Some c -> (c < length (chans w))%nat)
    by (intros k' c Hc; by apply lookup_lt_is_Some; exists channel; apply (Ho k')).
  assert (Hfree : forall t', ~ holder w t' k)
    by (intros t' Ht'; assert (is_Some (inflight (shared w) !! k)) as [? ?]
          by (apply Hh; eauto); congruence).
  set (w1 := log_dispatch _ _).
  assert (Hhold : forall t' k', holder w1 t' k' <-> holder w t' k') by done.
  split.
  - intros k' c. cbn. rewrite lookup_insert_Some. intros [(<- & <-)|(Hne & Hc)].
    + by apply list_lookup_middle.
    + rewrite lookup_app_l; [by apply (Ho k')|by apply (Hlt k')].
  - intros k1 k2 c. cbn. rewrite !lookup_insert_Some.
    intros [(<- & <-)|(Hne1 & H1)] [(<- & Hc)|(Hne2 & H2)]; try done.
    + apply Hlt in H2. lia.
    + subst c. apply Hlt in H1. lia.
    + by apply (Hj _ _ c).
  - intros k'. setoid_rewrite holder_goto. setoid_rewrite Hhold. cbn.
    rewrite lookup_insert_is_Some. rewrite Hh. split.
    + intros [->|(Hne & t' & Ht')]; [exists t; auto|].
      exists t'. right. split; [|done]. intros ->. by apply (Hidle k').
    + intros (t' & [(_ & -> & _)|(_ & Ht')]); [by left|].
      right. split; [|eauto]. intros ->. by apply (Hfree t').
  - intros t1 t2 k'. rewrite !holder_goto, !Hhold.
    intros [(-> & -> & _)|(Hne1 & H1)] [(-> & ? & _)|(Hne2 & H2)]; subst; try done.
    + by destruct (Hfree t2).
    + by destruct (Hfree t1).
    + by apply (Hu t1 t2 k').
  - intros t' k' c s [(-> & [= -> Hp])|(Hne & Ht')]%tasks_goto.
    destruct (Hw _ _ _ _ Ht') as (Hown & b & Hb & Hr).
    assert (Hc : (c < length (chans w))%nat) by (apply lookup_lt_is_Some; eauto).
    split.
    + intros k2. cbn. rewrite lookup_insert_Some. intros [(_ & <-)|(_ & Hk2)]; [lia|eauto].
    + exists b. split; [cbn; by rewrite lookup_app_l|]. destruct Hr as [Hi|Hr]; [left|by right].
      cbn. apply lookup_insert_Some. right. split; [|done]. intros ->. congruence.
Qed.

(** What the waiters of a flight see once its guard is dropped. *)
Lemma recv_dropped (o : option ResolveOutcome) :
  recv (close (match o with Some v => send v channel | None => channel end)) =
  match o with Some v => Received v | None => Closed end.
Proof. destruct o; [apply recv_sent|apply recv_closed]. Qed.

(** The holder of the guard drops it. *)
Lemma flights_release t k p o w :
  flights_ok w -> holder w t k -> (forall k', holder w t k' -> k' = k) ->
  (forall v, o = Some v -> (k, v) ∈ answers w) ->
  holds_guard p = false -> (forall c s, p <> Waiting c s) ->
  flights_ok (goto t k p (drop_guard k o w)).
Proof.
  intros Hf Hhold Honly Hans Hp Hnw.
  pose proof Hf as [Ho Hj Hh Hu Hw].
  assert (is_Some (inflight (shared w) !! k)) as [c Hc] by (apply Hh; eauto).
  unfold drop_guard. rewrite Hc. set (w1 := with_chans _ _).
  assert (Hw1 : forall t' k', holder w1 t' k' <-> holder w t' k') by done.
  split.
  - intros k' c'. cbn. rewrite lookup_delete_Some. intros (Hne & Hc').
    rewrite list_lookup_alter, decide_False; [by apply (Ho k')|]. intros ->. apply Hne. by apply (Hj _ _ c').
  - intros k1 k2 c'. cbn. rewrite !lookup_delete_Some. intros (_ & H1) (_ & H2). by apply (Hj _ _ c').
  - intros k'. setoid_rewrite holder_goto. setoid_rewrite Hw1. cbn.
    rewrite lookup_delete_is_Some. rewrite Hh, Hp. split.
    + intros (Hne & t' & Ht'). exists t'. right. split; [|done].
      intros ->. by apply Hne, eq_sym, Honly.
    + intros (t' & [(_ & _ & [=])|(Hne & Ht')]). split; [|eauto].
      intros ->. apply Hne. by apply (Hu t' t k').
  - intros t1 t2 k'. rewrite !holder_goto, !Hw1.
    intros [(_ & _ & ?)|(Hne1 & H1)] [(_ & _ & ?)|(Hne2 & H2)]; try congruence. by apply (Hu t1 t2 k').
  - intros t' k' c' s [(-> & [= -> Hq])|(Hne & Ht')]%tasks_goto; [by destruct (Hnw c' s)|].
    destruct (Hw _ _ _ _ Ht') as (Hown & b & Hb & Hr). split.
    + intros k2. cbn. rewrite lookup_delete_Some. intros (_ & Hk2). by apply Hown.
    + cbn. destruct (decide (c' = c)) as [->|Hnc].
      * assert (k = k') as -> by (by apply Hown).
        rewrite list_lookup_alter, decide_True, Hb by done. eexists. split; [reflexivity|]. right.
        assert (b = channel) as -> by (apply Ho in Hc; congruence).
        rewrite (recv_dropped o). destruct o as [v|]; [right; exists v; auto|by left].
      * rewrite list_lookup_alter, decide_False by done. exists b. split; [done|].
        destruct Hr as [Hi|Hr]; [left|by right]. apply lookup_delete_Some. split; [|done].
        intros ->. congruence.
Qed.

(** A task's holding of guards, read off its state. *)
Lemma holder_at w t k p k' :
  tasks w !! t = Some {| task_key := k; pc := p |} -> (holder w t k' <-> k' = k /\ holds_guard p = true).
Proof.
  intros Ht. unfold holder. rewrite Ht. split; [|intros [-> ?]; eauto].
  by intros (q & [= -> ->] & ?).
Qed.

Lemma flights_initial s now : inflight s = ∅ -> flights_ok (initial s now).
Proof.
  intros Hs. assert (Hno : forall t k, ~ holder (initial s now) t k) by (intros t k (p & Ht & _); done).
  split; cbn; rewrite ?Hs.
  - by intros k c.
  - by intros k k' c.
  - intros k. split; [by intros [? ?]|]. intros (t & Ht). by destruct (Hno t k).
  - intros t t' k Ht. by destruct (Hno t k).
  - by intros t k c s'.
Qed.

(** ** Every step keeps the invariant *)

(** What a step does: the case analysis that the proofs about steps share. *)
Lemma step_task_cases t w w' :
  step_task t w = Some w' ->
  exists k p, tasks w !! t = Some {| task_key := k; pc := p |} /\
  ((p = CheckMemo /\ w' = check_memo t k w) \/
   (p = JoinInflight /\ w' = join_inflight t k w) \/
   (exists c s b o, p = Waiting c s /\ chans w !! c = Some b /\ recv b = Received o /\
      w' = goto t k (Returned (wrap k o)) w) \/
   (exists c s b, p = Waiting c s /\ chans w !! c = Some b /\ recv b = Closed /\ w' = goto t k CheckMemo w) \/
   (exists o, p = Store o /\ w' = store t k o w) \/
   (exists o, p = Publish o /\ w' = goto t k (Returned (wrap k o)) (drop_guard k (Some o) w))).
Proof.
  unfold step_task. intros Hs. destruct (tasks w !! t) as [[k p]|]; [|done]. exists k, p. split; [done|].
  destruct p as [| |c s| |o|o|r|]; simplify_eq; eauto 10.
  destruct (chans w !! c) as [b|] eqn:Hb; [|done]. destruct (recv b) eqn:Hr; simplify_eq; eauto 12.
Qed.

Lemma flights_check_memo t k w :
  flights_ok w -> tasks w !! t = Some {| task_key := k; pc := CheckMemo |} -> flights_ok (check_memo t k w).
Proof.
  intros Hf Ht. unfold check_memo.
  destruct (memo (shared w) !! k) as [e|]; [destruct (is_fresh _ _)|]; apply flights_goto; try done;
    try (intros k'; by rewrite (holder_at _ _ _ _ k' Ht)).
  by apply (flights_frame w).
Qed.

Lemma flights_join t k w :
  flights_ok w -> tasks w !! t = Some {| task_key := k; pc := JoinInflight |} -> flights_ok (join_inflight t k w).
Proof.
  intros Hf Ht. destruct (inflight (shared w) !! k) as [c|] eqn:Hc.
  - unfold join_inflight. rewrite Hc. apply flights_goto; [done| |].
    + intros k'. by rewrite (holder_at _ _ _ _ k' Ht).
    + intros c' s [= <- _]. split; [intros k' Hk'; by apply (f_inj _ Hf _ _ c)|].
      exists channel. split; [by apply (f_open _ Hf k)|by left].
  - apply flights_open; try done. intros k'. rewrite (holder_at _ _ _ _ k' Ht). by intros [_ ?].
Qed.

Lemma flights_task t ttl deadline w w' :
  flights_ok w -> outcomes_ok ttl deadline w -> step_task t w = Some w' -> flights_ok w'.
Proof.
  intros Hf Ho (k & p & Ht & Hc)%step_task_cases.
  destruct Hc as [(-> & ->)|[(-> & ->)|[(c & s & b & o & -> & _ & _ & ->)|
    [(c & s & b & -> & _ & _ & ->)|[(o & -> & ->)|(o & -> & ->)]]]]].
  - by apply flights_check_memo.
  - by apply flights_join.
  - apply flights_goto; try done. intros k'. by rewrite (holder_at _ _ _ _ k' Ht).
  - apply flights_goto; try done. intros k'. by rewrite (holder_at _ _ _ _ k' Ht).
  - apply flights_goto; [by apply (flights_frame w)| |done].
    intros k'. apply (holder_at w _ _ _ k' Ht).
  - apply flights_release; try done.
    + apply (holder_at _ _ _ _ k Ht). done.
    + intros k'. rewrite (holder_at _ _ _ _ k' Ht). by intros [-> _].
    + intros v [= <-]. apply (o_task _ _ _ Ho t k _ Ht).
Qed.

Lemma flights_step ttl deadline e w w' :
  flights_ok w -> outcomes_ok ttl deadline w -> step w e = Some w' -> flights_ok w'.
Proof.
  intros Hf Ho Hs. destruct e as [t k|t|t o|t|t|k| |d]; cbn in Hs.
  - destruct (tasks w !! t) eqn:Ht; simplify_eq. apply flights_goto; try done.
    intros k'. unfold holder. rewrite Ht. naive_solver.
  - by eapply flights_task.
  - destruct (tasks w !! t) as [[k [] ]|] eqn:Ht; simplify_eq. apply flights_goto; [|intros k'; apply (holder_at w _ _ _ k' Ht)|done].
    apply (flights_frame w); try done. cbn. set_solver.
  - destruct (tasks w !! t) as [[k [] ]|] eqn:Ht; simplify_eq. case_match; simplify_eq.
    apply flights_goto; try done. intros k'. by rewrite (holder_at _ _ _ _ k' Ht).
  - unfold cancel in Hs. destruct (tasks w !! t) as [[k [] ]|] eqn:Ht; simplify_eq.
    1-2: apply flights_goto; try done; intros k'; by rewrite (holder_at _ _ _ _ k' Ht).
    apply flights_release; try done.
    + apply (holder_at _ _ _ _ k Ht). done.
    + intros k'. rewrite (holder_at _ _ _ _ k' Ht). by intros [-> _].
  - simplify_eq. by apply (flights_frame w).
  - simplify_eq. by apply (flights_frame w).
  - simplify_eq. by apply (flights_frame w).
Qed.

Lemma justified_mono ans ans' deadline k p :
  ans ⊆ ans' -> justified ans deadline k p -> justified ans' deadline k p.
Proof. intros Hs. destruct p; cbn; try done; [by apply Hs..|]. intros [(o & ? & ?)|?]; eauto. Qed.

(** A task moves on with something justified in its hands. *)
Lemma outcomes_goto ttl deadline t k p w :
  outcomes_ok ttl deadline w -> justified (answers w) deadline k p ->
  (forall c s, p = Waiting c s -> s <= clock w) -> outcomes_ok ttl deadline (goto t k p w).
Proof.
  intros [Hc Ht Hm Hs Hst] Hp Hw. split; try done.
  - intros t' k' p' [(-> & [= -> ->])|(_ & Ht')]%tasks_goto; [done|by apply (Ht t')].
  - intros t' k' c s [(-> & [= -> Hq])|(_ & Ht')]%tasks_goto; [by apply (Hw c)|by apply (Hst t' k' c)].
Qed.

(** The memo may lose entries and the logs may grow. *)
Lemma outcomes_frame ttl deadline w w' :
  memo_ttl (shared w') = memo_ttl (shared w) -> wait_deadline (shared w') = wait_deadline (shared w) ->
  memo (shared w') ⊆ memo (shared w) -> tasks w' = tasks w ->
  answers w ⊆ answers w' -> stored w' = stored w -> clock w <= clock w' ->
  outcomes_ok ttl deadline w -> outcomes_ok ttl deadline w'.
Proof.
  intros E1 E2 Hm Et Ha Es Hn [Hc Ht Hme Hs Hst]. split.
  - by rewrite E1, E2.
  - intros t k p. rewrite Et. intros Ht'. eapply justified_mono; eauto.
  - intros k e He. rewrite Es. eapply Hme, lookup_weaken; eauto.
  - intros k o at_. rewrite Es. intros [? ?]%Hs. split; [by apply Ha|lia].
  - intros t k c s. rewrite Et. intros Hw%Hst. lia.
Qed.

Lemma outcomes_guard ttl deadline k o w :
  outcomes_ok ttl deadline w -> outcomes_ok ttl deadline (drop_guard k o w).
Proof.
  intros Ho. unfold drop_guard. destruct (inflight (shared w) !! k); [|done].
  by apply (outcomes_frame _ _ w).
Qed.

Lemma outcomes_check_memo ttl deadline t k w :
  outcomes_ok ttl deadline w -> outcomes_ok ttl deadline (check_memo t k w).
Proof.
  intros Ho. unfold check_memo. destruct (memo (shared w) !! k) as [e|] eqn:He; [|by apply outcomes_goto].
  destruct (is_fresh _ _).
  - apply outcomes_goto; [done| |done]. left. exists (outcome e). split; [|done].
    destruct (o_memo _ _ _ Ho _ _ He) as (at_ & Hin & _). apply (o_stored _ _ _ Ho _ _ _ Hin).
  - apply outcomes_goto; [|done..]. apply (outcomes_frame _ _ w); try done. apply delete_subseteq.
Qed.

Lemma outcomes_store ttl deadline t k o w :
  outcomes_ok ttl deadline w -> (k, o) ∈ answers w -> outcomes_ok ttl deadline (store t k o w).
Proof.
  intros [[Hc1 Hc2] Ht Hm Hs Hst] Ho. apply outcomes_goto; [|done..]. split; try done; cbn.
  - intros k' e. rewrite lookup_insert_Some. intros [(<- & <-)|(_ & He)]; cbn.
    + exists (clock w). split; [apply list_elem_of_here|by rewrite Hc1].
    + destruct (Hm _ _ He) as (at_ & ? & ?). exists at_. split; [by apply list_elem_of_further|done].
  - intros k' o' at_ [[= -> -> ->]|Hin]%elem_of_cons; [split; [done|lia]|by apply Hs].
Qed.

Lemma outcomes_task ttl deadline t w w' :
  flights_ok w -> outcomes_ok ttl deadline w -> step_task t w = Some w' -> outcomes_ok ttl deadline w'.
Proof.
  intros Hf Ho (k & p & Ht & Hc)%step_task_cases. pose proof (o_task _ _ _ Ho _ _ _ Ht) as Hj.
  destruct Hc as [(-> & ->)|[(-> & ->)|[(c & s & b & o & -> & Hb & Hr & ->)|
    [(c & s & b & -> & _ & _ & ->)|[(o & -> & ->)|(o & -> & ->)]]]]].
  - by apply outcomes_check_memo.
  - unfold join_inflight. case_match; apply outcomes_goto; try done; [|by apply (outcomes_frame _ _ w)].
    by intros ? ? [= _ <-].
  - apply outcomes_goto; [done| |done]. left. exists o. split; [|done].
    destruct (f_waiter _ Hf _ _ _ _ Ht) as (_ & b' & Hb' & Hcase). rewrite Hb in Hb'. simplify_eq.
    destruct Hcase as [Hi|[Hcl|(o' & Ho' & Hin)]].
    + apply (f_open _ Hf) in Hi. rewrite Hb in Hi. simplify_eq. by rewrite recv_open in Hr.
    + congruence.
    + congruence.
  - by apply outcomes_goto.
  - by apply outcomes_store.
  - apply outcomes_goto; [by apply outcomes_guard| |done]. left. exists o. split; [|done].
    unfold drop_guard. by case_match.
Qed.

Lemma outcomes_step ttl deadline e w w' :
  flights_ok w -> outcomes_ok ttl deadline w -> step w e = Some w' -> outcomes_ok ttl deadline w'.
Proof.
  intros Hf Ho Hs. destruct e as [t k|t|t o|t|t|k| |d]; cbn in Hs.
  - destruct (tasks w !! t); simplify_eq. by apply outcomes_goto.
  - by eapply outcomes_task.
  - destruct (tasks w !! t) as [[k [] ]|]; simplify_eq. apply outcomes_goto; [|apply list_elem_of_here|done].
    apply (outcomes_frame _ _ w); try done. cbn. set_solver.
  - destruct (tasks w !! t) as [[k [] ]|]; simplify_eq. case_match; simplify_eq.
    apply outcomes_goto; [done| |done]. right. eexists. split; [|reflexivity].
    destruct (o_tunables _ _ _ Ho) as [_ <-]. match goal with E : (_ <=? _) = true |- _ => apply N.leb_le in E; lia end.
  - unfold cancel in Hs. destruct (tasks w !! t) as [[k [] ]|]; simplify_eq; apply outcomes_goto; try done.
    by apply outcomes_guard.
  - simplify_eq. apply (outcomes_frame _ _ w); try done. apply delete_subseteq.
  - simplify_eq. apply (outcomes_frame _ _ w); try done. apply map_empty_subseteq.
  - simplify_eq. apply (outcomes_frame _ _ w); try done. cbn. lia.
Qed.

Lemma reachable_ok ttl deadline w : reachable ttl deadline w -> flights_ok w /\ outcomes_ok ttl deadline w.
Proof.
  induction 1 as [now|w e w' _ [Hf Ho] Hs].
  - split; [by apply flights_initial|]. split; cbn; try done. by intros ? ? ? ?%elem_of_nil.
  - split; [by eapply flights_step|by eapply outcomes_step].
Qed.

(** ** What callers get *)

(** C20: [resolve_or_coalesce]: single flight.  Whatever requests arrive, are dropped, time
    out or are answered in whatever order, at most one task per key is fetching (holds
    the guard), a key has a flight exactly when a task holds its guard, and a waiter
    either has such a task to wait for or can go on at once: no flight outlives its
    fetcher and no waiter is left on a dead one. *)
Theorem single_flight ttl deadline w :
  reachable ttl deadline w ->
  (forall t t' k, holder w t k -> holder w t' k -> t = t') /\
  (forall k, is_Some (inflight (shared w) !! k) <-> exists t, holder w t k) /\
  (forall t k c s, tasks w !! t = Some {| task_key := k; pc := Waiting c s |} ->
     (exists t', holder w t' k) \/ is_Some (step_task t w)).
Proof.
  intros [Hf _]%reachable_ok. split; [apply (f_unique _ Hf)|split; [apply (f_holder _ Hf)|]].
  intros t k c s Ht. destruct (f_waiter _ Hf _ _ _ _ Ht) as (_ & b & Hb & [Hi|Hr]).
  - left. apply (f_holder _ Hf). by exists c.
  - right. unfold step_task. rewrite Ht, Hb. destruct Hr as [->|(o & -> & _)]; by eexists.
Qed.

(** [resolve_or_coalesce]: what a request returns.  A hash, or a fetcher error, is an
    answer a fetcher gave for the same key (and the error names the key); a deadline
    error names the key and a wait of at least the deadline.  No request is given
    another key's outcome or an outcome nobody fetched. *)
Theorem returned_outcome ttl deadline w t k r :
  reachable ttl deadline w -> tasks w !! t = Some {| task_key := k; pc := Returned r |} ->
  match r with
  | Ok hash => (k, Ok hash) ∈ answers w
  | Err (FetcherError scheme value size reason) => k = (scheme, value, size) /\ (k, Err reason) ∈ answers w
  | Err (WaitDeadlineElapsed scheme value size ms) =>
      k = (scheme, value, size) /\ exists waited, deadline <= waited /\ ms = waited mod 2 ^ 64
  end.
Proof.
  intros [_ Ho]%reachable_ok Ht. destruct k as [[scheme value] size].
  destruct (o_task _ _ _ Ho _ _ _ Ht) as [(o & Hin & ->)|(waited & Hd & ->)]; cbn.
  - by destruct o.
  - eauto.
Qed.

(** The memo check answers a request only from an outcome that was stored for the
    same key less than the time to live ago, and then the fetcher is not called. *)
Theorem memo_hit_fresh ttl deadline w t k w' r :
  reachable ttl deadline w -> tasks w !! t = Some {| task_key := k; pc := CheckMemo |} ->
  step w (Step t) = Some w' -> tasks w' !! t = Some {| task_key := k; pc := Returned r |} ->
  dispatched w' = dispatched w /\
  exists o at_, (k, o, at_) ∈ stored w /\ r = wrap k o /\ at_ <= clock w < at_ + ttl.
Proof.
  intros [_ Ho]%reachable_ok Ht Hs Hr. cbn in Hs. unfold step_task in Hs. rewrite Ht in Hs.
  simplify_eq. unfold check_memo in *. destruct (memo (shared w) !! k) as [e|] eqn:He.
  2: by apply tasks_goto in Hr as [(_ & ?)|(? & _)].
  destruct (is_fresh _ _) eqn:Hfr; apply tasks_goto in Hr as [(_ & [= ->])|(? & _)]; try done.
  split; [done|]. destruct (o_memo _ _ _ Ho _ _ He) as (at_ & Hin & Hex).
  exists (outcome e), at_. split; [done|]. split; [done|].
  destruct (o_stored _ _ _ Ho _ _ _ Hin) as [_ ?]. apply N.ltb_lt in Hfr. lia.
Qed.

(** What may happen to task [t] alone, and how much time that takes. *)
Definition own (t : nat) (e : Event) : bool :=
  match e with
  | Step t' | Answer t' _ | Elapse t' => bool_decide (t' = t)
  | Tick _ => true
  | _ => false
  end.
Definition ticks (es : list Event) : N := foldr (fun e n => match e with Tick d => d | _ => 0 end + n) 0 es.

Definition returns_by (deadline : N) (t : nat) (k : Key) (w : World ch) (n : nat) : Prop :=
  exists es w' r, (length es <= n)%nat /\ forallb (own t) es = true /\ ticks es <= deadline /\
    run w es = Some w' /\ tasks w' !! t = Some {| task_key := k; pc := Returned r |}.

Lemma returns_now deadline t k w n r :
  tasks w !! t = Some {| task_key := k; pc := Returned r |} -> returns_by deadline t k w n.
Proof. intros Ht. exists [], w, r. cbn. repeat split; (lia || done). Qed.

(** One more event that takes no time. *)
Lemma returns_after deadline t k w e w' n :
  own t e = true -> ticks [e] = 0 -> step w e = Some w' -> returns_by deadline t k w' n ->
  returns_by deadline t k w (S n).
Proof.
  intros Ho He Hs (es & w'' & r & Hl & Hown & Htk & Hrun & Ht). exists (e :: es), w'', r.
  cbn [length forallb run]. rewrite Ho, Hs, Hown. repeat split; [lia| |done|done].
  unfold ticks in *. cbn in *. lia.
Qed.

Lemma task_goto t k p w : tasks (goto t k p w) !! t = Some {| task_key := k; pc := p |}.
Proof. apply tasks_goto. by left. Qed.

Lemma returns_publish deadline t k o w :
  tasks w !! t = Some {| task_key := k; pc := Publish o |} -> returns_by deadline t k w 1.
Proof.
  intros Ht. eapply (returns_after _ _ _ _ (Step t)); [by apply bool_decide_true|done| |].
  - cbn. unfold step_task. by rewrite Ht.
  - eapply returns_now, task_goto.
Qed.

Lemma returns_store deadline t k o w :
  tasks w !! t = Some {| task_key := k; pc := Store o |} -> returns_by deadline t k w 2.
Proof.
  intros Ht. eapply (returns_after _ _ _ _ (Step t)); [by apply bool_decide_true|done| |].
  - cbn. unfold step_task. by rewrite Ht.
  - eapply returns_publish, task_goto.
Qed.

Lemma returns_fetching deadline t k w :
  tasks w !! t = Some {| task_key := k; pc := Fetching |} -> returns_by deadline t k w 3.
Proof.
  intros Ht. eapply (returns_after _ _ _ _ (Answer t (Err []))); [by apply bool_decide_true|done| |].
  - cbn. by rewrite Ht.
  - eapply returns_store, task_goto.
Qed.

Lemma returns_waiting t k c s w :
  tasks w !! t = Some {| task_key := k; pc := Waiting c s |} -> s <= clock w ->
  returns_by (wait_deadline (shared w)) t k w 3.
Proof.
  intros Ht Hs. exists [Tick (wait_deadline (shared w)); Elapse t]. eexists _, _.
  split; [cbn; lia|]. split; [cbn; by rewrite bool_decide_true|]. split; [cbn; lia|].
  split; [|apply task_goto]. cbn. rewrite Ht. by rewrite (proj2 (N.leb_le _ _)) by lia.
Qed.

Lemma returns_join deadline t k w :
  tasks w !! t = Some {| task_key := k; pc := JoinInflight |} -> wait_deadline (shared w) = deadline ->
  returns_by deadline t k w 4.
Proof.
  intros Ht <-. eapply (returns_after _ _ _ _ (Step t)); [by apply bool_decide_true|done| |].
  - cbn. unfold step_task. by rewrite Ht.
  - unfold join_inflight. destruct (inflight (shared w) !! k) as [c|].
    + apply (returns_waiting t k c (clock w) (goto t k (Waiting c (clock w)) w)); [apply task_goto|cbn; lia].
    + eapply returns_fetching, task_goto.
Qed.

(** C21: No request hangs.  From every reachable state, a request that was not dropped
    returns within five events of its own (its steps, its own fetcher's answer, the
    deadline) and at most one deadline of waiting, without any other task having to
    move: a fetcher that never publishes holds up nobody for longer. *)
Theorem never_hangs ttl deadline w t k p :
  reachable ttl deadline w -> tasks w !! t = Some {| task_key := k; pc := p |} -> p <> Cancelled ->
  returns_by deadline t k w 5.
Proof.
  intros [_ Ho]%reachable_ok Ht Hp. destruct (o_tunables _ _ _ Ho) as [_ <-].
  assert (Hmono : forall n, (n <= 5)%nat -> returns_by (wait_deadline (shared w)) t k w n ->
    returns_by (wait_deadline (shared w)) t k w 5).
  { intros n Hn (es & w' & r & Hl & ?). exists es, w', r. split; [lia|done]. }
  destruct p as [| |c s| |o|o|r|]; [| | | | | | |done].
  - eapply (returns_after _ _ _ _ (Step t)); [by apply bool_decide_true|done| |].
    + cbn. unfold step_task. by rewrite Ht.
    + unfold check_memo. destruct (memo (shared w) !! k); [destruct (is_fresh _ _)|].
      1: eapply returns_now, task_goto. all: apply returns_join; [apply task_goto|done].
  - by apply (Hmono 4%nat); [lia|apply returns_join].
  - eapply (Hmono 3%nat); [lia|eapply returns_waiting; [done|by apply (o_started _ _ _ Ho t k c)]].
  - by apply (Hmono 3%nat); [lia|apply returns_fetching].
  - eapply (Hmono 2%nat); [lia|by eapply returns_store].
  - eapply (Hmono 1%nat); [lia|by eapply returns_publish].
  - eapply (Hmono 0%nat); [lia|by eapply returns_now].
Qed.

(** ** The end of a flight *)

Lemma inflight_drop_guard k o w :
  inflight (shared (drop_guard k o w)) = delete k (inflight (shared w)).
Proof. unfold drop_guard. destruct (inflight (shared w) !! k) eqn:Hk; [done|]. by rewrite delete_id. Qed.

Lemma chans_drop_guard k o w c :
  flights_ok w -> inflight (shared w) !! k = Some c ->
  chans (drop_guard k o w) !! c = Some (close (match o with Some v => send v channel | None => channel end)).
Proof.
  intros Hf Hc. unfold drop_guard. rewrite Hc. cbn.
  by rewrite list_lookup_alter, decide_True, (f_open _ Hf _ _ Hc) by done.
Qed.

(** [InflightGuard::drop]: how a flight ends.  When the request that fetches is
    dropped, or publishes the outcome it stored, the key's flight is gone, no task holds
    its guard, and every waiter of that flight can move at once: to the outcome if there
    is one, and back to the memo check (to become the next fetcher) if there is none. *)
Theorem flight_ends ttl deadline w t k p o e :
  reachable ttl deadline w -> tasks w !! t = Some {| task_key := k; pc := p |} ->
  (p = Fetching /\ e = Cancel t /\ o = None) \/ (exists v, p = Publish v /\ e = Step t /\ o = Some v) ->
  exists w', step w e = Some w' /\ inflight (shared w') !! k = None /\ (forall t', ~ holder w' t' k) /\
    forall t' c s, tasks w !! t' = Some {| task_key := k; pc := Waiting c s |} ->
      inflight (shared w) !! k = Some c ->
      step_task t' w' =
        Some (goto t' k (match o with Some v => Returned (wrap k v) | None => CheckMemo end) w').
Proof.
  intros Hr Ht He. assert (Hg : holds_guard p = true) by (destruct He as [(-> & _)|(v & -> & _)]; done).
  assert (exists q, step w e = Some (goto t k q (drop_guard k o w))) as [q Hs].
  { destruct He as [(-> & -> & ->)|(v & -> & -> & ->)]; eexists; cbn; [unfold cancel|unfold step_task];
      by rewrite Ht. }
  exists (goto t k q (drop_guard k o w)). split; [done|].
  assert (Hnone : inflight (shared (goto t k q (drop_guard k o w))) !! k = None)
    by (cbn; by rewrite inflight_drop_guard, lookup_delete_eq).
  pose proof (reachable_ok _ _ _ Hr) as [Hf _].
  pose proof (reachable_ok _ _ _ (reachable_step _ _ _ _ _ Hr Hs)) as [Hf' _].
  split; [done|]. split.
  - intros t' Ht'. assert (is_Some (inflight (shared (goto t k q (drop_guard k o w))) !! k)) as [? ?]
      by (apply (f_holder _ Hf'); eauto). congruence.
  - intros t' c s Hw Hc. unfold step_task.
    assert (Hne : t' <> t) by (intros ->; rewrite Ht in Hw; simplify_eq).
    assert (tasks (goto t k q (drop_guard k o w)) !! t' = Some {| task_key := k; pc := Waiting c s |}) as ->
      by (apply tasks_goto; right; split; [done|]; unfold drop_guard; by case_match).
    cbn [chans goto with_tasks]. rewrite (chans_drop_guard k o w c Hf Hc), recv_dropped. by destruct o.
Qed.

(** ** Keys do not disturb each other *)

(** The key an event is about. *)
Definition event_key (w : World ch) (e : Event) : option Key :=
  match e with
  | Call _ k | Forget k => Some k
  | Step t | Answer t _ | Elapse t | Cancel t => task_key <$> tasks w !! t
  | Clear | Tick _ => None
  end.

(** Everything of a key is the same in both worlds: its memo, its flight, its tasks and
    the channels they wait on. *)
Definition same_key (k : Key) (w w' : World ch) : Prop :=
  memo (shared w') !! k = memo (shared w) !! k /\
  inflight (shared w') !! k = inflight (shared w) !! k /\
  (forall t p, tasks w !! t = Some {| task_key := k; pc := p |} <->
     tasks w' !! t = Some {| task_key := k; pc := p |}) /\
  (forall t c s, tasks w !! t = Some {| task_key := k; pc := Waiting c s |} -> chans w' !! c = chans w !! c).

Lemma same_key_refl k w : same_key k w w.
Proof. repeat split; done. Qed.

(** A task of another key moves, after something that left this key alone. *)
Lemma same_key_goto k k' t p w w1 :
  k' <> k -> tasks w1 = tasks w -> (forall q, tasks w !! t <> Some {| task_key := k; pc := q |}) ->
  same_key k w w1 -> same_key k w (goto t k' p w1).
Proof.
  intros Hk Et Ht (Hm & Hi & Hp & Hc). split; [done|]. split; [done|]. split; [|done].
  intros t' q. rewrite tasks_goto, Et. split.
  - intros Hq. right. split; [|done]. intros ->. by destruct (Ht q).
  - intros [(_ & [= -> _])|(_ & Hq)]; done.
Qed.

Lemma same_key_guard k k' o w :
  flights_ok w -> k' <> k -> same_key k w (drop_guard k' o w).
Proof.
  intros Hf Hk. unfold drop_guard. destruct (inflight (shared w) !! k') as [c|] eqn:Hc; [|apply same_key_refl].
  split; [done|]. split; [cbn; by rewrite lookup_delete_ne|]. split; [done|].
  intros t c' s Ht. cbn. destruct (f_waiter _ Hf _ _ _ _ Ht) as (Hown & _).
  rewrite list_lookup_alter, decide_False; [done|]. intros ->. by apply Hk, Hown.
Qed.

Lemma same_key_memo k m w :
  m !! k = memo (shared w) !! k -> same_key k w (with_shared (with_memo m (shared w)) w).
Proof. by repeat split. Qed.

Lemma tasks_drop_guard k o w : tasks (drop_guard k o w) = tasks w.
Proof. unfold drop_guard. by case_match. Qed.

Lemma same_key_task k k' t p w w' :
  flights_ok w -> k' <> k -> tasks w !! t = Some {| task_key := k'; pc := p |} ->
  step_task t w = Some w' -> same_key k w w'.
Proof.
  intros Hf Hk Ht (k1 & q & Ht1 & Hc)%step_task_cases. rewrite Ht in Ht1. simplify_eq.
  assert (Hne : forall q', tasks w !! t <> Some {| task_key := k; pc := q' |}) by congruence.
  destruct Hc as [(-> & ->)|[(-> & ->)|[(c & s & b & o & -> & Hb & Hr & ->)|
    [(c & s & b & -> & _ & _ & ->)|[(o & -> & ->)|(o & -> & ->)]]]]].
  - unfold check_memo. repeat case_match; apply same_key_goto; try done.
    apply same_key_memo. by rewrite lookup_delete_ne.
  - unfold join_inflight. case_match; apply same_key_goto; try done.
    split; [done|]. split; [cbn; by rewrite lookup_insert_ne|]. split; [done|].
    intros t' c s Ht'. destruct (f_waiter _ Hf _ _ _ _ Ht') as (_ & b & Hb & _). cbn.
    rewrite lookup_app_l; [done|]. apply lookup_lt_is_Some. eauto.
  - by apply same_key_goto.
  - by apply same_key_goto.
  - apply same_key_goto; try done. split; [cbn; by rewrite lookup_insert_ne|done].
  - apply same_key_goto; try done; [apply tasks_drop_guard|by apply same_key_guard].
Qed.

(** Keys are isolated.  In a reachable state, an event about one key (a request of it,
    a step, an answer, a timeout, a cancelled fetcher, the operator's [forget]) leaves
    everything of every other key as it was: memo, flight, tasks and what they wait on.
    A hung or failing key cannot affect another. *)
Theorem keys_isolated ttl deadline w e w' k k' :
  reachable ttl deadline w -> step w e = Some w' -> event_key w e = Some k' -> k' <> k -> same_key k w w'.
Proof.
  intros [Hf _]%reachable_ok Hs He Hk. destruct e as [t k1|t|t o|t|t|k1| |d]; cbn in Hs, He; simplify_eq.
  - destruct (tasks w !! t) eqn:Ht; simplify_eq. apply same_key_goto; try done; congruence.
  - destruct (tasks w !! t) as [[k1 p]|] eqn:Ht; cbn in He; simplify_eq. by eapply same_key_task.
  - destruct (tasks w !! t) as [[k1 [] ]|] eqn:Ht; cbn in He; simplify_eq.
    apply same_key_goto; try done; congruence.
  - destruct (tasks w !! t) as [[k1 [] ]|] eqn:Ht; cbn in He; simplify_eq. case_match; simplify_eq.
    apply same_key_goto; try done; congruence.
  - unfold cancel in Hs. destruct (tasks w !! t) as [[k1 [] ]|] eqn:Ht; cbn in He; simplify_eq.
    1-2: apply same_key_goto; try done; congruence.
    apply same_key_goto; [done|apply tasks_drop_guard|congruence|by apply same_key_guard].
  - apply same_key_memo. by rewrite lookup_delete_ne.
Qed.

(** ** One dispatch for many requests *)

(** A request that runs from its memo check to its flight without another task in
    between. *)
Definition enter (t : nat) (k : Key) (w : World ch) : option (World ch) :=
  match step w (Call t k) with
  | None => None
  | Some _ =>
      let w1 := check_memo t k (goto t k CheckMemo w) in
      match tasks w1 !! t with
      | Some {| pc := JoinInflight |} => Some (join_inflight t k w1)
      | _ => Some w1
      end
  end.

(** Requests arrive, fetchers answer, waits end, time passes; none is dropped and the
    operator touches nothing. *)
Inductive Action :=
| Enter (t : nat) (k : Key)
| Act (e : Event).

Definition undisturbed (a : Action) : bool :=
  match a with
  | Enter _ _ | Act (Step _) | Act (Answer _ _) | Act (Elapse _) | Act (Tick _) => true
  | _ => false
  end.

Definition perform (w : World ch) (a : Action) : option (World ch) :=
  match a with Enter t k => enter t k w | Act e => step w e end.

Fixpoint perform_all (w : World ch) (acts : list Action) : option (World ch) :=
  match acts with
  | [] => Some w
  | a :: acts' => match perform w a with Some w' => perform_all w' acts' | None => None end
  end.

Lemma enter_cases t k w w' :
  enter t k w = Some w' ->
  tasks w !! t = None /\
  let w0 := goto t k CheckMemo w in
  (exists e, memo (shared w) !! k = Some e /\ is_fresh (clock w) e = true /\
     w' = goto t k (Returned (wrap k (outcome e))) w0) \/
  ((forall e, memo (shared w) !! k = Some e -> is_fresh (clock w) e = false) /\
     exists m, w' = join_inflight t k (goto t k JoinInflight (with_shared (with_memo m (shared w)) w0)) /\
       m ⊆ memo (shared w) /\ forall k', k' <> k -> m !! k' = memo (shared w) !! k').
Proof.
  unfold enter. cbn [step]. intros He. destruct (tasks w !! t) eqn:Ht; [done|]. split; [done|].
  unfold check_memo in He. cbn [goto with_tasks shared] in He. cbn.
  destruct (memo (shared w) !! k) as [e|] eqn:Hm; [destruct (is_fresh (clock w) e) eqn:Hfr|].
  - left. exists e. split; [done|]. split; [done|].
    cbn in He. rewrite Hfr in He. cbn in He. rewrite lookup_insert_eq in He. by simplify_eq.
  - right. split; [by intros ? [= <-]|]. exists (delete k (memo (shared w))).
    cbn in He. rewrite Hfr in He. cbn in He. rewrite lookup_insert_eq in He. split; [by simplify_eq|].
    split; [apply delete_subseteq|]. intros k' Hk'. by rewrite lookup_delete_ne.
  - right. split; [done|]. exists (memo (shared w)).
    cbn in He. rewrite lookup_insert_eq in He. split; [|by split]. simplify_eq. by destruct w as [[] ? ? ? ? ? ?].
Qed.

(** Between the call of a key's fetcher and the memo. *)
Definition fetch_under_way (w : World ch) (k : Key) : Prop :=
  exists t p, tasks w !! t = Some {| task_key := k; pc := p |} /\
    (p = Fetching \/ exists o, p = Store o).

(** Every key that was asked for was dispatched once, and is under way or memoised. *)
Record one_each (since ttl : N) (w : World ch) : Prop := {
  e_clock : since <= clock w;
  e_settled : forall t k p, tasks w !! t = Some {| task_key := k; pc := p |} ->
    p <> CheckMemo /\ p <> JoinInflight /\ k ∈ dispatched w;
  e_chans : forall c b, chans w !! c = Some b -> recv b <> Closed;
  e_nodup : NoDup (dispatched w);
  e_kept : forall k, k ∈ dispatched w ->
    fetch_under_way w k \/ exists e, memo (shared w) !! k = Some e /\ since + ttl <= expires_at e;
  e_called : forall k, k ∈ dispatched w -> exists t p, tasks w !! t = Some {| task_key := k; pc := p |};
  e_memo : forall k, is_Some (memo (shared w) !! k) -> k ∈ dispatched w;
}.

Lemma under_way_goto t k p w k' :
  (forall q, tasks w !! t = Some {| task_key := k'; pc := q |} ->
     q = Fetching \/ (exists o, q = Store o) -> k = k' /\ (p = Fetching \/ exists o, p = Store o)) ->
  fetch_under_way w k' -> fetch_under_way (goto t k p w) k'.
Proof.
  intros Ht (t' & q & Hq & Hqq). destruct (decide (t' = t)) as [->|Hne].
  - destruct (Ht _ Hq Hqq) as [-> ?]. exists t, p. split; [apply task_goto|done].
  - exists t', q. split; [|done]. apply tasks_goto. by right.
Qed.

(** A settled task of a dispatched key moves on, without leaving a fetch. *)
Lemma one_each_goto since ttl t k p w :
  one_each since ttl w -> k ∈ dispatched w -> p <> CheckMemo -> p <> JoinInflight ->
  (forall k' q, tasks w !! t = Some {| task_key := k'; pc := q |} -> k' = k /\
     ((q = Fetching \/ exists o, q = Store o) ->
        (p = Fetching \/ exists o, p = Store o) \/
        exists e, memo (shared w) !! k = Some e /\ since + ttl <= expires_at e)) ->
  one_each since ttl (goto t k p w).
Proof.
  intros [Hc Hs Hch Hn Hk Hca Hme] Hin Hp1 Hp2 Ht. split; try done.
  - intros t' k' p' [(-> & [= -> ->])|(_ & Ht')]%tasks_goto; [done|by apply (Hs t')].
  - intros k' Hk'. destruct (Hk _ Hk') as [Hw|He]; [|by right].
    destruct (tasks w !! t) as [[k1 q]|] eqn:Hq.
    2: { left. apply under_way_goto; [by intros q; rewrite Hq|done]. }
    destruct (Ht _ _ eq_refl) as [-> Hcase]. destruct (decide (k' = k)) as [->|Hne].
    + destruct q as [| |c s| |o|o|r|]; try (left; apply under_way_goto; [|done]; intros q'; rewrite Hq;
        by intros [= <-] [?|[? ?]]).
      all: destruct Hcase as [Hp|He]; [eauto| |by right]; left; apply under_way_goto; by eauto.
    + left. apply under_way_goto; [|done]. intros q'. rewrite Hq. by intros [= ? _].
  - intros k' (t' & p' & Ht')%Hca. destruct (decide (t' = t)) as [->|Hne].
    + destruct (Ht _ _ Ht') as [-> _]. exists t, p. apply task_goto.
    + exists t', p'. apply tasks_goto. by right.
Qed.

(** The world changes around the tasks, and no useful memo entry is lost. *)
Lemma one_each_frame since ttl w w' :
  tasks w' = tasks w -> dispatched w' = dispatched w -> clock w <= clock w' ->
  (forall c b, chans w' !! c = Some b -> recv b <> Closed) ->
  (forall k e, memo (shared w) !! k = Some e -> since + ttl <= expires_at e ->
     exists e', memo (shared w') !! k = Some e' /\ since + ttl <= expires_at e') ->
  (forall k, is_Some (memo (shared w') !! k) -> k ∈ dispatched w) ->
  one_each since ttl w -> one_each since ttl w'.
Proof.
  intros Et Ed Hn Hcl Hm Hdm [Hc Hs Hch Hnd Hk Hca Hme].
  split; unfold fetch_under_way in *; rewrite ?Et, ?Ed; try done; [lia|].
  intros k [Hw|(e & He & Hx)]%Hk; [by left|right; eauto].
Qed.

Lemma chans_guard_open k v w :
  flights_ok w -> (forall c b, chans w !! c = Some b -> recv b <> Closed) ->
  forall c b, chans (drop_guard k (Some v) w) !! c = Some b -> recv b <> Closed.
Proof.
  intros Hf Hch c b. unfold drop_guard. destruct (inflight (shared w) !! k) as [c'|] eqn:Hc; [|apply Hch].
  cbn. destruct (decide (c = c')) as [->|Hne].
  - rewrite list_lookup_alter, decide_True, (f_open _ Hf _ _ Hc) by done. cbn. intros [= <-].
    by rewrite recv_sent.
  - rewrite list_lookup_alter, decide_False by done. apply Hch.
Qed.

Lemma one_each_task since ttl deadline t w w' :
  reachable ttl deadline w -> one_each since ttl w -> step_task t w = Some w' -> one_each since ttl w'.
Proof.
  intros [Hf Ho]%reachable_ok He (k & p & Ht & Hc)%step_task_cases.
  destruct (e_settled _ _ _ He _ _ _ Ht) as (Hp1 & Hp2 & Hin).
  destruct Hc as [(-> & ->)|[(-> & ->)|[(c & s & b & o & -> & _ & _ & ->)|
    [(c & s & b & -> & Hb & Hr & ->)|[(o & -> & ->)|(o & -> & ->)]]]]]; try done.
  - apply one_each_goto; try done. rewrite Ht. intros k' q [= <- <-]. split; [done|]. by intros [?|[? ?]].
  - by destruct (e_chans _ _ _ He _ _ Hb).
  - assert (Hexp : since + ttl <= clock w + memo_ttl (shared w))
      by (rewrite (proj1 (o_tunables _ _ _ Ho)); pose proof (e_clock _ _ _ He); lia).
    unfold store. apply one_each_goto; try done.
    + apply (one_each_frame _ _ w); try done; [apply (e_chans _ _ _ He)|..]; cbn.
      * intros k' e Hk' Hx. destruct (decide (k' = k)) as [->|Hne].
        -- rewrite lookup_insert_eq. eexists. by split.
        -- rewrite lookup_insert_ne by done. eauto.
      * intros k' [<-|?]%lookup_insert_is_Some'; [done|by apply (e_memo _ _ _ He)].
    + cbn. rewrite Ht. intros k' q [= <- <-]. split; [done|]. intros _. right.
      rewrite lookup_insert_eq. eexists. by split.
  - apply one_each_goto; try done.
    + apply (one_each_frame _ _ w); try done; try (unfold drop_guard; by case_match).
      * by apply chans_guard_open, (e_chans _ _ _ He).
      * unfold drop_guard. case_match; cbn; eauto.
      * unfold drop_guard. case_match; apply (e_memo _ _ _ He).
    + unfold drop_guard. by case_match.
    + rewrite tasks_drop_guard, Ht. intros k' q [= <- <-]. split; [done|]. by intros [?|[? ?]].
Qed.

(** The flight of a dispatched key whose memo has no fresh entry is there to be joined. *)
Lemma flight_or_memo since ttl w k :
  flights_ok w -> one_each since ttl w -> k ∈ dispatched w -> clock w < since + ttl ->
  (forall e, memo (shared w) !! k = Some e -> is_fresh (clock w) e = false) ->
  is_Some (inflight (shared w) !! k).
Proof.
  intros Hf He Hin Hc Hm. destruct (e_kept _ _ _ He _ Hin) as [(t & p & Ht & Hp)|(e & Hme & Hx)].
  - apply (f_holder _ Hf). exists t, p. split; [done|]. by destruct Hp as [->|[? ->]].
  - specialize (Hm _ Hme). apply N.ltb_ge in Hm. lia.
Qed.

(** A request joins the flight of its key or opens the first one. *)
Lemma one_each_join since ttl t k w :
  flights_ok w -> one_each since ttl w -> tasks w !! t = None ->
  (k ∈ dispatched w -> is_Some (inflight (shared w) !! k)) -> (k ∉ dispatched w -> inflight (shared w) !! k = None) ->
  one_each since ttl (join_inflight t k w).
Proof.
  intros Hf He Ht Hold Hnew. unfold join_inflight.
  destruct (inflight (shared w) !! k) as [c|] eqn:Hc.
  - destruct (decide (k ∈ dispatched w)) as [Hin|Hno]; [|by apply Hnew in Hno].
    apply one_each_goto; try done. by rewrite Ht.
  - assert (Hno : k ∉ dispatched w) by (intros [? ?]%Hold; done).
    destruct He as [Hn Hs Hch Hnd Hk Hca Hme].
    assert (Hother : forall k', k' ∈ dispatched w -> k' <> k) by (by intros k' Hk' ->).
    split; cbn [goto with_tasks log_dispatch with_chans with_shared clock dispatched chans shared with_inflight memo].
    + done.
    + intros t' k' p' [(-> & [= -> ->])|(_ & Ht')]%tasks_goto.
      * split; [done|]. split; [done|]. apply list_elem_of_here.
      * destruct (Hs _ _ _ Ht') as (? & ? & ?). split; [done|]. split; [done|]. by apply list_elem_of_further.
    + intros c b [Hb|(_ & [_ <-]%list_lookup_singleton_Some)]%lookup_app_Some.
      * by apply (Hch c).
      * by rewrite recv_open.
    + by constructor.
    + intros k' [->|Hin]%elem_of_cons.
      * left. exists t, Fetching. split; [apply task_goto|by left].
      * destruct (Hk _ Hin) as [Hu|Hm]; [left|by right].
        apply under_way_goto; [|done]. intros q. cbn. by rewrite Ht.
    + intros k' [->|(t' & p' & Ht')%Hca]%elem_of_cons.
      * exists t, Fetching. apply task_goto.
      * exists t', p'. apply tasks_goto. right. split; [|done]. by intros ->; rewrite Ht in Ht'.
    + intros k' Hk'. apply list_elem_of_further. by apply Hme.
Qed.

Lemma join_goto t k p w : join_inflight t k (goto t k p w) = join_inflight t k w.
Proof.
  unfold join_inflight. cbn. case_match; unfold goto, with_tasks; cbn; by rewrite insert_insert_eq.
Qed.

Lemma one_each_enter since ttl t k w w' :
  flights_ok w -> one_each since ttl w -> clock w < since + ttl -> enter t k w = Some w' -> one_each since ttl w'.
Proof.
  intros Hf He Hc (Ht & Hcase)%enter_cases. destruct Hcase as [(e & Hm & Hfr & ->)|(Hstale & m & -> & Hsub & Hsame)].
  - unfold goto at 1, with_tasks. cbn. rewrite insert_insert_eq. apply (one_each_goto _ _ t k); try done.
    + apply (e_memo _ _ _ He). by exists e.
    + by rewrite Ht.
  - rewrite !join_goto. change (join_inflight t k (with_shared (with_memo m (shared w)) (goto t k CheckMemo w)))
      with (join_inflight t k (goto t k CheckMemo (with_shared (with_memo m (shared w)) w))).
    rewrite join_goto. apply one_each_join; try done.
    + by apply (flights_frame w).
    + apply (one_each_frame _ _ w); try done; cbn.
      * apply (e_chans _ _ _ He).
      * intros k' e He' Hx. destruct (decide (k' = k)) as [->|Hne]; [|rewrite Hsame by done; eauto].
        apply Hstale in He'. apply N.ltb_ge in He'. lia.
      * intros k' [e He']. apply (e_memo _ _ _ He). exists e. by eapply lookup_weaken.
    + intros Hin. exact (flight_or_memo since ttl w k Hf He Hin Hc Hstale).
    + intros Hno. cbn. destruct (inflight (shared w) !! k) eqn:Hi; [|done]. destruct Hno.
      assert (exists t', holder w t' k) as (t' & p & Ht' & _) by (apply (f_holder _ Hf); eauto).
      by apply (e_settled _ _ _ He _ _ _ Ht').
Qed.

Lemma clock_task t w w' : step_task t w = Some w' -> clock w' = clock w.
Proof.
  intros (k & p & _ & Hc)%step_task_cases.
  destruct Hc as [(_ & ->)|[(_ & ->)|[(c & s & b & o & _ & _ & _ & ->)|
    [(c & s & b & _ & _ & _ & ->)|[(o & _ & ->)|(o & _ & ->)]]]]]; try done;
    unfold check_memo, join_inflight, drop_guard; repeat case_match; done.
Qed.

Lemma clock_step e w w' : step w e = Some w' -> clock w <= clock w'.
Proof.
  destruct e as [t k|t|t o|t|t|k| |d]; cbn; unfold cancel; intros Hs.
  2: apply clock_task in Hs; lia.
  all: repeat case_match; simplify_eq; cbn; try lia.
  unfold drop_guard. case_match; cbn; lia.
Qed.

Lemma one_each_act since ttl deadline e w w' :
  reachable ttl deadline w -> one_each since ttl w -> undisturbed (Act e) = true -> step w e = Some w' ->
  one_each since ttl w'.
Proof.
  intros Hr He Hq Hs. destruct e as [t k|t|t o|t|t|k| |d]; try done; cbn in Hs.
  - by eapply one_each_task.
  - destruct (tasks w !! t) as [[k [] ]|] eqn:Ht; simplify_eq.
    destruct (e_settled _ _ _ He _ _ _ Ht) as (_ & _ & Hin).
    apply one_each_goto; try done.
    + apply (one_each_frame _ _ w); try done; [apply (e_chans _ _ _ He)|eauto|apply (e_memo _ _ _ He)].
    + cbn. rewrite Ht. intros k' q [= <- <-]. split; [done|]. intros _. left. eauto.
  - destruct (tasks w !! t) as [[k [] ]|] eqn:Ht; simplify_eq. case_match; simplify_eq.
    destruct (e_settled _ _ _ He _ _ _ Ht) as (_ & _ & Hin).
    apply one_each_goto; try done. rewrite Ht. intros k' q [= <- <-]. split; [done|]. by intros [?|[? ?]].
  - simplify_eq.
    apply (one_each_frame _ _ w); try done; [cbn; lia|apply (e_chans _ _ _ He)|eauto|apply (e_memo _ _ _ He)].
Qed.

Lemma enter_reachable ttl deadline t k w w' :
  reachable ttl deadline w -> enter t k w = Some w' -> reachable ttl deadline w' /\ clock w' = clock w.
Proof.
  intros Hr. unfold enter. destruct (step w (Call t k)) as [w0|] eqn:Hs; [|done].
  assert (w0 = goto t k CheckMemo w) as -> by (cbn in Hs; by case_match; simplify_eq).
  pose proof (reachable_step _ _ _ _ _ Hr Hs) as Hr0.
  set (w1 := check_memo t k (goto t k CheckMemo w)).
  assert (Hs1 : step (goto t k CheckMemo w) (Step t) = Some w1).
  { cbn. unfold step_task. by rewrite task_goto. }
  pose proof (reachable_step _ _ _ _ _ Hr0 Hs1) as Hr1.
  assert (Hc1 : clock w1 = clock w) by (by apply clock_task in Hs1).
  assert (Hk1 : forall x, tasks w1 !! t = Some x -> task_key x = k).
  { intros x. subst w1. unfold check_memo. repeat case_match; by intros [(_ & ->)|(? & _)]%tasks_goto. }
  destruct (tasks w1 !! t) as [[k1 [] ]|] eqn:Ht; intros Hj; simplify_eq; try done.
  assert (k1 = k) as -> by (by apply (Hk1 _ eq_refl)).
  assert (Hs2 : step w1 (Step t) = Some (join_inflight t k w1)) by (cbn; unfold step_task; by rewrite Ht).
  split; [by apply (reachable_step _ _ _ _ _ Hr1 Hs2)|]. apply clock_task in Hs2. by rewrite Hs2.
Qed.

Lemma perform_reachable ttl deadline a w w' :
  reachable ttl deadline w -> perform w a = Some w' -> reachable ttl deadline w' /\ clock w <= clock w'.
Proof.
  intros Hr Hp. destruct a as [t k|e]; cbn in Hp.
  - destruct (enter_reachable _ _ _ _ _ _ Hr Hp) as [? ->]. by split.
  - split; [by eapply reachable_step|by eapply clock_step].
Qed.

Lemma perform_all_clock ttl deadline acts w w' :
  reachable ttl deadline w -> perform_all w acts = Some w' -> clock w <= clock w'.
Proof.
  revert w. induction acts as [|a acts IH]; intros w Hr Hp; cbn in Hp; [by simplify_eq|].
  destruct (perform w a) as [w1|] eqn:Ha; [|done].
  destruct (perform_reachable _ _ _ _ _ Hr Ha) as [Hr1 ?]. apply (IH _ Hr1) in Hp. lia.
Qed.

Lemma one_each_all since ttl deadline acts w w' :
  reachable ttl deadline w -> one_each since ttl w -> forallb undisturbed acts = true ->
  perform_all w acts = Some w' -> clock w' < since + ttl -> one_each since ttl w'.
Proof.
  revert w. induction acts as [|a acts IH]; intros w Hr He Hq Hp Hc; cbn in Hp, Hq; [by simplify_eq|].
  destruct (perform w a) as [w1|] eqn:Ha; [|done]. apply andb_true_iff in Hq as [Hq1 Hq].
  destruct (perform_reachable _ _ _ _ _ Hr Ha) as [Hr1 Hc1].
  pose proof (perform_all_clock _ _ _ _ _ Hr1 Hp) as Hc2.
  apply (IH w1); try done. destruct a as [t k|e]; cbn in Ha.
  - eapply one_each_enter; eauto; [by apply (reachable_ok ttl deadline)|lia].
  - by apply (one_each_act since ttl deadline e w).
Qed.

Lemma one_each_initial ttl deadline now : one_each now ttl (initial (with_tunables ttl deadline) now).
Proof.
  split; cbn; try done; [constructor|intros k Hk..|by intros k [? ?]]; by apply elem_of_nil in Hk.
Qed.

(** Coalescing.  Requests for any keys, in any order and number, each running from
    its memo check to its flight without another in between, with fetchers answering and
    waits ending in any order: as long as the time to live has not passed since the
    start, every key that was asked for has been dispatched exactly once, and no other
    key has. *)
Theorem one_dispatch_per_key ttl deadline now acts w :
  perform_all (initial (with_tunables ttl deadline) now) acts = Some w ->
  forallb undisturbed acts = true -> clock w < now + ttl ->
  NoDup (dispatched w) /\
  forall k, k ∈ dispatched w <-> exists t p, tasks w !! t = Some {| task_key := k; pc := p |}.
Proof.
  intros Hp Hq Hc.
  assert (He : one_each now ttl w).
  { eapply one_each_all; eauto; [apply reachable_start|apply one_each_initial]. }
  split; [apply (e_nodup _ _ _ He)|]. intros k. split; [apply (e_called _ _ _ He)|].
  intros (t & p & Ht). apply (e_settled _ _ _ He _ _ _ Ht).
Qed.

End steps.

(** ** A channel, and applications *)

(** A channel of at most one message. *)
Record Chan := { message : option ResolveOutcome; is_open : bool }.

#[export] Program Instance chan_broadcast : Broadcast Chan := {
  channel := {| message := None; is_open := true |};
  send o c := {| message := Some o; is_open := is_open c |};
  close c := {| message := message c; is_open := false |};
  recv c := match message c with Some o => Received o | None => if is_open c then Pending else Closed end;
}.
Solve All Obligations with done.

(** The world after some events from the start, with the production tunables. *)
Definition world_of (es : list Event) : World Chan :=
  match run (initial new 0) es with Some w => w | None => initial new 0 end.

Lemma run_reachable ttl deadline es (w w' : World Chan) :
  reachable ttl deadline w -> run w es = Some w' -> reachable ttl deadline w'.
Proof.
  revert w. induction es as [|e es IH]; intros w Hr Hs; cbn in Hs; [by simplify_eq|].
  destruct (step w e) as [w1|] eqn:He; [|done]. by apply (IH w1); [eapply reachable_step|].
Qed.

Lemma world_of_reachable es : reachable RESOLVE_MEMO_TTL INFLIGHT_WAIT_DEADLINE (world_of es).
Proof.
  unfold world_of. destruct (run _ _) as [w|] eqn:Hr; [|apply reachable_start].
  by eapply run_reachable, Hr; apply reachable_start.
Qed.

Definition key_a : Key := (lit "mpd-album", lit "a", lit "medium").
Definition key_b : Key := (lit "mpd-album", lit "b", lit "medium").
Definition hash_a : ResolveOutcome := Ok (lit "f00d", None).

(** Two requests for one key, the first fetching and the second waiting. *)
Definition joined : list Event := [Call 1 key_a; Step 1; Step 1; Call 2 key_a; Step 2; Step 2].

Lemma single_flight_witness :
  exists t', holder (world_of joined) t' key_a.
Proof.
  destruct (single_flight _ _ _ (world_of_reachable joined)) as (_ & H & _).
  apply H. exists 0%nat. vm_compute. reflexivity.
Defined.

(** The fetcher's answer reaches both. *)
Definition published : list Event := joined ++ [Answer 1 hash_a; Step 1; Step 1; Step 2].

Lemma returned_outcome_witness : (key_a, hash_a) ∈ answers (world_of published).
Proof.
  assert (Ht : tasks (world_of published) !! 2%nat = Some {| task_key := key_a; pc := Returned (wrap key_a hash_a) |})
    by (vm_compute; reflexivity).
  pose proof (returned_outcome _ _ _ _ _ _ (world_of_reachable published) Ht) as Hr. exact Hr.
Defined.

(** A request that comes one millisecond before the entry expires. *)
Definition last_moment : list Event := joined ++ [Answer 1 hash_a; Step 1; Call 3 key_a; Tick 29999].

Lemma memo_hit_fresh_witness :
  exists o at_, (key_a, o, at_) ∈ stored (world_of last_moment) /\ wrap key_a hash_a = wrap key_a o.
Proof.
  assert (Hc : tasks (world_of last_moment) !! 3%nat = Some {| task_key := key_a; pc := CheckMemo |})
    by (vm_compute; reflexivity).
  assert (Hs : step (world_of last_moment) (Step 3) = Some (world_of (last_moment ++ [Step 3])))
    by (vm_compute; reflexivity).
  assert (Hr : tasks (world_of (last_moment ++ [Step 3])) !! 3%nat =
    Some {| task_key := key_a; pc := Returned (wrap key_a hash_a) |}) by (vm_compute; reflexivity).
  destruct (memo_hit_fresh _ _ _ _ _ _ _ (world_of_reachable last_moment) Hc Hs Hr) as (_ & o & at_ & Hin & Ho & _).
  exists o, at_. exact (conj Hin Ho).
Defined.

Lemma never_hangs_witness : returns_by INFLIGHT_WAIT_DEADLINE 2 key_a (world_of joined) 5.
Proof.
  apply (never_hangs _ _ _ 2 key_a (Waiting 0 0) (world_of_reachable joined)); [vm_compute; reflexivity|discriminate].
Defined.

(** The fetcher is cancelled: the waiter goes back to the memo check. *)
Lemma flight_ends_witness :
  exists w', step (world_of joined) (Cancel 1) = Some w' /\ step_task 2 w' = Some (goto 2 key_a CheckMemo w').
Proof.
  assert (Ht : tasks (world_of joined) !! 1%nat = Some {| task_key := key_a; pc := Fetching |})
    by (vm_compute; reflexivity).
  destruct (flight_ends _ _ _ _ _ _ None (Cancel 1) (world_of_reachable joined) Ht) as (w' & Hs & _ & _ & Hwake).
  { left. repeat split. }
  exists w'. split; [exact Hs|]. apply (Hwake 2%nat 0%nat 0); vm_compute; reflexivity.
Defined.

Lemma keys_isolated_witness :
  same_key key_b (world_of joined) (goto 1 key_a Cancelled (drop_guard key_a None (world_of joined))).
Proof.
  apply (keys_isolated _ _ _ (Cancel 1) _ key_b key_a (world_of_reachable joined));
    [vm_compute; reflexivity|vm_compute; reflexivity|vm_compute; discriminate].
Defined.

(** Three requests, two keys: two dispatches. *)
Definition three : list Action :=
  [Enter 1 key_a; Enter 2 key_a; Act (Answer 1 hash_a); Enter 3 key_b; Act (Step 1); Act (Step 1); Act (Step 2)].

Definition three_world : World Chan := default (initial new 0) (perform_all (initial new 0) three).

Lemma one_dispatch_per_key_witness : dispatched three_world = [key_b; key_a] /\ NoDup (dispatched three_world).
Proof.
  assert (Hp : perform_all (initial new 0) three = Some three_world) by (vm_compute; reflexivity).
  assert (Hc : clock three_world < 0 + RESOLVE_MEMO_TTL) by (vm_compute; reflexivity).
  split; [vm_compute; reflexivity|].
  exact (proj1 (one_dispatch_per_key _ _ _ _ _ Hp eq_refl Hc)).
Defined.

(** ** Where the code and its comments part *)

(** The comment of the file says that concurrent calls for a cold key make exactly one
    dispatch.  Two calls that both miss the memo make two, when one of them reaches the
    flights only after the other's flight is over: the memo, which now has the answer,
    is not looked at again. *)
Theorem concurrent_calls_dispatch_twice :
  let w := world_of [Call 1 key_a; Call 2 key_a; Step 1; Step 2; Step 1; Answer 1 hash_a; Step 1; Step 1; Step 2] in
  dispatched w = [key_a; key_a] /\ clock w = 0 /\
  match memo (shared w) !! key_a with Some e => is_fresh (clock w) e | None => false end = true.
Proof. vm_compute. by repeat split. Qed.

(** [forget] is to make the next resolve run the dispatch again.  A call made after it
    joins a fetch that was under way before, gets that outcome, and leaves it in the
    memo. *)
Theorem forget_joins_older_fetch :
  let w := world_of (take 3 joined ++ [Forget key_a] ++ drop 3 joined ++ [Answer 1 hash_a; Step 1; Step 1; Step 2]) in
  dispatched w = [key_a] /\
  tasks w !! 2%nat = Some {| task_key := key_a; pc := Returned (wrap key_a hash_a) |} /\
  (outcome <$> memo (shared w) !! key_a) = Some hash_a.
Proof. vm_compute. by repeat split. Qed.
