(* ===== verification/MpdServer.v ===== *)
(** * The player behind the connection
    ([crates/evo-mpd-shared/src/connection.rs], [types.rs])

    The commands of [MpdConnection] that the queue, the playlists and the curation use,
    as an interface to a player [M]; what the MPD protocol documents of a player that
    answers, as laws of the interface; and a player in memory that satisfies them. *)

From S2P Require Import Prelude MpdProtocol.
Local Open Scope N_scope.

(** ** Data *)

(** [PlayState] *)
Inductive PlayState := Playing | Paused | Stopped.

#[export] Instance PlayState_eq_dec : EqDecision PlayState.
Proof. solve_decision. Defined.

(** [ClassicalTags] *)
Record ClassicalTags := {
  composer : option str; composer_sort : option str; conductor : option str; ensemble : option str;
  performer : option str; work : option str; work_sort : option str; movement : option str;
  movement_number : option N; original_date : option str; recording_date : option str;
  record_label : option str; medium : option str;
}.

(** [MpdQueueItem]; the duration in milliseconds. *)
Record MpdQueueItem := {
  id : N;
  position : N;
  file_path : str;
  title : option str;
  artist : option str;
  album : option str;
  duration : option N;
  classical : ClassicalTags;
}.

(** [MpdStatus], as far as the queue reads it. *)
Record MpdStatus := { state : PlayState; song_position : option N }.

(** [MpdPlaylistEntry] (its position and file). *)
Record MpdPlaylistEntry := { entry_position : N; entry_file : str }.

(** ** The interface *)

Class MpdConnection (M : Type) := {
  playlistinfo : M -> M * result (list MpdQueueItem) MpdError;
  status : M -> M * result MpdStatus MpdError;
  sticker_get : str -> str -> M -> M * result (option str) MpdError;
  find_file : str -> M -> M * result (list str) MpdError;
  current_song : M -> M * result (option str) MpdError;
  listplaylists : M -> M * result (list str) MpdError;
  listplaylistinfo : str -> M -> M * result (list MpdPlaylistEntry) MpdError;
  stop : M -> M * result unit MpdError;
  clear : M -> M * result unit MpdError;
  play : M -> M * result unit MpdError;
  play_position : N -> M -> M * result unit MpdError;
  pause : bool -> M -> M * result unit MpdError;
  addid : str -> option N -> M -> M * result N MpdError;
  addtagid : N -> str -> str -> M -> M * result unit MpdError;
  deleteid : N -> M -> M * result unit MpdError;
  moveid : N -> N -> M -> M * result unit MpdError;
  playlistdelete : str -> N -> M -> M * result unit MpdError;
  rm_playlist : str -> M -> M * result unit MpdError;
  save_playlist : str -> M -> M * result unit MpdError;
}.

(** A command that changes the player, as the log of a player has it. *)
Inductive Command :=
| CStop | CClear | CPlayOn | CPlay (pos : N) | CPause (on : bool)
| CAdd (uri : str) (pos : option N) | CTag (song : N) (tag value : str)
| CDelete (song : N) | CMove (song to : N) | CPlaylistDelete (name : str) (pos : N).

(** A row of the queue: song id and URI. *)
Abbreviation Row := (N * str)%type.

(** Where [addid] puts a row: at a position up to the length, or at the end. *)
Definition slot (pos : option N) (len : nat) : option nat :=
  match pos with
  | None => Some len
  | Some p => if p <=? N.of_nat len then Some (N.to_nat p) else None
  end.

Definition insert_row (i : nat) (r : Row) (rows : list Row) : list Row := take i rows ++ r :: drop i rows.

Definition without_song (n : N) (rows : list Row) : list Row := filter (fun r => r.1 <> n) rows.

(** A stored playlist without the entry at a position. *)
Definition delete_at {A} (i : nat) (l : list A) : list A := take i l ++ drop (S i) l.

(** What a player that answers promises: [rows] is its queue, [player] the status,
    [addable] the URIs it can open, [playlist] the stored playlists, and [commands] the
    changing commands it has carried out or refused, in order.  Only a URI that cannot be
    opened, a position beyond the end or an unknown song is refused, and a refused
    command leaves the queue alone.  That song ids are unique is a property of the
    player's state; [addid] gives a new one. *)
Class MpdServer (M : Type) `{MpdConnection M} := {
  rows : M -> list Row;
  player : M -> MpdStatus;
  addable : M -> str -> bool;
  playlist : M -> str -> list str;
  commands : M -> list Command;
  playlistinfo_ok : forall m, exists items, playlistinfo m = (m, Ok items) /\
    map (fun i => (id i, file_path i)) items = rows m /\
    forall n i, items !! n = Some i -> position i = N.of_nat n;
  status_ok : forall m, status m = (m, Ok (player m));
  sticker_get_keeps : forall u n m, (sticker_get u n m).1 = m;
  find_file_keeps : forall u m, (find_file u m).1 = m;
  current_song_keeps : forall m, (current_song m).1 = m;
  listplaylistinfo_ok : forall n m, listplaylistinfo n m =
    (m, Ok (imap (fun i f => {| entry_position := N.of_nat i; entry_file := f |}) (playlist m n)));
  stop_keeps : forall m m' r, stop m = (m', r) ->
    r = Ok tt /\ rows m' = rows m /\ addable m' = addable m /\ commands m' = commands m ++ [CStop];
  clear_ok : forall m m' r, clear m = (m', r) ->
    r = Ok tt /\ rows m' = [] /\ addable m' = addable m /\ (forall n, playlist m' n = playlist m n) /\
    commands m' = commands m ++ [CClear];
  play_on_keeps : forall m m' r, play m = (m', r) ->
    r = Ok tt /\ rows m' = rows m /\ addable m' = addable m /\ commands m' = commands m ++ [CPlayOn];
  play_keeps : forall p m m' r, play_position p m = (m', r) ->
    (p < N.of_nat (length (rows m)) -> r = Ok tt) /\
    rows m' = rows m /\ addable m' = addable m /\ commands m' = commands m ++ [CPlay p];
  pause_keeps : forall b m m' r, pause b m = (m', r) ->
    rows m' = rows m /\ addable m' = addable m /\ commands m' = commands m ++ [CPause b];
  addtagid_keeps : forall n t v m m' r, addtagid n t v m = (m', r) ->
    rows m' = rows m /\ addable m' = addable m /\ commands m' = commands m ++ [CTag n t v];
  addid_ok : forall u p m m' r, addid u p m = (m', r) ->
    addable m' = addable m /\ commands m' = commands m ++ [CAdd u p] /\
    match slot p (length (rows m)) with
    | Some i =>
        if addable m u then exists n, r = Ok n /\ n ∉ (rows m).*1 /\ rows m' = insert_row i (n, u) (rows m)
        else (exists e, r = Err e) /\ rows m' = rows m
    | None => (exists e, r = Err e) /\ rows m' = rows m
    end;
  deleteid_ok : forall n m m' r, deleteid n m = (m', r) ->
    addable m' = addable m /\ commands m' = commands m ++ [CDelete n] /\
    (if decide (n ∈ (rows m).*1) then r = Ok tt else exists e, r = Err e) /\
    rows m' = without_song n (rows m);
  playlistdelete_ok : forall n p m m' r, playlistdelete n p m = (m', r) ->
    rows m' = rows m /\ addable m' = addable m /\
    (forall n', n' <> n -> playlist m' n' = playlist m n') /\
    (if p <? N.of_nat (length (playlist m n)) then r = Ok tt else exists e, r = Err e) /\
    playlist m' n = delete_at (N.to_nat p) (playlist m n);
}.

(** ** Rows *)

Lemma insert_row_uris i n u l : (insert_row i (n, u) l).*2 = take i l.*2 ++ u :: drop i l.*2.
Proof. unfold insert_row. by rewrite fmap_app, fmap_cons, fmap_take, fmap_drop. Qed.

Lemma insert_row_perm i r l : insert_row i r l ≡ₚ r :: l.
Proof. unfold insert_row. rewrite <-Permutation_middle. by rewrite take_drop. Qed.

Lemma insert_row_unique i n u l : NoDup l.*1 -> n ∉ l.*1 -> NoDup (insert_row i (n, u) l).*1.
Proof. intros Hl Hn. rewrite (insert_row_perm i (n, u) l). by constructor. Qed.

Lemma without_song_unique n l : NoDup l.*1 -> NoDup (without_song n l).*1.
Proof. intros Hl. apply (sublist_NoDup _ l.*1 Hl). apply fmap_sublist, sublist_filter. Qed.

Lemma without_song_fresh n l : n ∉ l.*1 -> without_song n l = l.
Proof.
  unfold without_song. induction l as [|[m u] l IH]; [done|].
  rewrite fmap_cons, not_elem_of_cons. intros [Hm Hn].
  rewrite filter_cons_True by (cbn in *; congruence). by rewrite IH.
Qed.

Lemma without_song_middle n u l1 l2 :
  NoDup (l1 ++ (n, u) :: l2).*1 -> without_song n (l1 ++ (n, u) :: l2) = l1 ++ l2.
Proof.
  rewrite fmap_app, fmap_cons. intros Hnd. apply NoDup_app in Hnd as (_ & H1 & Hnd).
  apply NoDup_cons in Hnd as [H2 _].
  assert (H3 : n ∉ l1.*1) by (intros Hn; apply (H1 n Hn), list_elem_of_here).
  cbn [fst] in H2. apply without_song_fresh in H2, H3. unfold without_song in *.
  rewrite filter_app, filter_cons_False by (cbn; auto). by rewrite H2, H3.
Qed.

(** Rows without some songs. *)
Definition without_songs (ns : list N) (l : list Row) : list Row := filter (fun r => r.1 ∉ ns) l.

Lemma without_songs_nil l : without_songs [] l = l.
Proof.
  unfold without_songs. induction l as [|r l IH]; [done|].
  rewrite filter_cons_True by apply not_elem_of_nil. by rewrite IH.
Qed.

Lemma without_songs_cons n ns l : without_songs ns (without_song n l) = without_songs (n :: ns) l.
Proof.
  unfold without_songs, without_song. rewrite list_filter_filter. apply list_filter_iff.
  intros r. rewrite not_elem_of_cons. naive_solver.
Qed.

Lemma elem_of_without_song n x l : x ∈ (without_song n l).*1 <-> x <> n /\ x ∈ l.*1.
Proof.
  unfold without_song. rewrite !list_elem_of_fmap. split.
  - intros (r & -> & Hr). apply list_elem_of_filter in Hr as [? ?]. split; [done|]. by exists r.
  - intros [Hx (r & -> & Hr)]. exists r. split; [done|]. by apply list_elem_of_filter.
Qed.

(** Removing the songs of the rows that satisfy [P] leaves the others. *)
Lemma without_songs_filter (P : Row -> Prop) `{!forall r, Decision (P r)} l :
  NoDup l.*1 -> without_songs (filter P l).*1 l = filter (fun r => ~ P r) l.
Proof.
  intros Hl. unfold without_songs.
  assert (forall r, r ∈ l -> (r.1 ∉ (filter P l).*1 <-> ~ P r)) as Hiff.
  { intros r Hr. split.
    - intros Hn HP. apply Hn, list_elem_of_fmap. exists r. split; [done|]. by apply list_elem_of_filter.
    - intros HP Hn. apply list_elem_of_fmap in Hn as (r' & Heq & [HP' Hr']%list_elem_of_filter).
      assert (r = r') as ->; [|done].
      apply list_elem_of_lookup in Hr as [i Hi], Hr' as [j Hj].
      assert (i = j) as ->; [|congruence]. eapply NoDup_lookup; [done|..]; rewrite list_lookup_fmap.
      + by rewrite Hi.
      + rewrite Hj. cbn. by rewrite Heq. }
  clear Hl. revert Hiff. generalize (filter P l).*1 as ns. intros ns. induction l as [|r l IH]; intros Hiff; [done|].
  assert (Hl : filter (fun r => r.1 ∉ ns) l = filter (fun r => ~ P r) l)
    by (apply IH; intros r' Hr'; by apply Hiff, list_elem_of_further).
  specialize (Hiff r (list_elem_of_here _ _)). rewrite !filter_cons, Hl. by repeat case_decide; naive_solver.
Qed.

(** The songs of the listed items whose file satisfies [P], as rows. *)
Lemma listed_songs (P : str -> Prop) `{!forall u, Decision (P u)} items l :
  map (fun i => (id i, file_path i)) items = l ->
  map id (filter (fun i => P (file_path i)) items) = (filter (fun r => P r.2) l).*1.
Proof.
  intros <-. induction items as [|i items IH]; [done|]. rewrite filter_cons. cbn [map].
  rewrite filter_cons. cbn [snd]. case_decide; [|done]. cbn. by f_equal.
Qed.

(** ** A player in memory *)

Record MemPlayer := {
  m_rows : list Row; m_status : MpdStatus; m_library : list str; m_playlists : gmap str (list str);
  m_log : list Command;
}.

Definition m_set (r : list Row) (c : Command) (m : MemPlayer) : MemPlayer :=
  {| m_rows := r; m_status := m_status m; m_library := m_library m; m_playlists := m_playlists m;
     m_log := m_log m ++ [c] |}.
Definition m_transport (s : MpdStatus) (c : Command) (m : MemPlayer) : MemPlayer :=
  {| m_rows := m_rows m; m_status := s; m_library := m_library m; m_playlists := m_playlists m;
     m_log := m_log m ++ [c] |}.

Definition refusal (code : N) : MpdError := Ack code 0 [] [].

Definition no_tags : ClassicalTags :=
  {| composer := None; composer_sort := None; conductor := None; ensemble := None; performer := None;
     work := None; work_sort := None; movement := None; movement_number := None; original_date := None;
     recording_date := None; record_label := None; medium := None |}.

Definition listing (l : list Row) : list MpdQueueItem :=
  imap (fun i r => {| id := r.1; position := N.of_nat i; file_path := r.2; title := None; artist := None;
                      album := None; duration := None; classical := no_tags |}) l.

Definition next_song (l : list Row) : N := 1 + foldr (fun r n => N.max r.1 n) 0 l.

#[export] Instance mem_connection : MpdConnection MemPlayer := {
  playlistinfo m := (m, Ok (listing (m_rows m)));
  status m := (m, Ok (m_status m));
  sticker_get _ _ m := (m, Ok None);
  find_file u m := (m, Ok (if str_in u (m_library m) then [u] else []));
  current_song m := (m, Ok (match song_position (m_status m) with
                            | Some p => snd <$> m_rows m !! N.to_nat p
                            | None => None
                            end));
  listplaylists m := (m, Ok (map fst (map_to_list (m_playlists m))));
  listplaylistinfo n m :=
    (m, Ok (imap (fun i f => {| entry_position := N.of_nat i; entry_file := f |}) (default [] (m_playlists m !! n))));
  stop m := (m_transport {| state := Stopped; song_position := song_position (m_status m) |} CStop m, Ok tt);
  clear m := (m_set [] CClear m, Ok tt);
  play m :=
    (m_transport {| state := Playing;
                    song_position := match song_position (m_status m) with
                                     | Some p => Some p
                                     | None => if decide (m_rows m = []) then None else Some 0
                                     end |} CPlayOn m, Ok tt);
  play_position p m :=
    if p <? N.of_nat (length (m_rows m)) then
      (m_transport {| state := Playing; song_position := Some p |} (CPlay p) m, Ok tt)
    else (m_set (m_rows m) (CPlay p) m, Err (refusal 2));
  pause b m := (m_transport {| state := if b then Paused else Playing; song_position := song_position (m_status m) |}
                  (CPause b) m, Ok tt);
  addid u p m :=
    match slot p (length (m_rows m)) with
    | Some i =>
        if str_in u (m_library m) then
          (m_set (insert_row i (next_song (m_rows m), u) (m_rows m)) (CAdd u p) m, Ok (next_song (m_rows m)))
        else (m_set (m_rows m) (CAdd u p) m, Err (refusal 50))
    | None => (m_set (m_rows m) (CAdd u p) m, Err (refusal 2))
    end;
  addtagid n t v m := (m_set (m_rows m) (CTag n t v) m, Ok tt);
  deleteid n m :=
    (m_set (without_song n (m_rows m)) (CDelete n) m,
     if decide (n ∈ (m_rows m).*1) then Ok tt else Err (refusal 50));
  moveid n p m :=
    (m_set (match list_find (fun r => r.1 = n) (m_rows m) with
            | Some (_, r) => insert_row (N.to_nat p) r (without_song n (m_rows m))
            | None => m_rows m
            end) (CMove n p) m, Ok tt);
  playlistdelete n p m :=
    let l := default [] (m_playlists m !! n) in
    ({| m_rows := m_rows m; m_status := m_status m; m_library := m_library m;
        m_playlists := <[ n := delete_at (N.to_nat p) l ]> (m_playlists m);
        m_log := m_log m ++ [CPlaylistDelete n p] |},
     if p <? N.of_nat (length l) then Ok tt else Err (refusal 2));
  rm_playlist n m :=
    ({| m_rows := m_rows m; m_status := m_status m; m_library := m_library m;
        m_playlists := delete n (m_playlists m); m_log := m_log m |},
     if bool_decide (is_Some (m_playlists m !! n)) then Ok tt else Err (refusal 50));
  save_playlist n m :=
    if bool_decide (is_Some (m_playlists m !! n)) then (m, Err (refusal 56))
    else
      ({| m_rows := m_rows m; m_status := m_status m; m_library := m_library m;
          m_playlists := <[ n := (m_rows m).*2 ]> (m_playlists m); m_log := m_log m |}, Ok tt);
}.

Lemma next_song_fresh l : next_song l ∉ l.*1.
Proof.
  assert (H : forall n, n ∈ l.*1 -> n <= foldr (fun r n => N.max r.1 n) 0 l).
  { induction l as [|r l IH]; cbn; intros n; [by intros ?%elem_of_nil|].
    intros [->|Hn]%elem_of_cons; [lia|]. apply IH in Hn. lia. }
  intros Hn. apply H in Hn. unfold next_song in Hn. lia.
Qed.

Lemma listing_rows l : map (fun i => (id i, file_path i)) (listing l) = l.
Proof.
  unfold listing. rewrite fmap_imap. apply list_eq. intros i. rewrite list_lookup_imap.
  destruct (l !! i) as [[n u]|]; done.
Qed.

#[export] Program Instance mem_server : MpdServer MemPlayer := {
  rows := m_rows;
  player := m_status;
  addable m u := str_in u (m_library m);
  playlist m n := default [] (m_playlists m !! n);
  commands := m_log;
}.
Next Obligation.
  intros m. exists (listing (m_rows m)). split; [done|]. split; [apply listing_rows|].
  intros n i. unfold listing. rewrite list_lookup_imap. destruct (m_rows m !! n); [|done]. by intros [= <-].
Qed.
Solve Obligations with
  (cbn; intros; repeat case_match; simplify_eq; rewrite ?N.ltb_lt, ?N.ltb_ge in *; cbn; split_and?; intros;
   rewrite ?lookup_insert_eq, ?lookup_insert_ne by done; try done; try lia; eauto using next_song_fresh).
