(* ===== verification/Paths.v ===== *)
(** * Paths of the file system

    What the code uses of [std::path]: the components of a path, joining, and the
    comparisons that go by components. *)

From S2P Require Import Prelude.
Local Open Scope N_scope.

Definition SLASH : char := 47.

(** [std::path::Component]; [..] is an ordinary piece to what is used here. *)
Inductive Component := RootDir | CurDir | Normal (s : str).

#[export] Instance Component_eq_dec : EqDecision Component.
Proof. solve_decision. Defined.

Definition dot : str := lit ".".

(** [Path::components]: empty pieces and dots are dropped, but for a dot in front. *)
Definition components (p : str) : list Component :=
  let tail l := map Normal (filter (fun s => s <> [] /\ s <> dot) l) in
  match split_char SLASH p with
  | [] => []
  | first :: l =>
      match p with
      | [] => []
      | _ =>
          if str_is_empty first then RootDir :: tail l
          else if decide (first = dot) then CurDir :: tail l
          else Normal first :: tail l
      end
  end.

(** [Path::join] *)
Definition join (base p : str) : str :=
  if starts_with [SLASH] p then p
  else if str_is_empty base || ends_with [SLASH] base then base ++ p
  else base ++ SLASH :: p.

(** [Path::starts_with] and equality of paths *)
Fixpoint is_prefix (pre l : list Component) : bool :=
  match pre, l with
  | [], _ => true
  | c :: pre', d :: l' => if decide (c = d) then is_prefix pre' l' else false
  | _ :: _, [] => false
  end.
Definition path_starts_with (p base : str) : bool := is_prefix (components base) (components p).
Definition path_eq (p q : str) : bool := bool_decide (components p = components q).

(** [Path::strip_prefix], as text: what follows the components of the base. *)
Fixpoint after_prefix (pre l : list Component) : option (list Component) :=
  match pre, l with
  | [], _ => Some l
  | c :: pre', d :: l' => if decide (c = d) then after_prefix pre' l' else None
  | _ :: _, [] => None
  end.
Fixpoint path_text (l : list Component) : str :=
  match l with
  | [] => []
  | [Normal s] => s
  | Normal s :: l' => s ++ SLASH :: path_text l'
  | RootDir :: l' => SLASH :: path_text l'
  | CurDir :: l' => dot ++ match l' with [] => [] | _ => SLASH :: path_text l' end
  end.
Definition path_strip_prefix (base p : str) : option str :=
  option_map path_text (after_prefix (components base) (components p)).

(** [Path::parent] and [Path::file_name] of a path that ends in a name. *)
Definition path_parent (p : str) : option str :=
  match reverse (components p) with
  | [] | [RootDir] => None
  | _ :: l => Some (path_text (reverse l))
  end.
Definition file_name (p : str) : option str :=
  match last (components p) with
  | Some (Normal s) => if decide (s = lit "..") then None else Some s
  | _ => None
  end.
