(* ===== verification/Availability.v ===== *)
(** * Availability of queue and playlist items
    ([plugins/org.evoframework.playback.mpd/src/availability.rs, gone_curation.rs],
    [resolve_source] of [queue.rs])

    Which source an item belongs to, whether it can be played now, and the removal of
    items whose file is gone from a source that is there. *)

From S2P Require Import Prelude Paths MpdProtocol MpdServer.
From S2P Require SourceRegistry.
Local Open Scope N_scope.

(** ** [resolve_source] *)

(** [first_segment_is_sibling_tree] *)
Definition first_segment_is_sibling_tree (file_path : str) : bool :=
  match split_char SLASH file_path with
  | first :: _ => str_in first [lit "USB"; lit "NAS"]
  | [] => false
  end.

(** The loop over the sources: the first of those with the longest mount path. *)
Definition best_source (absolute : str) (best : option (N * str * str)) (s : SourceRegistry.SourceRecord)
    : option (N * str * str) :=
  if path_starts_with absolute (SourceRegistry.mount_path s) then
    let len := str_len (SourceRegistry.mount_path s) in
    match best with
    | Some (best_len, _, _) =>
        if best_len <? len then Some (len, SourceRegistry.id s, SourceRegistry.mount_path s) else best
    | None => Some (len, SourceRegistry.id s, SourceRegistry.mount_path s)
    end
  else best.

(** [resolve_source] *)
Definition resolve_source (music_directory file_path : str) (registry : SourceRegistry.SourceRegistry) : option str :=
  if str_contains (lit "://") file_path then None
  else
    match foldl (best_source (join music_directory file_path)) None (SourceRegistry.snapshot registry) with
    | Some (_, sid, mount) =>
        if first_segment_is_sibling_tree file_path && path_eq mount music_directory then None else Some sid
    | None => None
    end.

(** ** [availability.rs] *)

(** [is_remote_stream_uri]: [get(..7)] is in bytes; a prefix that equals an ASCII string
    has one byte a character. *)
Definition is_remote_stream_uri (path : str) : bool :=
  eq_ignore_ascii_case (take 7 path) (lit "http://") || eq_ignore_ascii_case (take 8 path) (lit "https://").

(** [derive_from_source_state] *)
Definition derive_from_source_state (s : SourceRegistry.SourceState) : option bool :=
  match s with
  | SourceRegistry.Online | SourceRegistry.Degraded _ _ => Some true
  | SourceRegistry.Offline _ _ | SourceRegistry.Retired => Some false
  | SourceRegistry.Probing => None
  end.

(** [is_local_mpd_file_uri] *)
Definition is_local_mpd_file_uri (uri : str) : bool :=
  if str_is_empty uri then false
  else if is_remote_stream_uri uri then false
  else if starts_with (lit "dlna:") uri || starts_with (lit "DLNA:") uri then false
  else negb (str_contains (lit "://") uri).

(** [source_is_reachable] *)
Definition source_is_reachable (s : SourceRegistry.SourceState) : bool :=
  match s with SourceRegistry.Online | SourceRegistry.Degraded _ _ => true | _ => false end.

(** [classify_local_uri_gone] *)
Definition classify_local_uri_gone (music_directory uri : str) (songs_in_db : gset str)
    (registry : SourceRegistry.SourceRegistry) : bool :=
  if negb (is_local_mpd_file_uri uri) then false
  else if bool_decide (uri ∈ songs_in_db) then false
  else
    match resolve_source music_directory uri registry with
    | None => false
    | Some sid =>
        match SourceRegistry.get registry sid with
        | Some r => source_is_reachable (SourceRegistry.state r)
        | None => false
        end
    end.

Definition EVO_AVAILABLE_STICKER : str := lit "evo:available".

Section player.
Context {M : Type} `{MpdConnection M}.

(** [local_uri_in_song_db] *)
Definition local_uri_in_song_db (uri : str) (m : M) : M * result bool MpdError :=
  if negb (is_local_mpd_file_uri uri) then (m, Ok true)
  else
    let '(m, r) := find_file uri m in
    (m, match r with Ok paths => Ok (str_in uri paths) | Err e => Err e end).

(** [compute_item_available] *)
Definition compute_item_available (file_path : str) (source_id : option str)
    (registry : SourceRegistry.SourceRegistry) (m : M) : M * option bool :=
  if is_remote_stream_uri file_path then (m, Some true)
  else
    let '(m, sticker) := sticker_get file_path EVO_AVAILABLE_STICKER m in
    match sticker with
    | Ok (Some value) => (m, Some (negb (bool_decide (value = lit "0"))))
    | _ =>
        match source_id with
        | None => (m, None)
        | Some sid =>
            match SourceRegistry.get registry sid with
            | None => (m, None)
            | Some record =>
                let derived := derive_from_source_state (SourceRegistry.state record) in
                match derived with
                | Some true =>
                    if is_local_mpd_file_uri file_path then
                      let '(m, r) := local_uri_in_song_db file_path m in
                      (m, match r with Ok b => Some b | Err _ => derived end)
                    else (m, derived)
                | _ => (m, derived)
                end
            end
        end
    end.

(** ** [gone_curation.rs] *)

(** The loops over [deleteid] and [playlistdelete]: how many succeeded. *)
Fixpoint delete_all {A} (op : A -> M -> M * result unit MpdError) (l : list A) (m : M) : M * N :=
  match l with
  | [] => (m, 0)
  | a :: l' =>
      let '(m, r) := op a m in
      let '(m, n) := delete_all op l' m in
      (m, match r with Ok _ => 1 + n | Err _ => n end)
  end.

(** [prune_queue] *)
Definition prune_queue (music_directory : str) (registry : SourceRegistry.SourceRegistry)
    (songs_in_db : gset str) (m : M) : M * N :=
  let '(m, items) := playlistinfo m in
  match items with
  | Err _ => (m, 0)
  | Ok items =>
      let remove_ids :=
        map id (filter (fun i => classify_local_uri_gone music_directory (file_path i) songs_in_db registry = true) items) in
      delete_all deleteid remove_ids m
  end.

Definition descending (a b : N) : Prop := b <= a.
#[local] Instance descending_dec a b : Decision (descending a b) := decide (b <= a).

(** [prune_stored_playlist] *)
Definition prune_stored_playlist (music_directory : str) (registry : SourceRegistry.SourceRegistry)
    (songs_in_db : gset str) (name : str) (m : M) : M * N :=
  let '(m, entries) := listplaylistinfo name m in
  match entries with
  | Err _ => (m, 0)
  | Ok entries =>
      let gone_positions :=
        map entry_position
          (filter (fun e => classify_local_uri_gone music_directory (entry_file e) songs_in_db registry = true) entries) in
      delete_all (playlistdelete name) (sort_by descending gone_positions) m
  end.

Fixpoint prune_playlists (music_directory : str) (registry : SourceRegistry.SourceRegistry)
    (songs_in_db : gset str) (favourites_name : str) (names : list str) (m : M) : M * (N * N) :=
  match names with
  | [] => (m, (0, 0))
  | name :: names' =>
      if decide (name = favourites_name) then
        prune_playlists music_directory registry songs_in_db favourites_name names' m
      else
        let '(m, n) := prune_stored_playlist music_directory registry songs_in_db name m in
        let '(m, (touched, removed)) :=
          prune_playlists music_directory registry songs_in_db favourites_name names' m in
        (m, if 0 <? n then (1 + touched, n + removed) else (touched, removed))
  end.

(** [prune_all_stored_playlists] *)
Definition prune_all_stored_playlists (music_directory : str) (registry : SourceRegistry.SourceRegistry)
    (songs_in_db : gset str) (favourites_name : str) (m : M) : M * (N * N) :=
  let '(m, summaries) := listplaylists m in
  match summaries with
  | Err _ => (m, (0, 0))
  | Ok names => prune_playlists music_directory registry songs_in_db favourites_name names m
  end.

End player.

(** ** Resolution of sources *)

(** The sources the loop has seen so far. *)
Definition best_of (absolute : str) (seen : list SourceRegistry.SourceRecord) (best : option (N * str * str)) : Prop :=
  match best with
  | None => forall s, s ∈ seen -> path_starts_with absolute (SourceRegistry.mount_path s) = false
  | Some (len, sid, mount) =>
      (exists s, s ∈ seen /\ sid = SourceRegistry.id s /\ mount = SourceRegistry.mount_path s /\
         len = str_len mount /\ path_starts_with absolute mount = true) /\
      forall s, s ∈ seen -> path_starts_with absolute (SourceRegistry.mount_path s) = true ->
        str_len (SourceRegistry.mount_path s) <= len
  end.

Lemma best_source_ok absolute seen best s :
  best_of absolute seen best -> best_of absolute (seen ++ [s]) (best_source absolute best s).
Proof.
  intros Hb. unfold best_source. destruct (path_starts_with absolute (SourceRegistry.mount_path s)) eqn:Hs.
  - destruct best as [[[len sid] mount]|]; cbn in *.
    + destruct Hb as [(s0 & Hs0 & Hid & Hm & Hl & Hp) Hmax]. destruct (N.ltb_spec len (str_len (SourceRegistry.mount_path s))).
      * split; [exists s; rewrite elem_of_app, list_elem_of_singleton; naive_solver|].
        intros s' [Hs'| ->%list_elem_of_singleton]%elem_of_app Hps; [|lia].
        specialize (Hmax _ Hs' Hps). lia.
      * split; [exists s0; rewrite elem_of_app; naive_solver|].
        intros s' [Hs'| ->%list_elem_of_singleton]%elem_of_app Hps; [eauto|lia].
    + split; [exists s; rewrite elem_of_app, list_elem_of_singleton; naive_solver|].
      intros s' [Hs'| ->%list_elem_of_singleton]%elem_of_app Hps; [|lia]. apply Hb in Hs'. congruence.
  - destruct best as [[[len sid] mount]|]; cbn in *.
    + destruct Hb as [(s0 & Hs0 & ?) Hmax]. split; [exists s0; rewrite elem_of_app; naive_solver|].
      intros s' [Hs'| ->%list_elem_of_singleton]%elem_of_app Hps; [eauto|congruence].
    + intros s' [Hs'| ->%list_elem_of_singleton]%elem_of_app; [by apply Hb|done].
Qed.

Lemma best_sources_ok absolute l seen best :
  best_of absolute seen best -> best_of absolute (seen ++ l) (foldl (best_source absolute) best l).
Proof.
  revert seen best. induction l as [|s l IH]; intros seen best Hb; cbn; [by rewrite app_nil_r|].
  rewrite (assoc_L _ seen [s] l : seen ++ s :: l = (seen ++ [s]) ++ l). by apply IH, best_source_ok.
Qed.

(** The registered sources whose mount holds a file. *)
Definition holds (music_directory file_path : str) (s : SourceRegistry.SourceRecord) : Prop :=
  path_starts_with (join music_directory file_path) (SourceRegistry.mount_path s) = true.

(** [resolve_source]: the source of an item.  A source is named only when it is in the
    registry, its mount holds the file, and no registered mount that holds it is longer;
    and not for a leftover of the [USB] or [NAS] trees under the mount that is the music
    directory itself.  Without that exception, an item that is not a URL resolves exactly
    when some registered mount holds it. *)
Theorem resolve_source_correct music_directory file_path registry :
  let sources := SourceRegistry.snapshot registry in
  match resolve_source music_directory file_path registry with
  | Some sid =>
      str_contains (lit "://") file_path = false /\
      exists s, s ∈ sources /\ sid = SourceRegistry.id s /\ holds music_directory file_path s /\
        (forall s', s' ∈ sources -> holds music_directory file_path s' ->
           str_len (SourceRegistry.mount_path s') <= str_len (SourceRegistry.mount_path s)) /\
        (first_segment_is_sibling_tree file_path = true ->
           path_eq (SourceRegistry.mount_path s) music_directory = false)
  | None =>
      str_contains (lit "://") file_path = true \/
      (forall s, s ∈ sources -> ~ holds music_directory file_path s) \/
      first_segment_is_sibling_tree file_path = true
  end.
Proof.
  cbn zeta. unfold resolve_source. destruct (str_contains (lit "://") file_path); [by left|].
  pose proof (best_sources_ok (join music_directory file_path) (SourceRegistry.snapshot registry) [] None) as Hb.
  cbn [app] in Hb. specialize (Hb ltac:(by intros s ?%elem_of_nil)).
  destruct (foldl _ _ _) as [[[len sid] mount]|]; cbn in Hb.
  - destruct Hb as [(s & Hs & -> & -> & -> & Hp) Hmax].
    destruct (first_segment_is_sibling_tree file_path) eqn:Hsib; cbn [andb].
    + destruct (path_eq (SourceRegistry.mount_path s) music_directory) eqn:Heq; [by right; right|].
      split; [done|]. exists s. by repeat split.
    + split; [done|]. exists s. by repeat split.
  - right. left. intros s Hs. unfold holds. rewrite Hb by done. discriminate.
Qed.

(** ** Curation *)

Section server.
Context {M : Type} `{MpdServer M}.

(** Deleting songs by id, all of them in the queue. *)
Lemma delete_all_songs ns (m : M) :
  NoDup ns -> (forall n, n ∈ ns -> n ∈ (rows m).*1) ->
  let '(m', n) := delete_all deleteid ns m in
  rows m' = without_songs ns (rows m) /\ n = N.of_nat (length ns).
Proof.
  revert m. induction ns as [|a ns IH]; intros m Hnd Hin; cbn; [by rewrite without_songs_nil|].
  apply NoDup_cons in Hnd as [Ha Hnd]. destruct (deleteid a m) as [m1 r] eqn:Hd.
  destruct (deleteid_ok _ _ _ _ Hd) as (_ & _ & Hr & Hrows).
  rewrite decide_True in Hr by apply Hin, list_elem_of_here.
  specialize (IH m1 Hnd). destruct (delete_all deleteid ns m1) as [m2 n]. subst r.
  destruct IH as [Hm2 ->].
  { intros x Hx. rewrite Hrows. apply elem_of_without_song. split; [by intros ->|].
    by apply Hin, list_elem_of_further. }
  split; [by rewrite Hm2, Hrows, without_songs_cons|lia].
Qed.

(** [prune_queue]: curation of the queue.  On a player that answers, exactly the rows
    whose file is gone are removed, the others stay in their order, and the count is
    right. *)
Theorem prune_queue_correct music_directory registry songs_in_db (m : M) :
  NoDup (rows m).*1 ->
  let gone r := classify_local_uri_gone music_directory r.2 songs_in_db registry = true in
  let '(m', n) := prune_queue music_directory registry songs_in_db m in
  rows m' = filter (fun r => ~ gone r) (rows m) /\ n = N.of_nat (length (filter gone (rows m))).
Proof.
  intros Hnd. cbn zeta. unfold prune_queue. destruct (playlistinfo_ok m) as (items & -> & Hrows & _).
  pose proof (listed_songs (fun u => classify_local_uri_gone music_directory u songs_in_db registry = true)
    _ _ Hrows) as Hsongs. cbn beta in Hsongs. rewrite Hsongs.
  set (gone := fun r : Row => classify_local_uri_gone music_directory r.2 songs_in_db registry = true).
  pose proof (delete_all_songs (filter gone (rows m)).*1 m) as Hd. cbn zeta in Hd.
  destruct (delete_all _ _ _) as [m' n]. destruct Hd as [-> ->].
  - apply (sublist_NoDup _ (rows m).*1 Hnd), fmap_sublist, sublist_filter.
  - intros x. rewrite !list_elem_of_fmap. intros (r & -> & [_ Hr]%list_elem_of_filter). by exists r.
  - split; [by apply without_songs_filter|by rewrite length_fmap].
Qed.

(** The positions of the entries that satisfy [P], from an offset on. *)
Fixpoint positions (P : str -> Prop) `{!forall u, Decision (P u)} (from : N) (l : list str) : list N :=
  match l with
  | [] => []
  | u :: l' => (if decide (P u) then [from] else []) ++ positions P (from + 1) l'
  end.

Lemma positions_ge (P : str -> Prop) `{!forall u, Decision (P u)} from l p :
  p ∈ positions P from l -> from <= p.
Proof.
  revert from. induction l as [|u l IH]; intros from; cbn; [by intros ?%elem_of_nil|].
  rewrite elem_of_app. intros [Hp|Hp%IH]; [|lia].
  case_decide; [apply list_elem_of_singleton in Hp; lia|by apply elem_of_nil in Hp].
Qed.

Lemma positions_sorted (P : str -> Prop) `{!forall u, Decision (P u)} from l :
  StronglySorted (fun a b => ~ descending a b) (positions P from l).
Proof.
  revert from. induction l as [|u l IH]; intros from; cbn; [constructor|].
  case_decide; [|apply IH]. constructor; [apply IH|].
  apply Forall_forall. intros p Hp%positions_ge. unfold descending. lia.
Qed.

Lemma positions_app (P : str -> Prop) `{!forall u, Decision (P u)} from l u :
  positions P from (l ++ [u]) =
    positions P from l ++ if decide (P u) then [from + N.of_nat (length l)] else [].
Proof.
  revert from. induction l as [|v l IH]; intros from; cbn [positions app length].
  - rewrite N.add_0_r. by rewrite app_nil_r.
  - rewrite IH, app_assoc. do 2 f_equal. by replace (from + 1 + N.of_nat (length l)) with (from + N.of_nat (S (length l))) by lia.
Qed.

Lemma delete_at_middle {A} (l1 l2 : list A) a : delete_at (length l1) (l1 ++ a :: l2) = l1 ++ l2.
Proof.
  unfold delete_at. rewrite take_app_length. f_equal.
  by rewrite <-(Nat.add_1_r (length l1)), drop_app_add.
Qed.

(** Deleting entries from the last to the first hits the entries that were meant. *)
Lemma delete_positions (P : str -> Prop) `{!forall u, Decision (P u)} name l rest (m : M) :
  playlist m name = l ++ rest ->
  let '(m', n) := delete_all (playlistdelete name) (reverse (positions P 0 l)) m in
  playlist m' name = filter (fun u => ~ P u) l ++ rest /\ n = N.of_nat (length (filter P l)) /\
  rows m' = rows m /\ forall name', name' <> name -> playlist m' name' = playlist m name'.
Proof.
  revert rest m. induction l as [|u l IH] using rev_ind; intros rest m Hm; [by cbn|].
  rewrite positions_app, (filter_app P l [u]), (filter_app (fun v => ~ P v) l [u]), !(filter_singleton _ _ []), N.add_0_l.
  destruct (decide (P u)) as [Hu|Hu].
  - rewrite reverse_snoc. cbn [delete_all]. destruct (playlistdelete name (N.of_nat (length l)) m) as [m1 r] eqn:Hd.
    destruct (playlistdelete_ok _ _ _ _ _ Hd) as (Hr1 & _ & Hother & Hr & Hm1).
    rewrite Hm, Nat2N.id, <-app_assoc in Hm1. cbn [app] in Hm1. rewrite delete_at_middle in Hm1.
    rewrite Hm, <-app_assoc, length_app in Hr. cbn [length app] in Hr.
    rewrite (proj2 (N.ltb_lt _ _)) in Hr by lia. subst r.
    specialize (IH rest m1 Hm1). destruct (delete_all _ _ m1) as [m2 n].
    destruct IH as (-> & -> & -> & Ho). case_decide; [done|]. rewrite app_nil_r.
    split; [done|]. split; [rewrite length_app; cbn; lia|]. split; [done|].
    intros name' Hn. by rewrite Ho, Hother.
  - rewrite (app_nil_r (positions P 0 l)), (app_nil_r (filter P l)). case_decide; [|done]. specialize (IH (u :: rest) m).
    rewrite <-app_assoc in Hm. specialize (IH Hm). destruct (delete_all _ _ m) as [m2 n].
    destruct IH as (IH & ?). split; [|done]. rewrite IH. by rewrite <-(app_assoc _ [u] rest).
Qed.

Lemma listed_positions (P : str -> Prop) `{!forall u, Decision (P u)} l from :
  map entry_position (filter (fun e => P (entry_file e))
    (imap (fun i f => {| entry_position := from + N.of_nat i; entry_file := f |}) l)) = positions P from l.
Proof.
  revert from. induction l as [|u l IH]; intros from; [done|]. cbn [imap positions].
  rewrite filter_cons. cbn [entry_file].
  assert (Himap : imap ((fun i f => {| entry_position := from + N.of_nat i; entry_file := f |}) ∘ S) l =
    imap (fun i f => {| entry_position := (from + 1) + N.of_nat i; entry_file := f |}) l).
  { apply imap_ext. intros i x _. cbn. f_equal. lia. }
  rewrite Himap. case_decide; cbn [map app entry_position]; rewrite IH; [|done].
  by rewrite N.add_0_r.
Qed.

(** [prune_stored_playlist]: curation of a stored playlist, which is addressed by
    position.  Exactly the entries whose file is gone are removed, the others stay in
    their order, the count is right, and neither another playlist nor the queue changes:
    deleting shifts no position that is still to be deleted. *)
Theorem prune_stored_playlist_correct music_directory registry songs_in_db name (m : M) :
  let gone u := classify_local_uri_gone music_directory u songs_in_db registry = true in
  let '(m', n) := prune_stored_playlist music_directory registry songs_in_db name m in
  playlist m' name = filter (fun u => ~ gone u) (playlist m name) /\
  n = N.of_nat (length (filter gone (playlist m name))) /\
  rows m' = rows m /\ forall name', name' <> name -> playlist m' name' = playlist m name'.
Proof.
  cbn zeta. unfold prune_stored_playlist. rewrite listplaylistinfo_ok.
  set (P := fun u => classify_local_uri_gone music_directory u songs_in_db registry = true).
  match goal with |- context [sort_by _ ?l] =>
    replace l with (positions P 0 (playlist m name)) by (symmetry; exact (listed_positions P (playlist m name) 0))
  end.
  rewrite sort_by_reverse by apply positions_sorted.
  pose proof (delete_positions P name (playlist m name) [] m) as Hd. rewrite !app_nil_r in Hd. by apply Hd.
Qed.

(** What makes an item gone. *)
Lemma gone_inv music_directory uri songs_in_db registry :
  classify_local_uri_gone music_directory uri songs_in_db registry = true ->
  is_local_mpd_file_uri uri = true /\ uri ∉ songs_in_db /\
  exists sid r, resolve_source music_directory uri registry = Some sid /\
    SourceRegistry.get registry sid = Some r /\ source_is_reachable (SourceRegistry.state r) = true.
Proof.
  unfold classify_local_uri_gone. destruct (is_local_mpd_file_uri uri); cbn [negb]; [|done].
  case_bool_decide; [done|]. destruct (resolve_source _ _ _) as [sid|]; [|done].
  destruct (SourceRegistry.get registry sid) as [r|] eqn:Hr; [|done]. intros Hs.
  split; [done|]. split; [done|]. by exists sid, r.
Qed.

Lemma local_not_remote uri : is_local_mpd_file_uri uri = true -> is_remote_stream_uri uri = false.
Proof.
  unfold is_local_mpd_file_uri. destruct (str_is_empty uri); [done|]. by destruct (is_remote_stream_uri uri).
Qed.

(** Curation and availability agree.  An item that curation would remove (its file is
    gone from the database although its source is reachable) is shown as not available,
    unless a sticker says otherwise, provided the player's search finds exactly the songs
    of its database. *)
Theorem gone_items_unavailable music_directory uri songs_in_db registry (m : M) paths :
  classify_local_uri_gone music_directory uri songs_in_db registry = true ->
  (forall v, (sticker_get uri EVO_AVAILABLE_STICKER m).2 <> Ok (Some v)) ->
  (find_file uri m).2 = Ok paths -> (uri ∈ paths <-> uri ∈ songs_in_db) ->
  compute_item_available uri (resolve_source music_directory uri registry) registry m = (m, Some false).
Proof.
  intros (Hlocal & Hdb & sid & r & -> & Hget & Hreach)%gone_inv Hsticker Hfind Hpaths.
  unfold compute_item_available. rewrite (local_not_remote _ Hlocal).
  pose proof (sticker_get_keeps uri EVO_AVAILABLE_STICKER m) as Hm.
  destruct (sticker_get uri EVO_AVAILABLE_STICKER m) as [m1 st]. cbn in *. subst m1.
  assert (Hd : derive_from_source_state (SourceRegistry.state r) = Some true)
    by (by destruct (SourceRegistry.state r)).
  unfold local_uri_in_song_db. rewrite Hget, Hd, Hlocal. cbn [negb].
  pose proof (find_file_keeps uri m) as Hm. destruct (find_file uri m) as [m1 f]. cbn in *. subst m1 f.
  assert (Hin : str_in uri paths = false) by (apply not_true_iff_false; rewrite str_in_spec; tauto).
  rewrite Hin. by destruct st as [[v|]|e]; [destruct (Hsticker v)|..].
Qed.

End server.

(** ** Applications *)

(** A reachable source over the music directory, and a player one of whose songs is gone. *)
Definition demo_source : SourceRegistry.SourceRecord :=
  {| SourceRegistry.id := lit "floor"; SourceRegistry.display_name := lit "Internal";
     SourceRegistry.kind := SourceRegistry.LocalInternal; SourceRegistry.mount_path := lit "/m";
     SourceRegistry.mpd_storage_name := None; SourceRegistry.state := SourceRegistry.Online;
     SourceRegistry.last_seen_online_at_ms := None; SourceRegistry.probe_cadence_ms := 0;
     SourceRegistry.scan_policy := SourceRegistry.BrowseOnly; SourceRegistry.track_count := 0;
     SourceRegistry.track_count_available := 0; SourceRegistry.last_scan_at_ms := None |}.
Definition demo_registry : SourceRegistry.SourceRegistry := SourceRegistry.upsert demo_source SourceRegistry.new.
Definition demo_curated : MemPlayer :=
  {| m_rows := [(1, lit "a"); (2, lit "gone"); (3, lit "http://r/s")];
     m_status := {| state := Stopped; song_position := None |}; m_library := [lit "a"]; m_playlists := ∅; m_log := [] |}.

Lemma prune_queue_correct_witness :
  let '(m', n) := prune_queue (lit "/m") demo_registry {[ lit "a" ]} demo_curated in
  rows m' = [(1, lit "a"); (3, lit "http://r/s")] /\ n = 1.
Proof.
  assert (Hnd : NoDup (rows demo_curated).*1) by (apply (bool_decide_unpack _); vm_compute; exact I).
  pose proof (prune_queue_correct (lit "/m") demo_registry {[ lit "a" ]} demo_curated Hnd) as Hp.
  vm_compute in Hp |- *. exact Hp.
Defined.

Lemma gone_items_unavailable_witness :
  compute_item_available (lit "gone") (resolve_source (lit "/m") (lit "gone") demo_registry) demo_registry demo_curated =
    (demo_curated, Some false).
Proof.
  apply (gone_items_unavailable _ _ {[ lit "a" ]} _ _ []); [vm_compute; reflexivity|discriminate|vm_compute; reflexivity|].
  split; [by intros ?%elem_of_nil|]. intros Hin%elem_of_singleton. discriminate.
Defined.
