(* ===== verification/ArtworkUrl.v ===== *)
(** * Artwork URLs ([crates/evo-device-audio-shared/src/lib.rs])

    The URL under which a row's artwork is asked for: the identity of the cover (the
    album, or else the file) percent-encoded into the query. *)

From S2P Require Import Prelude.
Local Open Scope N_scope.

(** ** Definitions *)

Definition PERCENT : N := 37.
Definition AMPERSAND : N := 38.
Definition EQUALS : N := 61.

(** The bytes that stay as they are. *)
Definition unreserved (b : N) : bool :=
  is_ascii_alphanumeric b || (b =? 45) || (b =? 95) || (b =? 46) || (b =? 126).

(** A digit of [{:02X}]. *)
Definition hex_digit (n : N) : N := if n <? 10 then 48 + n else 55 + n.

Definition encode_byte (b : N) : str :=
  if unreserved b then [b] else [PERCENT; hex_digit (b / 16); hex_digit (b mod 16)].

(** [percent_encode_query_value] *)
Definition percent_encode_query_value (s : str) : str := concat (map encode_byte (as_bytes s)).

(** [artwork_target_url] *)
Definition artwork_target_url (scheme value : str) : str :=
  lit "/api/v1/audio/artwork?scheme=" ++ percent_encode_query_value scheme ++
  lit "&value=" ++ percent_encode_query_value value.

(** [artwork_target_url_sized] *)
Definition artwork_target_url_sized (scheme value : str) (size : option str) : str :=
  match size with
  | Some s =>
      if negb (str_is_empty (trim s)) then
        lit "/api/v1/audio/artwork?scheme=" ++ percent_encode_query_value scheme ++
        lit "&value=" ++ percent_encode_query_value value ++
        lit "&size=" ++ percent_encode_query_value s
      else artwork_target_url scheme value
  | None => artwork_target_url scheme value
  end.

(** A tag that is there and not blank, trimmed. *)
Definition usable_tag (tag : option str) : option str :=
  match tag with
  | Some s => if str_is_empty (trim s) then None else Some (trim s)
  | None => None
  end.

(** [artwork_target_url_for_track_sized], [artwork_target_url_for_track] *)
Definition artwork_target_url_for_track_sized (file_path : str) (artist album size : option str) : str :=
  match usable_tag artist, usable_tag album with
  | Some a, Some al => artwork_target_url_sized (lit "mpd-album") (a ++ lit "|" ++ al) size
  | _, _ => artwork_target_url_sized (lit "mpd-path") file_path size
  end.
Definition artwork_target_url_for_track (file_path : str) (artist album : option str) : str :=
  artwork_target_url_for_track_sized file_path artist album None.

(** ** Reading a URL back *)

Definition hex_value (c : N) : option N :=
  if in_range 48 57 c then Some (c - 48) else if in_range 65 70 c then Some (c - 55) else None.

(** What a server does with the value of a query parameter. *)
Fixpoint percent_decode (s : str) : option (list N) :=
  match s with
  | [] => Some []
  | c :: s' =>
      if c =? PERCENT then
        match s' with
        | h :: l :: s'' =>
            match hex_value h, hex_value l, percent_decode s'' with
            | Some x, Some y, Some r => Some (16 * x + y :: r)
            | _, _, _ => None
            end
        | _ => None
        end
      else option_map (cons c) (percent_decode s')
  end.

(** One [name=value] of a query. *)
Definition parse_param (p : str) : option (str * list N) :=
  match split_once [EQUALS] p with
  | Some (name, v) => option_map (pair name) (percent_decode v)
  | None => None
  end.

(** The parameters of a URL's query. *)
Definition parse_query (url : str) : option (list (option (str * list N))) :=
  match split_once (lit "?") url with
  | Some (_, q) => Some (map parse_param (split_char AMPERSAND q))
  | None => None
  end.

(** ** Lemmas *)

Lemma as_bytes_byte s b : Forall scalar s -> b ∈ as_bytes s -> b < 256.
Proof.
  intros Hs Hb. apply elem_of_concat_map in Hb as (c & Hc & Hb). rewrite Forall_forall in Hs.
  by eapply encode_utf8_byte; [apply Hs|].
Qed.

(** A number below sixteen, case by case. *)
Ltac nibble n := destruct n as [|n]; [done|]; do 4 (destruct n as [n|n|]; try done; try lia).

Lemma hex_value_digit n : n < 16 -> hex_value (hex_digit n) = Some n.
Proof. intros Hn. nibble n. Qed.

(** What may stand in an encoded value. *)
Definition value_char (c : N) : bool := unreserved c || (c =? PERCENT).

Lemma hex_digit_value_char n : n < 16 -> value_char (hex_digit n) = true.
Proof. intros Hn. nibble n. Qed.

Lemma encode_byte_chars b c : b < 256 -> c ∈ encode_byte b -> value_char c = true.
Proof.
  unfold encode_byte. intros Hb Hc. destruct (unreserved b) eqn:Hu.
  - apply elem_of_cons in Hc as [->|Hc]; [|by apply elem_of_nil in Hc]. unfold value_char. by rewrite Hu.
  - repeat (apply elem_of_cons in Hc as [->|Hc]); [done|..|by apply elem_of_nil in Hc]; apply hex_digit_value_char.
    + apply N.Div0.div_lt_upper_bound. lia.
    + by apply N.mod_lt.
Qed.

Lemma encoded_chars s c : Forall scalar s -> c ∈ percent_encode_query_value s -> value_char c = true.
Proof.
  intros Hs Hc. apply elem_of_concat_map in Hc as (b & Hb & Hc).
  eapply encode_byte_chars, Hc. by eapply as_bytes_byte.
Qed.

Lemma decode_encode_byte b r : b < 256 -> percent_decode (encode_byte b ++ r) = option_map (cons b) (percent_decode r).
Proof.
  intros Hb. unfold encode_byte. destruct (unreserved b) eqn:Hu.
  - cbn. destruct (N.eqb_spec b PERCENT) as [->|_]; [by cbn in Hu|done].
  - cbn [app percent_decode]. change (PERCENT =? PERCENT) with true. cbn [negb].
    rewrite !hex_value_digit by first [apply N.Div0.div_lt_upper_bound; lia | by apply N.mod_lt].
    destruct (percent_decode r); [|done]. cbn. do 2 f_equal. pose proof (N.div_mod b 16). lia.
Qed.

Lemma decode_encode_bytes bs r : Forall (fun b => b < 256) bs ->
  percent_decode (concat (map encode_byte bs) ++ r) = option_map (app bs) (percent_decode r).
Proof.
  induction 1 as [|b bs Hb _ IH]; cbn [map concat app].
  - by destruct (percent_decode r).
  - rewrite <-app_assoc, decode_encode_byte, IH by done. by destruct (percent_decode r).
Qed.

Lemma decode_encode s : Forall scalar s -> percent_decode (percent_encode_query_value s) = Some (as_bytes s).
Proof.
  intros Hs. rewrite <-(app_nil_r (percent_encode_query_value s)). unfold percent_encode_query_value.
  rewrite decode_encode_bytes; [cbn; by rewrite app_nil_r|].
  apply Forall_forall. intros b. by apply as_bytes_byte.
Qed.

(** A piece without the separator, and what follows it. *)
Lemma encoded_without c s : Forall scalar s -> value_char c = false -> c ∉ percent_encode_query_value s.
Proof. intros Hs Hc Hin. apply encoded_chars in Hin; [congruence|done]. Qed.

(** A parameter as the URLs write it. *)
Definition param (name s : str) : str := name ++ EQUALS :: percent_encode_query_value s.

Lemma param_without_ampersand name s : AMPERSAND ∉ name -> Forall scalar s -> AMPERSAND ∉ param name s.
Proof.
  intros Hn Hs. unfold param. rewrite elem_of_app, elem_of_cons. intros [?|[?|Hin]]; [done|done|].
  by apply (encoded_without AMPERSAND s).
Qed.

Lemma parse_param_param name s : EQUALS ∉ name -> Forall scalar s -> parse_param (param name s) = Some (name, as_bytes s).
Proof.
  intros Hn Hs. unfold parse_param, param. rewrite split_once_char_intro by done. by rewrite decode_encode.
Qed.

Lemma parse_query_params path p1 rest :
  63 ∉ path -> AMPERSAND ∉ p1 ->
  parse_query (path ++ 63 :: p1 ++ AMPERSAND :: rest) =
    Some (parse_param p1 :: map parse_param (split_char AMPERSAND rest)).
Proof.
  intros Hp H1. unfold parse_query. change (lit "?") with [63]. rewrite split_once_char_intro by done.
  by rewrite split_char_piece.
Qed.

(** A character is not in a literal. *)
Ltac absent := apply (bool_decide_unpack _); vm_compute; exact I.

(** ** The theorems *)

(** The parameters the URL of a resolve request is to carry. *)
Definition parameters (scheme value : str) (size : option str) : list (option (str * list N)) :=
  [Some (lit "scheme", as_bytes scheme); Some (lit "value", as_bytes value)] ++
  match size with
  | Some s => if str_is_empty (trim s) then [] else [Some (lit "size", as_bytes s)]
  | None => []
  end.

(** [artwork_target_url_sized]: whatever the scheme, the value (a path, an artist and an
    album) and the size hold, the query of the URL has exactly the parameters that were
    meant, and decoding them gives their bytes back: no character of a file name can
    end a value or add a parameter. *)
Theorem artwork_url_roundtrip scheme value size :
  Forall scalar scheme -> Forall scalar value -> Forall scalar (default [] size) ->
  parse_query (artwork_target_url_sized scheme value size) = Some (parameters scheme value size).
Proof.
  intros Hs Hv Hz.
  set (path := lit "/api/v1/audio/artwork").
  assert (Hp : 63 ∉ path) by absent.
  assert (Hscheme : AMPERSAND ∉ param (lit "scheme") scheme)
    by (apply param_without_ampersand; [absent|done]).
  assert (Hvalue : AMPERSAND ∉ param (lit "value") value)
    by (apply param_without_ampersand; [absent|done]).
  assert (Hplain : parse_query (artwork_target_url scheme value) = Some (parameters scheme value None)).
  { change (artwork_target_url scheme value) with
      (path ++ 63 :: param (lit "scheme") scheme ++ AMPERSAND :: param (lit "value") value).
    rewrite parse_query_params by done. rewrite split_char_last by done. cbn [map].
    by rewrite !parse_param_param by (done || absent). }
  unfold artwork_target_url_sized. destruct size as [z|]; [|done]. unfold parameters in *.
  destruct (str_is_empty (trim z)) eqn:Hempty; cbn [negb]; [done|].
  match goal with |- _ = ?params => change (parse_query (path ++ 63 :: param (lit "scheme") scheme ++
    AMPERSAND :: param (lit "value") value ++ AMPERSAND :: param (lit "size") z) = params) end.
  rewrite parse_query_params by done. rewrite split_char_piece by done.
  rewrite split_char_last by (apply param_without_ampersand; [absent|done]).
  cbn [map]. by rewrite !parse_param_param by (done || absent).
Qed.

Lemma artwork_url_roundtrip_witness :
  parse_query (artwork_target_url_sized (lit "mpd-path") (lit "A&B=C?/50%.flac") (Some (lit "small"))) =
    Some [Some (lit "scheme", as_bytes (lit "mpd-path")); Some (lit "value", as_bytes (lit "A&B=C?/50%.flac"));
          Some (lit "size", as_bytes (lit "small"))].
Proof.
  apply (artwork_url_roundtrip (lit "mpd-path") (lit "A&B=C?/50%.flac") (Some (lit "small")));
    apply (bool_decide_unpack _); vm_compute; exact I.
Defined.

(** All tracks of an album ask for one cover: the URL does not depend on the file, nor on
    blanks around the tags. *)
Theorem album_tracks_share_url f g artist album artist' album' size a al :
  usable_tag artist = Some a -> usable_tag album = Some al ->
  usable_tag artist' = Some a -> usable_tag album' = Some al ->
  artwork_target_url_for_track_sized f artist album size = artwork_target_url_for_track_sized g artist' album' size.
Proof. unfold artwork_target_url_for_track_sized. by intros -> -> -> ->. Qed.

(** The artist and the album are joined by a bar that neither is kept from holding: two
    albums can share a cover. *)
Theorem albums_confused :
  artwork_target_url_for_track [] (Some (lit "A|B")) (Some (lit "C")) =
  artwork_target_url_for_track [] (Some (lit "A")) (Some (lit "B|C")).
Proof. reflexivity. Qed.
