(* ===== verification/Queue.v ===== *)
(** * The play queue ([plugins/org.evoframework.playback.mpd/src/queue.rs])

    The verbs that edit the queue, the publication of its envelope, and the gestures a
    volume's removal or renaming makes on it: dropping, parking, restoring and rewriting
    the items under a prefix.  The player is the interface [MpdConnection]; the
    theorems about what a gesture does to the queue assume a player that keeps the laws
    of [MpdServer].  The container form of the selection verb, which walks a media server,
    is in [DlnaDescent]; the form by criteria, which walks the library, is not modelled. *)

From S2P Require Import Prelude Paths MpdProtocol MpdServer Availability ArtworkUrl.
From S2P Require SourceRegistry SkipTraversal.
Local Open Scope N_scope.

(** ** Data *)

Definition QUEUE_PAYLOAD_VERSION : N := 1.
Definition QUEUE_TRUNCATION_DEFAULT : nat := 500.

(** [VerbError] *)
Inductive VerbError :=
| PayloadVersion (verb : str) (got expected : N)
| EmptyUris
| PositionOutOfRange (pos length : N)
| QueueEmpty
| Mpd (verb reason : str).

(** One item of the envelope: the fields of the player's item, and what is computed. *)
Record EnvelopeItem := {
  item : MpdQueueItem;
  item_source_id : option str;
  item_available : option bool;
  artwork_url : str;
}.

(** The JSON envelope of the queue. *)
Record Envelope := {
  v : N; items : list EnvelopeItem; length_ : N; current_position : option N; truncated : bool;
}.

(** What is sent to subscribers. *)
Inductive Publication :=
| Announced (e : Envelope)
| QueueState (e : Envelope)
| NowPlaying (s : MpdStatus) (song : option str).

(** [ResolvedTrack] (what is handed to the player). *)
Record ResolvedTrack := {
  uri : str;
  track_title : option str; track_artist : option str; track_album : option str;
  track_genre : option str; track_date : option str; track_composer : option str;
}.

(** [ParkedQueueItem], [ParkedQueue] *)
Record ParkedQueueItem := { parked_position : N; parked_uri : str }.
Record ParkedQueue := {
  parked_items : list ParkedQueueItem; playing : bool; paused : bool; current : option N;
}.
Definition ParkedQueue_default : ParkedQueue :=
  {| parked_items := []; playing := false; paused := false; current := None |}.

(** The answer of [source.dlna.resolve]: its fields by name. *)
Abbreviation Reply := (str -> option str).

(** [QueueContext], what does not change: the music directory, the sources, the peer that
    resolves [dlna:] URIs if there is one, and the rendering of errors and quoted
    strings. *)
Record Context := {
  music_directory : str;
  registry : SourceRegistry.SourceRegistry;
  shelf_dispatcher : option (str -> str -> result Reply str);
  display_error : MpdError -> str;
  debug : str -> str;
}.

(** The player, the mirror of the last envelope, and what subscribers were sent. *)
Record World (M : Type) := { conn : M; mirror : option Envelope; published : list Publication }.
Arguments conn {M} w : rename.
Arguments mirror {M} w : rename.
Arguments published {M} w : rename.
Arguments Build_World {M} conn mirror published.

Definition with_conn {M} (m : M) (w : World M) : World M :=
  {| conn := m; mirror := mirror w; published := published w |}.
Definition set_mirror {M} (e : Envelope) (w : World M) : World M :=
  {| conn := conn w; mirror := Some e; published := published w |}.
Definition publish {M} (p : Publication) (w : World M) : World M :=
  {| conn := conn w; mirror := mirror w; published := published w ++ [p] |}.

(** ** Paths *)

(** [queue_path_is_under] *)
Definition queue_path_is_under (file prefix : str) : bool :=
  match strip_prefix prefix file with
  | Some rest => str_is_empty rest || starts_with [SLASH] rest
  | None => false
  end.

(** [rewrite_queue_path] *)
Definition rewrite_queue_path (file from to : str) : option str :=
  if negb (queue_path_is_under file from) then None
  else match strip_prefix from file with Some rest => Some (to ++ rest) | None => None end.

(** ** Validation *)

(** [check_version] *)
Definition check_version (got : N) (verb : str) : result unit VerbError :=
  if negb (got =? QUEUE_PAYLOAD_VERSION) then Err (PayloadVersion verb got QUEUE_PAYLOAD_VERSION) else Ok tt.

(** [validate_play_from_position] *)
Definition validate_play_from_position (pos length : N) : result unit VerbError :=
  if length =? 0 then Err QueueEmpty
  else if length <=? pos then Err (PositionOutOfRange pos length)
  else Ok tt.

(** ** Resolution of [dlna:] URIs *)

(** [parse_dlna_uri] *)
Definition parse_dlna_uri (u : str) : option (str * str) :=
  match strip_prefix (lit "dlna:") u with
  | None => None
  | Some rest =>
      match split_once [SLASH] rest with
      | None => None
      | Some (service_id, object_id) =>
          if str_is_empty service_id || str_is_empty object_id then None else Some (service_id, object_id)
      end
  end.

(** [ResolvedTrack::passthrough] *)
Definition passthrough (u : str) : ResolvedTrack :=
  {| uri := u; track_title := None; track_artist := None; track_album := None; track_genre := None;
     track_date := None; track_composer := None |}.

(** [opt_str]: a field that is there and not empty. *)
Definition opt_str (r : Reply) (key : str) : option str :=
  match r key with Some s => if str_is_empty s then None else Some s | None => None end.

(** [resolve_uri_for_mpd]; the peer's errors come with their text. *)
Definition resolve_uri_for_mpd (ctx : Context) (verb u : str) : result ResolvedTrack VerbError :=
  if negb (starts_with (lit "dlna:") u) then Ok (passthrough u)
  else
    match parse_dlna_uri u with
    | None => Err (Mpd verb (lit "stored dlna: URI " ++ debug ctx u ++
        lit " does not match `dlna:<service_id>/<objectId>`; the favourite or playlist entry was written by a caller that does not agree with the source.dlna URI-scheme owner"))
    | Some (service_id, object_id) =>
        match shelf_dispatcher ctx with
        | None => Err (Mpd verb (lit "dlna: URI " ++ debug ctx u ++
            lit " requires the peer-shelf dispatcher to resolve, but LoadContext.shelf_request_dispatcher was None at admission"))
        | Some dispatch =>
            match dispatch service_id object_id with
            | Err reason => Err (Mpd verb reason)
            | Ok response =>
                match response (lit "uri") with
                | None => Err (Mpd verb (lit "dlna resolve " ++ debug ctx u ++
                    lit ": source.dlna.resolve response missing `uri` field"))
                | Some http_uri =>
                    if negb (starts_with (lit "http://") http_uri || starts_with (lit "https://") http_uri) then
                      Err (Mpd verb (lit "dlna resolve " ++ debug ctx u ++ lit ": resolved URI " ++
                        debug ctx http_uri ++ lit " is not http(s) " ++ [8212] ++
                        lit " refusing to hand a non-MPD scheme to `add`"))
                    else
                      Ok {| uri := http_uri; track_title := opt_str response (lit "title");
                            track_artist := opt_str response (lit "artist");
                            track_album := opt_str response (lit "album");
                            track_genre := opt_str response (lit "genre");
                            track_date := opt_str response (lit "date");
                            track_composer := opt_str response (lit "composer") |}
                end
            end
        end
    end.

(** The loops that resolve every URI before anything is sent to the player. *)
Fixpoint resolve_all (ctx : Context) (verb : str) (us : list str) : result (list ResolvedTrack) VerbError :=
  match us with
  | [] => Ok []
  | u :: us' =>
      let? r := resolve_uri_for_mpd ctx verb u in
      let? rs := resolve_all ctx verb us' in
      Ok (r :: rs)
  end.

(** The tags [apply_resolved_tags] sends, those that are there and not empty. *)
Definition tags_of (r : ResolvedTrack) : list (str * str) :=
  omap (fun '(tag, value) =>
    match value with
    | Some s => if str_is_empty s then None else Some (tag, s)
    | None => None
    end)
    [(lit "Title", track_title r); (lit "Artist", track_artist r); (lit "Album", track_album r);
     (lit "Genre", track_genre r); (lit "Date", track_date r); (lit "Composer", track_composer r)].

(** ** Verbs *)

(** A step that may fail with the verb's error, over the world. *)
Definition Act (M A : Type) : Type := World M -> World M * result A VerbError.

Definition ret {M A} (a : A) : Act M A := fun w => (w, Ok a).
Definition bind {M A B} (e : Act M A) (k : A -> Act M B) : Act M B :=
  fun w => let '(w1, r) := e w in match r with Ok a => k a w1 | Err err => (w1, Err err) end.
Notation "'let*' x ':=' e 'in' k" := (bind e (fun x => k))
  (at level 10, x pattern, e at level 100, k at level 200) : evo_scope.

(** A value that was computed without the world. *)
Definition of_result {M A} (r : result A VerbError) : Act M A := fun w => (w, r).

(** A command whose answer is looked at, and one whose failure fails the verb. *)
Definition attempt {M A} (op : M -> M * result A MpdError) : Act M (result A MpdError) :=
  fun w => let '(m, r) := op (conn w) in (with_conn m w, Ok r).
Definition call {M A} (verb : str) (reason : MpdError -> str) (op : M -> M * result A MpdError) : Act M A :=
  fun w => let '(m, r) := op (conn w) in (with_conn m w, map_err (fun e => Mpd verb (reason e)) r).

(** A row to rewrite: song, position, new URI. *)
Abbreviation Target := (N * N * str)%type.

Section verbs.
Context {M : Type} `{MpdConnection M} (ctx : Context).

(** The closures that label an error with the command that failed. *)
Definition labelled (what : str) (e : MpdError) : str := what ++ lit ": " ++ display_error ctx e.

(** One item of [build_envelope] *)
Definition build_item (i : MpdQueueItem) (m : M) : M * EnvelopeItem :=
  let source_id := resolve_source (music_directory ctx) (file_path i) (registry ctx) in
  let '(m, available) := compute_item_available (file_path i) source_id (registry ctx) m in
  (m, {| item := i; item_source_id := source_id; item_available := available;
         artwork_url := artwork_target_url_for_track_sized (file_path i) (artist i) (album i) (Some (lit "small")) |}).

Fixpoint build_items (l : list MpdQueueItem) (m : M) : M * list EnvelopeItem :=
  match l with
  | [] => (m, [])
  | i :: l' =>
      let '(m, e) := build_item i m in
      let '(m, es) := build_items l' m in
      (m, e :: es)
  end.

(** [build_envelope]; the error only reaches the log. *)
Definition build_envelope (m : M) : M * result Envelope str :=
  let '(m, infos) := playlistinfo m in
  match infos with
  | Err e => (m, Err (labelled (lit "playlistinfo") e))
  | Ok infos =>
      let '(m, st) := status m in
      match st with
      | Err e => (m, Err (labelled (lit "status") e))
      | Ok st =>
          let over := (QUEUE_TRUNCATION_DEFAULT <? length infos)%nat in
          let '(m, rendered) := build_items (take (if over then QUEUE_TRUNCATION_DEFAULT else length infos) infos) m in
          (m, Ok {| v := QUEUE_PAYLOAD_VERSION; items := rendered; length_ := N.of_nat (length infos);
                    current_position := song_position st; truncated := over |})
      end
  end.

(** [build_playable_view] *)
Fixpoint playable_items (l : list MpdQueueItem) (m : M) : M * list SkipTraversal.PlayableQueueItem :=
  match l with
  | [] => (m, [])
  | i :: l' =>
      let source_id := resolve_source (music_directory ctx) (file_path i) (registry ctx) in
      let '(m, available) := compute_item_available (file_path i) source_id (registry ctx) m in
      let '(m, rest) := playable_items l' m in
      (m, {| SkipTraversal.position := position i; SkipTraversal.item_id := id i;
             SkipTraversal.file_path := file_path i; SkipTraversal.item_source := source_id;
             SkipTraversal.available := available |} :: rest)
  end.
Definition build_playable_view (m : M) : M * result (list SkipTraversal.PlayableQueueItem) str :=
  let '(m, infos) := playlistinfo m in
  match infos with
  | Err e => (m, Err (labelled (lit "playlistinfo") e))
  | Ok infos => let '(m, view) := playable_items infos m in (m, Ok view)
  end.

(** [render_empty_envelope], [announce_queue] *)
Definition render_empty_envelope : Envelope :=
  {| v := QUEUE_PAYLOAD_VERSION; items := []; length_ := 0; current_position := None; truncated := false |}.
Definition announce_queue (w : World M) : World M :=
  publish (Announced render_empty_envelope) (set_mirror render_empty_envelope w).

(** [publish_queue] *)
Definition publish_queue : Act M unit := fun w =>
  let '(m, r) := build_envelope (conn w) in
  (match r with
   | Ok e => publish (QueueState e) (set_mirror e (with_conn m w))
   | Err _ => with_conn m w
   end, Ok tt).

(** [read_mirror], [handle_get_queue] *)
Definition read_mirror (w : World M) : Envelope := default render_empty_envelope (mirror w).
Definition handle_get_queue (w : World M) : Envelope := read_mirror w.

(** [publish_now_playing_after_transport] *)
Definition publish_now_playing_after_transport : Act M unit :=
  let* st := attempt status in
  match st with
  | Err _ => ret tt
  | Ok st =>
      let* song := attempt current_song in
      match song with
      | Err _ => ret tt
      | Ok song => fun w => (publish (NowPlaying st song) w, Ok tt)
      end
  end.

(** [next_insert_position] *)
Definition next_insert_position (verb : str) : Act M (option N) :=
  let* st := call verb (display_error ctx) status in
  ret (option_map (fun p => sat_add U32_MAX p 1) (song_position st)).

(** [apply_resolved_tags] *)
Fixpoint apply_tags (song : N) (tags : list (str * str)) : Act M unit :=
  match tags with
  | [] => ret tt
  | (tag, value) :: tags' => let* _ := attempt (addtagid song tag value) in apply_tags song tags'
  end.
Definition apply_resolved_tags (song : N) (r : ResolvedTrack) : Act M unit := apply_tags song (tags_of r).

(** The loop that adds resolved tracks, at a position that advances or at the end. *)
Fixpoint add_tracks (verb : str) (rs : list ResolvedTrack) (at_ : option N) : Act M unit :=
  match rs with
  | [] => ret tt
  | r :: rs' =>
      let* song := call verb (display_error ctx) (addid (uri r) at_) in
      let* _ := apply_resolved_tags song r in
      add_tracks verb rs' (option_map (fun p => sat_add U32_MAX p 1) at_)
  end.

(** [handle_enqueue] *)
Definition handle_enqueue (version : N) (uris : list str) (pos : option N) : Act M unit :=
  let* _ := of_result (check_version version (lit "queue.enqueue")) in
  if match uris with [] => true | _ => false end then of_result (Err EmptyUris)
  else
    let* resolved := of_result (resolve_all ctx (lit "enqueue") uris) in
    let* at_ := match pos with
                | Some requested =>
                    let* next := next_insert_position (lit "enqueue") in
                    ret (option_map (fun _ => requested) next)
                | None => ret None
                end in
    let* _ := add_tracks (lit "enqueue") resolved at_ in
    publish_queue.

(** [handle_remove_queue_item], [handle_move_queue_item], [handle_clear_queue] *)
Definition handle_remove_queue_item (version song : N) : Act M unit :=
  let* _ := of_result (check_version version (lit "queue.remove_queue_item")) in
  let* _ := call (lit "remove_queue_item") (display_error ctx) (deleteid song) in
  publish_queue.
Definition handle_move_queue_item (version song to_position : N) : Act M unit :=
  let* _ := of_result (check_version version (lit "queue.move_queue_item")) in
  let* _ := call (lit "move_queue_item") (display_error ctx) (moveid song to_position) in
  publish_queue.
Definition handle_clear_queue : Act M unit :=
  let* _ := call (lit "clear_queue") (display_error ctx) clear in
  publish_queue.

(** [handle_play_from_position] *)
Definition handle_play_from_position (version pos : N) : Act M unit :=
  let* _ := of_result (check_version version (lit "queue.play_from_position")) in
  let* infos := call (lit "play_from_position") (display_error ctx) playlistinfo in
  let length := N.min U32_MAX (N.of_nat (length infos)) in
  let* _ := of_result (validate_play_from_position pos length) in
  let* _ := call (lit "play_from_position") (display_error ctx) (play_position pos) in
  let* _ := publish_now_playing_after_transport in
  publish_queue.

(** [load_playlist_with_dlna_resolve] *)
Definition load_playlist_with_dlna_resolve (verb playlist_name : str) : Act M unit :=
  let* entries := call verb (display_error ctx) (listplaylistinfo playlist_name) in
  let* resolved := of_result (resolve_all ctx verb (map entry_file entries)) in
  add_tracks verb resolved None.

(** [handle_load_playlist_to_queue] *)
Definition handle_load_playlist_to_queue (version : N) (playlist_name : str) (start_position : option N) : Act M unit :=
  let* _ := of_result (check_version version (lit "queue.load_playlist_to_queue")) in
  let* _ := call (lit "load_playlist_to_queue") (display_error ctx) clear in
  let* _ := load_playlist_with_dlna_resolve (lit "load_playlist_to_queue") playlist_name in
  let* _ := match start_position with
            | Some start => let* _ := attempt (play_position start) in ret tt
            | None => ret tt
            end in
  publish_queue.

(** [handle_append_playlist_to_queue] *)
Definition handle_append_playlist_to_queue (version : N) (playlist_name : str) : Act M unit :=
  let* _ := of_result (check_version version (lit "queue.append_playlist_to_queue")) in
  let* _ := load_playlist_with_dlna_resolve (lit "append_playlist_to_queue") playlist_name in
  publish_queue.

(** [handle_save_queue_as_playlist] *)
Definition handle_save_queue_as_playlist (version : N) (playlist_name : str) (overwrite : bool) : Act M unit :=
  let* _ := of_result (check_version version (lit "queue.save_queue_as_playlist")) in
  let* _ := if overwrite then let* _ := attempt (rm_playlist playlist_name) in ret tt else ret tt in
  call (lit "save_queue_as_playlist") (display_error ctx) (save_playlist playlist_name).

(** ** Gestures on a volume *)

Fixpoint delete_each (reason : MpdError -> str) (songs : list N) : Act M unit :=
  match songs with
  | [] => ret tt
  | n :: songs' => let* _ := call (lit "remove_source") reason (deleteid n) in delete_each reason songs'
  end.

(** [drop_queue_items_under] *)
Definition drop_queue_items_under (prefix : str) : Act M N :=
  if str_is_empty prefix then ret 0
  else
    let* infos := call (lit "remove_source") (labelled (lit "playlistinfo")) playlistinfo in
    let doomed := filter (fun i => queue_path_is_under (file_path i) prefix = true) infos in
    if match doomed with [] => true | _ => false end then ret 0
    else
      let* st := call (lit "remove_source") (labelled (lit "status")) status in
      let* _ := match song_position st with
                | Some cur =>
                    if existsb (fun i => position i =? cur) doomed then
                      call (lit "remove_source") (labelled (lit "stop")) stop
                    else ret tt
                | None => ret tt
                end in
      let* _ := delete_each (labelled (lit "deleteid")) (map id doomed) in
      let* _ := publish_queue in
      ret (N.of_nat (length doomed)).

(** [park_queue_items_under] *)
Definition park_queue_items_under (prefix : str) : Act M ParkedQueue :=
  if str_is_empty prefix then ret ParkedQueue_default
  else
    let* infos := call (lit "park_uri_prefix") (labelled (lit "playlistinfo")) playlistinfo in
    let parked := map (fun i => {| parked_position := position i; parked_uri := file_path i |})
                    (filter (fun i => queue_path_is_under (file_path i) prefix = true) infos) in
    if match parked with [] => true | _ => false end then ret ParkedQueue_default
    else
      let* st := call (lit "park_uri_prefix") (labelled (lit "status")) status in
      let on_parked := match song_position st with
                       | Some pos => existsb (fun i => parked_position i =? pos) parked
                       | None => false
                       end in
      let* _ := drop_queue_items_under prefix in
      ret {| parked_items := parked;
             playing := on_parked && bool_decide (state st = Playing);
             paused := on_parked && bool_decide (state st = Paused);
             current := if on_parked then song_position st else None |}.

Definition by_position (a b : ParkedQueueItem) : Prop := parked_position a <= parked_position b.
#[local] Instance by_position_dec a b : Decision (by_position a b) := decide (parked_position a <= parked_position b).

(** The [addid] loop of [restore_parked_queue]: how many rows were put back. *)
Fixpoint put_back (l : list ParkedQueueItem) : Act M N :=
  match l with
  | [] => ret 0
  | i :: l' =>
      let* r := attempt (addid (parked_uri i) (Some (parked_position i))) in
      let* n := put_back l' in
      ret (match r with Ok _ => 1 + n | Err _ => n end)
  end.

(** The transport part of the two restoring gestures. *)
Definition resume_at (pos : N) (repause : bool) : Act M unit :=
  let* r := attempt (play_position pos) in
  match r with
  | Err _ => ret tt
  | Ok _ => if repause then let* _ := attempt (pause true) in ret tt else ret tt
  end.

(** [restore_parked_queue] *)
Definition restore_parked_queue (p : ParkedQueue) : Act M N :=
  if match parked_items p with [] => true | _ => false end then ret 0
  else
    let* restored := put_back (sort_by by_position (parked_items p)) in
    if restored =? 0 then ret 0
    else
      let* _ := match current p with
                | Some pos =>
                    if playing p || paused p then
                      let* _ := resume_at pos (paused p) in publish_now_playing_after_transport
                    else ret tt
                | None => ret tt
                end in
      let* _ := publish_queue in
      ret restored.

Definition last_first (a b : Target) : Prop := b.1.2 <= a.1.2.
#[local] Instance last_first_dec a b : Decision (last_first a b) := decide (b.1.2 <= a.1.2).

(** The loop of [rewrite_queue_uris_under]: how many rows were rewritten. *)
Fixpoint rewrite_each (l : list Target) : Act M N :=
  match l with
  | [] => ret 0
  | (old_id, pos, new_uri) :: l' =>
      let* r := attempt (addid new_uri (Some pos)) in
      match r with
      | Ok _ =>
          let* _ := call (lit "rewrite_uri_prefix") (labelled (lit "deleteid")) (deleteid old_id) in
          let* n := rewrite_each l' in
          ret (1 + n)
      | Err _ => rewrite_each l'
      end
  end.

(** What to restore: the position of a current song that is rewritten while it plays or
    is paused. *)
Definition transport_to_restore (st : MpdStatus) (targets : list Target) : option (N * bool) :=
  match song_position st, state st with
  | Some pos, Playing => if existsb (fun t => t.1.2 =? pos) targets then Some (pos, false) else None
  | Some pos, Paused => if existsb (fun t => t.1.2 =? pos) targets then Some (pos, true) else None
  | _, _ => None
  end.

(** [rewrite_queue_uris_under] *)
Definition rewrite_queue_uris_under (from_prefix to_prefix : str) : Act M N :=
  if str_is_empty from_prefix || str_is_empty to_prefix || bool_decide (from_prefix = to_prefix) then ret 0
  else
    let* infos := call (lit "rewrite_uri_prefix") (labelled (lit "playlistinfo")) playlistinfo in
    let targets := omap (fun i => option_map (fun new_uri => (id i, position i, new_uri))
                           (rewrite_queue_path (file_path i) from_prefix to_prefix)) infos in
    if match targets with [] => true | _ => false end then ret 0
    else
      let targets := sort_by last_first targets in
      let* st := call (lit "rewrite_uri_prefix") (labelled (lit "status")) status in
      let restore := transport_to_restore st targets in
      let* rewritten := rewrite_each targets in
      if rewritten =? 0 then ret 0
      else
        let* _ := match restore with
                  | Some (pos, repause) => let* _ := resume_at pos repause in publish_now_playing_after_transport
                  | None => ret tt
                  end in
        let* _ := publish_queue in
        ret rewritten.

End verbs.

(** ** Paths: lemmas and theorems *)

(** [queue_path_is_under]: segments, not characters.  A file is under a prefix exactly
    when it is the prefix or continues it with a slash: a neighbour whose name starts with
    the same letters is not. *)
Theorem under_is_segment_aware file prefix :
  queue_path_is_under file prefix = true <-> file = prefix \/ exists r, file = prefix ++ SLASH :: r.
Proof.
  unfold queue_path_is_under. destruct (strip_prefix prefix file) as [rest|] eqn:Hs.
  - apply strip_prefix_Some in Hs as ->. destruct rest as [|c rest]; cbn.
    + rewrite app_nil_r. naive_solver.
    + unfold starts_with. cbn [strip_prefix]. destruct (N.eqb_spec SLASH c) as [<-|Hne]; cbn.
      * destruct rest; split; eauto.
      * split; [done|]. intros [Heq|[r Heq]].
        -- apply (f_equal length) in Heq. rewrite length_app in Heq. cbn in Heq. lia.
        -- apply app_inv_head in Heq. congruence.
  - split; [done|]. assert (Hno : forall r, file <> prefix ++ r).
    { intros r Heq. apply strip_prefix_Some in Heq. congruence. }
    intros [->|[r Heq]]; [by destruct (Hno []); rewrite app_nil_r|by destruct (Hno (SLASH :: r))].
Qed.

(** [rewrite_queue_path]: a rename moves exactly the files under the old name, keeps
    what follows it, and renaming back gives the old path. *)
Theorem rewrite_queue_path_roundtrip file from to :
  match rewrite_queue_path file from to with
  | Some file' =>
      queue_path_is_under file from = true /\ queue_path_is_under file' to = true /\
      rewrite_queue_path file' to from = Some file
  | None => queue_path_is_under file from = false
  end.
Proof.
  unfold rewrite_queue_path. destruct (queue_path_is_under file from) eqn:Hu; cbn [negb]; [|done].
  assert (Hmove : forall p q rest, queue_path_is_under (p ++ rest) p = queue_path_is_under (q ++ rest) q).
  { intros p q rest. unfold queue_path_is_under. by rewrite !strip_prefix_app. }
  destruct (strip_prefix from file) as [rest|] eqn:Hs.
  - apply strip_prefix_Some in Hs as ->. rewrite (Hmove from to) in Hu. split; [done|]. split; [done|].
    rewrite Hu. cbn [negb]. by rewrite strip_prefix_app.
  - unfold queue_path_is_under in Hu. by rewrite Hs in Hu.
Qed.

(** ** What a player that answers makes of the verbs *)

Section server.
Context {M : Type} `{MpdServer M} (ctx : Context).
Implicit Types (w : World M) (m : M).

Lemma with_conn_same w : with_conn (conn w) w = w.
Proof. by destruct w. Qed.

Lemma with_conn_twice m1 m2 w : with_conn m2 (with_conn m1 w) = with_conn m2 w.
Proof. done. Qed.

Lemma available_keeps f s r m : (compute_item_available f s r m).1 = m.
Proof.
  unfold compute_item_available. destruct (is_remote_stream_uri f); [done|].
  pose proof (sticker_get_keeps f EVO_AVAILABLE_STICKER m) as Hk.
  destruct (sticker_get f EVO_AVAILABLE_STICKER m) as [m1 st]. cbn in Hk. subst m1.
  unfold local_uri_in_song_db. pose proof (find_file_keeps f m) as Hk.
  destruct (find_file f m) as [m1 fs]. cbn in Hk. subst m1. by repeat case_match; simplify_eq.
Qed.

(** *** Total correctness: a verb returns, and what then holds *)

Definition returns {A} (e : Act M A) (w : World M) (Q : World M -> A -> Prop) : Prop :=
  match e w with (w', Ok a) => Q w' a | (_, Err _) => False end.

Lemma returns_ret {A} (a : A) w (Q : World M -> A -> Prop) : Q w a -> returns (ret a) w Q.
Proof. done. Qed.

Lemma returns_bind {A B} (e : Act M A) (k : A -> Act M B) w Q :
  returns e w (fun w' a => returns (k a) w' Q) -> returns (bind e k) w Q.
Proof. unfold returns, bind. destruct (e w) as [w' [a|err]]; done. Qed.

Lemma returns_mono {A} (e : Act M A) w (P Q : World M -> A -> Prop) :
  returns e w P -> (forall w' a, P w' a -> Q w' a) -> returns e w Q.
Proof. unfold returns. destruct (e w) as [w' [a|err]]; auto. Qed.

Lemma returns_call {A} verb reason (op : M -> M * result A MpdError) w (Q : World M -> A -> Prop) :
  (forall m r, op (conn w) = (m, r) -> exists a, r = Ok a /\ Q (with_conn m w) a) ->
  returns (call verb reason op) w Q.
Proof.
  intros Hop. unfold returns, call. destruct (op (conn w)) as [m r].
  by destruct (Hop m r eq_refl) as (a & -> & HQ).
Qed.

Lemma returns_attempt {A} (op : M -> M * result A MpdError) w (Q : World M -> result A MpdError -> Prop) :
  (forall m r, op (conn w) = (m, r) -> Q (with_conn m w) r) -> returns (attempt op) w Q.
Proof. intros Hop. unfold returns, attempt. destruct (op (conn w)) as [m r]. by apply Hop. Qed.

Lemma returns_result {A} (a : A) w (Q : World M -> A -> Prop) : Q w a -> returns (of_result (Ok a)) w Q.
Proof. done. Qed.

(** Reads: the listing and the status. *)
Lemma returns_playlistinfo verb reason w (Q : World M -> list MpdQueueItem -> Prop) :
  (forall infos, map (fun i => (id i, file_path i)) infos = rows (conn w) ->
     (forall n i, infos !! n = Some i -> position i = N.of_nat n) -> Q w infos) ->
  returns (call verb reason playlistinfo) w Q.
Proof.
  intros HQ. apply returns_call. intros m r Hr. destruct (playlistinfo_ok (conn w)) as (infos & He & Hrows & Hpos).
  rewrite He in Hr. simplify_eq. exists infos. rewrite with_conn_same. eauto.
Qed.

Lemma returns_status verb reason w (Q : World M -> MpdStatus -> Prop) :
  Q w (player (conn w)) -> returns (call verb reason status) w Q.
Proof.
  intros HQ. apply returns_call. intros m r Hr. rewrite status_ok in Hr. simplify_eq.
  eexists. split; [done|]. by rewrite with_conn_same.
Qed.

(** *** Publication *)

(** The envelope tells the queue of a player. *)
Definition faithful (m : M) (e : Envelope) : Prop :=
  map (fun i => (id (item i), file_path (item i))) (items e) = take QUEUE_TRUNCATION_DEFAULT (rows m) /\
  length_ e = N.of_nat (length (rows m)) /\ current_position e = song_position (player m) /\
  truncated e = bool_decide (QUEUE_TRUNCATION_DEFAULT < length (rows m))%nat.

Lemma build_items_keeps l m : exists es, build_items ctx l m = (m, es) /\ map item es = l.
Proof.
  induction l as [|i l [es [He Hes]]]; [by exists []|]. cbn. unfold build_item.
  pose proof (available_keeps (file_path i) (resolve_source (music_directory ctx) (file_path i) (registry ctx))
    (registry ctx) m) as Hk.
  destruct (compute_item_available _ _ _ m) as [m1 av]. cbn in Hk. subst m1. rewrite He.
  eexists. split; [done|]. cbn. by rewrite Hes.
Qed.

Lemma build_envelope_faithful m : exists e, build_envelope ctx m = (m, Ok e) /\ faithful m e.
Proof.
  unfold build_envelope. destruct (playlistinfo_ok m) as (infos & -> & Hrows & _). rewrite status_ok.
  assert (Hlen : length infos = length (rows m)) by (rewrite <-Hrows; by rewrite length_map).
  set (n := if (QUEUE_TRUNCATION_DEFAULT <? length infos)%nat then QUEUE_TRUNCATION_DEFAULT else length infos).
  destruct (build_items_keeps (take n infos) m) as (es & -> & Hes).
  eexists. split; [done|]. unfold faithful. cbn [items length_ current_position truncated].
  split; [|split; [by rewrite Hlen|split; [done|]]].
  - assert (Htake : take n infos = take QUEUE_TRUNCATION_DEFAULT infos).
    { subst n. destruct (Nat.ltb_spec QUEUE_TRUNCATION_DEFAULT (length infos)); [done|].
      by rewrite !take_ge by lia. }
    rewrite <-Hrows, <-(map_map item (fun i => (id i, file_path i))), Hes, Htake.
    apply fmap_take.
  - rewrite Hlen. destruct (Nat.ltb_spec QUEUE_TRUNCATION_DEFAULT (length (rows m))); case_bool_decide; done || lia.
Qed.

(** Subscribers were last told the queue of the player, and so was the mirror. *)
Definition up_to_date (w : World M) : Prop :=
  exists e, mirror w = Some e /\ last (published w) = Some (QueueState e) /\ faithful (conn w) e.

Lemma returns_publish_queue w (Q : World M -> unit -> Prop) :
  (forall w', conn w' = conn w -> up_to_date w' -> Q w' tt) -> returns (publish_queue ctx) w Q.
Proof.
  intros HQ. unfold returns, publish_queue. destruct (build_envelope_faithful (conn w)) as (e & -> & He).
  apply HQ; [done|]. exists e. cbn. by rewrite last_snoc.
Qed.

Lemma returns_now_playing w (Q : World M -> unit -> Prop) :
  (forall w', conn w' = conn w -> mirror w' = mirror w -> Q w' tt) ->
  returns publish_now_playing_after_transport w Q.
Proof.
  intros HQ. apply returns_bind, returns_attempt. intros m st Hst. rewrite status_ok in Hst. simplify_eq.
  apply returns_bind, returns_attempt. intros m song Hs. pose proof (current_song_keeps (conn w)) as Hk.
  cbn in Hs. rewrite Hs in Hk. cbn in Hk. subst m. destruct song; by apply HQ.
Qed.

(** *** Dropping *)

Lemma returns_delete_each reason ns w (Q : World M -> unit -> Prop) :
  NoDup ns -> (forall n, n ∈ ns -> n ∈ (rows (conn w)).*1) ->
  (forall m, rows m = without_songs ns (rows (conn w)) -> addable m = addable (conn w) ->
     commands m = commands (conn w) ++ map CDelete ns -> Q (with_conn m w) tt) ->
  returns (delete_each reason ns) w Q.
Proof.
  revert w. induction ns as [|n ns IH]; intros w Hnd Hin HQ; cbn.
  - rewrite <-(with_conn_same w). apply HQ; [by rewrite without_songs_nil|done|by rewrite app_nil_r].
  - apply NoDup_cons in Hnd as [Hn Hnd]. apply returns_bind, returns_call. intros m r Hd.
    destruct (deleteid_ok _ _ _ _ Hd) as (Hadd & Hcmd & Hr & Hrows).
    rewrite decide_True in Hr by apply Hin, list_elem_of_here. exists tt. split; [done|].
    apply IH; cbn.
    + done.
    + intros x Hx. rewrite Hrows. apply elem_of_without_song. split; [by intros ->|].
      by apply Hin, list_elem_of_further.
    + intros m' Hrows' Hadd' Hcmd'. apply HQ.
      * by rewrite Hrows', Hrows, without_songs_cons.
      * by rewrite Hadd', Hadd.
      * by rewrite Hcmd', Hcmd, <-app_assoc.
Qed.

Definition under (prefix : str) (r : Row) : Prop := queue_path_is_under r.2 prefix = true.
#[local] Instance under_dec prefix r : Decision (under prefix r) := decide (queue_path_is_under r.2 prefix = true).

(** The songs of the doomed items are those of the rows under the prefix. *)
Lemma doomed_songs prefix infos l :
  map (fun i => (id i, file_path i)) infos = l ->
  map id (filter (fun i => queue_path_is_under (file_path i) prefix = true) infos) = (filter (under prefix) l).*1.
Proof. intros Hl. exact (listed_songs (fun u => queue_path_is_under u prefix = true) infos l Hl). Qed.

Lemma filter_songs_in (P : Row -> Prop) `{!forall r, Decision (P r)} l n : n ∈ (filter P l).*1 -> n ∈ l.*1.
Proof. rewrite !list_elem_of_fmap. intros (r & -> & [_ Hr]%list_elem_of_filter). by exists r. Qed.

Lemma filter_songs_unique (P : Row -> Prop) `{!forall r, Decision (P r)} l : NoDup l.*1 -> NoDup (filter P l).*1.
Proof. intros Hl. apply (sublist_NoDup _ l.*1 Hl), fmap_sublist, sublist_filter. Qed.

(** The current song is at the position of a doomed row. *)
Definition current_doomed (prefix : str) (m : M) : bool :=
  match song_position (player m) with
  | Some cur => match rows m !! N.to_nat cur with Some r => bool_decide (under prefix r) | None => false end
  | None => false
  end.

Lemma existsb_position prefix infos l cur :
  map (fun i => (id i, file_path i)) infos = l -> (forall n i, infos !! n = Some i -> position i = N.of_nat n) ->
  existsb (fun i => position i =? cur) (filter (fun i => queue_path_is_under (file_path i) prefix = true) infos) =
  match l !! N.to_nat cur with Some r => bool_decide (under prefix r) | None => false end.
Proof.
  intros <- Hpos. apply eq_true_iff_eq. rewrite existsb_exists. split.
  - intros (i & Hin%list_elem_of_In & Heq%N.eqb_eq). apply list_elem_of_filter in Hin as [Hu Hin].
    apply list_elem_of_lookup in Hin as [n Hn]. assert (N.to_nat cur = n) as -> by (apply Hpos in Hn; lia).
    change (map ?f infos !! n) with ((f <$> infos) !! n). rewrite list_lookup_fmap, Hn. cbn.
    by apply bool_decide_eq_true.
  - change (map ?f infos !! ?n) with ((f <$> infos) !! n). rewrite list_lookup_fmap.
    destruct (infos !! N.to_nat cur) as [i|] eqn:Hi; [|done]. cbn. intros Hu%bool_decide_eq_true.
    exists i. split; [|apply N.eqb_eq; apply Hpos in Hi; lia].
    apply list_elem_of_In, list_elem_of_filter. split; [done|]. by apply list_elem_of_lookup_2 in Hi.
Qed.

Lemma doomed_empty prefix infos l :
  map (fun i => (id i, file_path i)) infos = l ->
  filter (fun i => queue_path_is_under (file_path i) prefix = true) infos = [] -> filter (under prefix) l = [].
Proof.
  intros Hl He. pose proof (doomed_songs prefix infos l Hl) as Hs. rewrite He in Hs. cbn in Hs.
  by destruct (filter (under prefix) l).
Qed.

Lemma filter_none (P : Row -> Prop) `{!forall r, Decision (P r)} l : filter P l = [] -> filter (fun r => ~ P r) l = l.
Proof.
  induction l as [|r l IH]; [done|]. rewrite !filter_cons. destruct (decide (P r)); [done|]. intros Hf.
  destruct (decide (~ P r)); [|tauto]. by rewrite IH.
Qed.

(** What a drop leaves: the rows that are not under the prefix; the player stopped first
    when its current song was doomed; subscribers told, if anything went. *)
Definition dropped (prefix : str) (w w' : World M) (n : N) : Prop :=
  rows (conn w') = filter (fun r => ~ under prefix r) (rows (conn w)) /\
  n = N.of_nat (length (filter (under prefix) (rows (conn w)))) /\
  addable (conn w') = addable (conn w) /\
  commands (conn w') = commands (conn w) ++ (if current_doomed prefix (conn w) then [CStop] else []) ++
    map CDelete (filter (under prefix) (rows (conn w))).*1 /\
  (if n =? 0 then w' = w else up_to_date w').

Lemma returns_drop prefix w (Q : World M -> N -> Prop) :
  prefix <> [] -> NoDup (rows (conn w)).*1 -> (forall w' n, dropped prefix w w' n -> Q w' n) ->
  returns (drop_queue_items_under ctx prefix) w Q.
Proof.
  intros Hp Hnd HQ. unfold drop_queue_items_under. destruct prefix as [|c prefix]; [done|].
  cbn [str_is_empty]. set (pre := c :: prefix) in *.
  apply returns_bind, returns_playlistinfo. intros infos Hrows Hpos.
  destruct (filter _ infos) as [|i0 doomed0] eqn:Hdoomed.
  - apply returns_ret, HQ. pose proof (doomed_empty pre infos _ Hrows Hdoomed) as He.
    assert (Hcur : current_doomed pre (conn w) = false).
    { unfold current_doomed. destruct (song_position (player (conn w))) as [cur|]; [|done].
      rewrite <-(existsb_position pre infos _ cur Hrows Hpos). by rewrite Hdoomed. }
    unfold dropped. rewrite He, Hcur. cbn. rewrite app_nil_r. by rewrite (filter_none (under pre)).
  - rewrite <-Hdoomed. set (doomed := filter _ infos) in *.
    apply returns_bind, returns_status. apply returns_bind.
    apply (returns_mono _ _ (fun w' _ => rows (conn w') = rows (conn w) /\ addable (conn w') = addable (conn w) /\
      commands (conn w') = commands (conn w) ++ if current_doomed pre (conn w) then [CStop] else [])).
    { unfold current_doomed. destruct (song_position (player (conn w))) as [cur|]; [|apply returns_ret; by rewrite app_nil_r].
      unfold doomed. rewrite (existsb_position pre infos _ cur Hrows Hpos).
      destruct (match rows (conn w) !! N.to_nat cur with Some r => _ | None => false end);
        [|apply returns_ret; by rewrite app_nil_r].
      apply returns_call. intros m r (-> & Hr & Ha & Hc)%stop_keeps. by exists tt. }
    intros w1 [] (Hr1 & Ha1 & Hc1). apply returns_bind. subst doomed.
    rewrite (doomed_songs pre infos _ Hrows). apply returns_delete_each.
    { by apply filter_songs_unique. } { intros n Hn. rewrite Hr1. by eapply filter_songs_in. }
    intros m Hm Ha Hc. apply returns_bind, returns_publish_queue. intros w2 Hw2 Hup. apply returns_ret, HQ.
    assert (Hlen : length (filter (fun i => queue_path_is_under (file_path i) pre = true) infos) =
      length (filter (under pre) (rows (conn w)))).
    { pose proof (f_equal length (doomed_songs pre infos _ Hrows)) as Hl. by rewrite length_map, length_fmap in Hl. }
    unfold dropped. rewrite Hw2. cbn [conn with_conn].
    split; [by rewrite Hm, Hr1; apply without_songs_filter|]. split; [by rewrite Hlen|].
    split; [by rewrite Ha|]. split; [by rewrite Hc, Hc1, <-app_assoc|].
    rewrite Hdoomed. by cbn [length].
Qed.

(** *** Parking and restoring *)

(** The parked items of a queue of URIs, from a position on. *)
Fixpoint parked_from (prefix : str) (from : N) (us : list str) : list ParkedQueueItem :=
  match us with
  | [] => []
  | u :: us' =>
      (if queue_path_is_under u prefix then [{| parked_position := from; parked_uri := u |}] else []) ++
      parked_from prefix (from + 1) us'
  end.

Lemma parked_from_listing prefix from infos :
  (forall n i, infos !! n = Some i -> position i = from + N.of_nat n) ->
  map (fun i => {| parked_position := position i; parked_uri := file_path i |})
    (filter (fun i => queue_path_is_under (file_path i) prefix = true) infos) =
  parked_from prefix from (map file_path infos).
Proof.
  revert from. induction infos as [|i infos IH]; intros from Hpos; [done|].
  assert (Hi : position i = from) by (rewrite (Hpos 0%nat i eq_refl); lia).
  rewrite filter_cons. cbn [map parked_from].
  specialize (IH (from + 1)). rewrite <-IH.
  2: { intros n j Hj. rewrite (Hpos (S n) j Hj). lia. }
  destruct (queue_path_is_under (file_path i) prefix) eqn:Hu; case_decide; try congruence; cbn [map app]; by rewrite ?Hi.
Qed.

Lemma parked_from_ge prefix from us i : i ∈ parked_from prefix from us -> from <= parked_position i.
Proof.
  revert from. induction us as [|u us IH]; intros from; cbn; [by intros ?%elem_of_nil|].
  rewrite elem_of_app. intros [Hi|Hi%IH]; [|lia].
  destruct (queue_path_is_under u prefix); [apply list_elem_of_singleton in Hi as ->; cbn; lia|by apply elem_of_nil in Hi].
Qed.

Lemma parked_from_sorted prefix from us : Sorted by_position (parked_from prefix from us).
Proof.
  revert from. induction us as [|u us IH]; intros from; cbn; [constructor|].
  destruct (queue_path_is_under u prefix); [|apply IH]. constructor; [apply IH|].
  pose proof (parked_from_ge prefix (from + 1) us) as Hge. destruct (parked_from prefix (from + 1) us) as [|i l]; constructor.
  specialize (Hge i (list_elem_of_here _ _)). unfold by_position. cbn. lia.
Qed.

(** Putting parked items back, first position first, rebuilds the queue. *)
Lemma returns_put_back prefix done rest w (Q : World M -> N -> Prop) :
  (rows (conn w)).*2 = done ++ filter (fun u => queue_path_is_under u prefix <> true) rest ->
  (forall u, u ∈ rest -> queue_path_is_under u prefix = true -> addable (conn w) u = true) ->
  (forall m, (rows m).*2 = done ++ rest ->
     Q (with_conn m w) (N.of_nat (length (parked_from prefix (N.of_nat (length done)) rest)))) ->
  returns (put_back (parked_from prefix (N.of_nat (length done)) rest)) w Q.
Proof.
  revert done w Q. induction rest as [|u rest IH]; intros done w Q Hrows Hadd HQ; cbn [parked_from] in *.
  - apply returns_ret. rewrite <-(with_conn_same w). by apply HQ.
  - assert (Hlen : N.of_nat (length done) + 1 = N.of_nat (length (done ++ [u])))
      by (rewrite length_app; cbn; lia).
    rewrite filter_cons in Hrows. rewrite Hlen in *. rewrite (assoc_L (++) done [u] rest : done ++ u :: rest = _) in HQ.
    destruct (queue_path_is_under u prefix) eqn:Hu; case_decide; try congruence; cbn [app put_back].
    + apply returns_bind, returns_attempt. cbn [parked_uri parked_position]. intros m r Hr.
      destruct (addid_ok _ _ _ _ _ Hr) as (Ha & _ & Hres).
      assert (Hl : length (rows (conn w)) = (length done + length (filter (fun v => queue_path_is_under v prefix <> true) rest))%nat)
        by (rewrite <-(length_fmap snd), Hrows, length_app; done).
      unfold slot in Hres. rewrite (proj2 (N.leb_le _ _)) in Hres by lia.
      rewrite Hadd in Hres by (done || apply list_elem_of_here). destruct Hres as (n & -> & _ & Hins).
      apply returns_bind. apply (IH (done ++ [u])); cbn [conn with_conn].
      * rewrite Hins, insert_row_uris, Nat2N.id, Hrows, take_app_length, drop_app_length. by rewrite <-app_assoc.
      * intros v Hv. rewrite Ha. by apply Hadd, list_elem_of_further.
      * intros m' Hm'. apply returns_ret. specialize (HQ m' Hm'). cbn [length app] in HQ.
        rewrite with_conn_twice. by replace (1 + N.of_nat _) with (N.of_nat (S (length (parked_from prefix (N.of_nat (length (done ++ [u]))) rest)))) by lia.
    + apply (IH (done ++ [u])); [by rewrite Hrows, <-app_assoc| |done].
      intros v Hv. by apply Hadd, list_elem_of_further.
Qed.

Lemma filter_uris prefix l :
  (filter (fun r => ~ under prefix r) l).*2 = filter (fun u => queue_path_is_under u prefix <> true) l.*2.
Proof.
  induction l as [|r l IH]; [done|]. rewrite fmap_cons, !filter_cons. unfold under at 1.
  by repeat case_decide; [cbn; by rewrite IH|..].
Qed.

(** What is parked is what is under the prefix, with its positions. *)
Lemma returns_park prefix w (Q : World M -> ParkedQueue -> Prop) :
  prefix <> [] -> NoDup (rows (conn w)).*1 ->
  (forall w' p, (rows (conn w')).*2 = filter (fun u => queue_path_is_under u prefix <> true) (rows (conn w)).*2 ->
     parked_items p = parked_from prefix 0 (rows (conn w)).*2 -> Q w' p) ->
  returns (park_queue_items_under ctx prefix) w Q.
Proof.
  intros Hp Hnd HQ. unfold park_queue_items_under. destruct prefix as [|c prefix]; [done|].
  cbn [str_is_empty]. set (pre := c :: prefix) in *.
  apply returns_bind, returns_playlistinfo. intros infos Hrows Hpos.
  assert (Hfiles : map file_path infos = (rows (conn w)).*2)
    by (rewrite <-Hrows; symmetry; apply (map_map (fun i => (id i, file_path i)) snd)).
  rewrite (parked_from_listing pre 0 infos), Hfiles by (intros n i Hi; rewrite (Hpos n i Hi); lia).
  pose proof (doomed_empty pre infos _ Hrows) as Hempty.
  destruct (parked_from pre 0 (rows (conn w)).*2) as [|i0 parked] eqn:Hparked.
  - apply returns_ret, HQ; [|done].
    rewrite <-Hfiles, <-(parked_from_listing pre 0 infos) in Hparked by (intros n i Hi; rewrite (Hpos n i Hi); lia).
    apply map_eq_nil in Hparked. apply Hempty in Hparked. rewrite <-filter_uris.
    by rewrite (filter_none (under pre)).
  - apply returns_bind, returns_status. apply returns_bind.
    apply (returns_drop pre w); [done|done|]. intros w' n (Hr & _). apply returns_ret, HQ; [|done].
    by rewrite Hr, filter_uris.
Qed.

(** No stop and no clear among some commands. *)
Definition gentle (cs : list Command) : Prop := CStop ∉ cs /\ CClear ∉ cs.

Lemma gentle_app cs cs' : gentle cs -> gentle cs' -> gentle (cs ++ cs').
Proof. unfold gentle. rewrite !not_elem_of_app. tauto. Qed.

Lemma gentle_one c : c <> CStop -> c <> CClear -> gentle [c].
Proof. unfold gentle. rewrite !not_elem_of_cons. intros ? ?. repeat split; auto using not_elem_of_nil. Qed.

Lemma returns_resume pos repause w (Q : World M -> unit -> Prop) :
  (forall w' cs, rows (conn w') = rows (conn w) -> commands (conn w') = commands (conn w) ++ cs -> gentle cs -> Q w' tt) ->
  returns (resume_at pos repause) w Q.
Proof.
  intros HQ. apply returns_bind, returns_attempt. intros m r (_ & Hr & _ & Hc)%play_keeps.
  assert (Hg : gentle [CPlay pos]) by (by apply gentle_one).
  destruct r as [[]|]; [|by apply returns_ret, (HQ _ [CPlay pos])].
  destruct repause; [|by apply returns_ret, (HQ _ [CPlay pos])].
  apply returns_bind, returns_attempt. intros m' r' (Hr' & _ & Hc')%pause_keeps.
  apply returns_ret, (HQ _ [CPlay pos; CPause true]); cbn in *; [by rewrite Hr'|by rewrite Hc', Hc, <-app_assoc|].
  apply (gentle_app [_] [_]); by apply gentle_one.
Qed.

(** The queue a restore makes, whatever it does to the transport. *)
Lemma returns_restore prefix us p w (Q : World M -> N -> Prop) :
  parked_items p = parked_from prefix 0 us ->
  (rows (conn w)).*2 = filter (fun u => queue_path_is_under u prefix <> true) us ->
  (forall u, u ∈ us -> queue_path_is_under u prefix = true -> addable (conn w) u = true) ->
  (forall w', (rows (conn w')).*2 = us -> Q w' (N.of_nat (length (parked_items p)))) ->
  returns (restore_parked_queue ctx p) w Q.
Proof.
  intros Hp Hrows Hadd HQ. unfold restore_parked_queue. rewrite Hp in HQ. rewrite Hp. clear Hp.
  rewrite (sort_by_id by_position) by apply parked_from_sorted.
  destruct (parked_from prefix 0 us) as [|i l] eqn:Hl.
  - apply returns_ret, HQ. rewrite Hrows. clear -Hl. revert Hl. generalize 0 as from.
    induction us as [|u us IH]; intros from Hl; [done|]. cbn in Hl. rewrite filter_cons.
    destruct (queue_path_is_under u prefix); [done|]. case_decide; [|congruence]. f_equal. by eapply IH.
  - rewrite <-Hl. apply returns_bind. apply (returns_put_back prefix [] us); [done|done|].
    intros m Hm. change (parked_from prefix (N.of_nat (length [])) us) with (parked_from prefix 0 us).
    rewrite Hl. cbn [length]. rewrite (proj2 (N.eqb_neq _ 0)) by lia.
    apply returns_bind.
    apply (returns_mono _ _ (fun w' _ => (rows (conn w')).*2 = us)).
    { destruct (current p) as [pos|]; [|by apply returns_ret].
      destruct (playing p || paused p); [|by apply returns_ret].
      apply returns_bind, returns_resume. intros w1 cs Hw1 _ _. apply returns_now_playing. intros w2 Hw2 _.
      by rewrite Hw2, Hw1. }
    intros w1 _ Hw1. apply returns_bind, returns_publish_queue. intros w2 Hw2 _. apply returns_ret.
    apply HQ. by rewrite Hw2.
Qed.

(** *** Rewriting *)

(** What a rename makes of a URI: the new one, if the player can open it. *)
Definition renamed (m : M) (from to u : str) : str :=
  match rewrite_queue_path u from to with
  | Some u' => if addable m u' then u' else u
  | None => u
  end.
Definition is_renamed (m : M) (from to u : str) : bool :=
  match rewrite_queue_path u from to with Some u' => addable m u' | None => false end.

(** The targets among some rows, from a position on. *)
Fixpoint targets_from (from to : str) (pos : N) (l : list Row) : list Target :=
  match l with
  | [] => []
  | (n, u) :: l' =>
      match rewrite_queue_path u from to with Some u' => [(n, pos, u')] | None => [] end ++
      targets_from from to (pos + 1) l'
  end.

Lemma targets_listing from to pos infos :
  (forall n i, infos !! n = Some i -> position i = pos + N.of_nat n) ->
  omap (fun i => option_map (fun new_uri => (id i, position i, new_uri)) (rewrite_queue_path (file_path i) from to))
    infos = targets_from from to pos (map (fun i => (id i, file_path i)) infos).
Proof.
  revert pos. induction infos as [|i infos IH]; intros pos Hpos; [done|].
  assert (Hi : position i = pos) by (rewrite (Hpos 0%nat i eq_refl); lia).
  cbn [map targets_from]. rewrite <-(IH (pos + 1)).
  2: { intros n j Hj. rewrite (Hpos (S n) j Hj). lia. }
  rewrite <-Hi. cbn. by destruct (rewrite_queue_path (file_path i) from to).
Qed.

Lemma targets_from_ge from to pos l t : t ∈ targets_from from to pos l -> pos <= t.1.2.
Proof.
  revert pos. induction l as [|[n u] l IH]; intros pos; cbn; [by intros ?%elem_of_nil|].
  rewrite elem_of_app. intros [Ht|Ht%IH]; [|lia].
  destruct (rewrite_queue_path u from to); [apply list_elem_of_singleton in Ht as ->; cbn; lia|by apply elem_of_nil in Ht].
Qed.

Lemma targets_from_sorted from to pos l :
  StronglySorted (fun a b => ~ last_first a b) (targets_from from to pos l).
Proof.
  revert pos. induction l as [|[n u] l IH]; intros pos; cbn; [constructor|].
  destruct (rewrite_queue_path u from to); [|apply IH]. constructor; [apply IH|].
  apply Forall_forall. intros t Ht%targets_from_ge. unfold last_first. cbn. lia.
Qed.

Lemma targets_from_snoc from to pos l n u :
  targets_from from to pos (l ++ [(n, u)]) = targets_from from to pos l ++
    match rewrite_queue_path u from to with Some u' => [(n, pos + N.of_nat (length l), u')] | None => [] end.
Proof.
  revert pos. induction l as [|[m v] l IH]; intros pos; cbn [targets_from app length].
  - rewrite N.add_0_r. by rewrite app_nil_r.
  - rewrite IH, app_assoc. by replace (pos + 1 + N.of_nat (length l)) with (pos + N.of_nat (S (length l))) by lia.
Qed.

(** The queue after the rows of [us] are treated, and how many were rewritten. *)
Definition renamed_uris (m : M) (from to : str) (us : list str) : list str := map (renamed m from to) us.
Definition renamed_count (m : M) (from to : str) (us : list str) : N :=
  N.of_nat (length (filter (fun u => is_renamed m from to u = true) us)).

Lemma renamed_uris_snoc m from to us u rest :
  renamed_uris m from to (us ++ [u]) ++ rest = renamed_uris m from to us ++ renamed m from to u :: rest.
Proof. unfold renamed_uris. rewrite map_app. cbn [map]. by rewrite <-app_assoc. Qed.

Lemma renamed_count_snoc m from to us u :
  renamed_count m from to (us ++ [u]) =
    (if is_renamed m from to u then 1 else 0) + renamed_count m from to us.
Proof.
  unfold renamed_count. rewrite filter_app, length_app, filter_cons, filter_nil.
  destruct (is_renamed m from to u); case_decide; try done; cbn [length]; lia.
Qed.

Lemma renamed_ext m m' from to us :
  addable m' = addable m ->
  renamed_uris m' from to us = renamed_uris m from to us /\ renamed_count m' from to us = renamed_count m from to us.
Proof. intros Ha. unfold renamed_uris, renamed_count, renamed, is_renamed. by rewrite Ha. Qed.

(** One row is exchanged: the new one is added in front of it, then it is deleted. *)
Lemma exchange_row l n u rest new u' m m1 m2 r1 r2 p :
  rows m = l ++ (n, u) :: rest -> NoDup (rows m).*1 -> p = N.of_nat (length l) -> addable m u' = true ->
  addid u' (Some p) m = (m1, r1) -> r1 = Ok new -> deleteid n m1 = (m2, r2) ->
  r2 = Ok tt /\ rows m2 = l ++ (new, u') :: rest /\ NoDup (rows m2).*1 /\ addable m2 = addable m /\
  commands m2 = commands m ++ [CAdd u' (Some p); CDelete n].
Proof.
  intros Hrows Hnd -> Hadd Hr Hok Hd. destruct (addid_ok _ _ _ _ _ Hr) as (Ha & Hc & Hres).
  destruct (deleteid_ok _ _ _ _ Hd) as (Ha1 & Hc1 & Hr1 & Hrows1).
  unfold slot in Hres. rewrite Hrows, length_app in Hres. rewrite (proj2 (N.leb_le _ _)), Nat2N.id in Hres by lia.
  rewrite Hadd, Hok in Hres. destruct Hres as (new' & [= <-] & Hfresh & Hins).
  unfold insert_row in Hins. rewrite take_app_length, drop_app_length in Hins. rewrite Hrows in Hnd.
  assert (Hnd1 : NoDup ((l ++ [(new, u')]) ++ (n, u) :: rest).*1).
  { rewrite <-app_assoc. cbn [app].
    assert (l ++ (new, u') :: (n, u) :: rest ≡ₚ (new, u') :: l ++ (n, u) :: rest) as ->
      by (by rewrite Permutation_middle). by constructor. }
  assert (Hm2 : rows m2 = l ++ (new, u') :: rest).
  { rewrite Hrows1, Hins. pose proof (without_song_middle n u (l ++ [(new, u')]) rest Hnd1) as Hw.
    by rewrite <-!app_assoc in Hw. }
  split; [|split; [done|split; [|split; [by rewrite Ha1, Ha|by rewrite Hc1, Hc, <-app_assoc]]]].
  - rewrite decide_True in Hr1; [done|]. rewrite Hins, fmap_app, elem_of_app, !fmap_cons, !elem_of_cons. auto.
  - rewrite Hm2. apply (sublist_NoDup _ _ Hnd1), fmap_sublist. rewrite <-app_assoc. cbn [app].
    apply sublist_app; [done|]. by apply sublist_skip, sublist_cons.
Qed.

(** The rows before [rest] are still to be treated, from the last to the first. *)
Lemma returns_rewrite_each from to l rest w (Q : World M -> N -> Prop) :
  rows (conn w) = l ++ rest -> NoDup (rows (conn w)).*1 ->
  (forall m cs, (rows m).*2 = renamed_uris (conn w) from to l.*2 ++ rest.*2 -> addable m = addable (conn w) ->
     commands m = commands (conn w) ++ cs -> gentle cs -> Q (with_conn m w) (renamed_count (conn w) from to l.*2)) ->
  returns (rewrite_each ctx (reverse (targets_from from to 0 l))) w Q.
Proof.
  revert rest w Q. induction l as [|[n u] l IH] using rev_ind; intros rest w Q Hrows Hnd HQ.
  - apply returns_ret. rewrite <-(with_conn_same w). apply (HQ (conn w) []); cbn; [by rewrite Hrows|done|by rewrite app_nil_r|].
    split; apply not_elem_of_nil.
  - rewrite <-app_assoc in Hrows. cbn [app] in Hrows. rewrite fmap_app in HQ. cbn [fmap list_fmap snd] in HQ.
    rewrite renamed_uris_snoc, renamed_count_snoc in HQ. rewrite targets_from_snoc, N.add_0_l.
    assert (Hnext : forall m1 row cs1, rows m1 = l ++ row :: rest -> NoDup (rows m1).*1 ->
      addable m1 = addable (conn w) -> commands m1 = commands (conn w) ++ cs1 -> gentle cs1 ->
      row.2 = renamed (conn w) from to u ->
      returns (rewrite_each ctx (reverse (targets_from from to 0 l))) (with_conn m1 w)
        (fun w' k => Q w' ((if is_renamed (conn w) from to u then 1 else 0) + k))).
    { intros m1 row cs1 Hr1 Hnd1 Ha1 Hc1 Hg1 Hrow. apply (IH (row :: rest)); cbn [conn with_conn]; [done|done|].
      intros m2 cs2 Hm2 Ha2 Hc2 Hg2. destruct (renamed_ext (conn w) m1 from to l.*2 Ha1) as [Hu Hk].
      rewrite Hu in Hm2. rewrite Hk, with_conn_twice. apply (HQ m2 (cs1 ++ cs2)).
      - cbn [fmap list_fmap] in Hm2. by rewrite Hm2, Hrow.
      - by rewrite Ha2.
      - by rewrite Hc2, Hc1, app_assoc.
      - by apply gentle_app. }
    clear HQ IH. unfold renamed, is_renamed in Hnext. destruct (rewrite_queue_path u from to) as [u'|] eqn:Hu.
    2: { rewrite app_nil_r, <-(with_conn_same w). apply (Hnext (conn w) (n, u) []); try done; [by rewrite app_nil_r|].
         split; apply not_elem_of_nil. }
    rewrite reverse_snoc. cbn [rewrite_each]. apply returns_bind, returns_attempt. intros m1 r1 Hr.
    destruct (addid_ok _ _ _ _ _ Hr) as (Ha & Hc & Hres). unfold slot in Hres.
    rewrite Hrows, length_app in Hres. rewrite (proj2 (N.leb_le _ _)) in Hres by lia.
    destruct (addable (conn w) u') eqn:Hadd.
    + destruct Hres as (new & -> & _). apply returns_bind, returns_call. cbn [conn with_conn]. intros m2 r2 Hd.
      destruct (exchange_row l n u rest new u' _ _ _ _ _ _ Hrows Hnd eq_refl Hadd Hr eq_refl Hd)
        as (-> & Hm2 & Hnd2 & Ha2 & Hc2).
      exists tt. split; [done|]. apply returns_bind. rewrite with_conn_twice.
      eapply returns_mono; [eapply (Hnext m2 (new, u')); try done|].
      * apply (gentle_app [_] [_]); by apply gentle_one.
      * intros w' k HQ. by apply returns_ret.
    + destruct Hres as [[e ->] Hsame].
      apply (Hnext m1 (n, u) [CAdd u' (Some (N.of_nat (length l)))]); try done; [by rewrite Hsame, <-Hrows|].
      by apply gentle_one.
Qed.

(** *** Adding *)

(** Tags change nothing in the rows. *)
Lemma returns_apply_tags song tags w (Q : World M -> unit -> Prop) :
  (forall m, rows m = rows (conn w) -> addable m = addable (conn w) -> Q (with_conn m w) tt) ->
  returns (apply_tags song tags) w Q.
Proof.
  revert w. induction tags as [|[tag value] tags IH]; intros w HQ.
  - apply returns_ret. rewrite <-(with_conn_same w). by apply HQ.
  - cbn [apply_tags]. apply returns_bind, returns_attempt. intros m r (Hr & Ha & _)%addtagid_keeps.
    apply IH. intros m' Hr' Ha'. apply HQ; [by rewrite Hr'|by rewrite Ha'].
Qed.

(** Where the rows of a batch go. *)
Definition insert_all (at_ : option N) (us l : list str) : list str :=
  match at_ with Some p => take (N.to_nat p) l ++ us ++ drop (N.to_nat p) l | None => l ++ us end.

(** The position of the next row of a batch. *)
Lemma insert_all_next p u us (l : list str) :
  p <= N.of_nat (length l) ->
  insert_all (Some (p + 1)) us (take (N.to_nat p) l ++ u :: drop (N.to_nat p) l) = insert_all (Some p) (u :: us) l.
Proof.
  intros Hp. unfold insert_all. set (k := N.to_nat p). assert (Hk : length (take k l) = k) by (rewrite length_take; lia).
  replace (N.to_nat (p + 1)) with (length (take k l ++ [u])) by (rewrite length_app, Hk; cbn; lia).
  replace (take k l ++ u :: drop k l) with ((take k l ++ [u]) ++ drop k l) by (by rewrite <-app_assoc).
  by rewrite take_app_length, drop_app_length, <-app_assoc.
Qed.

Lemma returns_add_tracks verb rs at_ w (Q : World M -> unit -> Prop) :
  (forall r, r ∈ rs -> addable (conn w) (uri r) = true) ->
  (forall p, at_ = Some p -> p <= N.of_nat (length (rows (conn w))) /\ p + N.of_nat (length rs) <= U32_MAX) ->
  (forall m, (rows m).*2 = insert_all at_ (map uri rs) (rows (conn w)).*2 -> addable m = addable (conn w) ->
     Q (with_conn m w) tt) ->
  returns (add_tracks ctx verb rs at_) w Q.
Proof.
  revert at_ w. induction rs as [|r rs IH]; intros at_ w Hadd Hat HQ.
  - apply returns_ret. rewrite <-(with_conn_same w). apply HQ; [|done].
    destruct at_ as [p|]; cbn; [by rewrite take_drop|by rewrite app_nil_r].
  - cbn [add_tracks]. apply returns_bind, returns_call. intros m res Hr.
    destruct (addid_ok _ _ _ _ _ Hr) as (Ha & _ & Hres).
    assert (exists i, slot at_ (length (rows (conn w))) = Some i /\
      insert_all at_ [uri r] (rows (conn w)).*2 = take i (rows (conn w)).*2 ++ uri r :: drop i (rows (conn w)).*2)
      as (i & Hi & Hins).
    { destruct at_ as [p|]; cbn.
      - destruct (Hat p eq_refl) as [Hp _]. rewrite (proj2 (N.leb_le _ _)) by done. by eexists.
      - eexists. split; [done|]. by rewrite take_ge, drop_ge by (rewrite length_fmap; lia). }
    rewrite Hi, Hadd in Hres by apply list_elem_of_here. destruct Hres as (n & -> & _ & Hrows).
    exists n. split; [done|]. apply returns_bind, returns_apply_tags. cbn [conn with_conn]. intros m2 Hm2 Ha2.
    assert (Huris : (rows m2).*2 = insert_all at_ [uri r] (rows (conn w)).*2)
      by (by rewrite Hm2, Hrows, insert_row_uris, Hins).
    assert (Hlen : length (rows m2) = S (length (rows (conn w))))
      by (rewrite <-(length_fmap snd), Huris, Hins, length_app; cbn [length];
          rewrite length_take, length_drop, length_fmap; lia).
    apply IH; cbn [conn with_conn].
    + intros r' Hr'. rewrite Ha2, Ha. by apply Hadd, list_elem_of_further.
    + intros p Hp. destruct at_ as [p0|]; [|done]. cbn in Hp. injection Hp as <-.
      destruct (Hat p0 eq_refl) as [Hp0 Hmax]. cbn [length] in Hmax. rewrite sat_add_exact by lia. rewrite Hlen. lia.
    + intros m3 Hm3 Ha3. rewrite !with_conn_twice. apply HQ; [|by rewrite Ha3, Ha2].
      rewrite Hm3, Huris. destruct at_ as [p0|]; cbn [option_map map].
      * destruct (Hat p0 eq_refl) as [Hp0 Hmax]. cbn [length] in Hmax. rewrite sat_add_exact by lia.
        apply (insert_all_next p0 (uri r) (map uri rs)). rewrite length_fmap. lia.
      * cbn. by rewrite <-app_assoc.
Qed.

(** ** The theorems *)

(** [drop_queue_items_under]: a volume leaves.  On a player that answers, exactly the
    rows under the prefix go and the others stay in their order; the count is right; the
    player is told to stop first, and only then, when its current song is one of the
    doomed; nothing at all is sent when nothing is queued under the prefix, and
    otherwise subscribers and the mirror have the new queue. *)
Theorem drop_correct prefix w :
  prefix <> [] -> NoDup (rows (conn w)).*1 ->
  exists w' n, drop_queue_items_under ctx prefix w = (w', Ok n) /\ dropped prefix w w' n.
Proof.
  intros Hp Hnd. pose proof (returns_drop prefix w (dropped prefix w) Hp Hnd) as Hr. unfold returns in Hr.
  destruct (drop_queue_items_under ctx prefix w) as [w' [n|e]]; [|by destruct Hr].
  exists w', n. split; [done|]. by apply Hr.
Qed.

(** C24: [park_queue_items_under] then [restore_parked_queue]: a volume is renamed or
    remounted and the queue survives.  Whatever happens between (the player may come back
    with other song ids, and with the files it can open changed), if the rows that were
    left are still the queue and the parked files can be opened again, restoring puts
    every parked row back where it was: the queue has the same URIs in the same order. *)
Theorem park_restore_roundtrip prefix w :
  prefix <> [] -> NoDup (rows (conn w)).*1 ->
  exists w1 p, park_queue_items_under ctx prefix w = (w1, Ok p) /\
    forall w2, (rows (conn w2)).*2 = (rows (conn w1)).*2 ->
      (forall u, u ∈ (rows (conn w)).*2 -> queue_path_is_under u prefix = true -> addable (conn w2) u = true) ->
      exists w3, restore_parked_queue ctx p w2 = (w3, Ok (N.of_nat (length (parked_items p)))) /\
        (rows (conn w3)).*2 = (rows (conn w)).*2.
Proof.
  intros Hp Hnd.
  set (Q := fun w1 p => (rows (conn w1)).*2 = filter (fun u => queue_path_is_under u prefix <> true) (rows (conn w)).*2 /\
    parked_items p = parked_from prefix 0 (rows (conn w)).*2).
  assert (Hr : returns (park_queue_items_under ctx prefix) w Q) by (by apply returns_park).
  unfold returns in Hr. destruct (park_queue_items_under ctx prefix w) as [w1 [p|e]]; [|by destruct Hr].
  destruct Hr as [Hw1 Hitems]. exists w1, p. split; [done|]. intros w2 Hw2 Hadd.
  rewrite Hw1 in Hw2.
  set (R := fun w3 n => (rows (conn w3)).*2 = (rows (conn w)).*2 /\ n = N.of_nat (length (parked_items p))).
  assert (Hr : returns (restore_parked_queue ctx p) w2 R).
  { by apply (returns_restore prefix (rows (conn w)).*2). }
  unfold returns in Hr. destruct (restore_parked_queue ctx p w2) as [w3 [n|e]]; [|by destruct Hr].
  destruct Hr as [Hw3 ->]. by exists w3.
Qed.

(** C25: [rewrite_queue_uris_under]: a volume is renamed under a playing queue.  Every row
    under the old name whose new path the player can open now has it, at its old place;
    every other row, and a row whose new path is not yet in the database, is as it was;
    the count is right; and the queue is never cleared nor the player stopped. *)
Theorem rewrite_correct from to w :
  from <> [] -> to <> [] -> from <> to -> NoDup (rows (conn w)).*1 ->
  exists w' cs, rewrite_queue_uris_under ctx from to w = (w', Ok (renamed_count (conn w) from to (rows (conn w)).*2)) /\
    (rows (conn w')).*2 = renamed_uris (conn w) from to (rows (conn w)).*2 /\
    commands (conn w') = commands (conn w) ++ cs /\ gentle cs.
Proof.
  intros Hf Ht Hne Hnd.
  set (Q := fun w' n => n = renamed_count (conn w) from to (rows (conn w)).*2 /\ exists cs,
    (rows (conn w')).*2 = renamed_uris (conn w) from to (rows (conn w)).*2 /\
    commands (conn w') = commands (conn w) ++ cs /\ gentle cs).
  assert (Hr : returns (rewrite_queue_uris_under ctx from to) w Q).
  2: { unfold returns in Hr. destruct (rewrite_queue_uris_under ctx from to w) as [w' [n|e]]; [|by destruct Hr].
       destruct Hr as (-> & cs & ?). by exists w', cs. }
  unfold rewrite_queue_uris_under. destruct from as [|cf from]; [done|]. destruct to as [|ct to]; [done|].
  cbn [str_is_empty orb]. rewrite bool_decide_false by done.
  set (f := cf :: from) in *. set (g := ct :: to) in *.
  apply returns_bind, returns_playlistinfo. intros infos Hrows Hpos.
  rewrite (targets_listing f g 0 infos), Hrows by (intros n i Hi; rewrite (Hpos n i Hi); lia).
  destruct (targets_from f g 0 (rows (conn w))) as [|t0 ts] eqn:Htargets.
  - apply returns_ret. pose proof (returns_rewrite_each f g (rows (conn w)) [] w Q) as Hr.
    rewrite Htargets, !app_nil_r in Hr. apply Hr; [done|done|].
    intros m cs Hm _ Hc Hg. split; [done|]. exists cs. cbn [conn with_conn]. cbn in Hm. by rewrite Hm, ?app_nil_r.
  - rewrite <-Htargets. rewrite (sort_by_reverse last_first) by apply targets_from_sorted.
    apply returns_bind, returns_status, returns_bind.
    apply (returns_rewrite_each f g (rows (conn w)) []); [by rewrite app_nil_r|done|].
    intros m cs Hm Ha Hc Hg. rewrite app_nil_r in Hm.
    destruct (N.eqb_spec (renamed_count (conn w) f g (rows (conn w)).*2) 0) as [Hz|Hnz].
    { apply returns_ret. split; [done|]. by exists cs. }
    apply returns_bind.
    apply (returns_mono _ _ (fun w' _ => exists cs', (rows (conn w')).*2 = renamed_uris (conn w) f g (rows (conn w)).*2 /\
      commands (conn w') = commands (conn w) ++ cs' /\ gentle cs')).
    { destruct (transport_to_restore _ _) as [[pos repause]|]; [|apply returns_ret; by exists cs].
      apply returns_bind, returns_resume. intros w1 cs1 Hw1 Hc1 Hg1. apply returns_now_playing. intros w2 -> _.
      exists (cs ++ cs1). rewrite Hw1, Hc1. cbn [conn with_conn]. split; [done|].
      split; [by rewrite Hc, <-app_assoc|by apply gentle_app]. }
    intros w1 _ Hw1. apply returns_bind, returns_publish_queue. intros w2 Hw2 _. apply returns_ret.
    split; [done|]. by rewrite Hw2.
Qed.

Lemma resolve_all_length verb us rs : resolve_all ctx verb us = Ok rs -> length rs = length us.
Proof.
  revert rs. induction us as [|u us IH]; intros rs; cbn; [by intros [= <-]|].
  destruct (resolve_uri_for_mpd ctx verb u); [|done]. destruct (resolve_all ctx verb us); [|done].
  intros [= <-]. cbn. by rewrite (IH _ eq_refl).
Qed.

(** [handle_enqueue]: all or nothing, and in place.  When some URI does not resolve,
    nothing is sent to the player and the world is as it was.  Otherwise, on a player
    that can open what was resolved, the tracks are one block, in the order of the
    request, at the position asked for if the player has a current song and at the end
    if it has none or no position was asked for; and subscribers have the new queue. *)
Theorem enqueue_correct us pos w :
  us <> [] ->
  (forall p, pos = Some p -> p <= N.of_nat (length (rows (conn w))) /\ p + N.of_nat (length us) <= U32_MAX) ->
  match resolve_all ctx (lit "enqueue") us with
  | Err e => handle_enqueue ctx QUEUE_PAYLOAD_VERSION us pos w = (w, Err e)
  | Ok rs =>
      (forall r, r ∈ rs -> addable (conn w) (uri r) = true) ->
      exists w', handle_enqueue ctx QUEUE_PAYLOAD_VERSION us pos w = (w', Ok tt) /\ up_to_date w' /\
        (rows (conn w')).*2 =
          insert_all (match song_position (player (conn w)) with Some _ => pos | None => None end)
            (map uri rs) (rows (conn w)).*2
  end.
Proof.
  intros Hne Hpos. destruct us as [|u us]; [done|]. set (us' := u :: us) in *.
  destruct (resolve_all ctx (lit "enqueue") us') as [rs|e] eqn:Hres.
  2: { unfold handle_enqueue. cbn -[resolve_all]. fold us'. unfold bind, of_result. cbn -[resolve_all us']. by rewrite Hres. }
  intros Hadd. set (at_ := match song_position (player (conn w)) with Some _ => pos | None => None end).
  set (Q := fun w' (_ : unit) => up_to_date w' /\ (rows (conn w')).*2 = insert_all at_ (map uri rs) (rows (conn w)).*2).
  assert (Hr : returns (handle_enqueue ctx QUEUE_PAYLOAD_VERSION us' pos) w Q).
  2: { unfold returns in Hr. destruct (handle_enqueue _ _ _ _ w) as [w' [[]|e]]; [|by destruct Hr]. by exists w'. }
  unfold handle_enqueue. apply returns_bind, returns_result. subst us'. cbn match. rewrite Hres.
  apply returns_bind, returns_result, returns_bind.
  apply (returns_mono _ _ (fun w' a => w' = w /\ a = at_)).
  { subst at_. destruct pos as [p|]; [|apply returns_ret; by destruct (song_position _)].
    apply returns_bind, returns_bind, returns_status, returns_ret, returns_ret.
    by destruct (song_position (player (conn w))). }
  intros w1 a [-> ->]. apply returns_bind, returns_add_tracks; [done| |].
  - intros p Hp. rewrite (resolve_all_length _ _ _ Hres). apply Hpos. subst at_. by destruct (song_position _).
  - intros m Hm _. apply returns_publish_queue. intros w2 Hw2 Hup. split; [done|]. by rewrite Hw2.
Qed.

(** [handle_play_from_position]: the position is checked before anything is sent.  An
    empty queue and a position beyond its end are refused by name, with the player and
    the subscribers left as they were; any other position is played, once, and the queue
    is published. *)
Theorem play_from_position_correct pos w :
  N.of_nat (length (rows (conn w))) <= U32_MAX ->
  let n := N.of_nat (length (rows (conn w))) in
  let outcome := handle_play_from_position ctx QUEUE_PAYLOAD_VERSION pos w in
  if n =? 0 then outcome = (w, Err QueueEmpty)
  else if n <=? pos then outcome = (w, Err (PositionOutOfRange pos n))
  else exists w', outcome = (w', Ok tt) /\ rows (conn w') = rows (conn w) /\ up_to_date w' /\
         commands (conn w') = commands (conn w) ++ [CPlay pos].
Proof.
  intros Hmax. cbn zeta. set (n := N.of_nat (length (rows (conn w)))).
  destruct (playlistinfo_ok (conn w)) as (infos & Hinfo & Hrows & _).
  assert (Hlen : N.min U32_MAX (N.of_nat (length infos)) = n) by (subst n; rewrite <-Hrows, length_map in *; lia).
  assert (Hstep : handle_play_from_position ctx QUEUE_PAYLOAD_VERSION pos w =
    bind (of_result (validate_play_from_position pos n)) (fun _ =>
    bind (call (lit "play_from_position") (display_error ctx) (play_position pos)) (fun _ =>
    bind publish_now_playing_after_transport (fun _ => publish_queue ctx))) w).
  { unfold handle_play_from_position, bind at 1 2, of_result at 1, call at 1. cbn [check_version]. rewrite Hinfo. cbn.
    by rewrite with_conn_same, Hlen. }
  rewrite Hstep. unfold validate_play_from_position. destruct (N.eqb_spec n 0) as [|Hn]; [done|].
  destruct (N.leb_spec n pos) as [|Hp]; [done|].
  match goal with |- exists _, ?e w = _ /\ _ => assert (Hr : returns e w (fun w' _ =>
    rows (conn w') = rows (conn w) /\ up_to_date w' /\ commands (conn w') = commands (conn w) ++ [CPlay pos])) end.
  - apply returns_bind, returns_result, returns_bind, returns_call. intros m r (Hok & Hr & _ & Hc)%play_keeps.
    exists tt. split; [by apply Hok|]. apply returns_bind, returns_now_playing. intros w1 Hw1 _.
    apply returns_publish_queue. intros w2 Hw2 Hup. by rewrite Hw2, Hw1.
  - unfold returns in Hr. match goal with |- exists _, ?x = _ /\ _ => destruct x as [w' [[]|e]] end; [|by destruct Hr].
    by exists w'.
Qed.

(** [handle_load_playlist_to_queue] clears the queue before it resolves the playlist: when
    an entry does not resolve, the verb fails with the queue gone, and the subscribers and
    the mirror still have the old one.  The comment of [load_playlist_with_dlna_resolve]
    says that the queue stays intact. *)
Theorem failed_load_clears_queue playlist_name start e w :
  resolve_all ctx (lit "load_playlist_to_queue") (playlist (conn w) playlist_name) = Err e ->
  exists w', handle_load_playlist_to_queue ctx QUEUE_PAYLOAD_VERSION playlist_name start w = (w', Err e) /\
    rows (conn w') = [] /\ mirror w' = mirror w /\ published w' = published w.
Proof.
  intros He. unfold handle_load_playlist_to_queue, bind at 1 2 3, of_result at 1, call at 1.
  destruct (clear (conn w)) as [m r] eqn:Hc. apply clear_ok in Hc as (-> & Hr & _ & Hpl & _).
  unfold load_playlist_with_dlna_resolve, bind at 1, call. cbn [check_version map_err conn with_conn].
  cbn. rewrite listplaylistinfo_ok. cbn [map_err]. unfold bind, of_result.
  assert (Hfiles : map entry_file (imap (fun i f => {| entry_position := N.of_nat i; entry_file := f |})
    (playlist m playlist_name)) = playlist m playlist_name).
  { change (map entry_file ?l) with (entry_file <$> l). rewrite fmap_imap. apply list_eq. intros i.
    rewrite list_lookup_imap. by destruct (playlist m playlist_name !! i). }
  rewrite Hfiles, Hpl, He. by eexists.
Qed.

End server.

(** ** Applications *)

(** A stick with two tracks around one of the internal library, the second playing. *)
Definition demo_player : MemPlayer :=
  {| m_rows := [(1, lit "USB/S/a"); (2, lit "in/x"); (3, lit "USB/S/b")];
     m_status := {| state := Playing; song_position := Some 2 |};
     m_library := [lit "USB/S/a"; lit "in/x"; lit "USB/S/b"; lit "USB/T/b"]; m_playlists := ∅; m_log := [] |}.
Definition demo_context : Context :=
  {| music_directory := lit "/m"; registry := SourceRegistry.new; shelf_dispatcher := None;
     display_error _ := []; debug u := u |}.
Definition demo_world (m : MemPlayer) : World MemPlayer := {| conn := m; mirror := None; published := [] |}.

Lemma demo_unique : NoDup (rows (conn (demo_world demo_player))).*1.
Proof. apply (bool_decide_unpack _). vm_compute. exact I. Qed.

Lemma drop_correct_witness :
  exists w' n, drop_queue_items_under demo_context (lit "USB/S") (demo_world demo_player) = (w', Ok n) /\
    dropped (lit "USB/S") (demo_world demo_player) w' n.
Proof. apply drop_correct; [discriminate|apply demo_unique]. Defined.

Example drop_runs :
  let w' := (drop_queue_items_under demo_context (lit "USB/S") (demo_world demo_player)).1 in
  rows (conn w') = [(2, lit "in/x")] /\ commands (conn w') = [CStop; CDelete 1; CDelete 3].
Proof. vm_compute. by split. Qed.

Lemma park_restore_roundtrip_witness :
  exists w1 p, park_queue_items_under demo_context (lit "USB/S") (demo_world demo_player) = (w1, Ok p) /\
    forall w2, (rows (conn w2)).*2 = (rows (conn w1)).*2 ->
      (forall u, u ∈ (rows (conn (demo_world demo_player))).*2 -> queue_path_is_under u (lit "USB/S") = true ->
         addable (conn w2) u = true) ->
      exists w3, restore_parked_queue demo_context p w2 = (w3, Ok (N.of_nat (length (parked_items p)))) /\
        (rows (conn w3)).*2 = (rows (conn (demo_world demo_player))).*2.
Proof. apply park_restore_roundtrip; [discriminate|apply demo_unique]. Defined.

(** Parked, its rows dropped, and restored: the old order with new song ids. *)
Example park_restore_runs :
  match park_queue_items_under demo_context (lit "USB/S") (demo_world demo_player) with
  | (w1, Ok p) =>
      rows (conn w1) = [(2, lit "in/x")] /\
      rows (conn (restore_parked_queue demo_context p w1).1) = [(3, lit "USB/S/a"); (2, lit "in/x"); (4, lit "USB/S/b")]
  | _ => False
  end.
Proof. vm_compute. by split. Qed.

Lemma rewrite_correct_witness :
  exists w' cs, rewrite_queue_uris_under demo_context (lit "USB/S") (lit "USB/T") (demo_world demo_player) =
      (w', Ok (renamed_count (conn (demo_world demo_player)) (lit "USB/S") (lit "USB/T")
                 (rows (conn (demo_world demo_player))).*2)) /\
    (rows (conn w')).*2 = renamed_uris (conn (demo_world demo_player)) (lit "USB/S") (lit "USB/T")
      (rows (conn (demo_world demo_player))).*2 /\
    commands (conn w') = commands (conn (demo_world demo_player)) ++ cs /\ gentle cs.
Proof. apply rewrite_correct; [discriminate|discriminate|discriminate|apply demo_unique]. Defined.

(** The new path of the first row is not in the database: it stays. *)
Example rewrite_runs :
  let w' := (rewrite_queue_uris_under demo_context (lit "USB/S") (lit "USB/T") (demo_world demo_player)).1 in
  (rows (conn w')).*2 = [lit "USB/S/a"; lit "in/x"; lit "USB/T/b"].
Proof. vm_compute. reflexivity. Qed.

Lemma enqueue_correct_witness :
  exists w', handle_enqueue demo_context QUEUE_PAYLOAD_VERSION [lit "in/x"; lit "USB/T/b"] (Some 1) (demo_world demo_player)
      = (w', Ok tt) /\ up_to_date w' /\
    (rows (conn w')).*2 = [lit "USB/S/a"; lit "in/x"; lit "USB/T/b"; lit "in/x"; lit "USB/S/b"].
Proof.
  refine (enqueue_correct demo_context [lit "in/x"; lit "USB/T/b"] (Some 1) (demo_world demo_player) _ _ _).
  - discriminate.
  - intros p [= <-]. vm_compute. split; discriminate.
  - intros r Hr. cbn in Hr. repeat (apply elem_of_cons in Hr as [->|Hr]); [vm_compute; reflexivity..|].
    by apply elem_of_nil in Hr.
Defined.

Lemma play_from_position_correct_witness :
  handle_play_from_position demo_context QUEUE_PAYLOAD_VERSION 3 (demo_world demo_player) =
    (demo_world demo_player, Err (PositionOutOfRange 3 3)).
Proof.
  pose proof (play_from_position_correct demo_context 3 (demo_world demo_player)) as Hp.
  cbn -[handle_play_from_position] in Hp. apply Hp. vm_compute. discriminate.
Defined.

(** ** Where the code and its comments part *)

(** [restore_parked_queue] skips a row that cannot be added, and keeps the positions of
    the others: here the first of two parked rows is not in the database yet, and the
    second, which is, is refused too because its position is now beyond the end.  Both are
    lost, and nothing is published. *)
Theorem one_missing_row_loses_the_rest :
  let m := {| m_rows := []; m_status := {| state := Stopped; song_position := None |};
              m_library := [lit "USB/S/b"]; m_playlists := ∅; m_log := [] |} in
  let p := {| parked_items := [{| parked_position := 0; parked_uri := lit "USB/S/a" |};
                               {| parked_position := 1; parked_uri := lit "USB/S/b" |}];
              playing := false; paused := false; current := None |} in
  match restore_parked_queue demo_context p (demo_world m) with
  | (w', r) => r = Ok 0 /\ rows (conn w') = [] /\ published w' = []
  end.
Proof. vm_compute. by repeat split. Qed.
