(* ===== verification/Dlna.v ===== *)
(** * The DLNA client ([crates/evo-dlna/src]: browse.rs, didl.rs, device.rs, ssdp.rs)

    The SOAP request of a ContentDirectory [Browse] and the reading of its answer, the
    objects of a DIDL-Lite document, the description of a media server and the frames of
    SSDP discovery.  The HTTP client, the XML parser and the URL library are parameters.
    Where the code may panic the result is [None]. *)

From S2P Require Import Prelude.
Local Open Scope N_scope.

(** ** Data *)

(** [DlnaError] *)
Inductive DlnaError :=
| Ssdp (detail : str)
| Http (detail : str)
| Parse (detail : str)
| Soap (detail : str)
| Io (detail : str).

(** [is_transient_network] *)
Definition is_transient_network (e : DlnaError) : bool :=
  match e with
  | Ssdp m | Http m =>
      str_contains (lit "Network is unreachable") m || str_contains (lit "Network unreachable") m
      || str_contains (lit "Host is unreachable") m || str_contains (lit "os error 101") m
      || str_contains (lit "os error 113") m
  | _ => false
  end.

Definition DLNA_PAGE_DEFAULT : N := 50.
Definition DLNA_PAGE_HARD_CAP : N := 100.

(** [DidlContainer], [DidlResource], [DidlItem], [DidlObject] *)
Record DidlContainer := {
  c_id : str; c_parent_id : str; c_title : str; child_count : option N;
}.
Record DidlResource := { res_uri : str; protocol_info : option str }.
Record DidlItem := {
  i_id : str; i_parent_id : str; i_title : str; i_artist : option str; i_album : option str;
  i_genre : option str; i_date : option str; i_composer : option str; album_art_uri : option str;
  i_duration : option str; res : list DidlResource;
}.
Inductive DidlObject :=
| Container (c : DidlContainer)
| Item (i : DidlItem).

(** [BrowseParams], [BrowsePage] *)
Record BrowseParams := {
  control_url : str; object_id : str; page : N; page_size : N;
}.
Record BrowsePage := {
  objects : list DidlObject; at_page : N; effective_size : N; number_returned : N;
  total_matches : option N; truncated : bool; next_page : option N;
}.

(** [MediaServer] *)
Record MediaServer := {
  service_id : str; friendly_name : str; server_control_url : str; base_url : str; location : str;
}.

(** [SsdpHit] *)
Record SsdpHit := { hit_location : str; usn : option str; server : option str }.

(** ** XML text *)

Definition LT : char := 60.
Definition COLON : char := 58.
Definition AMP : char := 38.
Definition APOS : char := 39.

(** [xml_escape], [xml_unescape] *)
Definition xml_escape (s : str) : str :=
  str_replace [APOS] (lit "&apos;") (str_replace [DQUOTE] (lit "&quot;")
    (str_replace (lit ">") (lit "&gt;") (str_replace (lit "<") (lit "&lt;") (str_replace (lit "&") (lit "&amp;") s)))).
Definition xml_unescape (s : str) : str :=
  str_replace (lit "&amp;") (lit "&") (str_replace (lit "&gt;") (lit ">") (str_replace (lit "&lt;") (lit "<")
    (str_replace (lit "&apos;") [APOS] (str_replace (lit "&quot;") [DQUOTE] s)))).

(** The first occurrence of [needle] that has an opening bracket or a colon just before
    it: the text up to the end of the occurrence, in reverse, and the text after it. *)
Fixpoint open_tag (needle pre : str) (s : str) : option (str * str) :=
  match s with
  | [] => None
  | c :: s' =>
      match strip_prefix needle s, head pre with
      | Some rest, Some prev =>
          if (prev =? LT) || (prev =? COLON) then Some (rev needle ++ pre, rest)
          else open_tag needle (c :: pre) s'
      | _, _ => open_tag needle (c :: pre) s'
      end
  end.

(** [rfind] of a character, as a slice: what is before its last occurrence. *)
Definition before_last (c : char) (s : str) : option str :=
  match split_once [c] (rev s) with Some (_, r) => Some (rev r) | None => None end.

(** [extract_tag]; the slice panics where the last bracket before the closing name is in
    front of the content. *)
Definition extract_tag (xml local : str) : option (option str) :=
  match open_tag (local ++ lit ">") [] xml with
  | None => Some None
  | Some (pre, rest) =>
      match split_once (lit "/" ++ local ++ lit ">") rest with
      | None => Some None
      | Some (content, _) =>
          match before_last LT content with
          | Some inner => Some (Some inner)
          | None => if bool_decide (LT ∈ pre) then None else Some None
          end
      end
  end.

(** [truncate]; the slice panics inside a character. *)
Definition truncate (s : str) (n : N) : option str :=
  if str_len s <=? n then Some s else option_map (fun t => t ++ [8230]) (slice_to n s).

(** ** Browse *)

(** A literal of the source that holds quotation marks, written with apostrophes. *)
Definition quoted (s : string) : str := map (fun c => if c =? APOS then DQUOTE else c) (lit s).
Arguments quoted s%_string : simpl never.

(** [soap_browse_envelope], the parts around the object id, the index and the count. *)
Definition ENVELOPE_HEAD : str :=
  quoted "<?xml version='1.0' encoding='utf-8'?>" ++ [LF] ++
  quoted "<s:Envelope xmlns:s='http://schemas.xmlsoap.org/soap/envelope/' s:encodingStyle='http://schemas.xmlsoap.org/soap/encoding/'>" ++ [LF] ++
  lit "  <s:Body>" ++ [LF] ++
  quoted "    <u:Browse xmlns:u='urn:schemas-upnp-org:service:ContentDirectory:1'>" ++ [LF] ++
  lit "      ".
Definition ENVELOPE_FLAG (flag : string) : str :=
  [LF] ++ lit "      <BrowseFlag>" ++ lit flag ++ lit "</BrowseFlag>" ++ [LF] ++
  lit "      <Filter>*</Filter>" ++ [LF] ++ lit "      ".
Definition ENVELOPE_TAIL : str :=
  [LF] ++ lit "      <SortCriteria></SortCriteria>" ++ [LF] ++ lit "    </u:Browse>" ++ [LF] ++
  lit "  </s:Body>" ++ [LF] ++ lit "</s:Envelope>".
Definition element (name : string) (content : str) : str :=
  lit "<" ++ lit name ++ lit ">" ++ content ++ lit "</" ++ lit name ++ lit ">".
Definition soap_browse_envelope (object_id : str) (starting requested : N) : str :=
  ENVELOPE_HEAD ++ element "ObjectID" (xml_escape object_id) ++ ENVELOPE_FLAG "BrowseDirectChildren" ++
  element "StartingIndex" (dec starting) ++ [LF] ++ lit "      " ++ element "RequestedCount" (dec requested) ++
  ENVELOPE_TAIL.

(** The answer of the HTTP client: the status line, whether it is a success, the body. *)
Record HttpAnswer := { status : str; success : bool; body : str }.

(** The XML library: parsing a document, and looking at its nodes. *)
Class XmlLibrary (Doc Node : Type) := {
  parse_document : str -> result Doc str;
  descendants : Doc -> list Node;
  children : Node -> list Node;
  is_element : Node -> bool;
  has_tag_name : Node -> str -> bool;
  text : Node -> option str;
  attribute : Node -> str -> option str;
}.

Section client.
Context {Doc Node : Type} `{XmlLibrary Doc Node}.

Definition not_empty (s : str) : option str := if str_is_empty s then None else Some s.

(** [child_text] *)
Definition child_text (node : Node) (local : str) : option str :=
  match find (fun c => has_tag_name c local) (children node) with
  | Some c => match text c with Some s => not_empty (trim s) | None => None end
  | None => None
  end.

(** [child_text_with_role] *)
Definition child_text_with_role (node : Node) (local role : str) : option str :=
  match find (fun c => has_tag_name c local &&
                match attribute c (lit "role") with Some r => eq_ignore_ascii_case r role | None => false end)
          (children node) with
  | Some c => match text c with Some s => not_empty (trim s) | None => None end
  | None => None
  end.

(** [Option::or_else] *)
Definition or_else {A} (a b : option A) : option A := match a with Some _ => a | None => b end.

(** [extract_composer] *)
Definition extract_composer (node : Node) : option str :=
  or_else (child_text node (lit "composer"))
    (or_else (child_text_with_role node (lit "author") (lit "Composer"))
             (child_text_with_role node (lit "artist") (lit "Composer"))).

(** [parse_didl], for one node: its resources, and the object it is if it is one. *)
Definition resource (child : Node) : option DidlResource :=
  if has_tag_name child (lit "res") then
    match text child with
    | Some t =>
        match not_empty (trim t) with
        | Some u => Some {| res_uri := u; protocol_info := attribute child (lit "protocolInfo") |}
        | None => None
        end
    | None => None
    end
  else None.
Definition didl_object (node : Node) : option DidlObject :=
  if has_tag_name node (lit "container") then
    Some (Container {|
      c_id := default [] (attribute node (lit "id"));
      c_parent_id := default [] (attribute node (lit "parentID"));
      c_title := default [] (child_text node (lit "title"));
      child_count := match attribute node (lit "childCount") with Some s => parse_u32 s | None => None end |})
  else if has_tag_name node (lit "item") then
    Some (Item {|
      i_id := default [] (attribute node (lit "id"));
      i_parent_id := default [] (attribute node (lit "parentID"));
      i_title := default [] (child_text node (lit "title"));
      i_artist := or_else (child_text node (lit "artist")) (child_text node (lit "creator"));
      i_album := child_text node (lit "album");
      i_genre := child_text node (lit "genre");
      i_date := child_text node (lit "date");
      i_composer := extract_composer node;
      album_art_uri := child_text node (lit "albumArtURI");
      i_duration := match find (fun c => has_tag_name c (lit "res")) (children node) with
                    | Some c => attribute c (lit "duration")
                    | None => None
                    end;
      res := omap resource (filter (fun c => is_element c = true) (children node)) |})
  else None.
Definition parse_didl (xml : str) : result (list DidlObject) DlnaError :=
  let? doc := map_err Parse (parse_document xml) in
  Ok (omap didl_object (descendants doc)).

(** [browse_page], with the HTTP client's [post] of an envelope to a control URL. *)
Definition browse_page (post : str -> str -> result HttpAnswer DlnaError) (params : BrowseParams)
  : option (result BrowsePage DlnaError) :=
  let size := N.max 1 (N.min (page_size params) DLNA_PAGE_HARD_CAP) in
  let starting := N.min U32_MAX (page params * size) in
  match post (control_url params) (soap_browse_envelope (object_id params) starting size) with
  | Err e => Some (Err e)
  | Ok resp =>
      if negb (success resp) then
        option_map (fun t => Err (Soap (lit "HTTP " ++ status resp ++ lit ": " ++ t))) (truncate (body resp) 240)
      else if str_contains (lit "Fault") (body resp) && str_contains (lit "UPnPError") (body resp) then
        option_map (fun t => Err (Soap t)) (truncate (body resp) 240)
      else
        match extract_tag (body resp) (lit "Result") with
        | None => None
        | Some None => Some (Err (Soap (lit "Browse response missing Result")))
        | Some (Some result_xml) =>
            match parse_didl (xml_unescape result_xml) with
            | Err e => Some (Err e)
            | Ok objs =>
                match extract_tag (body resp) (lit "NumberReturned"), extract_tag (body resp) (lit "TotalMatches") with
                | Some number, Some total =>
                    let returned := default (N.of_nat (length objs) mod 2 ^ 32)
                                      (match number with Some s => parse_u32 s | None => None end) in
                    let matches := match total with Some s => parse_u32 s | None => None end in
                    let more := match matches with
                                | Some m => sat_add U32_MAX starting returned <? m
                                | None => size <=? returned
                                end in
                    Some (Ok {| objects := objs; at_page := page params; effective_size := size;
                                number_returned := returned; total_matches := matches; truncated := more;
                                next_page := if more then Some (sat_add U32_MAX (page params) 1) else None |})
                | _, _ => None
                end
            end
        end
  end.

(** [pick_stream_uri] *)
Definition is_http (u : str) : bool := starts_with (lit "http://") u || starts_with (lit "https://") u.
Definition rank (r : DidlResource) : N :=
  let p := to_ascii_lowercase (default [] (protocol_info r)) in
  if str_contains (lit "flac") p || str_contains (lit "alac") p || str_contains (lit "wav") p then 0
  else if str_contains (lit "mp3") p || str_contains (lit "mpeg") p || str_contains (lit "aac") p then 1
  else 2.

(** [Iterator::min_by_key] returns the first minimum. *)
Definition min_by_key {A} (key : A -> N) (l : list A) : option A :=
  match l with
  | [] => None
  | x :: l' => Some (foldl (fun best y => if key y <? key best then y else best) x l')
  end.
Definition pick_stream_uri (item : DidlItem) : option str :=
  or_else (option_map res_uri (min_by_key rank (filter (fun r => is_http (res_uri r) = true) (res item))))
          (option_map res_uri (head (res item))).

(** ** The description of a device

    The URL library: the parts of an absolute URL, and joining a relative path. *)

Record Url := { scheme : str; host : option str; port : option N }.
Record UrlLibrary := { parse_url : str -> result Url str; join : str -> str -> result str str }.

(** [normalize_udn] *)
Definition normalize_udn (udn : str) : str :=
  let t := trim udn in
  match or_else (strip_prefix (lit "uuid:") t) (strip_prefix (lit "UUID:") t) with
  | Some r => r
  | None => t
  end.

(** [text_of] *)
Definition text_of (doc : Doc) (local : str) : option str :=
  match find (fun n => has_tag_name n local) (descendants doc) with
  | Some n => match text n with Some s => not_empty (trim s) | None => None end
  | None => None
  end.

(** [resolve_url] *)
Definition resolve_url (url : UrlLibrary) (base_url location path : str) : result str DlnaError :=
  if starts_with (lit "http://") path || starts_with (lit "https://") path then Ok path
  else if starts_with (lit "/") path then Ok (base_url ++ path)
  else
    let? _ := map_err Parse (parse_url url location) in
    map_err Parse (join url location path).

(** The loop over the services: the control URL of the first one that is a content
    directory ([Some None] when it gives none). *)
Definition service_fields (node : Node) : option str * option str :=
  foldl (fun '(st, cu) child =>
           if has_tag_name child (lit "serviceType") then (option_map trim (text child), cu)
           else if has_tag_name child (lit "controlURL") then (st, option_map trim (text child))
           else (st, cu))
        (None, None) (filter (fun c => is_element c = true) (children node)).
Fixpoint control_path (nodes : list Node) : option str :=
  match nodes with
  | [] => None
  | n :: nodes' =>
      if has_tag_name n (lit "service") then
        let '(st, cu) := service_fields n in
        match st with
        | Some s => if str_contains (lit "ContentDirectory") s then cu else control_path nodes'
        | None => control_path nodes'
        end
      else control_path nodes'
  end.

(** [parse_device_description] *)
Definition parse_device_description (url : UrlLibrary) (location xml : str) : result MediaServer DlnaError :=
  let? doc := map_err Parse (parse_document xml) in
  let? base := map_err Parse (parse_url url location) in
  let base_url := scheme base ++ lit "://" ++ default (lit "localhost") (host base) ++
                  match port base with Some p => lit ":" ++ dec p | None => [] end in
  let friendly := default (lit "Media Server") (text_of doc (lit "friendlyName")) in
  let id := normalize_udn (default [] (text_of doc (lit "UDN"))) in
  match control_path (descendants doc) with
  | None => Err (Parse (lit "no ContentDirectory controlURL"))
  | Some path =>
      let? control := resolve_url url base_url location path in
      Ok {| service_id := id; friendly_name := friendly; server_control_url := control; base_url := base_url;
            location := location |}
  end.

(** [fetch_media_server], with the HTTP client's [get]. *)
Definition fetch_media_server (url : UrlLibrary) (get : str -> result str DlnaError) (location : str)
  : result MediaServer DlnaError :=
  let? body := get location in
  parse_device_description url location body.

End client.

(** ** Discovery *)

(** [parse_ssdp_response]: one header line, and the frame, given as its text. *)
Definition header (names : list string) (line : str) : option str :=
  foldr (fun name rest => or_else (strip_prefix (lit name) line) rest) None names.
Definition ssdp_line (acc : option str * option str * option str) (raw : str)
  : option str * option str * option str :=
  let '(loc, u, srv) := acc in
  let line := trim raw in
  match header ["LOCATION:"; "Location:"; "location:"]%string line with
  | Some rest => (Some (trim rest), u, srv)
  | None =>
      match header ["USN:"; "Usn:"]%string line with
      | Some rest => (loc, Some (trim rest), srv)
      | None =>
          match header ["SERVER:"; "Server:"]%string line with
          | Some rest => (loc, u, Some (trim rest))
          | None => acc
          end
      end
  end.
Definition parse_ssdp_response (text : str) : option SsdpHit :=
  let '(loc, u, srv) := foldl ssdp_line (None, None, None) (lines text) in
  match loc with
  | Some l => Some {| hit_location := l; usn := u; server := srv |}
  | None => None
  end.

(** [discover_media_servers], what it makes of the frames that arrive in the window. *)
Definition by_location (a b : SsdpHit) : Prop := str_le (hit_location a) (hit_location b).
#[export] Instance by_location_dec a b : Decision (by_location a b).
Proof. unfold by_location. apply _. Defined.
#[export] Instance by_location_total : Total by_location.
Proof. intros a b. apply str_le_cases. Qed.
Definition or_insert (seen : list SsdpHit) (frame : str) : list SsdpHit :=
  match parse_ssdp_response frame with
  | Some hit => if str_in (hit_location hit) (map hit_location seen) then seen else seen ++ [hit]
  | None => seen
  end.
Definition discover_media_servers (frames : list str) : list SsdpHit :=
  sort_by by_location (foldl or_insert [] frames).

(** ** Escaping *)

(** What a character is after each stage of [xml_unescape]. *)
Definition escaped (c : char) : str :=
  if c =? AMP then lit "&amp;" else if c =? LT then lit "&lt;" else if c =? 62 then lit "&gt;"
  else if c =? DQUOTE then lit "&quot;" else if c =? APOS then lit "&apos;" else [c].

Lemma str_replace_char a rep s :
  str_replace [a] rep s = concat (map (fun c => if c =? a then rep else [c]) s).
Proof.
  unfold str_replace. induction s as [|c s IH]; [done|]. cbn [replace_go map concat]. unfold starts_with.
  cbn [strip_prefix length Nat.sub]. rewrite IH. rewrite (N.eqb_sym c a). by destruct (a =? c).
Qed.

Lemma concat_map_concat {A B C} (f : B -> list C) (g : A -> list B) (l : list A) :
  concat (map f (concat (map g l))) = concat (map (fun x => concat (map f (g x))) l).
Proof. induction l as [|x l IH]; [done|]. cbn [map concat]. by rewrite map_app, concat_app, IH. Qed.

Lemma xml_escape_tokens s : xml_escape s = concat (map escaped s).
Proof.
  unfold xml_escape. change (lit "&") with [AMP]. change (lit "<") with [LT]. change (lit ">") with [62].
  rewrite !str_replace_char, !concat_map_concat. f_equal. apply map_ext. intros c.
  unfold escaped. destruct (N.eqb_spec c AMP) as [->|H1]; [reflexivity|]. cbn [map concat app].
  destruct (N.eqb_spec c LT) as [->|H2]; [reflexivity|]. cbn [map concat app].
  destruct (N.eqb_spec c 62) as [->|H3]; [reflexivity|]. cbn [map concat app].
  destruct (N.eqb_spec c DQUOTE) as [->|H4]; [reflexivity|]. cbn [map concat app].
  by destruct (N.eqb_spec c APOS) as [->|H5].
Qed.

(** One stage: a token of the escaped text is the pattern, or is passed over. *)
Definition token (t : str) : Prop :=
  exists c r, t = c :: r /\ AMP ∉ r /\
    (c <> AMP \/ r = lit "amp;" \/ r = lit "lt;" \/ r = lit "gt;" \/ r = lit "quot;" \/ r = lit "apos;").

Definition stage (p rep t : str) : str := if decide (t = AMP :: p) then rep else t.

Lemma unescape_stage (f : char -> str) p rep s :
  p = lit "amp;" \/ p = lit "lt;" \/ p = lit "gt;" \/ p = lit "quot;" \/ p = lit "apos;" ->
  (forall c, token (f c)) ->
  str_replace (AMP :: p) rep (concat (map f s)) = concat (map (fun c => stage p rep (f c)) s).
Proof.
  intros Hp Hf. apply str_replace_tokens. intros x _. destruct (Hf x) as (c & r & -> & Hr & Hcr).
  destruct (decide (c = AMP /\ r = p)) as [[-> ->]|Hne]; [by left|right].
  exists c, r. split_and!; [done|done|]. intros rest. unfold starts_with.
  cbn [app strip_prefix]. destruct (N.eqb_spec AMP c) as [<-|]; [|done].
  destruct Hcr as [?|Hcr]; [done|].
  assert (r <> p) by naive_solver. clear Hne Hr.
  destruct Hp as [->|[->|[->|[->| ->]]]], Hcr as [->|[->|[->|[->| ->]]]]; done.
Qed.

Lemma escaped_token c : token (escaped c).
Proof.
  unfold escaped. repeat (match goal with |- context [N.eqb ?a ?b] => destruct (N.eqb_spec a b) as [->|] end);
    eexists _, _; (split; [reflexivity|]); (split; [vm_compute; set_solver|]); cbn; auto 10.
Qed.

Lemma stage_token p a t : a <> AMP -> token t -> token (stage p [a] t).
Proof.
  intros Ha Ht. unfold stage. case_decide; [|done]. exists a, []. split_and!; [done|set_solver|auto].
Qed.

Lemma stage_other p rep c : c <> AMP -> stage p rep [c] = [c].
Proof. intros Hc. unfold stage. rewrite decide_False; [done|congruence]. Qed.

(** Unescaping gives back the text that was escaped. *)
Theorem xml_unescape_escape s : xml_unescape (xml_escape s) = s.
Proof.
  rewrite xml_escape_tokens. unfold xml_unescape.
  change (lit "&quot;") with (AMP :: lit "quot;"). change (lit "&apos;") with (AMP :: lit "apos;").
  change (lit "&lt;") with (AMP :: lit "lt;"). change (lit "&gt;") with (AMP :: lit "gt;").
  change (lit "&amp;") with (AMP :: lit "amp;").
  change (lit "&") with [AMP]. change (lit "<") with [LT]. change (lit ">") with [62].
  rewrite (unescape_stage escaped) by (tauto || apply escaped_token).
  do 4 (rewrite unescape_stage; [|tauto|intros; repeat (apply stage_token; [done|]); apply escaped_token]).
  induction s as [|c s IH]; [done|]. cbn [map concat]. rewrite IH. clear.
  unfold escaped. repeat (match goal with |- context [N.eqb ?a ?b] => destruct (N.eqb_spec a b) as [->|] end); try reflexivity.
  by rewrite !stage_other.
Qed.

(** ** Tags *)

(** A pattern that does not hold the character after [t] is not found across it. *)
Lemma strip_prefix_stop pat t d s : d ∉ pat -> strip_prefix pat t = None -> strip_prefix pat (t ++ d :: s) = None.
Proof.
  revert t. induction pat as [|p pat IH]; intros t Hd Hno; [done|]. rewrite not_elem_of_cons in Hd.
  destruct Hd as [Hp Hd], t as [|c t]; cbn [app strip_prefix] in *.
  - by destruct (N.eqb_spec p d).
  - destruct (p =? c); [by apply IH|done].
Qed.

Lemma split_once_cross pat t d s :
  d ∉ pat -> split_once pat t = None ->
  split_once pat (t ++ d :: s) = match split_once pat (d :: s) with Some (a, b) => Some (t ++ a, b) | None => None end.
Proof.
  intros Hd. induction t as [|c t IH]; intros Hno.
  { cbn [app]. by destruct (split_once pat (d :: s)) as [[? ?]|]. }
  change ((c :: t) ++ d :: s) with (c :: (t ++ d :: s)). cbn [split_once] in *.
  destruct (strip_prefix pat (c :: t)) eqn:Hs; [done|].
  pose proof (strip_prefix_stop pat (c :: t) d s Hd Hs) as Hs'. cbn [app] in Hs'. rewrite Hs'.
  destruct (split_once pat t) as [[? ?]|]; [done|]. rewrite IH by done.
  change (match strip_prefix pat (d :: s) with Some rest => Some ([], rest) | None => _ end)
    with (split_once pat (d :: s)).
  by destruct (split_once pat (d :: s)) as [[? ?]|].
Qed.

Lemma open_tag_cross needle pre t d s :
  d ∉ needle -> open_tag needle pre t = None ->
  open_tag needle pre (t ++ d :: s) = open_tag needle (rev t ++ pre) (d :: s).
Proof.
  intros Hd. revert pre. induction t as [|c t IH]; intros pre Hno; [done|].
  change ((c :: t) ++ d :: s) with (c :: (t ++ d :: s)). cbn [rev]. rewrite <-app_assoc. cbn [app].
  cbn [open_tag] in Hno |- *.
  destruct (strip_prefix needle (c :: t)) as [rest|] eqn:Hs.
  - apply strip_prefix_Some in Hs. rewrite app_comm_cons, Hs, <-app_assoc, strip_prefix_app.
    destruct (head pre) as [prev|]; [|by apply IH].
    destruct (_ || _); [done|by apply IH].
  - pose proof (strip_prefix_stop needle (c :: t) d s Hd Hs) as Hs'. cbn [app] in Hs'. rewrite Hs'. by apply IH.
Qed.

(** An opening bracket or colon, and then the name. *)
Lemma open_tag_here needle pre d s :
  needle <> [] -> d ∉ needle -> (d = LT \/ d = COLON) ->
  open_tag needle pre (d :: needle ++ s) = Some (rev needle ++ d :: pre, s).
Proof.
  intros Hne Hd Hor. destruct needle as [|n needle]; [done|]. rewrite not_elem_of_cons in Hd.
  cbn [open_tag strip_prefix]. destruct (N.eqb_spec n d); [naive_solver|].
  cbn [app open_tag]. rewrite app_comm_cons, strip_prefix_app. cbn [head]. by destruct Hor as [-> | ->].
Qed.

(** Text without the bracket that closes a name holds no opening tag. *)
Lemma open_tag_none needle d pre t : d ∈ needle -> d ∉ t -> open_tag needle pre t = None.
Proof.
  intros Hd. revert pre. induction t as [|c t IH]; intros pre Ht; [done|]. cbn [open_tag].
  destruct (strip_prefix needle (c :: t)) as [rest|] eqn:Hs.
  - apply strip_prefix_Some in Hs. rewrite Hs, elem_of_app in Ht. tauto.
  - apply not_elem_of_cons in Ht as [_ Ht]. by apply IH.
Qed.

Lemma before_last_snoc c s : before_last c (s ++ [c]) = Some s.
Proof.
  unfold before_last. rewrite rev_app_distr. cbn [rev app].
  change (c :: rev s) with ([] ++ c :: rev s). rewrite split_once_char_intro by set_solver.
  by rewrite rev_involutive.
Qed.

(** The content of the first element of a name is found, where the text before it has no
    such tag and the content does not hold the closing name. *)
Theorem extract_tag_correct a (local content b : str) :
  LT ∉ local -> open_tag (local ++ lit ">") [] a = None ->
  str_contains (lit "/" ++ local ++ lit ">") content = false ->
  extract_tag (a ++ lit "<" ++ local ++ lit ">" ++ content ++ lit "</" ++ local ++ lit ">" ++ b) local =
  Some (Some content).
Proof.
  intros Hl Ha Hc. unfold extract_tag. change (lit "<") with [LT]. change (lit "</") with [LT; 47].
  assert (HLT : LT ∉ local ++ lit ">") by (rewrite elem_of_app; intros [?|H]; [done|vm_compute in H; set_solver]).
  cbn [app]. rewrite open_tag_cross by done. rewrite (app_assoc local (lit ">")).
  rewrite open_tag_here by (done || by left || by destruct local).
  unfold str_contains in Hc. destruct (split_once _ content) as [[? ?]|] eqn:Hs; [done|].
  rewrite split_once_cross; [|rewrite elem_of_app; intros [H|?]; [vm_compute in H; set_solver|done]|done].
  cbn [split_once strip_prefix app]. change (lit "/") with [47]. cbn [app strip_prefix N.eqb Pos.eqb].
  rewrite app_assoc, strip_prefix_app. change (LT) with 60 at 1. cbn [Pos.eqb]. by rewrite before_last_snoc.
Qed.

Lemma split_once_absent pat d t : d ∈ pat -> d ∉ t -> str_contains pat t = false.
Proof.
  intros Hd Ht. unfold str_contains. destruct (split_once pat t) as [[a b]|] eqn:Hs; [|done].
  apply split_once_app in Hs. rewrite Hs, !elem_of_app in Ht. tauto.
Qed.

Lemma open_tag_skip n needle pre t s :
  n ∉ t -> open_tag (n :: needle) pre (t ++ s) = open_tag (n :: needle) (rev t ++ pre) s.
Proof.
  revert pre. induction t as [|c t IH]; intros pre Ht; [done|]. rewrite not_elem_of_cons in Ht.
  destruct Ht as [Hc Ht]. cbn [app open_tag strip_prefix rev]. rewrite <-!app_assoc. cbn [app].
  destruct (N.eqb_spec n c); [done|by apply IH].
Qed.

Definition GT : char := 62.

Lemma xml_escape_safe s : LT ∉ xml_escape s /\ GT ∉ xml_escape s.
Proof.
  rewrite xml_escape_tokens.
  split; intros (c & _ & Hc)%elem_of_concat_map; revert Hc; unfold escaped;
    repeat (match goal with |- context [N.eqb ?a ?b] => destruct (N.eqb_spec a b) as [->|] end); intros Hc;
    try (vm_compute in Hc; set_solver); apply list_elem_of_singleton in Hc; congruence.
Qed.

(** The text of a request before one of its numbers, for a tag whose first letter is in
    none of its names. *)
Lemma open_tag_request n needle h a x b :
  open_tag (n :: needle) [] h = None -> n ∉ a -> n ∉ b -> LT ∉ n :: needle -> GT ∈ n :: needle -> GT ∉ x ->
  open_tag (n :: needle) [] (h ++ [LT] ++ a ++ x ++ [LT] ++ b) = None.
Proof.
  intros Hh Ha Hb HLT HGT Hx. cbn [app]. rewrite open_tag_cross by done.
  assert (n <> LT) by (intros ->; apply HLT, list_elem_of_here).
  change (LT :: a ++ ?s) with ((LT :: a) ++ s). rewrite open_tag_skip by (rewrite not_elem_of_cons; auto).
  rewrite open_tag_cross by (done || by eapply open_tag_none).
  replace (LT :: b) with ((LT :: b) ++ []) by apply app_nil_r.
  rewrite open_tag_skip; [done|]. rewrite not_elem_of_cons. auto.
Qed.

Lemma element_shape name x b : element name x ++ b = lit "<" ++ lit name ++ lit ">" ++ x ++ lit "</" ++ lit name ++ lit ">" ++ b.
Proof. unfold element. by rewrite <-!app_assoc. Qed.

Lemma dec_no_gt n : GT ∉ dec n.
Proof. apply dec_not_elem. reflexivity. Qed.

(** The request around the object id. *)
Definition after : str := lit "/ObjectID>" ++ ENVELOPE_FLAG "BrowseDirectChildren".

(** A character is, or is not, in a text that is written out. *)
Ltac absent := refine (bool_decide_eq_false_1 (_ ∈ _) _); vm_compute; reflexivity.
Ltac present := refine (bool_decide_eq_true_1 (_ ∈ _) _); vm_compute; reflexivity.

(** The server that reads the request finds the object id, the index and the count. *)
Theorem soap_envelope_roundtrip oid starting requested :
  let envelope := soap_browse_envelope oid starting requested in
  extract_tag envelope (lit "ObjectID") = Some (Some (xml_escape oid)) /\
  xml_unescape (xml_escape oid) = oid /\
  extract_tag envelope (lit "StartingIndex") = Some (Some (dec starting)) /\
  extract_tag envelope (lit "RequestedCount") = Some (Some (dec requested)).
Proof.
  destruct (xml_escape_safe oid) as [_ Hgt]. pose proof (dec_no_gt starting) as Hs. cbv zeta.
  assert (Hclose : forall name content, GT ∉ content -> str_contains (lit "/" ++ name ++ lit ">") content = false).
  { intros name content. apply split_once_absent. rewrite !elem_of_app. right. right. by left. }
  unfold soap_browse_envelope. split_and!.
  - rewrite element_shape. apply extract_tag_correct; [absent|reflexivity|by apply Hclose].
  - apply xml_unescape_escape.
  - replace (ENVELOPE_HEAD ++ _) with
      ((ENVELOPE_HEAD ++ [LT] ++ lit "ObjectID>" ++ xml_escape oid ++ [LT] ++ after) ++ lit "<" ++ lit "StartingIndex" ++ lit ">" ++ dec starting ++
       lit "</" ++ lit "StartingIndex" ++ lit ">" ++ [LF] ++ lit "      " ++ element "RequestedCount" (dec requested) ++
       ENVELOPE_TAIL) by (unfold after, element; by rewrite <-!app_assoc).
    apply extract_tag_correct; [absent| |by apply Hclose].
    apply (open_tag_request 83); [reflexivity|absent|absent|absent|present|done].
  - replace (ENVELOPE_HEAD ++ _) with
      ((ENVELOPE_HEAD ++ [LT] ++ lit "ObjectID>" ++ xml_escape oid ++ [LT] ++ (after ++ lit "<StartingIndex>") ++ dec starting ++
        lit "</StartingIndex>" ++ [LF] ++ lit "      ") ++
       lit "<" ++ lit "RequestedCount" ++ lit ">" ++ dec requested ++ lit "</" ++ lit "RequestedCount" ++ lit ">" ++
       ENVELOPE_TAIL) by (unfold after, element; by rewrite <-!app_assoc).
    apply extract_tag_correct; [absent| |apply Hclose, dec_no_gt].
    apply (open_tag_request 82); [reflexivity|absent| |absent|present|done].
    rewrite !elem_of_app. intros [H|[H|H]]; [revert H; absent|by apply dec_not_elem in H|revert H; absent].
Qed.

(** Bug: a name with a prefix is opened but never closed. *)
Theorem prefixed_tag_is_missed content :
  str_contains (lit "/Result>") content = false ->
  extract_tag (lit "<u:Result>" ++ content ++ lit "</u:Result>") (lit "Result") = Some None.
Proof.
  intros Hc. unfold extract_tag. change (lit "<u:Result>" ++ content ++ lit "</u:Result>")
    with ([LT; 117] ++ COLON :: (lit "Result" ++ lit ">") ++ content ++ lit "</u:Result>").
  rewrite open_tag_cross; [|absent|done].
  rewrite open_tag_here; [|done|absent|by right].
  change (lit "</u:Result>") with (LT :: lit "/u:Result>").
  unfold str_contains in Hc. change (lit "/" ++ lit "Result" ++ lit ">") with (lit "/Result>").
  destruct (split_once _ content) as [[? ?]|] eqn:Hs; [done|].
  rewrite split_once_cross; [|absent|done]. reflexivity.
Qed.

(** ** Panics *)

Lemma slice_to_inside a c b n :
  str_len a < n < str_len a + utf8_width c -> slice_to n (a ++ c :: b) = None.
Proof.
  revert n. induction a as [|d a IH]; intros n Hn; cbn [app slice_to].
  - change (str_len []) with 0 in Hn. destruct (N.eqb_spec n 0); [lia|].
    destruct (N.leb_spec (utf8_width c) n); [lia|done].
  - change (str_len (d :: a)) with (utf8_width d + str_len a) in Hn. destruct (N.eqb_spec n 0); [lia|].
    destruct (N.leb_spec (utf8_width d) n); [|done]. by rewrite IH by lia.
Qed.

(** ** Paging *)

Section paging.
Context {Doc Node : Type} `{XmlLibrary Doc Node} (post : str -> str -> result HttpAnswer DlnaError).
Implicit Types (objs : list DidlObject).

(** Bug: an error answer whose 240th byte is inside a character panics. *)
Theorem error_body_panics params resp a c b :
  post (control_url params)
    (soap_browse_envelope (object_id params) (N.min U32_MAX (page params * N.max 1 (N.min (page_size params) DLNA_PAGE_HARD_CAP)))
       (N.max 1 (N.min (page_size params) DLNA_PAGE_HARD_CAP))) = Ok resp ->
  success resp = false -> body resp = a ++ c :: b -> str_len a < 240 < str_len a + utf8_width c ->
  browse_page post params = None.
Proof.
  intros Hp Hs Hb Hlen. unfold browse_page. rewrite Hp, Hs. cbn [negb]. unfold truncate. rewrite Hb.
  destruct (N.leb_spec (str_len (a ++ c :: b)) 240) as [Hle|_].
  - rewrite str_len_app in Hle. change (str_len (c :: b)) with (utf8_width c + str_len b) in Hle. lia.
  - by rewrite slice_to_inside.
Qed.

(** A content directory that answers every request for children of [oid] with the part of
    [objs] that was asked for, and says how many there are. *)
Definition answers (url oid : str) objs : Prop :=
  forall starting requested, starting <= U32_MAX -> 1 <= requested <= DLNA_PAGE_HARD_CAP ->
    exists resp x,
      let slice := take (N.to_nat requested) (drop (N.to_nat starting) objs) in
      post url (soap_browse_envelope oid starting requested) = Ok resp /\ success resp = true /\
      str_contains (lit "Fault") (body resp) && str_contains (lit "UPnPError") (body resp) = false /\
      extract_tag (body resp) (lit "Result") = Some (Some x) /\ parse_didl (xml_unescape x) = Ok slice /\
      extract_tag (body resp) (lit "NumberReturned") = Some (Some (dec (N.of_nat (length slice)))) /\
      extract_tag (body resp) (lit "TotalMatches") = Some (Some (dec (N.of_nat (length objs)))).

(** The page of a list, and whether there is more behind it. *)
Definition page_of (size p : N) objs : list DidlObject := take (N.to_nat size) (drop (N.to_nat (p * size)) objs).
Definition more_after (size p : N) objs : bool := p * size + size <? N.of_nat (length objs).

Lemma page_length size p objs :
  N.of_nat (length (page_of size p objs)) = N.min size (N.of_nat (length objs) - p * size).
Proof. unfold page_of. rewrite length_take, length_drop. lia. Qed.

(** A page of such a directory is the slice, with the successor exactly when there is more. *)
Theorem browse_page_correct url oid objs p size :
  answers url oid objs -> 1 <= size <= DLNA_PAGE_HARD_CAP -> N.of_nat (length objs) <= U32_MAX ->
  p * size <= U32_MAX -> p < U32_MAX ->
  exists r, browse_page post {| control_url := url; object_id := oid; page := p; page_size := size |} = Some (Ok r) /\
    objects r = page_of size p objs /\ truncated r = more_after size p objs /\
    next_page r = (if more_after size p objs then Some (p + 1) else None).
Proof.
  intros Ha Hsize Hlen Hstart Hp. unfold browse_page. cbn [page_size control_url object_id page].
  replace (N.max 1 (N.min size DLNA_PAGE_HARD_CAP)) with size by lia.
  replace (N.min U32_MAX (p * size)) with (p * size) by lia.
  destruct (Ha (p * size) size Hstart Hsize) as (resp & x & -> & -> & -> & -> & -> & -> & ->). cbn [negb].
  fold (page_of size p objs). pose proof (page_length size p objs) as Hpl.
  unfold parse_u32. rewrite !parse_uint_dec by lia. cbn [default].
  assert (Hmore : (sat_add U32_MAX (p * size) (N.of_nat (length (page_of size p objs))) <? N.of_nat (length objs)) =
                  more_after size p objs).
  { unfold more_after, sat_add. rewrite Hpl.
    destruct (N.ltb_spec (p * size + size) (N.of_nat (length objs)));
      [apply N.ltb_lt|apply N.ltb_ge]; lia. }
  eexists. split; [reflexivity|]. cbn. rewrite Hmore.
  split_and!; [done|done|]. rewrite sat_add_exact by lia. done.
Qed.

(** A truncated page of a server that says how many there are is before the last index,
    and names the page after it; whatever else the server says. *)
Lemma browse_page_next params r :
  browse_page post params = Some (Ok r) -> total_matches r <> None -> truncated r = true ->
  page params < U32_MAX /\ next_page r = Some (page params + 1).
Proof.
  unfold browse_page. set (size := N.max 1 _). assert (Hsize : 1 <= size) by (unfold size; lia).
  destruct (post _ _) as [resp|]; [|done].
  destruct (negb (success resp)); [by destruct (truncate _ _)|].
  destruct (_ && _); [by destruct (truncate _ _)|].
  destruct (extract_tag _ _) as [[x|]|]; try done. destruct (parse_didl _) as [objs|]; [|done].
  destruct (extract_tag _ (lit "NumberReturned")) as [number|]; [|done].
  destruct (extract_tag _ (lit "TotalMatches")) as [total|]; [|done].
  intros [= <-]. cbn. destruct total as [s|]; [|done]. destruct (parse_u32 s) as [m|] eqn:Hm; [|done].
  intros _ Hmore. rewrite Hmore. apply parse_uint_bound in Hm. apply N.ltb_lt in Hmore. unfold sat_add in Hmore.
  assert (page params < U32_MAX) by nia. split; [done|]. by rewrite sat_add_exact by lia.
Qed.
End paging.

(** ** The stream of an item *)

Lemma foldl_min_le {A} (key : A -> N) (l : list A) x :
  let m := foldl (fun best y => if key y <? key best then y else best) x l in
  key m <= key x /\ (m = x \/ m ∈ l) /\ forall y, y ∈ l -> key m <= key y.
Proof.
  revert x. induction l as [|y l IH]; intros x; cbn.
  { split_and!; [lia|by left|]. by intros y ?%elem_of_nil. }
  destruct (IH (if key y <? key x then y else x)) as (Hle & Hin & Hall). cbv zeta in *.
  set (m := foldl _ _ _) in *. clearbody m.
  destruct (N.ltb_spec (key y) (key x)); (split_and!;
    [lia
    |rewrite elem_of_cons; naive_solver
    |intros z [->|Hz]%elem_of_cons; [lia|by apply Hall]]).
Qed.

Lemma min_by_key_spec {A} (key : A -> N) l m :
  min_by_key key l = Some m -> m ∈ l /\ forall y, y ∈ l -> key m <= key y.
Proof.
  destruct l as [|x l]; [done|]. intros [= Hm]. destruct (foldl_min_le key l x) as (Hle & Hin & Hall).
  cbv zeta in *. rewrite Hm in *. split.
  - rewrite elem_of_cons. naive_solver.
  - intros y [->|Hy]%elem_of_cons; [done|by apply Hall].
Qed.

(** The stream that is picked is a resource of the item; it is an HTTP one of the best rank
    when there is an HTTP one; and an item with a resource has one. *)
Theorem pick_stream_uri_best item :
  match pick_stream_uri item with
  | Some u =>
      exists r, r ∈ res item /\ res_uri r = u /\
        ((exists r', r' ∈ res item /\ is_http (res_uri r') = true) ->
         is_http u = true /\ forall r', r' ∈ res item -> is_http (res_uri r') = true -> rank r <= rank r')
  | None => res item = []
  end.
Proof.
  unfold pick_stream_uri. destruct (min_by_key _ _) as [r|] eqn:Hr; cbn [option_map or_else].
  - apply min_by_key_spec in Hr as [[Hh Hin]%list_elem_of_filter Hmin]. exists r. split_and!; [done|done|].
    intros _. split; [done|]. intros r' Hr' Hh'. apply Hmin. by apply list_elem_of_filter.
  - assert (Hnone : forall r', r' ∈ res item -> is_http (res_uri r') <> true).
    { intros r' Hr' Hh'. destruct (filter _ (res item)) as [|x l] eqn:Hf; [|done].
      apply (not_elem_of_nil r'). rewrite <-Hf. by apply list_elem_of_filter. }
    destruct (res item) as [|r l]; [done|]. exists r. split_and!; [apply list_elem_of_here|done|].
    intros (r' & Hr' & Hh'). by destruct (Hnone r').
Qed.

(** ** Discovery *)

(** [frames] has a first frame that parses to [hit]. *)
Definition first_frame (frames : list str) (hit : SsdpHit) : Prop :=
  exists pre f post, frames = pre ++ f :: post /\ parse_ssdp_response f = Some hit /\
    forall g h, g ∈ pre -> parse_ssdp_response g = Some h -> hit_location h <> hit_location hit.

Lemma first_frame_location frames f hit :
  f ∈ frames -> parse_ssdp_response f = Some hit ->
  exists hit', first_frame frames hit' /\ hit_location hit' = hit_location hit.
Proof.
  intros Hf Hp. induction frames as [|g frames IH]; [by apply elem_of_nil in Hf|].
  destruct (decide (option_map hit_location (parse_ssdp_response g) = Some (hit_location hit))) as [Hg|Hg].
  - destruct (parse_ssdp_response g) as [h|] eqn:Hpg; [|done]. injection Hg as Hg. exists h. split; [|done].
    exists [], g, frames. split_and!; [done|done|]. by intros ? ? ?%elem_of_nil.
  - apply elem_of_cons in Hf as [->|Hf]; [by rewrite Hp in Hg|].
    destruct (IH Hf) as (hit' & (pre & f' & post & -> & Hp' & Hpre) & Hloc). exists hit'. split; [|done].
    exists (g :: pre), f', post. split_and!; [done|done|].
    intros k h [->|Hk]%elem_of_cons Hpk; [|by eapply Hpre]. rewrite Hpk in Hg. cbn in Hg. congruence.
Qed.

Lemma or_insert_correct frames :
  let hits := foldl or_insert [] frames in
  NoDup (map hit_location hits) /\ forall hit, hit ∈ hits <-> first_frame frames hit.
Proof.
  cbv zeta. induction frames as [|f frames [Hnd IH]] using rev_ind.
  { split; [constructor|]. intros hit. split; [by intros ?%elem_of_nil|].
    by intros ([|] & ? & ? & ? & _). }
  rewrite foldl_snoc. set (hits := foldl or_insert [] frames) in *. clearbody hits.
  assert (Hold : forall hit, first_frame frames hit -> first_frame (frames ++ [f]) hit).
  { intros hit (pre & g & post & -> & Hr). exists pre, g, (post ++ [f]). split; [|done]. by rewrite <-app_assoc. }
  assert (Hnew : forall hit, first_frame (frames ++ [f]) hit ->
            first_frame frames hit \/ parse_ssdp_response f = Some hit /\ hit_location hit ∉ map hit_location hits).
  { intros hit (pre & g & post & Heq & Hp & Hpre). destruct post as [|x post _] using rev_ind.
    - apply app_inj_tail in Heq as [-> ->]. right. split; [done|].
      intros (h & Hloc & Hh)%list_elem_of_fmap. apply IH in Hh as (pre' & g' & post' & -> & Hp' & _).
      apply (Hpre g' h); [|done|done]. set_solver.
    - rewrite app_comm_cons, app_assoc in Heq. apply app_inj_tail in Heq as [-> _].
      left. by exists pre, g, post. }
  unfold or_insert. destruct (parse_ssdp_response f) as [h|] eqn:Hf.
  2:{ split; [done|]. intros hit. rewrite IH. split; [apply Hold|]. intros [?|[[=] _]]%Hnew; done. }
  destruct (str_in (hit_location h) (map hit_location hits)) eqn:Hin.
  - apply str_in_spec in Hin. split; [done|]. intros hit. rewrite IH. split; [apply Hold|].
    intros [?|[[= ->] ?]]%Hnew; done.
  - assert (Hout : hit_location h ∉ map hit_location hits) by (rewrite <-str_in_spec; congruence).
    split.
    + rewrite map_app. apply NoDup_app. split_and!; [done| |apply NoDup_singleton].
      intros x Hx ->%list_elem_of_singleton. done.
    + intros hit. rewrite elem_of_app, list_elem_of_singleton, IH. split.
      * intros [?| ->]; [by apply Hold|]. exists frames, f, []. split_and!; [done|done|].
        intros g k Hg Hk Heq. destruct (first_frame_location frames g k Hg Hk) as (k' & Hk' & Hloc).
        apply Hout, list_elem_of_fmap. exists k'. split; [congruence|by apply IH].
      * intros [?|[[= ->] ?]]%Hnew; auto.
Qed.

(** Discovery gives the first answer of each location, once, in the order of locations. *)
Theorem discover_correct frames :
  NoDup (map hit_location (discover_media_servers frames)) /\
  Sorted by_location (discover_media_servers frames) /\
  forall hit, hit ∈ discover_media_servers frames <-> first_frame frames hit.
Proof.
  destruct (or_insert_correct frames) as [Hnd Hiff]. unfold discover_media_servers. split_and!.
  - by rewrite sort_by_perm.
  - apply sort_by_sorted, _.
  - intros hit. by rewrite sort_by_elem.
Qed.
