(* ===== verification/DlnaSource.v ===== *)
(** * The DLNA source plugin ([plugins/org.evoframework.source.dlna/src/lib.rs],
    [crates/evo-dlna/src/discovered.rs])

    The servers it knows, which an active sweep and a passive listener update at the same
    time and write to a side file; and the verbs that browse a server, resolve a stable
    identity to a stream and play it.  The tasks are a step machine, a step for each
    stretch between two points where another task can run. *)

From S2P Require Import Prelude Dlna.
Local Open Scope N_scope.

(** ** Data *)

(** [DiscoveredServer], [DiscoveredFile] *)
Record DiscoveredServer := {
  ds_service_id : str; ds_friendly_name : str; ds_control_url : str; ds_base_url : str;
  ds_location : str; last_seen_ms : N;
}.
Record DiscoveredFile := { file_v : N; file_servers : list DiscoveredServer }.
Definition DISCOVERED_VERSION : N := 1.

(** [PluginError], the two that the plugin raises. *)
Inductive PluginError := Permanent (detail : str) | Transient (detail : str).

(** ** The servers *)

(** [upsert_media_server] *)
Definition discovered (m : MediaServer) (seen : N) : DiscoveredServer :=
  {| ds_service_id := service_id m; ds_friendly_name := friendly_name m; ds_control_url := server_control_url m;
     ds_base_url := base_url m; ds_location := location m; last_seen_ms := seen |}.
Fixpoint upsert_media_server (m : MediaServer) (seen : N) (merged : list DiscoveredServer) : list DiscoveredServer :=
  match merged with
  | [] => [discovered m seen]
  | s :: rest =>
      if bool_decide (ds_service_id s = service_id m) then discovered m seen :: rest
      else s :: upsert_media_server m seen rest
  end.

Definition by_name (a b : DiscoveredServer) : Prop := str_le (ds_friendly_name a) (ds_friendly_name b).
#[export] Instance by_name_dec a b : Decision (by_name a b).
Proof. unfold by_name. apply _. Defined.
#[export] Instance by_name_total : Total by_name.
Proof. intros a b. apply str_le_cases. Qed.

(** [refresh_discovery]: the loop over the hits, a step for each description, and what
    follows it. *)
Definition GRACE_MS : N := 10 * 60 * 1000.
Definition fetched (r : result MediaServer DlnaError) (seen : N) (merged : list DiscoveredServer) : list DiscoveredServer :=
  match r with Ok m => upsert_media_server m seen merged | Err _ => merged end.
Definition fresh (seen : N) (s : DiscoveredServer) : Prop := sat_sub seen (last_seen_ms s) <= GRACE_MS.
#[export] Instance fresh_dec seen s : Decision (fresh seen s).
Proof. unfold fresh. apply _. Defined.
Definition retire (seen : N) (merged : list DiscoveredServer) : list DiscoveredServer :=
  sort_by by_name (filter (fresh seen) merged).

(** [merge_hit_into_discovered], after the description has come. *)
Definition merge_one (m : MediaServer) (seen : N) (servers : list DiscoveredServer) : list DiscoveredServer :=
  sort_by by_name (upsert_media_server m seen servers).

(** Where a task is: a sweep that fetches descriptions, with its copy of the servers and
    the time it took it; a listener that waits for a description, or has one; a task with
    the list it is about to write to the file, or to assign to memory. *)
Inductive Task :=
| Sweeping (hits : list SsdpHit) (seen : N) (merged : list DiscoveredServer)
| Announced (hit : SsdpHit)
| Described (m : MediaServer) (seen : N)
| Writing (merged : list DiscoveredServer)
| Assigning (merged : list DiscoveredServer).

Record State := {
  servers : list DiscoveredServer; side_file : option DiscoveredFile; tasks : gmap N Task;
}.

(** [write_discovered]: the side file is replaced as a whole, or not at all. *)
Definition write_discovered (merged : list DiscoveredServer) (st : State) : State :=
  {| servers := servers st; side_file := Some {| file_v := DISCOVERED_VERSION; file_servers := merged |};
     tasks := tasks st |}.
Definition assign (merged : list DiscoveredServer) (st : State) : State :=
  {| servers := merged; side_file := side_file st; tasks := tasks st |}.
Definition set_task (t : N) (k : option Task) (st : State) : State :=
  {| servers := servers st; side_file := side_file st;
     tasks := match k with Some k => <[ t := k ]> (tasks st) | None => delete t (tasks st) end |}.

(** [read_discovered], [load]: the servers of the side file; one that cannot be read leaves
    the list empty. *)
Definition read_discovered (file : option (result DiscoveredFile DlnaError)) : result DiscoveredFile DlnaError :=
  match file with
  | None => Ok {| file_v := DISCOVERED_VERSION; file_servers := [] |}
  | Some r => r
  end.
Definition load (file : option (result DiscoveredFile DlnaError)) : State :=
  {| servers := match read_discovered file with Ok f => file_servers f | Err _ => [] end;
     side_file := match file with Some (Ok f) => Some f | _ => None end; tasks := ∅ |}.

(** What can happen: the sweep's window ends with its hits, a frame is heard, a description
    arrives or fails, a listener takes its copy, the file is written or cannot be, a task
    assigns. *)
Inductive Event :=
| Swept (t : N) (hits : list SsdpHit) (now : N)
| Heard (t : N) (hit : SsdpHit)
| Fetched (t : N) (r : result MediaServer DlnaError) (now : N)
| Copied (t : N)
| Wrote (t : N) (ok : bool)
| Assigned (t : N).

(** The step of an event; [None] where it cannot happen. *)
Definition step (st : State) (e : Event) : option State :=
  match e with
  | Swept t hits now =>
      match tasks st !! t with
      | None => Some (set_task t (Some (Sweeping hits now (servers st))) st)
      | Some _ => None
      end
  | Heard t hit =>
      match tasks st !! t with
      | None => Some (set_task t (Some (Announced hit)) st)
      | Some _ => None
      end
  | Fetched t r now =>
      match tasks st !! t with
      | Some (Sweeping (_ :: hits) seen merged) => Some (set_task t (Some (Sweeping hits seen (fetched r seen merged))) st)
      | Some (Announced _) =>
          Some (set_task t (match r with Ok m => Some (Described m now) | Err _ => None end) st)
      | _ => None
      end
  | Copied t =>
      match tasks st !! t with
      | Some (Sweeping [] seen merged) => Some (set_task t (Some (Writing (retire seen merged))) st)
      | Some (Described m seen) => Some (set_task t (Some (Writing (merge_one m seen (servers st)))) st)
      | _ => None
      end
  | Wrote t ok =>
      match tasks st !! t with
      | Some (Writing merged) =>
          Some (if ok then set_task t (Some (Assigning merged)) (write_discovered merged st) else set_task t None st)
      | _ => None
      end
  | Assigned t =>
      match tasks st !! t with
      | Some (Assigning merged) => Some (set_task t None (assign merged st))
      | _ => None
      end
  end.

Fixpoint run (st : State) (es : list Event) : option State :=
  match es with
  | [] => Some st
  | e :: es' => match step st e with Some st' => run st' es' | None => None end
  end.

(** ** Verbs *)

Definition URI_SCHEME_DLNA : str := lit "dlna".
Definition WIRE_VERSION : N := 1.

(** The bodies of the requests and of the browse reply. *)
Record BrowseBody := { bb_v : N; bb_service_id : str; bb_object_id : str; bb_page : option N; bb_page_size : option N }.
Record ResolveBody := { rb_v : N; rb_service_id : str; rb_object_id : str }.
Inductive Entry :=
| Directory (name path : str) (count : option N)
| File (item : DidlItem) (uri : str) (playable : bool).
Record BrowseReply := {
  reply_service : str; reply_path : str; entries : list Entry; reply_page : N; reply_page_size : N;
  total : option N; reply_truncated : bool; reply_next : option N;
}.
Record ResolveReply := { resolved_uri : str; resolved_item : DidlItem }.

(** What the plugin is given: the HTTP client's [post], and the rendering of errors and of
    quoted strings. *)
Record Client := {
  post : str -> str -> result HttpAnswer DlnaError;
  display_error : DlnaError -> str;
  debug : str -> str;
}.

Section verbs.
Context {Doc Node : Type} `{XmlLibrary Doc Node} (client : Client).

(** [check_wire_version] *)
Definition check_wire_version (verb : str) (got : N) : result unit PluginError :=
  if negb (got =? WIRE_VERSION) then
    Err (Permanent (lit "source.dlna: verb " ++ debug client verb ++ lit " requires wire version " ++
                    dec WIRE_VERSION ++ lit " (got " ++ dec got ++ lit ")"))
  else Ok tt.

(** [parse_dlna_uri] *)
Definition parse_dlna_uri (uri : str) : result (str * str) PluginError :=
  match strip_prefix (URI_SCHEME_DLNA ++ lit ":") uri with
  | None => Err (Permanent (lit "play_now URI " ++ debug client uri ++ lit " does not bear the " ++
                            debug client URI_SCHEME_DLNA ++ lit " scheme this plugin owns"))
  | Some rest =>
      match split_once (lit "/") rest with
      | None => Err (Permanent (lit "play_now URI " ++ debug client uri ++ lit " must be " ++ URI_SCHEME_DLNA ++
                                lit ":<service_id>/<objectId>"))
      | Some (service_id, object_id) =>
          if str_is_empty service_id || str_is_empty object_id then
            Err (Permanent (lit "play_now URI " ++ debug client uri ++ lit " has empty service_id or objectId"))
          else Ok (service_id, object_id)
      end
  end.

(** [lookup_control] *)
Definition lookup_control (st : State) (id : str) : result str PluginError :=
  match find (fun s => bool_decide (ds_service_id s = id)) (servers st) with
  | Some s => Ok (ds_control_url s)
  | None => Err (Permanent (lit "unknown service_id " ++ id))
  end.

(** The entry of an object in the reply of [handle_browse]. *)
Definition entry_of (service : str) (o : DidlObject) : Entry :=
  match o with
  | Container c => Directory (c_title c) (c_id c) (child_count c)
  | Item i => File i (URI_SCHEME_DLNA ++ lit ":" ++ service ++ lit "/" ++ i_id i)
                (match pick_stream_uri i with Some _ => true | None => false end)
  end.

(** [handle_browse]; [None] where the client panics. *)
Definition handle_browse (st : State) (b : BrowseBody) : option (result BrowseReply PluginError) :=
  match lookup_control st (bb_service_id b) with
  | Err e => Some (Err e)
  | Ok url =>
      let p := default 0 (bb_page b) in
      let size := N.max 1 (N.min (default DLNA_PAGE_DEFAULT (bb_page_size b)) DLNA_PAGE_HARD_CAP) in
      match browse_page (post client)
              {| control_url := url; object_id := bb_object_id b; page := p; page_size := size |} with
      | None => None
      | Some (Err e) => Some (Err (Transient (display_error client e)))
      | Some (Ok r) =>
          Some (Ok {| reply_service := bb_service_id b; reply_path := bb_object_id b;
                      entries := map (entry_of (bb_service_id b)) (objects r);
                      reply_page := at_page r; reply_page_size := effective_size r; total := total_matches r;
                      reply_truncated := truncated r; reply_next := next_page r |})
      end
  end.

(** [browse_metadata_didl] *)
Definition metadata_envelope (oid : str) : str :=
  ENVELOPE_HEAD ++ element "ObjectID" oid ++ ENVELOPE_FLAG "BrowseMetadata" ++
  element "StartingIndex" (dec 0) ++ [LF] ++ lit "      " ++ element "RequestedCount" (dec 1) ++ ENVELOPE_TAIL.
Definition browse_metadata_didl (url oid : str) : result str DlnaError :=
  let escaped := str_replace (lit ">") (lit "&gt;") (str_replace (lit "<") (lit "&lt;") (str_replace (lit "&") (lit "&amp;") oid)) in
  let? resp := post client url (metadata_envelope escaped) in
  match split_once (lit "Result>") (body resp) with
  | None => Err (Soap (lit "no Result"))
  | Some (_, rest) =>
      match split_once (lit "</") rest with
      | None => Err (Soap (lit "no Result close"))
      | Some (escaped, _) =>
          Ok (str_replace (lit "&amp;") (lit "&") (str_replace (lit "&gt;") (lit ">")
               (str_replace (lit "&lt;") (lit "<") (str_replace (lit "&quot;") [DQUOTE] escaped))))
      end
  end.

(** [browse_metadata_item], [browse_metadata_uri] *)
Fixpoint first_item (objs : list DidlObject) : option DidlItem :=
  match objs with [] => None | Item i :: _ => Some i | Container _ :: rest => first_item rest end.
Definition browse_metadata_item (url oid : str) : result DidlItem DlnaError :=
  let? didl := browse_metadata_didl url oid in
  let? objs := parse_didl didl in
  ok_or (first_item objs) (Soap (lit "BrowseMetadata returned no <item>")).
Fixpoint first_stream (objs : list DidlObject) : option str :=
  match objs with
  | [] => None
  | Item i :: rest => match pick_stream_uri i with Some u => Some u | None => first_stream rest end
  | Container _ :: rest => first_stream rest
  end.
Definition browse_metadata_uri (url oid : str) : result str DlnaError :=
  let? didl := browse_metadata_didl url oid in
  let? objs := parse_didl didl in
  ok_or (first_stream objs) (Soap (lit "BrowseMetadata returned no playable res")).

(** [handle_resolve] *)
Definition handle_resolve (st : State) (b : ResolveBody) : result ResolveReply PluginError :=
  let? url := lookup_control st (rb_service_id b) in
  let? i := map_err (fun e => Transient (display_error client e)) (browse_metadata_item url (rb_object_id b)) in
  let? u := ok_or (pick_stream_uri i) (Transient (lit "BrowseMetadata returned no playable res")) in
  Ok {| resolved_uri := u; resolved_item := i |}.

(** [resolve_play_now_uri] *)
Definition resolve_play_now_uri (st : State) (uri : str) : result str PluginError :=
  if is_http uri then Ok uri
  else
    let? sv := parse_dlna_uri uri in
    let? url := lookup_control st (fst sv) in
    map_err (fun e => Transient (display_error client e)) (browse_metadata_uri url (snd sv)).

(** The [play_now] verb: the stream that is handed to the playback shelf, and what the
    caller is told.  The peer answers through the dispatcher, if there is one. *)
Definition play_now (st : State) (dispatch : option (str -> result unit PluginError)) (version : N) (uri : str)
  : option str * result str PluginError :=
  match check_wire_version (lit "play_now") version with
  | Err e => (None, Err e)
  | Ok _ =>
      match resolve_play_now_uri st uri with
      | Err e => (None, Err e)
      | Ok http_uri =>
          match dispatch with
          | None => (None, Err (Transient (lit "source.dlna play_now: ShelfRequestDispatcher unavailable (OOP wire not yet propagating LoadContext.shelf_request_dispatcher) " ++
              [8212] ++ lit " cannot hand resolved HTTP URI to audio.playback")))
          | Some d => (Some http_uri, let? _ := d http_uri in Ok http_uri)
          end
      end
  end.
End verbs.

(** ** The list of servers *)

Implicit Types (l merged : list DiscoveredServer) (m : MediaServer).

Definition ids l : list str := map ds_service_id l.

(** The server of an id. *)
Definition known l (id : str) : option DiscoveredServer :=
  find (fun s => bool_decide (ds_service_id s = id)) l.

Lemma known_Some l id s : NoDup (ids l) -> known l id = Some s <-> s ∈ l /\ ds_service_id s = id.
Proof.
  unfold known. induction l as [|x l IH]; intros Hnd; cbn [find].
  { split; [done|]. by intros [?%elem_of_nil _]. }
  apply NoDup_cons in Hnd as [Hx Hnd]. rewrite elem_of_cons. case_bool_decide as Hid.
  - split; [intros [= ->]; auto|]. intros [[->|Hs] Hids]; [done|]. destruct Hx. rewrite Hid, <-Hids.
    by apply list_elem_of_fmap_2.
  - rewrite (IH Hnd). naive_solver.
Qed.

Lemma known_None l id : known l id = None <-> id ∉ ids l.
Proof.
  unfold known. induction l as [|x l IH]; cbn [find ids map].
  { split; [intros _; apply not_elem_of_nil|done]. }
  rewrite not_elem_of_cons. case_bool_decide as Hid; [naive_solver|]. rewrite IH. naive_solver.
Qed.

Lemma known_perm l l' id : NoDup (ids l) -> l ≡ₚ l' -> known l id = known l' id.
Proof.
  intros Hnd Hp. assert (Hnd' : NoDup (ids l')) by (unfold ids in *; by rewrite <-Hp).
  destruct (known l' id) as [s|] eqn:Hs.
  - apply known_Some in Hs as [Hs Hid]; [|done]. apply known_Some; [done|]. by rewrite Hp.
  - apply known_None in Hs. apply known_None. unfold ids in *. by rewrite Hp.
Qed.

Lemma upsert_ids m seen l :
  ids (upsert_media_server m seen l) = if bool_decide (service_id m ∈ ids l) then ids l else ids l ++ [service_id m].
Proof.
  induction l as [|s l IH]; [done|]. cbn [upsert_media_server].
  destruct (decide (ds_service_id s = service_id m)) as [Hs|Hs].
  - rewrite (bool_decide_eq_true_2 (_ = _)) by done.
    rewrite bool_decide_eq_true_2 by (rewrite <-Hs; apply list_elem_of_here). cbn. by rewrite Hs.
  - rewrite (bool_decide_eq_false_2 (_ = _)) by done. cbn [ids map].
    fold (ids (upsert_media_server m seen l)) (ids l). rewrite IH.
    rewrite (bool_decide_ext (service_id m ∈ ds_service_id s :: ids l) (service_id m ∈ ids l))
      by (rewrite elem_of_cons; naive_solver).
    by case_bool_decide.
Qed.

Lemma upsert_unique m seen l : NoDup (ids l) -> NoDup (ids (upsert_media_server m seen l)).
Proof.
  intros Hl. rewrite upsert_ids. case_bool_decide as Hin; [done|]. apply NoDup_app.
  split_and!; [done| |apply NoDup_singleton]. intros x Hx ->%list_elem_of_singleton. done.
Qed.

Lemma known_upsert m seen l id :
  known (upsert_media_server m seen l) id =
  if bool_decide (service_id m = id) then Some (discovered m seen) else known l id.
Proof.
  unfold known. induction l as [|s l IH]; cbn [upsert_media_server find].
  { done. }
  destruct (decide (ds_service_id s = service_id m)) as [Hs|Hs];
    [rewrite (bool_decide_eq_true_2 (_ = service_id m)) by done
    |rewrite (bool_decide_eq_false_2 (_ = service_id m)) by done]; cbn [find].
  - cbn [discovered ds_service_id]. case_bool_decide as Hid; [done|].
    by rewrite bool_decide_eq_false_2 by congruence.
  - rewrite IH. repeat case_bool_decide; congruence.
Qed.

Lemma sort_ids l : ids (sort_by by_name l) ≡ₚ ids l.
Proof. unfold ids. by rewrite sort_by_perm. Qed.

Lemma filter_ids (P : DiscoveredServer -> Prop) `{!forall s, Decision (P s)} l : NoDup (ids l) -> NoDup (ids (filter P l)).
Proof. intros Hl. apply (sublist_NoDup _ (ids l) Hl). apply fmap_sublist, sublist_filter. Qed.

Lemma known_retire seen l id :
  NoDup (ids l) -> known (retire seen l) id = match known l id with Some s => if decide (fresh seen s) then Some s else None | None => None end.
Proof.
  intros Hl. unfold retire. pose proof (filter_ids (fresh seen) l Hl) as Hf.
  rewrite (known_perm _ (filter (fresh seen) l)); [|by rewrite sort_ids|apply sort_by_perm].
  destruct (known l id) as [s|] eqn:Hs; [case_decide as Hd|].
  - apply known_Some in Hs as [Hs Hid]; [|done]. apply known_Some; [done|]. by rewrite list_elem_of_filter.
  - apply known_None. intros (s' & -> & [Hf' Hs']%list_elem_of_filter)%list_elem_of_fmap.
    assert (known l (ds_service_id s') = Some s') as Hk by (by apply known_Some).
    rewrite Hk in Hs. by injection Hs as <-.
  - apply known_None. apply known_None in Hs. intros (s' & -> & [_ Hs']%list_elem_of_filter)%list_elem_of_fmap.
    by apply Hs, list_elem_of_fmap_2.
Qed.

(** ** A sweep *)

(** The description that answers last for an id. *)
Definition answer_for (rs : list (result MediaServer DlnaError)) (id : str) : option MediaServer :=
  foldl (fun acc r => match r with
                      | Ok m => if bool_decide (service_id m = id) then Some m else acc
                      | Err _ => acc
                      end) None rs.

Definition after_fetches (rs : list (result MediaServer DlnaError)) (seen : N) l : list DiscoveredServer :=
  foldl (fun merged r => fetched r seen merged) l rs.

Lemma after_fetches_unique rs seen l : NoDup (ids l) -> NoDup (ids (after_fetches rs seen l)).
Proof.
  unfold after_fetches. revert l. induction rs as [|r rs IH]; intros l Hl; [done|]. cbn [foldl]. apply IH.
  destruct r; [by apply upsert_unique|done].
Qed.

Lemma known_after_fetches rs seen l id :
  known (after_fetches rs seen l) id =
  match answer_for rs id with Some m => Some (discovered m seen) | None => known l id end.
Proof.
  unfold after_fetches, answer_for. induction rs as [|r rs IH] using rev_ind; [done|]. rewrite !foldl_snoc.
  destruct r as [m|e]; cbn [fetched]; [|done]. rewrite known_upsert, IH. by case_bool_decide.
Qed.

(** The events of a sweep that nothing interrupts. *)
Definition fetches (t : N) (rs : list (result MediaServer DlnaError)) : list Event := map (fun r => Fetched t r 0) rs.
Definition sweep (t : N) (hits : list SsdpHit) (rs : list (result MediaServer DlnaError)) (now : N) : list Event :=
  Swept t hits now :: fetches t rs ++ [Copied t; Wrote t true; Assigned t].

Lemma run_app st es es' :
  run st (es ++ es') = match run st es with Some st' => run st' es' | None => None end.
Proof. revert st. induction es as [|e es IH]; intros st; cbn; [done|]. by destruct (step st e). Qed.

Lemma run_fetches st t hits rs seen merged :
  tasks st !! t = Some (Sweeping hits seen merged) -> length rs = length hits ->
  run st (fetches t rs) = Some (set_task t (Some (Sweeping [] seen (after_fetches rs seen merged))) st).
Proof.
  revert st hits merged. induction rs as [|r rs IH]; intros st [|hit hits] merged Ht Hlen; try done.
  - cbn. unfold set_task. cbn. rewrite insert_id by done. by destruct st.
  - cbn [fetches map run step]. rewrite Ht. rewrite (IH _ hits (fetched r seen merged)).
    + unfold set_task. cbn. by rewrite insert_insert_eq.
    + cbn. by rewrite lookup_insert_eq.
    + by injection Hlen.
Qed.

Lemma run_sweep st t hits rs now :
  tasks st !! t = None -> length rs = length hits ->
  let l := retire now (after_fetches rs now (servers st)) in
  run st (sweep t hits rs now) = Some (assign l (write_discovered l st)).
Proof.
  intros Ht Hlen. cbv zeta. unfold sweep. cbn [run step]. rewrite Ht, run_app.
  rewrite (run_fetches _ t hits rs now (servers st)); [|cbn; by rewrite lookup_insert_eq|done].
  cbn [set_task tasks]. cbn. rewrite !lookup_insert_eq. cbn. rewrite !lookup_insert_eq. cbn. rewrite !lookup_insert_eq.
  unfold set_task, assign, write_discovered. cbn. do 2 f_equal. rewrite !insert_insert_eq. by apply delete_insert_id.
Qed.

(** A sweep that nothing interrupts: the servers that answered, as they answered; of the
    others those seen within the grace period; in the order of their names, the same in
    memory and in the file. *)
Theorem sweep_correct st t hits rs now :
  tasks st !! t = None -> length rs = length hits -> NoDup (ids (servers st)) ->
  exists st', run st (sweep t hits rs now) = Some st' /\
    (forall id, known (servers st') id =
       match answer_for rs id with
       | Some m => Some (discovered m now)
       | None => match known (servers st) id with
                 | Some s => if decide (fresh now s) then Some s else None
                 | None => None
                 end
       end) /\
    Sorted by_name (servers st') /\ NoDup (ids (servers st')) /\ tasks st' = tasks st /\
    side_file st' = Some {| file_v := DISCOVERED_VERSION; file_servers := servers st' |}.
Proof.
  intros Ht Hlen Hl. pose proof (after_fetches_unique rs now _ Hl) as Hl'.
  eexists. split; [by apply run_sweep|]. cbn [assign write_discovered servers tasks side_file]. split_and!; [| | |done|done].
  - intros id. rewrite known_retire, known_after_fetches by done. destruct (answer_for rs id) as [m|]; [|done].
    rewrite decide_True; [done|]. unfold fresh, sat_sub, GRACE_MS. cbn [discovered last_seen_ms]. lia.
  - apply sort_by_sorted, _.
  - unfold retire. rewrite sort_ids. by apply filter_ids.
Qed.

(** ** Any interleaving *)

(** What a task may hold. *)
Definition task_ok (k : Task) : Prop :=
  match k with
  | Sweeping _ _ merged => NoDup (ids merged)
  | Writing merged | Assigning merged => NoDup (ids merged) /\ Sorted by_name merged
  | Announced _ | Described _ _ => True
  end.

(** Every list has one entry for an id; the file has the order of the names. *)
Definition well_formed (st : State) : Prop :=
  NoDup (ids (servers st)) /\
  (forall f, side_file st = Some f -> NoDup (ids (file_servers f))) /\
  (forall t k, tasks st !! t = Some k -> task_ok k).

Lemma set_task_ok t k st :
  well_formed st -> (forall k', k = Some k' -> task_ok k') -> well_formed (set_task t k st).
Proof.
  intros (Hs & Hf & Ht) Hk. split_and!; [done|done|]. intros t' k'. cbn. destruct k as [k|].
  - destruct (decide (t = t')) as [->|Hne]; [rewrite lookup_insert_eq; intros [= ->]; by apply Hk|].
    rewrite lookup_insert_ne by done. apply Ht.
  - destruct (decide (t = t')) as [->|Hne]; [by rewrite lookup_delete_eq|]. rewrite lookup_delete_ne by done. apply Ht.
Qed.

Lemma retire_ok seen l : NoDup (ids l) -> NoDup (ids (retire seen l)) /\ Sorted by_name (retire seen l).
Proof.
  intros Hl. unfold retire. split; [rewrite sort_ids; by apply filter_ids|apply sort_by_sorted, _].
Qed.

Lemma merge_one_ok m seen l : NoDup (ids l) -> NoDup (ids (merge_one m seen l)) /\ Sorted by_name (merge_one m seen l).
Proof.
  intros Hl. unfold merge_one. split; [rewrite sort_ids; by apply upsert_unique|apply sort_by_sorted, _].
Qed.

Lemma step_well_formed st e st' : well_formed st -> step st e = Some st' -> well_formed st'.
Proof.
  intros Hwf Hstep. pose proof Hwf as (Hs & Hf & Ht).
  destruct e as [t hits now|t hit|t r now|t|t ok|t]; cbn [step] in Hstep;
    destruct (tasks st !! t) as [k|] eqn:Hk; try done; try (specialize (Ht t k Hk)).
  - injection Hstep as <-. apply set_task_ok; [done|]. by intros ? [= <-].
  - injection Hstep as <-. apply set_task_ok; [done|]. by intros ? [= <-].
  - destruct k as [[|hit hits] seen merged|hit| | |]; try done; injection Hstep as <-; (apply set_task_ok; [done|]).
    + intros ? [= <-]. destruct r; [by apply upsert_unique|done].
    + by destruct r; intros ? [= <-].
  - destruct k as [[|] seen merged| |m seen| |]; try done; injection Hstep as <-; (apply set_task_ok; [done|]);
      intros ? [= <-]; [by apply retire_ok|by apply merge_one_ok].
  - destruct k as [| | |merged|]; try done. injection Hstep as <-. destruct ok; [|by apply set_task_ok].
    destruct Ht as [Ht1 Ht2]. apply set_task_ok; [|by intros ? [= <-]].
    destruct Hwf as (_ & _ & Hts). split_and!; [done|by intros ? [= <-]|done].
  - destruct k as [| | | |merged]; try done. injection Hstep as <-. destruct Ht as [Ht1 Ht2].
    apply set_task_ok; [|done]. destruct Hwf as (_ & _ & Hts). by split_and!.
Qed.

(** However the sweeps and the announcements interleave, each server is known once, in
    memory, in the file and in every task's copy. *)
Theorem servers_stay_unique file es st :
  (forall f, file = Some (Ok f) -> NoDup (ids (file_servers f))) -> run (load file) es = Some st -> well_formed st.
Proof.
  intros Hfile. assert (H0 : well_formed (load file)).
  { split_and!; [|destruct file as [[|]|]; cbn; try done; intros ? [= <-]; by apply Hfile|by intros t k Hk; cbn in Hk; rewrite lookup_empty in Hk].
    destruct file as [[f|]|]; [by apply Hfile|constructor|constructor]. }
  revert H0. generalize (load file) as st0. intros st0 H0. revert st0 H0.
  induction es as [|e es IH]; intros st0 H0; cbn; [by intros [= <-]|].
  destruct (step st0 e) as [st1|] eqn:He; [|done]. intros Hrun. apply (IH st1); [|done]. by eapply step_well_formed.
Qed.

(** The events of an announcement. *)
Definition announcement (t : N) (hit : SsdpHit) (m : MediaServer) (now : N) : list Event :=
  [Heard t hit; Fetched t (Ok m) now; Copied t; Wrote t true; Assigned t].

(** An announcement that nothing interrupts adds its server, and retires none. *)
Theorem announcement_correct st t hit m now :
  tasks st !! t = None -> NoDup (ids (servers st)) ->
  exists st', run st (announcement t hit m now) = Some st' /\
    (forall id, known (servers st') id =
       if bool_decide (service_id m = id) then Some (discovered m now) else known (servers st) id) /\
    Sorted by_name (servers st') /\ tasks st' = tasks st /\
    side_file st' = Some {| file_v := DISCOVERED_VERSION; file_servers := servers st' |}.
Proof.
  intros Ht Hl. exists (assign (merge_one m now (servers st)) (write_discovered (merge_one m now (servers st)) st)).
  split; [|cbn [assign write_discovered servers tasks side_file]; split_and!; [|by apply merge_one_ok|done|done]].
  - unfold announcement. cbn [run step]. rewrite Ht. cbn. rewrite !lookup_insert_eq. cbn. rewrite !lookup_insert_eq.
    cbn. rewrite !lookup_insert_eq. cbn. rewrite !lookup_insert_eq.
    unfold set_task, assign, write_discovered. cbn. do 2 f_equal. rewrite !insert_insert_eq. by apply delete_insert_id.
  - intros id. rewrite <-known_upsert with (seen := now). apply known_perm; [by apply merge_one_ok|apply sort_by_perm].
Qed.

(** Bug: an announcement that is merged while a sweep fetches its descriptions is lost, in
    memory and in the file, since the sweep assigns the copy it took before. *)
Theorem announcement_lost st t1 t2 h hit rs m now :
  t1 <> t2 -> tasks st !! t1 = None -> tasks st !! t2 = None -> NoDup (ids (servers st)) ->
  known (servers st) (service_id m) = None -> answer_for rs (service_id m) = None -> length rs = length h ->
  exists st1 st2,
    run st (Swept t1 h now :: announcement t2 hit m now) = Some st1 /\
    is_Some (known (servers st1) (service_id m)) /\
    run st1 (fetches t1 rs ++ [Copied t1; Wrote t1 true; Assigned t1]) = Some st2 /\
    known (servers st2) (service_id m) = None /\
    forall f, side_file st2 = Some f -> known (file_servers f) (service_id m) = None.
Proof.
  intros Hne H1 H2 Hl Hm Hrs Hlen.
  destruct (announcement_correct (set_task t1 (Some (Sweeping h now (servers st))) st) t2 hit m now)
    as (st1 & Hrun1 & Hknown1 & _ & Htasks & _); [cbn; by rewrite lookup_insert_ne|done|].
  exists st1. cbn [run step]. rewrite H1. rewrite Hrun1.
  assert (Ht1 : tasks st1 !! t1 = Some (Sweeping h now (servers st))) by (rewrite Htasks; cbn; by rewrite lookup_insert_eq).
  pose proof (run_fetches st1 t1 h rs now (servers st) Ht1 Hlen) as Hf.
  set (l := retire now (after_fetches rs now (servers st))).
  exists (set_task t1 None (assign l (write_discovered l st1))).
  assert (Hlost : known l (service_id m) = None).
  { unfold l. rewrite known_retire by by apply after_fetches_unique. by rewrite known_after_fetches, Hrs, Hm. }
  split_and!; [done| | |done|by intros ? [= <-]].
  - rewrite Hknown1. by rewrite bool_decide_eq_true_2.
  - rewrite run_app, Hf. cbn. rewrite !lookup_insert_eq. cbn. rewrite !lookup_insert_eq. cbn. rewrite !lookup_insert_eq.
    unfold set_task, assign, write_discovered. cbn. do 2 f_equal. by rewrite !insert_insert_eq, delete_insert_eq.
Qed.

(** Bug: two tasks that write and then assign in the other order leave a file that is not
    what is in memory. *)
Theorem file_and_memory_part st t1 t2 l1 l2 :
  t1 <> t2 -> tasks st !! t1 = Some (Writing l1) -> tasks st !! t2 = Some (Writing l2) ->
  exists st', run st [Wrote t1 true; Wrote t2 true; Assigned t2; Assigned t1] = Some st' /\
    servers st' = l1 /\ side_file st' = Some {| file_v := DISCOVERED_VERSION; file_servers := l2 |}.
Proof.
  intros Hne H1 H2. cbn. rewrite H1. cbn. rewrite lookup_insert_ne, H2 by done. cbn.
  rewrite lookup_insert_eq. cbn. rewrite lookup_delete_ne, lookup_insert_ne, lookup_insert_eq by done.
  eexists. split; [reflexivity|]. done.
Qed.

(** ** Identities *)

Section identities.
Context {Doc Node : Type} `{XmlLibrary Doc Node} (client : Client).

(** The identity that browsing gives an item leads back to the server and the item: unless
    one of them is empty, or the server's id holds a slash. *)
Theorem item_uri_roundtrip service i :
  match entry_of service (Item i) with
  | File _ uri _ =>
      parse_dlna_uri client uri = Ok (service, i_id i) <-> service <> [] /\ i_id i <> [] /\ 47 ∉ service
  | Directory _ _ _ => False
  end.
Proof.
  cbn [entry_of]. unfold parse_dlna_uri. rewrite app_assoc, strip_prefix_app. change (lit "/") with [47]. cbn [app].
  destruct (decide (47 ∈ service)) as [Hin|Hout].
  - split; [|intros (_ & _ & Hn); done]. destruct (split_once [47] (service ++ 47 :: i_id i)) as [[a b]|] eqn:Hs; [|done].
    destruct (_ || _); [done|]. intros [= -> ->].
    apply list_elem_of_split_l in Hin as (x & y & -> & Hx).
    rewrite <-app_assoc in Hs. cbn [app] in Hs. rewrite split_once_char_intro in Hs by done.
    injection Hs as Heq _. apply (f_equal length) in Heq. rewrite length_app in Heq. cbn in Heq. lia.
  - rewrite split_once_char_intro by done. destruct service as [|c s]; [naive_solver|].
    destruct (i_id i) as [|d t]; [naive_solver|]. cbn. naive_solver.
Qed.

(** Bug: the items of a server whose description has no UDN can be browsed and not
    played. *)
Theorem unnamed_server_is_unplayable i :
  match entry_of (normalize_udn []) (Item i) with
  | File _ uri _ => exists e, parse_dlna_uri client uri = Err (Permanent e)
  | Directory _ _ _ => False
  end.
Proof. cbn [entry_of]. unfold parse_dlna_uri. rewrite app_assoc, strip_prefix_app. cbn. by eexists. Qed.

(** Bug: of an answer whose names carry a prefix, one reader finds the result and the other
    does not. *)
Theorem prefixed_answer_divides params oid resp x :
  (forall envelope, post client (control_url params) envelope = Ok resp) -> success resp = true ->
  body resp = lit "<u:Result>" ++ x ++ lit "</u:Result>" -> LT ∉ x -> str_contains (lit "/Result>") x = false ->
  str_contains (lit "Fault") (body resp) && str_contains (lit "UPnPError") (body resp) = false ->
  browse_page (post client) params = Some (Err (Soap (lit "Browse response missing Result"))) /\
  exists didl, browse_metadata_didl client (control_url params) oid = Ok didl.
Proof.
  intros Hp Hs Hb Hx Hc Hf. split.
  - unfold browse_page. rewrite Hp, Hs, Hf. cbn [negb]. by rewrite Hb, prefixed_tag_is_missed.
  - unfold browse_metadata_didl. rewrite Hp, Hb.
    assert (H1 : split_once (lit "Result>") (lit "<u:Result>" ++ x ++ lit "</u:Result>") = Some (lit "<u:", x ++ lit "</u:Result>"))
      by reflexivity.
    rewrite H1. change (lit "</u:Result>") with ([] ++ LT :: lit "/u:Result>").
    assert (H2 : split_once (lit "</") (x ++ LT :: lit "/u:Result>") = Some (x, lit "u:Result>")).
    { clear -Hx. induction x as [|c x IH]; [reflexivity|]. apply not_elem_of_cons in Hx as [Hc Hx].
      change ((c :: x) ++ ?s) with (c :: (x ++ s)). cbn [split_once]. rewrite (IH Hx).
      change (lit "</") with [LT; 47]. cbn [strip_prefix]. by destruct (N.eqb_spec LT c). }
    cbn [app]. rewrite H2. by eexists.
Qed.

(** A page of a known server that answers is the entries of the page. *)
Lemma handle_browse_correct st service url oid objs p size :
  lookup_control st service = Ok url -> answers (post client) url oid objs ->
  N.of_nat (length objs) <= U32_MAX ->
  let n := N.max 1 (N.min (default DLNA_PAGE_DEFAULT size) DLNA_PAGE_HARD_CAP) in
  p * n <= U32_MAX -> p < U32_MAX ->
  exists r, handle_browse client st
      {| bb_v := 1; bb_service_id := service; bb_object_id := oid; bb_page := Some p; bb_page_size := size |} = Some (Ok r) /\
    entries r = map (entry_of service) (page_of n p objs) /\ reply_truncated r = more_after n p objs /\
    reply_next r = (if more_after n p objs then Some (p + 1) else None).
Proof.
  intros Hl Ha Hlen n Hp1 Hp2. unfold handle_browse. cbn [bb_service_id bb_object_id bb_page bb_page_size]. rewrite Hl.
  cbn [default]. fold n.
  assert (Hn : 1 <= n <= DLNA_PAGE_HARD_CAP) by (unfold n, DLNA_PAGE_HARD_CAP; lia).
  destruct (browse_page_correct (post client) url oid objs p n Ha Hn Hlen Hp1 Hp2) as (r & Hr & Ho & Ht & Hx).
  unfold id in *. rewrite Hr. eexists. split; [reflexivity|]. cbn. by rewrite Ho, Ht, Hx.
Qed.
End identities.

(** ** Instances *)

Definition demo_server (id name : str) (seen : N) : DiscoveredServer :=
  {| ds_service_id := id; ds_friendly_name := name; ds_control_url := []; ds_base_url := []; ds_location := [];
     last_seen_ms := seen |}.
Definition demo_media (id name : str) : MediaServer :=
  {| service_id := id; friendly_name := name; server_control_url := []; base_url := []; location := [] |}.
Definition demo_hit : SsdpHit := {| hit_location := lit "http://h/d.xml"; usn := None; server := None |}.
Definition demo_file : DiscoveredFile :=
  {| file_v := 1; file_servers := [demo_server (lit "a") (lit "Attic") 0; demo_server (lit "b") (lit "Barn") 900000] |}.

Lemma demo_file_unique : NoDup (ids (file_servers demo_file)).
Proof. apply (bool_decide_unpack _). vm_compute. exact I. Qed.

Lemma sweep_correct_witness :
  exists st', run (load (Some (Ok demo_file))) (sweep 0 [demo_hit] [Ok (demo_media (lit "c") (lit "Cellar"))] 1000000) = Some st' /\
    known (servers st') (lit "a") = None /\
    known (servers st') (lit "b") = Some (demo_server (lit "b") (lit "Barn") 900000).
Proof.
  destruct (sweep_correct (load (Some (Ok demo_file))) 0 [demo_hit] [Ok (demo_media (lit "c") (lit "Cellar"))] 1000000)
    as (st' & Hrun & Hknown & _); [done|done|exact demo_file_unique|].
  exists st'. split; [exact Hrun|]. rewrite !Hknown. split; vm_compute; reflexivity.
Defined.

Lemma servers_stay_unique_witness :
  exists st, run (load (Some (Ok demo_file))) (announcement 1 demo_hit (demo_media (lit "b") (lit "Byre")) 7) = Some st /\
    well_formed st.
Proof.
  destruct (announcement_correct (load (Some (Ok demo_file))) 1 demo_hit (demo_media (lit "b") (lit "Byre")) 7)
    as (st & Hrun & _); [done|exact demo_file_unique|].
  exists st. split; [exact Hrun|]. refine (servers_stay_unique _ _ st _ Hrun). intros f [= <-]. exact demo_file_unique.
Defined.

(** The announcement of a server during a sweep is lost. *)
Example announcement_lost_runs :
  match run (load None)
    ([Swept 0 [] 10; Heard 1 demo_hit; Fetched 1 (Ok (demo_media (lit "c") (lit "Cellar"))) 11; Copied 1; Wrote 1 true; Assigned 1;
      Copied 0; Wrote 0 true; Assigned 0]) with
  | Some st => servers st = []
  | None => False
  end.
Proof. vm_compute. reflexivity. Qed.
