(* ===== verification/SharesText.v ===== *)
(** * Network shares: records, commands and what they print
    ([plugins/org.evoframework.network.shares/src/runtime.rs], the functions without
    state)

    The record of a share; the arguments of the mount, unmount and discovery commands;
    the name of the unit a mount runs as; how a failed mount is classified; what is read
    out of the mount table, of [mpc], and of the discovery tools. *)

From S2P Require Import Prelude Paths.
Local Open Scope N_scope.

(** ** Records *)

Abbreviation ShareId := str.

(** [FsType] *)
Inductive FsType := Cifs | Nfs.
#[export] Instance FsType_eq_dec : EqDecision FsType.
Proof. solve_decision. Defined.
Definition as_mount_type (t : FsType) : str := match t with Cifs => lit "cifs" | Nfs => lit "nfs" end.
Definition probe_port_for_fstype (t : FsType) : N := match t with Cifs => 445 | Nfs => 2049 end.

(** [Credentials] *)
Inductive Credentials :=
| Guest
| UserPassword (username credential_key : str) (domain : option str)
| KeyFile (path : str).
#[export] Instance Credentials_eq_dec : EqDecision Credentials.
Proof. solve_decision. Defined.

(** [ShareRecord] *)
Record ShareRecord := {
  share_id : ShareId;
  alias : str;
  fstype : FsType;
  host : str;
  path : str;
  credentials : Credentials;
  advanced_options : str;
  persisted_vers : option str;
  mount_root : str;
  created_at_ms : Z;
  last_mounted_at_ms : option Z
}.
#[export] Instance ShareRecord_eq_dec : EqDecision ShareRecord.
Proof. solve_decision. Defined.

Definition NAS_MOUNT_ROOT : str := lit "/var/lib/evo/music/NAS".
Definition UNDERSCORE : char := 95.
Definition HYPHEN : char := 45.

(** [ShareRecord::default_mount_root] *)
Definition segment_char (c : char) : char :=
  if is_ascii_alphanumeric c || (c =? HYPHEN) || (c =? UNDERSCORE) then c else UNDERSCORE.
Definition trim_underscores (s : str) : str :=
  rev (drop_while (N.eqb UNDERSCORE) (rev (drop_while (N.eqb UNDERSCORE) s))).
Definition default_mount_root (alias : str) : str :=
  let trimmed := trim_underscores (map segment_char alias) in
  join NAS_MOUNT_ROOT (if str_is_empty trimmed then lit "share" else trimmed).

(** [ShareRecord::new]; the identifier is minted by the uuid library. *)
Definition new_record (id : ShareId) (alias : str) (fstype : FsType) (host path : str) (credentials : Credentials)
    (advanced_options : str) (created_at_ms : Z) : ShareRecord :=
  {| share_id := id; alias := alias; fstype := fstype; host := host; path := path; credentials := credentials;
     advanced_options := advanced_options; persisted_vers := None; mount_root := default_mount_root alias;
     created_at_ms := created_at_ms; last_mounted_at_ms := None |}.

(** ** Commands *)

(** [Vec::join] *)
Fixpoint joined (sep : str) (l : list str) : str :=
  match l with
  | [] => []
  | [x] => x
  | x :: l' => x ++ sep ++ joined sep l'
  end.

(** The arguments both kinds of mount share. *)
Definition mount_args (t : FsType) (options : list str) (remote root : str) : list str :=
  [lit "--collect"; lit "--type=" ++ as_mount_type t; lit "--options=" ++ joined (lit ",") options; remote; root].
Definition operator_options (r : ShareRecord) : list str :=
  if str_is_empty (advanced_options r) then [] else [advanced_options r].

(** [build_cifs_mount_args] *)
Definition cifs_options (r : ShareRecord) (dialect : str) (credentials_file : option str) : list str :=
  [lit "vers=" ++ dialect; lit "ro"; lit "noauto"; lit "iocharset=utf8"] ++
  match credentials r with
  | Guest => [lit "guest"]
  | UserPassword _ _ _ =>
      match credentials_file with Some p => [lit "credentials=" ++ p] | None => [] end
  | KeyFile p => [lit "credentials=" ++ p]
  end ++ operator_options r.
Definition build_cifs_mount_args (r : ShareRecord) (dialect : str) (credentials_file : option str) : list str :=
  mount_args Cifs (cifs_options r dialect credentials_file)
    (lit "//" ++ host r ++ lit "/" ++ drop_while (N.eqb SLASH) (path r)) (mount_root r).

(** [build_nfs_mount_args] *)
Definition nfs_options (r : ShareRecord) : list str :=
  [lit "ro"; lit "soft"; lit "noauto"] ++ operator_options r.
Definition build_nfs_mount_args (r : ShareRecord) : list str :=
  mount_args Nfs (nfs_options r)
    (host r ++ lit ":" ++ (if starts_with [SLASH] (path r) then path r else SLASH :: path r)) (mount_root r).

(** [build_umount_args], [build_force_detach_argv] *)
Definition build_umount_args (root : str) (lazy : bool) : list str :=
  (if lazy then [lit "-l"] else []) ++ [root].
Definition build_force_detach_argv (root : str) : list str :=
  [lit "/usr/bin/systemd-run"; lit "--quiet"; lit "--wait"; lit "--collect"; lit "--pipe";
   lit "--working-directory=/"; lit "--"; lit "/bin/umount"; lit "-i"; lit "-l"; root].

(** [effective_umount_program], [umount_flag_l_is_lazy] *)
Definition effective_umount_program (umount_program : str) (wrapper : list str) : str :=
  default umount_program (last wrapper).
Definition umount_flag_l_is_lazy (program : str) : bool :=
  match file_name program with Some n => negb (bool_decide (n = lit "systemd-umount")) | None => true end.

(** [compose_cifs_credentials_file] *)
Definition compose_cifs_credentials_file (username password : str) (domain : option str) : str :=
  (lit "username=" ++ username ++ [LF]) ++ (lit "password=" ++ password ++ [LF]) ++
  match domain with
  | Some d => if str_is_empty d then [] else lit "domain=" ++ d ++ [LF]
  | None => []
  end.

(** [systemd_mount_unit_name] *)
Definition hex_digit (n : N) : char := if n <? 10 then 48 + n else 87 + n.
Definition hex_escape (b : N) : str := [BACKSLASH; 120; hex_digit (b / 16); hex_digit (b mod 16)].
Definition unit_char (c : char) : str :=
  if c =? SLASH then [HYPHEN]
  else if (c =? HYPHEN) || (c =? BACKSLASH) then hex_escape c
  else if is_ascii_alphanumeric c || (c =? UNDERSCORE) || (c =? 46) || (c =? 58) then [c]
  else if c <? 128 then hex_escape c
  else concat (map hex_escape (encode_utf8 c)).
Definition systemd_mount_unit_name (root : str) : str :=
  let stripped := default root (strip_prefix [SLASH] root) in
  if str_is_empty stripped then lit "-.mount"
  else concat (map unit_char stripped) ++ lit ".mount".

(** [FileCredentialStore::validate_key] *)
Inductive KeyError := KeyEmpty | KeyTooLong | KeyDisallowed (c : char).
Fixpoint first_disallowed (s : str) : option char :=
  match s with
  | [] => None
  | c :: s' => if is_ascii_alphanumeric c || (c =? 46) || (c =? UNDERSCORE) || (c =? HYPHEN)
               then first_disallowed s' else Some c
  end.
Definition validate_key (key : str) : result unit KeyError :=
  if str_is_empty key then Err KeyEmpty
  else if 128 <? str_len key then Err KeyTooLong
  else match first_disallowed key with Some c => Err (KeyDisallowed c) | None => Ok tt end.

(** ** Why a mount failed *)

Definition to_ascii_uppercase (s : str) : str := map ascii_upper_char s.

(** [is_mount_directory_missing] *)
Definition is_mount_directory_missing (stderr root : str) : bool :=
  let root' := to_ascii_uppercase root in
  existsb (fun line =>
    let l := to_ascii_uppercase line in
    str_contains (lit "NO SUCH FILE OR DIRECTORY") l &&
    (str_contains (lit "CHDIR") l || (negb (str_is_empty root') && str_contains root' l))) (lines stderr).

(** [combine_mount_stderr] *)
Definition combine_mount_stderr (helper unit : str) : str :=
  match str_is_empty (trim helper), str_is_empty (trim unit) with
  | true, true => []
  | false, true => helper
  | true, false => unit
  | false, false => helper ++ [LF] ++ unit
  end.

(** [MountFailureKind], [classify_mount_failure] *)
Inductive MountFailureKind := AuthRefused | DirectoryMissing | Other.
Definition classify_mount_failure (exit_code : option Z) (helper unit root : str)
    (is_auth_refusal : option Z -> str -> bool) : MountFailureKind * str :=
  let combined := combine_mount_stderr helper unit in
  if is_auth_refusal exit_code combined then (AuthRefused, combined)
  else if is_mount_directory_missing combined root then (DirectoryMissing, combined)
  else (Other, combined).

(** [is_cifs_auth_refusal], [is_nfs_auth_refusal], [is_busy_stderr] *)
Definition any_in (texts : list str) (s : str) : bool := existsb (fun t => str_contains t s) texts.
Definition is_cifs_auth_refusal (exit_code : option Z) (stderr : str) : bool :=
  bool_decide (exit_code = Some 13%Z) ||
  any_in [lit "MOUNT ERROR(13)"; lit "NT_STATUS_LOGON_FAILURE"; lit "NT_STATUS_ACCESS_DENIED";
          lit "PERMISSION DENIED"; lit "STATUS_ACCOUNT_DISABLED"; lit "STATUS_LOGON_FAILURE";
          lit "STATUS_ACCOUNT_LOCKED_OUT"; lit "STATUS_PASSWORD_EXPIRED"] (to_ascii_uppercase stderr).
Definition is_nfs_auth_refusal (stderr : str) : bool :=
  any_in [lit "ACCESS DENIED BY SERVER"; lit "PERMISSION DENIED"; lit "RPC: AUTHENTICATION ERROR";
          lit "NO PERMISSION TO MOUNT"] (to_ascii_uppercase stderr).
Definition is_busy_stderr (stderr : str) : bool :=
  any_in [lit "target is busy"; lit "device is busy"; lit "device or resource busy"] (to_ascii_lowercase stderr).

(** ** The mount table *)

(** [is_path_mounted_in_proc_mounts] *)
Definition is_path_mounted_in_proc_mounts (proc_mounts root : str) : bool :=
  existsb (fun line =>
    match split_whitespace line with
    | _ :: mp :: _ => bool_decide (mp = root)
    | _ => false
    end) (lines proc_mounts).

(** The loop of the two readers below: a line with fewer than four columns ends it
    (the question marks of the source). *)
Fixpoint first_prefixed (prefixes : list str) (opts : list str) : option str :=
  match opts with
  | [] => None
  | o :: opts' =>
      match omap (fun p => strip_prefix p o) prefixes with
      | v :: _ => Some v
      | [] => first_prefixed prefixes opts'
      end
  end.
Fixpoint version_in (types prefixes : list str) (root : str) (ls : list str) : option str :=
  match ls with
  | [] => None
  | line :: ls' =>
      match split_whitespace line with
      | _ :: mp :: fs :: opts :: _ =>
          if bool_decide (mp = root) && str_in fs types then
            match first_prefixed prefixes (split_char 44 opts) with
            | Some v => Some v
            | None => version_in types prefixes root ls'
            end
          else version_in types prefixes root ls'
      | _ => None
      end
  end.

(** [parse_cifs_version_from_proc_mounts], [parse_nfs_version_from_proc_mounts] *)
Definition parse_cifs_version_from_proc_mounts (proc_mounts root : str) : option str :=
  version_in [lit "cifs"; lit "smb3"] [lit "vers="] root (lines proc_mounts).
Definition parse_nfs_version_from_proc_mounts (proc_mounts root : str) : option str :=
  version_in [lit "nfs"; lit "nfs4"] [lit "vers="; lit "nfsvers="] root (lines proc_mounts).

(** ** What the player holds of a share *)

(** [mpd_relative_mount_prefix] *)
Definition mpd_relative_mount_prefix (root : str) : option str :=
  match path_parent NAS_MOUNT_ROOT with
  | Some music_directory =>
      match path_strip_prefix music_directory root with
      | Some rel => if str_is_empty rel then None else Some rel
      | None => None
      end
  | None => None
  end.

(** [mpd_status_is_updating] *)
Definition mpd_status_is_updating (status : str) : bool := str_contains (lit "updating db") (to_ascii_lowercase status).

(** [mpd_stop_and_prune_blocking]: whether what plays is stopped, and the positions that
    are deleted, from the texts [mpc] printed. *)
Definition stops_current (root_display status : str) : bool :=
  let current := trim (default [] (head (lines status))) in
  negb (str_is_empty current) && starts_with root_display current.
Definition pruned_position (root_display line : str) : option N :=
  match split_once [32] line with
  | Some (pos, file) => if starts_with root_display file then parse_u32 pos else None
  | None => None
  end.
Definition pruned_positions (root_display playlist : str) : list N :=
  reverse (sort_by N.le (omap (pruned_position root_display) (lines playlist))).

(** ** Discovery *)

Record DiscoveredShare := { name : str; comment : option str }.
#[export] Instance DiscoveredShare_eq_dec : EqDecision DiscoveredShare.
Proof. solve_decision. Defined.
Record DiscoveredNas := {
  nas_name : str; ip : str; advertised_dialect : option str; shares : list DiscoveredShare; nas_fstype : str }.
#[export] Instance DiscoveredNas_eq_dec : EqDecision DiscoveredNas.
Proof. solve_decision. Defined.

(** [build_avahi_browse_args_for], [build_showmount_args], [build_smbclient_list_args] *)
Definition build_avahi_browse_args_for (service : str) : list str := [lit "-trkp"; service].
Definition build_showmount_args (ip : str) : list str := [lit "-e"; ip].
Definition build_smbclient_list_args (ip : str) : list str :=
  [lit "-N"; lit "-L"; ip; lit "-m"; lit "SMB3_11"; lit "--debuglevel=4"].

(** [filter_self_out]; the host name is what the kernel's file holds, when it can be read. *)
Definition filter_self_out (hostname_file : option str) (hits : list (str * str)) : list (str * str) :=
  let local :=
    match hostname_file with
    | Some s => let h := to_ascii_lowercase (trim s) in if str_is_empty h then None else Some h
    | None => None
    end in
  filter (fun hit =>
    ~ (hit.2 = lit "127.0.0.1" \/ hit.2 = lit "::1") /\ Some (to_ascii_lowercase hit.1) <> local) hits.

(** [parse_avahi_browse_output] *)
Definition avahi_hit (line : str) : option (str * str) :=
  if starts_with [61] line then
    let cols := split_char 59 line in
    match cols !! 3%nat, cols !! 7%nat with
    | Some n, Some a =>
        let name := trim n in
        let addr := trim a in
        if str_is_empty name || str_is_empty addr || existsb (N.eqb 58) addr then None else Some (name, addr)
    | _, _ => None
    end
  else None.
(** Collecting what is not yet there. *)
Definition push_new {A} (key : A -> str) (out : list A) (x : A) : list A :=
  if str_in (key x) (map key out) then out else out ++ [x].
Definition parse_avahi_browse_output (stdout : str) : list (str * str) :=
  foldl (push_new snd) [] (omap avahi_hit (lines stdout)).

(** [parse_smbclient_disk_lines] *)
Definition first_word (s : str) : str * str :=
  let n := take_while (fun c => negb (is_whitespace c)) s in
  (n, trim_start (drop (length n) s)).
Definition disk_line (trimmed : str) : option DiscoveredShare :=
  if starts_with [HYPHEN] trimmed then None
  else
    let '(name, rest) := first_word trimmed in
    let '(ty, rest) := first_word rest in
    let comment := if str_is_empty rest then None else Some (trim_end rest) in
    if str_is_empty name || negb (bool_decide (ty = lit "Disk")) then None
    else if ends_with [36] name then None
    else Some {| name := name;
                 comment := match comment with Some c => if str_is_empty c then None else Some c | None => None end |}.
Fixpoint disk_lines (in_share_list : bool) (ls : list str) : list DiscoveredShare :=
  match ls with
  | [] => []
  | line :: ls' =>
      let trimmed := trim_start line in
      if starts_with (lit "Sharename") trimmed then disk_lines true ls'
      else if in_share_list && str_is_empty trimmed then []
      else if negb in_share_list then disk_lines in_share_list ls'
      else option_list (disk_line trimmed) ++ disk_lines in_share_list ls'
  end.
Definition parse_smbclient_disk_lines (stdout : str) : list DiscoveredShare := disk_lines false (lines stdout).

(** [parse_smbclient_dialect] *)
Definition dialect_of (line : str) : option str :=
  match split_once (lit "negotiated dialect[") line with
  | Some (_, rest) =>
      match split_once (lit "]") rest with
      | Some (val, _) => if str_is_empty val then None else Some val
      | None => None
      end
  | None => None
  end.
Definition parse_smbclient_dialect (stderr : str) : option str := head (omap dialect_of (lines stderr)).

(** [parse_showmount_exports] *)
Definition export_line (line : str) : option DiscoveredShare :=
  let trimmed := trim line in
  if str_is_empty trimmed then None
  else
    let p := default [] (head (split_whitespace trimmed)) in
    if starts_with [SLASH] p then Some {| name := p; comment := None |} else None.
Definition parse_showmount_exports (stdout : str) : list DiscoveredShare :=
  foldl (push_new name) [] (omap export_line (lines stdout)).

(** ** Concrete inputs *)

Example prefix_of_share : mpd_relative_mount_prefix (lit "/var/lib/evo/music/NAS/a") = Some (lit "NAS/a").
Proof. reflexivity. Qed.
Example unit_of_share :
  systemd_mount_unit_name (lit "/var/lib/evo/music/NAS/a-b") = lit "var-lib-evo-music-NAS-a\x2db.mount".
Proof. reflexivity. Qed.
Example systemd_is_not_lazy : umount_flag_l_is_lazy (lit "/usr/bin/systemd-umount") = false.
Proof. reflexivity. Qed.

(** ** Lemmas *)

Lemma lit_app_cons c s t : lit (String c s) ++ t = Ascii.N_of_ascii c :: (lit s ++ t).
Proof. by rewrite lit_cons. Qed.

(** *** Unit names *)

(** The escaping of systemd read back: hyphens are separators, [\x] is a byte. *)
Definition unhex (c : char) : option N :=
  if in_range 48 57 c then Some (c - 48) else if in_range 97 102 c then Some (c - 87) else None.
Fixpoint unescape (s : str) : option (list N) :=
  match s with
  | [] => Some []
  | c :: s' =>
      if c =? HYPHEN then option_map (cons SLASH) (unescape s')
      else if c =? BACKSLASH then
        match s' with
        | x :: h :: l :: s'' =>
            match unhex h, unhex l with
            | Some h, Some l => if x =? 120 then option_map (cons (16 * h + l)) (unescape s'') else None
            | _, _ => None
            end
        | _ => None
        end
      else option_map (cons c) (unescape s')
  end.
Definition path_of_unit (unit : str) : option (list N) :=
  match strip_suffix (lit ".mount") unit with
  | Some s => option_map (cons SLASH) (unescape s)
  | None => None
  end.

Lemma unhex_digit n : n < 16 -> unhex (hex_digit n) = Some n.
Proof. intros Hn. do 16 (destruct n as [|n] using N.peano_ind; [reflexivity|clear IHn]). lia. Qed.

Lemma unescape_hex b s : b < 256 -> unescape (hex_escape b ++ s) = option_map (cons b) (unescape s).
Proof.
  intros Hb. cbn -[N.mul N.div N.modulo]. rewrite !unhex_digit.
  - by rewrite <-N.div_mod.
  - by apply N.mod_lt.
  - by apply N.Div0.div_lt_upper_bound.
Qed.

Lemma unescape_bytes bs s :
  Forall (fun b => b < 256) bs -> unescape (concat (map hex_escape bs) ++ s) = option_map (app bs) (unescape s).
Proof.
  induction 1 as [|b bs Hb _ IH]; cbn [map concat app]; [by destruct (unescape s)|].
  rewrite <-app_assoc, unescape_hex, IH by done. by destruct (unescape s).
Qed.

Lemma unescape_unit_char c s :
  scalar c -> unescape (unit_char c ++ s) = option_map (app (encode_utf8 c)) (unescape s).
Proof.
  intros Hc. unfold unit_char. destruct (N.eqb_spec c SLASH) as [->|H1].
  { cbn. by destruct (unescape s). }
  destruct ((c =? HYPHEN) || (c =? BACKSLASH)) eqn:H2.
  { rewrite unescape_hex; [by apply orb_true_iff in H2 as [->%N.eqb_eq| ->%N.eqb_eq]; cbn; destruct (unescape s)|].
    by apply orb_true_iff in H2 as [->%N.eqb_eq| ->%N.eqb_eq]. }
  apply orb_false_iff in H2 as [H2 H3].
  destruct (_ || _ || _ || _) eqn:H4.
  { cbn [app unescape]. rewrite H2, H3. unfold encode_utf8. rewrite (proj2 (N.ltb_lt c 128)).
    - by destruct (unescape s).
    - clear -H4. unfold is_ascii_alphanumeric, is_ascii_digit, is_ascii_upper, is_ascii_lower, in_range in H4.
      rewrite !orb_true_iff, !andb_true_iff, !N.leb_le, !N.eqb_eq in H4. unfold UNDERSCORE in *. lia. }
  destruct (N.ltb_spec c 128) as [H5|H5].
  - rewrite unescape_hex by lia. unfold encode_utf8. rewrite (proj2 (N.ltb_lt c 128)) by done. by destruct (unescape s).
  - apply unescape_bytes, Forall_forall. intros b. by apply encode_utf8_byte.
Qed.

Lemma unescape_units s : Forall scalar s -> unescape (concat (map unit_char s)) = Some (as_bytes s).
Proof.
  induction 1 as [|c s Hc _ IH]; [done|]. cbn [map concat]. by rewrite unescape_unit_char, IH.
Qed.

Lemma strip_suffix_app suf s : strip_suffix suf (s ++ suf) = Some s.
Proof. unfold strip_suffix. by rewrite rev_app_distr, strip_prefix_app, rev_involutive. Qed.

(** The name of the unit is the path: systemd's escaping read back gives the mount point
    that was escaped, so two mount points never share a unit. *)
Theorem unit_name_roundtrip p :
  p <> [] -> Forall scalar p -> path_of_unit (systemd_mount_unit_name (SLASH :: p)) = Some (as_bytes (SLASH :: p)).
Proof.
  intros Hne Hp. unfold systemd_mount_unit_name. cbn [strip_prefix]. rewrite N.eqb_refl. cbn [default].
  rewrite str_is_empty_false by done. unfold path_of_unit. rewrite strip_suffix_app. by rewrite unescape_units.
Qed.

Lemma unit_name_roundtrip_witness :
  path_of_unit (systemd_mount_unit_name (lit "/var/lib/evo/music/NAS/a-b")) =
    Some (as_bytes (lit "/var/lib/evo/music/NAS/a-b")).
Proof.
  apply (unit_name_roundtrip (lit "var/lib/evo/music/NAS/a-b")); [done|]. by apply (bool_decide_unpack _).
Defined.

(** *** Mount points *)

(** The characters of the last segment of a mount point. *)
Definition safe_char (c : char) : Prop := is_ascii_alphanumeric c = true \/ c = HYPHEN \/ c = UNDERSCORE.

Lemma segment_char_safe c : safe_char (segment_char c).
Proof.
  unfold segment_char. destruct (is_ascii_alphanumeric c || (c =? HYPHEN) || (c =? UNDERSCORE)) eqn:H; [|by right; right].
  rewrite !orb_true_iff, !N.eqb_eq in H. unfold safe_char. tauto.
Qed.

Lemma drop_while_incl p s c : c ∈ drop_while p s -> c ∈ s.
Proof. destruct (drop_while_suffix p s) as (pre & Heq & _). intros Hc. rewrite Heq. set_solver. Qed.

Lemma trim_underscores_incl s c : c ∈ trim_underscores s -> c ∈ s.
Proof.
  unfold trim_underscores. rewrite list_elem_of_In, <-in_rev, <-list_elem_of_In. intros H%drop_while_incl.
  rewrite list_elem_of_In, <-in_rev, <-list_elem_of_In in H. by apply drop_while_incl in H.
Qed.

(** Whatever the alias, the share is mounted in a directory of its own right under the
    root for shares: one segment of letters, digits, hyphens and underscores. *)
Theorem default_mount_root_safe alias :
  exists segment, default_mount_root alias = NAS_MOUNT_ROOT ++ SLASH :: segment /\ segment <> [] /\
    forall c, c ∈ segment -> safe_char c.
Proof.
  unfold default_mount_root. set (t := trim_underscores _).
  assert (Ht : forall c, c ∈ t -> safe_char c).
  { intros c Hc%trim_underscores_incl. apply list_elem_of_fmap in Hc as (d & -> & _). apply segment_char_safe. }
  exists (if str_is_empty t then lit "share" else t).
  destruct (str_is_empty t) eqn:He; (split; [|split]); try done.
  - intros c Hc. repeat (apply elem_of_cons in Hc as [->|Hc]; [by left|]). by apply elem_of_nil in Hc.
  - unfold join. destruct t as [|c t']; [done|]. unfold starts_with. cbn [strip_prefix].
    destruct (N.eqb_spec SLASH c) as [<-|_]; [|reflexivity].
    by destruct (Ht SLASH (list_elem_of_here _ _)) as [?|[?|?]].
  - by destruct t.
Qed.

(** Bug: two aliases can have one mount point. *)
Theorem mount_points_collide : default_mount_root (lit "My Music") = default_mount_root (lit "My_Music").
Proof. reflexivity. Qed.

(** *** The credentials file *)

Definition domain_line (domain : option str) : list str :=
  match domain with Some d => if str_is_empty d then [] else [lit "domain=" ++ d] | None => [] end.
Definition domain_text (domain : option str) : str := default [] domain.

Lemma lit_without c s t : c ∉ lit s -> c ∉ t -> c ∉ lit s ++ t.
Proof. set_solver. Qed.

(** The lines of the file that [mount.cifs] reads are the name, the password and, when
    there is one, the domain, provided none of them has a line feed. *)
Theorem credentials_file_correct username password domain :
  LF ∉ username -> LF ∉ password -> LF ∉ domain_text domain ->
  split_char LF (compose_cifs_credentials_file username password domain) =
    [lit "username=" ++ username; lit "password=" ++ password] ++ domain_line domain ++ [[]].
Proof.
  intros Hu Hp Hd. unfold compose_cifs_credentials_file. rewrite <-!app_assoc. cbn [app].
  rewrite (app_assoc (lit "username=")), split_char_piece by (apply lit_without; [by apply (bool_decide_unpack _)|done]).
  rewrite (app_assoc (lit "password=")), split_char_piece by (apply lit_without; [by apply (bool_decide_unpack _)|done]).
  destruct domain as [d|]; [|done]. cbn in Hd |- *. destruct d as [|c d]; [done|]. cbn [str_is_empty].
  rewrite app_assoc, split_char_piece; [done|].
  apply lit_without; [by apply (bool_decide_unpack _)|done].
Qed.

(** Bug: a line feed in a name is a line of its own in the file, here another password. *)
Theorem line_feed_in_name_adds_a_line :
  split_char LF (compose_cifs_credentials_file (lit "bob" ++ LF :: lit "domain=evil") (lit "secret") None) =
    [lit "username=bob"; lit "domain=evil"; lit "password=secret"; []].
Proof. reflexivity. Qed.

(** *** Options *)

(** Divergence: a version that the operator wrote in the options is not looked at: the
    ladder's version is in front of it, and there is one attempt per version. *)
Theorem written_version_is_second (r : ShareRecord) dialect :
  credentials r = Guest -> advanced_options r = lit "vers=1.0" ->
  cifs_options r dialect None =
    [lit "vers=" ++ dialect; lit "ro"; lit "noauto"; lit "iocharset=utf8"; lit "guest"; lit "vers=1.0"].
Proof. intros Hc Ha. unfold cifs_options, operator_options. by rewrite Hc, Ha. Qed.

(** Bug: a host that begins with a hyphen makes the source of an NFS mount an option. *)
Theorem nfs_host_becomes_option r :
  host r = lit "--property=Foo" -> path r = lit "/x" ->
  build_nfs_mount_args r !! 3%nat = Some (lit "--property=Foo:/x").
Proof. intros Hh Hp. unfold build_nfs_mount_args. by rewrite Hh, Hp. Qed.

(** *** Vault keys *)

(** An accepted key has no separator, so it names something directly in the vault. *)
Theorem validate_key_no_separator key : validate_key key = Ok tt -> key <> [] /\ SLASH ∉ key /\ str_len key <= 128.
Proof.
  unfold validate_key. destruct (str_is_empty key) eqn:He; [done|]. destruct (N.ltb_spec 128 (str_len key)); [done|].
  destruct (first_disallowed key) eqn:Hf; [done|]. intros _. split_and!; [by destruct key|clear He H|done].
  induction key as [|c key IH]; [by intros ?%elem_of_nil|]. cbn in Hf.
  destruct (is_ascii_alphanumeric c || (c =? 46) || (c =? UNDERSCORE) || (c =? HYPHEN)) eqn:Hc; [|done].
  apply not_elem_of_cons. split; [|by apply IH]. by intros <-.
Qed.

(** Divergence: the directory above the vault is an accepted key. *)
Theorem parent_is_a_key : validate_key (lit "..") = Ok tt.
Proof. reflexivity. Qed.

(** *** The mount table *)

(** A mount, as the kernel lists it. *)
Record Mount := { source : str; target : str; type : str; options : list str }.
Definition mount_line (m : Mount) : str :=
  source m ++ 32 :: target m ++ 32 :: type m ++ 32 :: joined (lit ",") (options m) ++ 32 :: lit "0 0".
Definition mount_table (ms : list Mount) : str := concat (map (fun m => mount_line m ++ [LF]) ms).

(** The kernel escapes white space, and the options are separated by commas. *)
Definition option_ok (o : str) : Prop := word o /\ 44 ∉ o.
Definition mount_ok (m : Mount) : Prop :=
  word (source m) /\ word (target m) /\ word (type m) /\ options m <> [] /\ Forall option_ok (options m).

Lemma word_app s t : word s -> word t -> word (s ++ t).
Proof. intros [Hs1 Hs2] [Ht1 Ht2]. split; [by destruct s|]. by apply Forall_app. Qed.

Lemma word_joined l : l <> [] -> Forall option_ok l -> word (joined (lit ",") l).
Proof.
  intros Hne Hl. induction Hl as [|o l [Ho _] Hl IH]; [done|]. destruct l as [|o' l]; [done|].
  change (joined (lit ",") (o :: o' :: l)) with (o ++ lit "," ++ joined (lit ",") (o' :: l)).
  apply word_app; [done|]. apply word_app; [|by apply IH]. split; [done|]. by repeat constructor.
Qed.

Lemma split_joined l : l <> [] -> Forall option_ok l -> split_char 44 (joined (lit ",") l) = l.
Proof.
  intros Hne Hl. induction Hl as [|o l [_ Ho] Hl IH]; [done|]. destruct l as [|o' l].
  { by apply split_char_last. }
  change (joined (lit ",") (o :: o' :: l)) with (o ++ 44 :: joined (lit ",") (o' :: l)).
  rewrite split_char_piece by done. f_equal. by apply IH.
Qed.

Lemma mount_line_words m : mount_ok m ->
  split_whitespace (mount_line m) = [source m; target m; type m; joined (lit ",") (options m); lit "0"; lit "0"].
Proof.
  intros (Hs & Ht & Hy & Hne & Ho). unfold mount_line.
  repeat (rewrite words_cons; [|first [done|by apply word_joined]|done]). reflexivity.
Qed.

Lemma word_no_lf w : word w -> LF ∉ w.
Proof. intros [_ Hw] Hin. rewrite Forall_forall in Hw. by specialize (Hw _ Hin). Qed.

Lemma lines_table ms : Forall mount_ok ms -> lines (mount_table ms) = map mount_line ms.
Proof.
  intros Hms. unfold mount_table.
  rewrite <-(app_nil_r (concat _)), <-(map_map mount_line (fun l => l ++ [LF])), lines_concat; [by rewrite app_nil_r|].
  apply Forall_forall. intros l (m & -> & Hm)%list_elem_of_fmap. rewrite Forall_forall in Hms.
  destruct (Hms m Hm) as (Hs & Ht & Hy & Hne & Ho). split.
  - unfold mount_line. pose proof (word_no_lf _ (word_joined _ Hne Ho)).
    repeat (apply not_elem_of_app; split; [first [done|by apply word_no_lf]|apply not_elem_of_cons; split; [done|]]).
    by apply (bool_decide_unpack _).
  - unfold mount_line. rewrite !(app_comm_cons _ _ 32), !app_assoc.
    change (lit "0 0") with ([48; 32] ++ [48]). by rewrite app_comm_cons, app_assoc, last_snoc.
Qed.

(** Whether a share is mounted is whether the table has its mount point. *)
Theorem is_path_mounted_correct ms root : Forall mount_ok ms ->
  is_path_mounted_in_proc_mounts (mount_table ms) root = true <-> exists m, m ∈ ms /\ target m = root.
Proof.
  intros Hms. unfold is_path_mounted_in_proc_mounts. rewrite lines_table by done.
  rewrite existsb_exists. setoid_rewrite <-list_elem_of_In. rewrite Forall_forall in Hms. split.
  - intros (l & (m & -> & Hm)%list_elem_of_fmap & Hl). rewrite mount_line_words in Hl by by apply Hms.
    apply bool_decide_eq_true in Hl. by exists m.
  - intros (m & Hm & Ht). exists (mount_line m). split; [by apply list_elem_of_fmap_2|].
    rewrite mount_line_words by by apply Hms. by apply bool_decide_eq_true.
Qed.

(** The version is that of the first mount there, of a type of the share's, that has one. *)
Definition version_of (types prefixes : list str) (root : str) (m : Mount) : option str :=
  if decide (target m = root /\ type m ∈ types) then first_prefixed prefixes (options m) else None.

Theorem version_correct types prefixes root ms : Forall mount_ok ms ->
  version_in types prefixes root (lines (mount_table ms)) = head (omap (version_of types prefixes root) ms).
Proof.
  intros Hms. rewrite lines_table by done. induction Hms as [|m ms Hm _ IH]; [done|]. cbn [map version_in].
  rewrite mount_line_words by done. destruct Hm as (_ & _ & _ & Hne & Ho). rewrite split_joined by done.
  rewrite omap_cons_app. unfold version_of at 1. unfold str_in.
  destruct (decide (target m = root /\ type m ∈ types)) as [[H1 H2]|H].
  - rewrite (bool_decide_eq_true_2 (_ = _)), (bool_decide_eq_true_2 (_ ∈ _)) by done. cbn [andb].
    destruct (first_prefixed prefixes (options m)); [done|]. by rewrite IH.
  - replace (bool_decide (target m = root) && bool_decide (type m ∈ types)) with false; [by rewrite IH|].
    symmetry. rewrite andb_false_iff, !bool_decide_eq_false. destruct (decide (target m = root)); tauto.
Qed.

Definition demo_mounts : list Mount :=
  [{| source := lit "/dev/root"; target := lit "/"; type := lit "ext4"; options := [lit "rw"] |};
   {| source := lit "//nas/music"; target := lit "/var/lib/evo/music/NAS/a"; type := lit "cifs";
      options := [lit "ro"; lit "vers=3.0"] |}].
Lemma demo_mounts_ok : Forall mount_ok demo_mounts.
Proof.
  repeat constructor; try done; try (by apply (bool_decide_unpack _)).
Qed.
Lemma version_correct_witness :
  version_in [lit "cifs"] [lit "vers="] (lit "/var/lib/evo/music/NAS/a") (lines (mount_table demo_mounts)) =
    Some (lit "3.0").
Proof. by rewrite (version_correct _ _ _ demo_mounts demo_mounts_ok). Defined.
Lemma is_path_mounted_witness :
  is_path_mounted_in_proc_mounts (mount_table demo_mounts) (lit "/var/lib/evo/music/NAS/b") <> true.
Proof.
  rewrite (is_path_mounted_correct demo_mounts (lit "/var/lib/evo/music/NAS/b") demo_mounts_ok).
  intros (m & Hm & Ht). apply elem_of_cons in Hm as [->|Hm]; [discriminate Ht|].
  apply list_elem_of_singleton in Hm as ->. discriminate Ht.
Defined.

(** *** Pruning the player's queue *)

(** What [mpc] prints of a queue, with positions from [k]. *)
Fixpoint mpc_playlist (k : N) (files : list str) : list str :=
  match files with
  | [] => []
  | f :: files' => (dec k ++ 32 :: f) :: mpc_playlist (k + 1) files'
  end.
Definition mpc_text (files : list str) : str := concat (map (fun l => l ++ [LF]) (mpc_playlist 1 files)).
Fixpoint held_from (prefix : str) (k : N) (files : list str) : list N :=
  match files with
  | [] => []
  | f :: files' => (if starts_with prefix f then [k] else []) ++ held_from prefix (k + 1) files'
  end.
Definition file_ok (f : str) : Prop := LF ∉ f /\ last f <> Some CR.

Lemma mpc_playlist_ok k files : Forall file_ok files -> Forall file_ok (mpc_playlist k files).
Proof.
  intros Hf. revert k. induction Hf as [|f files [H1 H2] _ IH]; intros k; constructor; [|apply IH]. split.
  - apply not_elem_of_app. split; [by apply dec_not_elem|]. by apply not_elem_of_cons.
  - rewrite last_app, last_cons. by destruct (last f).
Qed.

Lemma pruned_line prefix k f : k <= U32_MAX ->
  pruned_position prefix (dec k ++ 32 :: f) = if starts_with prefix f then Some k else None.
Proof.
  intros Hk. unfold pruned_position. rewrite split_once_char_intro by by apply dec_not_elem.
  unfold parse_u32. by rewrite parse_uint_dec.
Qed.

Lemma pruned_lines prefix k files : k + N.of_nat (length files) <= U32_MAX ->
  omap (pruned_position prefix) (mpc_playlist k files) = held_from prefix k files.
Proof.
  revert k. induction files as [|f files IH]; intros k Hk; [done|]. cbn [mpc_playlist held_from length] in *.
  rewrite omap_cons_app, pruned_line, IH by lia. by destruct (starts_with prefix f).
Qed.

Lemma held_from_ge prefix k files n : n ∈ held_from prefix k files -> k <= n.
Proof.
  revert k. induction files as [|f files IH]; intros k; [by intros ?%elem_of_nil|]. cbn.
  intros [H|H%IH]%elem_of_app; [|lia]. destruct (starts_with prefix f); set_solver.
Qed.

Lemma held_from_sorted prefix k files : Sorted N.le (held_from prefix k files).
Proof.
  revert k. induction files as [|f files IH]; intros k; [constructor|]. cbn.
  destruct (starts_with prefix f); [|apply IH]. cbn. constructor; [apply IH|].
  destruct (held_from prefix (k + 1) files) as [|n l] eqn:Hh; constructor.
  specialize (held_from_ge prefix (k + 1) files n). rewrite Hh. set_unfold. intros H. specialize (H (or_introl eq_refl)). lia.
Qed.

Lemma held_from_snoc prefix k files f :
  held_from prefix k (files ++ [f]) =
  held_from prefix k files ++ (if starts_with prefix f then [k + N.of_nat (length files)] else []).
Proof.
  revert k. induction files as [|g files IH]; intros k; cbn [app held_from length].
  - rewrite N.add_0_r. by rewrite app_nil_r.
  - rewrite IH, <-app_assoc. repeat f_equal. destruct (starts_with prefix f); [|done]. f_equal. lia.
Qed.

(** Deleting a position of the queue; [mpc] counts from 1. *)
Definition mpc_del (files : list str) (pos : N) : list str := delete (N.to_nat (pos - 1)) files.

Lemma delete_held prefix files rest :
  foldl mpc_del (files ++ rest) (reverse (held_from prefix 1 files)) =
  filter (fun f => starts_with prefix f = false) files ++ rest.
Proof.
  revert rest. induction files as [|f files IH] using rev_ind; intros rest; [done|].
  rewrite held_from_snoc, filter_app, reverse_app. destruct (starts_with prefix f) eqn:Hf.
  - cbn [reverse rev_append app foldl]. unfold mpc_del at 2.
    replace (N.to_nat (1 + N.of_nat (length files) - 1)) with (length files) by lia.
    rewrite <-app_assoc. cbn [app]. rewrite delete_middle, IH. rewrite filter_cons_False; [|congruence].
    by rewrite <-app_assoc.
  - cbn [reverse rev_append app]. rewrite <-!app_assoc. rewrite IH. by rewrite filter_cons_True.
Qed.

(** Deleting the positions that were read, in that order, removes the files that begin
    with the prefix and no other. *)
Theorem prune_correct prefix files :
  Forall file_ok files -> 1 + N.of_nat (length files) <= U32_MAX ->
  foldl mpc_del files (pruned_positions prefix (mpc_text files)) = filter (fun f => starts_with prefix f = false) files.
Proof.
  intros Hf Hlen. unfold pruned_positions, mpc_text.
  rewrite <-(app_nil_r (concat _)), lines_concat by by apply mpc_playlist_ok.
  rewrite app_nil_r, pruned_lines, sort_by_id by (done || apply held_from_sorted).
  pose proof (delete_held prefix files []) as H. by rewrite !app_nil_r in H.
Qed.

Lemma prune_correct_witness :
  foldl mpc_del [lit "NAS/a/x"; lit "USB/y"; lit "NAS/a/z"]
    (pruned_positions (lit "NAS/a") (mpc_text [lit "NAS/a/x"; lit "USB/y"; lit "NAS/a/z"])) = [lit "USB/y"].
Proof.
  rewrite (prune_correct (lit "NAS/a") [lit "NAS/a/x"; lit "USB/y"; lit "NAS/a/z"]); [done| |done].
  repeat constructor; try done; by apply (bool_decide_unpack _).
Defined.

(** Bug: the prefix is compared as text, so the files of a share whose name begins with
    the name of the share that goes away are pruned, and stopped, as well. *)
Theorem sibling_share_is_pruned :
  mpd_relative_mount_prefix (lit "/var/lib/evo/music/NAS/Music") = Some (lit "NAS/Music") /\
  pruned_positions (lit "NAS/Music") (mpc_text [lit "NAS/Music2/x.flac"]) = [1] /\
  stops_current (lit "NAS/Music") (lit "NAS/Music2/x.flac") = true.
Proof. split_and!; reflexivity. Qed.

(** *** Discovery *)

Section push_new.
Context {A : Type} (key : A -> str).

Lemma push_new_keys out l :
  NoDup (map key out) -> NoDup (map key (foldl (push_new key) out l)).
Proof.
  revert out. induction l as [|x l IH]; intros out Ho; [done|]. apply IH. unfold push_new.
  destruct (str_in (key x) (map key out)) eqn:Hx; [done|]. rewrite map_app. apply NoDup_app. split_and!; [done| |].
  - intros k Hk ->%list_elem_of_singleton. apply str_in_spec in Hk. congruence.
  - apply NoDup_singleton.
Qed.

(** Of each key, the first element with it is kept. *)
Definition first_with (k : str) (l : list A) : option A := find (fun x => bool_decide (key x = k)) l.

Lemma first_with_app k l1 l2 :
  first_with k (l1 ++ l2) = match first_with k l1 with Some x => Some x | None => first_with k l2 end.
Proof. unfold first_with. induction l1 as [|x l1 IH]; cbn; [done|]. by destruct (bool_decide _). Qed.

Lemma first_with_known k l x : x ∈ l -> key x = k -> first_with k l <> None.
Proof.
  intros Hx Hk Hn. unfold first_with in Hn. apply list_elem_of_In in Hx. pose proof (find_none _ _ Hn x Hx) as H.
  cbn in H. by apply bool_decide_eq_false in H.
Qed.

Lemma push_new_first out l k : first_with k (foldl (push_new key) out l) = first_with k (out ++ l).
Proof.
  revert out. induction l as [|x l IH]; intros out; [by rewrite app_nil_r|]. cbn [foldl]. rewrite IH. unfold push_new.
  destruct (str_in (key x) (map key out)) eqn:Hx; [|by rewrite <-app_assoc].
  apply str_in_spec, list_elem_of_fmap in Hx as (y & Hy & Hin). rewrite !first_with_app.
  destruct (first_with k out) eqn:Hf; [done|]. unfold first_with. cbn. rewrite bool_decide_eq_false_2; [done|].
  intros Hk. by apply (first_with_known k out y) in Hf; [|done|congruence].
Qed.

Lemma push_new_incl out l x : x ∈ foldl (push_new key) out l -> x ∈ out \/ x ∈ l.
Proof.
  revert out. induction l as [|y l IH]; intros out H; [by left|]. apply IH in H as [H|H]; [|by right; right].
  unfold push_new in H. case_match; [by left|]. set_solver.
Qed.
End push_new.

(** The hosts of a discovery: one per address, under the name that came first with it,
    and only resolved IPv4 hosts. *)
Theorem parse_avahi_correct stdout :
  let hits := omap avahi_hit (lines stdout) in
  NoDup (map snd (parse_avahi_browse_output stdout)) /\
  (forall a, first_with snd a (parse_avahi_browse_output stdout) = first_with snd a hits) /\
  forall n a, (n, a) ∈ parse_avahi_browse_output stdout -> n <> [] /\ a <> [] /\ 58 ∉ a.
Proof.
  cbn zeta. unfold parse_avahi_browse_output. set (hits := omap avahi_hit (lines stdout)). split_and!.
  - apply (push_new_keys snd []). constructor.
  - intros a. by rewrite push_new_first.
  - intros n a Hna. apply push_new_incl in Hna as [Hna|Hna]; [by apply elem_of_nil in Hna|]. revert n a Hna.
    intros n' a' (line & _ & Hh)%list_elem_of_omap. unfold avahi_hit in Hh. cbn zeta in Hh.
    destruct (starts_with [61] line); [|done].
    destruct (split_char 59 line !! 3%nat) as [n0|]; [|done]. destruct (split_char 59 line !! 7%nat) as [a0|]; [|done].
    destruct (str_is_empty (trim n0) || str_is_empty (trim a0) || existsb (N.eqb 58) (trim a0)) eqn:Hc; [done|].
    injection Hh as <- <-. rewrite !orb_false_iff in Hc. destruct Hc as [[H1 H2] H3]. split_and!.
    + by destruct (trim n0).
    + by destruct (trim a0).
    + intros Hin58. apply not_true_iff_false in H3. apply H3, existsb_exists. exists 58. by rewrite <-list_elem_of_In.
Qed.

(** The listing of a server, as [smbclient] prints it. *)
Record Listed := { l_name : str; l_type : str; l_comment : str }.
Definition listed_line (s : Listed) : str :=
  TAB :: l_name s ++ 32 :: l_type s ++ 32 :: l_comment s.
Definition HEADER : str := TAB :: lit "Sharename Type Comment".
Definition DASHES : str := TAB :: lit "--------- ---- -------".
Definition smb_listing (before : list str) (l : list Listed) (after : list str) : str :=
  concat (map (fun x => x ++ [LF]) (before ++ HEADER :: DASHES :: map listed_line l ++ [] :: after)).

(** A name and a type are words; a name is neither a rule nor the header; a comment, when
    there is one, begins and ends with something. *)
Definition listed_ok (s : Listed) : Prop :=
  word (l_name s) /\ word (l_type s) /\ starts_with [HYPHEN] (l_name s) = false /\
  starts_with (lit "Sharename") (l_name s) = false /\ LF ∉ l_comment s /\ (l_comment s = [] \/ tidy (l_comment s)).
(** What the operator is offered of the listing. *)
Definition offered (s : Listed) : option DiscoveredShare :=
  if decide (l_type s = lit "Disk" /\ ends_with [36] (l_name s) = false)
  then Some {| name := l_name s; comment := if decide (l_comment s = []) then None else Some (l_comment s) |}
  else None.

Lemma take_word w c s : word w -> is_whitespace c = true -> first_word (w ++ c :: s) = (w, trim_start s).
Proof.
  intros [_ Hw] Hc. unfold first_word.
  assert (Ht : take_while (fun c => negb (is_whitespace c)) (w ++ c :: s) = w).
  { induction Hw as [|d w Hd _ IH]; cbn; [by rewrite Hc|]. rewrite Hd. cbn. by rewrite IH. }
  rewrite Ht, drop_app_length. unfold trim_start. cbn [drop_while]. by rewrite Hc.
Qed.

Lemma trim_start_word w s : word w -> trim_start (w ++ s) = w ++ s.
Proof. intros [Hne Hw]. destruct Hw as [|c w Hc _]; [done|]. unfold trim_start. cbn. by rewrite Hc. Qed.

Lemma trim_start_tidy s : s = [] \/ tidy s -> trim_start s = s.
Proof.
  intros [->|(Hne & Hh & _)]; [done|]. destruct s as [|c s]; [done|]. unfold trim_start. cbn. by rewrite (Hh c).
Qed.

Lemma trim_end_tidy s : tidy s -> trim_end s = s.
Proof.
  intros Ht. pose proof (trim_tidy s Ht) as H. unfold trim in H. by rewrite trim_start_tidy in H by (by right).
Qed.

Lemma starts_with_app_false p w c s :
  starts_with p w = false -> word w -> c ∉ p -> starts_with p (w ++ c :: s) = false.
Proof.
  intros Hp _ Hc. destruct (starts_with p (w ++ c :: s)) eqn:H; [|done].
  apply starts_with_spec in H as [r Hr]. apply not_true_iff_false in Hp. exfalso. apply Hp, starts_with_spec.
  revert w Hr Hp. induction p as [|x p IH]; intros w Hr Hp; [by exists w|].
  apply not_elem_of_cons in Hc as [Hx Hc]. destruct w as [|y w]; cbn in Hr; injection Hr as Hxy Hr; [congruence|].
  subst y. destruct (IH Hc w Hr) as [r' Hr']; [|by exists r'; rewrite Hr'].
  intros Hw. apply Hp. apply starts_with_spec in Hw as [r' ->]. apply starts_with_spec. by exists r'.
Qed.

Lemma disk_line_correct s : listed_ok s -> disk_line (l_name s ++ 32 :: l_type s ++ 32 :: l_comment s) = offered s.
Proof.
  intros (Hn & Ht & Hh & _ & _ & Hc). unfold disk_line.
  rewrite starts_with_app_false by (done || by apply (bool_decide_unpack _)).
  rewrite take_word, trim_start_word by done. rewrite take_word, trim_start_tidy by done.
  rewrite str_is_empty_false by apply Hn. cbn [orb]. unfold offered.
  destruct (bool_decide (l_type s = lit "Disk")) eqn:Hd; cbn [negb].
  - apply bool_decide_eq_true in Hd. destruct (ends_with [36] (l_name s)) eqn:He.
    + by rewrite decide_False by (intros [_ ?]; congruence).
    + rewrite decide_True by done. do 2 f_equal. destruct Hc as [->|Hc]; [done|].
      destruct (l_comment s) as [|c r] eqn:Hs; [by destruct Hc|]. cbn [str_is_empty].
      rewrite trim_end_tidy by done. by rewrite decide_False.
  - apply bool_decide_eq_false in Hd. by rewrite decide_False by (intros [? _]; congruence).
Qed.

Lemma listed_start s : listed_ok s -> trim_start (listed_line s) = l_name s ++ 32 :: l_type s ++ 32 :: l_comment s.
Proof. intros (Hn & _). by rewrite <-trim_start_word. Qed.

Lemma disk_lines_listing l after : Forall listed_ok l ->
  disk_lines true (map listed_line l ++ [] :: after) = omap offered l.
Proof.
  induction 1 as [|s l Hs _ IH]; [done|]. cbn [map app disk_lines]. rewrite listed_start by done.
  rewrite starts_with_app_false; [|apply Hs|apply Hs|by apply (bool_decide_unpack _)].
  rewrite str_is_empty_false by by destruct (l_name s). cbn [andb negb].
  by rewrite disk_line_correct, IH, omap_cons_app by done.
Qed.

(** The shares of a listing are its disks, but for the hidden ones, with their comments,
    in order; what stands before the header and after the blank line is not read. *)
Theorem smbclient_listing_correct before l after :
  Forall (fun x => LF ∉ x /\ last x <> Some CR /\ starts_with (lit "Sharename") (trim_start x) = false) before ->
  Forall (fun x => LF ∉ x /\ last x <> Some CR) after -> Forall listed_ok l ->
  parse_smbclient_disk_lines (smb_listing before l after) = omap offered l.
Proof.
  intros Hb Ha Hl. unfold parse_smbclient_disk_lines, smb_listing. rewrite <-(app_nil_r (concat _)), lines_concat.
  - rewrite app_nil_r. induction Hb as [|x before (_ & _ & Hx) _ IH]; cbn [app disk_lines]; [|by rewrite Hx].
    change (starts_with (lit "Sharename") (trim_start HEADER)) with true. cbn [disk_lines].
    change (starts_with (lit "Sharename") (trim_start DASHES)) with false.
    change (str_is_empty (trim_start DASHES)) with false. change (disk_line (trim_start DASHES)) with (@None DiscoveredShare).
    cbn [andb negb option_list app]. by apply disk_lines_listing.
  - apply Forall_app. split; [eapply Forall_impl; [exact Hb|]; by intros x (? & ? & _)|].
    repeat (constructor; [by split; [apply (bool_decide_unpack _)|]|]). apply Forall_app. split.
    + apply Forall_forall. intros x (s & -> & Hs)%list_elem_of_fmap. rewrite Forall_forall in Hl.
      destruct (Hl s Hs) as (Hn & Ht & _ & _ & Hlf & Hc). pose proof (word_no_lf _ Hn). pose proof (word_no_lf _ Ht).
      unfold listed_line. split; [set_solver|]. rewrite !last_cons, !last_app, !last_cons, !last_app, !last_cons.
      destruct Hc as [->|(Hne & _ & Hlast)]; [done|]. destruct (last (l_comment s)) as [c|] eqn:Hc; [|done].
      intros [= ->]. by specialize (Hlast _ eq_refl).
    + constructor; [split; [apply not_elem_of_nil|done]|]. done.
Qed.
