(* ===== verification/Shares.v ===== *)
(** * Network shares: the runtime
    ([plugins/org.evoframework.network.shares/src/runtime.rs], [NetworkSharesRuntime])

    The store of shares, the state of each, the ring of events, and the operations on
    them: adding, editing, removing, mounting with the ladder of SMB dialects,
    unmounting, reconciling with the mount table, the passes that mount again, discovery,
    and the verbs.  What is outside (commands, the mount table, the vault, files, the
    clock, the player) is the interface [Outside].  An operation runs as a whole; what
    another task does in the middle of one is in the theorem [late_failure_makes_a_ghost]
    only. *)

From S2P Require Import Prelude Paths SharesText.
Local Open Scope N_scope.

(** ** Data *)

(** [MountState], [FailureClass] *)
Inductive MountState := Unmounted | Mounting | Mounted | Failed.
#[export] Instance MountState_eq_dec : EqDecision MountState.
Proof. solve_decision. Defined.
Inductive FailureClass := Transient | Permanent | Unreachable.
#[export] Instance FailureClass_eq_dec : EqDecision FailureClass.
Proof. solve_decision. Defined.

(** [SharesStateError], [MountError] *)
Inductive SharesStateError :=
| Io (e : str)
| ParseToml (e : str)
| RenderToml (e : str)
| UnsupportedSchema (found supported : N)
| NoSuchShare (id : ShareId)
| BlankAlias
| BlankHost
| BlankPath
| DuplicateShareId (id : ShareId).
Inductive MountError :=
| HostUnreachable (host : str) (port : N)
| ShareNotFound (id : ShareId)
| Persistence (e : SharesStateError)
| CredentialMissing (key : str)
| CredentialStoreUnavailable
| MountDirectoryMissing (id : ShareId) (root reason : str)
| CredentialStoreWriteFailed (key reason : str)
| SubprocessIo (e : str)
| Timeout (id : ShareId) (timeout_ms : N)
| DialectProbeExhausted (attempted : list str) (last_error : str)
| Busy (id : ShareId) (holders : list str)
| AuthenticationRefused (id : ShareId) (exit_code : option Z) (stderr : str)
| MountFailed (id : ShareId) (exit_code : option Z) (stderr : str).

(** [MountError::failure_class] *)
Definition failure_class (e : MountError) : FailureClass :=
  match e with
  | AuthenticationRefused _ _ _ | CredentialMissing _ | CredentialStoreUnavailable => Permanent
  | ShareNotFound _ => Permanent
  | HostUnreachable _ _ => Unreachable
  | DialectProbeExhausted _ _ | Timeout _ _ | SubprocessIo _ | Busy _ _ | MountFailed _ _ _ => Transient
  | MountDirectoryMissing _ _ _ | CredentialStoreWriteFailed _ _ | Persistence _ => Transient
  end.

(** [CommandOutput], with its bytes as text, and [MountReport] *)
Record CommandOutput := { exit_code : option Z; stdout : str; stderr : str }.
Record MountReport := {
  report_share : ShareId; report_root : str; negotiated_version : option str; elapsed_ms : N }.

(** [NetworkSharesState] *)
Definition NETWORK_SHARES_SCHEMA_VERSION : N := 1.
Record NetworkSharesState := { schema_version : N; shares : list ShareRecord }.
Definition empty_state : NetworkSharesState :=
  {| schema_version := NETWORK_SHARES_SCHEMA_VERSION; shares := [] |}.
Definition with_shares (l : list ShareRecord) (st : NetworkSharesState) : NetworkSharesState :=
  {| schema_version := schema_version st; shares := l |}.

(** [NetworkSharesState::load]: of the text of the file, as the TOML library reads it. *)
Definition load (file : result (result NetworkSharesState str) (option str)) : result NetworkSharesState SharesStateError :=
  match file with
  | Ok (Ok st) =>
      if schema_version st =? NETWORK_SHARES_SCHEMA_VERSION then Ok st
      else Err (UnsupportedSchema (schema_version st) NETWORK_SHARES_SCHEMA_VERSION)
  | Ok (Err e) => Err (ParseToml e)
  | Err None => Ok empty_state
  | Err (Some e) => Err (Io e)
  end.

(** [find], [find_mut] with what is done to the record, [insert], [remove] *)
Definition with_id (id : ShareId) (r : ShareRecord) : bool := bool_decide (share_id r = id).
Definition find_share (id : ShareId) (st : NetworkSharesState) : option ShareRecord := find (with_id id) (shares st).
Fixpoint change_first (id : ShareId) (f : ShareRecord -> ShareRecord) (l : list ShareRecord) : list ShareRecord :=
  match l with
  | [] => []
  | r :: l' => if with_id id r then f r :: l' else r :: change_first id f l'
  end.
Definition find_mut (id : ShareId) (f : ShareRecord -> ShareRecord) (st : NetworkSharesState) : NetworkSharesState :=
  with_shares (change_first id f (shares st)) st.
Definition insert_share (r : ShareRecord) (st : NetworkSharesState) : result NetworkSharesState SharesStateError :=
  match find_share (share_id r) st with
  | Some _ => Err (DuplicateShareId (share_id r))
  | None => Ok (with_shares (shares st ++ [r]) st)
  end.
Fixpoint remove_first (id : ShareId) (l : list ShareRecord) : list ShareRecord :=
  match l with
  | [] => []
  | r :: l' => if with_id id r then l' else r :: remove_first id l'
  end.
Definition remove_record (id : ShareId) (st : NetworkSharesState)
  : result (ShareRecord * NetworkSharesState) SharesStateError :=
  match find_share id st with
  | Some r => Ok (r, with_shares (remove_first id (shares st)) st)
  | None => Err (NoSuchShare id)
  end.

(** [refuse_blank_alias], [refuse_blank_field] *)
Definition refuse_blank (value : str) (blank : SharesStateError) : result unit SharesStateError :=
  if str_is_empty (trim value) then Err blank else Ok tt.

(** [ShareEdits], [is_material_against], [apply_to] *)
Record ShareEdits := {
  new_alias : option str; new_fstype : option FsType; new_host : option str; new_path : option str;
  new_credentials : option Credentials; new_options : option str }.
Definition changes {A} `{EqDecision A} (edit : option A) (old : A) : bool :=
  match edit with Some v => negb (bool_decide (v = old)) | None => false end.
Definition is_material_against (e : ShareEdits) (r : ShareRecord) : bool :=
  changes (new_fstype e) (fstype r) || changes (new_host e) (host r) || changes (new_path e) (path r) ||
  changes (new_credentials e) (credentials r) || changes (new_options e) (advanced_options r).
Definition apply_to (e : ShareEdits) (r : ShareRecord) : ShareRecord * bool :=
  ({| share_id := share_id r;
      alias := default (alias r) (new_alias e);
      fstype := default (fstype r) (new_fstype e);
      host := default (host r) (new_host e);
      path := default (path r) (new_path e);
      credentials := default (credentials r) (new_credentials e);
      advanced_options := default (advanced_options r) (new_options e);
      persisted_vers := if changes (new_fstype e) (fstype r) then None else persisted_vers r;
      mount_root := mount_root r; created_at_ms := created_at_ms r; last_mounted_at_ms := last_mounted_at_ms r |},
   changes (new_alias e) (alias r) || is_material_against e r).

(** [ShareStateEntry], [ShareStateEnvelope], [to_envelope] *)
Record ShareStateEntry := {
  e_alias : str; e_state : MountState; e_reason : option str; e_class : option FailureClass;
  e_vers : option str; operator_detached : bool; last_transition_at_ms : N }.
Record ShareStateEnvelope := {
  v_share : ShareId; v_alias : str; v_state : MountState; v_reason : option str; v_vers : option str;
  v_transition_ms : N }.
Definition to_envelope (id : ShareId) (e : ShareStateEntry) : ShareStateEnvelope :=
  {| v_share := id; v_alias := e_alias e; v_state := e_state e; v_reason := e_reason e; v_vers := e_vers e;
     v_transition_ms := last_transition_at_ms e |}.

(** [ShareEvent] and its constructors *)
Record ShareEvent := {
  event_share : str; event_alias : str; kind : str; detail : option str; event_version : option str; at_ms : N }.
Definition event (k : str) (r : ShareRecord) (d v : option str) (at_ : N) : ShareEvent :=
  {| event_share := share_id r; event_alias := alias r; kind := k; detail := d; event_version := v; at_ms := at_ |}.
Definition mounted_event (r : ShareRecord) (v : option str) (at_ : N) : ShareEvent :=
  event (lit "mounted") r None v at_.
Definition mount_failed_event (r : ShareRecord) (d : str) (at_ : N) : ShareEvent :=
  event (lit "mount_failed") r (Some d) None at_.
Definition unmounted_event (r : ShareRecord) (at_ : N) : ShareEvent := event (lit "unmounted") r None None at_.
Definition unmount_failed_event (r : ShareRecord) (d : str) (at_ : N) : ShareEvent :=
  event (lit "unmount_failed") r (Some d) None at_.
Definition SHARE_EVENTS_RING_CAPACITY : nat := 32.

Definition CIFS_VERS_PROBE_LADDER : list str := [lit "2.0"; lit "2.1"; lit "3.0"; lit "3.02"; lit "3.1.1"].

(** ** The outside

    A command that runs, and whatever writes, moves the outside on; the rest reads it. *)
Class Outside (S : Type) := {
  run : str -> list str -> N -> S -> S * result CommandOutput MountError;
  mount_point_check : S -> str -> bool;
  read_host_proc_mounts : S -> str;
  own_proc_mounts : S -> option str;
  host_reachable : S -> str -> N -> bool;
  journal : S -> str -> option str;
  holder_probe : S -> str -> list str;
  now_ms : S -> N;
  (* the vault: a password as text, or why its bytes are none *)
  fetch_password : S -> str -> option (result str str);
  store_password : str -> str -> S -> S * result unit str;
  delete_password : str -> S -> S * result unit str;
  write_file : str -> str -> S -> S * result unit str;
  set_private : str -> S -> S * result unit str;
  remove_file : str -> S -> S;
  create_dir_all : str -> S -> S;
  remove_dir : str -> S -> S;
  write_state : NetworkSharesState -> S -> S * result unit SharesStateError;
  await_mpd_release : str -> S -> S;
  mpc_update : str -> S -> S;
  mint_id : S -> S * ShareId;
  hostname : S -> option str
}.

(** What the runtime is built with ([NetworkSharesRuntimeBuilder]); the text of an error is
    written by a library. *)
Record Config := {
  mount_program : str; mount_wrapper_args : list str; umount_program : str; umount_wrapper_args : list str;
  mount_timeout_ms : N; avahi_browse_program : str; avahi_browse_timeout_ms : N; smbclient_program : str;
  smbclient_timeout_ms : N; showmount_program : str; has_store : bool; state_dir : str;
  display : MountError -> str }.

(** What is announced to the framework. *)
Inductive Publication :=
| PubConfigured (l : list ShareRecord)
| PubDiscovered (l : list DiscoveredNas)
| PubAnnounce (v : ShareStateEnvelope)
| PubUpdate (v : ShareStateEnvelope)
| PubRetract (id : ShareId)
| PubEvents (l : list ShareEvent).

Section runtime.
Context {S : Type} `{!Outside S} (cfg : Config).

(** The runtime: the outside; the store in memory and as last written; the state of each
    share; the ring of events; the hosts discovered; whether a publisher is attached, and
    what was published; the commands that were run. *)
Record World := {
  outside : S; state : NetworkSharesState; disk : NetworkSharesState;
  share_states : gmap ShareId ShareStateEntry; ring : list ShareEvent; discovered : list DiscoveredNas;
  attached : bool; published : list Publication; commands : list (str * list str) }.

Definition with_outside (s : S) (w : World) : World :=
  {| outside := s; state := state w; disk := disk w; share_states := share_states w; ring := ring w;
     discovered := discovered w; attached := attached w; published := published w; commands := commands w |}.
Definition with_state (st : NetworkSharesState) (w : World) : World :=
  {| outside := outside w; state := st; disk := disk w; share_states := share_states w; ring := ring w;
     discovered := discovered w; attached := attached w; published := published w; commands := commands w |}.
Definition with_states (m : gmap ShareId ShareStateEntry) (w : World) : World :=
  {| outside := outside w; state := state w; disk := disk w; share_states := m; ring := ring w;
     discovered := discovered w; attached := attached w; published := published w; commands := commands w |}.
Definition with_ring (l : list ShareEvent) (w : World) : World :=
  {| outside := outside w; state := state w; disk := disk w; share_states := share_states w; ring := l;
     discovered := discovered w; attached := attached w; published := published w; commands := commands w |}.
Definition with_discovered (l : list DiscoveredNas) (w : World) : World :=
  {| outside := outside w; state := state w; disk := disk w; share_states := share_states w; ring := ring w;
     discovered := l; attached := attached w; published := published w; commands := commands w |}.

(** Publishing, for whoever is attached. *)
Definition publish (p : Publication) (w : World) : World :=
  {| outside := outside w; state := state w; disk := disk w; share_states := share_states w; ring := ring w;
     discovered := discovered w; attached := attached w;
     published := if attached w then published w ++ [p] else published w; commands := commands w |}.
Definition publish_configured (w : World) : World := publish (PubConfigured (shares (state w))) w.

(** Running a command. *)
Definition run_command (program : str) (args : list str) (timeout_ms : N) (w : World)
  : World * result CommandOutput MountError :=
  let '(s, out) := run program args timeout_ms (outside w) in
  ({| outside := s; state := state w; disk := disk w; share_states := share_states w; ring := ring w;
      discovered := discovered w; attached := attached w; published := published w;
      commands := commands w ++ [(program, args)] |}, out).

(** [NetworkSharesState::save] of what is in memory. *)
Definition save (w : World) : World * result unit SharesStateError :=
  let '(s, r) := write_state (state w) (outside w) in
  ({| outside := s; state := state w; disk := if is_ok r then state w else disk w; share_states := share_states w;
      ring := ring w; discovered := discovered w; attached := attached w; published := published w;
      commands := commands w |}, r).

(** [as i64] *)
Definition as_i64 (n : N) : Z := if n <? 2 ^ 63 then Z.of_N n else (Z.of_N n - 2 ^ 64)%Z.

(** ** States and events *)

(** [set_share_state_classified], [set_share_state], [set_share_failed] *)
Definition fresh_entry (alias : str) (st : MountState) (at_ : N) : ShareStateEntry :=
  {| e_alias := alias; e_state := st; e_reason := None; e_class := None; e_vers := None; operator_detached := false;
     last_transition_at_ms := at_ |}.
Definition entry_set (st : MountState) (reason : option str) (class : option FailureClass) (vers : option str)
    (at_ : N) (e : ShareStateEntry) : ShareStateEntry :=
  {| e_alias := e_alias e; e_state := st; e_reason := reason; e_class := class; e_vers := vers;
     operator_detached := match st with Mounted | Mounting => false | _ => operator_detached e end;
     last_transition_at_ms := at_ |}.
Definition set_share_state_classified (id : ShareId) (st : MountState) (reason : option str)
    (class : option FailureClass) (vers : option str) (w : World) : World :=
  let at_ := now_ms (outside w) in
  let e := entry_set st reason class vers at_ (default (fresh_entry [] st at_) (share_states w !! id)) in
  let w := publish (PubUpdate (to_envelope id e)) (with_states (<[id := e]> (share_states w)) w) in
  match st with Mounted | Unmounted => publish_configured w | _ => w end.
Definition set_share_state (id : ShareId) (st : MountState) (reason vers : option str) : World -> World :=
  set_share_state_classified id st reason None vers.
Definition set_share_failed (id : ShareId) (e : MountError) : World -> World :=
  set_share_state_classified id Failed (Some (display cfg e)) (Some (failure_class e)) None.

(** [seed_share_state_entry], [update_share_state_alias], [drop_share_state_entry],
    [remember_operator_detach], [seed_share_states] *)
Definition seed_share_state_entry (r : ShareRecord) (w : World) : World :=
  let e := fresh_entry (alias r) Unmounted (now_ms (outside w)) in
  publish (PubAnnounce (to_envelope (share_id r) e)) (with_states (<[share_id r := e]> (share_states w)) w).
Definition update_share_state_alias (id : ShareId) (a : str) (w : World) : World :=
  match share_states w !! id with
  | Some e =>
      let e' := {| e_alias := a; e_state := e_state e; e_reason := e_reason e; e_class := e_class e; e_vers := e_vers e;
                   operator_detached := operator_detached e; last_transition_at_ms := last_transition_at_ms e |} in
      publish (PubUpdate (to_envelope id e')) (with_states (<[id := e']> (share_states w)) w)
  | None => w
  end.
Definition drop_share_state_entry (id : ShareId) (w : World) : World :=
  publish (PubRetract id) (with_states (delete id (share_states w)) w).
Definition detach (e : ShareStateEntry) : ShareStateEntry :=
  {| e_alias := e_alias e; e_state := e_state e; e_reason := e_reason e; e_class := e_class e; e_vers := e_vers e;
     operator_detached := true; last_transition_at_ms := last_transition_at_ms e |}.
Definition remember_operator_detach (id : ShareId) (w : World) : World :=
  match share_states w !! id with
  | Some e => with_states (<[id := detach e]> (share_states w)) w
  | None => w
  end.
Definition seed_share_states (st : NetworkSharesState) (at_ : N) : gmap ShareId ShareStateEntry :=
  foldl (fun m r => <[share_id r := fresh_entry (alias r) Unmounted at_]> m) ∅ (shares st).

(** [publish_share_event]: the ring keeps the last events. *)
Fixpoint make_room (l : list ShareEvent) : list ShareEvent :=
  match l with
  | [] => []
  | e :: l' => if (SHARE_EVENTS_RING_CAPACITY <=? length l)%nat then make_room l' else l
  end.
Definition publish_share_event (e : ShareEvent) (w : World) : World :=
  let l := make_room (ring w) ++ [e] in
  publish (PubEvents l) (with_ring l w).

(** [trigger_mpd_update_best_effort] *)
Definition trigger_mpd_update (root : str) (w : World) : World :=
  if str_is_empty root then w
  else match mpd_relative_mount_prefix root with
       | Some arg => with_outside (mpc_update arg (outside w)) w
       | None => w
       end.

(** ** Opening *)

(** [open] and [build], of the file's contents *)
Definition open_runtime (file : result (result NetworkSharesState str) (option str)) (s : S)
  : result World SharesStateError :=
  match load file with
  | Ok st =>
      Ok {| outside := s; state := st; disk := st; share_states := seed_share_states st (now_ms s); ring := [];
            discovered := []; attached := false; published := []; commands := [] |}
  | Err e => Err e
  end.

(** ** Mounting *)

(** [adopt_existing_os_mount] *)
Definition adopt_existing_os_mount (r : ShareRecord) (start : N) (w : World) : World * MountReport :=
  let proc := read_host_proc_mounts (outside w) in
  let vers :=
    match match fstype r with
          | Cifs => parse_cifs_version_from_proc_mounts proc (mount_root r)
          | Nfs => parse_nfs_version_from_proc_mounts proc (mount_root r)
          end with
    | Some v => Some v
    | None => persisted_vers r
    end in
  let now := now_ms (outside w) in
  let w :=
    match fstype r, vers with
    | Cifs, Some v =>
        (save (with_state (find_mut (share_id r) (fun x =>
          {| share_id := share_id x; alias := alias x; fstype := fstype x; host := host x; path := path x;
             credentials := credentials x; advanced_options := advanced_options x; persisted_vers := Some v;
             mount_root := mount_root x; created_at_ms := created_at_ms x;
             last_mounted_at_ms := Some (as_i64 now) |}) (state w)) w)).1
    | _, _ => w
    end in
  (w, {| report_share := share_id r; report_root := mount_root r; negotiated_version := vers;
         elapsed_ms := sat_sub now start |}).

(** [finalise_mount_success] *)
Definition finalise_mount_success (r : ShareRecord) (dialect : str) (start : N) (w : World)
  : World * result MountReport MountError :=
  let now := now_ms (outside w) in
  let '(w, saved) :=
    save (with_state (find_mut (share_id r) (fun x =>
      {| share_id := share_id x; alias := alias x; fstype := fstype x; host := host x; path := path x;
         credentials := credentials x; advanced_options := advanced_options x; persisted_vers := Some dialect;
         mount_root := mount_root x; created_at_ms := created_at_ms x;
         last_mounted_at_ms := Some (as_i64 now) |}) (state w)) w) in
  (w, match saved with
      | Ok _ => Ok {| report_share := share_id r; report_root := mount_root r; negotiated_version := Some dialect;
                      elapsed_ms := sat_sub now start |}
      | Err e => Err (Persistence e)
      end).

(** [clear_persisted_vers] *)
Definition clear_persisted_vers (id : ShareId) (w : World) : World * result unit SharesStateError :=
  save (with_state (find_mut id (fun x =>
    {| share_id := share_id x; alias := alias x; fstype := fstype x; host := host x; path := path x;
       credentials := credentials x; advanced_options := advanced_options x; persisted_vers := None;
       mount_root := mount_root x; created_at_ms := created_at_ms x;
       last_mounted_at_ms := last_mounted_at_ms x |}) (state w)) w).

(** [uses_systemd_mount], [fetch_mount_unit_stderr] *)
Definition uses_systemd_mount : bool :=
  str_contains (lit "systemd-mount") (mount_program cfg) ||
  existsb (str_contains (lit "systemd-mount")) (mount_wrapper_args cfg).
Definition fetch_mount_unit_stderr (root : str) (w : World) : str :=
  if uses_systemd_mount then default [] (journal (outside w) (systemd_mount_unit_name root)) else [].

(** [attempt_cifs_dialect_tracked], after the dialect was noted as attempted: a report, or
    nothing and the text of the failure. *)
Definition attempt_cifs_dialect (r : ShareRecord) (dialect : str) (creds : option str) (start : N) (w : World)
  : World * result (MountReport + str) MountError :=
  let '(w, out) :=
    run_command (mount_program cfg) (mount_wrapper_args cfg ++ build_cifs_mount_args r dialect creds)
      (mount_timeout_ms cfg) w in
  match out with
  | Err e => (w, Err e)
  | Ok output =>
      if bool_decide (exit_code output = Some 0%Z) then
        let '(w, rep) := finalise_mount_success r dialect start w in
        (w, match rep with Ok rep => Ok (inl rep) | Err e => Err e end)
      else if mount_point_check (outside w) (mount_root r) then
        let '(w, rep) := adopt_existing_os_mount r start w in (w, Ok (inl rep))
      else
        let '(k, text) :=
          classify_mount_failure (exit_code output) (stderr output) (fetch_mount_unit_stderr (mount_root r) w)
            (mount_root r) is_cifs_auth_refusal in
        (w, match k with
            | AuthRefused => Err (AuthenticationRefused (share_id r) (exit_code output) text)
            | DirectoryMissing => Err (MountDirectoryMissing (share_id r) (mount_root r) text)
            | Other => Ok (inr text)
            end)
  end.

(** The loop over dialects: a report, or what was attempted and the last failure. *)
Fixpoint try_dialects (r : ShareRecord) (creds : option str) (start : N) (attempted : list str) (last_error : str)
    (dialects : list str) (w : World) : World * result (MountReport + list str * str) MountError :=
  match dialects with
  | [] => (w, Ok (inr (attempted, last_error)))
  | d :: rest =>
      let '(w, res) := attempt_cifs_dialect r d creds start w in
      match res with
      | Err e => (w, Err e)
      | Ok (inl rep) => (w, Ok (inl rep))
      | Ok (inr text) => try_dialects r creds start (attempted ++ [d]) text rest w
      end
  end.

(** [mount_cifs_with_creds_file] *)
Definition mount_cifs_with_creds_file (r : ShareRecord) (start : N) (creds : option str) (w : World)
  : World * result MountReport MountError :=
  match credentials r, creds with
  | UserPassword _ key _, None => (w, Err (CredentialMissing key))
  | _, _ =>
      let first := match persisted_vers r with Some v => [v] | None => CIFS_VERS_PROBE_LADDER end in
      let '(w, res) := try_dialects r creds start [] [] first w in
      match res with
      | Err e => (w, Err e)
      | Ok (inl rep) => (w, Ok rep)
      | Ok (inr (attempted, last_error)) =>
          match persisted_vers r with
          | None => (w, Err (DialectProbeExhausted attempted last_error))
          | Some v =>
              let '(w, cleared) := clear_persisted_vers (share_id r) w in
              match cleared with
              | Err e => (w, Err (Persistence e))
              | Ok _ =>
                  let '(w, res) :=
                    try_dialects r creds start attempted last_error (filter (fun d => d <> v) CIFS_VERS_PROBE_LADDER) w in
                  (w, match res with
                      | Err e => Err e
                      | Ok (inl rep) => Ok rep
                      | Ok (inr (attempted, last_error)) => Err (DialectProbeExhausted attempted last_error)
                      end)
              end
          end
      end
  end.

(** [stage_mount_credentials_file] *)
Definition creds_path (r : ShareRecord) : str := join (state_dir cfg) (lit ".mount-creds-" ++ share_id r).
Definition stage_mount_credentials_file (r : ShareRecord) (w : World) : World * result (option str) MountError :=
  match credentials r with
  | UserPassword username key domain =>
      match fetch_password (outside w) key with
      | None => (w, Err (CredentialMissing key))
      | Some (Err e) => (w, Err (CredentialMissing (key ++ lit " (non-utf8 payload: " ++ e ++ lit ")")))
      | Some (Ok password) =>
          let '(s, wrote) :=
            write_file (creds_path r) (compose_cifs_credentials_file username password domain) (outside w) in
          match wrote with
          | Err e => (with_outside s w, Err (SubprocessIo (lit "stage credentials file: " ++ e)))
          | Ok _ =>
              let '(s, made) := set_private (creds_path r) s in
              (with_outside s w,
               match made with
               | Err e => Err (SubprocessIo (lit "stage credentials file: " ++ e))
               | Ok _ => Ok (Some (creds_path r))
               end)
          end
      end
  | _ => (w, Ok None)
  end.

(** [mount_cifs]: the credentials file goes away when the mount is over. *)
Definition mount_cifs (r : ShareRecord) (start : N) (w : World) : World * result MountReport MountError :=
  let '(w, staged) := stage_mount_credentials_file r w in
  match staged with
  | Err e => (w, Err e)
  | Ok creds =>
      let '(w, res) := mount_cifs_with_creds_file r start creds w in
      (match creds with Some p => with_outside (remove_file p (outside w)) w | None => w end, res)
  end.

(** [mount_nfs] *)
Definition mount_nfs (r : ShareRecord) (start : N) (w : World) : World * result MountReport MountError :=
  let '(w, out) :=
    run_command (mount_program cfg) (mount_wrapper_args cfg ++ build_nfs_mount_args r) (mount_timeout_ms cfg) w in
  match out with
  | Err e => (w, Err e)
  | Ok output =>
      if bool_decide (exit_code output = Some 0%Z) then
        let vers := match own_proc_mounts (outside w) with
                    | Some proc => parse_nfs_version_from_proc_mounts proc (mount_root r)
                    | None => None
                    end in
        let now := now_ms (outside w) in
        let '(w, saved) :=
          save (with_state (find_mut (share_id r) (fun x =>
            {| share_id := share_id x; alias := alias x; fstype := fstype x; host := host x; path := path x;
               credentials := credentials x; advanced_options := advanced_options x;
               persisted_vers := persisted_vers x; mount_root := mount_root x; created_at_ms := created_at_ms x;
               last_mounted_at_ms := Some (as_i64 now) |}) (state w)) w) in
        (w, match saved with
            | Ok _ => Ok {| report_share := share_id r; report_root := mount_root r; negotiated_version := vers;
                            elapsed_ms := sat_sub now start |}
            | Err e => Err (Persistence e)
            end)
      else
        let '(k, text) :=
          classify_mount_failure (exit_code output) (stderr output) (fetch_mount_unit_stderr (mount_root r) w)
            (mount_root r) (fun _ t => is_nfs_auth_refusal t) in
        (w, Err (match k with
                 | AuthRefused => AuthenticationRefused (share_id r) (exit_code output) text
                 | DirectoryMissing => MountDirectoryMissing (share_id r) (mount_root r) text
                 | Other => MountFailed (share_id r) (exit_code output) text
                 end))
  end.

(** [ensure_credential_stocked] *)
Definition ensure_credential_stocked (r : ShareRecord) (w : World) : result unit MountError :=
  match credentials r with
  | UserPassword _ key _ =>
      match fetch_password (outside w) key with
      | Some _ => Ok tt
      | None => if has_store cfg then Err (CredentialMissing key) else Err CredentialStoreUnavailable
      end
  | _ => Ok tt
  end.

(** [mount_share] after the helper has returned. *)
Definition is_mounted (id : ShareId) (w : World) : bool :=
  match share_states w !! id with Some e => bool_decide (e_state e = Mounted) | None => false end.
Definition mount_ended (r : ShareRecord) (res : result MountReport MountError) (w : World) : World :=
  match res with
  | Ok rep =>
      let w := set_share_state (share_id r) Mounted None (negotiated_version rep) w in
      let w := trigger_mpd_update (mount_root r) w in
      publish_share_event (mounted_event r (negotiated_version rep) (now_ms (outside w))) w
  | Err e =>
      let w := publish_share_event (mount_failed_event r (display cfg e) (now_ms (outside w))) w in
      let w :=
        match e, credentials r with
        | AuthenticationRefused _ _ _, UserPassword _ key _ =>
            if has_store cfg then with_outside (delete_password key (outside w)).1 w else w
        | _, _ => w
        end in
      set_share_failed (share_id r) e w
  end.

(** [mount_share] *)
Definition mount_record (r : ShareRecord) (w : World) : World * result MountReport MountError :=
  let id := share_id r in
  if mount_point_check (outside w) (mount_root r) then
    let start := now_ms (outside w) in
    let was_mounted := is_mounted id w in
    let '(w, rep) := adopt_existing_os_mount r start w in
    let w := set_share_state id Mounted None (negotiated_version rep) w in
    (if was_mounted then w
     else
       let w := trigger_mpd_update (mount_root r) w in
       publish_share_event (mounted_event r (negotiated_version rep) (now_ms (outside w))) w,
     Ok rep)
  else
    let h := trim (host r) in
    let port := probe_port_for_fstype (fstype r) in
    if negb (str_is_empty h) && negb (host_reachable (outside w) h port) then
      (set_share_failed id (HostUnreachable h port) w, Err (HostUnreachable h port))
    else
      match ensure_credential_stocked r w with
      | Err e =>
          (match e with
           | CredentialMissing _ =>
               set_share_state_classified id Unmounted (Some (display cfg e)) (Some (failure_class e)) None w
           | _ => set_share_failed id e w
           end, Err e)
      | Ok _ =>
          let w := with_outside (create_dir_all (mount_root r) (outside w)) w in
          let start := now_ms (outside w) in
          let w := set_share_state id Mounting None None w in
          let '(w, res) := match fstype r with Cifs => mount_cifs r start w | Nfs => mount_nfs r start w end in
          (mount_ended r res w, res)
      end.
Definition mount_share (id : ShareId) (w : World) : World * result MountReport MountError :=
  match find_share id (state w) with
  | None => (w, Err (ShareNotFound id))
  | Some r => mount_record r w
  end.

(** ** Unmounting *)

(** [wrap_umount_args], [force_detach_invocation] *)
Definition force_detach_invocation (root : str) : str * list str :=
  if bool_decide (umount_program cfg = lit "sudo") then (lit "sudo", lit "-n" :: build_force_detach_argv root)
  else match build_force_detach_argv root with
       | program :: args => (program, args)
       | [] => ([], [])
       end.
Definition umount_invocation (r : ShareRecord) (force : bool) : str * list str :=
  if force then force_detach_invocation (mount_root r)
  else
    let lazy := bool_decide (fstype r = Cifs) &&
                umount_flag_l_is_lazy (effective_umount_program (umount_program cfg) (umount_wrapper_args cfg)) in
    (umount_program cfg, umount_wrapper_args cfg ++ build_umount_args (mount_root r) lazy).

(** [unmount_share_ex] *)
Definition release_player (root : str) (w : World) : World :=
  if str_is_empty root then w else with_outside (await_mpd_release root (outside w)) w.
Definition unmount_outcome (id : ShareId) (r : ShareRecord) (force : bool) (output : CommandOutput) (w : World)
  : result unit MountError :=
  if bool_decide (exit_code output = Some 0%Z) then Ok tt
  else if negb force && is_busy_stderr (stderr output) then Err (Busy id (holder_probe (outside w) (mount_root r)))
  else Err (MountFailed id (exit_code output) (stderr output)).
Definition unmount_ended (id : ShareId) (r : ShareRecord) (res : result unit MountError) (w : World) : World :=
  match res with
  | Ok _ =>
      let w := set_share_state id Unmounted None None w in
      let w := trigger_mpd_update (mount_root r) w in
      publish_share_event (unmounted_event r (now_ms (outside w))) w
  | Err e =>
      let w :=
        if mount_point_check (outside w) (mount_root r) then
          set_share_state id Mounted None
            (match share_states w !! id with Some entry => e_vers entry | None => None end) w
        else set_share_failed id e w in
      publish_share_event (unmount_failed_event r (display cfg e) (now_ms (outside w))) w
  end.
Definition unmount_share_ex (id : ShareId) (force : bool) (w : World) : World * result unit MountError :=
  match find_share id (state w) with
  | None => (w, Err (ShareNotFound id))
  | Some r =>
      let w := release_player (mount_root r) w in
      let '(program, args) := umount_invocation r force in
      let '(w, out) := run_command program args (mount_timeout_ms cfg) w in
      match out with
      | Err e => (w, Err e)
      | Ok output =>
          let res := unmount_outcome id r force output w in
          (unmount_ended id r res w, res)
      end
  end.
Definition unmount_share (id : ShareId) : World -> World * result unit MountError := unmount_share_ex id false.

(** ** The store *)

(** [add_share] *)
Definition add_share (r : ShareRecord) (w : World) : World * result ShareId SharesStateError :=
  match let? _ := refuse_blank (alias r) BlankAlias in
        let? _ := refuse_blank (host r) BlankHost in
        let? _ := refuse_blank (path r) BlankPath in
        insert_share r (state w) with
  | Err e => (w, Err e)
  | Ok st =>
      let '(w, saved) := save (with_state st w) in
      match saved with
      | Err e => (w, Err e)
      | Ok _ => (publish_configured (seed_share_state_entry r w), Ok (share_id r))
      end
  end.

(** [edit_share]: the blanks, the record, and the cycle of a mount that is up. *)
Definition refuse_blank_edit (value : option str) (blank : SharesStateError) : result unit SharesStateError :=
  match value with Some v => refuse_blank v blank | None => Ok tt end.
Definition cycle_mount (id : ShareId) (w : World) : World :=
  let '(w, down) := unmount_share id w in
  match down with Err _ => w | Ok _ => (mount_share id w).1 end.
Definition edit_share (id : ShareId) (edits : ShareEdits) (w : World) : World * result bool SharesStateError :=
  match let? _ := refuse_blank_edit (new_alias edits) BlankAlias in
        let? _ := refuse_blank_edit (new_host edits) BlankHost in
        let? _ := refuse_blank_edit (new_path edits) BlankPath in
        ok_or (find_share id (state w)) (NoSuchShare id) with
  | Err e => (w, Err e)
  | Ok r =>
      let material := is_material_against edits r in
      let '(r', changed) := apply_to edits r in
      if changed then
        let '(w, saved) := save (with_state (find_mut id (fun _ => r') (state w)) w) in
        match saved with
        | Err e => (w, Err e)
        | Ok _ =>
            let w := publish_configured (update_share_state_alias id (alias r') w) in
            (if material && mount_point_check (outside w) (mount_root r) then cycle_mount id w else w, Ok true)
        end
      else (w, Ok false)
  end.

(** [remove_share] *)
Definition remove_share (id : ShareId) (w : World) : World * result ShareRecord SharesStateError :=
  match remove_record id (state w) with
  | Err e => (w, Err e)
  | Ok (r, st) =>
      let '(w, saved) := save (with_state st w) in
      match saved with
      | Err e => (w, Err e)
      | Ok _ =>
          let w := drop_share_state_entry id w in
          let w := if str_is_empty (mount_root r) then w
                   else with_outside (remove_dir (mount_root r) (outside w)) w in
          (publish_configured (trigger_mpd_update (mount_root r) w), Ok r)
      end
  end.

(** ** Reconciling and trying again *)

(** [reconcile_os_mount_states], a record at a time *)
Definition gone_reason (root : str) : str :=
  lit "mount point " ++ root ++ lit " is no longer present in the host mount table".
Definition reconcile_record (w : World) (r : ShareRecord) : World :=
  let id := share_id r in
  let recorded := match share_states w !! id with Some e => Some (e_state e) | None => None end in
  if mount_point_check (outside w) (mount_root r) then
    if bool_decide (recorded = Some Mounted) || bool_decide (recorded = Some Mounting) then w
    else
      let '(w, rep) := adopt_existing_os_mount r (now_ms (outside w)) w in
      set_share_state id Mounted None (negotiated_version rep) w
  else if bool_decide (recorded = Some Mounted) then
    let w := set_share_state id Unmounted (Some (gone_reason (mount_root r))) None w in
    publish_share_event (unmounted_event r (now_ms (outside w))) w
  else w.
Definition reconcile_os_mount_states (w : World) : World := foldl reconcile_record w (shares (state w)).

(** Mounting one after the other, with the outcomes. *)
Fixpoint mount_each (ids : list ShareId) (w : World) : World * list (ShareId * result MountReport MountError) :=
  match ids with
  | [] => (w, [])
  | id :: ids' =>
      let '(w, res) := mount_share id w in
      let '(w, rest) := mount_each ids' w in
      (w, (id, res) :: rest)
  end.

(** [boot_mount_all], when the network is up *)
Fixpoint boot_each (ids : list ShareId) (w : World) : World * list (ShareId * result MountReport MountError) :=
  match ids with
  | [] => (w, [])
  | id :: ids' =>
      let '(w, res) :=
        if is_mounted id w then
          let r := find_share id (state w) in
          (w, Ok {| report_share := id; report_root := match r with Some r => mount_root r | None => [] end;
                    negotiated_version := match r with Some r => persisted_vers r | None => None end;
                    elapsed_ms := 0 |})
        else mount_share id w in
      let '(w, rest) := boot_each ids' w in
      (w, (id, res) :: rest)
  end.
Definition boot_mount_all (l3 : bool) (w : World) : World * list (ShareId * result MountReport MountError) :=
  if l3 then
    let w := reconcile_os_mount_states w in boot_each (map share_id (shares (state w))) w
  else (w, []).

(** [unreachable_poll_pass], [remount_retry_pass]; a hash map is walked in some order. *)
Context (in_some_order : gmap ShareId ShareStateEntry -> list (ShareId * ShareStateEntry)).
Definition is_down (e : ShareStateEntry) : Prop := e_state e = Failed \/ e_state e = Unmounted.
#[local] Instance is_down_dec e : Decision (is_down e).
Proof. unfold is_down. apply _. Defined.
Definition unreachable_candidates (m : gmap ShareId ShareStateEntry) : list ShareId :=
  map fst (filter (fun p => is_down p.2 /\ e_class p.2 = Some Unreachable) (in_some_order m)).
Definition remount_candidates (m : gmap ShareId ShareStateEntry) : list ShareId :=
  map fst (filter (fun p => is_down p.2 /\ e_class p.2 <> Some Permanent /\ operator_detached p.2 = false)
             (in_some_order m)).
Definition unreachable_poll_pass (w : World) : World * list (ShareId * result MountReport MountError) :=
  let w := reconcile_os_mount_states w in mount_each (unreachable_candidates (share_states w)) w.
Definition remount_retry_pass (w : World) : World * list (ShareId * result MountReport MountError) :=
  let w := reconcile_os_mount_states w in mount_each (remount_candidates (share_states w)) w.

(** ** Discovery *)

(** [browse_service] *)
Definition browse_service (service : str) (w : World) : World * result (list (str * str)) MountError :=
  let '(w, out) :=
    run_command (avahi_browse_program cfg) (build_avahi_browse_args_for service) (avahi_browse_timeout_ms cfg) w in
  (w, match out with
      | Err e => Err e
      | Ok output =>
          if bool_decide (exit_code output = Some 0%Z) then
            Ok (filter_self_out (hostname (outside w)) (parse_avahi_browse_output (stdout output)))
          else Err (MountFailed [] (exit_code output) (stderr output))
      end).

(** The two loops of [refresh_discovery] *)
Definition smb_host (name ip : str) (out : result CommandOutput MountError) : DiscoveredNas :=
  match out with
  | Ok o =>
      if bool_decide (exit_code o = Some 0%Z) then
        {| nas_name := name; ip := ip; advertised_dialect := parse_smbclient_dialect (stderr o);
           SharesText.shares := parse_smbclient_disk_lines (stdout o); nas_fstype := lit "cifs" |}
      else {| nas_name := name; ip := ip; advertised_dialect := None; SharesText.shares := [];
              nas_fstype := lit "cifs" |}
  | Err _ => {| nas_name := name; ip := ip; advertised_dialect := None; SharesText.shares := [];
                nas_fstype := lit "cifs" |}
  end.
Fixpoint list_smb (hosts : list (str * str)) (w : World) : World * list DiscoveredNas :=
  match hosts with
  | [] => (w, [])
  | (name, ip) :: hosts' =>
      let '(w, out) := run_command (smbclient_program cfg) (build_smbclient_list_args ip) (smbclient_timeout_ms cfg) w in
      let '(w, rest) := list_smb hosts' w in
      (w, smb_host name ip out :: rest)
  end.
Definition nfs_host (name ip : str) (out : result CommandOutput MountError) : DiscoveredNas :=
  {| nas_name := name; ip := ip; advertised_dialect := None;
     SharesText.shares :=
       match out with
       | Ok o => if bool_decide (exit_code o = Some 0%Z) then parse_showmount_exports (stdout o) else []
       | Err _ => []
       end;
     nas_fstype := lit "nfs" |}.
Fixpoint list_nfs (found : list DiscoveredNas) (hosts : list (str * str)) (w : World) : World * list DiscoveredNas :=
  match hosts with
  | [] => (w, found)
  | (name, a) :: hosts' =>
      if str_in a (map ip found) then list_nfs found hosts' w
      else
        let '(w, out) := run_command (showmount_program cfg) (build_showmount_args a) (smbclient_timeout_ms cfg) w in
        list_nfs (found ++ [nfs_host name a out]) hosts' w
  end.

(** [refresh_discovery] *)
Definition refresh_discovery (w : World) : World * result (list DiscoveredNas) MountError :=
  let '(w, hosts) := browse_service (lit "_smb._tcp") w in
  match hosts with
  | Err e => (w, Err e)
  | Ok hosts =>
      let '(w, found) := list_smb hosts w in
      let '(w, nfs) := browse_service (lit "_nfs._tcp") w in
      let '(w, found) := match nfs with Ok hosts => list_nfs found hosts w | Err _ => (w, found) end in
      (publish (PubDiscovered found) (with_discovered found w), Ok found)
  end.

(** ** Verbs *)

(** The requests and the answers; JSON is the framework's. *)
Record AddShareRequest := {
  a_alias : str; a_fstype : FsType; a_host : str; a_path : str; a_credentials : Credentials; a_options : str;
  a_password : option str }.
Inductive Request :=
| AddShare (req : AddShareRequest)
| EditShare (id : ShareId) (edits : ShareEdits)
| RemoveShare (id : ShareId)
| MountShare (id : ShareId)
| UnmountShare (id : ShareId) (force : option bool)
| RefreshDiscovery
| ListConfigured
| ListDiscovered
| GetShareState (id : ShareId)
| ListEvents.
Inductive Response :=
| Added (id : ShareId) (report : option MountReport) (error : option str)
| Edited (changed : bool)
| Removed (r : ShareRecord)
| MountedAs (report : MountReport)
| UnmountedOk
| Refreshed (l : list DiscoveredNas)
| ConfiguredIs (l : list ShareRecord)
| DiscoveredIs (l : list DiscoveredNas)
| StateIs (v : option ShareStateEnvelope)
| EventsAre (l : list ShareEvent).
Inductive VerbDispatchError := OfStore (e : SharesStateError) | OfMount (e : MountError).

(** [stock_supplied_password] *)
Definition stock_supplied_password (c : Credentials) (password : option str) (w : World) : World * result unit str :=
  match password, c with
  | Some p, UserPassword _ key _ =>
      if str_is_empty p then (w, Ok tt)
      else if has_store cfg then
        let '(s, res) := store_password key p (outside w) in (with_outside s w, res)
      else (w, Err (lit "credential store is not wired"))
  | _, _ => (w, Ok tt)
  end.

(** [dispatch_verb], of a request that was decoded *)
Definition add_verb (req : AddShareRequest) (w : World) : World * result Response VerbDispatchError :=
  let '(s, id) := mint_id (outside w) in
  let w := with_outside s w in
  let r := new_record id (a_alias req) (a_fstype req) (a_host req) (a_path req) (a_credentials req) (a_options req)
             (as_i64 (now_ms (outside w))) in
  let '(w, added) := add_share r w in
  match added with
  | Err e => (w, Err (OfStore e))
  | Ok id =>
      let '(w, stocked) := stock_supplied_password (credentials r) (a_password req) w in
      match stocked with
      | Err e => (w, Ok (Added id None (Some e)))
      | Ok _ =>
          let '(w, res) := mount_share id w in
          (w, Ok (match res with
                  | Ok rep => Added id (Some rep) None
                  | Err e => Added id None (Some (display cfg e))
                  end))
      end
  end.
Definition STILL_MOUNTED : str := lit "umount reported success but the path is still a mount".
Definition remove_verb (id : ShareId) (w : World) : World * result Response VerbDispatchError :=
  match find_share id (state w) with
  | None => (w, Err (OfMount (ShareNotFound id)))
  | Some r =>
      let '(w, down) := unmount_share id w in
      if mount_point_check (outside w) (mount_root r) then
        (w, Err (OfMount (match down with Err e => e | Ok _ => MountFailed id None STILL_MOUNTED end)))
      else
        let '(w, removed) := remove_share id w in
        (w, match removed with Ok r => Ok (Removed r) | Err e => Err (OfStore e) end)
  end.
Definition dispatch_verb (req : Request) (w : World) : World * result Response VerbDispatchError :=
  match req with
  | AddShare req => add_verb req w
  | EditShare id edits =>
      let '(w, res) := edit_share id edits w in
      (w, match res with Ok b => Ok (Edited b) | Err e => Err (OfStore e) end)
  | RemoveShare id => remove_verb id w
  | MountShare id =>
      let '(w, res) := mount_share id w in
      (w, match res with Ok rep => Ok (MountedAs rep) | Err e => Err (OfMount e) end)
  | UnmountShare id force =>
      let '(w, res) := unmount_share_ex id (default false force) w in
      match res with
      | Ok _ => (remember_operator_detach id w, Ok UnmountedOk)
      | Err e => (w, Err (OfMount e))
      end
  | RefreshDiscovery =>
      let '(w, res) := refresh_discovery w in
      (w, match res with Ok l => Ok (Refreshed l) | Err e => Err (OfMount e) end)
  | ListConfigured => (w, Ok (ConfiguredIs (shares (state w))))
  | ListDiscovered => (w, Ok (DiscoveredIs (discovered w)))
  | GetShareState id => (w, Ok (StateIs (option_map (to_envelope id) (share_states w !! id))))
  | ListEvents => (w, Ok (EventsAre (ring w)))
  end.

(** What happens to a runtime: a verb, a pass, the outside changing by itself. *)
Inductive Op :=
| Verb (req : Request)
| Reconcile
| Boot (l3 : bool)
| UnreachablePoll
| RemountPass
| Elsewhere (s : S).
Definition run_op (o : Op) (w : World) : World :=
  match o with
  | Verb req => (dispatch_verb req w).1
  | Reconcile => reconcile_os_mount_states w
  | Boot l3 => (boot_mount_all l3 w).1
  | UnreachablePoll => (unreachable_poll_pass w).1
  | RemountPass => (remount_retry_pass w).1
  | Elsewhere s => with_outside s w
  end.

(** ** The store *)

Definition ids_of (st : NetworkSharesState) : list ShareId := map share_id (shares st).

Lemma with_id_spec id r : with_id id r = true <-> share_id r = id.
Proof. apply bool_decide_eq_true. Qed.

Lemma find_share_Some id st r : find_share id st = Some r -> share_id r = id /\ r ∈ shares st.
Proof.
  unfold find_share. intros H%find_some. rewrite <-list_elem_of_In, with_id_spec in H. tauto.
Qed.

Lemma find_share_None id st : find_share id st = None <-> id ∉ ids_of st.
Proof.
  unfold find_share, ids_of. split.
  - intros Hn (r & -> & Hr)%list_elem_of_fmap. apply list_elem_of_In in Hr.
    pose proof (find_none _ _ Hn r Hr) as H. by rewrite (proj2 (with_id_spec _ _)) in H.
  - intros Hid. destruct (find (with_id id) (shares st)) as [r|] eqn:Hf; [|done]. exfalso. apply Hid.
    apply find_some in Hf. rewrite <-list_elem_of_In, with_id_spec in Hf. destruct Hf as [Hr <-].
    by apply list_elem_of_fmap_2.
Qed.

Lemma find_share_elem st r : NoDup (ids_of st) -> r ∈ shares st -> find_share (share_id r) st = Some r.
Proof.
  unfold find_share, ids_of. induction (shares st) as [|x l IH]; intros Hnd Hr; [by apply elem_of_nil in Hr|].
  cbn in *. apply NoDup_cons in Hnd as [Hx Hnd]. apply elem_of_cons in Hr as [->|Hr].
  - by rewrite (proj2 (with_id_spec _ _)).
  - destruct (with_id (share_id r) x) eqn:Hw; [|by apply IH]. apply with_id_spec in Hw. exfalso. apply Hx.
    rewrite Hw. by apply list_elem_of_fmap_2.
Qed.

Lemma change_first_ids id f l :
  (forall r, share_id (f r) = share_id r) -> map share_id (change_first id f l) = map share_id l.
Proof. intros Hf. induction l as [|r l IH]; cbn; [done|]. case_match; cbn; [by rewrite Hf|by rewrite IH]. Qed.

Lemma find_mut_ids id f st : (forall r, share_id (f r) = share_id r) -> ids_of (find_mut id f st) = ids_of st.
Proof. apply change_first_ids. Qed.

(** A record is changed in place, and the others stay. *)
Lemma find_find_mut id f st :
  (forall r, share_id (f r) = share_id r) ->
  forall id', find_share id' (find_mut id f st) =
    if decide (id' = id) then option_map f (find_share id st) else find_share id' st.
Proof.
  intros Hf id'. unfold find_share, find_mut. cbn [shares with_shares].
  induction (shares st) as [|r l IH]; cbn; [by case_decide|].
  destruct (with_id id r) eqn:Hr.
  - apply with_id_spec in Hr. cbn. destruct (with_id id' (f r)) eqn:Hr'.
    + apply with_id_spec in Hr'. rewrite Hf in Hr'. by rewrite decide_True by congruence.
    + rewrite decide_False; [|intros ->; apply not_true_iff_false in Hr'; apply Hr', with_id_spec; by rewrite Hf].
      destruct (with_id id' r) eqn:Hr2; [|done]. apply with_id_spec in Hr2. apply not_true_iff_false in Hr'.
      exfalso. apply Hr', with_id_spec. by rewrite Hf.
  - cbn. rewrite IH. destruct (with_id id' r) eqn:Hr'; [|done]. rewrite decide_False; [done|].
    intros ->. congruence.
Qed.

Lemma remove_first_ids id l : NoDup (map share_id l) ->
  NoDup (map share_id (remove_first id l)) /\
  forall id', id' ∈ map share_id (remove_first id l) <-> id' <> id /\ id' ∈ map share_id l.
Proof.
  induction l as [|r l IH]; cbn; intros Hnd; [by split; [|set_solver]|]. apply NoDup_cons in Hnd as [Hr Hnd].
  destruct (IH Hnd) as [IH1 IH2]. destruct (with_id id r) eqn:Hw.
  - apply with_id_spec in Hw as <-. split; [done|]. set_solver.
  - apply not_true_iff_false in Hw. rewrite with_id_spec in Hw. cbn. split.
    + apply NoDup_cons. split; [|done]. rewrite IH2. naive_solver.
    + intros id'. rewrite !elem_of_cons, IH2. naive_solver.
Qed.

(** A step that gives a world and a result: what is known of the world. *)
Ltac after L := let H := fresh "Hw" in pose proof L as H; match type of H with
  | context [fst ?f] => revert H; destruct f as [? ?]; cbn [fst]; intros H
  end.

(** ** The dialects that are tried *)

Definition first_dialects (r : ShareRecord) : list str :=
  match persisted_vers r with Some v => [v] | None => CIFS_VERS_PROBE_LADDER end.
Definition lacks_password (r : ShareRecord) (creds : option str) : option str :=
  match credentials r, creds with UserPassword _ key _, None => Some key | _, _ => None end.

Lemma mount_cifs_unfold r start creds w :
  mount_cifs_with_creds_file r start creds w =
  match lacks_password r creds with
  | Some key => (w, Err (CredentialMissing key))
  | None =>
      let '(w, res) := try_dialects r creds start [] [] (first_dialects r) w in
      match res with
      | Err e => (w, Err e)
      | Ok (inl rep) => (w, Ok rep)
      | Ok (inr (attempted, last_error)) =>
          match persisted_vers r with
          | None => (w, Err (DialectProbeExhausted attempted last_error))
          | Some v =>
              let '(w, cleared) := clear_persisted_vers (share_id r) w in
              match cleared with
              | Err e => (w, Err (Persistence e))
              | Ok _ =>
                  let '(w, res) :=
                    try_dialects r creds start attempted last_error (filter (fun d => d <> v) CIFS_VERS_PROBE_LADDER) w in
                  (w, match res with
                      | Err e => Err e
                      | Ok (inl rep) => Ok rep
                      | Ok (inr (attempted, last_error)) => Err (DialectProbeExhausted attempted last_error)
                      end)
              end
          end
      end
  end.
Proof. unfold mount_cifs_with_creds_file, lacks_password. by destruct (credentials r), creds. Qed.

(** ** The invariant *)

(** A failed share has a class of failure; one that is up has none, and is not one that
    the operator took down. *)
Definition is_up (st : MountState) : Prop := st = Mounted \/ st = Mounting.
Definition entry_ok (e : ShareStateEntry) : Prop :=
  (e_state e = Failed -> e_class e <> None) /\
  (is_up (e_state e) -> e_class e = None /\ operator_detached e = false).

Record ok (w : World) : Prop := {
  ok_ids : NoDup (ids_of (state w));
  ok_states : forall id, is_Some (share_states w !! id) <-> id ∈ ids_of (state w);
  ok_entries : map_Forall (fun _ e => entry_ok e) (share_states w);
  ok_disk : disk w = state w;
  ok_ring : (length (ring w) <= SHARE_EVENTS_RING_CAPACITY)%nat }.

(** The invariant, with the shares that there are. *)
Definition inv (I : list ShareId) (w : World) : Prop := ok w /\ ids_of (state w) = I.

Lemma make_room_length l : (length (make_room l) < SHARE_EVENTS_RING_CAPACITY)%nat.
Proof.
  induction l as [|e l IH]; [apply Nat.lt_0_succ|]. cbn [make_room].
  destruct (Nat.leb_spec SHARE_EVENTS_RING_CAPACITY (length (e :: l))); [done|done].
Qed.

Lemma inv_same I w w' :
  inv I w -> state w' = state w -> disk w' = disk w -> share_states w' = share_states w -> ring w' = ring w -> inv I w'.
Proof. intros [[H1 H2 H3 H4 H5] HI] E1 E2 E3 E4. destruct w, w'. cbn in *. subst. by split; [constructor|]. Qed.

Lemma ok_inv w : ok w -> inv (ids_of (state w)) w.
Proof. done. Qed.
Lemma inv_ok I w : inv I w -> ok w.
Proof. by intros [H _]. Qed.

Lemma inv_outside I s w : inv I w -> inv I (with_outside s w).
Proof. intros H. by eapply inv_same. Qed.
Lemma inv_publish I p w : inv I w -> inv I (publish p w).
Proof. intros H. by eapply inv_same. Qed.
Lemma inv_run I p args t w : inv I w -> inv I (run_command p args t w).1.
Proof. intros H. unfold run_command. destruct (run p args t (outside w)). by eapply inv_same. Qed.
Lemma inv_update I root w : inv I w -> inv I (trigger_mpd_update root w).
Proof. intros H. unfold trigger_mpd_update. repeat case_match; by eapply inv_same. Qed.
Lemma inv_release I root w : inv I w -> inv I (release_player root w).
Proof. intros H. unfold release_player. case_match; by eapply inv_same. Qed.

Lemma inv_event I e w : inv I w -> inv I (publish_share_event e w).
Proof.
  intros [[H1 H2 H3 H4 H5] HI]. split; [|done]. constructor; try done. cbn. rewrite length_app. cbn.
  pose proof (make_room_length (ring w)). lia.
Qed.

Lemma inv_entry I id e w : inv I w -> id ∈ I -> entry_ok e -> inv I (with_states (<[id := e]> (share_states w)) w).
Proof.
  intros [[H1 H2 H3 H4 H5] HI] Hid He. split; [|done]. constructor; try done.
  - intros id'. cbn. rewrite lookup_insert_is_Some', H2. naive_solver.
  - by apply map_Forall_insert_2.
Qed.

Definition class_ok (st : MountState) (class : option FailureClass) : Prop :=
  (st = Failed -> class <> None) /\ (is_up st -> class = None).

Lemma inv_set I id st reason class vers w :
  inv I w -> id ∈ I -> class_ok st class -> inv I (set_share_state_classified id st reason class vers w).
Proof.
  intros Hw Hid [Hc1 Hc2]. unfold set_share_state_classified.
  assert (inv I (with_states (<[id := entry_set st reason class vers (now_ms (outside w))
    (default (fresh_entry [] st (now_ms (outside w))) (share_states w !! id))]> (share_states w)) w)) as H.
  { apply inv_entry; [done|done|]. split; cbn; [done|]. intros Hup. split; [by apply Hc2|]. by destruct Hup as [->| ->]. }
  destruct st; repeat apply inv_publish; exact H.
Qed.

Lemma class_up st : st <> Failed -> class_ok st None.
Proof. intros H. by split. Qed.
Lemma class_failed c : class_ok Failed (Some c).
Proof. split; [done|]. by intros [?|?]. Qed.
Lemma class_unmounted c : class_ok Unmounted c.
Proof. split; [done|]. by intros [?|?]. Qed.

Lemma inv_set_state I id st reason vers w :
  inv I w -> id ∈ I -> st <> Failed -> inv I (set_share_state id st reason vers w).
Proof. intros ? ? ?. by apply inv_set, class_up. Qed.
Lemma inv_failed I id e w : inv I w -> id ∈ I -> inv I (set_share_failed id e w).
Proof. intros ? ?. by apply inv_set, class_failed. Qed.

(** Writes succeed, from here on. *)
Section writes.
Hypothesis writes : forall st s, exists s', write_state st s = (s', Ok tt).

Lemma saved st w : exists s, save (with_state st w) =
  ({| outside := s; state := st; disk := st; share_states := share_states w; ring := ring w;
      discovered := discovered w; attached := attached w; published := published w; commands := commands w |}, Ok tt).
Proof. unfold save. cbn. destruct (writes st (outside w)) as [s ->]. by exists s. Qed.

Lemma inv_saved I st w :
  inv I w -> ids_of st = I -> inv I (save (with_state st w)).1 /\ (save (with_state st w)).2 = Ok tt.
Proof.
  intros [[H1 H2 H3 H4 H5] HI] Hst. destruct (saved st w) as [s ->]. split; [|done]. split; [|done].
  constructor; cbn; try done; rewrite Hst, <-HI; done.
Qed.

(** Writing the store back with a record changed. *)
Lemma inv_changed I id f w :
  inv I w -> (forall r, share_id (f r) = share_id r) -> inv I (save (with_state (find_mut id f (state w)) w)).1.
Proof. intros Hw Hf. apply inv_saved; [done|]. rewrite find_mut_ids by done. apply Hw. Qed.


Lemma inv_adopt I r start w : inv I w -> inv I (adopt_existing_os_mount r start w).1.
Proof. intros Hw. unfold adopt_existing_os_mount. cbn [fst]. repeat case_match; try done; by apply inv_changed. Qed.

Lemma inv_finalise I r d start w : inv I w -> inv I (finalise_mount_success r d start w).1.
Proof.
  intros Hw. unfold finalise_mount_success.
  match goal with |- context [save ?x] => assert (inv I (save x).1) as H by by apply inv_changed end.
  revert H. by destruct (save _) as [? ?].
Qed.

Lemma inv_attempt I r d creds start w : inv I w -> inv I (attempt_cifs_dialect r d creds start w).1.
Proof.
  intros Hw. unfold attempt_cifs_dialect. after (inv_run I (mount_program cfg)
    (mount_wrapper_args cfg ++ build_cifs_mount_args r d creds) (mount_timeout_ms cfg) w Hw).
  destruct r0 as [output|e]; [|done]. case_match.
  - after (inv_finalise I r d start w0 Hw0). done.
  - case_match; [after (inv_adopt I r start w0 Hw0); done|]. by destruct (classify_mount_failure _ _ _ _ _).
Qed.

Lemma inv_try I r creds start ds : forall attempted last w, inv I w -> inv I (try_dialects r creds start attempted last ds w).1.
Proof.
  induction ds as [|d ds IH]; intros attempted last w Hw; [done|]. cbn [try_dialects].
  after (inv_attempt I r d creds start w Hw). destruct r0 as [[rep|text]|e]; [done| |done]. by apply IH.
Qed.

Lemma inv_cifs_creds I r start creds w : inv I w -> inv I (mount_cifs_with_creds_file r start creds w).1.
Proof.
  intros Hw. rewrite mount_cifs_unfold. case_match; [done|].
  after (inv_try I r creds start (first_dialects r) [] [] w Hw). destruct r0 as [[rep|[attempted last]]|e]; [done| |done].
  destruct (persisted_vers r) as [v|]; [|done]. unfold clear_persisted_vers.
  match goal with |- context [save ?x] => assert (inv I (save x).1) as H1 by by apply inv_changed end.
  revert H1. destruct (save _) as [w1 [?|?]]; cbn [fst]; intros H1; [|done].
  by after (inv_try I r creds start (filter (fun d => d <> v) CIFS_VERS_PROBE_LADDER) attempted last w1 H1).
Qed.

Lemma inv_stage I r w : inv I w -> inv I (stage_mount_credentials_file r w).1.
Proof.
  intros Hw. unfold stage_mount_credentials_file. repeat case_match; try done; by apply inv_outside.
Qed.

Lemma inv_cifs I r start w : inv I w -> inv I (mount_cifs r start w).1.
Proof.
  intros Hw. unfold mount_cifs. after (inv_stage I r w Hw). destruct r0 as [creds|e]; [|done].
  after (inv_cifs_creds I r start creds w0 Hw0). destruct creds; [by apply inv_outside|done].
Qed.

Lemma inv_nfs I r start w : inv I w -> inv I (mount_nfs r start w).1.
Proof.
  intros Hw. unfold mount_nfs. after (inv_run I (mount_program cfg) (mount_wrapper_args cfg ++ build_nfs_mount_args r)
    (mount_timeout_ms cfg) w Hw).
  destruct r0 as [output|e]; [|done]. case_match.
  - match goal with |- context [save ?x] => assert (inv I (save x).1) as H1 by by apply inv_changed end.
    revert H1. by destruct (save _) as [? ?].
  - by destruct (classify_mount_failure _ _ _ _ _).
Qed.

Lemma inv_mount_ended I r res w : inv I w -> share_id r ∈ I -> inv I (mount_ended r res w).
Proof.
  intros Hw Hr. destruct res as [rep|e]; cbn [mount_ended].
  - by apply inv_event, inv_update, inv_set_state.
  - apply inv_failed; [|done]. repeat case_match; try apply inv_outside; by apply inv_event.
Qed.

Lemma inv_mount_record I r w : inv I w -> share_id r ∈ I -> inv I (mount_record r w).1.
Proof.
  intros Hw Hr. unfold mount_record. case_match.
  - after (inv_adopt I r (now_ms (outside w)) w Hw). case_match; cbn [fst]; [by apply inv_set_state|].
    by apply inv_event, inv_update, inv_set_state.
  - case_match; [by apply inv_failed|]. destruct (ensure_credential_stocked r w) as [?|e]; cbn [fst].
    + match goal with |- context [set_share_state ?i ?st ?a ?b ?x] =>
        assert (inv I (set_share_state i st a b x)) as H1 by (apply inv_set_state; [by apply inv_outside|done|done]) end.
      destruct (fstype r).
      * match goal with |- context [mount_cifs r ?st ?x] => after (inv_cifs I r st x H1) end. by apply inv_mount_ended.
      * match goal with |- context [mount_nfs r ?st ?x] => after (inv_nfs I r st x H1) end. by apply inv_mount_ended.
    + destruct e; try (by apply inv_failed). apply inv_set; [done|done|apply class_unmounted].
Qed.

Lemma inv_mount I id w : inv I w -> inv I (mount_share id w).1.
Proof.
  intros Hw. unfold mount_share. destruct (find_share id (state w)) as [r|] eqn:Hf; [|done].
  apply find_share_Some in Hf as [<- Hr]. apply inv_mount_record; [done|]. destruct Hw as [_ <-]. by apply list_elem_of_fmap_2.
Qed.

Lemma inv_unmount I id force w : inv I w -> inv I (unmount_share_ex id force w).1.
Proof.
  intros Hw. unfold unmount_share_ex. destruct (find_share id (state w)) as [r|] eqn:Hf; [|done].
  assert (Hid : id ∈ I).
  { apply find_share_Some in Hf as [<- Hr]. destruct Hw as [_ <-]. by apply list_elem_of_fmap_2. }
  destruct (umount_invocation r force) as [program args].
  after (inv_run I program args (mount_timeout_ms cfg) _ (inv_release I (mount_root r) w Hw)).
  destruct r0 as [output|e]; [|done]. cbn [fst]. destruct (unmount_outcome id r force output w0) as [?|e]; cbn [unmount_ended].
  - by apply inv_event, inv_update, inv_set_state.
  - apply inv_event. case_match; [by apply inv_set_state|by apply inv_failed].
Qed.

Lemma inv_cycle I id w : inv I w -> inv I (cycle_mount id w).
Proof.
  intros Hw. unfold cycle_mount. after (inv_unmount I id false w Hw : inv I (unmount_share id w).1).
  destruct r; [by apply inv_mount|done].
Qed.

Lemma inv_reconcile I w : inv I w -> inv I (reconcile_os_mount_states w).
Proof.
  intros Hw. unfold reconcile_os_mount_states.
  assert (Hall : forall r, r ∈ shares (state w) -> share_id r ∈ I).
  { intros r Hr. destruct Hw as [_ <-]. by apply list_elem_of_fmap_2. }
  revert Hall Hw. generalize (shares (state w)). intros l. revert w.
  induction l as [|r l IH]; intros w Hall Hw; [done|]. cbn [foldl]. apply IH; [set_solver|].
  pose proof (Hall r ltac:(set_solver)) as Hr. unfold reconcile_record. case_match.
  - case_match; [done|]. after (inv_adopt I r (now_ms (outside w)) w Hw). by apply inv_set_state.
  - case_match; [|done]. by apply inv_event, inv_set_state.
Qed.

Lemma inv_mount_each I ids w : inv I w -> inv I (mount_each ids w).1.
Proof.
  revert w. induction ids as [|id ids IH]; intros w Hw; [done|]. cbn [mount_each].
  after (inv_mount I id w Hw). after (IH w0 Hw0). done.
Qed.

Lemma inv_boot_each I ids w : inv I w -> inv I (boot_each ids w).1.
Proof.
  revert w. induction ids as [|id ids IH]; intros w Hw; [done|]. cbn [boot_each]. destruct (is_mounted id w).
  - by after (IH w Hw).
  - after (inv_mount I id w Hw). by after (IH w0 Hw0).
Qed.

Lemma ok_add r w : ok w -> ok (add_share r w).1.
Proof.
  intros Hw. unfold add_share. destruct (refuse_blank (alias r) BlankAlias); [|done].
  destruct (refuse_blank (host r) BlankHost); [|done]. destruct (refuse_blank (path r) BlankPath); [|done].
  unfold insert_share. destruct (find_share (share_id r) (state w)) eqn:Hf; [done|]. apply find_share_None in Hf.
  destruct (saved (with_shares (shares (state w) ++ [r]) (state w)) w) as [s ->]. cbn [fst].
  destruct Hw as [H1 H2 H3 H4 H5]. constructor; cbn; unfold ids_of; cbn; rewrite ?map_app; try done.
  - apply NoDup_app. split_and!; [done| |apply NoDup_singleton]. intros id Hid ->%list_elem_of_singleton. done.
  - intros id. rewrite lookup_insert_is_Some', H2. unfold ids_of. set_solver.
  - apply map_Forall_insert_2; [|done]. split; cbn; [done|]. by intros [?|?].
Qed.

Lemma inv_edit I id edits w : inv I w -> inv I (edit_share id edits w).1.
Proof.
  intros Hw. unfold edit_share. destruct (refuse_blank_edit (new_alias edits) BlankAlias); [|done].
  destruct (refuse_blank_edit (new_host edits) BlankHost); [|done].
  destruct (refuse_blank_edit (new_path edits) BlankPath); [|done]. cbn [ok_or].
  destruct (find_share id (state w)) as [r|] eqn:Hf; [|done]. cbn [ok_or].
  destruct (apply_to edits r) as [r' changed] eqn:Ha. destruct changed; [|done].
  apply find_share_Some in Hf as [Hid Hr].
  assert (Hids : ids_of (find_mut id (fun _ => r') (state w)) = I).
  { destruct Hw as [_ <-]. unfold ids_of, find_mut. cbn. injection Ha as <- _.
    clear Hr. induction (shares (state w)) as [|x l IH]; cbn; [done|]. destruct (with_id id x) eqn:Hx; cbn; [|by rewrite IH].
    apply with_id_spec in Hx. congruence. }
  destruct (inv_saved I _ w Hw Hids) as [Hs Hok]. destruct (save _) as [w1 r1]. cbn in Hs, Hok. subst r1. cbn [fst].
  assert (H2 : inv I (publish_configured (update_share_state_alias id (alias r') w1))).
  { apply inv_publish. unfold update_share_state_alias. destruct (share_states w1 !! id) as [e|] eqn:He; [|done].
    apply inv_publish. apply inv_entry; [done| |].
    - destruct Hs as [Hs <-]. by apply (ok_states _ Hs).
    - destruct Hs as [Hs _]. by apply (ok_entries _ Hs) in He. }
  case_match; [by apply inv_cycle|done].
Qed.

Lemma ok_remove id w : ok w -> ok (remove_share id w).1.
Proof.
  intros Hw. unfold remove_share, remove_record. destruct (find_share id (state w)) as [r|] eqn:Hf; [|done].
  destruct (saved (with_shares (remove_first id (shares (state w))) (state w)) w) as [s ->]. cbn [fst].
  assert (Hok : forall s', ok (with_outside s' (drop_share_state_entry id
    {| outside := s; state := with_shares (remove_first id (shares (state w))) (state w);
       disk := with_shares (remove_first id (shares (state w))) (state w); share_states := share_states w;
       ring := ring w; discovered := discovered w; attached := attached w; published := published w;
       commands := commands w |}))).
  { intros s'. destruct Hw as [H1 H2 H3 H4 H5]. destruct (remove_first_ids id (shares (state w)) H1) as [Hn He].
    constructor; cbn; try done.
    - intros id'. rewrite lookup_delete_is_Some, H2. unfold ids_of. cbn. rewrite He. naive_solver.
    - by apply map_Forall_delete. }
  eapply inv_ok, inv_publish, inv_update, ok_inv. case_match; [by apply (Hok s)|]. apply Hok.
Qed.

Lemma ok_detach id w : ok w -> (forall e, share_states w !! id = Some e -> ~ is_up (e_state e)) -> ok (remember_operator_detach id w).
Proof.
  intros Hw Hup. unfold remember_operator_detach. destruct (share_states w !! id) as [e|] eqn:He; [|done].
  eapply inv_ok, inv_entry; [by apply ok_inv|by apply (ok_states _ Hw)|].
  pose proof (ok_entries _ Hw _ _ He) as [H1 H2]. split; cbn; [done|]. intros Hc. by destruct (Hup e).
Qed.

(** After an unmount that succeeded the share is down. *)
Lemma set_entry id st reason class vers w :
  exists e, share_states (set_share_state_classified id st reason class vers w) !! id = Some e /\
    e_state e = st /\ e_class e = class /\ e_reason e = reason /\ e_vers e = vers /\
    operator_detached e = match st with Mounted | Mounting => false
                          | _ => match share_states w !! id with Some e0 => operator_detached e0 | None => false end end.
Proof.
  unfold set_share_state_classified. eexists. split.
  - destruct st; cbn; apply lookup_insert_eq.
  - split_and!; try done. cbn. destruct (share_states w !! id), st; done.
Qed.

Lemma states_update root w : share_states (trigger_mpd_update root w) = share_states w.
Proof. unfold trigger_mpd_update. by repeat case_match. Qed.

Lemma unmount_ok_down id force w w' :
  unmount_share_ex id force w = (w', Ok tt) ->
  exists e, share_states w' !! id = Some e /\ e_state e = Unmounted /\ e_class e = None.
Proof.
  unfold unmount_share_ex. destruct (find_share id (state w)) as [r|]; [|done].
  destruct (umount_invocation r force) as [program args]. destruct (run_command _ _ _ _) as [w1 [output|e]]; [|done].
  destruct (unmount_outcome id r force output w1) as [[]|e] eqn:Ho; [|done]. intros [= <-]. cbn [unmount_ended].
  change (share_states (publish_share_event ?ev ?x)) with (share_states x). rewrite states_update.
  destruct (set_entry id Unmounted None None None w1) as (e & He & Hst & Hc & _). by exists e.
Qed.

Lemma inv_browse I service w : inv I w -> inv I (browse_service service w).1.
Proof.
  intros Hw. unfold browse_service. by after (inv_run I (avahi_browse_program cfg)
    (build_avahi_browse_args_for service) (avahi_browse_timeout_ms cfg) w Hw).
Qed.

Lemma inv_discovery I w : inv I w -> inv I (refresh_discovery w).1.
Proof.
  intros Hw. unfold refresh_discovery. after (inv_browse I (lit "_smb._tcp") w Hw). destruct r as [hosts|e]; [|done].
  assert (Hs : forall hosts w, inv I w -> inv I (list_smb hosts w).1).
  { clear. induction hosts as [|[name ip] hosts IH]; intros w Hw; [done|]. cbn [list_smb].
    after (inv_run I (smbclient_program cfg) (build_smbclient_list_args ip) (smbclient_timeout_ms cfg) w Hw).
    by after (IH w0 Hw0). }
  assert (Hn : forall hosts found w, inv I w -> inv I (list_nfs found hosts w).1).
  { clear. induction hosts as [|[name a] hosts IH]; intros found w Hw; [done|]. cbn [list_nfs].
    case_match; [by apply IH|].
    after (inv_run I (showmount_program cfg) (build_showmount_args a) (smbclient_timeout_ms cfg) w Hw). by apply IH. }
  after (Hs hosts w0 Hw0). after (inv_browse I (lit "_nfs._tcp") w1 Hw1). destruct r as [nfs|e]; cbn [fst].
  - after (Hn nfs l w2 Hw2). by eapply inv_same.
  - by eapply inv_same.
Qed.

Lemma ok_verb req w : ok w -> ok (dispatch_verb req w).1.
Proof.
  intros Hw. pose proof (ok_inv w Hw) as Hi. destruct req as [req|id edits|id|id|id force| | | |id| ]; cbn [dispatch_verb]; try done.
  - unfold add_verb. destruct (mint_id (outside w)) as [s id].
    match goal with |- context [add_share ?r ?x] => pose proof (ok_add r x (inv_ok _ _ (inv_outside _ s w Hi))) as Ha;
      destruct (add_share r x) as [w1 [id1|e]]; [|done] end. cbn [fst] in Ha.
    match goal with |- context [stock_supplied_password ?c ?p ?x] =>
      assert (Hst : ok (stock_supplied_password c p x).1);
        [unfold stock_supplied_password; repeat case_match; try done; by eapply inv_ok, inv_outside, ok_inv|];
      destruct (stock_supplied_password c p x) as [w2 [?|e]]; [|done] end. cbn [fst] in Hst.
    pose proof (inv_mount _ id1 w2 (ok_inv _ Hst)) as Hm. by destruct (mount_share id1 w2) as [w3 res], Hm.
  - pose proof (inv_edit _ id edits w Hi) as He. by destruct (edit_share id edits w) as [w1 res], He.
  - unfold remove_verb. destruct (find_share id (state w)) as [r|]; [|done].
    pose proof (inv_unmount _ id false w Hi : inv _ (unmount_share id w).1) as [Hu _].
    destruct (unmount_share id w) as [w1 down]. cbn [fst] in Hu. case_match; [done|].
    pose proof (ok_remove id w1 Hu) as Hr. by destruct (remove_share id w1) as [w2 res].
  - pose proof (inv_mount _ id w Hi) as Hm. by destruct (mount_share id w) as [w1 res], Hm.
  - pose proof (inv_unmount _ id (default false force) w Hi) as [Hu _].
    destruct (unmount_share_ex id (default false force) w) as [w1 [[]|e]] eqn:Heq; [|done]. cbn [fst] in *.
    apply ok_detach; [done|]. intros e He. apply unmount_ok_down in Heq as (e' & He' & Hst & _).
    rewrite He in He'. injection He' as <-. rewrite Hst. by intros [?|?].
  - pose proof (inv_discovery _ w Hi) as Hd. by destruct (refresh_discovery w) as [w1 res], Hd.
Qed.

End writes.

(** ** Reconciling *)

(** What is outside leaves the mount table alone, but for commands, and these change it
    at their last argument only. *)
Class KeepsMounts : Prop := {
  keeps_run p args t s root :
    last args <> Some root -> mount_point_check (run p args t s).1 root = mount_point_check s root;
  keeps_write_state st s root : mount_point_check (write_state st s).1 root = mount_point_check s root;
  keeps_write_file p b s root : mount_point_check (write_file p b s).1 root = mount_point_check s root;
  keeps_set_private p s root : mount_point_check (set_private p s).1 root = mount_point_check s root;
  keeps_remove_file p s root : mount_point_check (remove_file p s) root = mount_point_check s root;
  keeps_create_dir p s root : mount_point_check (create_dir_all p s) root = mount_point_check s root;
  keeps_delete_password k s root : mount_point_check (delete_password k s).1 root = mount_point_check s root;
  keeps_update a s root : mount_point_check (mpc_update a s) root = mount_point_check s root }.

Section keeps.
Context `{KM : !KeepsMounts}.

(** The mount point of a share as the world has it, and the state recorded for it. *)
Definition up (w : World) (root : str) : bool := mount_point_check (outside w) root.
Definition recorded (w : World) (id : ShareId) : option MountState := option_map e_state (share_states w !! id).

Lemma up_save w root : up (save w).1 root = up w root.
Proof.
  unfold save, up. pose proof (keeps_write_state (state w) (outside w) root).
  by destruct (write_state (state w) (outside w)) as [s r].
Qed.

Lemma states_save w : share_states (save w).1 = share_states w.
Proof. unfold save. by destruct (write_state _ _). Qed.

Lemma adopt_frame r start w :
  (forall root, up (adopt_existing_os_mount r start w).1 root = up w root) /\
  share_states (adopt_existing_os_mount r start w).1 = share_states w.
Proof.
  unfold adopt_existing_os_mount. cbn [fst].
  split; [intros root|]; repeat case_match; try done; by rewrite ?up_save, ?states_save.
Qed.

Lemma set_frame id st reason class vers w :
  (forall root, up (set_share_state_classified id st reason class vers w) root = up w root) /\
  forall id', id' <> id -> share_states (set_share_state_classified id st reason class vers w) !! id' = share_states w !! id'.
Proof.
  unfold set_share_state_classified. split; [by intros; destruct st|].
  intros id' Hid. destruct st; cbn; by rewrite lookup_insert_ne.
Qed.

Lemma set_recorded id st reason class vers w :
  recorded (set_share_state_classified id st reason class vers w) id = Some st.
Proof.
  unfold recorded. by destruct (set_entry id st reason class vers w) as (e & -> & <- & _).
Qed.

(** What the state of a share becomes, given whether its mount point is there. *)
Definition reconciled (mounted : bool) (st : option MountState) : option MountState :=
  match mounted, st with
  | true, Some Mounting => Some Mounting
  | true, _ => Some Mounted
  | false, Some Mounted => Some Unmounted
  | false, _ => st
  end.

Lemma reconcile_record_spec w r :
  let w' := reconcile_record w r in
  (forall root, up w' root = up w root) /\
  (forall id, id <> share_id r -> share_states w' !! id = share_states w !! id) /\
  recorded w' (share_id r) = reconciled (up w (mount_root r)) (recorded w (share_id r)).
Proof.
  cbn zeta. unfold reconcile_record. fold (up w (mount_root r)).
  change (match share_states w !! share_id r with Some e => Some (e_state e) | None => None end) with (recorded w (share_id r)).
  destruct (up w (mount_root r)) eqn:Hup; cbn [reconciled].
  - destruct (bool_decide (recorded w (share_id r) = Some Mounted) || bool_decide (recorded w (share_id r) = Some Mounting)) eqn:Hd.
    + apply orb_true_iff in Hd as [H%bool_decide_eq_true|H%bool_decide_eq_true]; rewrite H; done.
    + destruct (adopt_frame r (now_ms (outside w)) w) as [Ha1 Ha2].
      destruct (adopt_existing_os_mount r (now_ms (outside w)) w) as [w1 rep]. cbn [fst] in *. unfold set_share_state.
      destruct (set_frame (share_id r) Mounted None None (negotiated_version rep) w1) as [Hs1 Hs2]. split_and!.
      * intros root. by rewrite Hs1.
      * intros id Hid. by rewrite Hs2, Ha2.
      * rewrite set_recorded. apply orb_false_iff in Hd as [_ Hd%bool_decide_eq_false].
        by destruct (recorded w (share_id r)) as [[]|].
  - destruct (bool_decide (recorded w (share_id r) = Some Mounted)) eqn:Hd.
    + apply bool_decide_eq_true in Hd. unfold set_share_state.
      destruct (set_frame (share_id r) Unmounted (Some (gone_reason (mount_root r))) None None w) as [Hs1 Hs2].
      split_and!; [exact Hs1|exact Hs2|]. rewrite Hd. cbn [reconciled]. apply set_recorded.
    + apply bool_decide_eq_false in Hd. split_and!; [done..|]. by destruct (recorded w (share_id r)) as [[]|].
Qed.

Lemma reconcile_records l w :
  NoDup (map share_id l) ->
  let w' := foldl reconcile_record w l in
  (forall root, up w' root = up w root) /\
  (forall id, id ∉ map share_id l -> share_states w' !! id = share_states w !! id) /\
  forall r, r ∈ l -> recorded w' (share_id r) = reconciled (up w (mount_root r)) (recorded w (share_id r)).
Proof.
  cbn zeta. revert w. induction l as [|r l IH]; intros w Hnd; [split_and!; try done; by intros ? ?%elem_of_nil|].
  cbn [map] in Hnd. apply NoDup_cons in Hnd as [Hr Hnd]. cbn [foldl map].
  destruct (reconcile_record_spec w r) as (H1 & H2 & H3). destruct (IH (reconcile_record w r) Hnd) as (I1 & I2 & I3).
  split_and!.
  - intros root. by rewrite I1.
  - intros id [Hid Hid']%not_elem_of_cons. by rewrite I2, H2.
  - intros x [->|Hx]%elem_of_cons.
    + unfold recorded at 1. by rewrite I2.
    + rewrite I3, H1 by done. f_equal. unfold recorded. rewrite H2; [done|]. intros Heq. apply Hr. rewrite <-Heq.
      by apply list_elem_of_fmap_2.
Qed.

(** Reconciling makes what is recorded agree with the mount table, in both directions, but
    for a share that is being mounted. *)
Theorem reconcile_correct w :
  NoDup (ids_of (state w)) ->
  let w' := reconcile_os_mount_states w in
  (forall root, up w' root = up w root) /\
  forall r, r ∈ shares (state w) ->
    recorded w' (share_id r) = reconciled (up w (mount_root r)) (recorded w (share_id r)) /\
    (recorded w (share_id r) <> Some Mounting ->
     recorded w' (share_id r) = Some Mounted <-> up w' (mount_root r) = true).
Proof.
  intros Hnd. cbn zeta. destruct (reconcile_records (shares (state w)) w Hnd) as (H1 & _ & H3).
  split; [exact H1|]. intros r Hr. split; [by apply H3|]. intros Hm. unfold reconcile_os_mount_states.
  rewrite (H3 r Hr), H1. by destruct (up w (mount_root r)), (recorded w (share_id r)) as [[]|].
Qed.

(** ** What mounting one share leaves alone *)

(** The shares and where they are mounted. *)
Definition places (w : World) : list (ShareId * str) := map (fun r => (share_id r, mount_root r)) (shares (state w)).

(** From [w0], only the share [id] and the mount point [at_] were touched, and the commands
    that were run were about it. *)
Definition about (at_ : str) (c : str * list str) : Prop := last c.2 = Some at_.
Definition aside (id : ShareId) (at_ : str) (w0 w : World) : Prop :=
  (forall root, root <> at_ -> up w root = up w0 root) /\
  (forall id', id' <> id -> share_states w !! id' = share_states w0 !! id') /\
  places w = places w0 /\ exists l, commands w = commands w0 ++ l /\ Forall (about at_) l.

Lemma aside_refl id at_ w : aside id at_ w w.
Proof. split_and!; [done..|]. exists []. by rewrite app_nil_r. Qed.

Lemma aside_same id at_ w0 w w' :
  aside id at_ w0 w -> (forall root, root <> at_ -> up w' root = up w root) -> share_states w' = share_states w ->
  state w' = state w -> commands w' = commands w -> aside id at_ w0 w'.
Proof.
  intros (H1 & H2 & H3 & H4) E1 E2 E3 E4. split_and!.
  - intros root Hr. by rewrite E1, H1.
  - intros id' Hid. by rewrite E2, H2.
  - unfold places. by rewrite E3.
  - by rewrite E4.
Qed.

Lemma aside_run id at_ w0 p args t w :
  aside id at_ w0 w -> last args = Some at_ -> aside id at_ w0 (run_command p args t w).1.
Proof.
  intros (H1 & H2 & H3 & l & H4 & Hl) Ha. pose proof (keeps_run p args t (outside w)) as Hk. unfold run_command.
  destruct (run p args t (outside w)) as [s out]. split_and!; [|exact H2|exact H3|].
  - intros root Hr. unfold up in *. cbn in *. rewrite Hk by congruence. by apply H1.
  - exists (l ++ [(p, args)]). cbn. rewrite H4, <-app_assoc. split; [done|]. apply Forall_app. split; [done|]. by constructor.
Qed.

Lemma aside_set id at_ w0 st reason class vers w :
  aside id at_ w0 w -> aside id at_ w0 (set_share_state_classified id st reason class vers w).
Proof.
  intros (H1 & H2 & H3 & H4). destruct (set_frame id st reason class vers w) as [E1 E2]. split_and!.
  - intros root Hr. by rewrite E1, H1.
  - intros id' Hid. by rewrite E2, H2.
  - rewrite <-H3. unfold set_share_state_classified, places. by destruct st.
  - destruct H4 as (l & H4 & Hl). exists l. split; [|done]. rewrite <-H4. unfold set_share_state_classified. by destruct st.
Qed.

Lemma aside_changed id at_ w0 r f w :
  aside id at_ w0 w -> (forall x, share_id (f x) = share_id x /\ mount_root (f x) = mount_root x) ->
  aside id at_ w0 (save (with_state (find_mut r f (state w)) w)).1.
Proof.
  intros (H1 & H2 & H3 & H4) Hf. split_and!; [| | |unfold save; by destruct (write_state _ _)].
  - intros root Hr. rewrite up_save. by apply H1.
  - intros id' Hid. rewrite states_save. by apply H2.
  - rewrite <-H3. unfold save, places. destruct (write_state _ _). cbn.
    induction (shares (state w)) as [|x l IH]; cbn; [done|]. destruct (with_id r x); cbn; [|by rewrite IH].
    destruct (Hf x) as [-> ->]. done.
Qed.

Lemma aside_update id at_ w0 a w : aside id at_ w0 w -> aside id at_ w0 (trigger_mpd_update a w).
Proof.
  intros Hw. unfold trigger_mpd_update. repeat case_match; try done. eapply aside_same; [exact Hw| |done..].
  intros root _. apply keeps_update.
Qed.

Lemma aside_adopt id at_ w0 r start w : aside id at_ w0 w -> aside id at_ w0 (adopt_existing_os_mount r start w).1.
Proof. intros Hw. unfold adopt_existing_os_mount. cbn [fst]. repeat case_match; try done; by apply aside_changed. Qed.

Lemma aside_finalise id at_ w0 r d start w : aside id at_ w0 w -> aside id at_ w0 (finalise_mount_success r d start w).1.
Proof.
  intros Hw. unfold finalise_mount_success.
  match goal with |- context [save ?x] => assert (aside id at_ w0 (save x).1) as H by by apply aside_changed end.
  revert H. by destruct (save _) as [? ?].
Qed.

Lemma last_wrapped wrapper t os remote root : last (wrapper ++ mount_args t os remote root) = Some root.
Proof. by rewrite last_app. Qed.

Lemma aside_attempt id w0 r d creds start w :
  aside id (mount_root r) w0 w -> aside id (mount_root r) w0 (attempt_cifs_dialect r d creds start w).1.
Proof.
  intros Hw. unfold attempt_cifs_dialect.
  after (aside_run id (mount_root r) w0 (mount_program cfg) (mount_wrapper_args cfg ++ build_cifs_mount_args r d creds)
           (mount_timeout_ms cfg) w Hw (last_wrapped _ _ _ _ _)).
  destruct r0 as [output|e]; [|done]. case_match.
  - by after (aside_finalise id (mount_root r) w0 r d start w1 Hw0).
  - case_match; [by after (aside_adopt id (mount_root r) w0 r start w1 Hw0)|]. by destruct (classify_mount_failure _ _ _ _ _).
Qed.

Lemma aside_try id w0 r creds start ds : forall attempted last w,
  aside id (mount_root r) w0 w -> aside id (mount_root r) w0 (try_dialects r creds start attempted last ds w).1.
Proof.
  induction ds as [|d ds IH]; intros attempted last w Hw; [done|]. cbn [try_dialects].
  after (aside_attempt id w0 r d creds start w Hw). destruct r0 as [[rep|text]|e]; [done| |done]. by apply IH.
Qed.

Lemma aside_cifs_creds id w0 r start creds w :
  aside id (mount_root r) w0 w -> aside id (mount_root r) w0 (mount_cifs_with_creds_file r start creds w).1.
Proof.
  intros Hw. rewrite mount_cifs_unfold. case_match; [done|].
  after (aside_try id w0 r creds start (first_dialects r) [] [] w Hw). destruct r0 as [[rep|[attempted last]]|e]; [done| |done].
  destruct (persisted_vers r) as [v|]; [|done]. unfold clear_persisted_vers.
  match goal with |- context [save ?x] => assert (aside id (mount_root r) w0 (save x).1) as H1 by by apply aside_changed end.
  revert H1. destruct (save _) as [w2 [?|?]]; cbn [fst]; intros H1; [|done].
  by after (aside_try id w0 r creds start (filter (fun d => d <> v) CIFS_VERS_PROBE_LADDER) attempted last w2 H1).
Qed.

Lemma aside_outside id at_ w0 s w :
  aside id at_ w0 w -> (forall root, mount_point_check s root = up w root) -> aside id at_ w0 (with_outside s w).
Proof. intros Hw Hs. eapply aside_same; [exact Hw| |done..]. intros root _. apply Hs. Qed.

Lemma aside_stage id at_ w0 r w : aside id at_ w0 w -> aside id at_ w0 (stage_mount_credentials_file r w).1.
Proof.
  intros Hw. unfold stage_mount_credentials_file. destruct (credentials r) as [|u key dom|p]; [done| |done].
  destruct (fetch_password (outside w) key) as [[pw|?]|]; [|done|done].
  pose proof (keeps_write_file (creds_path r) (compose_cifs_credentials_file u pw dom) (outside w)) as H1.
  destruct (write_file _ _ _) as [s [?|?]]; cbn [fst] in *; [|by apply aside_outside].
  pose proof (keeps_set_private (creds_path r) s) as H2. destruct (set_private _ s) as [s2 res].
  apply aside_outside; [done|]. intros root. cbn in H2. by rewrite H2, H1.
Qed.

Lemma aside_event id at_ w0 e w : aside id at_ w0 w -> aside id at_ w0 (publish_share_event e w).
Proof. intros Hw. by eapply aside_same. Qed.

Lemma aside_mount_ended id at_ w0 r res w :
  aside id at_ w0 w -> share_id r = id -> aside id at_ w0 (mount_ended r res w).
Proof.
  intros Hw <-. destruct res as [rep|e]; cbn [mount_ended].
  - by apply aside_event, aside_update, aside_set.
  - apply aside_set. repeat case_match; try (by apply aside_event).
    apply aside_outside; [by apply aside_event|]. intros root. apply keeps_delete_password.
Qed.

(** Mounting a share touches that share, and its mount point, only. *)
Lemma aside_mount w r : aside (share_id r) (mount_root r) w (mount_record r w).1.
Proof.
  pose proof (aside_refl (share_id r) (mount_root r) w) as Hw. unfold mount_record. case_match.
  - after (aside_adopt _ _ w r (now_ms (outside w)) w Hw). case_match; cbn [fst]; [by apply aside_set|].
    by apply aside_event, aside_update, aside_set.
  - case_match; [by apply aside_set|]. destruct (ensure_credential_stocked r w) as [?|e]; cbn [fst].
    + match goal with |- context [set_share_state ?i ?st ?a ?b ?x] =>
        assert (aside (share_id r) (mount_root r) w (set_share_state i st a b x)) as H1 end.
      { apply aside_set, aside_outside; [done|]. intros root. apply keeps_create_dir. }
      destruct (fstype r).
      * unfold mount_cifs. match goal with |- context [stage_mount_credentials_file r ?x] =>
          after (aside_stage (share_id r) (mount_root r) w r x H1) end.
        destruct r0 as [creds|e]; cbn [fst]; [|by apply aside_mount_ended].
        match goal with |- context [mount_cifs_with_creds_file r ?st creds ?x] =>
          after (aside_cifs_creds (share_id r) w r st creds x Hw0) end.
        apply aside_mount_ended; [|done]. destruct creds; [|done]. apply aside_outside; [done|].
        intros root. apply keeps_remove_file.
      * unfold mount_nfs.
        after (aside_run (share_id r) (mount_root r) w (mount_program cfg) (mount_wrapper_args cfg ++ build_nfs_mount_args r)
                 (mount_timeout_ms cfg) _ H1 (last_wrapped _ _ _ _ _)).
        destruct r0 as [output|e]; cbn [fst]; [|by apply aside_mount_ended].
        destruct (bool_decide (exit_code output = Some 0%Z)).
        -- match goal with |- context [save ?x] =>
             assert (aside (share_id r) (mount_root r) w (save x).1) as H3 by by apply aside_changed end.
           revert H3. destruct (save _) as [? ?]; cbn [fst]; intros H3. by apply aside_mount_ended.
        -- destruct (classify_mount_failure _ _ _ _ _). by apply aside_mount_ended.
    + destruct e; by apply aside_set.
Qed.

Lemma aside_reconcile w r : aside (share_id r) (mount_root r) w (reconcile_record w r).
Proof.
  pose proof (aside_refl (share_id r) (mount_root r) w) as Hw. unfold reconcile_record. case_match.
  - case_match; [done|]. after (aside_adopt _ _ w r (now_ms (outside w)) w Hw). by apply aside_set.
  - case_match; [|done]. by apply aside_event, aside_set.
Qed.

(** ** A share that the operator took down *)

(** The share rests: its state, its mount point, and nothing else is mounted there. *)
Definition resting (id : ShareId) (root : str) (e : ShareStateEntry) (w : World) : Prop :=
  share_states w !! id = Some e /\ up w root = false /\
  forall id' root', (id', root') ∈ places w -> id' = id <-> root' = root.

Lemma resting_aside id root e id' at_ w w' :
  resting id root e w -> aside id' at_ w w' -> id' <> id -> at_ <> root -> resting id root e w'.
Proof.
  intros (H1 & H2 & H3) (A1 & A2 & A3 & _) Hid Hat. split_and!.
  - by rewrite A2.
  - by rewrite A1.
  - by rewrite A3.
Qed.

Lemma place_of w id r : find_share id (state w) = Some r -> (id, mount_root r) ∈ places w.
Proof. intros [<- Hr]%find_share_Some. by apply (list_elem_of_fmap_2 (fun x => (share_id x, mount_root x))). Qed.

(** The commands since [w0] are not about [root]. *)
Definition quiet (root : str) (w0 w : World) : Prop :=
  exists l, commands w = commands w0 ++ l /\ Forall (fun c => ~ about root c) l.

Lemma quiet_aside id root at_ w0 w w' : quiet root w0 w -> aside id at_ w w' -> at_ <> root -> quiet root w0 w'.
Proof.
  intros (l & Hl & Hf) (_ & _ & _ & l' & Hl' & Hf') Hat. exists (l ++ l'). rewrite Hl', Hl, <-app_assoc. split; [done|].
  apply Forall_app. split; [done|]. eapply Forall_impl; [exact Hf'|]. unfold about. intros c ->. congruence.
Qed.

Lemma resting_mounts id root e ids w0 w :
  resting id root e w -> quiet root w0 w -> id ∉ ids ->
  resting id root e (mount_each ids w).1 /\ quiet root w0 (mount_each ids w).1.
Proof.
  revert w. induction ids as [|id' ids IH]; intros w Hw Hq Hid; [done|]. apply not_elem_of_cons in Hid as [Hne Hid].
  cbn [mount_each].
  assert (resting id root e (mount_share id' w).1 /\ quiet root w0 (mount_share id' w).1) as [H1 H2].
  { unfold mount_share. destruct (find_share id' (state w)) as [r|] eqn:Hf; [|done].
    pose proof (place_of _ _ _ Hf) as Hp. apply Hw in Hp. apply find_share_Some in Hf as [<- _].
    pose proof (aside_mount w r) as Ha. split; [by eapply resting_aside; [..|naive_solver]|by eapply quiet_aside; [..|naive_solver]]. }
  destruct (mount_share id' w) as [w1 res]. cbn [fst] in *. specialize (IH w1 H1 H2 Hid).
  by destruct (mount_each ids w1) as [w2 rest].
Qed.

Lemma resting_reconcile id root e w0 w :
  resting id root e w -> e_state e <> Mounted -> quiet root w0 w ->
  resting id root e (reconcile_os_mount_states w) /\ quiet root w0 (reconcile_os_mount_states w).
Proof.
  intros Hw He Hq. unfold reconcile_os_mount_states.
  assert (Hl : forall r, r ∈ shares (state w) -> share_id r = id <-> mount_root r = root).
  { intros r Hr. apply Hw. by apply (list_elem_of_fmap_2 (fun x => (share_id x, mount_root x))). }
  revert Hl Hw Hq. generalize (shares (state w)). intros l. revert w.
  induction l as [|r l IH]; intros w Hl Hw Hq; [done|]. cbn [foldl].
  pose proof (Hl r ltac:(set_solver)) as Hr. apply IH; [set_solver| |].
  - destruct (decide (share_id r = id)) as [Hid|Hid]; [|eapply resting_aside; [exact Hw|apply aside_reconcile|done|tauto]].
    replace (reconcile_record w r) with w; [done|]. destruct Hw as (H1 & H2 & _). apply Hr in Hid as Hroot.
    unfold reconcile_record. unfold up in H2. rewrite Hroot, H2, Hid, H1. rewrite bool_decide_eq_false_2; [done|congruence].
  - destruct (decide (share_id r = id)) as [Hid|Hid]; [|eapply quiet_aside; [exact Hq|apply aside_reconcile|tauto]].
    replace (reconcile_record w r) with w; [done|]. destruct Hw as (H1 & H2 & _). apply Hr in Hid as Hroot.
    unfold reconcile_record. unfold up in H2. rewrite Hroot, H2, Hid, H1. rewrite bool_decide_eq_false_2; [done|congruence].
Qed.

Hypothesis walked : forall m, in_some_order m ≡ₚ map_to_list m.

Lemma remount_candidates_spec id m :
  id ∈ remount_candidates m <->
  exists e, m !! id = Some e /\ is_down e /\ e_class e <> Some Permanent /\ operator_detached e = false.
Proof.
  unfold remount_candidates. rewrite list_elem_of_fmap. setoid_rewrite list_elem_of_filter. setoid_rewrite walked.
  split.
  - intros ([id' e] & -> & H & Hin%elem_of_map_to_list). by exists e.
  - intros (e & Hin & H). exists (id, e). by rewrite elem_of_map_to_list.
Qed.

Lemma unreachable_candidates_spec id m :
  id ∈ unreachable_candidates m <-> exists e, m !! id = Some e /\ is_down e /\ e_class e = Some Unreachable.
Proof.
  unfold unreachable_candidates. rewrite list_elem_of_fmap. setoid_rewrite list_elem_of_filter. setoid_rewrite walked.
  split.
  - intros ([id' e] & -> & H & Hin%elem_of_map_to_list). by exists e.
  - intros (e & Hin & H). exists (id, e). by rewrite elem_of_map_to_list.
Qed.

Definition is_pass (o : Op) : Prop := o = Reconcile \/ o = UnreachablePoll \/ o = RemountPass.

Lemma resting_passes id root e ps w0 w :
  resting id root e w -> quiet root w0 w -> e_state e <> Mounted -> e_class e <> Some Unreachable ->
  operator_detached e = true \/ e_class e = Some Permanent -> Forall is_pass ps ->
  resting id root e (foldl (fun w o => run_op o w) w ps) /\ quiet root w0 (foldl (fun w o => run_op o w) w ps).
Proof.
  intros Hw Hq He Hc Hd Hps. revert w Hw Hq. induction Hps as [|o ps Ho _ IH]; intros w Hw Hq; [done|]. cbn [foldl].
  destruct (resting_reconcile id root e w0 w Hw He Hq) as [Hw' Hq'].
  destruct Ho as [->|[->| ->]]; cbn [run_op]; [by apply IH| |].
  - unfold unreachable_poll_pass.
    destruct (resting_mounts id root e (unreachable_candidates (share_states (reconcile_os_mount_states w))) w0 _ Hw' Hq') as [H1 H2];
      [|by apply IH].
    intros (e' & He' & _ & Hu)%unreachable_candidates_spec. destruct Hw' as (H1 & _). congruence.
  - unfold remount_retry_pass.
    destruct (resting_mounts id root e (remount_candidates (share_states (reconcile_os_mount_states w))) w0 _ Hw' Hq') as [H1 H2];
      [|by apply IH].
    intros (e' & He' & _ & Hp & Hdt)%remount_candidates_spec. destruct Hw' as (H1 & _). destruct Hd; congruence.
Qed.

Lemma state_update root w : state (trigger_mpd_update root w) = state w.
Proof. unfold trigger_mpd_update. by repeat case_match. Qed.

Lemma state_set id st reason class vers w : state (set_share_state_classified id st reason class vers w) = state w.
Proof. unfold set_share_state_classified. by destruct st. Qed.

Lemma unmount_state id force w : state (unmount_share_ex id force w).1 = state w.
Proof.
  unfold unmount_share_ex. destruct (find_share id (state w)) as [r|]; [|done].
  destruct (umount_invocation r force) as [program args]. unfold run_command. destruct (run _ _ _ _) as [s [output|e]].
  - cbn [fst]. destruct (unmount_outcome id r force output _) as [?|e]; cbn [unmount_ended].
    + change (state (publish_share_event ?ev ?x)) with (state x). unfold set_share_state.
      rewrite state_update, state_set. unfold release_player. by case_match.
    + change (state (publish_share_event ?ev ?x)) with (state x). unfold set_share_state, set_share_failed.
      case_match; rewrite state_set; unfold release_player; by case_match.
  - cbn. unfold release_player. by case_match.
Qed.

Lemma unmount_disk id force w : disk (unmount_share_ex id force w).1 = disk w.
Proof.
  unfold unmount_share_ex. destruct (find_share id (state w)) as [r|]; [|done].
  assert (Hset : forall i st a c v x, disk (set_share_state_classified i st a c v x) = disk x)
    by (intros; unfold set_share_state_classified; by case_match).
  assert (Hr : forall x, disk (release_player (mount_root r) x) = disk x) by (intros; unfold release_player; by case_match).
  assert (Hu : forall x, disk (trigger_mpd_update (mount_root r) x) = disk x)
    by (intros; unfold trigger_mpd_update; by repeat case_match).
  destruct (umount_invocation r force) as [program args]. unfold run_command. destruct (run _ _ _ _) as [s [output|e]];
    [|apply Hr]. cbn [fst]. destruct (unmount_outcome id r force output _) as [?|e]; cbn [unmount_ended];
    change (disk (publish_share_event ?ev ?x)) with (disk x); unfold set_share_state, set_share_failed.
  - by rewrite Hu, Hset, <-(Hr w).
  - case_match; by rewrite Hset, <-(Hr w).
Qed.


(** A mount that failed leaves the share down, with the class of the failure. *)
Lemma mount_failure_recorded r w w1 e :
  mount_record r w = (w1, Err e) ->
  exists entry, share_states w1 !! share_id r = Some entry /\ e_class entry = Some (failure_class e) /\
    (e_state entry = Failed \/ e_state entry = Unmounted).
Proof.
  unfold mount_record. destruct (mount_point_check _ _).
  { destruct (adopt_existing_os_mount _ _ _) as [w2 rep]. by case_match. }
  assert (Hfail : forall e w, exists entry, share_states (set_share_failed (share_id r) e w) !! share_id r = Some entry /\
    e_class entry = Some (failure_class e) /\ (e_state entry = Failed \/ e_state entry = Unmounted)).
  { intros e0 w0. unfold set_share_failed.
    destruct (set_entry (share_id r) Failed (Some (display cfg e0)) (Some (failure_class e0)) None w0) as (en & H1 & H2 & H3 & _).
    exists en. auto. }
  destruct (_ && _); [intros [= <- <-]; apply Hfail|].
  destruct (ensure_credential_stocked r w) as [?|e0].
  - destruct (match fstype r with Cifs => _ | Nfs => _ end) as [w2 res] eqn:Hm. intros [= <- ->]. cbn [mount_ended]. apply Hfail.
  - intros [= <- <-]. destruct e0; try apply Hfail.
    destruct (set_entry (share_id r) Unmounted (Some (display cfg (CredentialMissing key)))
      (Some (failure_class (CredentialMissing key))) None w) as (en & H1 & H2 & H3 & _). exists en. auto.
Qed.

(** A share whose mount was refused for good (a wrong or missing password) stays as it is,
    with the reason, through every sequence of passes: no pass runs a command on its mount
    point, so a password is never offered twice. *)
Theorem refused_share_is_left_alone id w w1 e root ps :
  (forall id' root', (id', root') ∈ places w -> id' = id <-> root' = root) ->
  (id, root) ∈ places w -> NoDup (ids_of (state w)) ->
  dispatch_verb (MountShare id) w = (w1, Err (OfMount e)) -> failure_class e = Permanent -> up w1 root = false ->
  Forall is_pass ps ->
  let w' := foldl (fun w o => run_op o w) w1 ps in
  share_states w' !! id = share_states w1 !! id /\ up w' root = false /\ quiet root w1 w'.
Proof.
  intros Hp Hin Hnd Hv Hc Hup Hps. cbn [dispatch_verb] in Hv.
  destruct (mount_share id w) as [w2 [rep|e']] eqn:Hm; [done|]. injection Hv as <- <-. unfold mount_share in Hm.
  apply list_elem_of_fmap in Hin as (r & Hr & Hin). injection Hr as -> ->. rewrite (find_share_elem _ _ Hnd Hin) in Hm.
  pose proof (aside_mount w r) as (_ & _ & Hpl & _). rewrite Hm in Hpl. cbn in Hpl.
  destruct (mount_failure_recorded _ _ _ _ Hm) as (en & He & Hcl & Hst).
  assert (Hw : resting (share_id r) (mount_root r) en w2) by (split_and!; [done|done|by rewrite Hpl]).
  destruct (resting_passes _ _ en ps w2 _ Hw) as [(H1 & H2 & _) H3].
  - exists []. by rewrite app_nil_r.
  - destruct Hst; congruence.
  - congruence.
  - right. congruence.
  - done.
  - cbn zeta. split_and!; [congruence|done|done].
Qed.

(** ** The ladder *)

(** The executor of the source fails with an input-output error only. *)
Hypothesis subprocess : forall p args t s s' e, run p args t s = (s', Err e) -> exists text, e = SubprocessIo text.
Definition exhausted (e : MountError) : bool := match e with DialectProbeExhausted _ _ => true | _ => false end.

(** The dialects in the order they are tried, each once. *)
Definition plan (r : ShareRecord) : list str :=
  match persisted_vers r with
  | Some v => v :: filter (fun d => d <> v) CIFS_VERS_PROBE_LADDER
  | None => CIFS_VERS_PROBE_LADDER
  end.
Definition cifs_command (r : ShareRecord) (creds : option str) (d : str) : str * list str :=
  (mount_program cfg, mount_wrapper_args cfg ++ build_cifs_mount_args r d creds).

Lemma commands_save w : commands (save w).1 = commands w.
Proof. unfold save. by destruct (write_state _ _). Qed.

Lemma attempt_tries r d creds start w :
  let w' := (attempt_cifs_dialect r d creds start w).1 in
  commands w' = commands w ++ [cifs_command r creds d] /\
  forall rep, (attempt_cifs_dialect r d creds start w).2 = Ok (inl rep) ->
    negotiated_version rep = Some d \/ up w' (mount_root r) = true.
Proof.
  cbn zeta. unfold attempt_cifs_dialect, run_command. destruct (run _ _ _ _) as [s [output|e]]; [|by split].
  destruct (bool_decide _).
  - unfold finalise_mount_success.
    match goal with |- context [save ?x] => pose proof (commands_save x) as Hc; destruct (save x) as [w2 saved_] end.
    cbn in Hc |- *. split; [done|].
    intros rep. destruct saved_; [|done]. intros [= <-]. by left.
  - destruct (mount_point_check _ _) eqn:Hup.
    + match goal with |- context [adopt_existing_os_mount r start ?x] =>
        destruct (adopt_frame r start x) as [Ha _]; assert (Hc : commands (adopt_existing_os_mount r start x).1 = commands x) end.
      { unfold adopt_existing_os_mount. cbn [fst]. repeat case_match; by rewrite ?commands_save. }
      destruct (adopt_existing_os_mount _ _ _) as [w2 rep]. cbn in *. split; [done|]. intros rep' [= <-]. right. by rewrite Ha.
    + destruct (classify_mount_failure _ _ _ _ _) as [k text]. split; [done|]. intros rep. cbn. by destruct k.
Qed.

Lemma attempt_not_exhausted r d creds start w e :
  (attempt_cifs_dialect r d creds start w).2 = Err e -> exhausted e = false.
Proof.
  unfold attempt_cifs_dialect, run_command. destruct (run _ _ _ _) as [s [output|e0]] eqn:Hr.
  - destruct (bool_decide _).
    + unfold finalise_mount_success. destruct (save _) as [w2 [?|?]]; [done|]. by intros [= <-].
    + destruct (mount_point_check _ _); [by destruct (adopt_existing_os_mount _ _ _)|].
      destruct (classify_mount_failure _ _ _ _ _) as [k text]. destruct k; by intros [= <-].
  - apply subprocess in Hr as [text ->]. by intros [= <-].
Qed.

Lemma tries r creds start ds : forall attempted last w,
  exists n, (n <= length ds)%nat /\
    commands (try_dialects r creds start attempted last ds w).1 = commands w ++ map (cifs_command r creds) (take n ds) /\
    match (try_dialects r creds start attempted last ds w).2 with
    | Ok (inr (attempted', _)) => n = length ds /\ attempted' = attempted ++ ds
    | Ok (inl rep) => exists k, n = Datatypes.S k /\
        (negotiated_version rep = ds !! k \/ up (try_dialects r creds start attempted last ds w).1 (mount_root r) = true)
    | Err e => exhausted e = false
    end.
Proof.
  induction ds as [|d ds IH]; intros attempted last w; cbn [try_dialects].
  { exists 0%nat. cbn. by rewrite !app_nil_r. }
  destruct (attempt_tries r d creds start w) as [Hc Hrep]. pose proof (attempt_not_exhausted r d creds start w) as He.
  destruct (attempt_cifs_dialect r d creds start w) as [w1 [[rep|text]|e]]; cbn [fst snd] in *.
  - exists 1%nat. split; [cbn; lia|]. split; [done|]. exists 0%nat. split; [done|]. by apply Hrep.
  - destruct (IH (attempted ++ [d]) text w1) as (n & Hn & Hcs & Hres). exists (Datatypes.S n). split; [cbn; lia|]. split.
    + rewrite Hcs, Hc, <-app_assoc. done.
    + destruct (try_dialects r creds start (attempted ++ [d]) text ds w1).2 as [[rep|[att l]]|e]; [| |done].
      * destruct Hres as (k & -> & H). by exists (Datatypes.S k).
      * destruct Hres as [-> ->]. split; [done|]. by rewrite <-app_assoc.
  - exists 1%nat. split; [cbn; lia|]. split; [done|]. by apply He.
Qed.

(** An SMB mount tries the dialects of the plan in order, each at most once: first the one
    that worked the last time, then the ladder from the lowest.  It stops at the first that
    mounts and reports it, and says that all failed only when all were tried. *)
Theorem ladder_in_order r start creds w :
  lacks_password r creds = None ->
  let w' := (mount_cifs_with_creds_file r start creds w).1 in
  exists n, (n <= length (plan r))%nat /\ commands w' = commands w ++ map (cifs_command r creds) (take n (plan r)) /\
    match (mount_cifs_with_creds_file r start creds w).2 with
    | Ok rep => exists k, n = Datatypes.S k /\ (negotiated_version rep = plan r !! k \/ up w' (mount_root r) = true)
    | Err (DialectProbeExhausted attempted _) => n = length (plan r) /\ attempted = plan r
    | Err _ => True
    end.
Proof.
  intros Hl. cbn zeta. rewrite mount_cifs_unfold, Hl.
  destruct (tries r creds start (first_dialects r) [] [] w) as (n & Hn & Hc & Hres). unfold first_dialects, plan in *.
  destruct (persisted_vers r) as [v|] eqn:Hv.
  - destruct (try_dialects r creds start [] [] [v] w) as [w1 [[rep|[att l]]|e]]; cbn [fst snd] in *.
    + exists n. cbn in Hn. destruct Hres as (k & -> & H). assert (k = 0%nat) as -> by lia. split; [rewrite ?length_cons; lia|]. split; [done|].
      by exists 0%nat.
    + destruct Hres as [-> ->]. unfold clear_persisted_vers.
      match goal with |- context [save ?x] => pose proof (commands_save x) as Hs; destruct (save x) as [w2 [?|e]] end; cbn in Hs.
      * destruct (tries r creds start (filter (fun d => d <> v) CIFS_VERS_PROBE_LADDER) ([] ++ [v]) l w2) as (m & Hm & Hc2 & Hres2).
        destruct (try_dialects r creds start ([] ++ [v]) l _ w2) as [w3 res]. cbn [fst snd] in *.
        exists (Datatypes.S m). split; [rewrite ?length_cons; lia|]. split.
        { rewrite Hc2, Hs, Hc, <-app_assoc. done. }
        destruct res as [[rep|[att2 l2]]|e].
        -- destruct Hres2 as (k & -> & H). by exists (Datatypes.S k).
        -- by destruct Hres2 as [-> ->].
        -- by destruct e.
      * exists 1%nat. split; [rewrite ?length_cons; lia|]. cbn. split; [|done]. by rewrite Hs.
    + exists n. cbn in Hn. split; [rewrite ?length_cons; lia|]. split; [|by destruct e].
      destruct n as [|[|n]]; [done|done|lia].
  - destruct (try_dialects r creds start [] [] CIFS_VERS_PROBE_LADDER w) as [w1 [[rep|[att l]]|e]]; cbn [fst snd] in *.
    + by exists n.
    + destruct Hres as [-> ->]. by exists (length CIFS_VERS_PROBE_LADDER).
    + exists n. split; [done|]. split; [done|]. by destruct e.
Qed.

(** ** Unmounting *)

Lemma run_frame p args t w :
  let w' := (run_command p args t w).1 in
  share_states w' = share_states w /\ state w' = state w /\ disk w' = disk w /\
  forall e, (run_command p args t w).2 = Err e -> exists text, e = SubprocessIo text.
Proof.
  unfold run_command. destruct (run _ _ _ _) as [s [output|e]] eqn:Hr; cbn; split_and!; try done.
  intros e' [= <-]. by eapply subprocess.
Qed.

Lemma release_frame root w :
  share_states (release_player root w) = share_states w /\ state (release_player root w) = state w /\
  disk (release_player root w) = disk w.
Proof. unfold release_player. by case_match. Qed.

Lemma event_frame e w :
  share_states (publish_share_event e w) = share_states w /\ state (publish_share_event e w) = state w /\
  disk (publish_share_event e w) = disk w /\ forall root, up (publish_share_event e w) root = up w root.
Proof. done. Qed.

Lemma save_frame w :
  let w' := (save w).1 in
  share_states w' = share_states w /\ state w' = state w /\
  disk w' = if is_ok (save w).2 then state w else disk w.
Proof. unfold save. by destruct (write_state _ _) as [s [?|?]]. Qed.

Lemma update_frame root w :
  share_states (trigger_mpd_update root w) = share_states w /\ state (trigger_mpd_update root w) = state w /\
  disk (trigger_mpd_update root w) = disk w.
Proof. unfold trigger_mpd_update. by repeat case_match. Qed.

Hypothesis keeps_release : forall a s root, mount_point_check (await_mpd_release a s) root = mount_point_check s root.

(** Whether a command ran, or could not be started or waited for. *)
Definition ran (e : MountError) : bool := match e with SubprocessIo _ => false | _ => true end.

(** After an unmount that was tried, what is recorded is what the mount table says: a share
    that is still mounted stays Mounted, with the dialect it had; a refusal over nothing is
    a failure, of a class that is tried again. *)
Theorem unmount_truthful id force w w' res root :
  unmount_share_ex id force w = (w', res) ->
  (id, root) ∈ places w -> NoDup (ids_of (state w)) ->
  match res with
  | Ok _ => recorded w' id = Some Unmounted
  | Err e =>
      if ran e then
        recorded w' id = Some (if up w' root then Mounted else Failed) /\
        option_map e_class (share_states w' !! id) = Some (if up w' root then None else Some Transient) /\
        (up w' root = true -> option_map e_vers (share_states w' !! id) = Some (share_states w !! id ≫= e_vers))
      else share_states w' = share_states w
  end.
Proof.
  intros Hu (r & Hr & Hin)%list_elem_of_fmap Hnd. injection Hr as -> ->. revert Hu. unfold unmount_share_ex.
  rewrite (find_share_elem _ _ Hnd Hin). destruct (umount_invocation r force) as [program args].
  destruct (run_frame program args (mount_timeout_ms cfg) (release_player (mount_root r) w)) as (F1 & _ & _ & F4).
  destruct (release_frame (mount_root r) w) as (R1 & _ & _). rewrite R1 in F1.
  destruct (run_command _ _ _ _) as [w1 [output|e]]; cbn [fst snd] in *.
  2: { intros [= <- <-]. destruct (F4 e eq_refl) as [text ->]. exact F1. }
  intros [= <- <-]. destruct (unmount_outcome (share_id r) r force output w1) as [[]|e] eqn:Ho; cbn [unmount_ended].
  { unfold recorded. rewrite (proj1 (event_frame _ _)), states_update. apply set_recorded. }
  assert (Hne : failure_class e = Transient /\ ran e = true).
  { unfold unmount_outcome in Ho. destruct (bool_decide _); [done|]. destruct (_ && _); by injection Ho as <-. }
  rewrite (proj2 Hne). unfold recorded. rewrite (proj1 (event_frame _ _)), (proj2 (proj2 (proj2 (event_frame _ _))) (mount_root r)).
  unfold set_share_state, set_share_failed. fold (up w1 (mount_root r)). destruct (up w1 (mount_root r)) eqn:Hup;
    match goal with |- context [set_share_state_classified ?i ?st ?a ?c ?v ?x] =>
      destruct (set_entry i st a c v x) as (en & -> & E1 & E2 & _ & E4 & _);
      destruct (set_frame i st a c v x) as [-> _] end; rewrite Hup; cbn; rewrite E1, E2, ?E4, ?F1.
  - split_and!; [done|done|]. intros _. by destruct (share_states w !! share_id r).
  - destruct Hne as [-> _]. by split_and!.
Qed.

(** Bug: disconnecting a share whose mount is already gone fails, the operator's wish is
    not remembered, and the remount pass takes the share up again. *)
Theorem disconnect_of_absent_mount_is_retried id w w' res root :
  unmount_share_ex id false w = (w', Err res) -> (id, root) ∈ places w -> NoDup (ids_of (state w)) ->
  ran res = true -> up w' root = false ->
  option_map operator_detached (share_states w !! id) = Some false ->
  dispatch_verb (UnmountShare id (Some false)) w = (w', Err (OfMount res)) /\ id ∈ remount_candidates (share_states w').
Proof.
  intros Hu Hp Hnd Hne Hup Hd. split; [cbn; by rewrite Hu|].
  pose proof (unmount_truthful _ _ _ _ _ _ Hu Hp Hnd) as Ht. cbn in Ht. rewrite Hne, Hup in Ht.
  assert (recorded w' id = Some Failed /\ option_map e_class (share_states w' !! id) = Some (Some Transient)) as [H1 H2].
  { by destruct Ht as (? & ? & _). }
  apply remount_candidates_spec. unfold recorded in H1. destruct (share_states w' !! id) as [en|] eqn:He; [|done].
  injection H1 as H1. injection H2 as H2. exists en. split_and!; [done|by left|congruence|].
  revert Hu He. unfold unmount_share_ex. destruct (find_share id (state w)) as [r|] eqn:Hf; [|].
  - destruct (umount_invocation r false) as [program args].
    destruct (run_frame program args (mount_timeout_ms cfg) (release_player (mount_root r) w)) as (F1 & _ & _ & F4).
    destruct (release_frame (mount_root r) w) as (R1 & _ & _). rewrite R1 in F1.
    destruct (run_command _ _ _ _) as [w1 [output|e]]; cbn [fst snd] in *.
    2: { intros [= <- <-]. by destruct (F4 e eq_refl) as [text ->]. }
    intros [= <- Ho]. rewrite Ho. cbn [unmount_ended]. rewrite (proj1 (event_frame _ _)).
    apply find_share_Some in Hf as [<- _]. unfold set_share_state, set_share_failed. case_match;
      match goal with |- context [set_share_state_classified ?i ?st ?a ?c ?v ?x] =>
        destruct (set_entry i st a c v x) as (en' & -> & E1 & _ & _ & _ & E5) end; intros [= <-].
    + congruence.
    + rewrite E5, F1. destruct (share_states w !! share_id r); cbn in Hd; congruence.
  - exfalso. apply find_share_None in Hf. apply Hf. apply list_elem_of_fmap in Hp as (r & [= -> _] & Hr).
    by apply list_elem_of_fmap_2.
Qed.

End keeps.

(** ** Editing *)

Lemma changes_false {A} `{EqDecision A} (edit : option A) old : changes edit old = false <-> default old edit = old.
Proof. destruct edit as [v|]; cbn; [|done]. rewrite negb_false_iff, bool_decide_eq_true. done. Qed.

(** An edit that changes nothing is one that leaves the record as it is. *)
Lemma apply_to_unchanged e r : (apply_to e r).2 = false -> (apply_to e r).1 = r.
Proof.
  unfold apply_to, is_material_against. cbn. rewrite !orb_false_iff, !changes_false. intros (H1 & ((((H2 & H3) & H4) & H5) & H6)).
  rewrite H1, H2, H3, H4, H5, H6. apply changes_false in H2. rewrite H2. by destruct r.
Qed.

(** Editing: a refusal leaves the runtime alone; an edit that changes nothing writes nothing;
    otherwise the record has the new fields, keeps its identity, mount point and times,
    loses its dialect exactly when the type changed, and is on disk; the other records
    stay.  (When the mount is up and the edit bears on it, the mount is cycled.) *)
Theorem edit_correct id edits w w' res :
  (forall st s, exists s', write_state st s = (s', Ok tt)) ->
  edit_share id edits w = (w', res) ->
  match res with
  | Err _ => w' = w
  | Ok false => w' = w /\ exists r, find_share id (state w) = Some r /\ (apply_to edits r).1 = r
  | Ok true => exists r, find_share id (state w) = Some r /\ (apply_to edits r).1 <> r /\
      (is_material_against edits r = false \/ (forall s, mount_point_check s (mount_root r) = false) ->
       disk w' = state w' /\
       forall id', find_share id' (state w') = if decide (id' = id) then Some (apply_to edits r).1 else find_share id' (state w))
  end.
Proof.
  intros Hwr. unfold edit_share. destruct (refuse_blank_edit (new_alias edits) BlankAlias); [|by intros [= <- <-]].
  destruct (refuse_blank_edit (new_host edits) BlankHost); [|by intros [= <- <-]].
  destruct (refuse_blank_edit (new_path edits) BlankPath); [|by intros [= <- <-]].
  destruct (find_share id (state w)) as [r|] eqn:Hf; cbn [ok_or]; [|by intros [= <- <-]].
  pose proof (apply_to_unchanged edits r) as Hun. destruct (apply_to edits r) as [r' changed] eqn:Ha. cbn [fst snd] in *.
  destruct changed; [|by intros [= <- <-]; split; [|exists r; rewrite Ha; auto]].
  destruct (saved Hwr (find_mut id (fun _ => r') (state w)) w) as [s ->]. intros [= <- <-]. exists r. rewrite Ha. split; [done|]. split.
  - cbn. intros ->. unfold apply_to in Ha. injection Ha as Hr Hc. rewrite orb_true_iff in Hc. unfold is_material_against in Hc.
    rewrite !orb_true_iff in Hc.
    assert (Hch : forall A (EA : EqDecision A) (e : option A) x, changes e x = true -> default x e <> x)
      by (intros A EA e x H1 H2%changes_false; congruence).
    pose proof (f_equal alias Hr) as E1. pose proof (f_equal fstype Hr) as E2. pose proof (f_equal host Hr) as E3.
    pose proof (f_equal path Hr) as E4. pose proof (f_equal credentials Hr) as E5. pose proof (f_equal advanced_options Hr) as E6.
    cbn in *. destruct Hc as [Hc|[[[[Hc|Hc]|Hc]|Hc]|Hc]]; apply Hch in Hc; done.
  - intros Hcyc. set (w1 := publish_configured _).
    assert (H1 : state w1 = find_mut id (fun _ => r') (state w) /\ disk w1 = state w1).
    { subst w1. cbn. unfold update_share_state_alias. cbn. by destruct (share_states w !! id). }
    replace (is_material_against edits r && mount_point_check (outside w1) (mount_root r)) with false.
    2: { symmetry. destruct Hcyc as [->|Hc]; [done|]. rewrite Hc. apply andb_false_r. }
    destruct H1 as [H1 H2]. split; [done|]. intros id'. rewrite H1.
    assert (Hid : share_id r' = id) by (unfold apply_to in Ha; injection Ha as <- _; by apply find_share_Some in Hf as [? _]).
    clear -Hid Hf. revert Hf. unfold find_share, find_mut. cbn [shares with_shares].
    induction (shares (state w)) as [|x l IH]; cbn; [done|]. destruct (with_id id x) eqn:Hx.
    + intros [= ->]. cbn. case_decide as Hd.
      * subst id'. by rewrite (proj2 (with_id_spec _ _)).
      * apply with_id_spec in Hx. rewrite !(not_true_is_false (with_id _ _)); [done|..]; rewrite with_id_spec; congruence.
    + intros Hf. cbn. rewrite IH by done. case_decide; [by subst; rewrite Hx|done].
Qed.

(** ** What a failed write leaves *)

(** Divergence: a share that could not be saved was refused, and is in the list all the
    same, without a state of its own. *)
Theorem failed_add_keeps_the_share r e w :
  refuse_blank (alias r) BlankAlias = Ok tt -> refuse_blank (host r) BlankHost = Ok tt ->
  refuse_blank (path r) BlankPath = Ok tt -> find_share (share_id r) (state w) = None ->
  (forall st s, (write_state st s).2 = Err e) ->
  let '(w', res) := add_share r w in
  res = Err e /\ r ∈ shares (state w') /\ disk w' = disk w /\ share_states w' = share_states w.
Proof.
  intros H1 H2 H3 Hf Hw. unfold add_share. rewrite H1, H2, H3. unfold insert_share. rewrite Hf. unfold save.
  specialize (Hw (with_shares (shares (state w) ++ [r]) (state w)) (outside w)). cbn [state with_state].
  change (outside (with_state ?st w)) with (outside w). destruct (write_state _ _) as [s rw]. cbn in Hw. subst rw. cbn.
  split_and!; [done| |done|done]. set_solver.
Qed.

(** Bug: a share whose removal could not be saved is out of the list, and its state stays:
    the passes find it, and every attempt ends in [ShareNotFound]. *)
Theorem failed_removal_leaves_a_ghost id r e w :
  find_share id (state w) = Some r -> NoDup (ids_of (state w)) -> (forall st s, (write_state st s).2 = Err e) ->
  let '(w', res) := remove_share id w in
  res = Err e /\ share_states w' = share_states w /\ disk w' = disk w /\
  find_share id (state w') = None /\ mount_share id w' = (w', Err (ShareNotFound id)).
Proof.
  intros Hf Hnd Hw. unfold remove_share, remove_record. rewrite Hf. unfold save.
  specialize (Hw (with_shares (remove_first id (shares (state w))) (state w)) (outside w)). cbn [state with_state].
  change (outside (with_state ?st w)) with (outside w). destruct (write_state _ _) as [s rw]. cbn in Hw. subst rw.
  assert (Hn : find_share id (with_shares (remove_first id (shares (state w))) (state w)) = None).
  { apply find_share_None. unfold ids_of. cbn. rewrite (proj2 (remove_first_ids id _ Hnd)). tauto. }
  cbn [state]. split_and!; try done. unfold mount_share. cbn [state]. by rewrite Hn.
Qed.

(** Bug: a share that is removed while its mount is under way gets a state back when the
    mount fails: the remount pass finds it, and no attempt takes it away. *)
Theorem late_failure_makes_a_ghost r e w :
  find_share (share_id r) (state w) = None -> share_states w !! share_id r = None -> failure_class e = Transient ->
  (forall m, in_some_order m ≡ₚ map_to_list m) ->
  let w' := mount_ended r (Err e) w in
  share_id r ∈ remount_candidates (share_states w') /\ mount_share (share_id r) w' = (w', Err (ShareNotFound (share_id r))).
Proof.
  intros Hf Hs Hc Hwalk. cbn zeta. cbn [mount_ended]. set (w1 := match e with AuthenticationRefused _ _ _ => _ | _ => _ end).
  assert (Hst : share_states w1 = share_states w /\ state w1 = state w) by (subst w1; by repeat case_match).
  destruct Hst as [H1 H2]. split.
  - apply (remount_candidates_spec Hwalk). unfold set_share_failed.
    destruct (set_entry (share_id r) Failed (Some (display cfg e)) (Some (failure_class e)) None w1) as (en & He & E1 & E2 & _ & _ & E5).
    exists en. rewrite He. split_and!; [done|by left|congruence|]. by rewrite E5, H1, Hs.
  - unfold mount_share. assert (state (set_share_failed (share_id r) e w1) = state w) as -> by (cbn; exact H2). by rewrite Hf.
Qed.

(** Bug: when the credentials file cannot be made private it stays behind, password and
    all: the mount ends without removing it. *)
Theorem unprotected_file_stays r start username key domain password s1 s2 e w :
  credentials r = UserPassword username key domain -> fetch_password (outside w) key = Some (Ok password) ->
  write_file (creds_path r) (compose_cifs_credentials_file username password domain) (outside w) = (s1, Ok tt) ->
  set_private (creds_path r) s1 = (s2, Err e) ->
  mount_cifs r start w = (with_outside s2 w, Err (SubprocessIo (lit "stage credentials file: " ++ e))).
Proof.
  intros Hc Hf Hw Hs. unfold mount_cifs, stage_mount_credentials_file. by rewrite Hc, Hf, Hw, Hs.
Qed.

(** ** Events *)

Lemma make_room_skipn l : make_room l = skipn (length l - (SHARE_EVENTS_RING_CAPACITY - 1)) l.
Proof.
  induction l as [|e l IH]; [done|]. cbn [make_room]. destruct (Nat.leb_spec SHARE_EVENTS_RING_CAPACITY (length (e :: l))) as [H|H].
  - rewrite IH. cbn [length] in *. replace (Datatypes.S (length l) - (SHARE_EVENTS_RING_CAPACITY - 1))%nat
      with (Datatypes.S (length l - (SHARE_EVENTS_RING_CAPACITY - 1))) by (unfold SHARE_EVENTS_RING_CAPACITY in *; lia). done.
  - replace (length (e :: l) - (SHARE_EVENTS_RING_CAPACITY - 1))%nat with 0%nat; [done|]. lia.
Qed.

(** The ring has the last events, in order, and no more than it may. *)
Theorem ring_has_the_last es w :
  (length (ring w) <= SHARE_EVENTS_RING_CAPACITY)%nat ->
  ring (foldl (fun w e => publish_share_event e w) w es) =
    skipn (length (ring w ++ es) - SHARE_EVENTS_RING_CAPACITY) (ring w ++ es).
Proof.
  intros Hw. induction es as [|e es IH] using rev_ind.
  - rewrite app_nil_r. cbn. by replace (length (ring w) - SHARE_EVENTS_RING_CAPACITY)%nat with 0%nat by lia.
  - rewrite foldl_app. cbn [foldl]. change (ring (publish_share_event e ?x)) with (make_room (ring x) ++ [e]).
    rewrite make_room_skipn, IH, length_skipn, skipn_skipn, app_assoc. generalize (ring w ++ es). intros l.
    rewrite (skipn_app _ l [e]), length_app. cbn [length]. unfold SHARE_EVENTS_RING_CAPACITY.
    replace (length l + 1 - 32 - length l)%nat with 0%nat by lia. cbn [skipn]. f_equal. f_equal. lia.
Qed.
End runtime.

(** ** A concrete outside

    The mounts that are up, and the passwords that are stored.  The server speaks 3.0 and
    refuses the user of the share of music. *)
Record Toy := { mounts : list str; keys : list str }.
Definition toy_says (code : Z) (text : string) : result CommandOutput MountError :=
  Ok {| exit_code := Some code; stdout := []; stderr := lit text |}.
Definition toy_run (program : str) (args : list str) (timeout_ms : N) (s : Toy) : Toy * result CommandOutput MountError :=
  match last args with
  | None => (s, toy_says 1 "")
  | Some root =>
      if decide (program = lit "/bin/umount") then
        if str_in root (mounts s) then
          ({| mounts := filter (fun m => m <> root) (mounts s); keys := keys s |}, toy_says 0 "")
        else (s, toy_says 32 "not mounted")
      else if decide (program = lit "/bin/mount") then
        if existsb (str_contains (lit "credentials=")) args then (s, toy_says 32 "mount error(13): Permission denied")
        else if existsb (str_contains (lit "vers=3.0,")) args then
          ({| mounts := root :: mounts s; keys := keys s |}, toy_says 0 "")
        else (s, toy_says 32 "mount error(95): Operation not supported")
      else (s, toy_says 1 "")
  end.

#[export] Instance toy_outside : Outside Toy := {
  run := toy_run;
  mount_point_check s root := str_in root (mounts s);
  read_host_proc_mounts s := [];
  own_proc_mounts s := None;
  host_reachable s h p := true;
  journal s u := None;
  holder_probe s root := [];
  now_ms s := 1000;
  fetch_password s k := if str_in k (keys s) then Some (Ok (lit "secret")) else None;
  store_password k p s := ({| mounts := mounts s; keys := k :: keys s |}, Ok tt);
  delete_password k s := ({| mounts := mounts s; keys := filter (fun k' => k' <> k) (keys s) |}, Ok tt);
  write_file p b s := (s, Ok tt);
  set_private p s := (s, Ok tt);
  remove_file p s := s;
  create_dir_all p s := s;
  remove_dir p s := s;
  write_state st s := (s, Ok tt);
  await_mpd_release root s := s;
  mpc_update a s := s;
  mint_id s := (s, lit "new");
  hostname s := None }.

#[export] Instance toy_keeps : KeepsMounts (S := Toy).
Proof.
  split; try done. intros p args t s root Hl. cbn. unfold toy_run. destruct (last args) as [root'|]; [|done].
  assert (root <> root') as Hne by congruence. unfold str_in.
  destruct (decide (p = _)); [destruct (bool_decide (root' ∈ _)); [|done]|].
  - cbn. apply bool_decide_ext. rewrite list_elem_of_filter. tauto.
  - destruct (decide (p = _)); [|done]. destruct (existsb _ args); [done|]. destruct (existsb _ args); [|done].
    cbn. apply bool_decide_ext. rewrite elem_of_cons. tauto.
Qed.

Lemma toy_writes (st : NetworkSharesState) (s : Toy) : exists s', write_state st s = (s', Ok tt).
Proof. by exists s. Qed.

Lemma toy_subprocess p args t (s s' : Toy) e : run p args t s = (s', Err e) -> exists text, e = SubprocessIo text.
Proof. cbn. unfold toy_run. by repeat case_match. Qed.

Definition toy_cfg : Config := {|
  mount_program := lit "/bin/mount"; mount_wrapper_args := []; umount_program := lit "/bin/umount";
  umount_wrapper_args := []; mount_timeout_ms := 30000; avahi_browse_program := []; avahi_browse_timeout_ms := 1;
  smbclient_program := []; smbclient_timeout_ms := 1; showmount_program := []; has_store := true;
  state_dir := lit "/s"; display := fun _ => lit "error" |}.
Definition films : ShareRecord := new_record (lit "f") (lit "Films") Cifs (lit "nas") (lit "films") Guest [] 0.
Definition music : ShareRecord :=
  new_record (lit "m") (lit "Music") Cifs (lit "nas") (lit "music") (UserPassword (lit "bob") (lit "k") None) [] 0.
Definition toy_state : NetworkSharesState := {| schema_version := 1; shares := [films; music] |}.
Definition toy_world : World (S := Toy) := {|
  outside := {| mounts := []; keys := [lit "k"] |}; state := toy_state; disk := toy_state;
  share_states := seed_share_states toy_state 0; ring := []; discovered := []; attached := true; published := [];
  commands := [] |}.
Definition toy_op : Op (S := Toy) -> World -> World := run_op toy_cfg map_to_list.

(** The films are mounted with the third dialect, the music is refused. *)
Example toy_mounts : (mount_share toy_cfg (lit "f") toy_world).2 =
  Ok {| report_share := lit "f"; report_root := lit "/var/lib/evo/music/NAS/Films"; negotiated_version := Some (lit "3.0");
        elapsed_ms := 0 |}.
Proof. by vm_compute. Qed.
Example toy_refuses : (dispatch_verb toy_cfg (MountShare (lit "m")) toy_world).2 =
  Err (OfMount (AuthenticationRefused (lit "m") (Some 32%Z) (lit "mount error(13): Permission denied"))).
Proof. by vm_compute. Qed.

Lemma toy_ok : ok toy_world.
Proof.
  constructor; try (by vm_compute); try (by apply (bool_decide_unpack _)).
  intros id. rewrite <-elem_of_dom, <-(elem_of_list_to_set (C := gset str)).
  assert (dom (share_states toy_world) = list_to_set (ids_of (state toy_world))) as -> by (by apply (bool_decide_unpack _)).
  done.
Qed.

Lemma toy_places id root : (id, root) ∈ places toy_world ->
  (id = lit "f" /\ root = lit "/var/lib/evo/music/NAS/Films") \/ (id = lit "m" /\ root = lit "/var/lib/evo/music/NAS/Music").
Proof.
  intros H. apply elem_of_cons in H as [H|H]; [left; by injection H as -> ->|].
  apply list_elem_of_singleton in H. right. by injection H as -> ->.
Qed.

Lemma pair_with_second {A B} (x : A * B) (b : B) : x.2 = b -> x = (x.1, b).
Proof. destruct x. by intros <-. Qed.

Definition toy_ops : list (Op (S := Toy)) :=
  [Boot true; Verb (UnmountShare (lit "f") None); RemountPass; Verb (RemoveShare (lit "m")); Reconcile].


Lemma reconcile_correct_witness :
  let w := with_outside {| mounts := [lit "/var/lib/evo/music/NAS/Films"]; keys := [] |} toy_world in
  recorded (reconcile_os_mount_states w) (lit "f") = Some Mounted.
Proof.
  cbn zeta. destruct (reconcile_correct (S := Toy)
    (with_outside {| mounts := [lit "/var/lib/evo/music/NAS/Films"]; keys := [] |} toy_world)) as [_ H].
  - by apply (bool_decide_unpack _).
  - destruct (H films) as [-> _]; [by apply (bool_decide_unpack _)|by vm_compute].
Defined.


Lemma refused_share_is_left_alone_witness :
  let w1 := (dispatch_verb toy_cfg (MountShare (lit "m")) toy_world).1 in
  share_states (foldl (fun w o => toy_op o w) w1 [RemountPass; UnreachablePoll]) !! lit "m" = share_states w1 !! lit "m".
Proof.
  cbn zeta.
  refine (proj1 (refused_share_is_left_alone toy_cfg map_to_list (fun m => reflexivity _) (lit "m") toy_world
    (dispatch_verb toy_cfg (MountShare (lit "m")) toy_world).1
    (AuthenticationRefused (lit "m") (Some 32%Z) (lit "mount error(13): Permission denied"))
    (lit "/var/lib/evo/music/NAS/Music") [RemountPass; UnreachablePoll] _ _ _ _ _ _ _)).
  - intros id root Hp. by apply toy_places in Hp as [[-> ->]|[-> ->]].
  - by apply (bool_decide_unpack _).
  - by apply (bool_decide_unpack _).
  - apply pair_with_second. by vm_compute.
  - done.
  - by vm_compute.
  - by repeat constructor; unfold is_pass; auto.
Defined.

Lemma ladder_in_order_witness :
  exists n, map snd (commands (mount_cifs_with_creds_file toy_cfg films 0 None toy_world).1) =
    map (fun d => build_cifs_mount_args films d None) (take n CIFS_VERS_PROBE_LADDER).
Proof.
  destruct (ladder_in_order toy_cfg toy_subprocess films 0 None toy_world) as (n & _ & H & _); [done|].
  exists n. rewrite H. cbn [app toy_world commands]. rewrite map_map. reflexivity.
Defined.

