(* ===== verification/SambaServer.v ===== *)
(** * The SMB server
    ([plugins/org.evoframework.network.smb-server/src/runtime.rs], [SambaServerRuntime])

    The settings of the file server and its users: the text of [smb.conf] and which shares
    it may export, the names a user may have, applying the settings (write, check, install,
    restart), adding and revoking a user across the state file, the vault and the system,
    and reconciling with the users the system has.  Commands, files, the vault and the
    clock are the interface [SambaOutside].  An operation runs as a whole, but for the
    theorems on two adds and two applies at once, which run the steps they are made of. *)

From S2P Require Import Prelude.
Local Open Scope N_scope.

(** ** Data *)

(** [MinProtocol] *)
Inductive MinProtocol := DefaultProtocol | Smb2_02 | Smb3_02.
#[export] Instance MinProtocol_eq_dec : EqDecision MinProtocol.
Proof. solve_decision. Defined.
Definition as_smbd_value (p : MinProtocol) : option str :=
  match p with
  | DefaultProtocol => None
  | Smb2_02 => Some (lit "SMB2_02")
  | Smb3_02 => Some (lit "SMB3_02")
  end.
Definition as_wire_str (p : MinProtocol) : str :=
  match p with DefaultProtocol => lit "default" | Smb2_02 => lit "smb2_02" | Smb3_02 => lit "smb3_02" end.

(** [ExtraShare], [SmbUserRecord], [SmbUserPublic] *)
Record ExtraShare := { name : str; path : str; guest_ok : bool }.
#[export] Instance ExtraShare_eq_dec : EqDecision ExtraShare.
Proof. solve_decision. Defined.
Record SmbUserRecord := {
  username : str; mapped_domain_identity : option str; created_at_ms : Z; credential_key : str }.
#[export] Instance SmbUserRecord_eq_dec : EqDecision SmbUserRecord.
Proof. solve_decision. Defined.
Record SmbUserPublic := {
  public_username : str; public_mapped_domain_identity : option str; public_created_at_ms : Z }.
Definition public_of (r : SmbUserRecord) : SmbUserPublic :=
  {| public_username := username r; public_mapped_domain_identity := mapped_domain_identity r;
     public_created_at_ms := created_at_ms r |}.

(** [SmbServerState] *)
Definition SMB_SERVER_SCHEMA_VERSION : N := 1.
Record SmbServerState := {
  schema_version : N; enabled : bool; min_protocol : MinProtocol; extra_shares : list ExtraShare;
  smb_users : list SmbUserRecord; last_apply_at_ms : option Z }.
#[export] Instance SmbServerState_eq_dec : EqDecision SmbServerState.
Proof. solve_decision. Defined.
Definition empty_state : SmbServerState :=
  {| schema_version := SMB_SERVER_SCHEMA_VERSION; enabled := false; min_protocol := DefaultProtocol;
     extra_shares := []; smb_users := []; last_apply_at_ms := None |}.
Definition with_settings (e : bool) (p : MinProtocol) (l : list ExtraShare) (st : SmbServerState) : SmbServerState :=
  {| schema_version := schema_version st; enabled := e; min_protocol := p; extra_shares := l;
     smb_users := smb_users st; last_apply_at_ms := last_apply_at_ms st |}.
Definition with_users (l : list SmbUserRecord) (st : SmbServerState) : SmbServerState :=
  {| schema_version := schema_version st; enabled := enabled st; min_protocol := min_protocol st;
     extra_shares := extra_shares st; smb_users := l; last_apply_at_ms := last_apply_at_ms st |}.
Definition applied_at (t : Z) (st : SmbServerState) : SmbServerState :=
  {| schema_version := schema_version st; enabled := enabled st; min_protocol := min_protocol st;
     extra_shares := extra_shares st; smb_users := smb_users st; last_apply_at_ms := Some t |}.

(** [SmbServerStateError], [ApplyError], [RefusedSetting], [ApplyReport], [CommandOutput] *)
Inductive SmbServerStateError :=
| Io (detail : str)
| TomlParse (detail : str)
| TomlRender (detail : str)
| SchemaVersionMismatch (found expected : N).
Inductive ApplyError :=
| Persistence (e : SmbServerStateError)
| TestparmFailed (exit_code : option Z) (stderr : str)
| ConfigInstall (detail : str)
| RestartFailed (exit_code : option Z) (stderr : str)
| UserSyncFailed (username : str) (exit_code : option Z) (stderr : str)
| CredentialMissing (key : str)
| CredentialVaultUnavailable
| CredentialDeleteFailed (key detail : str)
| SubprocessIo (detail : str)
| UserNotFound (username : str)
| UserAlreadyExists (username : str)
| AddRollbackFailed (username wrapper_stderr rollback_detail : str)
| InvalidUsername (username : str)
| BlockedUsername (username : str).
Record RefusedSetting := { setting : str; reason : str }.
Record ApplyReport := {
  applied_shares : list str; refused_settings : list RefusedSetting; smbd_restarted : bool; applied_at_ms : Z }.
Record CommandOutput := { exit_code : option Z; stdout : str; stderr : str }.

(** [SmbServerState::load], of the text of the file as the TOML library reads it. *)
Definition load (file : result (result SmbServerState str) (option str)) : result SmbServerState SmbServerStateError :=
  match file with
  | Ok (Ok st) =>
      if schema_version st =? SMB_SERVER_SCHEMA_VERSION then Ok st
      else Err (SchemaVersionMismatch (schema_version st) SMB_SERVER_SCHEMA_VERSION)
  | Ok (Err e) => Err (TomlParse e)
  | Err None => Ok empty_state
  | Err (Some e) => Err (Io e)
  end.

(** ** The configuration *)

(** [path_matches_allowlist], [matched_denylist_prefix] *)
Definition SLASH : char := 47.
Definition trim_end_slashes (s : str) : str := rev (drop_while (N.eqb SLASH) (rev s)).
Definition matches_prefix (candidate prefix : str) : bool :=
  let normalised := trim_end_slashes candidate in
  let p := trim_end_slashes prefix in
  bool_decide (normalised = p) ||
  match strip_prefix p normalised with Some rest => starts_with [SLASH] rest | None => false end.
Definition path_matches_allowlist (candidate : str) (allowlist : list str) : bool :=
  existsb (matches_prefix candidate) allowlist.
Definition matched_denylist_prefix (candidate : str) (denylist : list str) : option str :=
  option_map trim_end_slashes (find (matches_prefix candidate) denylist).

(** [push_stock_share]: the lines of a section. *)
Definition yes_no (b : bool) : str := if b then lit "yes" else lit "no".
Definition share_lines (nm pth comment : str) (guest : bool) : list str :=
  [lit "[" ++ nm ++ lit "]";
   lit "        comment = " ++ comment;
   lit "        path = " ++ pth;
   lit "        read only = no";
   lit "        guest ok = " ++ yes_no guest;
   lit "        force user = root";
   lit "        force group = root";
   lit "        create mask = 0664";
   lit "        directory mask = 0775";
   []].

(** The stock and the delivery shares: name, path, comment. *)
Definition STOCK_SHARES : list (str * str * str) :=
  [(lit "Internal Storage", lit "/var/lib/evo/music/INTERNAL", lit "evo local music library");
   (lit "USB", lit "/var/lib/evo/music/USB", lit "evo removable-media library");
   (lit "NAS", lit "/var/lib/evo/music/NAS", lit "evo NAS mount parent");
   (lit "Uploads", lit "/var/lib/evo/uploads", lit "evo generic upload target");
   (lit "evo-plugins-stage", lit "/var/lib/evo/plugins/stage", lit "evo plugin bundle stage (framework stage watcher)")].

(** The global section. *)
Definition global_lines (st : SmbServerState) (netbios_name workgroup : str) : list str :=
  [lit "[global]";
   lit "netbios name = " ++ netbios_name;
   lit "server string = evo audiophile source";
   lit "workgroup = " ++ workgroup;
   lit "security = user";
   lit "map to guest = Bad User";
   lit "encrypt passwords = yes";
   lit "local master = no";
   lit "preferred master = no";
   lit "os level = 30"] ++
  match as_smbd_value (min_protocol st) with Some v => [lit "server min protocol = " ++ v] | None => [] end ++
  [lit "load printers = no";
   lit "printing = bsd";
   lit "printcap name = /dev/null";
   lit "disable spoolss = yes";
   lit "usershare max shares = 0";
   []].

(** One operator share: its lines, or why it is refused. *)
Fixpoint comma_join (l : list str) : str :=
  match l with
  | [] => []
  | [x] => x
  | x :: l' => x ++ lit ", " ++ comma_join l'
  end.
Definition extra_lines (s : ExtraShare) : list str :=
  share_lines (name s) (path s) (lit "evo extra share " ++ name s) (guest_ok s).
Definition judge (allowlist denylist : list str) (s : ExtraShare) : option RefusedSetting :=
  match matched_denylist_prefix (path s) denylist with
  | Some deny =>
      Some {| setting := name s;
              reason := lit "path " ++ path s ++ lit " is under a framework denylist prefix (" ++ deny ++
                lit ") " ++ [8212] ++ lit " shares under secrets / rejected-bundle paths are never exported" |}
  | None =>
      if path_matches_allowlist (path s) allowlist then None
      else Some {| setting := name s;
                   reason := lit "path " ++ path s ++ lit " not in framework allowlist (" ++
                     comma_join allowlist ++ lit ")" |}
  end.
Fixpoint extras (allowlist denylist : list str) (l : list ExtraShare) : list str * list str * list RefusedSetting :=
  match l with
  | [] => ([], [], [])
  | s :: l' =>
      let '(ls, applied, refused) := extras allowlist denylist l' in
      match judge allowlist denylist s with
      | Some r => (ls, applied, r :: refused)
      | None => (extra_lines s ++ ls, name s :: applied, refused)
      end
  end.

(** [render_smb_conf]: the text, the shares that are exported, the ones that are refused. *)
Definition stock_lines : list str :=
  concat (map (fun s => share_lines s.1.1 s.1.2 s.2 false) STOCK_SHARES).
Definition render_smb_conf (st : SmbServerState) (netbios_name workgroup : str) (allowlist denylist : list str)
  : str * list str * list RefusedSetting :=
  let '(ls, applied, refused) := extras allowlist denylist (extra_shares st) in
  (unlines (global_lines st netbios_name workgroup ++ stock_lines ++ ls),
   map (fun s => s.1.1) STOCK_SHARES ++ applied, refused).

Definition DEFAULT_SHARE_PATH_ALLOWLIST : list str :=
  [lit "/var/lib/evo/music"; lit "/var/lib/evo/uploads"; lit "/var/lib/evo/plugins/stage"].
Definition DEFAULT_SHARE_PATH_DENYLIST : list str :=
  [lit "/var/lib/evo/settings"; lit "/var/lib/evo/plugins/stage/rejected"].

(** [read_live_hostname], [resolve_netbios_name]; the host name is what the kernel's file
    holds, when it can be read. *)
Definition DEFAULT_NETBIOS_NAME : str := lit "EvoDevice".
Definition read_live_hostname (hostname_file : option str) : str :=
  match hostname_file with Some s => trim s | None => [] end.
Definition resolve_netbios_name (override : option str) (hostname_file : option str) : str :=
  let live := let host := read_live_hostname hostname_file in
              if str_is_empty host then DEFAULT_NETBIOS_NAME else host in
  match override with
  | Some n => if negb (str_is_empty n) then n else live
  | None => live
  end.

(** ** Names of users *)

Definition SMB_USERNAME_BLOCKLIST : list str :=
  [lit "root"; lit "nobody"; lit "nfsnobody"; lit "daemon"; lit "bin"; lit "sys"; lit "sync"; lit "games"; lit "man";
   lit "lp"; lit "mail"; lit "news"; lit "uucp"; lit "proxy"; lit "www-data"; lit "backup"; lit "list"; lit "irc";
   lit "gnats"; lit "systemd-network"; lit "systemd-resolve"; lit "messagebus"; lit "sshd"; lit "smbd"; lit "nmbd";
   lit "avahi"; lit "mpd"].

(** [is_valid_smb_username_shape]: on the bytes, which for a valid name are its characters. *)
Definition name_start (b : N) : bool := is_ascii_lower b || (b =? 95).
Definition name_rest (b : N) : bool := is_ascii_lower b || is_ascii_digit b || (b =? 95) || (b =? 45).
Definition is_valid_smb_username_shape (s : str) : bool :=
  match as_bytes s with
  | [] => false
  | b :: rest => (N.of_nat (length (as_bytes s)) <=? 32) && name_start b && forallb name_rest rest
  end.

(** [normalize_smb_username] *)
Definition normalize_smb_username (raw : str) : result str ApplyError :=
  let u := to_ascii_lowercase (trim raw) in
  if is_valid_smb_username_shape u then Ok u else Err (InvalidUsername u).

(** [detect_service_user_from_procfs], of the two files. *)
Definition effective_uid (status : str) : option N :=
  match find (starts_with (lit "Uid:")) (lines status) with
  | Some l => match split_whitespace l !! 2%nat with Some f => parse_u32 f | None => None end
  | None => None
  end.
Fixpoint user_of (uid : N) (rows : list str) : option str :=
  match rows with
  | [] => None
  | row :: rows' =>
      match split_char 58 row with
      | n :: _ :: u :: _ =>
          match parse_u32 u with
          | Some u' =>
              if u' =? uid then
                let n' := to_ascii_lowercase (trim n) in
                if str_is_empty n' then user_of uid rows' else Some n'
              else user_of uid rows'
          | None => None
          end
      | _ => None
      end
  end.
Definition detect_service_user_from_procfs (status passwd : option str) : option str :=
  match status with
  | Some st =>
      match effective_uid st with
      | Some uid => match passwd with Some p => user_of uid (lines p) | None => None end
      | None => None
      end
  | None => None
  end.

(** [blocked_smb_usernames] *)
Definition push_new (n : str) (l : list str) : list str := if str_in n l then l else l ++ [n].
Definition push_env (v : option str) (l : list str) : list str :=
  match v with
  | Some v => let n := to_ascii_lowercase (trim v) in if str_is_empty n then l else push_new n l
  | None => l
  end.
Definition blocked_smb_usernames (status passwd env_service env_user : option str) : list str :=
  let l := match detect_service_user_from_procfs status passwd with
           | Some n => push_new n SMB_USERNAME_BLOCKLIST
           | None => SMB_USERNAME_BLOCKLIST
           end in
  push_env env_user (push_env env_service l).

(** [is_rfc1123_hostname] *)
Definition is_rfc1123_hostname (n : str) : bool :=
  let bytes := as_bytes n in
  match head bytes, last bytes with
  | Some b, Some e =>
      (N.of_nat (length bytes) <=? 63) && is_ascii_alphanumeric b && is_ascii_alphanumeric e &&
      forallb (fun c => is_ascii_alphanumeric c || (c =? 45)) bytes
  | _, _ => false
  end.

(** ** The outside

    A command that runs, and whatever writes, moves the outside on; the rest reads it. *)
Class SambaOutside (S : Type) := {
  run : str -> list str -> N -> list N -> S -> S * result CommandOutput str;
  write_file : str -> str -> S -> S * result unit str;
  (* the text of a state is made, written aside and renamed over the file *)
  replace_file : SmbServerState -> S -> S * result unit SmbServerStateError;
  set_private : S -> S * result unit str;
  (* whether the file can be read back *)
  read_back : S -> result unit SmbServerStateError;
  fetch_password : S -> str -> option (list N);
  delete_password : str -> S -> S * result unit str;
  nss_probe : S -> str -> bool;
  now_ms : S -> N;
  hostname_file : S -> option str;
  proc_status : S -> option str;
  passwd_file : S -> option str;
  env : S -> str -> option str;
  set_hostname : str -> S -> S
}.

(** What the runtime is built with ([SambaServerRuntimeBuilder]); the text of an error is
    written by a library. *)
Record Config := {
  sudo_program : str; smb_conf_path : str; candidate_path : str; netbios_override : option str; workgroup : str;
  path_allowlist : list str; path_denylist : list str; subprocess_timeout_ms : N; operator_wired : bool;
  display : ApplyError -> str; display_state : SmbServerStateError -> str; show_code : option Z -> str }.

(** [SystemSmbServerEnvelope] *)
Record SystemSmbServerEnvelope := {
  v_enabled : bool; v_min_protocol : str; v_extra_shares : list ExtraShare; v_smb_users : list SmbUserPublic;
  v_last_apply_at_ms : option Z; v_hostname : str }.

(** What was done outside, with how it ended. *)
Inductive Effect :=
| Wrote (path text : str) (done : bool)
| Ran (args : list str) (stdin : list N) (out : result CommandOutput str)
| Deleted (key : str) (done : bool).

(** The arguments of the commands. *)
Definition SYNC : str := lit "/usr/local/bin/evo-smb-user-sync".
Definition build_testparm_args (config_path : str) : list str :=
  [lit "-n"; lit "/usr/bin/testparm"; lit "-s"; config_path].
Definition build_smb_user_sync_add_args (u : str) : list str := [lit "-n"; SYNC; lit "add"; u].
Definition build_smb_user_sync_delete_args (u : str) : list str := [lit "-n"; SYNC; lit "delete"; u].
Definition build_smb_user_sync_adopt_args (u : str) : list str := [lit "-n"; SYNC; lit "adopt"; u].
Definition build_smb_user_sync_list_args : list str := [lit "-n"; SYNC; lit "list"; lit "-"].
Definition build_systemctl_restart_args : list str :=
  [lit "-n"; lit "/usr/bin/systemctl"; lit "restart"; lit "smbd"].
Definition build_systemctl_stop_args : list str := [lit "-n"; lit "/usr/bin/systemctl"; lit "stop"; lit "smbd"].
Definition build_install_conf_args (candidate target : str) : list str :=
  [lit "-n"; lit "/usr/bin/install"; lit "-m"; lit "0644"; lit "-o"; lit "root"; lit "-g"; lit "root"; candidate;
   target].

Section runtime.
Context {S : Type} `{!SambaOutside S} (cfg : Config).

(** The runtime: the outside; the state in memory; what the state file holds, when there
    is one; whether a publisher is attached, and what was published; what was done. *)
Record World := {
  outside : S; state : SmbServerState; disk : option SmbServerState; attached : bool;
  published : list SystemSmbServerEnvelope; effects : list Effect }.
Definition with_outside (s : S) (w : World) : World :=
  {| outside := s; state := state w; disk := disk w; attached := attached w; published := published w;
     effects := effects w |}.
Definition with_state (st : SmbServerState) (w : World) : World :=
  {| outside := outside w; state := st; disk := disk w; attached := attached w; published := published w;
     effects := effects w |}.
Definition did (s : S) (e : Effect) (w : World) : World :=
  {| outside := s; state := state w; disk := disk w; attached := attached w; published := published w;
     effects := effects w ++ [e] |}.

(** [SubprocessSambaExecutor::run] through [sudo], its [write_file], and the vault. *)
Definition run_sudo (args : list str) (stdin : list N) (w : World) : World * result CommandOutput ApplyError :=
  let '(s, out) := run (sudo_program cfg) args (subprocess_timeout_ms cfg) stdin (outside w) in
  (did s (Ran args stdin out) w, map_err SubprocessIo out).
Definition write_candidate (text : str) (w : World) : World * result unit ApplyError :=
  let '(s, r) := write_file (candidate_path cfg) text (outside w) in
  (did s (Wrote (candidate_path cfg) text (is_ok r)) w, map_err ConfigInstall r).
Definition retract_password (key : str) (w : World) : World * result unit str :=
  let '(s, r) := delete_password key (outside w) in (did s (Deleted key (is_ok r)) w, r).

(** [SmbServerState::save]: the file is replaced before it is made private. *)
Definition save (w : World) : World * result unit SmbServerStateError :=
  let '(s, r) := replace_file (state w) (outside w) in
  match r with
  | Err e => (with_outside s w, Err e)
  | Ok _ =>
      let '(s, r) := set_private s in
      ({| outside := s; state := state w; disk := Some (state w); attached := attached w; published := published w;
          effects := effects w |}, map_err Io r)
  end.

(** [compose_envelope], [schedule_republish] *)
Definition compose_envelope (w : World) : SystemSmbServerEnvelope :=
  {| v_enabled := enabled (state w); v_min_protocol := as_wire_str (min_protocol (state w));
     v_extra_shares := extra_shares (state w); v_smb_users := map public_of (smb_users (state w));
     v_last_apply_at_ms := last_apply_at_ms (state w); v_hostname := read_live_hostname (hostname_file (outside w)) |}.
Definition schedule_republish (w : World) : World :=
  if attached w then
    {| outside := outside w; state := state w; disk := disk w; attached := true;
       published := published w ++ [compose_envelope w]; effects := effects w |}
  else w.

(** [builder] and [build], of the file's contents *)
Definition open_runtime (file : result (result SmbServerState str) (option str)) (s : S)
  : result World SmbServerStateError :=
  match load file with
  | Ok st =>
      Ok {| outside := s; state := st;
            disk := match file with Ok (Ok st) => Some st | _ => None end;
            attached := false; published := []; effects := [] |}
  | Err e => Err e
  end.

(** [as i64] *)
Definition as_i64 (n : N) : Z := if n <? 2 ^ 63 then Z.of_N n else (Z.of_N n - 2 ^ 64)%Z.
Definition succeeded (o : CommandOutput) : bool := bool_decide (exit_code o = Some 0%Z).

(** ** Applying the settings *)

(** [apply], in its steps: the new settings in memory with the text they render to; the
    candidate; the check; the installation; the daemon; the record. *)
Definition rendered (w : World) : str * list str * list RefusedSetting :=
  render_smb_conf (state w) (resolve_netbios_name (netbios_override cfg) (hostname_file (outside w))) (workgroup cfg)
    (path_allowlist cfg) (path_denylist cfg).
Definition apply_settings (e : bool) (p : MinProtocol) (l : list ExtraShare) (w : World) : World :=
  with_state (with_settings e p l (state w)) w.
Definition apply_check (w : World) : World * result unit ApplyError :=
  let '(w, out) := run_sudo (build_testparm_args (candidate_path cfg)) [] w in
  (w, match out with
      | Err e => Err e
      | Ok o => if succeeded o then Ok tt else Err (TestparmFailed (exit_code o) (stderr o))
      end).
Definition apply_install (w : World) : World * result unit ApplyError :=
  let '(w, out) := run_sudo (build_install_conf_args (candidate_path cfg) (smb_conf_path cfg)) [] w in
  (w, match out with
      | Err e => Err e
      | Ok o =>
          if succeeded o then Ok tt
          else Err (ConfigInstall (lit "sudo install returned exit code " ++ show_code cfg (exit_code o) ++ lit ": " ++ stderr o))
      end).
Definition apply_daemon (e : bool) (w : World) : World * result bool ApplyError :=
  let '(w, out) := run_sudo (if e then build_systemctl_restart_args else build_systemctl_stop_args) [] w in
  (w, match out with
      | Err err => Err err
      | Ok o => if succeeded o then Ok e else Err (RestartFailed (exit_code o) (stderr o))
      end).
Definition apply_record (now : Z) (w : World) : World * result unit ApplyError :=
  let '(w, saved) := save (with_state (applied_at now (state w)) w) in (w, map_err Persistence saved).
Definition apply (e : bool) (p : MinProtocol) (l : list ExtraShare) (w : World) : World * result ApplyReport ApplyError :=
  let now := as_i64 (now_ms (outside w)) in
  let w := apply_settings e p l w in
  let '(text, applied, refused) := rendered w in
  match write_candidate text w with
  | (w, Err err) => (w, Err err)
  | (w, Ok _) =>
      match apply_check w with
      | (w, Err err) => (w, Err err)
      | (w, Ok _) =>
          match apply_install w with
          | (w, Err err) => (w, Err err)
          | (w, Ok _) =>
              match apply_daemon e w with
              | (w, Err err) => (w, Err err)
              | (w, Ok restarted) =>
                  match apply_record now w with
                  | (w, Err err) => (w, Err err)
                  | (w, Ok _) =>
                      (schedule_republish w,
                       Ok {| applied_shares := applied; refused_settings := refused; smbd_restarted := restarted;
                             applied_at_ms := now |})
                  end
              end
          end
      end
  end.

(** [reconcile_smb_conf_on_load] *)
Definition reconcile_smb_conf_on_load (w : World) : World * result ApplyReport ApplyError :=
  apply (enabled (state w)) (min_protocol (state w)) (extra_shares (state w)) w.

(** ** Users *)

(** [validate_smb_username] *)
Definition validate_smb_username (raw : str) (w : World) : result str ApplyError :=
  let? u := normalize_smb_username raw in
  if str_in u (blocked_smb_usernames (proc_status (outside w)) (passwd_file (outside w))
                 (env (outside w) (lit "EVO_SERVICE_USER")) (env (outside w) (lit "USER")))
  then Err (BlockedUsername u) else Ok u.

(** [UserAddMode], [revert_user_state_mutation] *)
Inductive UserAddMode := AddFresh | AdoptFromOs | RekeyInPlace.
Definition is_user (u : str) (r : SmbUserRecord) : bool := bool_decide (username r = u).
Fixpoint update_first (u : str) (r : SmbUserRecord) (l : list SmbUserRecord) : list SmbUserRecord :=
  match l with
  | [] => []
  | x :: l' => if is_user u x then r :: l' else x :: update_first u r l'
  end.
Definition without (u : str) (l : list SmbUserRecord) : list SmbUserRecord := filter (fun r => username r <> u) l.
Definition revert_user_state_mutation (mode : UserAddMode) (u : str) (old : option SmbUserRecord)
    (st : SmbServerState) : SmbServerState :=
  match mode with
  | AddFresh | AdoptFromOs => with_users (without u (smb_users st)) st
  | RekeyInPlace =>
      match old with Some r => with_users (update_first u r (smb_users st)) st | None => st end
  end.

(** [add_user], in its steps: what is decided from what is there; the record; the password
    and the wrapper. *)
Record AddTask := { t_mode : UserAddMode; t_old : option SmbUserRecord; t_record : SmbUserRecord }.
Definition add_begin (raw key : str) (mapped : option str) (w : World) : result AddTask ApplyError :=
  let? u := validate_smb_username raw w in
  if negb (operator_wired cfg) then Err CredentialVaultUnavailable
  else
    let created := as_i64 (now_ms (outside w)) in
    let exists_ := nss_probe (outside w) u in
    let old := find (is_user u) (smb_users (state w)) in
    let record :=
      {| username := u;
         mapped_domain_identity :=
           match mapped with Some m => Some m | None => match old with Some r => mapped_domain_identity r | None => None end end;
         created_at_ms := match old with Some r => created_at_ms r | None => created end;
         credential_key := key |} in
    match old, exists_ with
    | None, false => Ok {| t_mode := AddFresh; t_old := old; t_record := record |}
    | None, true => Ok {| t_mode := AdoptFromOs; t_old := old; t_record := record |}
    | Some _, true => Ok {| t_mode := RekeyInPlace; t_old := old; t_record := record |}
    | Some _, false => Err (UserAlreadyExists u)
    end.
Definition put_user (t : AddTask) (st : SmbServerState) : SmbServerState :=
  match t_mode t with
  | AddFresh | AdoptFromOs => with_users (smb_users st ++ [t_record t]) st
  | RekeyInPlace => with_users (update_first (username (t_record t)) (t_record t) (smb_users st)) st
  end.
Definition take_back (t : AddTask) (w : World) : World :=
  with_state (revert_user_state_mutation (t_mode t) (username (t_record t)) (t_old t) (state w)) w.
Definition add_persist (t : AddTask) (w : World) : World * result unit ApplyError :=
  let '(w, saved) := save (with_state (put_user t (state w)) w) in
  match saved with
  | Ok _ => (w, Ok tt)
  | Err e => (take_back t w, Err (Persistence e))
  end.
Definition roll_back (t : AddTask) (wrapper_stderr : str) (e : ApplyError) (w : World)
  : World * result SmbUserRecord ApplyError :=
  let '(w, saved) := save (take_back t w) in
  (w, match saved with
      | Err rb => Err (AddRollbackFailed (username (t_record t)) wrapper_stderr (display_state cfg rb))
      | Ok _ => Err e
      end).
Definition wrapper_args (t : AddTask) : list str :=
  match t_mode t with
  | AddFresh => build_smb_user_sync_add_args (username (t_record t))
  | AdoptFromOs | RekeyInPlace => build_smb_user_sync_adopt_args (username (t_record t))
  end.
Definition add_finish (t : AddTask) (w : World) : World * result SmbUserRecord ApplyError :=
  let u := username (t_record t) in
  let key := credential_key (t_record t) in
  match fetch_password (outside w) key with
  | None => roll_back t (lit "credential vault has no entry for key " ++ key) (CredentialMissing key) w
  | Some password =>
      let '(w, out) := run_sudo (wrapper_args t) (password ++ [LF]) w in
      match out with
      | Ok o =>
          if succeeded o then (schedule_republish w, Ok (t_record t))
          else roll_back t (stderr o) (UserSyncFailed u (exit_code o) (stderr o)) w
      | Err e => roll_back t (lit "subprocess I/O error: " ++ display cfg e) e w
      end
  end.
Definition add_user (raw key : str) (mapped : option str) (w : World) : World * result SmbUserRecord ApplyError :=
  match add_begin raw key mapped w with
  | Err e => (w, Err e)
  | Ok t =>
      let '(w, persisted) := add_persist t w in
      match persisted with
      | Err e => (w, Err e)
      | Ok _ => add_finish t w
      end
  end.

(** [revoke_user] *)
Definition rehydrate (w : World) : World :=
  match read_back (outside w) with
  | Err _ => w
  | Ok _ =>
      match load (match disk w with Some st => Ok (Ok st) | None => Err None end) with
      | Ok st => with_state st w
      | Err _ => w
      end
  end.
Definition revoke_user (raw : str) (w : World) : World * result unit ApplyError :=
  match normalize_smb_username raw with
  | Err e => (w, Err e)
  | Ok u =>
      match find (is_user u) (smb_users (state w)) with
      | None => (w, Err (UserNotFound u))
      | Some r =>
          let '(w, out) := run_sudo (build_smb_user_sync_delete_args u) [] w in
          match out with
          | Err e => (w, Err e)
          | Ok o =>
              if succeeded o then
                let '(w, deleted) := retract_password (credential_key r) w in
                match deleted with
                | Err detail => (w, Err (CredentialDeleteFailed (credential_key r) detail))
                | Ok _ =>
                    let '(w, saved) := save (with_state (with_users (without u (smb_users (state w))) (state w)) w) in
                    match saved with
                    | Err e => (rehydrate w, Err (Persistence e))
                    | Ok _ => (schedule_republish w, Ok tt)
                    end
                end
              else (w, Err (UserSyncFailed u (exit_code o) (stderr o)))
          end
      end
  end.

(** [reconcile_smb_users_from_passdb] *)
Definition passdb_users (stdout : str) : list str :=
  filter (fun s => str_is_empty s = false) (map trim (lines stdout)).
Definition adopt (now : Z) (l : list SmbUserRecord) (u : str) : list SmbUserRecord :=
  if existsb (is_user u) l then l
  else l ++ [{| username := u; mapped_domain_identity := None; created_at_ms := now;
                credential_key := lit "smb_user:" ++ u |}].
Definition reconcile_smb_users_from_passdb (w : World) : World * nat :=
  let '(w, out) := run_sudo build_smb_user_sync_list_args [] w in
  match out with
  | Err _ => (w, 0%nat)
  | Ok o =>
      if succeeded o then
        let now := as_i64 (now_ms (outside w)) in
        let users := foldl (adopt now) (smb_users (state w)) (passdb_users (stdout o)) in
        let adopted := (length users - length (smb_users (state w)))%nat in
        let w := with_state (with_users users (state w)) w in
        if (0 <? adopted)%nat then (schedule_republish (save w).1, adopted) else (w, adopted)
      else (w, 0%nat)
  end.

(** ** Verbs *)

(** [apply_system_hostname_best_effort] *)
Definition apply_system_hostname_best_effort (n : str) (w : World) : World :=
  if is_rfc1123_hostname n then with_outside (set_hostname n (outside w)) w else w.

(** [dispatch_verb], of a request that was decoded *)
Inductive Request :=
| Apply (e : bool) (p : MinProtocol) (l : list ExtraShare) (system_hostname : option str)
| UserAdd (u key : str) (mapped : option str)
| UserRevoke (u : str)
| GetState.
Inductive Response :=
| Applied (r : ApplyReport)
| UserAdded (r : SmbUserPublic)
| UserRevoked
| StateIs (v : SystemSmbServerEnvelope).
Definition dispatch_verb (req : Request) (w : World) : World * result Response ApplyError :=
  match req with
  | Apply e p l h =>
      let w := match h with Some n => apply_system_hostname_best_effort n w | None => w end in
      let '(w, r) := apply e p l w in
      (w, match r with Ok r => Ok (Applied r) | Err e => Err e end)
  | UserAdd u key mapped =>
      let '(w, r) := add_user u key mapped w in
      (w, match r with Ok r => Ok (UserAdded (public_of r)) | Err e => Err e end)
  | UserRevoke u =>
      let '(w, r) := revoke_user u w in
      (w, match r with Ok _ => Ok UserRevoked | Err e => Err e end)
  | GetState => (w, Ok (StateIs (compose_envelope w)))
  end.

(** What happens to a runtime: a verb, the two passes of the plugin's load, the outside
    changing by itself. *)
Inductive Op := Verb (req : Request) | AdoptUsers | ApplyOnLoad | Elsewhere (s : S).
Definition run_op (o : Op) (w : World) : World :=
  match o with
  | Verb req => (dispatch_verb req w).1
  | AdoptUsers => (reconcile_smb_users_from_passdb w).1
  | ApplyOnLoad => (reconcile_smb_conf_on_load w).1
  | Elsewhere s => with_outside s w
  end.
End runtime.

(** ** What may be exported *)

(** A path under a prefix, as the text says it. *)
Definition under (prefix candidate : str) : Prop :=
  let c := trim_end_slashes candidate in
  let p := trim_end_slashes prefix in
  c = p \/ exists rest, c = p ++ SLASH :: rest.

Lemma matches_prefix_spec c p : matches_prefix c p = true <-> under p c.
Proof.
  unfold matches_prefix, under. rewrite orb_true_iff, bool_decide_eq_true.
  destruct (strip_prefix _ _) as [rest|] eqn:H.
  - apply strip_prefix_Some in H. rewrite starts_with_spec. split.
    + intros [Heq|[r ->]]; [by left|]. right. by exists r.
    + intros [Heq|[r Heq]]; [by left|]. right. exists r. rewrite H in Heq. by apply app_inv_head in Heq.
  - split; [intros [?|?]; [by left|done]|]. intros [?|[r Hr]]; [by left|].
    by rewrite Hr, strip_prefix_app in H.
Qed.

Lemma judge_spec allow deny s :
  judge allow deny s = None <->
  (exists p, p ∈ allow /\ under p (path s)) /\ forall p, p ∈ deny -> ~ under p (path s).
Proof.
  unfold judge, matched_denylist_prefix, path_matches_allowlist.
  assert (Hallow : existsb (matches_prefix (path s)) allow = true <-> exists p, p ∈ allow /\ under p (path s)).
  { rewrite existsb_exists. by setoid_rewrite matches_prefix_spec; setoid_rewrite list_elem_of_In. }
  destruct (find _ deny) as [d|] eqn:Hd; cbn.
  - split; [done|]. intros [_ Hno]. apply find_some in Hd as [Hin Hm].
    apply list_elem_of_In in Hin. by apply matches_prefix_spec, Hno in Hm.
  - rewrite <-Hallow. destruct (existsb _ allow); [|by split; [|intros [? _]]].
    split; [|done]. intros _. split; [done|]. intros p Hp%list_elem_of_In Hu%matches_prefix_spec.
    by rewrite (find_none _ _ Hd p Hp) in Hu.
Qed.

Lemma judge_setting allow deny s r : judge allow deny s = Some r -> setting r = name s.
Proof. unfold judge. repeat case_match; by intros [= <-]. Qed.

Lemma extras_spec allow deny l :
  extras allow deny l =
    (concat (map extra_lines (filter (fun s => judge allow deny s = None) l)),
     map name (filter (fun s => judge allow deny s = None) l), omap (judge allow deny) l).
Proof.
  induction l as [|s l IH]; [done|]. cbn [extras]. rewrite IH, omap_cons_app.
  destruct (judge allow deny s) as [r|] eqn:Hj.
  - by rewrite filter_cons_False by by rewrite Hj.
  - by rewrite filter_cons_True.
Qed.

(** ** Reading the configuration back *)

(** [smb.conf], read a line at a time: a header, a parameter, or nothing. *)
Inductive ConfLine := Header (n : str) | Param (k v : str) | Blank.
Definition LBRACKET : char := 91.
Definition RBRACKET : char := 93.
Definition EQUALS : char := 61.
Definition read_line (l : str) : ConfLine :=
  match trim l with
  | [] => Blank
  | c :: t =>
      if c =? LBRACKET then match split_once [RBRACKET] t with Some (n, _) => Header n | None => Blank end
      else if (c =? 35) || (c =? 59) then Blank
      else match split_once [EQUALS] (c :: t) with Some (k, v) => Param (trim k) (trim v) | None => Blank end
  end.
Fixpoint read_sections (ls : list str) : list (str * str) * list (str * list (str * str)) :=
  match ls with
  | [] => ([], [])
  | l :: ls' =>
      let '(ps, ss) := read_sections ls' in
      match read_line l with
      | Header n => ([], (n, ps) :: ss)
      | Param k v => ((k, v) :: ps, ss)
      | Blank => (ps, ss)
      end
  end.
Definition read_conf (text : str) : list (str * list (str * str)) := (read_sections (lines text)).2.

(** What the sections should be. *)
Definition share_params (pth comment : str) (guest : bool) : list (str * str) :=
  [(lit "comment", comment); (lit "path", pth); (lit "read only", lit "no"); (lit "guest ok", yes_no guest);
   (lit "force user", lit "root"); (lit "force group", lit "root"); (lit "create mask", lit "0664");
   (lit "directory mask", lit "0775")].
Definition stock_section (s : str * str * str) : str * list (str * str) := (s.1.1, share_params s.1.2 s.2 false).
Definition extra_section (s : ExtraShare) : str * list (str * str) :=
  (name s, share_params (path s) (lit "evo extra share " ++ name s) (guest_ok s)).
Definition global_section (st : SmbServerState) (netbios_name workgroup : str) : str * list (str * str) :=
  (lit "global",
   [(lit "netbios name", netbios_name); (lit "server string", lit "evo audiophile source");
    (lit "workgroup", workgroup); (lit "security", lit "user"); (lit "map to guest", lit "Bad User");
    (lit "encrypt passwords", lit "yes"); (lit "local master", lit "no"); (lit "preferred master", lit "no");
    (lit "os level", lit "30")] ++
   match as_smbd_value (min_protocol st) with Some v => [(lit "server min protocol", v)] | None => [] end ++
   [(lit "load printers", lit "no"); (lit "printing", lit "bsd"); (lit "printcap name", lit "/dev/null");
    (lit "disable spoolss", lit "yes"); (lit "usershare max shares", lit "0")]).

(** A value that fits on a line, and a name that fits in a header. *)
Definition plain (s : str) : Prop := tidy s /\ LF ∉ s.
Definition fits (s : ExtraShare) : Prop := plain (name s) /\ RBRACKET ∉ name s /\ plain (path s).

Lemma labelled_one_line a v : LF ∉ a -> plain v -> one_line (a ++ v).
Proof.
  intros Ha [(Hne & _ & Hl) Hv]. apply one_line_app; [done..|]. split; [done|].
  intros Hc. by specialize (Hl CR Hc).
Qed.

Lemma trim_indent n s : trim (replicate n 32 ++ s) = trim s.
Proof. induction n as [|n IH]; [done|]. cbn [replicate app]. by rewrite trim_space. Qed.

(** A parameter line, indented or not, is read as its name and value. *)
Lemma read_param n k v c k' :
  k = c :: k' -> tidy k -> EQUALS ∉ k -> c <> LBRACKET -> c <> 35 -> c <> 59 -> tidy v ->
  read_line (replicate n 32 ++ k ++ lit " = " ++ v) = Param k v.
Proof.
  intros -> Hk He H1 H2 H3 Hv. unfold read_line. rewrite trim_indent.
  assert (Hc : is_whitespace c = false) by (by destruct Hk as (_ & Hh & _); apply Hh).
  rewrite trim_tidy by (rewrite app_assoc; by apply (tidy_app c (k' ++ lit " = ") v)).
  cbn [app]. rewrite !(proj2 (N.eqb_neq _ _)) by done. cbn [orb].
  change (c :: k' ++ lit " = " ++ v) with ((c :: k') ++ [32] ++ EQUALS :: [32] ++ v). rewrite app_assoc.
  rewrite split_once_char_intro
    by (rewrite elem_of_app, list_elem_of_singleton; intros [?|?]; [done|discriminate]).
  f_equal; [by rewrite trim_space_end, trim_tidy|cbn [app]; by rewrite trim_space, trim_tidy].
Qed.

Lemma read_header n : plain n -> RBRACKET ∉ n -> read_line (lit "[" ++ n ++ lit "]") = Header n.
Proof.
  intros Hn Hb. unfold read_line. change (lit "[" ++ n ++ lit "]") with (LBRACKET :: n ++ [RBRACKET]).
  rewrite trim_delimited by done. cbn [N.eqb LBRACKET]. by rewrite split_once_char_intro.
Qed.

(** A section on top of text that begins with a header, or is empty. *)
Lemma read_section nm pth comment guest ls ss :
  plain nm -> RBRACKET ∉ nm -> plain pth -> plain comment -> read_sections ls = ([], ss) ->
  read_sections (share_lines nm pth comment guest ++ ls) = ([], (nm, share_params pth comment guest) :: ss).
Proof.
  intros Hn Hb [Hp _] [Hc _] Hls. unfold share_lines. cbn [app]. cbn [read_sections]. rewrite Hls, read_header by done.
  assert (Hrow : forall k v c k', k = c :: k' -> tidy k -> EQUALS ∉ k -> c <> LBRACKET -> c <> 35 -> c <> 59 -> tidy v ->
    read_line (lit "        " ++ k ++ lit " = " ++ v) = Param k v) by (intros; by eapply (read_param 8)).
  change (lit "        comment = " ++ comment) with (lit "        " ++ lit "comment" ++ lit " = " ++ comment).
  change (lit "        path = " ++ pth) with (lit "        " ++ lit "path" ++ lit " = " ++ pth).
  erewrite (Hrow (lit "comment")), (Hrow (lit "path"));
    try done; try (by apply (bool_decide_unpack _)); try (by split_and!; [|intros ? [= <-]|intros ? [= <-]]).
  by destruct guest.
Qed.

Lemma read_global st netbios wg ls ss :
  tidy netbios -> tidy wg -> read_sections ls = ([], ss) ->
  read_sections (global_lines st netbios wg ++ ls) = ([], global_section st netbios wg :: ss).
Proof.
  intros Hn Hw Hls. unfold global_lines, global_section.
  assert (Hrow : forall k v c k', k = c :: k' -> tidy k -> EQUALS ∉ k -> c <> LBRACKET -> c <> 35 -> c <> 59 -> tidy v ->
    read_line (k ++ lit " = " ++ v) = Param k v) by (intros; by eapply (read_param 0)).
  change (lit "netbios name = " ++ netbios) with (lit "netbios name" ++ lit " = " ++ netbios).
  change (lit "workgroup = " ++ wg) with (lit "workgroup" ++ lit " = " ++ wg).
  destruct (min_protocol st); cbn [as_smbd_value app read_sections]; rewrite Hls;
    erewrite (Hrow (lit "netbios name")), (Hrow (lit "workgroup"));
    try done; try (by apply (bool_decide_unpack _)); by split_and!; [|intros ? [= <-]|intros ? [= <-]].
Qed.

Lemma read_extras l : Forall fits l ->
  read_sections (concat (map extra_lines l)) = ([], map extra_section l).
Proof.
  induction 1 as [|s l (Hn & Hb & Hp) _ IH]; [done|]. cbn [map concat]. apply read_section; [done|done|done| |done].
  destruct Hn as [Hn Hlf]. split; [by apply (tidy_app 101 (lit "vo extra share "))|].
  rewrite elem_of_app. intros [Hin|?]; [|done]. by apply (bool_decide_unpack (LF ∉ lit "evo extra share ")) in Hin.
Qed.

Lemma read_stock ls ss : read_sections ls = ([], ss) ->
  read_sections (stock_lines ++ ls) = ([], map stock_section STOCK_SHARES ++ ss).
Proof.
  intros Hls. unfold stock_lines, STOCK_SHARES. cbn [map concat fst snd]. rewrite <-!app_assoc.
  assert (Hplain : forall c v d, is_whitespace c = false -> is_whitespace d = false -> LF ∉ c :: v ++ [d] ->
    plain (c :: v ++ [d])).
  { intros c v d Hc Hd Hlf. split; [|done]. split_and!; [done|by intros ? [= <-]|].
    intros e. rewrite app_comm_cons, last_snoc. by intros [= <-]. }
  repeat (apply read_section; [| | | |]);
    try (by apply (bool_decide_unpack _)); try done;
    match goal with |- plain ?x =>
      let y := eval vm_compute in x in
      let h := eval vm_compute in (default 0 (head y)) in
      let e := eval vm_compute in (default 0 (last y)) in
      let m := eval vm_compute in (removelast (tail y)) in
      change (plain (h :: m ++ [e])); by apply Hplain; [..|apply (bool_decide_unpack _)] end.
Qed.

Lemma share_lines_one nm pth comment guest :
  plain nm -> plain pth -> plain comment -> Forall one_line (share_lines nm pth comment guest).
Proof.
  intros [_ Hn] Hp Hc. unfold share_lines.
  repeat (apply Forall_cons; split); try apply Forall_nil; try (by apply (bool_decide_unpack _)).
  - rewrite app_assoc. change (lit "[") with [LBRACKET]. change (lit "]") with [RBRACKET]. split; [|by rewrite last_snoc].
    rewrite !elem_of_app, !list_elem_of_singleton. by intros [[?|?]|?].
  - apply labelled_one_line; [by apply (bool_decide_unpack _)|done].
  - apply labelled_one_line; [by apply (bool_decide_unpack _)|done].
  - by destruct guest; apply (bool_decide_unpack _).
Qed.

Lemma extra_lines_one l : Forall fits l -> Forall one_line (concat (map extra_lines l)).
Proof.
  induction 1 as [|s l (Hn & Hb & Hp) _ IH]; [done|]. cbn [map concat]. apply Forall_app. split; [|done].
  apply share_lines_one; [done|done|]. destruct Hn as [Hn Hlf]. split; [by apply (tidy_app 101 (lit "vo extra share "))|].
  rewrite elem_of_app. intros [Hin|?]; [|done]. by apply (bool_decide_unpack (LF ∉ lit "evo extra share ")) in Hin.
Qed.

Lemma global_lines_one st netbios wg : plain netbios -> plain wg -> Forall one_line (global_lines st netbios wg).
Proof.
  intros Hn Hw. unfold global_lines. destruct (min_protocol st); cbn [as_smbd_value app];
    repeat (apply Forall_cons; split); try apply Forall_nil; try (by apply (bool_decide_unpack _));
    apply labelled_one_line; by try apply (bool_decide_unpack _).
Qed.


Definition demo_share : ExtraShare := {| name := lit "Old Vinyl"; path := lit "/var/lib/evo/music/INTERNAL/vinyl"; guest_ok := true |}.
Definition demo_secret : ExtraShare := {| name := lit "secret"; path := lit "/var/lib/evo/settings/x"; guest_ok := true |}.
Definition demo_settings (l : list ExtraShare) : SmbServerState :=
  {| schema_version := 1; enabled := true; min_protocol := Smb3_02; extra_shares := l; smb_users := [];
     last_apply_at_ms := None |}.
Definition demo_conf (l : list ExtraShare) : str * list str * list RefusedSetting :=
  render_smb_conf (demo_settings l) (lit "EvoDevice") (lit "WORKGROUP") DEFAULT_SHARE_PATH_ALLOWLIST
    DEFAULT_SHARE_PATH_DENYLIST.

Lemma plain_demo s c d m : s = c :: m ++ [d] -> is_whitespace c = false -> is_whitespace d = false -> LF ∉ s -> plain s.
Proof.
  intros -> Hc Hd Hlf. split; [|done]. split_and!; [done|by intros ? [= <-]|].
  intros e. rewrite app_comm_cons, last_snoc. by intros [= <-].
Qed.
Ltac plain_literal :=
  match goal with |- plain ?x =>
    let y := eval vm_compute in x in
    let h := eval vm_compute in (default 0 (head y)) in
    let e := eval vm_compute in (default 0 (last y)) in
    let m := eval vm_compute in (removelast (tail y)) in
    apply (plain_demo x h e m); [reflexivity|reflexivity|reflexivity|by apply (bool_decide_unpack _)] end.


(** Bug: the prefixes are compared as text, and what goes up is not looked at: the settings,
    which are denied, and the whole of [/etc] are exported, writable as root. *)
Theorem parent_escapes :
  (demo_conf [{| name := lit "a"; path := lit "/var/lib/evo/music/../settings"; guest_ok := true |};
              {| name := lit "b"; path := lit "/var/lib/evo/music/../../../../etc"; guest_ok := true |};
              {| name := lit "c"; path := lit "/var/lib/evo/plugins/stage//rejected"; guest_ok := true |}]).2 = [].
Proof. by vm_compute. Qed.

(** Bug: a line feed in an operator's share ends the line it is in: the rest is
    configuration of its own, here a section with a path that is not allowed. *)
Theorem line_feed_adds_a_section :
  exists ps, (lit "etc", (lit "path", lit "/etc") :: ps) ∈
    read_conf (demo_conf [{| name := lit "a"; path := lit "/var/lib/evo/music/a" ++ LF :: lit "[etc]" ++ LF :: lit "path = /etc";
                             guest_ok := true |}]).1.1.
Proof. eexists. vm_compute. by do 7 right; left. Qed.

(** Bug: nothing keeps the names of the stock shares: an operator's share called [USB] is a
    second section of that name, which opens it to guests. *)
Theorem stock_name_is_taken :
  filter (fun s => s.1 = lit "USB")
    (read_conf (demo_conf [{| name := lit "USB"; path := lit "/var/lib/evo/music/USB"; guest_ok := true |}]).1.1) =
  [(lit "USB", share_params (lit "/var/lib/evo/music/USB") (lit "evo removable-media library") false);
   (lit "USB", share_params (lit "/var/lib/evo/music/USB") (lit "evo extra share USB") true)].
Proof. by vm_compute. Qed.

(** ** Names *)

(** The characters of a name. *)
Definition user_char (c : char) : Prop := is_ascii_lower c = true \/ is_ascii_digit c = true \/ c = 95 \/ c = 45.
Definition user_name (u : str) : Prop :=
  (0 < length u <= 32)%nat /\ Forall user_char u /\
  (forall c, head u = Some c -> is_ascii_lower c = true \/ c = 95).

Lemma name_rest_char b : name_rest b = true -> user_char b /\ b < 128.
Proof.
  unfold name_rest, user_char, is_ascii_lower, is_ascii_digit, in_range.
  rewrite !orb_true_iff, !andb_true_iff, !N.eqb_eq, !N.leb_le. intros [[[?|?]|?]|?]; split; auto; lia.
Qed.
Lemma name_start_char b : name_start b = true -> is_ascii_lower b = true \/ b = 95.
Proof. unfold name_start. rewrite orb_true_iff, N.eqb_eq. tauto. Qed.

(** Bytes below 128 are the characters they encode. *)
Lemma as_bytes_ascii s : Forall (fun b => b < 128) (as_bytes s) -> as_bytes s = s.
Proof.
  induction s as [|c s IH]; [done|]. unfold as_bytes. cbn [map concat]. fold (as_bytes s). rewrite Forall_app. intros [Hc Hs].
  rewrite IH by done. unfold encode_utf8 in *. destruct (N.ltb_spec c 128); [done|].
  exfalso. repeat case_match; apply Forall_inv in Hc; cbv beta in Hc;
    match type of Hc with _ + ?b < _ => revert Hc; generalize b; intros; lia end.
Qed.

(** An accepted name is what was typed, trimmed and in lower case; it has the shape the
    wrapper asks for, so it is never an option or a path. *)
Theorem normalize_correct raw u :
  normalize_smb_username raw = Ok u <-> u = to_ascii_lowercase (trim raw) /\ user_name u.
Proof.
  unfold normalize_smb_username, is_valid_smb_username_shape, user_name. set (v := to_ascii_lowercase (trim raw)). clearbody v.
  split.
  - destruct (as_bytes v) as [|b rest] eqn:Hb; [done|]. destruct (_ && _ && _) eqn:Hv; [|done]. intros [= <-]. split; [done|].
    rewrite !andb_true_iff, N.leb_le in Hv. destruct Hv as [[Hlen Hst] Hre].
    assert (Hall : Forall (fun b => user_char b /\ b < 128) (b :: rest)).
    { constructor; [apply name_rest_char; unfold name_start, name_rest in *; apply orb_true_iff in Hst as [-> | ->];
        by rewrite ?orb_true_r|].
      rewrite forallb_forall in Hre. apply Forall_forall. intros x Hx%list_elem_of_In. by apply name_rest_char, Hre. }
    assert (v = b :: rest) as ->.
    { rewrite <-Hb. symmetry. apply as_bytes_ascii. rewrite Hb. eapply Forall_impl; [exact Hall|]; cbn; tauto. }
    split_and!; [cbn in *; lia|cbn in *; lia|eapply Forall_impl; [exact Hall|]; cbn; tauto|].
    intros c [= <-]. by apply name_start_char.
  - intros (-> & [Hpos Hlen] & Hall & Hst).
    assert (Hb : as_bytes v = v).
    { clear -Hall. induction Hall as [|c s Hc _ IH]; [done|]. unfold as_bytes. cbn [map concat]. fold (as_bytes s). rewrite IH.
      unfold encode_utf8. assert (c < 128) as Hlt; [|by rewrite (proj2 (N.ltb_lt _ _) Hlt)].
      revert Hc. unfold user_char, is_ascii_lower, is_ascii_digit, in_range. rewrite !andb_true_iff, !N.leb_le. lia. }
    rewrite Hb. destruct v as [|c s]; [cbn in Hpos; lia|].
    rewrite (proj2 (N.leb_le _ _)) by lia. assert (name_start c = true) as ->.
    { unfold name_start. destruct (Hst c eq_refl) as [-> | ->]; [done|]. by rewrite orb_true_r. }
    assert (forallb name_rest s = true) as ->; [|done]. apply Forall_inv_tail in Hall.
    rewrite forallb_forall. intros x Hx%list_elem_of_In. eapply Forall_forall in Hall; [|exact Hx].
    unfold name_rest. destruct Hall as [->|[->|[->| ->]]]; by rewrite ?orb_true_r.
Qed.

(** A row of [/etc/passwd] with the fields that are read, and the rest of the row. *)
Record Row := { r_name : str; r_x : str; r_uid : N; r_rest : str }.
Definition COLON : char := 58.
Definition row_line (r : Row) : str := r_name r ++ COLON :: r_x r ++ COLON :: dec (r_uid r) ++ COLON :: r_rest r.
Definition row_ok (r : Row) : Prop :=
  tidy (r_name r) /\ COLON ∉ r_name r /\ COLON ∉ r_x r /\ r_uid r <= U32_MAX /\ one_line (row_line r).

Lemma user_of_correct uid rows : Forall row_ok rows ->
  user_of uid (map row_line rows) =
    option_map (fun r => to_ascii_lowercase (r_name r)) (find (fun r => r_uid r =? uid) rows).
Proof.
  induction 1 as [|r rows (Ht & Hn & Hx & Hu & _) _ IH]; [done|]. cbn [map user_of find]. unfold row_line at 1.
  rewrite !split_char_piece by (done || by apply dec_not_elem).
  unfold parse_u32. rewrite parse_uint_dec by done. rewrite trim_tidy by done. destruct (r_uid r =? uid); [|done].
  rewrite str_is_empty_false; [done|]. unfold to_ascii_lowercase. destruct Ht as [Hne _]. by destruct (r_name r).
Qed.

Lemma dec_word n : word (dec n).
Proof.
  split; [apply dec_nonempty|]. eapply Forall_impl; [apply dec_digits|]. intros c. unfold is_ascii_digit, in_range.
  rewrite andb_true_iff, !N.leb_le. intros Hc.
  assert (Hin : c ∈ [48; 49; 50; 51; 52; 53; 54; 55; 56; 57]) by (rewrite !elem_of_cons; lia).
  by repeat (apply elem_of_cons in Hin as [->|Hin]; [done|]); apply elem_of_nil in Hin.
Qed.

(** The status of a process, with its four user ids. *)
Definition uid_line (real effective : N) (others : str) : str :=
  lit "Uid:" ++ TAB :: dec real ++ TAB :: dec effective ++ TAB :: others.
Lemma effective_uid_correct before real effective others after :
  Forall one_line (before ++ uid_line real effective others :: after) ->
  Forall (fun l => starts_with (lit "Uid:") l = false) before -> effective <= U32_MAX ->
  effective_uid (unlines (before ++ uid_line real effective others :: after)) = Some effective.
Proof.
  intros Hone Hb He. unfold effective_uid. rewrite lines_unlines by done. clear Hone.
  assert (find (starts_with (lit "Uid:")) (before ++ uid_line real effective others :: after) =
          Some (uid_line real effective others)) as ->.
  { induction Hb as [|l before Hl _ IH]; cbn [app find]; [|by rewrite Hl].
    assert (starts_with (lit "Uid:") (uid_line real effective others) = true) as ->; [|done].
    apply starts_with_spec. by eexists. }
  unfold uid_line. rewrite words_cons by (done || by apply (bool_decide_unpack _)).
  rewrite words_cons by (done || apply dec_word). rewrite words_cons by (done || apply dec_word).
  cbn. by apply parse_uint_dec.
Qed.

(** The user the steward runs as is found in the files of the system, and no name that is
    the same in lower case is accepted. *)
Theorem service_user_blocked before real effective others after rows r env_service env_user :
  Forall one_line (before ++ uid_line real effective others :: after) ->
  Forall (fun l => starts_with (lit "Uid:") l = false) before -> effective <= U32_MAX -> Forall row_ok rows ->
  find (fun r => r_uid r =? effective) rows = Some r ->
  to_ascii_lowercase (r_name r) ∈
    blocked_smb_usernames (Some (unlines (before ++ uid_line real effective others :: after)))
      (Some (unlines (map row_line rows))) env_service env_user.
Proof.
  intros Hone Hb He Hrows Hf. unfold blocked_smb_usernames, detect_service_user_from_procfs.
  rewrite effective_uid_correct by done. rewrite lines_unlines.
  2: { apply Forall_map. eapply Forall_impl; [exact Hrows|]. by intros ? (_ & _ & _ & _ & ?). }
  rewrite user_of_correct, Hf by done. cbn [option_map].
  assert (Hnew : forall n m l, n ∈ l -> n ∈ push_new m l).
  { intros n m l Hin. unfold push_new. destruct (str_in m l); [done|]. by apply elem_of_app; left. }
  assert (Henv : forall n v l, n ∈ l -> n ∈ push_env v l).
  { intros n [v|] l Hin; [|done]. unfold push_env. destruct (str_is_empty _); [done|by apply Hnew]. }
  apply Henv, Henv. unfold push_new. destruct (str_in _ _) eqn:Hin; [by apply str_in_spec|].
  apply elem_of_app. right. by apply list_elem_of_singleton.
Qed.

(** One row that is not a row of a user, such as the [+] that asks for the network's users,
    ends the search: what is below it is not looked at. *)
Theorem odd_row_ends_the_search r rows uid :
  user_of uid (lit "+" :: map row_line (r :: rows)) = None.
Proof. done. Qed.

(** ** Applying *)

Section theorems.
Context {S : Type} `{!SambaOutside S} (cfg : Config).
Implicit Types w : World (S := S).

Definition failed (r : result CommandOutput str) : Prop :=
  match r with Ok o => succeeded o = false | Err _ => True end.

(** What applying does outside, step by step, with how it ends: nothing is installed that
    the check did not accept, and the daemon is not touched before the installation. *)
Inductive apply_log (text : str) (e : bool) : list Effect -> result ApplyReport ApplyError -> Prop :=
| not_written err :
    apply_log text e [Wrote (candidate_path cfg) text false] (Err err)
| not_accepted r err : failed r ->
    apply_log text e
      [Wrote (candidate_path cfg) text true; Ran (build_testparm_args (candidate_path cfg)) [] r] (Err err)
| not_installed o r err : succeeded o = true -> failed r ->
    apply_log text e
      [Wrote (candidate_path cfg) text true; Ran (build_testparm_args (candidate_path cfg)) [] (Ok o);
       Ran (build_install_conf_args (candidate_path cfg) (smb_conf_path cfg)) [] r] (Err err)
| daemon_failed o o' r err : succeeded o = true -> succeeded o' = true -> failed r ->
    apply_log text e
      [Wrote (candidate_path cfg) text true; Ran (build_testparm_args (candidate_path cfg)) [] (Ok o);
       Ran (build_install_conf_args (candidate_path cfg) (smb_conf_path cfg)) [] (Ok o');
       Ran (if e then build_systemctl_restart_args else build_systemctl_stop_args) [] r] (Err err)
| all_done o o' o'' res : succeeded o = true -> succeeded o' = true -> succeeded o'' = true ->
    match res with Ok rep => smbd_restarted rep = e | Err err => exists x, err = Persistence x end ->
    apply_log text e
      [Wrote (candidate_path cfg) text true; Ran (build_testparm_args (candidate_path cfg)) [] (Ok o);
       Ran (build_install_conf_args (candidate_path cfg) (smb_conf_path cfg)) [] (Ok o');
       Ran (if e then build_systemctl_restart_args else build_systemctl_stop_args) [] (Ok o'')] res.

(** Saving: the file is what is in memory, or, when it was not replaced, what it was. *)
Lemma save_spec w w' r : save w = (w', r) ->
  state w' = state w /\ effects w' = effects w /\ attached w' = attached w /\ published w' = published w /\
  match r with Ok _ => disk w' = Some (state w) | Err _ => disk w' = disk w \/ disk w' = Some (state w) end.
Proof.
  unfold save. destruct (replace_file _ _) as [s [[]|e]]; [|intros [= <- <-]; cbn; split_and!; auto].
  destruct (set_private s) as [s' [[]|e]]; intros [= <- <-]; cbn; split_and!; auto.
Qed.

Lemma schedule_republish_spec w :
  let w' := schedule_republish w in
  state w' = state w /\ disk w' = disk w /\ effects w' = effects w.
Proof. unfold schedule_republish. by destruct (attached w). Qed.


(** ** The records of the users *)

Definition user_at (u : str) (st : SmbServerState) : option SmbUserRecord := find (is_user u) (smb_users st).
Lemma is_user_true u r : is_user u r = true <-> username r = u.
Proof. apply bool_decide_eq_true. Qed.
Lemma user_at_name u st r : user_at u st = Some r -> username r = u.
Proof. intros [_ H]%find_some. by apply is_user_true. Qed.

Lemma find_without u v l : find (is_user v) (without u l) = if decide (v = u) then None else find (is_user v) l.
Proof.
  induction l as [|x l IH]; [by destruct (decide _)|]. unfold without in *. destruct (decide (username x = u)) as [Hx|Hx].
  - rewrite filter_cons_False, IH by (intros Hn; by apply Hn). destruct (decide (v = u)) as [|Hv]; [done|].
    cbn [find]. destruct (is_user v x) eqn:H; [|done]. apply is_user_true in H. congruence.
  - rewrite filter_cons_True by done. cbn [find]. destruct (is_user v x) eqn:H; [|done].
    apply is_user_true in H. by rewrite decide_False by congruence.
Qed.

Lemma find_update_first u v r l : username r = u ->
  find (is_user v) (update_first u r l) =
    if decide (v = u) then (match find (is_user u) l with Some _ => Some r | None => None end) else find (is_user v) l.
Proof.
  intros Hr. induction l as [|x l IH]; [by destruct (decide _)|]. cbn [update_first find].
  destruct (is_user u x) eqn:Hx; cbn [find].
  - unfold is_user at 1. rewrite Hr. destruct (decide (v = u)) as [->|Hv]; [by rewrite bool_decide_eq_true_2|].
    rewrite bool_decide_eq_false_2 by congruence. destruct (is_user v x) eqn:H; [|done].
    apply is_user_true in H, Hx. congruence.
  - destruct (is_user v x) eqn:H; [|by rewrite IH]. apply is_user_true in H. subst v.
    rewrite decide_False; [done|]. intros Heq. apply is_user_true in Heq. congruence.
Qed.

Lemma find_snoc u r l :
  find (is_user u) (l ++ [r]) = match find (is_user u) l with Some x => Some x | None => if is_user u r then Some r else None end.
Proof. induction l as [|x l IH]; cbn; [done|]. by destruct (is_user u x). Qed.

Lemma without_absent u l : find (is_user u) l = None -> without u l = l.
Proof.
  unfold without. induction l as [|x l IH]; [done|]. cbn [find]. destruct (is_user u x) eqn:Hx; [done|]. intros Hl.
  rewrite filter_cons_True; [by rewrite IH|]. intros Heq. apply is_user_true in Heq. congruence.
Qed.

Lemma update_back u r old l : username r = u -> find (is_user u) l = Some old ->
  update_first u old (update_first u r l) = l.
Proof.
  intros Hr. induction l as [|x l IH]; [done|]. cbn [update_first find]. destruct (is_user u x) eqn:Hx; cbn [update_first].
  - intros [= ->]. unfold is_user. by rewrite Hr, bool_decide_eq_true_2.
  - intros Hl. by rewrite Hx, IH.
Qed.

(** What an add was begun with. *)
Definition fits_task (t : AddTask) (st : SmbServerState) : Prop :=
  t_old t = user_at (username (t_record t)) st /\
  match t_mode t with RekeyInPlace => is_Some (t_old t) | _ => t_old t = None end.

Lemma add_begin_spec raw key mapped w t : add_begin cfg raw key mapped w = Ok t ->
  fits_task t (state w) /\ validate_smb_username raw w = Ok (username (t_record t)) /\ credential_key (t_record t) = key.
Proof.
  unfold add_begin, fits_task, user_at. destruct (validate_smb_username raw w) as [u|]; [|done].
  destruct (negb _); [done|]. destruct (find (is_user u) (smb_users (state w))) as [old|] eqn:Hf, (nss_probe (outside w) u);
    intros [= <-]; cbn; rewrite ?Hf; by split_and!.
Qed.

(** Taking a record back undoes putting it there. *)
Lemma put_back t st : fits_task t st ->
  revert_user_state_mutation (t_mode t) (username (t_record t)) (t_old t) (put_user t st) = st.
Proof.
  intros [Hold Hm]. unfold put_user, user_at in *. destruct st as [v e p l us la]; cbn in *.
  assert (Hnone : t_old t = None -> without (username (t_record t)) (us ++ [t_record t]) = us).
  { intros Hn. unfold without. rewrite filter_app, filter_cons_False, filter_nil, app_nil_r by (intros H; by apply H).
    apply without_absent. by rewrite <-Hold. }
  destruct (t_mode t); unfold revert_user_state_mutation, with_users;
    cbn [smb_users schema_version enabled min_protocol extra_shares last_apply_at_ms]; [by rewrite Hnone..|].
  destruct Hm as [old Ho]. rewrite Ho. cbn. f_equal. apply update_back; [done|congruence].
Qed.

Lemma put_user_at t st v : fits_task t st ->
  user_at v (put_user t st) = if decide (v = username (t_record t)) then Some (t_record t) else user_at v st.
Proof.
  intros [Hold Hm]. unfold put_user, user_at in *.
  assert (Hnew : t_old t = None -> find (is_user v) (smb_users st ++ [t_record t]) =
    if decide (v = username (t_record t)) then Some (t_record t) else find (is_user v) (smb_users st)).
  { rewrite find_snoc. intros Hn. destruct (decide _) as [->|Hv].
    - by rewrite <-Hold, Hn, (proj2 (is_user_true _ _)).
    - destruct (find (is_user v) (smb_users st)); [done|]. destruct (is_user v (t_record t)) eqn:H; [|done].
      apply is_user_true in H. congruence. }
  destruct (t_mode t); cbn [with_users smb_users]; [by apply Hnew..|].
  rewrite find_update_first by done. destruct Hm as [? Hm]. by rewrite <-Hold, Hm.
Qed.


(** Revoking: on a success the wrapper deleted the user, then the vault its password, and
    the record is gone from memory and from the file; before the wrapper succeeded nothing
    changes; and when only the file could not be written, memory is read back from it. *)
Theorem revoke_user_correct raw w w' res :
  revoke_user cfg raw w = (w', res) ->
  match res with
  | Ok _ => exists u r o,
      normalize_smb_username raw = Ok u /\ user_at u (state w) = Some r /\ succeeded o = true /\
      effects w' = effects w ++ [Ran (build_smb_user_sync_delete_args u) [] (Ok o); Deleted (credential_key r) true] /\
      disk w' = Some (state w') /\
      forall v, user_at v (state w') = if decide (v = u) then None else user_at v (state w)
  | Err (Persistence _) =>
      (forall st, disk w' = Some st -> schema_version st = SMB_SERVER_SCHEMA_VERSION ->
       is_ok (read_back (outside w')) = true -> state w' = st)
  | Err e => state w' = state w /\ disk w' = disk w
  end.
Proof.
  unfold revoke_user. destruct (normalize_smb_username raw) as [u|e] eqn:Hn.
  2: { intros [= <- <-]. unfold normalize_smb_username in Hn. destruct (is_valid_smb_username_shape _); [done|]. by injection Hn as <-. }
  destruct (find (is_user u) (smb_users (state w))) as [r|] eqn:Hf; [|by intros [= <- <-]].
  unfold run_sudo. destruct (run _ _ _ _ _) as [s [o|d]]; cbn [map_err]; [|by intros [= <- <-]].
  destruct (succeeded o) eqn:Ho; [|by intros [= <- <-]].
  unfold retract_password. destruct (delete_password _ _) as [s' [[]|d]]; [|by intros [= <- <-]].
  destruct (save _) as [w1 saved] eqn:Hs. apply save_spec in Hs as (Hst & Hef & _ & _ & Hd). cbn in Hst, Hef, Hd.
  destruct saved as [[]|e]; intros [= <- <-].
  - exists u, r, o. pose proof (schedule_republish_spec w1) as (-> & -> & ->). rewrite Hst, Hef, Hd, <-app_assoc.
    split_and!; try done. intros v. apply find_without.
  - intros st. unfold rehydrate. destruct (read_back (outside w1)) as [|] eqn:Hrb; [|by rewrite Hrb].
    destruct (disk w1) as [st'|] eqn:Hdk.
    + unfold load. destruct (N.eqb_spec (schema_version st') SMB_SERVER_SCHEMA_VERSION); cbn; intros; congruence.
    + cbn. congruence.
Qed.

(** ** Names stay unique *)

Definition names (l : list SmbUserRecord) : list str := map username l.
Definition names_unique (st : SmbServerState) : Prop := NoDup (names (smb_users st)).
Definition users_ok w : Prop := names_unique (state w) /\ forall st, disk w = Some st -> names_unique st.

Lemma find_None_names u l : find (is_user u) l = None <-> u ∉ names l.
Proof.
  unfold names. induction l as [|x l IH]; cbn; [split; [intros _; apply not_elem_of_nil|done]|]. rewrite not_elem_of_cons.
  destruct (is_user u x) eqn:Hx; [apply is_user_true in Hx; split; [done|intros [? _]; congruence]|].
  rewrite IH. split; [|tauto]. intros H. split; [|done]. intros Heq. symmetry in Heq. apply is_user_true in Heq. congruence.
Qed.

Lemma names_update u r l : username r = u -> names (update_first u r l) = names l.
Proof.
  intros Hr. unfold names. induction l as [|x l IH]; [done|]. cbn [update_first map]. destruct (is_user u x) eqn:Hx; cbn [map].
  - apply is_user_true in Hx. congruence.
  - by rewrite IH.
Qed.

Lemma NoDup_without u l : NoDup (names l) -> NoDup (names (without u l)).
Proof. intros Hl. eapply sublist_NoDup; [exact Hl|]. apply (fmap_sublist username), sublist_filter. Qed.

Lemma NoDup_snoc (r : SmbUserRecord) l : NoDup (names l) -> find (is_user (username r)) l = None -> NoDup (names (l ++ [r])).
Proof.
  intros Hl Hf%find_None_names. unfold names in *. rewrite map_app. apply NoDup_app. split_and!; [done| |by apply NoDup_singleton].
  by intros x Hx ->%list_elem_of_singleton.
Qed.

Lemma unique_put t st : fits_task t st -> names_unique st -> names_unique (put_user t st).
Proof.
  intros [Hold Hm] Hu. unfold names_unique, put_user, user_at in *.
  destruct (t_mode t); cbn [with_users smb_users]; [apply NoDup_snoc; congruence..|by rewrite names_update].
Qed.

Lemma users_ok_save w : users_ok w -> users_ok (save w).1.
Proof.
  intros [Hs Hd]. destruct (save w) as [w' r] eqn:H. apply save_spec in H as (H1 & _ & _ & _ & H2). cbn.
  split; [by rewrite H1|]. intros st Hst. destruct r; [congruence|]. destruct H2; [by apply Hd; congruence|congruence].
Qed.

Lemma users_ok_with st w : names_unique st -> users_ok w -> users_ok (with_state st w).
Proof. by intros H [_ Hd]. Qed.

Lemma users_ok_republish w : users_ok w -> users_ok (schedule_republish w).
Proof. unfold schedule_republish. by destruct (attached w). Qed.

Lemma users_ok_apply e p l w : users_ok w -> users_ok (apply cfg e p l w).1.
Proof.
  intros Hw. unfold apply. assert (H0 : users_ok (apply_settings e p l w)) by (apply users_ok_with; [exact (proj1 Hw)|exact Hw]).
  destruct (rendered cfg _) as [[text applied] refused].
  unfold write_candidate. destruct (write_file _ _ _) as [s1 [[]|d1]]; [|done].
  unfold apply_check, run_sudo. cbn [map_err is_ok].
  destruct (run _ (build_testparm_args _) _ _ _) as [s2 [o1|d2]]; cbn [map_err]; [|done]. destruct (succeeded o1); [|done].
  unfold apply_install, run_sudo. destruct (run _ (build_install_conf_args _ _) _ _ _) as [s3 [o2|d3]]; cbn [map_err]; [|done].
  destruct (succeeded o2); [|done].
  unfold apply_daemon, run_sudo. destruct (run _ (if e then _ else _) _ _ _) as [s4 [o3|d4]]; cbn [map_err]; [|done].
  destruct (succeeded o3); [|done]. unfold apply_record.
  match goal with |- context [save ?x] =>
    assert (Hx : users_ok x) by (split; [exact (proj1 H0)|exact (proj2 H0)]);
    pose proof (users_ok_save x Hx) as Hs; destruct (save x) as [w5 [[]|err]] end; [by apply users_ok_republish|done].
Qed.

Lemma users_ok_add raw key mapped w : users_ok w -> users_ok (add_user cfg raw key mapped w).1.
Proof.
  intros Hw. unfold add_user. destruct (add_begin cfg raw key mapped w) as [t|e] eqn:Hb; [|done].
  apply add_begin_spec in Hb as (Ht & _ & _).
  assert (Hput : users_ok (with_state (put_user t (state w)) w)) by (apply users_ok_with; [apply unique_put; [exact Ht|exact (proj1 Hw)]|exact Hw]).
  unfold add_persist. destruct (save _) as [w1 r] eqn:Hs. pose proof (users_ok_save _ Hput) as H1. rewrite Hs in H1.
  apply save_spec in Hs as (Hst & _). cbn in H1, Hst.
  assert (Hback : forall w2, users_ok w2 -> state w2 = put_user t (state w) -> users_ok (take_back t w2)).
  { intros w2 H2 Heq. apply users_ok_with; [|done]. rewrite Heq, put_back by done. exact (proj1 Hw). }
  assert (Hroll : forall text e w2, users_ok w2 -> state w2 = put_user t (state w) -> users_ok (roll_back cfg t text e w2).1).
  { intros text e w2 H2 Heq. unfold roll_back. pose proof (users_ok_save _ (Hback _ H2 Heq)) as H3.
    by destruct (save (take_back t w2)). }
  destruct r as [[]|e]; [|by apply Hback]. unfold add_finish. destruct (fetch_password _ _); [|by apply Hroll].
  unfold run_sudo. destruct (run _ _ _ _ _) as [s [o|d]]; cbn [map_err]; [|by apply Hroll].
  destruct (succeeded o); [by apply users_ok_republish|by apply Hroll].
Qed.

Lemma users_ok_revoke raw w : users_ok w -> users_ok (revoke_user cfg raw w).1.
Proof.
  intros Hw. unfold revoke_user. destruct (normalize_smb_username raw) as [u|e]; [|done].
  destruct (find (is_user u) (smb_users (state w))) as [r|]; [|done].
  unfold run_sudo. destruct (run _ _ _ _ _) as [s [o|d]]; cbn [map_err]; [|done]. destruct (succeeded o); [|done].
  unfold retract_password. destruct (delete_password _ _) as [s' [[]|d]]; [|done].
  match goal with |- context [save ?x] => assert (Hx : users_ok x); [|pose proof (users_ok_save x Hx) as Hs; destruct (save x) as [w1 r']] end.
  { apply users_ok_with; [apply NoDup_without; exact (proj1 Hw)|exact Hw]. }
  cbn in Hs. destruct r'; cbn; [by apply users_ok_republish|]. unfold rehydrate. destruct (read_back _); [|done].
  destruct (load _) as [st|] eqn:Hl; [|done]. apply users_ok_with; [|done]. unfold load in Hl.
  destruct (disk w1) as [st'|] eqn:Hd; [|injection Hl as <-; by apply NoDup_nil].
  destruct (_ =? _); [|done]. injection Hl as <-. by apply Hs.
Qed.

Lemma adopt_names now l u : NoDup (names l) -> NoDup (names (adopt now l u)).
Proof.
  intros Hl. unfold adopt. destruct (existsb (is_user u) l) eqn:H; [done|]. apply NoDup_snoc; [done|]. cbn.
  destruct (find (is_user u) l) as [x|] eqn:Hf; [|done]. apply find_some in Hf as [Hin Hx].
  assert (existsb (is_user u) l = true) by (apply existsb_exists; eauto). congruence.
Qed.

Lemma users_ok_adopt w : users_ok w -> users_ok (reconcile_smb_users_from_passdb cfg w).1.
Proof.
  intros Hw. unfold reconcile_smb_users_from_passdb, run_sudo. destruct (run _ _ _ _ _) as [s [o|d]]; cbn [map_err]; [|done].
  destruct (succeeded o); [|done]. set (users := foldl _ _ _). assert (Hu : NoDup (names users)).
  { subst users. generalize (proj1 Hw : NoDup (names _)). cbn [state did]. generalize (smb_users (state w)).
    induction (passdb_users (stdout o)) as [|u us IH]; intros l Hl; [done|]. cbn [foldl]. by apply IH, adopt_names. }
  assert (H1 : users_ok (with_state (with_users users (state w)) (did s (Ran build_smb_user_sync_list_args [] (Ok o)) w)))
    by by apply users_ok_with.
  cbn [state did]. destruct (0 <? _)%nat; [|done]. by apply users_ok_republish, users_ok_save.
Qed.


(** ** Reconciling with the system's users *)

Lemma adopt_spec now l u :
  (exists fresh, adopt now l u = l ++ fresh) /\ forall v, v ∈ names (adopt now l u) <-> v ∈ names l \/ v = u.
Proof.
  unfold adopt. destruct (existsb (is_user u) l) eqn:H.
  - split; [exists []; by rewrite app_nil_r|]. apply existsb_exists in H as (x & Hin & Hx%is_user_true).
    intros v. split; [by left|]. intros [?| ->]; [done|]. rewrite <-Hx. apply list_elem_of_fmap_2. by apply list_elem_of_In.
  - split; [by eexists|]. intros v. unfold names. rewrite map_app, elem_of_app. cbn. by rewrite list_elem_of_singleton.
Qed.

(** After the wrapper listed the users of the system: no record is lost or changed, and the
    names are those there were and those listed; what is returned is how many are new, and
    the file is written when there are any. *)
Theorem reconcile_users_correct w w' n :
  reconcile_smb_users_from_passdb cfg w = (w', n) ->
  exists out, effects w' = effects w ++ [Ran build_smb_user_sync_list_args [] out] /\
    match out with
    | Ok o =>
        if succeeded o then
          (exists fresh, smb_users (state w') = smb_users (state w) ++ fresh /\ length fresh = n) /\
          forall v, v ∈ names (smb_users (state w')) <-> v ∈ names (smb_users (state w)) \/ v ∈ passdb_users (stdout o)
        else n = 0%nat /\ state w' = state w
    | Err _ => n = 0%nat /\ state w' = state w
    end.
Proof.
  unfold reconcile_smb_users_from_passdb, run_sudo. destruct (run _ _ _ _ _) as [s [o|d]]; cbn [map_err];
    [|intros [= <- <-]; by exists (Err d)].
  intros H. exists (Ok o). destruct (succeeded o) eqn:Ho; [|by injection H as <- <-].
  set (users := foldl _ _ _) in H.
  assert (Hu : (exists fresh, users = smb_users (state w) ++ fresh) /\
    forall v, v ∈ names users <-> v ∈ names (smb_users (state w)) \/ v ∈ passdb_users (stdout o)).
  { subst users. cbn [state did]. generalize (smb_users (state w)). clear H.
    induction (passdb_users (stdout o)) as [|u us IH]; intros l; cbn [foldl].
    - split; [exists []; by rewrite app_nil_r|]. intros v. rewrite elem_of_nil. tauto.
    - destruct (adopt_spec (as_i64 (now_ms (outside (did s (Ran build_smb_user_sync_list_args [] (Ok o)) w)))) l u) as [[f1 Hf] Hn].
      specialize (IH (adopt (as_i64 (now_ms (outside (did s (Ran build_smb_user_sync_list_args [] (Ok o)) w)))) l u)) as [[f2 IHf] IHn].
      split; [exists (f1 ++ f2); by rewrite IHf, Hf, app_assoc|]. intros v. rewrite IHn, Hn, elem_of_cons. tauto. }
  destruct Hu as [[fresh Hf] Hn].
  assert (Hres : state w' = with_users users (state w) /\ effects w' = effects w ++ [Ran build_smb_user_sync_list_args [] (Ok o)] /\
    n = (length users - length (smb_users (state w)))%nat).
  { cbn [state did] in H. destruct (0 <? _)%nat; [|by injection H as <- <-].
    destruct (save _) as [w1 r] eqn:Hs. apply save_spec in Hs as (H1 & H2 & _). injection H as <- <-.
    pose proof (schedule_republish_spec w1) as (-> & _ & ->). by rewrite H1, H2. }
  destruct Hres as (-> & -> & ->). split; [done|]. cbn [with_users smb_users]. split; [|done].
  exists fresh. split; [done|]. rewrite Hf, length_app. lia.
Qed.

(** ** Two operations at once

    The steps of an operation let go of the lock between them. *)

(** Divergence: the check for a name that is taken and the record are not under one lock:
    two adds of a new name that were both begun before the record of the first was made
    give two records, and when the wrapper then refuses the second, taking its record back
    takes the record of the first too: a user of the system that nothing here knows. *)
Theorem concurrent_adds_lose_the_user raw key1 key2 m1 m2 w t1 t2 w1 w2 w3 w4 r e :
  add_begin cfg raw key1 m1 w = Ok t1 -> add_begin cfg raw key2 m2 w = Ok t2 -> t_mode t1 = AddFresh ->
  add_persist t1 w = (w1, Ok tt) -> add_persist t2 w1 = (w2, Ok tt) ->
  add_finish cfg t1 w2 = (w3, Ok r) -> add_finish cfg t2 w3 = (w4, Err e) ->
  ~ names_unique (state w2) /\ user_at (username r) (state w4) = None.
Proof.
  intros Hb1 Hb2 Hm Hp1 Hp2 Hf1 Hf2.
  assert (Hsame : username (t_record t2) = username (t_record t1) /\ t_mode t2 = t_mode t1).
  { revert Hb1 Hb2. unfold add_begin. destruct (validate_smb_username raw w) as [u|]; [|done]. destruct (negb _); [done|].
    destruct (find (is_user u) _), (nss_probe _ _); by intros [= <-] [= <-]. }
  destruct Hsame as [Hu Hm2]. rewrite Hm in Hm2.
  unfold add_persist in Hp1, Hp2. destruct (save _) as [wa ra] eqn:Hs1 in Hp1. apply save_spec in Hs1 as (S1 & _).
  destruct ra as [[]|]; [|done]. injection Hp1 as <-.
  destruct (save _) as [wb rb] eqn:Hs2 in Hp2. apply save_spec in Hs2 as (S2 & _). destruct rb as [[]|]; [|done]. injection Hp2 as <-.
  cbn in S1, S2. unfold put_user in S1, S2. rewrite Hm in S1. rewrite Hm2, S1 in S2. cbn [with_users smb_users] in S2.
  assert (Hr : r = t_record t1 /\ state w3 = state wb).
  { unfold add_finish in Hf1. destruct (fetch_password _ _); [|unfold roll_back in Hf1; by destruct (save _) as [? []]].
    unfold run_sudo in Hf1. destruct (run _ _ _ _ _) as [s [o|d]]; cbn [map_err] in Hf1;
      [destruct (succeeded o); [injection Hf1 as <- <-; split; [done|]; exact (proj1 (schedule_republish_spec _))|]|];
      unfold roll_back in Hf1; by destruct (save _) as [? []]. }
  destruct Hr as [-> Hw3]. split.
  - unfold names_unique, names. rewrite S2. cbn. rewrite !map_app, <-app_assoc. intros (_ & _ & H)%NoDup_app.
    cbn in H. rewrite Hu in H. apply NoDup_cons in H as [H _]. apply H. by left.
  - assert (Hroll : forall text x w5, roll_back cfg t2 text x w5 = (w4, Err e) -> user_at (username (t_record t1)) (state w4) = None).
    { intros text x w5. unfold roll_back. destruct (save _) as [w6 r6] eqn:Hs. apply save_spec in Hs as (S6 & _).
      intros [= <- _]. rewrite S6. unfold take_back. rewrite Hm2. cbn. unfold user_at. cbn [with_users smb_users].
      rewrite find_without. by rewrite decide_True. }
    unfold add_finish in Hf2. destruct (fetch_password _ _); [|by eapply Hroll].
    unfold run_sudo in Hf2. destruct (run _ _ _ _ _) as [s [o|d]]; cbn [map_err] in Hf2; [|by eapply Hroll].
    destruct (succeeded o); [done|by eapply Hroll].
Qed.

(** Bug: the candidate is one file for every apply: when a second apply writes it between the
    check and the installation of the first, what is installed is what nothing checked. *)
Theorem concurrent_apply_installs_unchecked w w1 w2 w3 w4 text1 text2 :
  write_candidate cfg text1 w = (w1, Ok tt) -> apply_check cfg w1 = (w2, Ok tt) ->
  write_candidate cfg text2 w2 = (w3, Ok tt) -> apply_install cfg w3 = (w4, Ok tt) ->
  exists o o', effects w4 = effects w ++
    [Wrote (candidate_path cfg) text1 true; Ran (build_testparm_args (candidate_path cfg)) [] (Ok o);
     Wrote (candidate_path cfg) text2 true;
     Ran (build_install_conf_args (candidate_path cfg) (smb_conf_path cfg)) [] (Ok o')].
Proof.
  unfold write_candidate, apply_check, apply_install, run_sudo.
  destruct (write_file _ _ _) as [s1 [[]|]]; [|done]. intros [= <-].
  destruct (run _ _ _ _ _) as [s2 [o|]]; cbn [map_err]; [|done]. destruct (succeeded o); [|done]. intros [= <-].
  destruct (write_file _ text2 _) as [s3 [[]|]]; [|done]. intros [= <-].
  destruct (run _ _ _ _ _) as [s4 [o'|]]; cbn [map_err]; [|done]. destruct (succeeded o'); [|done]. intros [= <-].
  exists o, o'. cbn. by rewrite <-!app_assoc.
Qed.

(** ** Failures that leave something behind *)

(** Bug: settings that the check refused stay in memory, and the next user that is added
    writes them to the file: the next start applies them again. *)
Theorem refused_settings_are_stored e p l w w1 err raw key mapped w2 r :
  apply cfg e p l w = (w1, Err (TestparmFailed (Some 1%Z) err)) ->
  add_user cfg raw key mapped w1 = (w2, Ok r) ->
  exists st, disk w2 = Some st /\ enabled st = e /\ min_protocol st = p /\ extra_shares st = l.
Proof.
  intros Ha Hu.
  assert (H1 : state w1 = with_settings e p l (state w)).
  { unfold apply in Ha. destruct (rendered cfg _) as [[text applied] refused]. unfold write_candidate in Ha.
    destruct (write_file _ _ _) as [s1 [[]|d1]]; [|done]. unfold apply_check, run_sudo in Ha. cbn [map_err is_ok] in Ha.
    destruct (run _ (build_testparm_args _) _ _ _) as [s2 [o1|d2]]; cbn [map_err] in Ha; [|done].
    destruct (succeeded o1); [|by injection Ha as <- _ _].
    unfold apply_install, run_sudo in Ha. destruct (run _ (build_install_conf_args _ _) _ _ _) as [s3 [o2|d3]]; cbn [map_err] in Ha; [|done].
    destruct (succeeded o2); [|done]. unfold apply_daemon, run_sudo in Ha.
    destruct (run _ (if e then _ else _) _ _ _) as [s4 [o3|d4]]; cbn [map_err] in Ha; [|done].
    destruct (succeeded o3); [|done]. unfold apply_record in Ha. by destruct (save _) as [w5 [[]|?]]. }
  unfold add_user in Hu. destruct (add_begin cfg raw key mapped w1) as [t|]; [|done].
  unfold add_persist in Hu. destruct (save _) as [wa ra] eqn:Hs. apply save_spec in Hs as (_ & _ & _ & _ & Hd).
  destruct ra as [[]|]; [|done]. unfold add_finish in Hu.
  assert (Hroll : forall text x w5 w6 y, roll_back cfg t text x w5 <> (w6, Ok y)).
  { intros text x w5 w6 y. unfold roll_back. by destruct (save _) as [? []]. }
  destruct (fetch_password _ _); [|by apply Hroll in Hu].
  unfold run_sudo in Hu. destruct (run _ _ _ _ _) as [s [o|d]]; cbn [map_err] in Hu; [|by apply Hroll in Hu].
  destruct (succeeded o); [|by apply Hroll in Hu]. injection Hu as <- _.
  rewrite (proj1 (proj2 (schedule_republish_spec _))). cbn [disk did]. rewrite Hd. eexists. split; [done|]. cbn [state with_state].
  unfold put_user. destruct (t_mode t); cbn; by rewrite H1.
Qed.

(** Bug: the file is replaced before it is made private: when that fails the add is taken
    back in memory and reported as not done, and the file has the user. *)
Theorem late_save_failure_parts raw key mapped w t s s' d :
  add_begin cfg raw key mapped w = Ok t ->
  replace_file (put_user t (state w)) (outside w) = (s, Ok tt) -> set_private s = (s', Err d) ->
  exists w', add_user cfg raw key mapped w = (w', Err (Persistence (Io d))) /\
    state w' = state w /\ disk w' = Some (put_user t (state w)).
Proof.
  intros Hb Hr Hp. unfold add_user. rewrite Hb. unfold add_persist, save. cbn [state outside with_state]. rewrite Hr, Hp.
  cbn [map_err]. eexists. split; [done|]. split; [|done]. unfold take_back. cbn. apply put_back. exact (proj1 (add_begin_spec _ _ _ _ _ Hb)).
Qed.

(** Bug: a name that the system's list has in another case is adopted as it is and can never
    be revoked, because the name to revoke is put in lower case. *)
Theorem adopted_upper_case_stays raw u w :
  normalize_smb_username raw = Ok u -> (forall v, v ∈ names (smb_users (state w)) -> to_ascii_lowercase v <> v) ->
  revoke_user cfg raw w = (w, Err (UserNotFound u)).
Proof.
  intros Hn Hv. unfold revoke_user. rewrite Hn. destruct (find (is_user u) (smb_users (state w))) as [r|] eqn:Hf; [|done].
  exfalso. assert (Hin : u ∈ names (smb_users (state w))).
  { apply find_some in Hf as [Hin Hx%is_user_true]. rewrite <-Hx. apply list_elem_of_fmap_2. by apply list_elem_of_In. }
  apply (Hv u Hin). unfold normalize_smb_username in Hn. destruct (is_valid_smb_username_shape _); [|done]. injection Hn as <-.
  unfold to_ascii_lowercase. rewrite map_map. apply map_ext. intros c. unfold ascii_lower_char, is_ascii_upper, in_range.
  destruct ((65 <=? c) && (c <=? 90)) eqn:Hc; [|by rewrite Hc]. apply andb_true_iff in Hc as [?%N.leb_le ?%N.leb_le].
  by rewrite (proj2 (N.leb_gt (c + 32) 90)), andb_false_r by lia.
Qed.
End theorems.

(** ** A concrete outside

    The users of the system and the keys of the vault.  The wrapper adds a user that is not
    there, and keys one that is; everything else succeeds. *)
Record Box := { box_users : list str; box_keys : list str }.
Definition box_says (code : Z) (text : str) : result CommandOutput str :=
  Ok {| exit_code := Some code; stdout := text; stderr := [] |}.
Definition box_run (program : str) (args : list str) (timeout : N) (stdin : list N) (s : Box)
  : Box * result CommandOutput str :=
  match args with
  | [_; _; verb; u] =>
      if decide (verb = lit "add") then
        if str_in u (box_users s) then (s, box_says 1 []) else ({| box_users := u :: box_users s; box_keys := box_keys s |}, box_says 0 [])
      else if decide (verb = lit "delete") then
        ({| box_users := filter (fun v => v <> u) (box_users s); box_keys := box_keys s |}, box_says 0 [])
      else if decide (verb = lit "list") then (s, box_says 0 (unlines (box_users s)))
      else (s, box_says 0 [])
  | _ => (s, box_says 0 [])
  end.
#[export] Instance box_outside : SambaOutside Box := {
  run := box_run;
  write_file p t s := (s, Ok tt);
  replace_file st s := (s, Ok tt);
  set_private s := (s, Ok tt);
  read_back s := Ok tt;
  fetch_password s k := if str_in k (box_keys s) then Some (lit "secret") else None;
  delete_password k s := ({| box_users := box_users s; box_keys := filter (fun v => v <> k) (box_keys s) |}, Ok tt);
  nss_probe s u := str_in u (box_users s);
  now_ms s := 1000;
  hostname_file s := Some (lit "player" ++ [LF]);
  proc_status s := None;
  passwd_file s := None;
  env s k := None;
  set_hostname n s := s }.
Definition box_cfg : Config := {|
  sudo_program := lit "/usr/bin/sudo"; smb_conf_path := lit "/etc/samba/smb.conf";
  candidate_path := lit "/var/tmp/evo-smb.conf.candidate"; netbios_override := None; workgroup := lit "WORKGROUP";
  path_allowlist := DEFAULT_SHARE_PATH_ALLOWLIST; path_denylist := DEFAULT_SHARE_PATH_DENYLIST;
  subprocess_timeout_ms := 10000; operator_wired := true; display := fun _ => lit "error";
  display_state := fun _ => lit "error"; show_code := fun _ => lit "1" |}.
Definition box_world : World (S := Box) := {|
  outside := {| box_users := [lit "old"]; box_keys := [lit "k"] |}; state := empty_state; disk := None;
  attached := true; published := []; effects := [] |}.
Definition box_added : World (S := Box) := (add_user box_cfg (lit " Alice") (lit "k") None box_world).1.



Lemma revoke_user_correct_witness :
  exists o, effects (revoke_user box_cfg (lit "ALICE") box_added).1 =
    effects box_added ++ [Ran (build_smb_user_sync_delete_args (lit "alice")) [] (Ok o); Deleted (lit "k") true].
Proof.
  pose proof (revoke_user_correct box_cfg (lit "ALICE") box_added (revoke_user box_cfg (lit "ALICE") box_added).1 (Ok tt)) as H.
  destruct H as (u & r & o & Hu & Hr & _ & -> & _); [by vm_compute|]. exists o.
  assert (u = lit "alice") as -> by (vm_compute in Hu; by injection Hu as <-).
  vm_compute in Hr. by injection Hr as <-.
Defined.


Lemma reconcile_users_correct_witness :
  lit "old" ∈ names (smb_users (state (reconcile_smb_users_from_passdb box_cfg box_world).1)).
Proof.
  pose proof (reconcile_users_correct box_cfg box_world (reconcile_smb_users_from_passdb box_cfg box_world).1 1%nat) as H.
  destruct H as (out & He & Ho); [by vm_compute|].
  assert (out = Ok {| exit_code := Some 0%Z; stdout := lit "old" ++ [LF]; stderr := [] |}) as ->
    by (vm_compute in He; by injection He as <-).
  change (if succeeded _ then ?x else _) with x in Ho. apply Ho. right. by apply (bool_decide_unpack _).
Defined.

Lemma service_user_blocked_witness :
  lit "evo" ∈ blocked_smb_usernames (Some (unlines (lit "Name:" :: uid_line 0 990 (lit "990") :: [])))
    (Some (unlines (map row_line [{| r_name := lit "Evo"; r_x := lit "x"; r_uid := 990; r_rest := lit "990::/:/bin/sh" |}]))) None None.
Proof.
  apply (service_user_blocked [lit "Name:"] 0 990 (lit "990") []
    [{| r_name := lit "Evo"; r_x := lit "x"; r_uid := 990; r_rest := lit "990::/:/bin/sh" |}]
    {| r_name := lit "Evo"; r_x := lit "x"; r_uid := 990; r_rest := lit "990::/:/bin/sh" |} None None).
  - by apply (bool_decide_unpack _).
  - by apply (bool_decide_unpack _).
  - done.
  - constructor; [|constructor]. split; [|split; [|split; [|split]]]; try by apply (bool_decide_unpack _).
    split; [done|]. split; by intros ? [= <-].
  - done.
Defined.
