(* ===== verification/UsbClassifier.v ===== *)
(** * The roles of USB partitions ([plugins/org.evoframework.storage.usb/src/classifier.rs])
    and the filesystems that are supported ([fs_matrix.rs])

    The classifier reads the mount table, the swap table and the list of block devices,
    and gives every partition of a USB disk a role and a mount policy.  The decoder of
    JSON is a library, so [classify] takes it as an argument. *)

From S2P Require Import Prelude.
From stdpp Require Import gmap.
Local Open Scope N_scope.

(** ** Data *)

(** [PartitionRole] *)
Inductive PartitionRole :=
  | SystemRoot | SystemBoot | SystemEfi | SystemSwap | SystemAdjacent | Removable.

(** [MountPolicy] *)
Inductive MountPolicy := Auto | OptInRequired | RefusedSystemLive.

#[export] Instance PartitionRole_eq_dec : EqDecision PartitionRole.
Proof. solve_decision. Defined.
#[export] Instance MountPolicy_eq_dec : EqDecision MountPolicy.
Proof. solve_decision. Defined.

(** [is_system_live] *)
Definition is_system_live (r : PartitionRole) : bool :=
  match r with
  | SystemRoot | SystemBoot | SystemEfi | SystemSwap => true
  | SystemAdjacent | Removable => false
  end.

(** [default_policy] *)
Definition default_policy (r : PartitionRole) : MountPolicy :=
  match r with
  | SystemRoot | SystemBoot | SystemEfi | SystemSwap => RefusedSystemLive
  | SystemAdjacent => OptInRequired
  | Removable => Auto
  end.

(** [ClassifiedPartition] *)
Record ClassifiedPartition := {
  c_device_node : str;
  c_parent_disk : str;
  c_partition_index : N;
  c_partition_count : N;
  c_label : option str;
  c_uuid : option str;
  c_partuuid : option str;
  c_vendor : option str;
  c_model : option str;
  c_serial_short : option str;
  c_fs_type : str;
  c_size_bytes : N;
  c_role : PartitionRole;
  c_mount_policy : MountPolicy;
  c_current_mount : option str;
}.

(** [ClassifierError] *)
Inductive ClassifierError := LsblkJson (e : str) | Mountinfo (line : str).

(** [MountEntry] *)
Record MountEntry := { device_node : str; mountpoint : str }.

(** The size in the list of devices: a number that fits in a [u64], a text, or any
    other value of JSON. *)
Inductive SizeValue := SizeNumber (n : N) | SizeText (s : str) | SizeOther.

(** [LsblkNode] *)
Inductive LsblkNode := {
  n_name : str;
  n_pkname : option str;
  n_mountpoint : option str;
  n_tran : option str;
  n_type : option str;
  n_uuid : option str;
  n_label : option str;
  n_fstype : option str;
  n_partuuid : option str;
  n_vendor : option str;
  n_model : option str;
  n_serial : option str;
  n_size : option SizeValue;
  n_children : list LsblkNode;
}.

(** [LsblkRoot] *)
Record LsblkRoot := { blockdevices : list LsblkNode }.

(** [UsbPartition] *)
Record UsbPartition := {
  p_device_node : str;
  p_parent_disk : str;
  p_partition_index : N;
  p_partition_count : N;
  p_label : option str;
  p_uuid : option str;
  p_partuuid : option str;
  p_vendor : option str;
  p_model : option str;
  p_serial_short : option str;
  p_fs_type : str;
  p_size_bytes : N;
}.

(** ** The mount table *)

(** [((d1 - b'0') << 6) | ((d2 - b'0') << 3) | (d3 - b'0')] in a [u8]: the shift drops
    the bits that leave the byte. *)
Definition octal (d1 d2 d3 : N) : N :=
  N.lor (N.lor (N.shiftl (d1 - 48) 6 mod 256) (N.shiftl (d2 - 48) 3)) (d3 - 48).

(** The loop of [decode_mountinfo_field], over the bytes that are left. *)
Fixpoint decode_go (bytes : list N) : str :=
  match bytes with
  | [] => []
  | b :: rest =>
      match rest with
      | d1 :: d2 :: d3 :: rest' =>
          if (b =? BACKSLASH) && (is_ascii_digit d1 && is_ascii_digit d2 && is_ascii_digit d3)
          then octal d1 d2 d3 :: decode_go rest'
          else b :: decode_go rest
      | _ => b :: decode_go rest
      end
  end.
Definition decode_mountinfo_field (s : str) : str := decode_go (as_bytes s).

(** [toks.iter().position(..)] *)
Fixpoint position (s : str) (toks : list str) : option nat :=
  match toks with
  | [] => None
  | t :: toks' => if bool_decide (t = s) then Some 0%nat else option_map S (position s toks')
  end.

(** The body of the loop of [parse_mountinfo], on a line that is not blank. *)
Definition parse_mount_line (line : str) : result MountEntry ClassifierError :=
  let toks := split_whitespace line in
  if bool_decide (length toks < 7)%nat then Err (Mountinfo line)
  else
    let mp := decode_mountinfo_field (nth 4 toks []) in
    match position (lit "-") toks with
    | Some p =>
        match nth_error toks (p + 2) with
        | Some source => Ok {| device_node := decode_mountinfo_field source; mountpoint := mp |}
        | None => Err (Mountinfo line)
        end
    | None => Err (Mountinfo line)
    end.

Fixpoint parse_mount_lines (ls : list str) : result (list MountEntry) ClassifierError :=
  match ls with
  | [] => Ok []
  | line :: ls' =>
      if str_is_empty (trim line) then parse_mount_lines ls'
      else
        let? m := parse_mount_line line in
        let? ms := parse_mount_lines ls' in
        Ok (m :: ms)
  end.
Definition parse_mountinfo (text : str) : result (list MountEntry) ClassifierError :=
  parse_mount_lines (lines text).

(** ** The swap table *)

(** One line of [parse_swaps] after the header. *)
Definition swap_of_line (line : str) : option str :=
  if str_is_empty (trim line) then None
  else
    match split_whitespace line with
    | name :: ty :: _ => if bool_decide (ty = lit "partition") then Some name else None
    | _ => None
    end.
Definition parse_swaps (text : str) : gset str :=
  list_to_set (omap swap_of_line (tail (lines text))).

(** [classify_system_mount] *)
Definition classify_system_mount (mountpoints : list str) : option PartitionRole :=
  if str_in (lit "/") mountpoints then Some SystemRoot
  else if str_in (lit "/boot/efi") mountpoints then Some SystemEfi
  else if str_in (lit "/boot") mountpoints || str_in (lit "/boot/firmware") mountpoints then Some SystemBoot
  else None.

(** ** The list of block devices *)

(** [parse_partition_index]: the digits at the end of the name. *)
Definition trailing_digits (name : str) : str := rev (take_while is_ascii_digit (rev name)).
Definition parse_partition_index (name : str) : option N :=
  match trailing_digits name with [] => None | ds => parse_u32 ds end.

Definition DOT : char := 46.
Definition MINUS : char := 45.

(** [split_num_suffix] *)
Definition is_num_char (c : char) : bool := is_ascii_digit c || (c =? DOT) || (c =? MINUS).
Definition split_num_suffix (s : str) : str * str := (take_while is_num_char s, trim (drop_while is_num_char s)).

(** [f64::from_str] on a text of digits, dots and minus signs: the sign and the decimal
    [n / 10^m], before it is rounded. *)
Definition parse_decimal (s : str) : option (bool * N * N) :=
  let '(neg, s) := match s with c :: s' => if c =? MINUS then (true, s') else (false, s) | [] => (false, s) end in
  let '(whole, frac) := match split_once [DOT] s with Some (a, b) => (a, b) | None => (s, []) end in
  match whole ++ frac with
  | [] => None
  | ds => match parse_digits 0 ds with
          | Some n => Some (neg, n, N.of_nat (length frac))
          | None => None
          end
  end.

(** The quotient rounded to the nearest integer, to the even one of two. *)
Definition div_half_even (n d : Z) : Z :=
  (let q := n / d in
   let r := n mod d in
   if 2 * r <? d then q else if d <? 2 * r then q + 1 else if Z.even q then q else q + 1)%Z.

(** The [f64] nearest to [n / d] as a mantissa of 53 bits and an exponent. *)
Definition f64_of_ratio (n d : Z) : Z * Z :=
  (let scale e := if e <? 0 then div_half_even (n * 2 ^ (- e)) d else div_half_even n (d * 2 ^ e) in
   let floor e := if e <? 0 then n * 2 ^ (- e) / d else n / (d * 2 ^ e) in
   let e0 := Z.log2 n - Z.log2 d - 53 in
   let e := if 2 ^ 53 <=? floor e0 then e0 + 1 else e0 in
   (scale e, e))%Z.

(** [(num * (mult as f64)) as u64] for a multiplier [2^k]: the product is exact, and the
    conversion drops the fraction and saturates. *)
Definition f64_scaled_as_u64 (neg : bool) (n m : N) (k : Z) : N :=
  if neg || (n =? 0) then 0
  else
    let '(q, e) := f64_of_ratio (Z.of_N n) (10 ^ Z.of_N m) in
    N.min U64_MAX (Z.to_N (Z.shiftl q (e + k))).

(** The multiplier of a suffix, as a power of two. *)
Definition suffix_power (suffix : str) : option Z :=
  if str_in suffix [lit ""; lit "B"] then Some 0%Z
  else if str_in suffix [lit "K"; lit "KB"; lit "KiB"] then Some 10%Z
  else if str_in suffix [lit "M"; lit "MB"; lit "MiB"] then Some 20%Z
  else if str_in suffix [lit "G"; lit "GB"; lit "GiB"] then Some 30%Z
  else if str_in suffix [lit "T"; lit "TB"; lit "TiB"] then Some 40%Z
  else if str_in suffix [lit "P"; lit "PB"; lit "PiB"] then Some 50%Z
  else None.

(** [parse_human_size] *)
Definition parse_human_size (s : str) : option N :=
  let s := trim s in
  if str_is_empty s then None
  else
    let '(num_str, suffix) := split_num_suffix s in
    match parse_decimal num_str with
    | None => None
    | Some (neg, n, m) => option_map (f64_scaled_as_u64 neg n m) (suffix_power suffix)
    end.

(** [size_to_bytes] *)
Definition size_to_bytes (v : SizeValue) : option N :=
  match v with
  | SizeNumber n => Some n
  | SizeText s => parse_human_size s
  | SizeOther => None
  end.

(** [.as_deref().map(str::trim).filter(|s| !s.is_empty())] *)
Definition trimmed_field (o : option str) : option str :=
  match o with
  | Some s => if str_is_empty (trim s) then None else Some (trim s)
  | None => None
  end.

Definition dev_path (name : str) : str := lit "/dev/" ++ name.

(** One child of a disk in [collect_usb_partitions]; [i] is its place among the
    partitions. *)
Definition usb_partition (disk : LsblkNode) (count : N) (i : nat) (child : LsblkNode) : UsbPartition := {|
  p_device_node := dev_path (n_name child);
  p_parent_disk := dev_path (n_name disk);
  p_partition_index :=
    default ((N.of_nat i + 1) mod (U32_MAX + 1)) (parse_partition_index (n_name child));
  p_partition_count := count;
  p_label := n_label child;
  p_uuid := n_uuid child;
  p_partuuid := n_partuuid child;
  p_vendor := trimmed_field (n_vendor disk);
  p_model := trimmed_field (n_model disk);
  p_serial_short := trimmed_field (n_serial disk);
  p_fs_type := default [] (n_fstype child);
  p_size_bytes := default 0 (match n_size child with Some v => size_to_bytes v | None => None end);
|}.

Definition is_part (c : LsblkNode) : bool := bool_decide (n_type c = Some (lit "part")).
Definition is_usb (d : LsblkNode) : bool := bool_decide (n_tran d = Some (lit "usb")).

Definition partitions_of_disk (disk : LsblkNode) : list UsbPartition :=
  let ps := filter (fun c => is_part c = true) (n_children disk) in
  imap (usb_partition disk (N.of_nat (length ps) mod (U32_MAX + 1))) ps.

(** [collect_usb_partitions] *)
Definition collect_usb_partitions (root : LsblkRoot) : list UsbPartition :=
  concat (map partitions_of_disk (filter (fun d => is_usb d = true) (blockdevices root))).

(** ** Classification *)

(** The mount points of a device, in the order of the mount table. *)
Definition mountpoints_for (mounts : list MountEntry) (dev : str) : list str :=
  map mountpoint (filter (fun m => device_node m = dev) mounts).

(** The system role of a device, if it has one. *)
Definition system_role (mounts : list MountEntry) (swap_devices : gset str) (dev : str) : option PartitionRole :=
  if bool_decide (dev ∈ swap_devices) then Some SystemSwap
  else classify_system_mount (mountpoints_for mounts dev).

(** The first pass: a role and the current mount of each partition, and the disks that
    have a live system partition. *)
Fixpoint first_pass (mounts : list MountEntry) (swap_devices : gset str) (parts : list UsbPartition)
    (disks : gset str) : list (PartitionRole * option str) * gset str :=
  match parts with
  | [] => ([], disks)
  | part :: parts' =>
      let current := head (mountpoints_for mounts (p_device_node part)) in
      match system_role mounts swap_devices (p_device_node part) with
      | Some role =>
          let '(roles, disks') := first_pass mounts swap_devices parts' ({[p_parent_disk part]} ∪ disks) in
          ((role, current) :: roles, disks')
      | None =>
          let '(roles, disks') := first_pass mounts swap_devices parts' disks in
          ((Removable, current) :: roles, disks')
      end
  end.

(** The second pass: siblings of live system partitions. *)
Definition adjacent_role (system_parent_disks : gset str) (part : UsbPartition) (role : PartitionRole) : PartitionRole :=
  if bool_decide (role = Removable) && bool_decide (p_parent_disk part ∈ system_parent_disks)
  then SystemAdjacent else role.

Definition classified (part : UsbPartition) (role : PartitionRole) (current : option str) : ClassifiedPartition := {|
  c_device_node := p_device_node part;
  c_parent_disk := p_parent_disk part;
  c_partition_index := p_partition_index part;
  c_partition_count := p_partition_count part;
  c_label := p_label part;
  c_uuid := p_uuid part;
  c_partuuid := p_partuuid part;
  c_vendor := p_vendor part;
  c_model := p_model part;
  c_serial_short := p_serial_short part;
  c_fs_type := p_fs_type part;
  c_size_bytes := p_size_bytes part;
  c_role := role;
  c_mount_policy := default_policy role;
  c_current_mount := current;
|}.

Definition classify_partitions (mounts : list MountEntry) (swap_devices : gset str)
    (parts : list UsbPartition) : list ClassifiedPartition :=
  let '(roles, disks) := first_pass mounts swap_devices parts ∅ in
  zip_with (fun part rc => classified part (adjacent_role disks part rc.1) rc.2) parts roles.

(** [classify]; [parse_lsblk] is [serde_json::from_str]. *)
Definition classify (parse_lsblk : str -> result LsblkRoot str) (mountinfo swaps lsblk_json : str)
    : result (list ClassifiedPartition) ClassifierError :=
  let? mounts := parse_mountinfo mountinfo in
  let? devices := map_err LsblkJson (parse_lsblk lsblk_json) in
  Ok (classify_partitions mounts (parse_swaps swaps) (collect_usb_partitions devices)).

(** ** Filesystems *)

(** [FsFamily] *)
Inductive FsFamily := Vfat | Exfat | Ntfs | Ext | Unsupported.

#[export] Instance FsFamily_eq_dec : EqDecision FsFamily.
Proof. solve_decision. Defined.

(** [from_lsblk] *)
Definition from_lsblk (fstype : str) : FsFamily :=
  if bool_decide (fstype = lit "vfat") then Vfat
  else if bool_decide (fstype = lit "exfat") then Exfat
  else if str_in fstype [lit "ntfs"; lit "ntfs3"] then Ntfs
  else if str_in fstype [lit "ext2"; lit "ext3"; lit "ext4"] then Ext
  else Unsupported.

(** [size_cap_bytes] *)
Definition size_cap_bytes (f : FsFamily) : option N :=
  match f with Vfat => Some (2 * 1024 * 1024 * 1024 * 1024) | _ => None end.

(** [mount_options] *)
Definition mount_options (f : FsFamily) (uid gid : N) : str :=
  match f with
  | Vfat | Exfat =>
      lit "noatime,dmask=0000,fmask=0000,iocharset=utf8,uid=" ++ dec uid ++ lit ",gid=" ++ dec gid
  | Ntfs =>
      lit "noatime,dmask=0000,fmask=0000,uid=" ++ dec uid ++ lit ",gid=" ++ dec gid ++
      lit ",windows_names,big_writes"
  | Ext => lit "noatime"
  | Unsupported => []
  end.

(** [repair_tool] *)
Definition repair_tool (f : FsFamily) : option str :=
  match f with
  | Vfat => Some (lit "fsck.vfat")
  | Exfat => Some (lit "fsck.exfat")
  | Ntfs => Some (lit "ntfsfix")
  | Ext => Some (lit "e2fsck")
  | Unsupported => None
  end.

(** [wrapper_fs_arg] *)
Definition wrapper_fs_arg (f : FsFamily) : option str :=
  match f with
  | Vfat => Some (lit "vfat")
  | Exfat => Some (lit "exfat")
  | Ntfs => Some (lit "ntfs")
  | Ext => Some (lit "ext4")
  | Unsupported => None
  end.

Example human_18T : parse_human_size (lit "1.8T") = Some 1979120929996.
Proof. vm_compute. reflexivity. Qed.
Example human_bogus : parse_human_size (lit "bogus") = None.
Proof. vm_compute. reflexivity. Qed.
Example index_nvme : parse_partition_index (lit "nvme0n1p2") = Some 2.
Proof. vm_compute. reflexivity. Qed.

(** ** The fields of the mount table *)

(** What the kernel writes for a path: space, tab, line feed and backslash in octal. *)
Definition escaped (c : char) : bool := (c =? 32) || (c =? TAB) || (c =? LF) || (c =? BACKSLASH).
Definition kernel_escape_char (c : char) : str :=
  if escaped c then [BACKSLASH; 48 + c / 64; 48 + c / 8 mod 8; 48 + c mod 8] else [c].
Definition kernel_escape (s : str) : str := concat (map kernel_escape_char s).

Lemma as_bytes_app s t : as_bytes (s ++ t) = as_bytes s ++ as_bytes t.
Proof. unfold as_bytes. by rewrite map_app, concat_app. Qed.

Lemma decode_plain b rest : b <> BACKSLASH -> decode_go (b :: rest) = b :: decode_go rest.
Proof.
  intros Hb. cbn [decode_go]. rewrite (proj2 (N.eqb_neq _ _) Hb). cbn [andb].
  by destruct rest as [|? [|? [|? ?]]].
Qed.
Lemma decode_plain_app l rest : BACKSLASH ∉ l -> decode_go (l ++ rest) = l ++ decode_go rest.
Proof.
  induction l as [|b l IH]; [done|]. rewrite not_elem_of_cons. intros [Hb Hl].
  cbn [app]. by rewrite decode_plain, IH.
Qed.

Lemma encode_utf8_no_backslash c : c <> BACKSLASH -> BACKSLASH ∉ encode_utf8 c.
Proof.
  intros Hc Hin. unfold encode_utf8 in Hin. destruct (N.ltb_spec c 128) as [Hl|Hl].
  - apply list_elem_of_singleton in Hin. congruence.
  - assert (Hge : forall b, b ∈ encode_utf8 c -> 128 <= b).
    { intros b. unfold encode_utf8. rewrite (proj2 (N.ltb_ge _ _) Hl).
      repeat case_match; rewrite !elem_of_cons, elem_of_nil; intros Hb; destruct_or?; subst; try done;
        (eapply N.le_trans; [|apply N.le_add_r]); lia. }
    unfold encode_utf8 in Hge. rewrite (proj2 (N.ltb_ge _ _) Hl) in Hge. apply Hge in Hin.
    unfold BACKSLASH in Hin. lia.
Qed.

Lemma escaped_cases c : escaped c = true -> c = 32 \/ c = TAB \/ c = LF \/ c = BACKSLASH.
Proof. unfold escaped. rewrite !orb_true_iff, !N.eqb_eq. tauto. Qed.

Lemma decode_kernel_escape s : decode_mountinfo_field (kernel_escape s) = as_bytes s.
Proof.
  unfold decode_mountinfo_field. induction s as [|c s IH]; [done|].
  unfold kernel_escape. cbn [map concat]. fold (kernel_escape s). rewrite as_bytes_app.
  change (as_bytes (c :: s)) with (encode_utf8 c ++ as_bytes s).
  unfold kernel_escape_char. destruct (escaped c) eqn:He.
  - rewrite <-IH. by destruct (escaped_cases c He) as [->|[->|[->| ->]]].
  - change (as_bytes [c]) with (encode_utf8 c ++ []). rewrite app_nil_r.
    rewrite decode_plain_app, IH; [done|]. apply encode_utf8_no_backslash. by intros ->.
Qed.

(** A row of the mount table, and how the kernel prints it. *)
Record MountRow := {
  mr_id : str; mr_parent : str; mr_dev : str; mr_root : str;
  mr_point : str; mr_options : str; mr_optional : list str;
  mr_fstype : str; mr_source : str; mr_super : str;
}.
Definition row_front (r : MountRow) : list str :=
  [mr_id r; mr_parent r; mr_dev r; mr_root r; kernel_escape (mr_point r); mr_options r] ++ mr_optional r.
Definition row_back (r : MountRow) : list str :=
  [lit "-"; mr_fstype r; kernel_escape (mr_source r); mr_super r].

(** Words with a space between two of them. *)
Fixpoint unwords (ws : list str) : str :=
  match ws with
  | [] => []
  | [w] => w
  | w :: ws' => w ++ 32 :: unwords ws'
  end.
Definition row_text (r : MountRow) : str := unwords (row_front r ++ row_back r).

Definition row_ok (r : MountRow) : Prop :=
  Forall word (row_front r ++ row_back r) /\ lit "-" ∉ row_front r.
#[export] Instance word_dec s : Decision (word s).
Proof. unfold word. apply _. Defined.
#[export] Instance row_ok_dec r : Decision (row_ok r).
Proof. unfold row_ok. apply _. Defined.

Lemma split_unwords ws : Forall word ws -> split_whitespace (unwords ws) = ws.
Proof.
  induction 1 as [|w ws Hw Hws IH]; [done|]. destruct ws as [|w' ws].
  - by apply words_last.
  - cbn [unwords]. rewrite words_cons by done. f_equal. exact IH.
Qed.

Lemma position_app s a b : s ∉ a -> position s (a ++ s :: b) = Some (length a).
Proof.
  induction a as [|x a IH]; cbn [app position length].
  - by rewrite bool_decide_true.
  - rewrite not_elem_of_cons. intros [Hx Ha]. rewrite bool_decide_false by congruence.
    by rewrite IH.
Qed.

Lemma word_one_line_char s c : word s -> is_whitespace c = true -> c ∉ s.
Proof.
  intros [_ Hs] Hc Hin. rewrite Forall_forall in Hs. apply Hs in Hin. congruence.
Qed.

Lemma parse_mount_line_row r :
  row_ok r ->
  parse_mount_line (row_text r) =
  Ok {| device_node := as_bytes (mr_source r); mountpoint := as_bytes (mr_point r) |}.
Proof.
  intros [Hw Hm]. unfold parse_mount_line, row_text. rewrite split_unwords by done.
  rewrite bool_decide_false by (rewrite length_app; cbn; lia).
  unfold row_back. rewrite position_app by done.
  rewrite nth_error_app2, Nat.add_comm, Nat.add_sub by lia. cbn [nth_error row_front app nth].
  by rewrite !decode_kernel_escape.
Qed.

Lemma unwords_word_chars ws c : Forall word ws -> is_whitespace c = true -> c <> 32 -> c ∉ unwords ws.
Proof.
  intros Hws Hc Hs. induction Hws as [|w ws Hw _ IH]; [apply not_elem_of_nil|].
  destruct ws as [|w' ws]; [by apply word_one_line_char|]. cbn [unwords].
  rewrite elem_of_app, elem_of_cons. intros [Hin|[Hin|Hin]]; [|done|done].
  by apply (word_one_line_char w c) in Hin.
Qed.

Lemma trim_nil_ws s : trim s = [] -> Forall (fun c => is_whitespace c = true) s.
Proof.
  unfold trim, trim_end. intros Ht. apply (f_equal (@rev _)) in Ht. rewrite rev_involutive in Ht. cbn in Ht.
  destruct (drop_while_suffix is_whitespace (rev (trim_start s))) as (p1 & H1 & Hp1).
  destruct (drop_while_suffix is_whitespace s) as (p2 & H2 & Hp2).
  rewrite Ht, app_nil_r in H1. apply (f_equal (@rev _)) in H1. rewrite rev_involutive in H1.
  rewrite H2. apply Forall_app. split; [done|]. fold (trim_start s). rewrite H1. by apply Forall_rev.
Qed.
Lemma word_line_not_blank w s : word w -> str_is_empty (trim (w ++ s)) = false.
Proof.
  intros [Hne Hw]. destruct (trim (w ++ s)) eqn:Ht; [|done]. apply trim_nil_ws, Forall_app in Ht.
  destruct w as [|c w]; [done|]. destruct Ht as [Ht _]. inversion Ht; inversion Hw; congruence.
Qed.

Lemma row_text_line r : row_ok r -> one_line (row_text r) /\ str_is_empty (trim (row_text r)) = false.
Proof.
  intros [Hw Hm]. split; [split|].
  - by apply unwords_word_chars.
  - intros Hl. apply last_Some_elem_of in Hl. revert Hl. by apply unwords_word_chars.
  - assert (Hid : word (mr_id r)) by (by inversion Hw). exact (word_line_not_blank _ _ Hid).
Qed.

(** The mount table is read back: whatever mounts the kernel prints, with the fields
    escaped the way it escapes them, the classifier gets the source and the mount point
    of each, in the order of the table. *)
Theorem mount_table_roundtrip rs :
  Forall row_ok rs ->
  parse_mountinfo (concat (map (fun r => row_text r ++ [LF]) rs)) =
  Ok (map (fun r => {| device_node := as_bytes (mr_source r); mountpoint := as_bytes (mr_point r) |}) rs).
Proof.
  intros Hrs. unfold parse_mountinfo.
  assert (Hl : lines (concat (map (fun r => row_text r ++ [LF]) rs)) = map row_text rs).
  { pose proof (lines_concat (map row_text rs) []) as Hc. rewrite map_map, !app_nil_r in Hc.
    apply Hc. rewrite Forall_map. apply (Forall_impl _ _ _ Hrs). intros r Hr. by apply row_text_line. }
  rewrite Hl. clear Hl. induction Hrs as [|r rs Hr _ IH]; [done|]. cbn [map parse_mount_lines].
  rewrite (proj2 (row_text_line r Hr)), parse_mount_line_row by done. by rewrite IH.
Qed.

Definition stick_row : MountRow := {|
  mr_id := lit "40"; mr_parent := lit "35"; mr_dev := lit "8:1"; mr_root := lit "/";
  mr_point := lit "/mnt/my music"; mr_options := lit "rw,relatime"; mr_optional := [lit "shared:1"];
  mr_fstype := lit "vfat"; mr_source := lit "/dev/sda1"; mr_super := lit "rw" |}.

Lemma mount_table_roundtrip_witness :
  Forall row_ok [stick_row; stick_row] /\
  parse_mountinfo (concat (map (fun r => row_text r ++ [LF]) [stick_row; stick_row])) =
  Ok (replicate 2 {| device_node := lit "/dev/sda1"; mountpoint := lit "/mnt/my music" |}).
Proof.
  assert (H : Forall row_ok [stick_row; stick_row]) by (apply (bool_decide_eq_true_1 _); vm_compute; reflexivity).
  split; [exact H|]. exact (mount_table_roundtrip [stick_row; stick_row] H).
Defined.

(** A mount point with a letter that is not ASCII comes back as another path: each of
    its bytes becomes a character. *)
Theorem mount_point_not_ascii :
  exists r, row_ok r /\ mr_point r = lit "/mnt/" ++ [233] /\
    parse_mountinfo (row_text r) =
    Ok [{| device_node := lit "/dev/sda1"; mountpoint := lit "/mnt/" ++ [195; 169] |}].
Proof.
  exists {| mr_id := lit "40"; mr_parent := lit "35"; mr_dev := lit "8:1"; mr_root := lit "/";
    mr_point := lit "/mnt/" ++ [233]; mr_options := lit "rw"; mr_optional := [];
    mr_fstype := lit "vfat"; mr_source := lit "/dev/sda1"; mr_super := lit "rw" |}.
  split_and!; [apply (bool_decide_eq_true_1 _); vm_compute; reflexivity|done|vm_compute; reflexivity].
Qed.

(** ** Roles *)

Lemma first_pass_spec mounts swap_devices parts disks roles disks' :
  first_pass mounts swap_devices parts disks = (roles, disks') ->
  roles = map (fun p => (default Removable (system_role mounts swap_devices (p_device_node p)),
                         head (mountpoints_for mounts (p_device_node p)))) parts /\
  (forall d, d ∈ disks' <-> d ∈ disks \/
     exists q, q ∈ parts /\ p_parent_disk q = d /\ is_Some (system_role mounts swap_devices (p_device_node q))).
Proof.
  revert disks roles disks'. induction parts as [|p parts IH]; intros disks roles disks' Hf; cbn [first_pass] in Hf.
  { injection Hf as <- <-. split; [done|]. intros d. split; [by left|].
    intros [Hd|(q & Hq & _)]; [done|by apply elem_of_nil in Hq]. }
  destruct (system_role mounts swap_devices (p_device_node p)) as [role|] eqn:Hs.
  - destruct (first_pass _ _ parts _) as [rs ds] eqn:Hp. injection Hf as <- <-.
    destruct (IH _ _ _ Hp) as [-> Hds]. split; [cbn [map]; by rewrite Hs|]. intros d. rewrite Hds, elem_of_union, elem_of_singleton.
    setoid_rewrite elem_of_cons. split.
    + intros [[->|Hd]|(q & Hq & Hd & Hr)]; [|by left|right; exists q; auto].
      right. exists p. rewrite Hs. eauto.
    + intros [Hd|(q & [->|Hq] & Hd & Hr)]; [by left; right|by left; left|right; eauto].
  - destruct (first_pass _ _ parts _) as [rs ds] eqn:Hp. injection Hf as <- <-.
    destruct (IH _ _ _ Hp) as [-> Hds]. split; [cbn [map]; by rewrite Hs|]. intros d. rewrite Hds.
    setoid_rewrite elem_of_cons. split.
    + intros [Hd|(q & Hq & Hd & Hr)]; [by left|right; exists q; auto].
    + intros [Hd|(q & [->|Hq] & Hd & Hr)]; [by left| |right; eauto].
      rewrite Hs in Hr. by destruct Hr.
Qed.

Lemma mountpoints_for_elem mounts dev s :
  s ∈ mountpoints_for mounts dev <-> exists m, m ∈ mounts /\ device_node m = dev /\ mountpoint m = s.
Proof.
  unfold mountpoints_for. rewrite list_elem_of_fmap. setoid_rewrite list_elem_of_filter. naive_solver.
Qed.

(** A device has a system role exactly when it swaps or is mounted at one of four paths. *)
Lemma system_role_iff mounts swap_devices dev :
  is_Some (system_role mounts swap_devices dev) <->
  dev ∈ swap_devices \/
  exists m, m ∈ mounts /\ device_node m = dev /\
    mountpoint m ∈ [lit "/"; lit "/boot/efi"; lit "/boot"; lit "/boot/firmware"].
Proof.
  unfold system_role, classify_system_mount, str_in. case_bool_decide as Hsw; [split; eauto|].
  set (mps := mountpoints_for mounts dev).
  assert (Hm : (exists s, s ∈ mps /\ s ∈ [lit "/"; lit "/boot/efi"; lit "/boot"; lit "/boot/firmware"]) <->
               exists m, m ∈ mounts /\ device_node m = dev /\
                 mountpoint m ∈ [lit "/"; lit "/boot/efi"; lit "/boot"; lit "/boot/firmware"]).
  { subst mps. setoid_rewrite mountpoints_for_elem. naive_solver. }
  rewrite <-Hm. setoid_rewrite elem_of_cons. setoid_rewrite elem_of_cons. setoid_rewrite elem_of_cons.
  setoid_rewrite list_elem_of_singleton. split.
  - intros [role Hr]. right. repeat case_bool_decide; cbn in Hr; simplify_eq; eauto 8.
  - intros [Hd|(s & Hs & Hc)]; [done|]. repeat (case_bool_decide; cbn; eauto). naive_solver.
Qed.

(** What the role of a partition is, in one step: its system role if it has one,
    adjacent when the disk has a partition with one, removable otherwise. *)
Definition disk_is_live (mounts : list MountEntry) (swap_devices : gset str) (parts : list UsbPartition) (disk : str) : Prop :=
  Exists (fun q => p_parent_disk q = disk /\
                   system_role mounts swap_devices (p_device_node q) <> None) parts.
#[export] Instance disk_is_live_dec mounts swap_devices parts disk : Decision (disk_is_live mounts swap_devices parts disk).
Proof. unfold disk_is_live. apply _. Defined.

Definition reference_role (mounts : list MountEntry) (swap_devices : gset str) (parts : list UsbPartition)
    (p : UsbPartition) : PartitionRole :=
  match system_role mounts swap_devices (p_device_node p) with
  | Some role => role
  | None => if decide (disk_is_live mounts swap_devices parts (p_parent_disk p)) then SystemAdjacent else Removable
  end.

Lemma system_role_live mounts swap_devices dev role :
  system_role mounts swap_devices dev = Some role -> is_system_live role = true.
Proof.
  unfold system_role, classify_system_mount. intros H. repeat case_match; by simplify_eq.
Qed.

Lemma classify_by_reference mounts swap_devices parts :
  classify_partitions mounts swap_devices parts =
  map (fun p => classified p (reference_role mounts swap_devices parts p)
                  (head (mountpoints_for mounts (p_device_node p)))) parts.
Proof.
  unfold classify_partitions. destruct (first_pass mounts swap_devices parts ∅) as [roles disks] eqn:Hf.
  destruct (first_pass_spec _ _ _ _ _ _ Hf) as [-> Hd]. clear Hf.
  assert (Hrole : forall p, adjacent_role disks p (default Removable (system_role mounts swap_devices (p_device_node p))) =
                  reference_role mounts swap_devices parts p).
  { intros p. unfold adjacent_role, reference_role.
    destruct (system_role mounts swap_devices (p_device_node p)) as [role|] eqn:Hs; cbn [default].
    - apply system_role_live in Hs. by destruct role.
    - rewrite bool_decide_true by done. cbn [andb].
      destruct (decide (disk_is_live mounts swap_devices parts (p_parent_disk p))) as [Hl|Hl];
        [rewrite bool_decide_true; [done|]|rewrite bool_decide_false; [done|]];
        unfold disk_is_live in Hl; rewrite Exists_exists in Hl; rewrite Hd.
      + right. destruct Hl as (q & Hq & Hp & Hr). exists q. by rewrite <-not_eq_None_Some.
      + intros [He|(q & Hq & Hp & Hr)]; [by apply not_elem_of_empty in He|].
        apply Hl. exists q. by rewrite not_eq_None_Some. }
  etrans; [apply (zip_with_fmap_r _ _ parts parts)|]. rewrite zip_with_diag.
  apply map_ext. intros p. cbn [fst snd]. by rewrite Hrole.
Qed.

(** The two passes give each partition the role of the one-step definition, the policy
    of that role and the first mount point of its device, in the order of the list of
    devices, and leave none out. *)
Theorem classify_correct mounts swap_devices root :
  classify_partitions mounts swap_devices (collect_usb_partitions root) =
  map (fun p => classified p (reference_role mounts swap_devices (collect_usb_partitions root) p)
                  (head (mountpoints_for mounts (p_device_node p)))) (collect_usb_partitions root) /\
  map p_device_node (collect_usb_partitions root) =
  concat (map (fun d => map (fun c => dev_path (n_name c)) (filter (fun c => is_part c = true) (n_children d)))
    (filter (fun d => is_usb d = true) (blockdevices root))).
Proof.
  split; [apply classify_by_reference|]. unfold collect_usb_partitions. rewrite concat_map, map_map. f_equal.
  apply map_ext. intros d. unfold partitions_of_disk.
  generalize (N.of_nat (length (filter (fun c => is_part c = true) (n_children d))) mod (U32_MAX + 1)) as n.
  intros n. etrans; [apply fmap_imap|]. exact (imap_const (fun c => dev_path (n_name c)) _).
Qed.

(** A partition has a live role exactly when it swaps or is mounted at a system path. *)
Lemma live_role_iff mounts swap_devices parts c :
  c ∈ classify_partitions mounts swap_devices parts ->
  (is_system_live (c_role c) = true <->
     c_device_node c ∈ swap_devices \/
     exists m, m ∈ mounts /\ device_node m = c_device_node c /\
       mountpoint m ∈ [lit "/"; lit "/boot/efi"; lit "/boot"; lit "/boot/firmware"]).
Proof.
  rewrite classify_by_reference. intros (p & -> & Hp)%list_elem_of_fmap.
  cbn [classified c_role c_device_node]. rewrite <-system_role_iff. unfold reference_role.
  destruct (system_role mounts swap_devices (p_device_node p)) eqn:Hs.
  - apply system_role_live in Hs. rewrite Hs. naive_solver.
  - case_decide; cbn; naive_solver.
Qed.

(** What every listed partition satisfies: its numbers fit their width, its device is in
    [/dev], and its policy is the one of its role. *)
Definition well_typed (c : ClassifiedPartition) : Prop :=
  c_partition_index c <= U32_MAX /\ c_partition_count c <= U32_MAX /\
  (exists name, c_device_node c = dev_path name) /\ c_mount_policy c = default_policy (c_role c).

Lemma mod_u32 n : n mod (U32_MAX + 1) <= U32_MAX.
Proof. pose proof (N.mod_lt n (U32_MAX + 1)) as H. unfold U32_MAX in *. lia. Qed.

Lemma classified_well_typed mounts swap_devices root c :
  c ∈ classify_partitions mounts swap_devices (collect_usb_partitions root) -> well_typed c.
Proof.
  rewrite classify_by_reference. intros (p & -> & Hp)%list_elem_of_fmap. unfold collect_usb_partitions in Hp.
  apply list_elem_of_In, in_concat in Hp as (l & (d & <- & _)%in_map_iff & Hp).
  apply list_elem_of_In, elem_of_lookup_imap in Hp as (i & child & -> & _). unfold well_typed. cbn.
  split_and!; [|apply mod_u32|by eexists|done].
  destruct (parse_partition_index (n_name child)) as [n|] eqn:Hn; cbn [default]; [|apply mod_u32].
  unfold parse_partition_index in Hn. destruct (trailing_digits _); [done|]. by eapply parse_uint_bound.
Qed.

(** The invariant of the boot drive: a partition that swaps or is mounted at a system
    path is listed and refused, nothing on its disk is mounted on its own, and what may
    be mounted on its own is on a disk without a live system partition. *)
Theorem boot_drive_invariant mounts swap_devices parts c :
  c ∈ classify_partitions mounts swap_devices parts ->
  (is_system_live (c_role c) = true <->
     c_device_node c ∈ swap_devices \/
     exists m, m ∈ mounts /\ device_node m = c_device_node c /\
       mountpoint m ∈ [lit "/"; lit "/boot/efi"; lit "/boot"; lit "/boot/firmware"]) /\
  (is_system_live (c_role c) = true -> c_mount_policy c = RefusedSystemLive /\
     forall s, s ∈ classify_partitions mounts swap_devices parts ->
       c_parent_disk s = c_parent_disk c -> c_mount_policy s <> Auto).
Proof.
  intros Hc. split; [by apply (live_role_iff mounts swap_devices parts)|].
  revert Hc. rewrite classify_by_reference. intros (p & -> & Hp)%list_elem_of_fmap.
  cbn [classified c_role c_mount_policy c_parent_disk]. intros Hl.
  split; [by destruct (reference_role _ _ _ p)|]. intros s (q & -> & Hq)%list_elem_of_fmap.
  cbn [classified c_mount_policy c_parent_disk]. intros Hd.
  assert (Hlive : disk_is_live mounts swap_devices parts (p_parent_disk q)).
  { unfold disk_is_live. apply Exists_exists. exists p. split_and!; [done|done|].
    intros Hn. unfold reference_role in Hl. rewrite Hn in Hl. by case_decide. }
  unfold reference_role. destruct (system_role _ _ (p_device_node q)) as [role|] eqn:Hs.
  - apply system_role_live in Hs. by destruct role.
  - by rewrite decide_True.
Qed.

(** A disk with two partitions, as the list of devices has it. *)
Definition part_node (name fs : string) : LsblkNode := {|
  n_name := lit name; n_pkname := Some (lit "sda"); n_mountpoint := None; n_tran := None;
  n_type := Some (lit "part"); n_uuid := None; n_label := None; n_fstype := Some (lit fs);
  n_partuuid := None; n_vendor := None; n_model := None; n_serial := None;
  n_size := Some (SizeNumber 1000); n_children := [] |}.
Definition disk_node (children : list LsblkNode) : LsblkNode := {|
  n_name := lit "sda"; n_pkname := None; n_mountpoint := None; n_tran := Some (lit "usb");
  n_type := Some (lit "disk"); n_uuid := None; n_label := None; n_fstype := None;
  n_partuuid := None; n_vendor := Some (lit " SanDisk "); n_model := None; n_serial := None;
  n_size := None; n_children := children |}.
Definition boot_disk : LsblkRoot :=
  {| blockdevices := [disk_node [part_node "sda1" "ext4"; part_node "sda2" "ext4"]] |}.

Definition root_mounted (source : string) : list MountEntry := [{| device_node := lit source; mountpoint := lit "/" |}].

Lemma boot_drive_invariant_witness :
  exists c, c ∈ classify_partitions (root_mounted "/dev/sda2") ∅ (collect_usb_partitions boot_disk) /\
    is_system_live (c_role c) = true /\ c_mount_policy c = RefusedSystemLive /\
    forall s, s ∈ classify_partitions (root_mounted "/dev/sda2") ∅ (collect_usb_partitions boot_disk) ->
      c_parent_disk s = c_parent_disk c -> c_mount_policy s <> Auto.
Proof.
  set (cs := classify_partitions (root_mounted "/dev/sda2") ∅ (collect_usb_partitions boot_disk)).
  set (c := nth 1 cs (classified (usb_partition (disk_node []) 0 0 (disk_node [])) Removable None)).
  assert (Hin : c ∈ cs).
  { apply list_elem_of_lookup. exists 1%nat. vm_compute. reflexivity. }
  exists c. split; [exact Hin|].
  assert (Hl : is_system_live (c_role c) = true) by (vm_compute; reflexivity).
  split; [exact Hl|]. exact (proj2 (boot_drive_invariant _ _ _ c Hin) Hl).
Defined.

(** The kernel may name the root device [/dev/root] in the mount table.  The device of a
    partition is compared with that name, so the partition the system runs from gets the
    role of a stick, and the policy to be mounted on its own. *)
Theorem dev_root_is_removable :
  exists mountinfo,
    parse_mountinfo mountinfo = Ok (root_mounted "/dev/root") /\
    option_map (map (fun c => (c_device_node c, c_role c, c_mount_policy c)))
      (match classify (fun _ => Ok boot_disk) mountinfo [] [] with Ok cs => Some cs | Err _ => None end) =
    Some [(lit "/dev/sda1", Removable, Auto); (lit "/dev/sda2", Removable, Auto)].
Proof.
  exists (lit "22 1 8:2 / / rw,relatime shared:1 - ext4 /dev/root rw"). split; vm_compute; reflexivity.
Qed.

(** ** Errors *)

Lemma parse_mount_line_err line e : parse_mount_line line = Err e -> e = Mountinfo line.
Proof. unfold parse_mount_line. intros H. by repeat case_match; simplify_eq. Qed.

(** The table is read line by line, and the first line that is no row is the error of the
    whole table: the rows around it are lost. *)
Theorem parse_mountinfo_error text :
  match parse_mountinfo text with
  | Ok ms => Forall2 (fun line m => parse_mount_line line = Ok m)
               (filter (fun l => str_is_empty (trim l) = false) (lines text)) ms
  | Err e => exists before line after,
      lines text = before ++ line :: after /\ e = Mountinfo line /\
      str_is_empty (trim line) = false /\ is_ok (parse_mount_line line) = false /\
      Forall (fun l => str_is_empty (trim l) = true \/ is_ok (parse_mount_line l) = true) before
  end.
Proof.
  unfold parse_mountinfo. induction (lines text) as [|l ls IH]; [constructor|]. cbn [parse_mount_lines].
  destruct (str_is_empty (trim l)) eqn:Hb.
  - rewrite filter_cons, decide_False by congruence. destruct (parse_mount_lines ls) as [ms|e]; [done|].
    destruct IH as (b & x & a & -> & He & Hx & Hp & Hf). exists (l :: b), x, a. split_and!; auto.
  - rewrite filter_cons, decide_True by done. destruct (parse_mount_line l) as [m|e] eqn:Hl.
    + destruct (parse_mount_lines ls) as [ms|e]; [by constructor|].
      destruct IH as (b & x & a & -> & He & Hx & Hp & Hf). exists (l :: b), x, a. split_and!; auto.
      constructor; [right; by rewrite Hl|done].
    + exists [], l, ls. rewrite Hl. by apply parse_mount_line_err in Hl.
Qed.

(** ** Names and sizes *)

Lemma take_while_app_stop p a c b :
  Forall (fun x => p x = true) a -> p c = false -> take_while p (a ++ c :: b) = a.
Proof. induction 1 as [|x a Hx _ IH]; intros Hc; cbn; [by rewrite Hc|]. by rewrite Hx, IH. Qed.
Lemma take_while_all p a : Forall (fun x => p x = true) a -> take_while p a = a.
Proof. induction 1 as [|x a Hx _ IH]; cbn; [done|]. by rewrite Hx, IH. Qed.

(** The index of a partition is the number at the end of its name, whatever number that
    fits; a name that does not end in a digit has none. *)
Theorem partition_index_correct pre c n :
  is_ascii_digit c = false ->
  parse_partition_index (pre ++ c :: dec n) = (if n <=? U32_MAX then Some n else None) /\
  parse_partition_index (pre ++ [c]) = None.
Proof.
  intros Hc. unfold parse_partition_index, trailing_digits. split.
  - rewrite rev_app_distr. cbn [rev]. rewrite <-app_assoc. cbn [app].
    rewrite take_while_app_stop by (auto using Forall_rev, dec_digits). rewrite rev_involutive.
    destruct (dec n) as [|d ds] eqn:Hd; [by apply dec_nonempty in Hd|]. rewrite <-Hd. unfold parse_u32.
    destruct (N.leb_spec n U32_MAX) as [Hn|Hn]; [by apply parse_uint_dec|].
    destruct (parse_uint U32_MAX (dec n)) as [k|] eqn:Hp; [|done]. exfalso.
    pose proof (parse_uint_bound _ _ _ Hp). unfold parse_uint in Hp.
    rewrite Hd in Hp. pose proof (dec_digits n) as Hdig. rewrite Hd in Hdig.
    assert (Hplus : (d =? 43) = false).
    { destruct (N.eqb_spec d 43); [|done]. subst. by inversion Hdig. }
    rewrite Hplus in Hp. rewrite <-Hd in Hp. rewrite parse_digits_dec in Hp.
    by rewrite (proj2 (N.leb_gt _ _) Hn) in Hp.
  - rewrite rev_app_distr. cbn. by rewrite Hc.
Qed.

Lemma partition_index_correct_witness :
  is_ascii_digit 112 = false /\ parse_partition_index (lit "nvme0n1" ++ 112 :: dec 2) = Some 2.
Proof. split; [reflexivity|]. exact (proj1 (partition_index_correct (lit "nvme0n1") 112 2 eq_refl)). Defined.

Lemma div_half_even_one n : div_half_even n 1 = n.
Proof. unfold div_half_even. by rewrite Z.mod_1_r, Z.div_1_r. Qed.

(** An integer below 2^53 is an [f64], so scaling it is exact. *)
Lemma f64_scaled_exact n k :
  (n < 2 ^ 53)%N -> (0 <= k)%Z -> f64_scaled_as_u64 false n 0 k = N.min U64_MAX (n * 2 ^ Z.to_N k).
Proof.
  intros Hn Hk. unfold f64_scaled_as_u64. destruct (N.eqb_spec n 0) as [->|Hz]; [done|]. cbn [orb].
  unfold f64_of_ratio. change (10 ^ Z.of_N 0)%Z with 1%Z. change (Z.log2 1) with 0%Z.
  set (z := Z.of_N n). assert (Hpos : (0 < z)%Z) by lia.
  assert (Hlog : (0 <= Z.log2 z <= 52)%Z).
  { split; [apply Z.log2_nonneg|]. enough (Z.log2 z < 53)%Z by lia. apply Z.log2_lt_pow2; lia. }
  assert (Hspec := Z.log2_spec z Hpos).
  assert (Hfloor : (2 ^ 53 <= z * 2 ^ (- (Z.log2 z - 0 - 53)))%Z).
  { replace (- (Z.log2 z - 0 - 53))%Z with (53 - Z.log2 z)%Z by lia.
    replace 53%Z with (Z.log2 z + (53 - Z.log2 z))%Z at 1 by lia.
    rewrite Z.pow_add_r by lia. apply Z.mul_le_mono_nonneg_r; [lia|tauto]. }
  rewrite (proj2 (Z.ltb_lt (Z.log2 z - 0 - 53) 0)) by lia. rewrite Z.div_1_r.
  rewrite (proj2 (Z.leb_le _ _) Hfloor). f_equal.
  assert (Hscale : (if (Z.log2 z - 0 - 53 + 1 <? 0)%Z then div_half_even (z * 2 ^ (- (Z.log2 z - 0 - 53 + 1))) 1
                    else div_half_even z (1 * 2 ^ (Z.log2 z - 0 - 53 + 1)))%Z = (z * 2 ^ (52 - Z.log2 z))%Z).
  { destruct (Z.ltb_spec (Z.log2 z - 0 - 53 + 1) 0)%Z.
    - rewrite div_half_even_one. do 2 f_equal. lia.
    - replace (Z.log2 z) with 52%Z by lia. cbn. by rewrite div_half_even_one, Z.mul_1_r. }
  rewrite Hscale. clear Hscale Hfloor. set (w := (52 - Z.log2 z)%Z).
  replace (Z.log2 z - 0 - 53 + 1 + k)%Z with (k - w)%Z by lia.
  assert (Hw : (0 <= w)%Z) by lia.
  assert (Hsh : Z.shiftl (z * 2 ^ w) (k - w) = (z * 2 ^ k)%Z).
  { rewrite <-Z.shiftl_mul_pow2 by lia. rewrite Z.shiftl_shiftl by lia.
    replace (w + (k - w))%Z with k by lia. by rewrite Z.shiftl_mul_pow2. }
  rewrite Hsh. subst z. rewrite <-(N2Z.id (n * _)), N2Z.inj_mul, N2Z.inj_pow, Z2N.id by lia. done.
Qed.

Lemma suffix_chars u k :
  suffix_power u = Some k ->
  (0 <= k)%Z /\ Forall (fun c => is_whitespace c = false /\ is_num_char c = false) u.
Proof.
  unfold suffix_power, str_in. intros H.
  repeat (case_bool_decide as Hu; [injection H as <-; split; [lia|];
    rewrite !elem_of_cons, elem_of_nil in Hu; destruct_or?; subst;
    apply (bool_decide_eq_true_1 _); vm_compute; reflexivity|clear Hu]). done.
Qed.

Lemma trim_word w : word w -> trim w = w.
Proof.
  intros [Hne Hw]. apply trim_tidy. split_and!; [done| |].
  - intros c Hc. rewrite Forall_forall in Hw. apply Hw. destruct w; [done|]. injection Hc as ->. left.
  - intros c Hc. rewrite Forall_forall in Hw. by apply Hw, last_Some_elem_of.
Qed.

Lemma split_once_none c s : c ∉ s -> split_once [c] s = None.
Proof.
  induction s as [|x s IH]; [done|]. rewrite not_elem_of_cons. intros [Hx Hs]. cbn.
  rewrite (proj2 (N.eqb_neq c x)) by done. by rewrite IH.
Qed.

(** A whole number with a unit, below 2^53, is read as that many units, capped at the
    largest [u64]. *)
Theorem human_size_exact n unit k :
  n < 2 ^ 53 -> suffix_power unit = Some k ->
  parse_human_size (dec n ++ unit) = Some (N.min U64_MAX (n * 2 ^ Z.to_N k)).
Proof.
  intros Hn Hk. destruct (suffix_chars _ _ Hk) as [Hk0 Hu].
  assert (Hnum : Forall (fun c => is_num_char c = true) (dec n)).
  { apply (Forall_impl _ _ _ (dec_digits n)). intros c Hc. unfold is_num_char. by rewrite Hc. }
  assert (Hsplit : split_num_suffix (dec n ++ unit) = (dec n, unit)).
  { unfold split_num_suffix. destruct unit as [|c u].
    - rewrite app_nil_r, take_while_all, drop_while_forall by done. done.
    - assert (Hc : is_num_char c = false) by (inversion Hu; tauto).
      rewrite take_while_app_stop by done. f_equal.
      assert (Hd : drop_while is_num_char (dec n ++ c :: u) = c :: u).
      { clear Hk Hu. induction Hnum as [|x l Hx _ IH]; cbn; [by rewrite Hc|]. by rewrite Hx. }
      rewrite Hd. apply trim_word. split; [done|]. apply (Forall_impl _ _ _ Hu). tauto. }
  assert (Hword : word (dec n ++ unit)).
  { split; [pose proof (dec_nonempty n); by destruct (dec n)|]. apply Forall_app. split.
    - apply (Forall_impl _ _ _ (dec_digits n)). intros c Hc. by apply digit_not_ws.
    - apply (Forall_impl _ _ _ Hu). tauto. }
  unfold parse_human_size. rewrite (trim_word _ Hword).
  assert (Hemp : str_is_empty (dec n ++ unit) = false) by (destruct Hword as [Hne _]; by destruct (dec n ++ unit)).
  rewrite Hemp, Hsplit.
  assert (Hdec : parse_decimal (dec n) = Some (false, n, 0)).
  { unfold parse_decimal. pose proof (dec_not_elem DOT n eq_refl). pose proof (dec_not_elem MINUS n eq_refl).
    pose proof (parse_digits_dec n) as Hp. destruct (dec n) as [|d ds] eqn:Hd; [by apply dec_nonempty in Hd|].
    rewrite (proj2 (N.eqb_neq d MINUS)) by set_solver.
    rewrite split_once_none by done. rewrite app_nil_r. by rewrite Hp. }
  rewrite Hdec, Hk. cbn [option_map]. f_equal. by apply f64_scaled_exact.
Qed.

Lemma human_size_exact_witness :
  (32 < 2 ^ 53) /\ suffix_power (lit "GiB") = Some 30%Z /\ parse_human_size (lit "32GiB") = Some 34359738368.
Proof.
  assert (Hn : 32 < 2 ^ 53) by lia. assert (Hk : suffix_power (lit "GiB") = Some 30%Z) by (vm_compute; reflexivity).
  split; [exact Hn|]. split; [exact Hk|]. exact (human_size_exact 32 (lit "GiB") 30 Hn Hk).
Defined.
