(* ===== verification/UsbAliases.v ===== *)
(** * The names operators give to USB drives
    ([plugins/org.evoframework.storage.usb/src/aliases.rs])

    The store maps the identity of a partition to a name.  It is looked up for every
    partition when ids are derived, changed by the rename verb, and kept in a file that
    is replaced by a rename.  The TOML codec is a library: [save] and [load] take it as
    an argument. *)

From stdpp Require Import gmap.
From S2P Require Import Prelude Paths.
Local Open Scope N_scope.

(** ** Data *)

Definition ALIAS_SCHEMA_VERSION : N := 1.
Definition ALIAS_FILE_NAME : str := lit "aliases.toml".

(** [AliasEntry] *)
Record AliasEntry := {
  e_vendor : option str;
  e_model : option str;
  e_serial_short : str;
  e_partuuid : option str;
  e_partition_index : option N;
  e_alias : str;
  e_set_at_ms : option Z;
}.

(** [AliasFile] *)
Record AliasFile := { schema_version : N; f_alias : list AliasEntry }.

(** [AliasStore] *)
Record AliasStore := { path : str; entries : list AliasEntry }.

(** [AliasLookup] *)
Record AliasLookup := {
  l_vendor : option str;
  l_model : option str;
  l_serial_short : str;
  l_partuuid : option str;
  l_partition_index : N;
}.

(** [AliasStoreError] *)
Inductive AliasStoreError :=
  | Io (p : str)
  | Parse (p : str)
  | SchemaVersion (p : str) (found expected : N).

(** ** Operations *)

(** [opt_eq] *)
Definition opt_eq (a b : option str) : bool := bool_decide (a = b).

(** The test that [lookup], [set_alias] and [clear_alias] share: the four fields of the
    identity are equal. *)
Definition same_tuple (vendor model : option str) (serial_short : str) (partuuid : option str) (e : AliasEntry) : bool :=
  bool_decide (e_serial_short e = serial_short) && opt_eq (e_vendor e) vendor &&
  opt_eq (e_model e) model && opt_eq (e_partuuid e) partuuid.

(** The test of the second loop of [lookup]. *)
Definition same_index (id : AliasLookup) (e : AliasEntry) : bool :=
  bool_decide (e_partuuid e = None) && bool_decide (e_serial_short e = l_serial_short id) &&
  opt_eq (e_vendor e) (l_vendor id) && opt_eq (e_model e) (l_model id) &&
  bool_decide (e_partition_index e = Some (l_partition_index id)).

(** [Iterator::find] *)
Fixpoint find_entry (p : AliasEntry -> bool) (l : list AliasEntry) : option AliasEntry :=
  match l with [] => None | e :: l' => if p e then Some e else find_entry p l' end.

(** [lookup] *)
Definition lookup (s : AliasStore) (id : AliasLookup) : option str :=
  match find_entry (same_tuple (l_vendor id) (l_model id) (l_serial_short id) (l_partuuid id)) (entries s) with
  | Some e => Some (e_alias e)
  | None =>
      match l_partuuid id with
      | None => option_map e_alias (find_entry (same_index id) (entries s))
      | Some _ => None
      end
  end.

(** [partuuid.is_none().then_some(partition_index)] *)
Definition index_key (partuuid : option str) (partition_index : N) : option N :=
  match partuuid with None => Some partition_index | Some _ => None end.

(** The loop of [set_alias]: the first entry with the tuple is changed, and without one
    an entry is added at the end. *)
Fixpoint set_in (vendor model : option str) (serial_short : str) (partuuid : option str) (partition_index : N)
    (alias : str) (set_at_ms : Z) (l : list AliasEntry) : list AliasEntry :=
  match l with
  | [] => [{| e_vendor := vendor; e_model := model; e_serial_short := serial_short; e_partuuid := partuuid;
              e_partition_index := index_key partuuid partition_index; e_alias := alias;
              e_set_at_ms := Some set_at_ms |}]
  | e :: l' =>
      if same_tuple vendor model serial_short partuuid e then
        {| e_vendor := e_vendor e; e_model := e_model e; e_serial_short := e_serial_short e;
           e_partuuid := e_partuuid e; e_partition_index := index_key partuuid partition_index;
           e_alias := alias; e_set_at_ms := Some set_at_ms |} :: l'
      else e :: set_in vendor model serial_short partuuid partition_index alias set_at_ms l'
  end.

(** [set_alias] *)
Definition set_alias (vendor model : option str) (serial_short : str) (partuuid : option str) (partition_index : N)
    (alias : str) (set_at_ms : Z) (s : AliasStore) : AliasStore :=
  {| path := path s;
     entries := set_in vendor model serial_short partuuid partition_index alias set_at_ms (entries s) |}.

(** [clear_alias] *)
Definition clear_alias (vendor model : option str) (serial_short : str) (partuuid : option str) (s : AliasStore) : AliasStore :=
  {| path := path s;
     entries := filter (fun e => same_tuple vendor model serial_short partuuid e = false) (entries s) |}.

(** ** The file *)

Definition alias_path (state_dir : str) : str := join (join state_dir (lit "state")) ALIAS_FILE_NAME.

(** [empty] *)
Definition empty (state_dir : str) : AliasStore := {| path := alias_path state_dir; entries := [] |}.

(** The files by path; a file that cannot be read as text is [None]. *)
Notation Files := (gmap str (option str)).

(** [load] *)
Definition load (from_str : str -> option AliasFile) (state_dir : str) (fs : Files) : result AliasStore AliasStoreError :=
  let p := alias_path state_dir in
  match fs !! p with
  | None => Ok (empty state_dir)
  | Some None => Err (Io p)
  | Some (Some text) =>
      if str_is_empty (trim text) then Ok (empty state_dir)
      else
        match from_str text with
        | None => Err (Parse p)
        | Some file =>
            if schema_version file =? ALIAS_SCHEMA_VERSION then Ok {| path := p; entries := f_alias file |}
            else Err (SchemaVersion p (schema_version file) ALIAS_SCHEMA_VERSION)
        end
  end.

(** What the system answers to the calls of one [save]; a write that fails has put a
    part of the text in the file. *)
Record SaveIo := {
  dir_ok : bool;
  open_ok : bool;
  cut_at : option nat;
  sync_ok : bool;
  rename_ok : bool;
}.

(** [PathBuf::set_extension] on a path that ends in its file name: the text up to the end
    of the stem, a dot and the extension. *)
Definition with_extension (p ext : str) : str :=
  match file_name p with
  | Some name =>
      let stem := match split_once (lit ".") (rev name) with
                  | Some (_, r) => if str_is_empty r then name else rev r
                  | None => name
                  end in
      take (length p - length name) p ++ stem ++ lit "." ++ ext
  | None => p
  end.
(** The temporary file of [save]. *)
Definition tmp_path (p : str) (pid : N) : str := with_extension p (lit "toml.tmp." ++ dec pid).

(** [save]: the files after each call, the last of which is what the function leaves, and
    its result. *)
Definition save (to_string_pretty : AliasFile -> option str) (io : SaveIo) (pid : N) (s : AliasStore) (fs : Files)
    : list Files * result unit AliasStoreError :=
  let tmp := tmp_path (path s) pid in
  match to_string_pretty {| schema_version := ALIAS_SCHEMA_VERSION; f_alias := entries s |} with
  | None => ([fs], Err (Parse (path s)))
  | Some text =>
      match path_parent (path s) with
      | None => ([fs], Err (Io (path s)))
      | Some parent =>
          if negb (dir_ok io) then ([fs], Err (Io parent))
          else if negb (open_ok io) then ([fs], Err (Io tmp))
          else
            let opened := <[tmp := Some []]> fs in
            match cut_at io with
            | Some n => ([opened; <[tmp := Some (take n text)]> fs], Err (Io tmp))
            | None =>
                let written := <[tmp := Some text]> fs in
                if negb (sync_ok io) then ([opened; written], Err (Io tmp))
                else if negb (rename_ok io) then ([opened; written], Err (Io (path s)))
                else ([opened; written; <[path s := Some text]> (delete tmp fs)], Ok tt)
            end
      end
  end.

(** ** Looking up, setting and clearing *)

Definition has_tuple (id : AliasLookup) : AliasEntry -> bool :=
  same_tuple (l_vendor id) (l_model id) (l_serial_short id) (l_partuuid id).

(** The tuple of an identity, which the index of the partition is no part of. *)
Definition tuple (id : AliasLookup) : option str * option str * str * option str :=
  (l_vendor id, l_model id, l_serial_short id, l_partuuid id).
Definition entry_tuple (e : AliasEntry) : option str * option str * str * option str :=
  (e_vendor e, e_model e, e_serial_short e, e_partuuid e).

Lemma same_tuple_true v m s p e : same_tuple v m s p e = true <-> entry_tuple e = (v, m, s, p).
Proof.
  unfold same_tuple, opt_eq, entry_tuple. rewrite !andb_true_iff, !bool_decide_eq_true. naive_solver.
Qed.
Lemma same_tuple_false v m s p e : same_tuple v m s p e = false <-> entry_tuple e <> (v, m, s, p).
Proof. rewrite <-not_true_iff_false. by rewrite same_tuple_true. Qed.
Lemma has_tuple_true id e : has_tuple id e = true <-> entry_tuple e = tuple id.
Proof. apply same_tuple_true. Qed.
Lemma has_tuple_false id e : entry_tuple e <> tuple id -> has_tuple id e = false.
Proof. intros He. apply not_true_iff_false. by rewrite has_tuple_true. Qed.

Lemma find_entry_none p l : find_entry p l = None <-> Forall (fun e => p e = false) l.
Proof.
  induction l as [|e l IH]; cbn [find_entry]; [by split|]. rewrite Forall_cons, <-IH.
  destruct (p e); naive_solver.
Qed.

(** An entry that the second loop finds has the tuple, so the first loop has found one:
    the index of the partition is never looked at. *)
Lemma lookup_first s id : lookup s id = option_map e_alias (find_entry (has_tuple id) (entries s)).
Proof.
  unfold lookup. fold (has_tuple id). destruct (find_entry (has_tuple id) (entries s)) as [e|] eqn:Hf; [done|].
  destruct (l_partuuid id) eqn:Hp; [done|]. apply find_entry_none in Hf.
  assert (Hnone : find_entry (same_index id) (entries s) = None); [|by rewrite Hnone].
  apply find_entry_none. apply (Forall_impl _ _ _ Hf). intros e He.
  apply not_true_iff_false. intros Hi. cbn in He.
  enough (Ht : has_tuple id e = true) by congruence. apply has_tuple_true.
  unfold same_index, opt_eq in Hi. rewrite !andb_true_iff, !bool_decide_eq_true in Hi.
  destruct Hi as [[[[H1 H2] H3] H4] _]. unfold entry_tuple, tuple. by rewrite Hp, H1, H2, H3, H4.
Qed.

Lemma find_set_same v m s p i a t l id :
  tuple id = (v, m, s, p) ->
  option_map e_alias (find_entry (has_tuple id) (set_in v m s p i a t l)) = Some a.
Proof.
  intros Hid. induction l as [|e l IH]; cbn [set_in].
  - cbn [find_entry]. by rewrite (proj2 (has_tuple_true id _)) by done.
  - destruct (same_tuple v m s p e) eqn:He.
    + apply same_tuple_true in He. cbn [find_entry]. rewrite (proj2 (has_tuple_true id _)); [done|].
      rewrite Hid, <-He. done.
    + cbn [find_entry]. rewrite has_tuple_false; [exact IH|].
      rewrite Hid. by apply same_tuple_false.
Qed.
Lemma find_set_other v m s p i a t l id :
  tuple id <> (v, m, s, p) ->
  find_entry (has_tuple id) (set_in v m s p i a t l) = find_entry (has_tuple id) l.
Proof.
  intros Hid. assert (Hno : forall e, entry_tuple e = (v, m, s, p) -> has_tuple id e = false).
  { intros e He. apply has_tuple_false. congruence. }
  induction l as [|e l IH]; cbn [set_in].
  - cbn [find_entry]. by rewrite Hno.
  - destruct (same_tuple v m s p e) eqn:He.
    + apply same_tuple_true in He. cbn [find_entry]. by rewrite !Hno.
    + cbn [find_entry]. destruct (has_tuple id e); [done|exact IH].
Qed.

(** The store is a map from tuples to names: a name that was set is found under its
    tuple, a tuple that was cleared has none, and every other tuple keeps its name. *)
Theorem aliases_are_a_map v m s p i a t st id :
  (tuple id = (v, m, s, p) ->
     lookup (set_alias v m s p i a t st) id = Some a /\ lookup (clear_alias v m s p st) id = None) /\
  (tuple id <> (v, m, s, p) ->
     lookup (set_alias v m s p i a t st) id = lookup st id /\
     lookup (clear_alias v m s p st) id = lookup st id).
Proof.
  rewrite !lookup_first. cbn [set_alias clear_alias entries]. split; intros Hid; split.
  - by apply find_set_same.
  - assert (Hn : find_entry (has_tuple id) (filter (fun e => same_tuple v m s p e = false) (entries st)) = None);
      [|by rewrite Hn].
    apply find_entry_none, Forall_forall. intros e [He _]%list_elem_of_filter.
    apply has_tuple_false. rewrite Hid. by apply same_tuple_false.
  - by rewrite find_set_other.
  - f_equal. induction (entries st) as [|e l IH]; [done|]. rewrite filter_cons. case_decide as He.
    + cbn [find_entry]. by rewrite IH.
    + rewrite IH. cbn [find_entry]. apply not_false_is_true, same_tuple_true in He.
      rewrite has_tuple_false; [done|congruence].
Qed.

Definition stick_lookup (i : N) : AliasLookup := {|
  l_vendor := Some (lit "SanDisk"); l_model := Some (lit "Cruzer"); l_serial_short := lit "4C530";
  l_partuuid := None; l_partition_index := i |}.

Lemma aliases_are_a_map_witness :
  exists st', lookup st' (stick_lookup 1) = Some (lit "Vinyl").
Proof.
  eexists. apply (proj1 (aliases_are_a_map (Some (lit "SanDisk")) (Some (lit "Cruzer")) (lit "4C530") None 1
    (lit "Vinyl") 0%Z (empty (lit "/s")) (stick_lookup 1)) eq_refl).
Defined.

(** Two partitions of a disk without partition UUIDs share one name, though the store
    keeps the index of a partition to tell them apart: naming the second renames the
    first, and each is found under the name given last. *)
Theorem partitions_share_a_name v m s i j a b t u st :
  let id k := {| l_vendor := v; l_model := m; l_serial_short := s; l_partuuid := None; l_partition_index := k |} in
  let st' := set_alias v m s None j b u (set_alias v m s None i a t st) in
  lookup st' (id i) = Some b /\ lookup st' (id j) = Some b.
Proof.
  cbn zeta. rewrite !lookup_first. by split; apply find_set_same.
Qed.

Lemma set_in_tuples v m s p i a t l :
  map entry_tuple (set_in v m s p i a t l) =
  if bool_decide ((v, m, s, p) ∈ map entry_tuple l) then map entry_tuple l else map entry_tuple l ++ [(v, m, s, p)].
Proof.
  induction l as [|e l IH]; [done|]. cbn [set_in map]. destruct (same_tuple v m s p e) eqn:He.
  - apply same_tuple_true in He. rewrite bool_decide_true by (rewrite He; left). cbn [map]. by f_equal.
  - apply same_tuple_false in He. cbn [map]. rewrite IH.
    destruct (decide ((v, m, s, p) ∈ map entry_tuple l)) as [Hin|Hin].
    + rewrite !bool_decide_true by (by try right). done.
    + rewrite !bool_decide_false; [done| |done]. rewrite elem_of_cons. intros [?|?]; congruence.
Qed.

(** No two entries have the same tuple, whatever is set and cleared. *)
Theorem tuples_stay_unique v m s p i a t st :
  NoDup (map entry_tuple (entries st)) ->
  NoDup (map entry_tuple (entries (set_alias v m s p i a t st))) /\
  NoDup (map entry_tuple (entries (clear_alias v m s p st))).
Proof.
  intros Hnd. cbn [set_alias clear_alias entries]. split.
  - rewrite set_in_tuples. case_bool_decide as Hin; [done|]. apply NoDup_app. split_and!; [done| |apply NoDup_singleton].
    intros x Hx ->%list_elem_of_singleton. done.
  - eapply sublist_NoDup; [exact Hnd|]. apply fmap_sublist, sublist_filter.
Qed.

Lemma tuples_stay_unique_witness :
  let st := set_alias None None (lit "4C530") None 1 (lit "Vinyl") 0 (empty (lit "/s")) in
  NoDup (map entry_tuple (entries st)) /\ NoDup (map entry_tuple (entries (clear_alias None None (lit "4C530") None st))).
Proof.
  assert (H : NoDup (map entry_tuple (entries (empty (lit "/s"))))) by constructor.
  assert (H1 := proj1 (tuples_stay_unique None None (lit "4C530") None 1 (lit "Vinyl") 0 _ H)).
  split; [exact H1|]. exact (proj2 (tuples_stay_unique None None (lit "4C530") None 1 (lit "x") 0 _ H1)).
Defined.

(** ** The file of the names *)

Lemma split_char_snoc sep a w : sep ∉ w -> exists l, split_char sep (a ++ sep :: w) = l ++ [w] /\ l <> [].
Proof.
  intros Hw. induction a as [|c a IH]; cbn [app split_char].
  - rewrite N.eqb_refl, split_char_last by done. by exists [[]].
  - destruct IH as (l & -> & Hl). destruct (c =? sep); [by exists ([] :: l)|].
    destruct l as [|x l]; [done|]. by exists ((c :: x) :: l).
Qed.

(** The last name of a path that goes on below a directory. *)
Lemma file_name_below a w :
  SLASH ∉ w -> w <> [] -> w <> dot -> w <> lit ".." -> file_name (a ++ SLASH :: w) = Some w.
Proof.
  intros Hs Hne Hdot Hdots. destruct (split_char_snoc SLASH a w Hs) as (l & Hl & Hlne).
  unfold file_name, components. rewrite Hl. destruct l as [|x l]; [done|]. cbn [app].
  assert (Htail : map Normal (filter (fun s => s <> [] /\ s <> dot) (l ++ [w])) =
                  map Normal (filter (fun s => s <> [] /\ s <> dot) l) ++ [Normal w]).
  { rewrite filter_app, map_app. f_equal. rewrite filter_cons_True by done. done. }
  rewrite Htail. assert (Hne' : forall A (z : A), match a ++ SLASH :: w with [] => z | _ => z end = z) by (by destruct a).
  destruct (a ++ SLASH :: w) eqn:Ha; [by destruct a|].
  destruct (str_is_empty x); [|case_decide]; rewrite app_comm_cons, last_snoc, decide_False by done; done.
Qed.

Lemma alias_path_name dir : file_name (alias_path dir) = Some ALIAS_FILE_NAME.
Proof.
  unfold alias_path, join. change (starts_with [SLASH] ALIAS_FILE_NAME) with false.
  change (starts_with [SLASH] (lit "state")) with false. cbn match.
  set (d := if str_is_empty dir || ends_with [SLASH] dir then dir ++ lit "state" else dir ++ SLASH :: lit "state").
  assert (Hd : exists a, d = a ++ lit "state").
  { subst d. destruct (str_is_empty dir || ends_with [SLASH] dir); [by eexists|].
    exists (dir ++ [SLASH]). by rewrite <-app_assoc. }
  destruct Hd as [a ->].
  assert (He : str_is_empty (a ++ lit "state") || ends_with [SLASH] (a ++ lit "state") = false).
  { unfold ends_with, strip_suffix. rewrite rev_app_distr. by destruct a. }
  rewrite He. apply file_name_below; try done. apply (bool_decide_eq_true_1 _). vm_compute. reflexivity.
Qed.

(** The temporary file is another file: its name ends in a digit. *)
Lemma tmp_path_other dir pid : tmp_path (alias_path dir) pid <> alias_path dir.
Proof.
  unfold tmp_path, with_extension. rewrite alias_path_name. intros He. apply (f_equal last) in He.
  destruct (exists_last (dec_nonempty pid)) as (ds & d & Hd).
  assert (Hdig : is_ascii_digit d = true).
  { pose proof (dec_digits pid) as Hf. rewrite Hd in Hf. apply Forall_app in Hf as [_ Hf]. by inversion Hf. }
  rewrite Hd, !app_assoc, last_snoc in He.
  assert (Hl : last (alias_path dir) = Some 108).
  { unfold alias_path, join at 1. change (starts_with [SLASH] ALIAS_FILE_NAME) with false. cbn match.
    destruct (_ || _); [|]; change ALIAS_FILE_NAME with (lit "aliases.tom" ++ [108]);
      rewrite ?app_comm_cons, app_assoc, last_snoc; done. }
  rewrite Hl in He. injection He as ->. done.
Qed.

(** What [save] writes. *)
Definition saved_text (to_string_pretty : AliasFile -> option str) (st : AliasStore) : option str :=
  to_string_pretty {| schema_version := ALIAS_SCHEMA_VERSION; f_alias := entries st |}.

(** Whatever call of a save fails, and wherever the process stops, the file of the names
    is the old one or the new one as a whole, and it is the new one at the end exactly
    when the save succeeds. *)
Theorem save_is_atomic enc io pid dir ents fs :
  let st := {| path := alias_path dir; entries := ents |} in
  let '(states, r) := save enc io pid st fs in
  Forall (fun f => f !! path st = fs !! path st \/
            exists text, saved_text enc st = Some text /\ f !! path st = Some (Some text)) states /\
  match r with
  | Ok _ => exists text final, saved_text enc st = Some text /\ last states = Some final /\
              final !! path st = Some (Some text)
  | Err _ => Forall (fun f => f !! path st = fs !! path st) states
  end.
Proof.
  cbn zeta. unfold save, saved_text. cbn [path entries]. pose proof (tmp_path_other dir pid) as Ht.
  set (tmp := tmp_path (alias_path dir) pid) in *. set (p := alias_path dir) in *.
  assert (Hkeep : forall v, <[tmp := v]> fs !! p = fs !! p) by (intros v; by rewrite lookup_insert_ne).
  destruct (enc _) as [text|]; [|by repeat constructor].
  destruct (path_parent p); [|by repeat constructor]. destruct (dir_ok io), (open_ok io); cbn [negb];
    try (by repeat constructor).
  destruct (cut_at io); [by split; repeat constructor; rewrite ?Hkeep; auto|].
  destruct (sync_ok io), (rename_ok io); cbn [negb];
    try (by split; repeat constructor; rewrite ?Hkeep; auto).
  split.
  - rewrite !Forall_cons, Forall_nil, !Hkeep, lookup_insert_eq. split_and!; eauto.
  - exists text. eexists. split_and!; [done|done|]. by rewrite lookup_insert_eq.
Qed.

Lemma save_ok enc io pid dir ents fs :
  let st := {| path := alias_path dir; entries := ents |} in
  (save enc io pid st fs).2 = Ok tt ->
  exists text, saved_text enc st = Some text /\
    last (save enc io pid st fs).1 = Some (<[alias_path dir := Some text]> (delete (tmp_path (alias_path dir) pid) fs)).
Proof.
  cbn zeta. unfold save, saved_text. cbn [path entries]. destruct (enc _) as [text|]; [|done].
  destruct (path_parent _); [|done]. destruct (dir_ok io), (open_ok io); cbn [negb]; try done.
  destruct (cut_at io); [done|]. destruct (sync_ok io), (rename_ok io); cbn [negb]; try done. eauto.
Qed.

(** What a save has written is what the next start loads, when the codec reads back
    what it wrote. *)
Theorem saved_names_are_loaded enc dec' io pid dir ents fs :
  let st := {| path := alias_path dir; entries := ents |} in
  (forall text, saved_text enc st = Some text ->
     str_is_empty (trim text) = false /\
     dec' text = Some {| schema_version := ALIAS_SCHEMA_VERSION; f_alias := ents |}) ->
  (save enc io pid st fs).2 = Ok tt ->
  exists final, last (save enc io pid st fs).1 = Some final /\ load dec' dir final = Ok st.
Proof.
  cbn zeta. intros Hcodec Hr. destruct (save_ok enc io pid dir ents fs Hr) as (text & Ht & Hl).
  rewrite Hl. eexists. split; [done|]. destruct (Hcodec _ Ht) as [Hne Hd].
  unfold load. by rewrite lookup_insert_eq, Hne, Hd.
Qed.

Definition io_ok : SaveIo := {| dir_ok := true; open_ok := true; cut_at := None; sync_ok := true; rename_ok := true |}.

Lemma saved_names_are_loaded_witness :
  exists final,
    last (save (fun _ => Some (lit "x")) io_ok 7
      {| path := alias_path (lit "/s"); entries := entries (set_alias None None (lit "4C530") None 1 (lit "Vinyl") 0 (empty (lit "/s"))) |} ∅).1 = Some final /\
    load (fun _ => Some {| schema_version := 1; f_alias := entries (set_alias None None (lit "4C530") None 1 (lit "Vinyl") 0 (empty (lit "/s"))) |})
      (lit "/s") final =
    Ok {| path := alias_path (lit "/s"); entries := entries (set_alias None None (lit "4C530") None 1 (lit "Vinyl") 0 (empty (lit "/s"))) |}.
Proof.
  apply saved_names_are_loaded.
  - intros text Ht. injection Ht as <-. split; vm_compute; reflexivity.
  - vm_compute. reflexivity.
Defined.
