(* ===== verification/UsbRuntime.v ===== *)
(** * The runtime of USB storage ([plugins/org.evoframework.storage.usb/src/runtime.rs])

    The registry of drives and the verbs on it: the registry is rebuilt from the
    classifier at every pass, removable drives are mounted unless the operator removed
    them, and a drive can be mounted, removed, repaired and renamed.  The privileged
    helper, the library plugin, the files and the clock are the interface [UsbOutside].
    A verb is split where it waits for the check of a filesystem, so that a pass can come
    in between. *)

From stdpp Require Import gmap.
From S2P Require Import Prelude StableId UsbClassifier UsbAliases.
Local Open Scope N_scope.

(** ** Data *)

Definition USB_MOUNT_ROOT : str := lit "/var/lib/evo/music/USB".
Definition mount_root_of (id : str) : str := USB_MOUNT_ROOT ++ lit "/" ++ id.

(** [trim_end_matches('/')], [same_mount_path] *)
Definition trim_slashes (s : str) : str := rev (drop_while (fun c => c =? 47) (rev s)).
Definition same_mount_path (a b : str) : bool := bool_decide (trim_slashes a = trim_slashes b).

(** [mpd_usb_uri_prefix] *)
Definition mpd_usb_uri_prefix (stable_id : str) : str := lit "USB/" ++ stable_id.

(** [ParkedQueueItem], [ParkedQueue] *)
Record ParkedQueueItem := { q_position : N; q_uri : str }.
Record ParkedQueue := { q_items : list ParkedQueueItem; q_playing : bool; q_paused : bool; q_current : option N }.
Definition ParkedQueue_default : ParkedQueue :=
  {| q_items := []; q_playing := false; q_paused := false; q_current := None |}.

(** [rewrite_parked_queue] *)
Definition rewrite_uri (from to uri : str) : str :=
  match strip_prefix from uri with
  | Some rest => if str_is_empty rest || starts_with (lit "/") rest then to ++ rest else uri
  | None => uri
  end.
Definition rewrite_parked_queue (parked : ParkedQueue) (from to : str) : ParkedQueue :=
  {| q_items := map (fun i => {| q_position := q_position i; q_uri := rewrite_uri from to (q_uri i) |}) (q_items parked);
     q_playing := q_playing parked; q_paused := q_paused parked; q_current := q_current parked |}.

(** [DriveClass] *)
Inductive DriveClass :=
  | SystemDisk | UnsupportedClass | Unmounted | MountedClean | MountedDirty | MountedDirtyHiberfile
  | MountFailedDirty | MountFailedOversizedVfat | MountFailedOther.
#[export] Instance DriveClass_eq_dec : EqDecision DriveClass.
Proof. solve_decision. Defined.

(** [DriveClass::wire_str], [role_wire_string], [mount_policy_wire_string] and the
    readers of [class_serde], [role_serde] and [policy_serde]. *)
Definition class_wire (c : DriveClass) : str :=
  match c with
  | SystemDisk => lit "system-disk"
  | UnsupportedClass => lit "unsupported"
  | Unmounted => lit "unmounted"
  | MountedClean => lit "mounted-clean"
  | MountedDirty => lit "mounted-dirty"
  | MountedDirtyHiberfile => lit "mounted-dirty-hiberfile"
  | MountFailedDirty => lit "mount-failed-dirty"
  | MountFailedOversizedVfat => lit "mount-failed-oversized-vfat"
  | MountFailedOther => lit "mount-failed-other"
  end.
Definition role_wire_string (r : PartitionRole) : str :=
  match r with
  | SystemRoot => lit "system-root"
  | SystemBoot => lit "system-boot"
  | SystemEfi => lit "system-efi"
  | SystemSwap => lit "system-swap"
  | SystemAdjacent => lit "system-adjacent"
  | Removable => lit "removable"
  end.
Definition mount_policy_wire_string (p : MountPolicy) : str :=
  match p with
  | Auto => lit "auto"
  | OptInRequired => lit "opt-in-required"
  | RefusedSystemLive => lit "refused-system-live"
  end.

Definition read_class (s : str) : option DriveClass :=
  if bool_decide (s = lit "system-disk") then Some SystemDisk
  else if bool_decide (s = lit "unsupported") then Some UnsupportedClass
  else if bool_decide (s = lit "unmounted") then Some Unmounted
  else if bool_decide (s = lit "mounted-clean") then Some MountedClean
  else if bool_decide (s = lit "mounted-dirty") then Some MountedDirty
  else if bool_decide (s = lit "mounted-dirty-hiberfile") then Some MountedDirtyHiberfile
  else if bool_decide (s = lit "mount-failed-dirty") then Some MountFailedDirty
  else if bool_decide (s = lit "mount-failed-oversized-vfat") then Some MountFailedOversizedVfat
  else if bool_decide (s = lit "mount-failed-other") then Some MountFailedOther
  else None.
Definition read_role (s : str) : option PartitionRole :=
  if bool_decide (s = lit "system-root") then Some SystemRoot
  else if bool_decide (s = lit "system-boot") then Some SystemBoot
  else if bool_decide (s = lit "system-efi") then Some SystemEfi
  else if bool_decide (s = lit "system-swap") then Some SystemSwap
  else if bool_decide (s = lit "system-adjacent") then Some SystemAdjacent
  else if bool_decide (s = lit "removable") then Some Removable
  else None.
Definition read_policy (s : str) : option MountPolicy :=
  if bool_decide (s = lit "auto") then Some Auto
  else if bool_decide (s = lit "opt-in-required") then Some OptInRequired
  else if bool_decide (s = lit "refused-system-live") then Some RefusedSystemLive
  else None.

(** [DriveRecord] *)
Record DriveRecord := {
  d_stable_id : str;
  d_display_name : option str;
  d_id_source : option str;
  d_device_node : str;
  d_parent_disk : str;
  d_partition_index : N;
  d_partition_count : N;
  d_label : option str;
  d_uuid : option str;
  d_partuuid : option str;
  d_vendor : option str;
  d_model : option str;
  d_serial_short : option str;
  d_fs_type : str;
  d_size_bytes : N;
  d_role : PartitionRole;
  d_mount_policy : MountPolicy;
  d_class : DriveClass;
  d_mount_root : option str;
  d_library_source_id : option str;
  d_alias_set : bool;
  d_last_transition_at_ms : option Z;
}.

Definition is_mounted (c : DriveClass) : bool :=
  match c with MountedClean | MountedDirty => true | _ => false end.

(** The state of a record that the runtime changes, and the rest of it. *)
Definition with_state (c : DriveClass) (root sid : option str) (at_ms : option Z) (r : DriveRecord) : DriveRecord := {|
  d_stable_id := d_stable_id r; d_display_name := d_display_name r; d_id_source := d_id_source r;
  d_device_node := d_device_node r; d_parent_disk := d_parent_disk r;
  d_partition_index := d_partition_index r; d_partition_count := d_partition_count r;
  d_label := d_label r; d_uuid := d_uuid r; d_partuuid := d_partuuid r; d_vendor := d_vendor r;
  d_model := d_model r; d_serial_short := d_serial_short r; d_fs_type := d_fs_type r;
  d_size_bytes := d_size_bytes r; d_role := d_role r; d_mount_policy := d_mount_policy r;
  d_class := c; d_mount_root := root; d_library_source_id := sid; d_alias_set := d_alias_set r;
  d_last_transition_at_ms := at_ms |}.

(** The class of a partition that was just classified. *)
Definition fresh_class (p : ClassifiedPartition) : DriveClass :=
  if is_system_live (c_role p) then SystemDisk
  else
    match c_current_mount p with
    | Some mp => if starts_with USB_MOUNT_ROOT mp then MountedClean else Unmounted
    | None => if bool_decide (from_lsblk (c_fs_type p) = Unsupported) then UnsupportedClass else Unmounted
    end.

(** [DriveRecord::from_partition] *)
Definition from_partition (p : ClassifiedPartition) (derived : DerivedId) (alias_set : bool) : DriveRecord := {|
  d_stable_id := stable_id derived; d_display_name := Some (display_name derived);
  d_id_source := Some (wire_str (id_source derived));
  d_device_node := c_device_node p; d_parent_disk := c_parent_disk p;
  d_partition_index := c_partition_index p; d_partition_count := c_partition_count p;
  d_label := c_label p; d_uuid := c_uuid p; d_partuuid := c_partuuid p; d_vendor := c_vendor p;
  d_model := c_model p; d_serial_short := c_serial_short p; d_fs_type := c_fs_type p;
  d_size_bytes := c_size_bytes p; d_role := c_role p; d_mount_policy := c_mount_policy p;
  d_class := fresh_class p;
  d_mount_root := if bool_decide (fresh_class p = MountedClean) then c_current_mount p else None;
  d_library_source_id := None; d_alias_set := alias_set; d_last_transition_at_ms := None |}.

(** [RemovalStage], [RemovalProgress] *)
Inductive RemovalStage := StageQueue | StageDetach | StageEject | StageRetract | StageSafe.
Record RemovalProgress := { r_stable_id : str; r_library_source_id : option str; r_stage : RemovalStage }.

(** [ListDrivesEnvelope] *)
Record ListDrivesEnvelope := {
  v_drives : list DriveRecord; v_last_update_at_ms : Z; v_removal : option RemovalProgress }.

(** The requests, as read from their payloads. *)
Record RenameRequest := { rn_stable_id : str; rn_alias : str; rn_mount_policy : option str }.
Record RepairRequest := { rp_stable_id : str; rp_escalate : option bool }.
Record SafeRemoveRequest := {
  sr_stable_id : str; sr_force : option bool; sr_library_source_id : option str;
  sr_retract_library : bool; sr_release_queue : bool }.

(** The answers. *)
Record MountResponse := { mo_mounted_at : str; mo_class : str; mo_library_source_id : option str }.
Record RenameResponse := { re_new_stable_id : str; re_class : str }.
Record RepairResponse := { rr_repaired : bool; rr_before_class : str; rr_after_class : str }.
Record SafeRemoveResponse := { so_removed : bool; so_forced : option bool; so_holders : option (list str) }.

(** [MountRefuseClass], [SafeRemoveRefuseClass], [RepairRefuseClass],
    [RenameRefuseClass], without the classes that no code constructs. *)
Inductive MountRefuseClass :=
  | MountUnknownStableId (id : str)
  | MountSystemLive (id role : str)
  | SystemAdjacentNotOptedIn (id : str)
  | MountUnsupportedFs (id fs_type : str)
  | MountOversizedVfat (id : str) (size_bytes cap_bytes : N)
  | MountSubprocessFailed (id : str) (exit_code : Z) (stderr : str).
Inductive SafeRemoveRefuseClass :=
  | RemoveSystemLive (id role : str)
  | UmountSubprocessFailed (id : str) (exit_code : Z) (stderr : str) (holders : list str).
Inductive RepairRefuseClass :=
  | RepairUnknownStableId (id : str)
  | RepairSystemLive (id role : str)
  | NtfsHiberfile (id : str)
  | RepairUnsupportedFs (id fs_type : str)
  | UmountBeforeRepairFailed (id : str) (exit_code : Z) (stderr : str)
  | RepairFailed (id fs_family stderr : str)
  | RepairSubprocessFailed (id : str) (exit_code : Z) (stderr : str)
  | PostRepairMountFailed (id : str) (exit_code : Z) (stderr : str).
Inductive RenameRefuseClass :=
  | RenameUnknownStableId (id : str)
  | RenameSystemLive (id role : str)
  | InvalidAlias (id raw : str)
  | MissingIdentity (id missing : str)
  | AliasWouldCollide (id requested_alias colliding_stable_id : str)
  | UmountBeforeRenameFailed (id : str) (exit_code : Z) (stderr : str)
  | AliasPersistFailed (id : str) (e : AliasStoreError)
  | PostRenameLookupFailed (id : str).

(** [VerbDispatchError] *)
Inductive VerbDispatchError :=
  | UnknownRequestType (verb : str)
  | PayloadDecode (e : str)
  | Classify (e : ClassifierError)
  | InputSource (e : str)
  | SubprocessIo (e : str)
  | MountRefused (c : MountRefuseClass)
  | SafeRemoveRefused (c : SafeRemoveRefuseClass)
  | RepairRefused (c : RepairRefuseClass)
  | RenameRefused (c : RenameRefuseClass).

(** ** What is outside *)

(** [ClassifierInputs], [CommandOutcome] *)
Record ClassifierInputs := { i_mountinfo : str; i_swaps : str; i_lsblk_json : str }.
Record CommandOutcome := { o_status : Z; o_stdout : str; o_stderr : str }.

(** The requests to the library plugin. *)
Inductive LibraryRequest :=
  | AddSource (display_name device_node label mount_path : str)
  | RemoveSource (source_id : str) (consumer_stop scrub_mpd_entries : bool)
  | ListSources
  | ParkUriPrefix (prefix : str)
  | RestoreParkedUris (parked : ParkedQueue) (update_prefix : option str)
  | RewriteUriPrefix (from_prefix to_prefix : str).

(** What is looked up in the body of an answer: the text under [source_id], the rows
    under [sources] with the texts under [id] and [mount_path], and the body as a parked
    queue; [None] when it is not there or the body is not JSON. *)
Record Body := {
  b_source_id : option str;
  b_sources : option (list (option str * option str));
  b_parked : option ParkedQueue }.

Class UsbOutside (S : Type) := {
  read_inputs : S -> result ClassifierInputs str;
  parse_lsblk : str -> result LsblkRoot str;
  run_helper : bool -> list str -> S -> S * result CommandOutcome str;
  dispatch : LibraryRequest -> S -> S * result Body str;
  sync_disk : str -> S -> S;
  (* the error output of [fuser -m], and [/proc/<pid>/comm] *)
  fuser : str -> S -> option str;
  comm_of : N -> S -> str;
  remove_dir : str -> S -> S;
  save_aliases : AliasStore -> S -> S * result unit AliasStoreError;
  clock_ms : S -> Z
}.

(** What a run did to the outside, in order. *)
Inductive Event :=
  | Helper (argv : list str)
  | Library (req : LibraryRequest)
  | Sync (disk : str)
  | RemoveDir (path : str)
  | SaveAliases (store : AliasStore)
  | Publish (v : ListDrivesEnvelope).

Record Config := { service_uid : N; service_gid : N; needs_sudo : bool }.

(** ** The runtime *)

Section runtime.
Context {S : Type} `{!UsbOutside S} (cfg : Config).

(** [RuntimeInner] with the slots of [StorageUsbRuntime] (the alias store, whether a
    dispatcher and a publisher are attached), the tasks that were spawned and have not
    run, and what was done. *)
Record World := {
  outside : S;
  drives : gmap str DriveRecord;
  last_update_at_ms : Z;
  operator_held_out : gset str;
  removal : option RemovalProgress;
  aliases : AliasStore;
  dispatcher : bool;
  publisher : bool;
  spawned : list (str * option str);
  done : list Event;
}.

(** A run changes the world and gives a value. *)
Definition Run (A : Type) := World -> World * A.
Definition ret {A} (a : A) : Run A := fun w => (w, a).
Definition bind {A B} (m : Run A) (k : A -> Run B) : Run B := fun w => let '(w', a) := m w in k a w'.
(** [?]: the first error ends the run. *)
Definition try {A B E} (m : Run (result A E)) (k : A -> Run (result B E)) : Run (result B E) :=
  bind m (fun r => match r with Ok a => k a | Err e => ret (Err e) end).

Local Notation "'let!' x ':=' m 'in' k" := (bind m (fun x => k)) (at level 200, x pattern, k at level 200).
Local Notation "'let!?' x ':=' m 'in' k" := (try m (fun x => k)) (at level 200, x pattern, k at level 200).
Local Notation "m ';;;' k" := (bind m (fun _ => k)) (at level 100, right associativity).

Definition gets {A} (f : World -> A) : Run A := fun w => (w, f w).
Definition when (b : bool) (m : Run unit) : Run unit := if b then m else ret tt.
Fixpoint each {A} (l : list A) (f : A -> Run unit) : Run unit :=
  match l with [] => ret tt | a :: l' => f a ;;; each l' f end.

Definition modify (f : World -> World) : Run unit := fun w => (f w, tt).
Definition set_drives (f : gmap str DriveRecord -> gmap str DriveRecord) : Run unit :=
  modify (fun w => {| outside := outside w; drives := f (drives w); last_update_at_ms := last_update_at_ms w;
    operator_held_out := operator_held_out w; removal := removal w; aliases := aliases w;
    dispatcher := dispatcher w; publisher := publisher w; spawned := spawned w; done := done w |}).
Definition set_held (f : gset str -> gset str) : Run unit :=
  modify (fun w => {| outside := outside w; drives := drives w; last_update_at_ms := last_update_at_ms w;
    operator_held_out := f (operator_held_out w); removal := removal w; aliases := aliases w;
    dispatcher := dispatcher w; publisher := publisher w; spawned := spawned w; done := done w |}).
Definition set_removal (f : option RemovalProgress -> option RemovalProgress) : Run unit :=
  modify (fun w => {| outside := outside w; drives := drives w; last_update_at_ms := last_update_at_ms w;
    operator_held_out := operator_held_out w; removal := f (removal w); aliases := aliases w;
    dispatcher := dispatcher w; publisher := publisher w; spawned := spawned w; done := done w |}).
Definition set_updated (t : Z) : Run unit :=
  modify (fun w => {| outside := outside w; drives := drives w; last_update_at_ms := t;
    operator_held_out := operator_held_out w; removal := removal w; aliases := aliases w;
    dispatcher := dispatcher w; publisher := publisher w; spawned := spawned w; done := done w |}).
Definition spawn (t : str * option str) : Run unit :=
  modify (fun w => {| outside := outside w; drives := drives w; last_update_at_ms := last_update_at_ms w;
    operator_held_out := operator_held_out w; removal := removal w; aliases := aliases w;
    dispatcher := dispatcher w; publisher := publisher w; spawned := spawned w ++ [t]; done := done w |}).
Definition set_spawned (l : list (str * option str)) : Run unit :=
  modify (fun w => {| outside := outside w; drives := drives w; last_update_at_ms := last_update_at_ms w;
    operator_held_out := operator_held_out w; removal := removal w; aliases := aliases w;
    dispatcher := dispatcher w; publisher := publisher w; spawned := l; done := done w |}).
(** [attach_alias_store] *)
Definition attach_alias_store (store : AliasStore) : Run unit :=
  modify (fun w => {| outside := outside w; drives := drives w; last_update_at_ms := last_update_at_ms w;
    operator_held_out := operator_held_out w; removal := removal w; aliases := store;
    dispatcher := dispatcher w; publisher := publisher w; spawned := spawned w; done := done w |}).

(** A call to the outside, which is noted. *)
Definition act {A} (e : Event) (f : S -> S * A) : Run A := fun w =>
  let '(s, a) := f (outside w) in
  ({| outside := s; drives := drives w; last_update_at_ms := last_update_at_ms w;
      operator_held_out := operator_held_out w; removal := removal w; aliases := aliases w;
      dispatcher := dispatcher w; publisher := publisher w; spawned := spawned w; done := done w ++ [e] |}, a).
Definition pure_act (e : Event) (f : S -> S) : Run unit := act e (fun s => (f s, tt)).

Definition now_ms : Run Z := gets (fun w => clock_ms (outside w)).
Definition run_wrapper (argv : list str) : Run (result CommandOutcome VerbDispatchError) :=
  let! r := act (Helper argv) (run_helper (needs_sudo cfg) argv) in ret (map_err SubprocessIo r).
Definition sync (disk : str) : Run unit := pure_act (Sync disk) (sync_disk disk).
Definition drive (id : str) : Run (option DriveRecord) := gets (fun w => drives w !! id).

(** The drives in the order of their ids. *)
Definition by_id (a b : str * DriveRecord) : Prop := str_le a.1 b.1.
#[local] Instance by_id_dec a b : Decision (by_id a b) := decide (str_leb a.1 b.1 = true).
Definition in_order (m : gmap str DriveRecord) : list (str * DriveRecord) := sort_by by_id (map_to_list m).

(** [get_mut] and what is changed through it. *)
Definition update_drive (id : str) (f : DriveRecord -> DriveRecord) : Run unit :=
  set_drives (fun m => match m !! id with Some r => <[id := f r]> m | None => m end).

(** [mark_drive_class] *)
Definition mark_drive_class (id : str) (c : DriveClass) : Run unit :=
  let! t := now_ms in
  update_drive id (fun r => with_state c (d_mount_root r) (d_library_source_id r) (Some t) r).

(** [compose_envelope], [republish_envelope] *)
Definition compose_envelope (w : World) : ListDrivesEnvelope :=
  {| v_drives := map snd (in_order (drives w)); v_last_update_at_ms := last_update_at_ms w; v_removal := removal w |}.
Definition republish_envelope : Run unit :=
  let! v := gets compose_envelope in
  let! attached := gets publisher in
  when attached (pure_act (Publish v) (fun s => s)).

(** [announce_removal] *)
Definition announce_removal (id : str) (source_id : option str) (stage : RemovalStage) : Run unit :=
  set_removal (fun _ => Some {| r_stable_id := id; r_library_source_id := source_id; r_stage := stage |}) ;;;
  republish_envelope.

(** ** The library plugin *)

(** A request, when a dispatcher is attached. *)
Definition ask (req : LibraryRequest) : Run (option (result Body str)) :=
  let! attached := gets dispatcher in
  if attached then let! r := act (Library req) (dispatch req) in ret (Some r) else ret None.
Definition tell (req : LibraryRequest) : Run unit := ask req ;;; ret tt.

(** [dispatch_library_add_source], when a dispatcher is attached. *)
Definition dispatch_library_add_source (id device_node display_name mount_root : str) : Run (result (option str) str) :=
  let! r := act (Library (AddSource display_name device_node id mount_root))
           (dispatch (AddSource display_name device_node id mount_root)) in
  ret (match r with Ok b => Ok (b_source_id b) | Err e => Err e end).

(** How the mount and the repair use it: a failure is a warning. *)
Definition add_source (id : str) (record : DriveRecord) (mount_root : str) : Run (option str) :=
  let! attached := gets dispatcher in
  if attached then
    let! r := dispatch_library_add_source id (d_device_node record) (default id (d_display_name record)) mount_root in
    ret (match r with Ok sid => sid | Err _ => None end)
  else ret None.

(** [retract_library_via], [retract_library_source] *)
Definition retract_library_source (source_id : option str) : Run unit :=
  match source_id with
  | Some sid => tell (RemoveSource sid false true)
  | None => ret tt
  end.

(** [dispatch_library_consumer_stop] *)
Definition dispatch_library_consumer_stop (source_id : str) (scrub : bool) : Run unit :=
  tell (RemoveSource source_id true scrub).

(** [dispatch_library_park_uri_prefix] *)
Definition dispatch_library_park_uri_prefix (id : str) : Run ParkedQueue :=
  let! r := ask (ParkUriPrefix (mpd_usb_uri_prefix id)) in
  ret (match r with Some (Ok b) => default ParkedQueue_default (b_parked b) | _ => ParkedQueue_default end).

(** [dispatch_library_restore_parked] *)
Definition dispatch_library_restore_parked (parked : ParkedQueue) (update_prefix : option str) : Run unit :=
  when (bool_decide (q_items parked <> [])) (tell (RestoreParkedUris parked update_prefix)).

(** [dispatch_library_rewrite_uri_prefix] *)
Definition dispatch_library_rewrite_uri_prefix (old_id new_id : str) : Run unit :=
  tell (RewriteUriPrefix (mpd_usb_uri_prefix old_id) (mpd_usb_uri_prefix new_id)).

(** [list_library_sources]; [None] is [Unreadable]. *)
Definition list_library_sources : Run (option (list (str * str))) :=
  let! r := act (Library ListSources) (dispatch ListSources) in
  ret (match r with
       | Ok b => option_map (omap (fun row => match row with (Some id, Some p) => Some (id, p) | _ => None end)) (b_sources b)
       | Err _ => None
       end).

(** ** Rebuilding the registry *)

Definition by_device (a b : ClassifiedPartition) : Prop := str_le (c_device_node a) (c_device_node b).
#[local] Instance by_device_dec a b : Decision (by_device a b) :=
  decide (str_leb (c_device_node a) (c_device_node b) = true).

Definition lookup_of (p : ClassifiedPartition) : AliasLookup := {|
  l_vendor := c_vendor p; l_model := c_model p; l_serial_short := default [] (c_serial_short p);
  l_partuuid := c_partuuid p; l_partition_index := c_partition_index p |}.
Definition input_of (p : ClassifiedPartition) : DerivationInput := {|
  label := c_label p; vendor := c_vendor p; model := c_model p; serial_short := c_serial_short p;
  partition_index := c_partition_index p; partition_count := c_partition_count p; partuuid := c_partuuid p |}.

(** The state of a record that was mounted under this id is kept. *)
Definition keep_mounted (prior : option DriveRecord) (r : DriveRecord) : DriveRecord :=
  match prior with
  | Some q =>
      if is_mounted (d_class q)
      then with_state (d_class q) (d_mount_root q) (d_library_source_id q) (d_last_transition_at_ms r) r
      else r
  | None => r
  end.

(** The loop of [refresh_registry] over the partitions in the order of their devices. *)
Fixpoint fresh_rows (store : AliasStore) (prior : gmap str DriveRecord) (in_use : list str)
    (parts : list ClassifiedPartition) (fresh : gmap str DriveRecord) : gmap str DriveRecord :=
  match parts with
  | [] => fresh
  | part :: parts' =>
      let alias := UsbAliases.lookup store (lookup_of part) in
      let derived := derive (input_of part) {| operator_alias := alias; in_use_stable_ids := in_use |} in
      let id := stable_id derived in
      let rec := keep_mounted (prior !! id) (from_partition part derived (bool_decide (alias <> None))) in
      fresh_rows store prior (in_use ++ [id]) parts' (<[id := rec]> fresh)
  end.

Definition vanished_rows (prior fresh : gmap str DriveRecord) : list (str * option str) :=
  map (fun '(id, r) => (id, d_library_source_id r))
    (filter (fun '(id, r) => fresh !! id = None /\ is_mounted (d_class r) = true) (in_order prior)).

(** Reading and classifying. *)
Definition classify_now (s : S) : result (list ClassifiedPartition) VerbDispatchError :=
  let? inputs := map_err InputSource (read_inputs s) in
  map_err Classify (classify parse_lsblk (i_mountinfo inputs) (i_swaps inputs) (i_lsblk_json inputs)).

(** [refresh_registry] *)
Definition refresh_registry : Run (result unit VerbDispatchError) :=
  let!? classified := gets (fun w => classify_now (outside w)) in
  let! store := gets aliases in
  let! prior := gets drives in
  let fresh := fresh_rows store prior [] (sort_by by_device classified) ∅ in
  set_drives (fun _ => fresh) ;;;
  let! t := now_ms in
  set_updated t ;;;
  set_held (filter (fun id => is_Some (fresh !! id))) ;;;
  set_removal (fun o => match o with
    | Some p => match fresh !! r_stable_id p with Some _ => o | None => None end
    | None => None
    end) ;;;
  each (vanished_rows prior fresh) (fun '(id, source_id) =>
    run_wrapper [lit "umount-force"; id] ;;;
    retract_library_source source_id) ;;;
  ret (Ok tt).

(** ** Mounting *)

Definition mount_argv (id : str) (record : DriveRecord) : list str :=
  let family := from_lsblk (d_fs_type record) in
  [lit "mount"; id; default (d_fs_type record) (wrapper_fs_arg family); d_device_node record;
   mount_options family (service_uid cfg) (service_gid cfg)].

(** What follows the helper's mount in the mount and the repair. *)
Definition after_mount (id : str) (record : DriveRecord) : Run (option str) :=
  let! sid := add_source id record (mount_root_of id) in
  let! t := now_ms in
  update_drive id (with_state MountedClean (Some (mount_root_of id)) sid (Some t)) ;;;
  ret sid.

(** The helper's mount, once nothing speaks against it. *)
Definition mount_now (publish : bool) (id : str) (record : DriveRecord) : Run (result MountResponse VerbDispatchError) :=
  let!? outcome := run_wrapper (mount_argv id record) in
  if bool_decide (o_status outcome <> 0%Z) then
    mark_drive_class id MountFailedOther ;;;
    ret (Err (MountRefused (MountSubprocessFailed id (o_status outcome) (o_stderr outcome))))
  else
    let! sid := after_mount id record in
    when publish republish_envelope ;;;
    ret (Ok {| mo_mounted_at := mount_root_of id; mo_class := class_wire MountedClean; mo_library_source_id := sid |}).

(** The body that [mount_dispatch] and [handle_mount] share; [publish] tells them apart. *)
Definition mount_steps (publish : bool) (id : str) (record : DriveRecord) : Run (result MountResponse VerbDispatchError) :=
  let family := from_lsblk (d_fs_type record) in
  if is_mounted (d_class record) then
    ret (Ok {| mo_mounted_at := default [] (d_mount_root record); mo_class := class_wire (d_class record);
               mo_library_source_id := d_library_source_id record |})
  else if is_system_live (d_role record) then
    ret (Err (MountRefused (MountSystemLive id (role_wire_string (d_role record)))))
  else if bool_decide (d_role record = SystemAdjacent) && negb (bool_decide (d_mount_policy record = Auto)) then
    ret (Err (MountRefused (SystemAdjacentNotOptedIn id)))
  else if bool_decide (family = Unsupported) then
    ret (Err (MountRefused (MountUnsupportedFs id (d_fs_type record))))
  else
    match size_cap_bytes family with
    | Some cap =>
        if cap <? d_size_bytes record then
          mark_drive_class id MountFailedOversizedVfat ;;;
          ret (Err (MountRefused (MountOversizedVfat id (d_size_bytes record) cap)))
        else mount_now publish id record
    | None => mount_now publish id record
    end.

(** [mount_attempt_no_reconcile] with [mount_dispatch] *)
Definition mount_attempt_no_reconcile (id : str) : Run (result MountResponse VerbDispatchError) :=
  let! known := drive id in
  match known with
  | None => ret (Err (MountRefused (MountUnknownStableId id)))
  | Some record => mount_steps false id record
  end.

(** [auto_mount_unmounted_removable] *)
Definition auto_candidate (held : gset str) (row : str * DriveRecord) : bool :=
  let r := row.2 in
  negb (bool_decide (row.1 ∈ held)) && bool_decide (d_role r = Removable) &&
  bool_decide (d_mount_policy r = Auto) &&
  (bool_decide (d_class r = Unmounted) || bool_decide (d_class r = MountFailedOther)).
Definition candidates (w : World) : list str :=
  map fst (filter (fun row => auto_candidate (operator_held_out w) row = true) (in_order (drives w))).
Definition auto_mount_unmounted_removable : Run unit :=
  let! ids := gets candidates in
  each ids (fun id => mount_attempt_no_reconcile id ;;; ret tt).

(** [adopt_library_ids_for_inherited_mounts] *)
Definition needs_library_id (row : str * DriveRecord) : bool :=
  let r := row.2 in
  is_mounted (d_class r) && bool_decide (d_library_source_id r = None) && bool_decide (d_mount_root r <> None).
Definition adopt_one (listed : list (str * str)) (id : str) (record : DriveRecord) : Run unit :=
  match d_mount_root record with
  | None => ret tt
  | Some root =>
      let! source_id :=
        match head (omap (fun '(sid, p) => if same_mount_path p root then Some sid else None) listed) with
        | Some sid => ret (Some sid)
        | None =>
            let! r := dispatch_library_add_source id (d_device_node record) (default id (d_display_name record)) root in
            ret (match r with Ok sid => sid | Err _ => None end)
        end in
      match source_id with
      | Some sid =>
          update_drive id (fun r => with_state (d_class r) (d_mount_root r) (Some sid) (d_last_transition_at_ms r) r)
      | None => ret tt
      end
  end.
Definition adopt_library_ids_for_inherited_mounts : Run unit :=
  let! need := gets (fun w => filter (fun row => needs_library_id row = true) (in_order (drives w))) in
  match need with
  | [] => ret tt
  | _ =>
      let! attached := gets dispatcher in
      if attached then
        let! listed := list_library_sources in
        match listed with
        | Some rows => each need (fun '(id, record) => adopt_one rows id record)
        | None => ret tt
        end
      else ret tt
  end.

(** [reconcile_once] *)
Definition reconcile_once : Run (result unit VerbDispatchError) :=
  let!? _ := refresh_registry in
  auto_mount_unmounted_removable ;;;
  adopt_library_ids_for_inherited_mounts ;;;
  republish_envelope ;;;
  ret (Ok tt).

(** [clear_operator_hold] *)
Definition clear_operator_hold (id : str) : Run unit :=
  set_held (fun h => h ∖ {[id]}) ;;;
  set_removal (fun o => match o with
    | Some p => if bool_decide (r_stable_id p = id) then None else o
    | None => None
    end).

(** [remember_operator_detach] *)
Definition remember_operator_detach (id : str) : Run unit := set_held (fun h => {[id]} ∪ h).

(** ** The verbs *)

(** [handle_list_drives] *)
Definition handle_list_drives : Run (result ListDrivesEnvelope VerbDispatchError) :=
  reconcile_once ;;;
  let! v := gets compose_envelope in
  ret (Ok v).

(** A record, or the refusal without one. *)
Definition known_drive (id : str) (refusal : VerbDispatchError) : Run (result DriveRecord VerbDispatchError) :=
  let! known := drive id in
  ret (ok_or known refusal).

(** [handle_mount] *)
Definition handle_mount (id : str) : Run (result MountResponse VerbDispatchError) :=
  clear_operator_hold id ;;;
  let!? _ := reconcile_once in
  let!? record := known_drive id (MountRefused (MountUnknownStableId id)) in
  mount_steps true id record.

(** [finish_catalogue_stage]: the retraction is left to a task. *)
Definition finish_catalogue_stage (retract_library : bool) (id : str) (source_id : option str) : Run unit :=
  announce_removal id source_id StageRetract ;;;
  when retract_library (spawn (id, source_id)).

(** A task that was spawned. *)
Definition run_task : Run unit :=
  let! l := gets spawned in
  match l with
  | [] => ret tt
  | (_, source_id) :: l' => set_spawned l' ;;; retract_library_source source_id
  end.

(** [fuser_holders] *)
Definition holder_text (comm : str) (pid : N) : str :=
  if str_is_empty (trim comm) then dec pid else dec pid ++ lit ":" ++ trim comm.
Definition fuser_holders (mount_root : option str) : Run (list str) :=
  gets (fun w =>
    match mount_root with
    | None => []
    | Some root =>
        match fuser root (outside w) with
        | None => []
        | Some text =>
            omap (fun tok => match parse_u32 tok with
                             | Some pid => Some (holder_text (comm_of pid (outside w)) pid)
                             | None => None
                             end) (split_whitespace text)
        end
    end).

(** The end of a removal: the row leaves the registry and the id is held. *)
Definition drop_row (id : str) : Run unit :=
  remember_operator_detach id ;;; set_drives (fun m => delete id m).

Definition removed (forced : bool) (holders : option (list str)) : result SafeRemoveResponse VerbDispatchError :=
  Ok {| so_removed := true; so_forced := Some forced; so_holders := holders |}.

(** Detaching: the clean unmount, and the lazy one when it fails; whether it was forced
    and who held the volume. *)
Definition detach (id : str) (record : DriveRecord) : Run (result (bool * option (list str)) VerbDispatchError) :=
  let!? clean := run_wrapper [lit "umount"; id] in
  if bool_decide (o_status clean <> 0%Z) then
    let! holders := fuser_holders (d_mount_root record) in
    let!? forced := run_wrapper [lit "umount-force"; id] in
    if bool_decide (o_status forced <> 0%Z) then
      ret (Err (SafeRemoveRefused (UmountSubprocessFailed id (o_status forced) (o_stderr forced) holders)))
    else ret (Ok (true, Some holders))
  else ret (Ok (false, None)).

(** [handle_safe_remove] from the detach on. *)
Definition remove_mounted (req : SafeRemoveRequest) (record : DriveRecord) (source_id : option str)
    : Run (result SafeRemoveResponse VerbDispatchError) :=
  let id := sr_stable_id req in
  announce_removal id source_id StageDetach ;;;
  sync (d_parent_disk record) ;;;
  let!? (forced, holders) := detach id record in
  announce_removal id source_id StageEject ;;;
  run_wrapper [lit "eject"; d_parent_disk record] ;;;
  finish_catalogue_stage (sr_retract_library req) id source_id ;;;
  drop_row id ;;;
  announce_removal id source_id StageSafe ;;;
  ret (removed forced holders).

(** [handle_safe_remove] *)
Definition handle_safe_remove (req : SafeRemoveRequest) : Run (result SafeRemoveResponse VerbDispatchError) :=
  let id := sr_stable_id req in
  let!? _ := refresh_registry in
  let! known := drive id in
  match known with
  | None =>
      run_wrapper [lit "umount-force"; id] ;;;
      remember_operator_detach id ;;;
      announce_removal id (sr_library_source_id req) StageSafe ;;;
      ret (removed true None)
  | Some record =>
      if is_system_live (d_role record) then
        ret (Err (SafeRemoveRefused (RemoveSystemLive id (role_wire_string (d_role record)))))
      else
        let source_id := match sr_library_source_id req with Some s => Some s | None => d_library_source_id record end in
        when (negb (sr_release_queue req)) (announce_removal id source_id StageQueue) ;;;
        match d_class record with
        | Unmounted | UnsupportedClass | MountFailedOversizedVfat | MountFailedDirty | MountFailedOther =>
            finish_catalogue_stage (sr_retract_library req) id source_id ;;;
            drop_row id ;;;
            announce_removal id source_id StageSafe ;;;
            ret (removed false None)
        | _ => remove_mounted req record source_id
        end
  end.

(** ** Repair *)

Definition fsck_argv (id : str) (record : DriveRecord) (escalate : bool) : list str :=
  [lit "fsck"; id; default (d_fs_type record) (wrapper_fs_arg (from_lsblk (d_fs_type record)));
   d_device_node record] ++ (if escalate then [lit "escalate"] else []).

(** [handle_repair_filesystem] up to the check of the filesystem. *)
Definition repair_prepare (req : RepairRequest) : Run (result DriveRecord VerbDispatchError) :=
  let id := rp_stable_id req in
  clear_operator_hold id ;;;
  let!? _ := reconcile_once in
  let!? record := known_drive id (RepairRefused (RepairUnknownStableId id)) in
  if is_system_live (d_role record) then
    ret (Err (RepairRefused (RepairSystemLive id (role_wire_string (d_role record)))))
  else if bool_decide (d_class record = MountedDirtyHiberfile) then ret (Err (RepairRefused (NtfsHiberfile id)))
  else if bool_decide (from_lsblk (d_fs_type record) = Unsupported) then
    ret (Err (RepairRefused (RepairUnsupportedFs id (d_fs_type record))))
  else
    match d_library_source_id record with
    | Some sid => dispatch_library_consumer_stop sid false
    | None => ret tt
    end ;;;
    sync (d_parent_disk record) ;;;
    if is_mounted (d_class record) then
      let!? out := run_wrapper [lit "umount"; id] in
      if bool_decide (o_status out <> 0%Z) then
        ret (Err (RepairRefused (UmountBeforeRepairFailed id (o_status out) (o_stderr out))))
      else ret (Ok record)
    else ret (Ok record).

(** A check that did not end well: the class of the drive, and the refusal. *)
Definition repair_failed (id : str) (c : DriveClass) (refusal : RepairRefuseClass)
    : Run (result RepairResponse VerbDispatchError) :=
  mark_drive_class id c ;;; republish_envelope ;;; ret (Err (RepairRefused refusal)).

(** What follows the check. *)
Definition repair_finish (req : RepairRequest) (record : DriveRecord) (fsck_out : CommandOutcome)
    : Run (result RepairResponse VerbDispatchError) :=
  let id := rp_stable_id req in
  let fs_arg := default (d_fs_type record) (wrapper_fs_arg (from_lsblk (d_fs_type record))) in
  if bool_decide (o_status fsck_out = 0%Z) then
    let!? mount_out := run_wrapper (mount_argv id record) in
    if bool_decide (o_status mount_out <> 0%Z) then
      repair_failed id MountFailedOther (PostRepairMountFailed id (o_status mount_out) (o_stderr mount_out))
    else
      after_mount id record ;;;
      republish_envelope ;;;
      ret (Ok {| rr_repaired := true; rr_before_class := class_wire (d_class record);
                 rr_after_class := class_wire MountedClean |})
  else if bool_decide (o_status fsck_out = 5%Z) then
    repair_failed id MountFailedDirty (RepairFailed id fs_arg (o_stderr fsck_out))
  else if bool_decide (o_status fsck_out = 6%Z) then
    repair_failed id MountedDirtyHiberfile (NtfsHiberfile id)
  else repair_failed id MountFailedDirty (RepairSubprocessFailed id (o_status fsck_out) (o_stderr fsck_out)).

Definition run_fsck (req : RepairRequest) (record : DriveRecord) : Run (result CommandOutcome VerbDispatchError) :=
  run_wrapper (fsck_argv (rp_stable_id req) record (default false (rp_escalate req))).

(** [handle_repair_filesystem] *)
Definition handle_repair_filesystem (req : RepairRequest) : Run (result RepairResponse VerbDispatchError) :=
  let!? record := repair_prepare req in
  let!? fsck_out := run_fsck req record in
  repair_finish req record fsck_out.

(** ** Renaming *)

(** The checks of [handle_rename] on a drive: the serial number. *)
Definition rename_target (req : RenameRequest) (clearing : bool) (sanitised : str)
    : Run (result (DriveRecord * str) VerbDispatchError) :=
  let id := rn_stable_id req in
  let!? record := known_drive id (RenameRefused (RenameUnknownStableId id)) in
  if is_system_live (d_role record) then
    ret (Err (RenameRefused (RenameSystemLive id (role_wire_string (d_role record)))))
  else
    match d_serial_short record with
    | None => ret (Err (RenameRefused (MissingIdentity id (lit "serial_short"))))
    | Some serial =>
        if clearing then ret (Ok (record, serial))
        else
          let candidate := if 1 <? d_partition_count record
                           then sanitised ++ lit "-p" ++ dec (d_partition_index record) else sanitised in
          let! rows := gets (fun w => in_order (drives w)) in
          match head (filter (fun '(other, _) => other <> id /\ other = candidate) rows) with
          | Some (_, other) => ret (Err (RenameRefused (AliasWouldCollide id sanitised (d_stable_id other))))
          | None => ret (Ok (record, serial))
          end
    end.

(** The unmount of a rename, which is tried twice; the parked rows are put back when it
    is refused. *)
Definition rename_umount (id : str) (parked : ParkedQueue) : Run (result unit VerbDispatchError) :=
  let!? first := run_wrapper [lit "umount"; id] in
  let!? out := if bool_decide (o_status first <> 0%Z) then run_wrapper [lit "umount"; id] else ret (Ok first) in
  if bool_decide (o_status out <> 0%Z) then
    dispatch_library_restore_parked parked None ;;;
    ret (Err (RenameRefused (UmountBeforeRenameFailed id (o_status out) (o_stderr out))))
  else ret (Ok tt).

(** The store with the name set or cleared, saved and attached. *)
Definition rename_persist (req : RenameRequest) (clearing : bool) (sanitised : str) (record : DriveRecord) (serial : str)
    : Run (result unit VerbDispatchError) :=
  let! current := gets aliases in
  let! t := now_ms in
  let mutated :=
    if clearing then clear_alias (d_vendor record) (d_model record) serial (d_partuuid record) current
    else set_alias (d_vendor record) (d_model record) serial (d_partuuid record) (d_partition_index record)
           sanitised t current in
  let! saved := act (SaveAliases mutated) (save_aliases mutated) in
  match saved with
  | Err e => ret (Err (RenameRefused (AliasPersistFailed (rn_stable_id req) e)))
  | Ok _ => attach_alias_store mutated ;;; ret (Ok tt)
  end.

(** The drive after the name has changed, by its identity. *)
Definition same_volume (record : DriveRecord) (serial : str) (row : str * DriveRecord) : bool :=
  bool_decide (d_serial_short row.2 = Some serial) && bool_decide (d_partuuid row.2 = d_partuuid record) &&
  bool_decide (d_device_node row.2 = d_device_node record).

(** The end of [handle_rename]: the old directory, and the parked rows. *)
Definition rename_restore (id new_id : str) (record : DriveRecord) (parked : ParkedQueue) : Run unit :=
  if bool_decide (new_id <> id) then
    match d_mount_root record with
    | Some old_root => pure_act (RemoveDir old_root) (remove_dir old_root)
    | None => ret tt
    end ;;;
    dispatch_library_restore_parked
      (rewrite_parked_queue parked (mpd_usb_uri_prefix id) (mpd_usb_uri_prefix new_id))
      (Some (mpd_usb_uri_prefix new_id)) ;;;
    dispatch_library_rewrite_uri_prefix id new_id
  else when (bool_decide (q_items parked <> [])) (dispatch_library_restore_parked parked None).

(** [handle_rename] *)
Definition handle_rename (req : RenameRequest) : Run (result RenameResponse VerbDispatchError) :=
  let id := rn_stable_id req in
  clear_operator_hold id ;;;
  let clearing := str_is_empty (trim (rn_alias req)) in
  let sanitised := if clearing then [] else sanitise (rn_alias req) in
  if negb clearing && str_is_empty sanitised then ret (Err (RenameRefused (InvalidAlias id (rn_alias req))))
  else
    let!? _ := reconcile_once in
    let!? (record, serial) := rename_target req clearing sanitised in
    let! parked :=
      if is_mounted (d_class record) then dispatch_library_park_uri_prefix id else ret ParkedQueue_default in
    sync (d_parent_disk record) ;;;
    let!? _ := if is_mounted (d_class record) then rename_umount id parked else ret (Ok tt) in
    match d_library_source_id record with
    | Some sid => dispatch_library_consumer_stop sid true
    | None => ret tt
    end ;;;
    let!? _ := rename_persist req clearing sanitised record serial in
    let!? _ := reconcile_once in
    let! rows := gets (fun w => in_order (drives w)) in
    match head (filter (fun row => same_volume record serial row = true) rows) with
    | None => ret (Err (RenameRefused (PostRenameLookupFailed id)))
    | Some (new_id, rec) =>
        rename_restore id new_id record parked ;;;
        ret (Ok {| re_new_stable_id := new_id; re_class := class_wire (d_class rec) |})
    end.

(** ** The dispatch of verbs *)

Inductive Response :=
  | DrivesAnswer (v : ListDrivesEnvelope)
  | MountAnswer (r : MountResponse)
  | RemoveAnswer (r : SafeRemoveResponse)
  | RepairAnswer (r : RepairResponse)
  | RenameAnswer (r : RenameResponse).

(** The readers of payloads, which are [serde_json]'s. *)
Record Codec := {
  read_mount : list N -> result str str;
  read_remove : list N -> result SafeRemoveRequest str;
  read_repair : list N -> result RepairRequest str;
  read_rename : list N -> result RenameRequest str }.

Definition answer {A} (f : A -> Response) (m : Run (result A VerbDispatchError)) : Run (result Response VerbDispatchError) :=
  let!? a := m in ret (Ok (f a)).
Definition with_payload {A B} (r : result A str) (k : A -> Run (result B VerbDispatchError)) : Run (result B VerbDispatchError) :=
  let!? a := ret (map_err PayloadDecode r) in k a.

(** [dispatch_verb] *)
Definition dispatch_verb (codec : Codec) (verb : str) (payload : list N) : Run (result Response VerbDispatchError) :=
  if bool_decide (verb = lit "storage.usb.list_drives") then answer DrivesAnswer handle_list_drives
  else if bool_decide (verb = lit "storage.usb.mount") then
    answer MountAnswer (with_payload (read_mount codec payload) handle_mount)
  else if bool_decide (verb = lit "storage.usb.safe_remove") then
    answer RemoveAnswer (with_payload (read_remove codec payload) handle_safe_remove)
  else if bool_decide (verb = lit "storage.usb.repair_filesystem") then
    answer RepairAnswer (with_payload (read_repair codec payload) handle_repair_filesystem)
  else if bool_decide (verb = lit "storage.usb.rename") then
    answer RenameAnswer (with_payload (read_rename codec payload) handle_rename)
  else ret (Err (UnknownRequestType verb)).

(** The rounds of [spawn_reconcile_task] with what happens in between: the outside
    changes, and spawned tasks run. *)
Inductive Step := Tick | Task | Verb (codec : Codec) (verb : str) (payload : list N) | Outside (f : S -> S).
Definition step (e : Step) : Run unit :=
  match e with
  | Tick => reconcile_once ;;; ret tt
  | Task => run_task
  | Verb codec verb payload => dispatch_verb codec verb payload ;;; ret tt
  | Outside f => modify (fun w => {| outside := f (outside w); drives := drives w; last_update_at_ms := last_update_at_ms w;
      operator_held_out := operator_held_out w; removal := removal w; aliases := aliases w;
      dispatcher := dispatcher w; publisher := publisher w; spawned := spawned w; done := done w |})
  end.
Definition steps (l : list Step) : Run unit := each l step.


(** ** Reasoning about runs *)

(** [holds P m Q]: from a world with [P], the run ends in one with [Q] of its value. *)
Definition holds {A} (P : World -> Prop) (m : Run A) (Q : A -> World -> Prop) : Prop :=
  forall w, P w -> Q (m w).2 (m w).1.

Lemma holds_ret {A} (P : World -> Prop) (a : A) (Q : A -> World -> Prop) : (forall w, P w -> Q a w) -> holds P (ret a) Q.
Proof. intros H w Hw. by apply H. Qed.
Lemma holds_bind {A B} P (m : Run A) (k : A -> Run B) R Q :
  holds P m R -> (forall a, holds (R a) (k a) Q) -> holds P (bind m k) Q.
Proof.
  intros Hm Hk w Hw. specialize (Hm w Hw). unfold bind. destruct (m w) as [w' a]. by apply Hk.
Qed.
Lemma holds_try {A B E} P (m : Run (result A E)) (k : A -> Run (result B E)) R Q :
  holds P m R -> (forall a, holds (R (Ok a)) (k a) Q) -> (forall e w, R (Err e) w -> Q (Err e) w) ->
  holds P (try m k) Q.
Proof.
  intros Hm Hk He. apply (holds_bind _ _ _ R); [done|]. intros [a|e]; [apply Hk|]. apply holds_ret. by apply He.
Qed.
Lemma holds_pre {A} (P P' : World -> Prop) (m : Run A) Q : (forall w, P w -> P' w) -> holds P' m Q -> holds P m Q.
Proof. intros HP Hm w Hw. by apply Hm, HP. Qed.
Lemma holds_gets {A} (P : World -> Prop) (f : World -> A) (Q : A -> World -> Prop) :
  (forall w, P w -> Q (f w) w) -> holds P (gets f) Q.
Proof. intros H w Hw. by apply H. Qed.

(** A run that keeps an invariant. *)
Definition keeps {A} (I : World -> Prop) (m : Run A) : Prop := holds I m (fun _ => I).

Section invariant.
Context (I : World -> Prop).

Lemma keeps_ret {A} (a : A) : keeps I (ret a).
Proof. by apply holds_ret. Qed.
Lemma keeps_bind {A B} (m : Run A) (k : A -> Run B) : keeps I m -> (forall a, keeps I (k a)) -> keeps I (bind m k).
Proof. intros Hm Hk. by apply (holds_bind _ _ _ (fun _ => I)). Qed.
Lemma keeps_try {A B E} (m : Run (result A E)) (k : A -> Run (result B E)) :
  keeps I m -> (forall a, keeps I (k a)) -> keeps I (try m k).
Proof. intros Hm Hk. by apply (holds_try _ _ _ (fun _ => I)). Qed.
Lemma keeps_gets {A} (f : World -> A) : keeps I (gets f).
Proof. by apply holds_gets. Qed.
Lemma keeps_when b m : keeps I m -> keeps I (when b m).
Proof. destruct b; [done|intros _; apply keeps_ret]. Qed.
Lemma keeps_each {A} (l : list A) f : (forall a, a ∈ l -> keeps I (f a)) -> keeps I (each l f).
Proof.
  induction l as [|a l IH]; intros Hf; [apply keeps_ret|]. cbn [each].
  apply keeps_bind; [apply Hf; left|]. intros _. apply IH. intros b Hb. apply Hf. by right.
Qed.
(** Reading and then going on with what was read. *)
Lemma keeps_read {A B} (f : World -> A) (k : A -> Run B) :
  (forall w, I w -> I (k (f w) w).1) -> keeps I (bind (gets f) k).
Proof. intros H w Hw. by apply H. Qed.
End invariant.

(** Keeping an invariant and giving a value with a property. *)
Definition yields {A} (I : World -> Prop) (m : Run A) (V : A -> Prop) : Prop := holds I m (fun a w => I w /\ V a).

Lemma yields_ret {A} (I : World -> Prop) (a : A) (V : A -> Prop) : V a -> yields I (ret a) V.
Proof. by intros Ha w Hw. Qed.
Lemma yields_bind {A B} (I : World -> Prop) (m : Run A) (k : A -> Run B) V :
  keeps I m -> (forall a, yields I (k a) V) -> yields I (bind m k) V.
Proof. intros Hm Hk. by apply (holds_bind _ _ _ (fun _ => I)). Qed.
Lemma yields_try {A B E} (I : World -> Prop) (m : Run (result A E)) (k : A -> Run (result B E)) V :
  keeps I m -> (forall a, yields I (k a) V) -> (forall e, V (Err e)) -> yields I (try m k) V.
Proof. intros Hm Hk He. by apply (holds_try _ _ _ (fun _ => I)). Qed.
Lemma keeps_try_yields {A B E} (I : World -> Prop) (m : Run (result A E)) (k : A -> Run (result B E)) V :
  yields I m V -> (forall a, V (Ok a) -> keeps I (k a)) -> keeps I (try m k).
Proof.
  intros Hm Hk. apply (holds_try _ _ _ (fun r w => I w /\ V r)); [done| |by intros e w [Hw _]].
  intros a w [Hw Ha]. by apply Hk.
Qed.

(** Invariants that look at the holds, the registry and what was done.  An event is
    allowed by [ok]; [reg] is about the holds and the registry. *)
Section watched.
Context (reg : gset str -> gmap str DriveRecord -> Prop) (ok : Event -> Prop).
Definition watched (w : World) : Prop := reg (operator_held_out w) (drives w) /\ Forall ok (done w).

Lemma keeps_modify f :
  (forall w, operator_held_out (f w) = operator_held_out w /\ drives (f w) = drives w /\ done (f w) = done w) ->
  keeps watched (modify f).
Proof. intros H w [Hr Hd]. unfold watched. cbn. by destruct (H w) as (-> & -> & ->). Qed.
Lemma keeps_set_drives f : (forall h m, reg h m -> reg h (f m)) -> keeps watched (set_drives f).
Proof. intros Hf w [Hr Hd]. split; [by apply Hf|done]. Qed.
Lemma keeps_act {A} e (f : S -> S * A) : ok e -> keeps watched (act e f).
Proof.
  intros He w [Hr Hd]. unfold act. destruct (f (outside w)). split; [done|].
  cbn. apply Forall_app. split; [done|by constructor].
Qed.
End watched.

Create HintDb runs.
Hint Resolve keeps_ret keeps_gets keeps_when : runs.

(** Going through a run. *)
Ltac run_step :=
  match goal with
  | |- keeps _ (bind _ _) => apply keeps_bind; [|intros ?]
  | |- keeps _ (try _ _) => apply keeps_try; [|intros ?]
  | |- keeps _ (ret _) => apply keeps_ret
  | |- keeps _ (gets _) => apply keeps_gets
  | |- keeps _ (when _ _) => apply keeps_when
  | |- keeps _ (if ?b then _ else _) => destruct b eqn:?
  | |- keeps _ (match ?x with _ => _ end) => destruct x eqn:?
  | |- keeps _ (let (_, _) := ?x in _) => destruct x eqn:?
  end.
Ltac run_auto := repeat (first [solve [eauto with runs] | run_step]).

(** *** What the parts do to a watched invariant *)

Section parts.
Context (reg : gset str -> gmap str DriveRecord -> Prop) (ok : Event -> Prop).
Hypothesis ok_library : forall req, ok (Library req).
Hypothesis ok_sync : forall d, ok (Sync d).
Hypothesis ok_rmdir : forall d, ok (RemoveDir d).
Hypothesis ok_save : forall s, ok (SaveAliases s).
Hypothesis ok_publish : forall v, ok (Publish v).
(** The state of a record does not matter to [reg]. *)
Hypothesis reg_state : forall h m id r c root sid t,
  reg h m -> m !! id = Some r -> reg h (<[id := with_state c root sid t r]> m).
Hypothesis reg_delete : forall h m id, reg h m -> reg h (delete id m).
Hypothesis reg_held : forall h h' m, reg h m -> reg h' m.

Let I := watched reg ok.

Lemma keeps_wrapper argv : ok (Helper argv) -> keeps I (run_wrapper argv).
Proof. intros H. unfold run_wrapper. run_step; [by apply keeps_act|run_auto]. Qed.
Lemma keeps_update id f :
  (forall r, exists c root sid t, f r = with_state c root sid t r) -> keeps I (update_drive id f).
Proof.
  intros Hf. apply keeps_set_drives. intros h m Hm. destruct (m !! id) as [r|] eqn:Hr; [|done].
  destruct (Hf r) as (c & root & sid & t & ->). by apply reg_state.
Qed.
Lemma keeps_mark id c : keeps I (mark_drive_class id c).
Proof. unfold mark_drive_class, now_ms. run_auto. apply keeps_update. eauto. Qed.
Lemma keeps_republish : keeps I republish_envelope.
Proof. unfold republish_envelope, pure_act. run_auto. by apply keeps_act. Qed.
Lemma keeps_set_removal f : keeps I (set_removal f).
Proof. by apply keeps_modify. Qed.
Lemma keeps_set_held f : keeps I (set_held f).
Proof. intros w [Hr Hd]. split; [by apply (reg_held (operator_held_out w))|done]. Qed.
Lemma keeps_announce id sid st : keeps I (announce_removal id sid st).
Proof. unfold announce_removal. run_step; [apply keeps_set_removal|apply keeps_republish]. Qed.
Lemma keeps_sync d : keeps I (sync d).
Proof. by apply keeps_act. Qed.
Lemma keeps_tell req : keeps I (tell req).
Proof. unfold tell, ask. run_auto. by apply keeps_act. Qed.
Lemma keeps_ask req : keeps I (ask req).
Proof. unfold ask. run_auto. by apply keeps_act. Qed.
Lemma keeps_add_source id r root : keeps I (add_source id r root).
Proof. unfold add_source, dispatch_library_add_source. run_auto. by apply keeps_act. Qed.
Lemma keeps_retract sid : keeps I (retract_library_source sid).
Proof. destruct sid; [apply keeps_tell|apply keeps_ret]. Qed.
Lemma keeps_after_mount id r : keeps I (after_mount id r).
Proof.
  unfold after_mount, now_ms. run_step; [apply keeps_add_source|]. run_auto. apply keeps_update. eauto.
Qed.
Lemma keeps_restore parked up : keeps I (dispatch_library_restore_parked parked up).
Proof. unfold dispatch_library_restore_parked. run_auto. apply keeps_tell. Qed.
Lemma keeps_park id : keeps I (dispatch_library_park_uri_prefix id).
Proof. unfold dispatch_library_park_uri_prefix. run_step; [apply keeps_ask|run_auto]. Qed.
Lemma keeps_finish b id sid : keeps I (finish_catalogue_stage b id sid).
Proof. unfold finish_catalogue_stage. run_step; [apply keeps_announce|]. run_auto. by apply keeps_modify. Qed.
Lemma keeps_drop_row id : keeps I (drop_row id).
Proof.
  unfold drop_row, remember_operator_detach. run_step; [apply keeps_set_held|].
  apply keeps_set_drives. intros h m. apply reg_delete.
Qed.
Lemma keeps_clear_hold id : keeps I (clear_operator_hold id).
Proof. unfold clear_operator_hold. run_step; [apply keeps_set_held|apply keeps_set_removal]. Qed.
Lemma keeps_adopt : keeps I adopt_library_ids_for_inherited_mounts.
Proof.
  unfold adopt_library_ids_for_inherited_mounts, list_library_sources. run_auto.
  - by apply keeps_act.
  - apply keeps_each. intros [id r] _. unfold adopt_one, dispatch_library_add_source. run_auto.
    + by apply keeps_act.
    + apply keeps_update. eauto.
Qed.
Lemma keeps_task : keeps I run_task.
Proof. unfold run_task. run_auto; [by apply keeps_modify|]. apply keeps_retract. Qed.
End parts.

(** ** The registry after a pass *)

(** A row of the fresh registry comes from a partition, under the id derived for it. *)
Lemma fresh_rows_from store prior in_use parts fresh id r :
  fresh_rows store prior in_use parts fresh !! id = Some r ->
  fresh !! id = Some r \/
  exists p i c a, p ∈ parts /\ i = input_of p /\ stable_id (derive i c) = id /\
    r = keep_mounted (prior !! id) (from_partition p (derive i c) a).
Proof.
  revert in_use fresh. induction parts as [|p parts IH]; intros in_use fresh; cbn [fresh_rows]; [auto|].
  intros [Hf|(q & i & c & a & Hq & Hi & Hd & Hr)]%IH.
  - rewrite lookup_insert_Some in Hf. destruct Hf as [[Hid Hr]|[_ Hf]]; [|by left].
    right. do 4 eexists. split_and!; [left|reflexivity|exact Hid|]. by rewrite <-Hr, <-Hid.
  - right. exists q, i, c, a. split_and!; [by right|done|done|done].
Qed.

Lemma keep_mounted_fixed prior r :
  d_device_node (keep_mounted prior r) = d_device_node r /\ d_role (keep_mounted prior r) = d_role r /\
  d_mount_policy (keep_mounted prior r) = d_mount_policy r /\ d_stable_id (keep_mounted prior r) = d_stable_id r.
Proof. unfold keep_mounted. destruct prior as [q|]; [|done]. by destruct (is_mounted (d_class q)). Qed.

Lemma keep_mounted_numbers prior r :
  d_partition_index (keep_mounted prior r) = d_partition_index r /\
  d_partition_count (keep_mounted prior r) = d_partition_count r.
Proof. unfold keep_mounted. destruct prior as [q|]; [|done]. by destruct (is_mounted (d_class q)). Qed.

(** The world that a pass makes of the partitions it read, before it cleans up after the
    drives that have gone. *)
Definition fresh_registry (parts : list ClassifiedPartition) (w : World) : gmap str DriveRecord :=
  fresh_rows (aliases w) (drives w) [] (sort_by by_device parts) ∅.
Definition refreshed (parts : list ClassifiedPartition) (w : World) : World :=
  let fresh := fresh_registry parts w in {|
    outside := outside w; drives := fresh; last_update_at_ms := clock_ms (outside w);
    operator_held_out := filter (fun id => is_Some (fresh !! id)) (operator_held_out w);
    removal := match removal w with
      | Some p => match fresh !! r_stable_id p with Some _ => removal w | None => None end
      | None => None
      end;
    aliases := aliases w; dispatcher := dispatcher w; publisher := publisher w;
    spawned := spawned w; done := done w |}.
Definition clean_up (row : str * option str) : Run unit :=
  run_wrapper [lit "umount-force"; row.1] ;;; retract_library_source row.2.

Lemma each_ext {A} (l : list A) f g w : (forall a w', f a w' = g a w') -> each l f w = each l g w.
Proof.
  intros H. revert w. induction l as [|a l IH]; intros w; [done|]. cbn [each]. unfold bind. rewrite H.
  destruct (g a w). apply IH.
Qed.

Lemma refresh_eq w :
  refresh_registry w =
  match classify_now (outside w) with
  | Err e => (w, Err e)
  | Ok parts => ((each (vanished_rows (drives w) (fresh_registry parts w)) clean_up (refreshed parts w)).1, Ok tt)
  end.
Proof.
  unfold refresh_registry, try, bind, gets. destruct (classify_now (outside w)) as [parts|e]; [|done].
  cbn. rewrite (each_ext _ _ clean_up) by (by intros []).
  fold (fresh_registry parts w). unfold refreshed. by destruct (each _ _ _).
Qed.

Lemma bind_skip {A B} (m : Run A) (k : Run B) w : bind m (fun _ => k) w = k (m w).1.
Proof. unfold bind. by destruct (m w). Qed.

Lemma bind_eq {A B} (m : Run A) (k : A -> Run B) w : bind m k w = k (m w).2 (m w).1.
Proof. unfold bind. by destruct (m w). Qed.
Lemma try_eq {A B E} (m : Run (result A E)) (k : A -> Run (result B E)) w :
  try m k w = match (m w).2 with Ok a => k a (m w).1 | Err e => ((m w).1, Err e) end.
Proof. unfold try, bind. by destruct (m w) as [w' [a|e]]. Qed.

(** What a pass does after the registry is rebuilt. *)
Definition after_refresh : Run (result unit VerbDispatchError) :=
  auto_mount_unmounted_removable ;;;
  adopt_library_ids_for_inherited_mounts ;;;
  republish_envelope ;;;
  ret (Ok tt).
(** The world when it has been rebuilt and what vanished is cleaned up. *)
Definition rebuilt (parts : list ClassifiedPartition) (w : World) : World :=
  (each (vanished_rows (drives w) (fresh_registry parts w)) clean_up (refreshed parts w)).1.

Lemma reconcile_eq w :
  reconcile_once w =
  match classify_now (outside w) with
  | Err e => (w, Err e)
  | Ok parts => after_refresh (rebuilt parts w)
  end.
Proof.
  change (reconcile_once w) with
    (let '(w', r) := refresh_registry w in
     (match r with Ok _ => after_refresh | Err e => ret (Err e) end) w').
  rewrite refresh_eq. by destruct (classify_now (outside w)).
Qed.

Lemma watched_refreshed reg ok parts w :
  reg (operator_held_out (refreshed parts w)) (fresh_registry parts w) -> Forall ok (done w) -> watched reg ok (refreshed parts w).
Proof. by split. Qed.

(** ** What every verb keeps *)

Section verbs.
(** What is said of each row of the registry, whatever its state, and of each command of
    the helper. *)
Context (good : str -> DriveRecord -> Prop) (allows : list str -> Prop).
Hypothesis good_state : forall id r c root sid t, good id r -> good id (with_state c root sid t r).
Hypothesis good_fresh : forall s parts p i c a prior,
  classify_now s = Ok parts -> p ∈ parts -> i = input_of p ->
  good (stable_id (derive i c)) (keep_mounted prior (from_partition p (derive i c) a)).
Hypothesis allows_short : forall cmd x, allows [cmd; x].
Hypothesis allows_mount : forall id r, good id r -> is_system_live (d_role r) = false -> allows (mount_argv id r).
Hypothesis allows_fsck : forall id r b, good id r -> is_system_live (d_role r) = false -> allows (fsck_argv id r b).

Definition good_registry (m : gmap str DriveRecord) : Prop := map_Forall good m.
Definition allowed_event (e : Event) : Prop := match e with Helper argv => allows argv | _ => True end.

Let I := watched (fun _ => good_registry) allowed_event.

Lemma good_insert m id r c root sid t :
  good_registry m -> m !! id = Some r -> good_registry (<[id := with_state c root sid t r]> m).
Proof. intros Hm Hr. apply map_Forall_insert_2; [by apply good_state, (Hm _ _ Hr)|done]. Qed.
Lemma good_delete m id : good_registry m -> good_registry (delete id m).
Proof. intros Hm. by apply map_Forall_delete. Qed.

Lemma keeps_clean_up row : keeps I (clean_up row).
Proof.
  unfold clean_up. run_step; [apply keeps_wrapper, allows_short|]. by apply keeps_retract.
Qed.

Lemma verb_refresh : keeps I refresh_registry.
Proof.
  intros w [Hr Hd]. rewrite refresh_eq. destruct (classify_now (outside w)) as [parts|e] eqn:Hc; [|done]. cbn [fst].
  apply (keeps_each I); [intros row _; apply keeps_clean_up|]. apply watched_refreshed; [|done].
  intros id r Hid. destruct (fresh_rows_from _ _ _ _ _ _ _ Hid) as [Hf|(p & i & c & al & Hp & Hi & Hid' & ->)]; [done|].
  rewrite sort_by_perm in Hp. rewrite <-Hid'. by apply (good_fresh _ _ _ _ _ _ _ Hc).
Qed.

Lemma verb_mount b id record : good id record -> keeps I (mount_steps b id record).
Proof.
  intros Hg. unfold mount_steps, mount_now. pose proof (allows_mount id record Hg) as Hm.
  run_auto; first [by apply keeps_mark; auto using good_insert|by apply keeps_wrapper; cbn; auto
    |by apply keeps_after_mount; auto using good_insert|by apply keeps_republish].
Qed.

(** What is found in the registry is good. *)
Lemma verb_known {A} id refusal (k : DriveRecord -> Run (result A VerbDispatchError)) :
  (forall r, good id r -> keeps I (k r)) -> keeps I (try (known_drive id refusal) k).
Proof.
  intros Hk w [Hr Hd]. unfold try, known_drive, drive, bind, gets, ret. cbn.
  destruct (drives w !! id) as [r|] eqn:Hid; [|done]. apply Hk; [by apply (Hr id)|done].
Qed.

Lemma verb_auto_mount : keeps I auto_mount_unmounted_removable.
Proof.
  unfold auto_mount_unmounted_removable. run_auto. apply keeps_each. intros id _.
  run_auto. unfold mount_attempt_no_reconcile, drive. apply keeps_read. intros w [Hr Hd].
  destruct (drives w !! id) as [r|] eqn:Hid; [|done]. apply verb_mount; [by apply (Hr id)|done].
Qed.

Lemma verb_reconcile : keeps I reconcile_once.
Proof.
  unfold reconcile_once. run_step; [apply verb_refresh|]. run_step; [apply verb_auto_mount|].
  run_step; [by apply keeps_adopt; auto using good_insert|]. run_step; [by apply keeps_republish|run_auto].
Qed.

(** One part of a verb, by its name. *)
Ltac verb_part :=
  lazymatch goal with
  | |- keeps _ refresh_registry => apply verb_refresh
  | |- keeps _ reconcile_once => apply verb_reconcile
  | |- keeps _ (sync _) => by apply keeps_sync
  | |- keeps _ republish_envelope => by apply keeps_republish
  | |- keeps _ (announce_removal _ _ _) => by apply keeps_announce
  | |- keeps _ (finish_catalogue_stage _ _ _) => by apply keeps_finish
  | |- keeps _ (dispatch_library_restore_parked _ _) => by apply keeps_restore
  | |- keeps _ (dispatch_library_park_uri_prefix _) => by apply keeps_park
  | |- keeps _ (tell _) => by apply keeps_tell
  | |- keeps _ (clear_operator_hold _) => by apply keeps_clear_hold
  | |- keeps _ (set_held _) => by apply keeps_set_held
  | |- keeps _ (drop_row _) => apply keeps_drop_row; try done; auto using good_delete
  | |- keeps _ (mark_drive_class _ _) => apply keeps_mark; try done; auto using good_insert
  | |- keeps _ (after_mount _ _) => apply keeps_after_mount; try done; auto using good_insert
  | |- keeps _ (run_wrapper _) => apply keeps_wrapper; try exact (allows_short _ _)
  | |- keeps _ (act _ _) => by apply keeps_act
  | |- keeps _ (modify _) => by apply keeps_modify
  | |- keeps _ (try (known_drive _ _) _) => apply verb_known; intros ? ?
  | |- keeps _ (mount_steps _ _ _) => by apply verb_mount
  | |- _ => run_step
  end.
Ltac verb_auto := repeat verb_part.

Lemma verb_handle_mount id : keeps I (handle_mount id).
Proof. unfold handle_mount. verb_auto. Qed.

Lemma verb_handle_safe_remove req : keeps I (handle_safe_remove req).
Proof.
  unfold handle_safe_remove, remove_mounted, remember_operator_detach, detach, fuser_holders, drive. verb_auto.
Qed.

Lemma verb_repair_prepare req :
  yields I (repair_prepare req) (fun r => match r with Ok record => good (rp_stable_id req) record /\ is_system_live (d_role record) = false | Err _ => True end).
Proof.
  unfold repair_prepare. apply yields_bind; [by apply keeps_clear_hold|intros _].
  apply yields_try; [apply verb_reconcile|intros _|done].
  intros w Hw. unfold try at 1, known_drive, drive, bind at 1, gets, ret at 1. cbn.
  destruct (drives w !! rp_stable_id req) as [record|] eqn:Hid; [|done]. cbn.
  destruct (is_system_live (d_role record)) eqn:Hlive; [done|].
  assert (Hg : good (rp_stable_id req) record) by exact (proj1 Hw (rp_stable_id req) record Hid).
  destruct (bool_decide _); [done|]. destruct (bool_decide _); [done|]. revert w Hw Hid.
  enough (Hrest : yields I
    (match d_library_source_id record with
     | Some sid => dispatch_library_consumer_stop sid false
     | None => ret tt
     end ;;;
     sync (d_parent_disk record) ;;;
     (if is_mounted (d_class record) then
        let!? out := run_wrapper [lit "umount"; rp_stable_id req] in
        if bool_decide (o_status out <> 0%Z) then
          ret (Err (RepairRefused (UmountBeforeRepairFailed (rp_stable_id req) (o_status out) (o_stderr out))))
        else ret (Ok record)
      else ret (Ok record)))
    (fun r => match r with Ok record => good (rp_stable_id req) record /\ is_system_live (d_role record) = false | Err _ => True end)).
  { intros w Hw _. by apply Hrest. }
  apply yields_bind; [unfold dispatch_library_consumer_stop; verb_auto|intros _].
  apply yields_bind; [verb_auto|intros _]. destruct (is_mounted _); [|by apply yields_ret].
  apply yields_try; [apply keeps_wrapper, allows_short|intros out|done]. destruct (bool_decide _); by apply yields_ret.
Qed.

Lemma verb_repair req : keeps I (handle_repair_filesystem req).
Proof.
  unfold handle_repair_filesystem. eapply keeps_try_yields; [apply verb_repair_prepare|].
  intros record [Hg Hlive]. unfold run_fsck, repair_finish, repair_failed.
  pose proof (allows_mount _ _ Hg Hlive) as Hm. pose proof (fun b => allows_fsck _ _ b Hg Hlive) as Hf.
  run_step; [apply keeps_wrapper, Hf|]. verb_auto. exact Hm.
Qed.

Lemma verb_rename req : keeps I (handle_rename req).
Proof.
  unfold handle_rename, rename_target, rename_umount, rename_persist, rename_restore, dispatch_library_consumer_stop,
    dispatch_library_rewrite_uri_prefix, attach_alias_store, now_ms, pure_act.
  verb_auto.
Qed.

Lemma verb_step e : keeps I (step e).
Proof.
  destruct e as [| |codec verb payload|f]; cbn [step].
  - verb_auto.
  - by apply keeps_task.
  - unfold dispatch_verb, answer, with_payload, handle_list_drives.
    verb_auto; auto using verb_handle_mount, verb_handle_safe_remove, verb_repair, verb_rename.
  - by apply keeps_modify.
Qed.

Lemma verb_steps l : keeps I (steps l).
Proof. apply keeps_each. intros e _. apply verb_step. Qed.
End verbs.

Lemma classify_now_inv s parts :
  classify_now s = Ok parts ->
  exists inputs ms root, read_inputs s = Ok inputs /\ parse_mountinfo (i_mountinfo inputs) = Ok ms /\
    parse_lsblk (i_lsblk_json inputs) = Ok root /\
    parts = classify_partitions ms (parse_swaps (i_swaps inputs)) (collect_usb_partitions root).
Proof.
  unfold classify_now, classify. destruct (read_inputs s) as [inputs|] eqn:Hi; [|done]. cbn [map_err].
  destruct (parse_mountinfo (i_mountinfo inputs)) as [ms|] eqn:Hm; [|done].
  destruct (parse_lsblk (i_lsblk_json inputs)) as [root|] eqn:Hl; [|done]. intros H. injection H as <-. eauto 10.
Qed.

(** Nothing is mounted from such a device, and none is checked. *)
Definition spares (L : gset str) (argv : list str) : Prop :=
  match argv with
  | cmd :: _ :: _ :: dev :: _ => cmd ∈ [lit "mount"; lit "fsck"] -> dev ∉ L
  | _ => True
  end.
Definition spared (L : gset str) (e : Event) : Prop := match e with Helper argv => spares L argv | _ => True end.

(** What a reading says about a device the system runs from. *)
Definition system_device (inputs : ClassifierInputs) (dev : str) : Prop :=
  dev ∈ parse_swaps (i_swaps inputs) \/
  exists ms m, parse_mountinfo (i_mountinfo inputs) = Ok ms /\ m ∈ ms /\ device_node m = dev /\
    mountpoint m ∈ [lit "/"; lit "/boot/efi"; lit "/boot"; lit "/boot/firmware"].

(** C29: A device that swaps or holds a system mount in every reading is never mounted and
    never checked, whatever verbs are called with whatever payloads, however passes,
    tasks and changes outside come in between, and whatever the helper answers. *)
Theorem system_partitions_untouched L l w :
  (forall s inputs dev, read_inputs s = Ok inputs -> dev ∈ L -> system_device inputs dev) ->
  drives w = ∅ -> Forall (spared L) (done w) ->
  Forall (spared L) (done (steps l w).1).
Proof.
  intros Hsys Hdr Hdone.
  assert (Hlive : forall s parts p, classify_now s = Ok parts -> p ∈ parts -> c_device_node p ∈ L ->
                  is_system_live (c_role p) = true).
  { intros s parts p (inputs & ms & root & Hi & Hm & Hl & ->)%classify_now_inv Hp Hin.
    apply (live_role_iff _ _ _ _ Hp). destruct (Hsys _ _ _ Hi Hin) as [Hsw|(ms' & m & Hm' & Hin' & Hd & Hmp)]; [by left|].
    right. exists m. rewrite Hm in Hm'. injection Hm' as <-. auto. }
  apply (verb_steps (fun _ r => d_device_node r ∈ L -> is_system_live (d_role r) = true) (spares L)).
  - done.
  - intros s parts p i c a prior Hc Hp _.
    destruct (keep_mounted_fixed prior (from_partition p (derive i c) a)) as (-> & -> & _ & _). by apply (Hlive _ _ _ Hc).
  - done.
  - intros id r Hg Hn _ Hin. apply Hg in Hin. congruence.
  - intros id r b Hg Hn. destruct b; intros _ Hin; apply Hg in Hin; congruence.
  - split; [rewrite Hdr; apply map_Forall_empty|done].
Qed.

(** A row as it should be under its id: the id is a name that can stand in a path, the
    numbers fit their width, the device is in [/dev], and the policy is the one of the
    role. *)
Definition well_formed (id : str) (r : DriveRecord) : Prop :=
  d_stable_id r = id /\ id <> [] /\ Forall (fun c => allowed c = true) id /\
  d_partition_index r <= U32_MAX /\ d_partition_count r <= U32_MAX /\
  (exists name, d_device_node r = dev_path name) /\ d_mount_policy r = default_policy (d_role r).

(** A mount or a check names a volume by such an id, on such a device. *)
Definition names_a_volume (argv : list str) : Prop :=
  match argv with
  | cmd :: id :: _ :: dev :: _ => id <> [] /\ Forall (fun c => allowed c = true) id /\ exists name, dev = dev_path name
  | _ => True
  end.

(** C31: Whatever verbs are called and passes made, every row of the registry is under its own
    id, which is safe as a name of a directory, with numbers that fit their width and the
    policy of its role, and every mount and check that is run names a volume by such an
    id. *)
Theorem registry_well_formed l w :
  map_Forall well_formed (drives w) ->
  Forall (fun e => match e with Helper argv => names_a_volume argv | _ => True end) (done w) ->
  map_Forall well_formed (drives (steps l w).1) /\
  Forall (fun e => match e with Helper argv => names_a_volume argv | _ => True end) (done (steps l w).1).
Proof.
  intros Hw Hd. apply (verb_steps well_formed names_a_volume); [done| |done| | |by split].
  - intros s parts p i c a prior (inputs & ms & root & _ & _ & _ & ->)%classify_now_inv Hp ->.
    apply classified_well_typed in Hp as (Hi & Hc & Hdev & Hpol). unfold well_formed.
    destruct (derive_safe_name (input_of p) c) as [Hne Hall].
    destruct (keep_mounted_fixed prior (from_partition p (derive (input_of p) c) a)) as (-> & -> & -> & ->).
    destruct (keep_mounted_numbers prior (from_partition p (derive (input_of p) c) a)) as [-> ->].
    by split_and!.
  - intros id r (_ & Hne & Hall & _ & _ & Hdev & _) _. by split_and!.
  - intros id r b (_ & Hne & Hall & _ & _ & Hdev & _) _. unfold fsck_argv. by destruct b.
Qed.

(** ** Drives the operator removed *)

(** No mount under this id. *)
Definition not_mounted_as (id : str) (e : Event) : Prop :=
  match e with Helper (cmd :: i :: _) => cmd = lit "mount" -> i <> id | _ => True end.

Definition held_or_absent (id : str) (w : World) : Prop :=
  id ∈ operator_held_out w \/ drives w !! id = None.

(** The holds and the ids of the registry are these. *)
Definition same_ids (held ids : gset str) : gset str -> gmap str DriveRecord -> Prop :=
  fun h m => h = held /\ dom m = ids.
Lemma same_ids_state held ids h m id r c root sid t :
  same_ids held ids h m -> m !! id = Some r -> same_ids held ids h (<[id := with_state c root sid t r]> m).
Proof. intros [-> <-] Hr. split; [done|]. apply dom_insert_lookup_L. by eexists. Qed.

Lemma auto_mount_skips_held (base : list Event) held ids id w :
  held_or_absent id w -> watched (same_ids held ids) (fun e => not_mounted_as id e \/ e ∈ base) w ->
  watched (same_ids held ids) (fun e => not_mounted_as id e \/ e ∈ base) (auto_mount_unmounted_removable w).1.
Proof.
  intros Hid Hw. unfold auto_mount_unmounted_removable, bind, gets.
  apply (keeps_each (watched _ _)); [|done]. clear Hw. intros i Hi.
  assert (Hne : i <> id).
  { unfold candidates in Hi. apply list_elem_of_fmap in Hi as ([j r] & -> & [Hc Hin]%list_elem_of_filter).
    cbn [fst]. intros ->. unfold auto_candidate in Hc. rewrite !andb_true_iff, negb_true_iff in Hc.
    destruct Hid as [Hh|Hn].
    - destruct Hc as [[[Hc _] _] _]. by rewrite bool_decide_eq_false in Hc.
    - unfold in_order in Hin. rewrite sort_by_perm in Hin. apply elem_of_map_to_list in Hin. congruence. }
  apply keeps_bind; [|intros _; apply keeps_ret].
  unfold mount_attempt_no_reconcile, drive. apply keeps_read. intros w' Hw'.
  destruct (drives w' !! i) as [r|]; [|done]. revert w' Hw'.
  change (keeps (watched (same_ids held ids) (fun e => not_mounted_as id e \/ e ∈ base)) (mount_steps false i r)).
  unfold mount_steps, mount_now.
  repeat lazymatch goal with
    | |- keeps _ (mark_drive_class _ _) => apply keeps_mark, same_ids_state
    | |- keeps _ (run_wrapper _) => apply keeps_wrapper; left; intros _; exact Hne
    | |- keeps _ (after_mount _ _) => apply keeps_after_mount; [by left|apply same_ids_state]
    | |- keeps _ republish_envelope => apply keeps_republish; by left
    | |- _ => run_step
    end.
Qed.

(** C30: A drive the operator removed is left alone: while the hold is on, a pass mounts
    nothing under its id, and the hold stays on as long as the drive is in the registry,
    and goes with the drive. *)
Theorem held_drive_is_left_alone id w :
  id ∈ operator_held_out w ->
  let w' := (reconcile_once w).1 in
  Forall (fun e => not_mounted_as id e \/ e ∈ done w) (done w') /\
  (id ∈ operator_held_out w' <-> is_ok (classify_now (outside w)) = false \/ is_Some (drives w' !! id)).
Proof.
  intros Hh w'. set (ok := fun e => not_mounted_as id e \/ e ∈ done w).
  assert (Hbase : Forall ok (done w)) by (apply Forall_forall; by right).
  subst w'. rewrite reconcile_eq. destruct (classify_now (outside w)) as [parts|e] eqn:Hc;
    [|split; [exact Hbase|split; [by left|intros _; exact Hh]]].
  set (w1 := rebuilt parts w).
  set (held := operator_held_out (refreshed parts w)). set (ids := dom (fresh_registry parts w)).
  assert (H1 : watched (same_ids held ids) ok w1).
  { apply (keeps_each (watched _ ok)); [|apply watched_refreshed; [by split|exact Hbase]]. intros row _. unfold clean_up. run_step.
    - apply keeps_wrapper. by left.
    - apply keeps_retract. by left. }
  assert (Hid : id ∈ held <-> id ∈ ids).
  { unfold held, ids, refreshed. cbn. rewrite elem_of_filter, elem_of_dom. naive_solver. }
  assert (H2 : watched (same_ids held ids) ok (auto_mount_unmounted_removable w1).1).
  { apply auto_mount_skips_held; [|exact H1]. destruct H1 as [[Hheld Hids] _]. unfold held_or_absent.
    rewrite Hheld, <-not_elem_of_dom, Hids, <-Hid. destruct (decide (id ∈ held)); auto. }
  assert (H3 : keeps (watched (same_ids held ids) ok)
    (adopt_library_ids_for_inherited_mounts ;;; republish_envelope ;;; ret (Ok (E := VerbDispatchError) tt))).
  { run_step; [apply keeps_adopt; [by left|apply same_ids_state]|]. run_step; [apply keeps_republish; by left|run_auto]. }
  unfold after_refresh. rewrite bind_skip. destruct (H3 _ H2) as [[Hheld Hids] Hdone]. split; [exact Hdone|].
  rewrite Hheld, <-elem_of_dom, Hids, Hid. split; [by right|]. intros [?|?]; done.
Qed.

(** ** What a pass makes of the partitions *)

Lemma derive_fresh i c :
  (length (in_use_stable_ids c) < 1024)%nat -> stable_id (derive i c) ∉ in_use_stable_ids c.
Proof.
  intros Hlen. destruct (derive_chosen i c) as (base & src & _ & ->). by apply deconflict_fresh.
Qed.

Lemma fresh_rows_keep store prior in_use parts fresh id :
  (length in_use + length parts <= 1024)%nat -> id ∈ in_use ->
  fresh_rows store prior in_use parts fresh !! id = fresh !! id.
Proof.
  revert in_use fresh. induction parts as [|p parts IH]; intros in_use fresh Hlen Hid; cbn [fresh_rows]; [done|].
  cbn [length] in Hlen. rewrite IH.
  - apply lookup_insert_ne. intros <-. revert Hid. apply derive_fresh. cbn [in_use_stable_ids]. lia.
  - rewrite length_app. cbn [length]. lia.
  - rewrite elem_of_app. by left.
Qed.

(** The rows in the order of their devices: an id for each partition, none twice. *)
Lemma fresh_rows_all store prior in_use parts fresh :
  (length in_use + length parts <= 1024)%nat -> (forall id, is_Some (fresh !! id) <-> id ∈ in_use) -> NoDup in_use ->
  exists ids, length ids = length parts /\ NoDup (in_use ++ ids) /\
    (forall id, is_Some (fresh_rows store prior in_use parts fresh !! id) <-> id ∈ in_use ++ ids) /\
    Forall2 (fun p id => exists r, fresh_rows store prior in_use parts fresh !! id = Some r /\
      d_stable_id r = id /\ d_device_node r = c_device_node p /\ d_role r = c_role p /\
      d_mount_policy r = c_mount_policy p) parts ids.
Proof.
  revert in_use fresh. induction parts as [|p parts IH]; intros in_use fresh Hlen Hdom Hnd; cbn [fresh_rows].
  - exists []. rewrite app_nil_r. by split_and!; [| |apply Hdom|].
  - cbn [length] in Hlen. set (c := {| operator_alias := UsbAliases.lookup store (lookup_of p); in_use_stable_ids := in_use |}).
    set (d := derive (input_of p) c). set (id := stable_id d).
    assert (Hid : id ∉ in_use) by (apply derive_fresh; cbn; lia).
    set (r := keep_mounted (prior !! id) (from_partition p d (bool_decide (UsbAliases.lookup store (lookup_of p) <> None)))).
    destruct (IH (in_use ++ [id]) (<[id := r]> fresh)) as (ids & Hl & Hn & Hd & Hf).
    + rewrite length_app. cbn [length]. lia.
    + intros j. rewrite lookup_insert_is_Some', Hdom, elem_of_app, list_elem_of_singleton. naive_solver.
    + apply NoDup_app. split_and!; [done| |apply NoDup_singleton]. intros x Hx ->%list_elem_of_singleton. done.
    + exists (id :: ids). rewrite <-app_assoc in Hn. cbn [length app]. split_and!; [by f_equal|exact Hn| |].
      * intros j. rewrite Hd, <-app_assoc. done.
      * constructor; [|exact Hf]. exists r. rewrite fresh_rows_keep.
        -- rewrite lookup_insert_eq. destruct (keep_mounted_fixed (prior !! id) (from_partition p d
             (bool_decide (UsbAliases.lookup store (lookup_of p) <> None)))) as (? & ? & ? & ?). done.
        -- rewrite length_app. cbn [length]. lia.
        -- rewrite elem_of_app, list_elem_of_singleton. by right.
Qed.

(** After a pass every partition that was read has a row, each under an id of its own
    (for up to 1024 partitions), with the device, the role and the policy that the
    classifier gave it, and there are no other rows. *)
Theorem registry_lists_every_partition parts w :
  (length parts <= 1024)%nat ->
  exists ids, NoDup ids /\ (forall id, is_Some (fresh_registry parts w !! id) <-> id ∈ ids) /\
    Forall2 (fun p id => exists r, fresh_registry parts w !! id = Some r /\ d_stable_id r = id /\
      d_device_node r = c_device_node p /\ d_role r = c_role p /\ d_mount_policy r = c_mount_policy p)
      (sort_by by_device parts) ids.
Proof.
  intros Hlen. destruct (fresh_rows_all (aliases w) (drives w) [] (sort_by by_device parts) ∅) as (ids & _ & Hn & Hd & Hf).
  - rewrite sort_by_perm. exact Hlen.
  - intros id. rewrite lookup_empty, elem_of_nil. split; [by intros [? ?]|done].
  - constructor.
  - by exists ids.
Qed.

Lemma keep_mounted_class prior p d a :
  d_class (keep_mounted prior (from_partition p d a)) ∈ [SystemDisk; UnsupportedClass; Unmounted; MountedClean; MountedDirty].
Proof.
  assert (Hf : fresh_class p ∈ [SystemDisk; UnsupportedClass; Unmounted; MountedClean; MountedDirty]).
  { unfold fresh_class. repeat case_match; rewrite !elem_of_cons; auto. }
  unfold keep_mounted. destruct prior as [q|]; [|exact Hf].
  destruct (d_class q) eqn:Hq; cbn [is_mounted]; try exact Hf; cbn [with_state d_class]; rewrite !elem_of_cons; auto 6.
Qed.

(** A pass forgets every failure: a volume whose check failed, that holds a hibernated
    Windows or that is too big for its filesystem comes out of it unmounted (or mounted,
    or unsupported), so the same pass mounts it again. *)
Theorem failures_are_forgotten parts w id r :
  fresh_registry parts w !! id = Some r ->
  d_class r ∈ [SystemDisk; UnsupportedClass; Unmounted; MountedClean; MountedDirty] /\
  (d_class r = Unmounted -> d_role r = Removable -> d_mount_policy r = Auto ->
   id ∉ operator_held_out (refreshed parts w) -> id ∈ candidates (refreshed parts w)).
Proof.
  intros Hr. split.
  - destruct (fresh_rows_from _ _ _ _ _ _ _ Hr) as [Hf|(p & i & c & a & _ & _ & _ & ->)]; [done|apply keep_mounted_class].
  - intros Hc Hrole Hpol Hh. unfold candidates. apply list_elem_of_fmap. exists (id, r). split; [done|].
    apply list_elem_of_filter. split.
    + unfold auto_candidate. cbn [fst snd]. rewrite Hc, Hrole, Hpol. by rewrite bool_decide_false.
    + unfold in_order. rewrite sort_by_perm. by apply elem_of_map_to_list.
Qed.

(** *** Volumes that have gone *)

Lemma act_done {A} e (f : S -> S * A) w : done (act e f w).1 = done w ++ [e] /\ dispatcher (act e f w).1 = dispatcher w /\
  drives (act e f w).1 = drives w.
Proof. unfold act. by destruct (f (outside w)). Qed.

Lemma wrapper_done argv w :
  done (run_wrapper argv w).1 = done w ++ [Helper argv] /\ dispatcher (run_wrapper argv w).1 = dispatcher w /\
  drives (run_wrapper argv w).1 = drives w.
Proof.
  unfold run_wrapper, bind. pose proof (act_done (Helper argv) (run_helper (needs_sudo cfg) argv) w) as H.
  destruct (act _ _ w). exact H.
Qed.

Lemma tell_done req w :
  done (tell req w).1 = done w ++ (if dispatcher w then [Library req] else []) /\
  dispatcher (tell req w).1 = dispatcher w /\ drives (tell req w).1 = drives w.
Proof.
  unfold tell, ask, bind, gets, ret. cbn. destruct (dispatcher w) eqn:Hd; [|by rewrite app_nil_r].
  pose proof (act_done (Library req) (dispatch req) w) as H. rewrite Hd in H. by destruct (act _ _ w).
Qed.

Definition clean_up_events (attached : bool) (row : str * option str) : list Event :=
  Helper [lit "umount-force"; row.1] ::
  match row.2 with
  | Some sid => if attached then [Library (RemoveSource sid false true)] else []
  | None => []
  end.

Lemma clean_up_done row w :
  done (clean_up row w).1 = done w ++ clean_up_events (dispatcher w) row /\
  dispatcher (clean_up row w).1 = dispatcher w /\ drives (clean_up row w).1 = drives w.
Proof.
  unfold clean_up. rewrite bind_skip. destruct (wrapper_done [lit "umount-force"; row.1] w) as (H1 & H2 & H3).
  set (w1 := (run_wrapper _ w).1) in *. unfold retract_library_source, clean_up_events. destruct row.2 as [sid|].
  - destruct (tell_done (RemoveSource sid false true) w1) as (H4 & H5 & H6).
    rewrite H4, H5, H6, H1, H2, H3, <-app_assoc. done.
  - by cbn.
Qed.

Lemma clean_ups_done rows w :
  done (each rows clean_up w).1 = done w ++ concat (map (clean_up_events (dispatcher w)) rows) /\
  dispatcher (each rows clean_up w).1 = dispatcher w /\ drives (each rows clean_up w).1 = drives w.
Proof.
  revert w. induction rows as [|row rows IH]; intros w; [by rewrite app_nil_r|]. cbn [each map concat].
  rewrite bind_skip. destruct (clean_up_done row w) as (H1 & H2 & H3).
  destruct (IH (clean_up row w).1) as (H4 & H5 & H6). rewrite H4, H5, H6, H1, H2, H3, <-app_assoc. done.
Qed.

(** A volume that was mounted and is not among the partitions any more is cleaned up: its
    mount point is detached, and then its source is taken out of the library (for each
    such volume, in the order of the ids), and nothing else is done to the outside while
    the registry is rebuilt. *)
Theorem vanished_volumes_are_retracted parts w :
  done (rebuilt parts w) =
    done w ++ concat (map (clean_up_events (dispatcher w)) (vanished_rows (drives w) (fresh_registry parts w))) /\
  drives (rebuilt parts w) = fresh_registry parts w /\
  (forall id sid, (id, sid) ∈ vanished_rows (drives w) (fresh_registry parts w) <->
     exists r, drives w !! id = Some r /\ is_mounted (d_class r) = true /\ d_library_source_id r = sid /\
       fresh_registry parts w !! id = None).
Proof.
  unfold rebuilt. destruct (clean_ups_done (vanished_rows (drives w) (fresh_registry parts w)) (refreshed parts w)) as (H1 & H2 & H3).
  split_and!; [exact H1|exact H3|]. intros id sid. unfold vanished_rows. rewrite list_elem_of_fmap. split.
  - intros ([j r] & He & [[Hn Hm] Hin]%list_elem_of_filter). injection He as -> ->.
    unfold in_order in Hin. rewrite sort_by_perm in Hin. apply elem_of_map_to_list in Hin. eauto.
  - intros (r & Hr & Hm & <- & Hn). exists (id, r). split; [done|]. apply list_elem_of_filter. split; [done|].
    unfold in_order. rewrite sort_by_perm. by apply elem_of_map_to_list.
Qed.

(** ** Removing a drive *)

(** What an observer of a removal sees: the stages that are published, the commands and
    the flush. *)
Inductive Mark := MStage (id : str) (s : RemovalStage) | MCmd (argv : list str) | MSync (disk : str).
Definition mark (e : Event) : option Mark :=
  match e with
  | Publish v => match v_removal v with Some p => Some (MStage (r_stable_id p) (r_stage p)) | None => None end
  | Helper argv => Some (MCmd argv)
  | Sync d => Some (MSync d)
  | _ => None
  end.
Definition marks (l : list Event) : list Mark := omap mark l.

(** The marks so far, the registry, the holds and the tasks, with a publisher attached. *)
Definition at_marks (l : list Mark) (m : gmap str DriveRecord) (h : gset str) (sp : list (str * option str)) (w : World) : Prop :=
  marks (done w) = l /\ drives w = m /\ operator_held_out w = h /\ spawned w = sp /\ publisher w = true.

Section removal.
Context (l : list Mark) (m : gmap str DriveRecord) (h : gset str) (sp : list (str * option str)).

Lemma marks_app a b : marks (a ++ b) = marks a ++ marks b.
Proof. apply omap_app. Qed.
Lemma at_announce id sid s :
  holds (at_marks l m h sp) (announce_removal id sid s) (fun _ => at_marks (l ++ [MStage id s]) m h sp).
Proof.
  intros w (Hl & Hm & Hh & Hs & Hp). unfold announce_removal, set_removal, modify, republish_envelope, pure_act, act.
  unfold bind, gets. cbn. rewrite Hp. cbn. unfold at_marks. cbn. by rewrite marks_app, Hl.
Qed.
Lemma at_sync d : holds (at_marks l m h sp) (sync d) (fun _ => at_marks (l ++ [MSync d]) m h sp).
Proof. intros w (Hl & Hm & Hh & Hs & Hp). unfold at_marks. cbn. by rewrite marks_app, Hl. Qed.
Lemma at_wrapper argv : holds (at_marks l m h sp) (run_wrapper argv) (fun _ => at_marks (l ++ [MCmd argv]) m h sp).
Proof.
  intros w (Hl & Hm & Hh & Hs & Hp). unfold run_wrapper, act, bind, at_marks.
  destruct (run_helper _ _ _). cbn. by rewrite marks_app, Hl.
Qed.
Lemma at_drop id : holds (at_marks l m h sp) (drop_row id) (fun _ => at_marks l (delete id m) ({[id]} ∪ h) sp).
Proof. intros w (Hl & Hm & Hh & Hs & Hp). unfold at_marks. cbn. split_and!; [exact Hl|by rewrite Hm|by rewrite Hh|done|done]. Qed.
Lemma at_spawn b t : holds (at_marks l m h sp) (when b (spawn t)) (fun _ => at_marks l m h (sp ++ if b then [t] else [])).
Proof.
  intros w (Hl & Hm & Hh & Hs & Hp). unfold at_marks. destruct b; cbn; [by rewrite Hs|by rewrite app_nil_r].
Qed.
End removal.

Lemma at_finish l m h sp b id sid :
  holds (at_marks l m h sp) (finish_catalogue_stage b id sid)
    (fun _ => at_marks (l ++ [MStage id StageRetract]) m h (sp ++ if b then [(id, sid)] else [])).
Proof. eapply holds_bind; [apply at_announce|]. intros ?. apply at_spawn. Qed.

(** Detaching: a clean unmount, or one that failed and a lazy one. *)
Lemma at_detach l m h sp id record :
  holds (at_marks l m h sp) (detach id record) (fun r => match r with
    | Ok (forced, _) =>
        at_marks (l ++ MCmd [lit "umount"; id] :: if forced then [MCmd [lit "umount-force"; id]] else []) m h sp
    | Err _ => fun w => exists more, more ∈ [[]; [MCmd [lit "umount-force"; id]]] /\
        at_marks (l ++ MCmd [lit "umount"; id] :: more) m h sp w
    end).
Proof.
  unfold detach. apply (holds_try _ _ _ (fun _ => at_marks (l ++ [MCmd [lit "umount"; id]]) m h sp)); [apply at_wrapper| |].
  - intros clean. destruct (bool_decide _); [|by apply holds_ret].
    apply (holds_bind _ _ _ (fun _ => at_marks (l ++ [MCmd [lit "umount"; id]]) m h sp)); [by apply holds_gets|].
    intros holders.
    apply (holds_try _ _ _ (fun _ => at_marks ((l ++ [MCmd [lit "umount"; id]]) ++ [MCmd [lit "umount-force"; id]]) m h sp));
      [apply at_wrapper| |].
    + intros forced. rewrite <-app_assoc. cbn [app]. destruct (bool_decide _); apply holds_ret; [|done].
      intros w Hw. eexists. split; [|exact Hw]. rewrite !elem_of_cons. auto.
    + intros e w Hw. rewrite <-app_assoc in Hw. cbn [app] in Hw. eexists. split; [|exact Hw]. rewrite !elem_of_cons. auto.
  - intros e w Hw. eexists. split; [|exact Hw]. rewrite !elem_of_cons. auto.
Qed.


(** ** Mounting *)

(** What speaks against a mount. *)
Definition ready (record : DriveRecord) : Prop :=
  is_mounted (d_class record) = false /\ is_system_live (d_role record) = false /\
  (d_role record = SystemAdjacent -> d_mount_policy record = Auto) /\
  from_lsblk (d_fs_type record) <> Unsupported /\
  (forall cap, size_cap_bytes (from_lsblk (d_fs_type record)) = Some cap -> d_size_bytes record <= cap).

Lemma mark_done id c w : done (mark_drive_class id c w).1 = done w.
Proof. done. Qed.
Lemma after_mount_done id record w :
  done (after_mount id record w).1 = done w ++
    (if dispatcher w
     then [Library (AddSource (default id (d_display_name record)) (d_device_node record) id (mount_root_of id))]
     else []) /\
  drives (after_mount id record w).1 =
    match drives w !! id with
    | Some r => <[id := with_state MountedClean (Some (mount_root_of id)) (after_mount id record w).2
                  (Some (clock_ms (outside (after_mount id record w).1))) r]> (drives w)
    | None => drives w
    end.
Proof.
  unfold after_mount, add_source, dispatch_library_add_source, bind, gets, ret, now_ms, update_drive, set_drives, modify.
  destruct (dispatcher w); cbn; [|by rewrite app_nil_r].
  unfold act. destruct (dispatch _ _) as [s [b|e]]; done.
Qed.
Definition not_helper (e : Event) : Prop := match e with Helper _ => False | _ => True end.

Lemma republish_rest w : exists rest, done (republish_envelope w).1 = done w ++ rest /\ Forall not_helper rest.
Proof.
  unfold republish_envelope, bind, gets, pure_act, act. cbn. destruct (publisher w); cbn.
  - eexists. split; [done|]. by repeat constructor.
  - exists []. by rewrite app_nil_r.
Qed.
Lemma publish_rest b w :
  exists rest, done (when b republish_envelope w).1 = done w ++ rest /\ Forall not_helper rest /\
    drives (when b republish_envelope w).1 = drives w.
Proof.
  destruct b; cbn [when]; [|exists []; by rewrite app_nil_r].
  destruct (republish_rest w) as (rest & Hd & Hf). exists rest. split_and!; [done|done|].
  unfold republish_envelope, bind, gets, pure_act, act. cbn. destruct (publisher w); reflexivity.
Qed.

Lemma wrapper_err argv w e : (run_wrapper argv w).2 = Err e -> exists m, e = SubprocessIo m.
Proof.
  unfold run_wrapper, bind. destruct (act _ _ w) as [w' [a|m]]; cbn; [done|]. intros [= <-]. by exists m.
Qed.

(** What [mount_now] promises. *)
Definition mounted_as (id : str) (record : DriveRecord) (w w' : World) (r : result MountResponse VerbDispatchError) : Prop :=
  exists rest, done w' = done w ++ Helper (mount_argv id record) :: rest /\ Forall not_helper rest /\
    (drives w !! id = Some record ->
     exists r', drives w' !! id = Some r' /\ d_device_node r' = d_device_node record /\
       match r with
       | Ok a => d_class r' = MountedClean /\ d_mount_root r' = Some (mo_mounted_at a) /\
                 mo_mounted_at a = mount_root_of id
       | Err (MountRefused (MountSubprocessFailed _ _ _)) => d_class r' = MountFailedOther
       | Err _ => r' = record
       end).

Lemma mount_now_correct b id record w :
  mounted_as id record w (mount_now b id record w).1 (mount_now b id record w).2.
Proof.
  unfold mount_now. rewrite try_eq. pose proof (wrapper_done (mount_argv id record) w) as (Hd & _ & Hm).
  pose proof (wrapper_err (mount_argv id record) w) as He.
  destruct (run_wrapper (mount_argv id record) w) as [w1 [out|e]]; cbn [fst snd] in Hd, Hm, He |- *.
  2: { destruct (He _ eq_refl) as [msg ->]. exists []. cbn. rewrite Hd. split_and!; [done|done|]. intros Hr. exists record. by rewrite Hm. }
  destruct (bool_decide (o_status out <> 0%Z)) eqn:Hb.
  - rewrite bind_skip. cbn [ret fst snd]. exists []. rewrite mark_done, Hd. split_and!; [done|done|]. intros Hr.
    cbn. rewrite Hm, Hr, lookup_insert_eq. eexists. split_and!; reflexivity.
  - rewrite bind_eq. destruct (after_mount_done id record w1) as [Ha Hma].
    destruct (after_mount id record w1) as [w2 sid]. cbn [fst snd] in Ha, Hma |- *. rewrite bind_skip. cbn [ret fst snd].
    destruct (publish_rest b w2) as (rest & Hp & Hf & Hmp).
    eexists. split_and!; [rewrite Hp, Ha, Hd, <-!app_assoc; reflexivity|apply Forall_app; split; [by destruct (dispatcher w1); repeat constructor|done]|].
    intros Hr. rewrite Hmp, Hma, Hm, Hr, lookup_insert_eq. eexists. split_and!; reflexivity.
Qed.

(** A mount runs the helper exactly when nothing speaks against it, once, with the name
    of the filesystem and the options of its family, on the device of the record; the
    drive is then mounted under its id when the helper succeeds, and marked when it
    fails.  Otherwise the helper is not run, and the answer is a success only for a drive
    that is mounted already. *)
Theorem mount_correct b id record w :
  let '(w', r) := mount_steps b id record w in
  (~ ready record -> done w' = done w /\ (is_ok r = true <-> is_mounted (d_class record) = true)) /\
  (ready record -> mounted_as id record w w' r).
Proof.
  pose proof (mount_now_correct b id record w) as Hn. unfold mount_steps, ready.
  destruct (is_mounted (d_class record)) eqn:Hm; [by split; [|intros (? & _)]|].
  destruct (is_system_live (d_role record)) eqn:Hl; [by split; [|intros (_ & ? & _)]|].
  destruct (bool_decide (d_role record = SystemAdjacent) && negb (bool_decide (d_mount_policy record = Auto))) eqn:Ha.
  { split; [done|]. intros (_ & _ & Hadj & _). rewrite andb_true_iff, negb_true_iff in Ha.
    destruct Ha as [Ha1 Ha2]. apply bool_decide_eq_true in Ha1. apply bool_decide_eq_false in Ha2. by apply Hadj in Ha1. }
  assert (Hadj : d_role record = SystemAdjacent -> d_mount_policy record = Auto).
  { intros Hr. rewrite bool_decide_true in Ha by done. cbn [andb] in Ha. apply negb_false_iff in Ha.
    by apply bool_decide_eq_true in Ha. }
  destruct (bool_decide (from_lsblk (d_fs_type record) = Unsupported)) eqn:Hu.
  { apply bool_decide_eq_true in Hu. split; [done|]. by intros (_ & _ & _ & ? & _). }
  apply bool_decide_eq_false in Hu. destruct (size_cap_bytes (from_lsblk (d_fs_type record))) as [cap|] eqn:Hc.
  - destruct (N.ltb_spec cap (d_size_bytes record)) as [Hsz|Hsz].
    + rewrite bind_skip. cbn [ret]. split; [done|]. intros (_ & _ & _ & _ & Hcap). specialize (Hcap _ eq_refl). lia.
    + destruct (mount_now b id record w). split; [|done]. intros []. split_and!; auto. intros ? [= <-]. lia.
  - destruct (mount_now b id record w). split; [|done]. intros []. by split_and!; auto.
Qed.

(** ** Renaming *)

(** The unmount of a rename is tried at most twice.  When the helper refuses it, the rows
    that were parked are put back as they were; when the helper could not be run, they
    are not. *)
Theorem rename_umount_correct id parked w :
  let '(w', r) := rename_umount id parked w in
  exists tries, tries ∈ [1%nat; 2%nat] /\
  done w' = done w ++ replicate tries (Helper [lit "umount"; id]) ++
    match r with
    | Err (RenameRefused _) =>
        if bool_decide (q_items parked <> []) && dispatcher w then [Library (RestoreParkedUris parked None)] else []
    | _ => []
    end.
Proof.
  unfold rename_umount. rewrite try_eq. destruct (wrapper_done [lit "umount"; id] w) as (H1 & D1 & _).
  pose proof (wrapper_err [lit "umount"; id] w) as He.
  destruct (run_wrapper [lit "umount"; id] w) as [w1 [first|e]]; cbn [fst snd] in H1, D1, He |- *.
  2: { destruct (He _ eq_refl) as [m ->]. exists 1%nat. by rewrite H1, elem_of_cons; auto. }
  rewrite try_eq.
  assert (Hend : forall w2 out tries, done w2 = done w ++ replicate tries (Helper [lit "umount"; id]) ->
            dispatcher w2 = dispatcher w -> tries ∈ [1%nat; 2%nat] ->
            let '(w', r) := (if bool_decide (o_status out <> 0%Z) then
                dispatch_library_restore_parked parked None ;;;
                ret (Err (RenameRefused (UmountBeforeRenameFailed id (o_status out) (o_stderr out))))
              else ret (Ok tt)) w2 in
            exists t, t ∈ [1%nat; 2%nat] /\ done w' = done w ++ replicate t (Helper [lit "umount"; id]) ++
              match r with
              | Err (RenameRefused _) =>
                  if bool_decide (q_items parked <> []) && dispatcher w then [Library (RestoreParkedUris parked None)] else []
              | _ => []
              end).
  { intros w2 out tries Hd2 Hdisp Ht. destruct (bool_decide (o_status out <> 0%Z)).
    - rewrite bind_skip. cbn [ret]. exists tries. split; [done|]. unfold dispatch_library_restore_parked, when.
      destruct (bool_decide (q_items parked <> [])); cbn [andb].
      + destruct (tell_done (RestoreParkedUris parked None) w2) as (-> & _). by rewrite Hd2, Hdisp, <-app_assoc.
      + cbn. by rewrite Hd2, app_nil_r.
    - cbn. exists tries. by rewrite app_nil_r. }
  destruct (bool_decide (o_status first <> 0%Z)) eqn:Hb.
  - destruct (wrapper_done [lit "umount"; id] w1) as (H2 & D2 & _).
    pose proof (wrapper_err [lit "umount"; id] w1) as He2.
    destruct (run_wrapper [lit "umount"; id] w1) as [w2 [out|e]]; cbn [fst snd] in H2, D2, He2 |- *.
    + apply (Hend w2 out 2%nat); [by rewrite H2, H1, <-app_assoc|congruence|]. rewrite !elem_of_cons. auto.
    + destruct (He2 _ eq_refl) as [m ->]. exists 2%nat. rewrite H2, H1, <-app_assoc, !elem_of_cons. auto.
  - cbn [ret fst snd]. apply (Hend w1 first 1%nat); [done|done|]. rewrite elem_of_cons. auto.
Qed.

End runtime.

(** The URIs below the mount point of a volume. *)
Definition under (id uri : str) : option str :=
  match strip_prefix (mpd_usb_uri_prefix id) uri with
  | Some [] => Some []
  | Some (c :: rest) => if c =? 47 then Some (c :: rest) else None
  | None => None
  end.

Lemma rewrite_uri_under old new uri :
  rewrite_uri (mpd_usb_uri_prefix old) (mpd_usb_uri_prefix new) uri =
  match under old uri with Some rest => mpd_usb_uri_prefix new ++ rest | None => uri end.
Proof.
  unfold rewrite_uri, under. destruct (strip_prefix _ uri) as [[|c rest]|]; [done| |done].
  cbn [str_is_empty orb]. unfold starts_with. change (lit "/") with [47]. cbn [strip_prefix].
  destruct (N.eqb_spec c 47) as [->|Hc]; [done|].
  assert (H47 : (47 =? c) = false) by (apply N.eqb_neq; congruence). by rewrite ?H47.
Qed.

(** Parked rows follow their volume: each keeps its position; a row of the volume gets
    the new id in front of the same rest, a row of any other volume (one whose id only
    starts with the same letters among them) is left alone, and renaming back gives the
    rows as they were, unless one was below the new id before. *)
Theorem parked_rows_follow old new parked :
  let moved := rewrite_parked_queue parked (mpd_usb_uri_prefix old) (mpd_usb_uri_prefix new) in
  map q_position (q_items moved) = map q_position (q_items parked) /\
  q_current moved = q_current parked /\ q_playing moved = q_playing parked /\ q_paused moved = q_paused parked /\
  map q_uri (q_items moved) =
    map (fun u => match under old u with Some rest => mpd_usb_uri_prefix new ++ rest | None => u end)
      (map q_uri (q_items parked)) /\
  (Forall (fun i => under new (q_uri i) = None) (q_items parked) ->
   rewrite_parked_queue moved (mpd_usb_uri_prefix new) (mpd_usb_uri_prefix old) = parked).
Proof.
  cbn. rewrite !map_map. split_and!; [done|done|done|done| |].
  - apply map_ext. intros i. cbn. apply rewrite_uri_under.
  - intros Hf. destruct parked as [items pl pa cu]. unfold rewrite_parked_queue. cbn in *. f_equal.
    rewrite map_map. rewrite <-(map_id items) at 2. apply map_ext_in. intros i Hi%list_elem_of_In.
    rewrite Forall_forall in Hf. specialize (Hf i Hi). destruct i as [pos uri]. cbn in *. f_equal.
    rewrite !rewrite_uri_under. destruct (under old uri) as [rest|] eqn:Hu; [|by rewrite Hf].
    unfold under in Hu. destruct (strip_prefix (mpd_usb_uri_prefix old) uri) as [l|] eqn:Hs; [|done].
    apply strip_prefix_Some in Hs. assert (Hl : l = rest) by (destruct l as [|c l]; [congruence|by destruct (c =? 47); congruence]).
    subst l. unfold under. rewrite strip_prefix_app. destruct rest as [|c l]; [done|].
    destruct (c =? 47); [done|done].
Qed.

(** ** An outside in memory *)

(** A disk with its partitions: their names and filesystems. *)
Definition volume (name label fs : string) : LsblkNode := {|
  n_name := lit name; n_pkname := None; n_mountpoint := None; n_tran := None; n_type := Some (lit "part");
  n_uuid := None; n_label := Some (lit label); n_fstype := Some (lit fs); n_partuuid := Some (lit name);
  n_vendor := None; n_model := None; n_serial := None; n_size := Some (SizeNumber 1000); n_children := [] |}.
Definition usb_disk (name serial : string) (children : list LsblkNode) : LsblkNode := {|
  n_name := lit name; n_pkname := None; n_mountpoint := None; n_tran := Some (lit "usb"); n_type := Some (lit "disk");
  n_uuid := None; n_label := None; n_fstype := None; n_partuuid := None; n_vendor := None; n_model := None;
  n_serial := Some (lit serial); n_size := None; n_children := children |}.

Definition first_stick : LsblkNode := usb_disk "sda" "A1" [volume "sda1" "Music" "ntfs"].
Definition second_stick : LsblkNode := usb_disk "sdb" "B2" [volume "sdb1" "Music" "vfat"].
Definition boot_stick : LsblkNode := usb_disk "sda" "A1" [volume "sda1" "Data" "ext4"; volume "sda2" "root" "ext4"].

(** The list of devices is written as a number and the reader knows what it stands for. *)
Definition plug_sets : list (list LsblkNode) := [[first_stick]; [second_stick]; [first_stick; second_stick]; [boot_stick]; []].
Definition toy_lsblk (text : str) : result LsblkRoot str :=
  match parse_u32 text with
  | Some n => Ok {| blockdevices := nth (N.to_nat n) plug_sets [] |}
  | None => Err (lit "no list")
  end.
(** The state: the number of what is plugged in, the mount table, the statuses the helper
    ends with (by its first word), the rows that parking gives, and whether the names can
    be saved. *)
Record Box := { b_set : N; b_rows : list MountRow; b_statuses : list (str * Z); b_queue : ParkedQueue; b_saves : bool }.

#[export] Instance box_outside : UsbOutside Box := {
  read_inputs b := Ok {| i_mountinfo := concat (map (fun r => row_text r ++ [LF]) (b_rows b)); i_swaps := [];
                         i_lsblk_json := dec (b_set b) |};
  parse_lsblk := toy_lsblk;
  run_helper _ argv b := (b, Ok {| o_status := match argv with
      | cmd :: _ => match find (fun p => bool_decide (p.1 = cmd)) (b_statuses b) with Some p => p.2 | None => 0%Z end
      | [] => 0%Z
      end; o_stdout := []; o_stderr := [] |});
  dispatch req b := (b, Ok (match req with
      | AddSource _ _ id _ => {| b_source_id := Some (lit "src-" ++ id); b_sources := None; b_parked := None |}
      | ParkUriPrefix _ => {| b_source_id := None; b_sources := None; b_parked := Some (b_queue b) |}
      | ListSources => {| b_source_id := None; b_sources := Some []; b_parked := None |}
      | _ => {| b_source_id := None; b_sources := None; b_parked := None |}
      end));
  sync_disk _ b := b;
  fuser _ _ := None;
  comm_of _ _ := [];
  remove_dir _ b := b;
  save_aliases st b := (b, if b_saves b then Ok tt else Err (Io (path st)));
  clock_ms _ := 7%Z
}.

Definition toy_cfg : Config := {| service_uid := 1000; service_gid := 1000; needs_sudo := true |}.
Definition box0 : Box := {| b_set := 0; b_rows := []; b_statuses := []; b_queue := ParkedQueue_default; b_saves := true |}.
Definition toy_world (b : Box) : World := {|
  outside := b; drives := ∅; last_update_at_ms := 0; operator_held_out := ∅; removal := None;
  aliases := UsbAliases.empty (lit "/s"); dispatcher := true; publisher := true; spawned := []; done := [] |}.

Definition after (l : list Step) (b : Box) : World := (steps toy_cfg l (toy_world b)).1.
Definition plug (n : N) : Step :=
  Outside (fun b => {| b_set := n; b_rows := b_rows b; b_statuses := b_statuses b; b_queue := b_queue b; b_saves := b_saves b |}).
Definition mounts (rows : list MountRow) : Step :=
  Outside (fun b => {| b_set := b_set b; b_rows := rows; b_statuses := b_statuses b; b_queue := b_queue b; b_saves := b_saves b |}).
Definition answers (l : list (str * Z)) : Step :=
  Outside (fun b => {| b_set := b_set b; b_rows := b_rows b; b_statuses := l; b_queue := b_queue b; b_saves := b_saves b |}).

Definition mount_row (device point : string) : MountRow := {|
  mr_id := lit "40"; mr_parent := lit "22"; mr_dev := lit "8:1"; mr_root := lit "/"; mr_point := lit point;
  mr_options := lit "rw"; mr_optional := []; mr_fstype := lit "vfat"; mr_source := lit device; mr_super := lit "rw" |}.

Definition commands (w : World (S := Box)) : list (list str) :=
  omap (fun e => match e with Helper argv => Some (take 4 argv) | _ => None end) (done w).
Definition asked (w : World (S := Box)) : list LibraryRequest :=
  omap (fun e => match e with Library req => Some req | _ => None end) (done w).

(** Two sticks with the same label are mounted under two ids.  When the first is pulled
    out, the second gets the plain id, with the mount point and the library source of the
    first; its own mount, which is still there, is taken for what the first left behind
    and is detached, and the source of the second is taken out of the library. *)
Theorem twin_is_detached :
  let w := after [plug 2; Tick; plug 1; mounts [mount_row "/dev/sdb1" "/var/lib/evo/music/USB/Music-2"]; Tick] box0 in
  commands w =
    [[lit "mount"; lit "Music"; lit "ntfs"; lit "/dev/sda1"];
     [lit "mount"; lit "Music-2"; lit "vfat"; lit "/dev/sdb1"];
     [lit "umount-force"; lit "Music-2"]] /\
  last (asked w) = Some (RemoveSource (lit "src-Music-2") false true) /\
  option_map (fun r => (d_device_node r, d_class r, d_mount_root r, d_library_source_id r)) (drives w !! lit "Music") =
    Some (lit "/dev/sdb1", MountedClean, Some (lit "/var/lib/evo/music/USB/Music"), Some (lit "src-Music")).
Proof. split_and!; vm_compute; reflexivity. Qed.

Definition rename_to (alias : string) : RenameRequest :=
  {| rn_stable_id := lit "Music"; rn_alias := lit alias; rn_mount_policy := Some (lit "opt-in") |}.
Definition one_row : ParkedQueue :=
  {| q_items := [{| q_position := 0; q_uri := lit "USB/Music/a.flac" |}]; q_playing := true; q_paused := false; q_current := Some 0 |}.
Definition box_queue (saves : bool) : Box :=
  {| b_set := 0; b_rows := []; b_statuses := []; b_queue := one_row; b_saves := saves |}.

(** A rename that succeeds puts the parked rows back under the new name. *)
Theorem rename_moves_the_queue :
  let '(w, r) := handle_rename toy_cfg (rename_to "Jazz") (after [Tick] (box_queue true)) in
  r = Ok {| re_new_stable_id := lit "Jazz"; re_class := lit "mounted-clean" |} /\
  asked w =
    [AddSource (lit "Music") (lit "/dev/sda1") (lit "Music") (mount_root_of (lit "Music"));
     ParkUriPrefix (lit "USB/Music");
     RemoveSource (lit "src-Music") true true;
     RemoveSource (lit "src-Music") false true;
     AddSource (lit "Jazz") (lit "/dev/sda1") (lit "Jazz") (mount_root_of (lit "Jazz"));
     RestoreParkedUris (rewrite_parked_queue one_row (lit "USB/Music") (lit "USB/Jazz")) (Some (lit "USB/Jazz"));
     RewriteUriPrefix (lit "USB/Music") (lit "USB/Jazz")].
Proof. vm_compute. by split. Qed.

(** A rename whose name cannot be saved fails with the rows parked: the volume has been
    unmounted and its rows have been taken out of the queue, and nothing puts them back. *)
Theorem failed_rename_loses_the_queue :
  let '(w, r) := handle_rename toy_cfg (rename_to "Jazz") (after [Tick] (box_queue false)) in
  r = Err (RenameRefused (AliasPersistFailed (lit "Music") (Io (lit "/s/state/aliases.toml")))) /\
  asked w =
    [AddSource (lit "Music") (lit "/dev/sda1") (lit "Music") (mount_root_of (lit "Music"));
     ParkUriPrefix (lit "USB/Music");
     RemoveSource (lit "src-Music") true true] /\
  commands w = [[lit "mount"; lit "Music"; lit "ntfs"; lit "/dev/sda1"]; [lit "umount"; lit "Music"]].
Proof. vm_compute. by split_and!. Qed.

Definition repair (id : string) : RepairRequest := {| rp_stable_id := lit id; rp_escalate := None |}.

(** A volume that holds a hibernated Windows is refused by the check, and the next pass
    mounts it for writing. *)
Theorem hibernated_volume_is_mounted_again :
  let '(w, r) := handle_repair_filesystem toy_cfg (repair "Music") (after [answers [(lit "fsck", 6%Z)]; Tick] box0) in
  r = Err (RepairRefused (NtfsHiberfile (lit "Music"))) /\
  option_map d_class (drives w !! lit "Music") = Some MountedDirtyHiberfile /\
  let w' := (step toy_cfg Tick w).1 in
  last (commands w') = Some [lit "mount"; lit "Music"; lit "ntfs"; lit "/dev/sda1"] /\
  option_map d_class (drives w' !! lit "Music") = Some MountedClean.
Proof. vm_compute. by split_and!. Qed.

(** A drive that could not be mounted is being repaired: a pass that comes while the
    repair goes on mounts it, and the check runs on a mounted volume. *)
Theorem check_runs_on_a_mounted_volume :
  let w1 := after [answers [(lit "mount", 3%Z)]; Tick] box0 in
  let '(w2, r) := repair_prepare toy_cfg (repair "Music") w1 in
  exists record, r = Ok record /\
  let w3 := (steps toy_cfg [answers []; Tick] w2).1 in
  let w4 := (run_fsck toy_cfg (repair "Music") record w3).1 in
  option_map d_class (drives w3 !! lit "Music") = Some MountedClean /\
  drop (length (commands w2)) (commands w4) =
    [[lit "mount"; lit "Music"; lit "ntfs"; lit "/dev/sda1"]; [lit "fsck"; lit "Music"; lit "ntfs"; lit "/dev/sda1"]].
Proof.
  cbn zeta. destruct (repair_prepare _ _ _) as [w2 r] eqn:Hr. vm_compute in Hr. injection Hr as <- <-.
  eexists. split; [reflexivity|]. vm_compute. by split.
Qed.

(** A partition next to the one the system runs from is never mounted by the mount verb,
    though the rename that names it asks to opt in, and is mounted by the repair. *)
Theorem opt_in_is_ignored :
  let w1 := after [mounts [mount_row "/dev/sda2" "/"]; plug 3; Tick] box0 in
  let w2 := (handle_rename toy_cfg {| rn_stable_id := lit "Data-p1"; rn_alias := lit "Data";
               rn_mount_policy := Some (lit "opt-in") |} w1).1 in
  (handle_mount toy_cfg (lit "Data-p1") w2).2 = Err (MountRefused (SystemAdjacentNotOptedIn (lit "Data-p1"))) /\
  commands w2 = [] /\
  let w3 := (handle_repair_filesystem toy_cfg (repair "Data-p1") w2).1 in
  commands w3 = [[lit "fsck"; lit "Data-p1"; lit "ext4"; lit "/dev/sda1"]; [lit "mount"; lit "Data-p1"; lit "ext4"; lit "/dev/sda1"]].
Proof. vm_compute. by split_and!. Qed.

(** *** The theorems at work *)

(** An outside where the boot stick is plugged in and holds the root for good. *)
Definition boot_inputs : ClassifierInputs := {|
  i_mountinfo := concat (map (fun r => row_text r ++ [LF]) [mount_row "/dev/sda2" "/"]); i_swaps := []; i_lsblk_json := dec 3 |}.
#[export] Instance boot_outside : UsbOutside unit := {
  read_inputs _ := Ok boot_inputs;
  parse_lsblk := toy_lsblk;
  run_helper _ _ s := (s, Ok {| o_status := 0%Z; o_stdout := []; o_stderr := [] |});
  dispatch _ s := (s, Ok {| b_source_id := None; b_sources := None; b_parked := None |});
  sync_disk _ s := s;
  fuser _ _ := None;
  comm_of _ _ := [];
  remove_dir _ s := s;
  save_aliases _ s := (s, Ok tt);
  clock_ms _ := 7%Z
}.
Definition boot_world : World (S := unit) := {|
  outside := tt; drives := ∅; last_update_at_ms := 0; operator_held_out := ∅; removal := None;
  aliases := UsbAliases.empty (lit "/s"); dispatcher := true; publisher := true; spawned := []; done := [] |}.
Definition any_codec : Codec := {|
  read_mount _ := Ok (lit "root-p2"); read_remove _ := Err []; read_repair _ := Ok (repair "root-p2"); read_rename _ := Err [] |}.
Definition boot_steps : list (Step (S := unit)) :=
  [Tick; Verb any_codec (lit "storage.usb.mount") []; Verb any_codec (lit "storage.usb.repair_filesystem") []].

Lemma system_partitions_untouched_witness :
  Forall (spared {[lit "/dev/sda2"]}) (done (steps toy_cfg boot_steps boot_world).1) /\
  is_Some (drives (steps toy_cfg boot_steps boot_world).1 !! lit "root-p2").
Proof.
  split; [|vm_compute; by eexists].
  apply (system_partitions_untouched toy_cfg {[lit "/dev/sda2"]} boot_steps boot_world).
  - intros s inputs dev [= <-] ->%elem_of_singleton. right.
    exists [{| device_node := lit "/dev/sda2"; mountpoint := lit "/" |}], {| device_node := lit "/dev/sda2"; mountpoint := lit "/" |}.
    split_and!; [vm_compute; reflexivity|left|reflexivity|left].
  - reflexivity.
  - constructor.
Defined.

Lemma registry_well_formed_witness :
  map_Forall well_formed (drives (after [plug 2; Tick] box0)) /\ size (drives (after [plug 2; Tick] box0)) = 2%nat.
Proof.
  split; [|vm_compute; reflexivity].
  apply (registry_well_formed toy_cfg [plug 2; Tick] (toy_world box0)); [apply map_Forall_empty|constructor].
Defined.

Definition remove_music : SafeRemoveRequest := {|
  sr_stable_id := lit "Music"; sr_force := None; sr_library_source_id := None; sr_retract_library := true;
  sr_release_queue := true |}.
Definition held_world : World (S := Box) := (handle_safe_remove toy_cfg remove_music (after [Tick] box0)).1.

Lemma held_drive_is_left_alone_witness :
  lit "Music" ∈ operator_held_out held_world /\
  lit "Music" ∈ operator_held_out (reconcile_once toy_cfg held_world).1 /\
  Forall (fun e => not_mounted_as (lit "Music") e \/ e ∈ done held_world) (done (reconcile_once toy_cfg held_world).1).
Proof.
  assert (H : lit "Music" ∈ operator_held_out held_world) by (apply (bool_decide_eq_true_1 _); vm_compute; reflexivity).
  split; [exact H|]. destruct (held_drive_is_left_alone toy_cfg (lit "Music") held_world H) as [H1 H2].
  split; [|exact H1]. apply H2. right. vm_compute. by eexists.
Defined.

Definition twin_parts : list ClassifiedPartition :=
  classify_partitions [] ∅ (collect_usb_partitions {| blockdevices := [first_stick; second_stick] |}).

Lemma registry_lists_every_partition_witness :
  (length twin_parts <= 1024)%nat /\
  exists ids, NoDup ids /\ forall id, is_Some (fresh_registry twin_parts (toy_world box0) !! id) <-> id ∈ ids.
Proof.
  assert (H : (length twin_parts <= 1024)%nat) by (vm_compute; lia). split; [exact H|].
  destruct (registry_lists_every_partition twin_parts (toy_world box0) H) as (ids & Hn & Hd & _). by exists ids.
Defined.

Lemma failures_are_forgotten_witness :
  exists r, fresh_registry twin_parts (toy_world box0) !! lit "Music" = Some r /\
    d_class r ∈ [SystemDisk; UnsupportedClass; Unmounted; MountedClean; MountedDirty].
Proof.
  destruct (fresh_registry twin_parts (toy_world box0) !! lit "Music") as [r|] eqn:Hr; [|vm_compute in Hr; discriminate].
  exists r. split; [reflexivity|]. exact (proj1 (failures_are_forgotten twin_parts (toy_world box0) (lit "Music") r Hr)).
Defined.


(** ** The words on the wire *)

(** The classes, roles and policies are written as words that are read back, and nothing
    else is read as one. *)
Theorem wire_words_roundtrip :
  (forall c s, read_class s = Some c <-> s = class_wire c) /\
  (forall r s, read_role s = Some r <-> s = role_wire_string r) /\
  (forall p s, read_policy s = Some p <-> s = mount_policy_wire_string p).
Proof.
  split_and!; intros x s; (split; [|intros ->; by destruct x]).
  - unfold read_class. intros H. repeat case_bool_decide; by simplify_eq.
  - unfold read_role. intros H. repeat case_bool_decide; by simplify_eq.
  - unfold read_policy. intros H. repeat case_bool_decide; by simplify_eq.
Qed.
