(* ===== verification/OptionsStore.v ===== *)
(** * Settings of the playback options ([plugins/org.evoframework.playback.options/src/lib.rs])

    The settings, their bounds, the file they are kept in with its last-known-good copy,
    and the programs that read and write it.  A handler of the plugin is a program over
    the actions [Act] that touch what is shared: the settings under their lock, the
    files, the transition lock, the envelope and what is announced.  [run] performs a
    program alone, [interleave] performs several one action at a time. *)

From stdpp Require Import gmap countable.
From Stdlib Require Import SpecFloat.
From S2P Require Import Prelude Transition.
Local Open Scope N_scope.

(** ** Data *)

(** [f32], with the order of IEEE 754: a comparison with a NaN is false. *)
Definition f32 : Type := spec_float.
Definition in_range_f32 (lo hi x : f32) : bool := SFleb lo x && SFleb x hi.

(** [MixerType::from_wire_str], [as_wire_str]; the default is software. *)
Definition mixer_type_wire (m : MixerType) : str :=
  match m with Hardware => lit "hardware" | Software => lit "software" | NoMixer => lit "none" end.
Definition mixer_type_from_wire (value : str) : option MixerType :=
  if bool_decide (value = lit "hardware") then Some Hardware
  else if bool_decide (value = lit "software") then Some Software
  else if bool_decide (value = lit "none") then Some NoMixer
  else None.

(** [VolumeCurve] *)
Inductive VolumeCurve := Linear | Log | Natural.
Definition volume_curve_wire (c : VolumeCurve) : str :=
  match c with Linear => lit "linear" | Log => lit "log" | Natural => lit "natural" end.
Definition volume_curve_from_wire (value : str) : option VolumeCurve :=
  if bool_decide (value = lit "linear") then Some Linear
  else if bool_decide (value = lit "log") then Some Log
  else if bool_decide (value = lit "natural") then Some Natural
  else None.

(** [ResamplingPolicy], [EqBand], [NamedEqPreset] *)
Record ResamplingPolicy := {
  enabled : bool; target_bitdepth : str; target_samplerate : str; quality : str }.
Record EqBand := { freq_hz : N; gain_db : f32; q : f32 }.
Record NamedEqPreset := { name : str; bands : list EqBand }.

(** [Settings] *)
Record Settings := {
  v : N; resampling : ResamplingPolicy; mixer_type : MixerType;
  mixer_device : str; mixer_control : str; dop : bool; output_device : str;
  volume_normalization : bool; startup_volume_percent : N; max_volume_percent : N;
  volume_curve : VolumeCurve; exclusive_mode : bool; crossfade_seconds : N;
  gapless : bool; eq_engaged : bool; eq_bands : list EqBand; eq_presets : list NamedEqPreset }.

(** The constants: [EQ_BAND_*], [EQ_PRESET_*], [CROSSFADE_SECONDS_MAX], [PAYLOAD_VERSION].
    The bounds of the gain and of the quality factor are the [f32] nearest to -15, 15,
    0.1 and 30. *)
Definition PAYLOAD_VERSION : N := 1.
Definition CROSSFADE_SECONDS_MAX : N := 30.
Definition EQ_BAND_COUNT : nat := 10.
Definition EQ_BAND_FREQ_MIN : N := 20.
Definition EQ_BAND_FREQ_MAX : N := 20000.
Definition EQ_BAND_GAIN_MIN_DB : f32 := S754_finite true 15728640 (-20).
Definition EQ_BAND_GAIN_MAX_DB : f32 := S754_finite false 15728640 (-20).
Definition EQ_BAND_Q_MIN : f32 := S754_finite false 13421773 (-27).
Definition EQ_BAND_Q_MAX : f32 := S754_finite false 15728640 (-19).
Definition EQ_PRESET_LIBRARY_MAX_COUNT : nat := 32.
Definition EQ_PRESET_NAME_MAX_LEN : N := 64.

(** The defaults of [EqBand] and of [Settings]. *)
Definition EqBand_default : EqBand :=
  {| freq_hz := 1000; gain_db := S754_zero false; q := S754_finite false 8388608 (-23) |}.
Definition default_eq_bands : list EqBand := repeat EqBand_default EQ_BAND_COUNT.
Definition ResamplingPolicy_default : ResamplingPolicy :=
  {| enabled := false; target_bitdepth := []; target_samplerate := []; quality := [] |}.
Definition Settings_default : Settings :=
  {| v := PAYLOAD_VERSION; resampling := ResamplingPolicy_default; mixer_type := Software;
     mixer_device := []; mixer_control := []; dop := false; output_device := [];
     volume_normalization := false; startup_volume_percent := 30; max_volume_percent := 100;
     volume_curve := Linear; exclusive_mode := false; crossfade_seconds := 0; gapless := true;
     eq_engaged := false; eq_bands := default_eq_bands; eq_presets := [] |}.

(** One field replaced. *)
Definition with_resampling (x : ResamplingPolicy) (s : Settings) : Settings :=
  {| v := v s; resampling := x; mixer_type := mixer_type s; mixer_device := mixer_device s; mixer_control :=
     mixer_control s; dop := dop s; output_device := output_device s; volume_normalization :=
     volume_normalization s; startup_volume_percent := startup_volume_percent s; max_volume_percent :=
     max_volume_percent s; volume_curve := volume_curve s; exclusive_mode := exclusive_mode s;
     crossfade_seconds := crossfade_seconds s; gapless := gapless s; eq_engaged := eq_engaged s; eq_bands :=
     eq_bands s; eq_presets := eq_presets s |}.
Definition with_mixer_type (x : MixerType) (s : Settings) : Settings :=
  {| v := v s; resampling := resampling s; mixer_type := x; mixer_device := mixer_device s; mixer_control :=
     mixer_control s; dop := dop s; output_device := output_device s; volume_normalization :=
     volume_normalization s; startup_volume_percent := startup_volume_percent s; max_volume_percent :=
     max_volume_percent s; volume_curve := volume_curve s; exclusive_mode := exclusive_mode s;
     crossfade_seconds := crossfade_seconds s; gapless := gapless s; eq_engaged := eq_engaged s; eq_bands :=
     eq_bands s; eq_presets := eq_presets s |}.
Definition with_mixer_device (x : str) (s : Settings) : Settings :=
  {| v := v s; resampling := resampling s; mixer_type := mixer_type s; mixer_device := x; mixer_control :=
     mixer_control s; dop := dop s; output_device := output_device s; volume_normalization :=
     volume_normalization s; startup_volume_percent := startup_volume_percent s; max_volume_percent :=
     max_volume_percent s; volume_curve := volume_curve s; exclusive_mode := exclusive_mode s;
     crossfade_seconds := crossfade_seconds s; gapless := gapless s; eq_engaged := eq_engaged s; eq_bands :=
     eq_bands s; eq_presets := eq_presets s |}.
Definition with_mixer_control (x : str) (s : Settings) : Settings :=
  {| v := v s; resampling := resampling s; mixer_type := mixer_type s; mixer_device := mixer_device s;
     mixer_control := x; dop := dop s; output_device := output_device s; volume_normalization :=
     volume_normalization s; startup_volume_percent := startup_volume_percent s; max_volume_percent :=
     max_volume_percent s; volume_curve := volume_curve s; exclusive_mode := exclusive_mode s;
     crossfade_seconds := crossfade_seconds s; gapless := gapless s; eq_engaged := eq_engaged s; eq_bands :=
     eq_bands s; eq_presets := eq_presets s |}.
Definition with_dop (x : bool) (s : Settings) : Settings :=
  {| v := v s; resampling := resampling s; mixer_type := mixer_type s; mixer_device := mixer_device s;
     mixer_control := mixer_control s; dop := x; output_device := output_device s; volume_normalization :=
     volume_normalization s; startup_volume_percent := startup_volume_percent s; max_volume_percent :=
     max_volume_percent s; volume_curve := volume_curve s; exclusive_mode := exclusive_mode s;
     crossfade_seconds := crossfade_seconds s; gapless := gapless s; eq_engaged := eq_engaged s; eq_bands :=
     eq_bands s; eq_presets := eq_presets s |}.
Definition with_output_device (x : str) (s : Settings) : Settings :=
  {| v := v s; resampling := resampling s; mixer_type := mixer_type s; mixer_device := mixer_device s;
     mixer_control := mixer_control s; dop := dop s; output_device := x; volume_normalization :=
     volume_normalization s; startup_volume_percent := startup_volume_percent s; max_volume_percent :=
     max_volume_percent s; volume_curve := volume_curve s; exclusive_mode := exclusive_mode s;
     crossfade_seconds := crossfade_seconds s; gapless := gapless s; eq_engaged := eq_engaged s; eq_bands :=
     eq_bands s; eq_presets := eq_presets s |}.
Definition with_volume_normalization (x : bool) (s : Settings) : Settings :=
  {| v := v s; resampling := resampling s; mixer_type := mixer_type s; mixer_device := mixer_device s;
     mixer_control := mixer_control s; dop := dop s; output_device := output_device s; volume_normalization :=
     x; startup_volume_percent := startup_volume_percent s; max_volume_percent := max_volume_percent s;
     volume_curve := volume_curve s; exclusive_mode := exclusive_mode s; crossfade_seconds :=
     crossfade_seconds s; gapless := gapless s; eq_engaged := eq_engaged s; eq_bands := eq_bands s; eq_presets
     := eq_presets s |}.
Definition with_startup_volume_percent (x : N) (s : Settings) : Settings :=
  {| v := v s; resampling := resampling s; mixer_type := mixer_type s; mixer_device := mixer_device s;
     mixer_control := mixer_control s; dop := dop s; output_device := output_device s; volume_normalization :=
     volume_normalization s; startup_volume_percent := x; max_volume_percent := max_volume_percent s;
     volume_curve := volume_curve s; exclusive_mode := exclusive_mode s; crossfade_seconds :=
     crossfade_seconds s; gapless := gapless s; eq_engaged := eq_engaged s; eq_bands := eq_bands s; eq_presets
     := eq_presets s |}.
Definition with_max_volume_percent (x : N) (s : Settings) : Settings :=
  {| v := v s; resampling := resampling s; mixer_type := mixer_type s; mixer_device := mixer_device s;
     mixer_control := mixer_control s; dop := dop s; output_device := output_device s; volume_normalization :=
     volume_normalization s; startup_volume_percent := startup_volume_percent s; max_volume_percent := x;
     volume_curve := volume_curve s; exclusive_mode := exclusive_mode s; crossfade_seconds :=
     crossfade_seconds s; gapless := gapless s; eq_engaged := eq_engaged s; eq_bands := eq_bands s; eq_presets
     := eq_presets s |}.
Definition with_volume_curve (x : VolumeCurve) (s : Settings) : Settings :=
  {| v := v s; resampling := resampling s; mixer_type := mixer_type s; mixer_device := mixer_device s;
     mixer_control := mixer_control s; dop := dop s; output_device := output_device s; volume_normalization :=
     volume_normalization s; startup_volume_percent := startup_volume_percent s; max_volume_percent :=
     max_volume_percent s; volume_curve := x; exclusive_mode := exclusive_mode s; crossfade_seconds :=
     crossfade_seconds s; gapless := gapless s; eq_engaged := eq_engaged s; eq_bands := eq_bands s; eq_presets
     := eq_presets s |}.
Definition with_exclusive_mode (x : bool) (s : Settings) : Settings :=
  {| v := v s; resampling := resampling s; mixer_type := mixer_type s; mixer_device := mixer_device s;
     mixer_control := mixer_control s; dop := dop s; output_device := output_device s; volume_normalization :=
     volume_normalization s; startup_volume_percent := startup_volume_percent s; max_volume_percent :=
     max_volume_percent s; volume_curve := volume_curve s; exclusive_mode := x; crossfade_seconds :=
     crossfade_seconds s; gapless := gapless s; eq_engaged := eq_engaged s; eq_bands := eq_bands s; eq_presets
     := eq_presets s |}.
Definition with_crossfade_seconds (x : N) (s : Settings) : Settings :=
  {| v := v s; resampling := resampling s; mixer_type := mixer_type s; mixer_device := mixer_device s;
     mixer_control := mixer_control s; dop := dop s; output_device := output_device s; volume_normalization :=
     volume_normalization s; startup_volume_percent := startup_volume_percent s; max_volume_percent :=
     max_volume_percent s; volume_curve := volume_curve s; exclusive_mode := exclusive_mode s;
     crossfade_seconds := x; gapless := gapless s; eq_engaged := eq_engaged s; eq_bands := eq_bands s;
     eq_presets := eq_presets s |}.
Definition with_gapless (x : bool) (s : Settings) : Settings :=
  {| v := v s; resampling := resampling s; mixer_type := mixer_type s; mixer_device := mixer_device s;
     mixer_control := mixer_control s; dop := dop s; output_device := output_device s; volume_normalization :=
     volume_normalization s; startup_volume_percent := startup_volume_percent s; max_volume_percent :=
     max_volume_percent s; volume_curve := volume_curve s; exclusive_mode := exclusive_mode s;
     crossfade_seconds := crossfade_seconds s; gapless := x; eq_engaged := eq_engaged s; eq_bands := eq_bands
     s; eq_presets := eq_presets s |}.
Definition with_eq_engaged (x : bool) (s : Settings) : Settings :=
  {| v := v s; resampling := resampling s; mixer_type := mixer_type s; mixer_device := mixer_device s;
     mixer_control := mixer_control s; dop := dop s; output_device := output_device s; volume_normalization :=
     volume_normalization s; startup_volume_percent := startup_volume_percent s; max_volume_percent :=
     max_volume_percent s; volume_curve := volume_curve s; exclusive_mode := exclusive_mode s;
     crossfade_seconds := crossfade_seconds s; gapless := gapless s; eq_engaged := x; eq_bands := eq_bands s;
     eq_presets := eq_presets s |}.
Definition with_eq_bands (x : list EqBand) (s : Settings) : Settings :=
  {| v := v s; resampling := resampling s; mixer_type := mixer_type s; mixer_device := mixer_device s;
     mixer_control := mixer_control s; dop := dop s; output_device := output_device s; volume_normalization :=
     volume_normalization s; startup_volume_percent := startup_volume_percent s; max_volume_percent :=
     max_volume_percent s; volume_curve := volume_curve s; exclusive_mode := exclusive_mode s;
     crossfade_seconds := crossfade_seconds s; gapless := gapless s; eq_engaged := eq_engaged s; eq_bands :=
     x; eq_presets := eq_presets s |}.
Definition with_eq_presets (x : list NamedEqPreset) (s : Settings) : Settings :=
  {| v := v s; resampling := resampling s; mixer_type := mixer_type s; mixer_device := mixer_device s;
     mixer_control := mixer_control s; dop := dop s; output_device := output_device s; volume_normalization :=
     volume_normalization s; startup_volume_percent := startup_volume_percent s; max_volume_percent :=
     max_volume_percent s; volume_curve := volume_curve s; exclusive_mode := exclusive_mode s;
     crossfade_seconds := crossfade_seconds s; gapless := gapless s; eq_engaged := eq_engaged s; eq_bands :=
     eq_bands s; eq_presets := x |}.

(** ** Actions *)

(** A file of the state directory: [state_path] is always [state_dir] joined with a name. *)
Record File := { dir : str; fname : str }.
#[export] Instance File_eq_dec : EqDecision File.
Proof. solve_decision. Defined.
#[export] Instance File_countable : Countable File.
Proof.
  apply (inj_countable' (fun f => (dir f, fname f)) (fun '(d, n) => {| dir := d; fname := n |})).
  by intros [].
Defined.

(** [std::io::Error], by what the code asks of it. *)
Inductive IoError := NotFound | OtherIo (e : str).

(** [EnvelopeState], [EnvelopeObserved], and what the stream of a subject yields: a state
    ([None] when it is absent or is not an observation), a gap, or its end. *)
Inductive EnvelopeState := Muted | Unmuted.
#[export] Instance EnvelopeState_eq_dec : EqDecision EnvelopeState.
Proof. solve_decision. Defined.
Record EnvelopeObserved := { o_generation : N; observed_state : EnvelopeState }.
Inductive Received := StateUpdate (parsed : option EnvelopeObserved) | Lagged | Closed | Quiet.

(** What is sent out: the changed event of a field with all the settings, the settings
    subject, a request to the warden, and the four events of a transition. *)
Inductive Value :=
  | VBool (b : bool) | VNumber (n : N) | VString (s : str) | VPolicy (p : ResamplingPolicy)
  | VBands (l : list EqBand) | VPresets (l : list NamedEqPreset) | VSettings (s : Settings).
Inductive Notice :=
  | Changed (field : str) (new_value : Value) (all : Settings)
  | SettingsState (s : Settings)
  | AnnouncedSettings (s : Settings)
  | AnnouncedEnvelope
  | EnvelopeRequest (generation : N) (state : EnvelopeState)
  | Started (from to : MixerType)
  | AppliedMixer (from to : MixerType) (carried_level effective_level : N)
  | RolledBackMixer (from to : MixerType) (at_phase reason : str)
  | FailedMixer (from to : MixerType) (at_phase reason : str).

Inductive AckFailure := AckClosed | AckTimeout (generation : N) (expected : EnvelopeState).

(** One action on what the handlers share.  A call of the file system that does several
    things ([fs::write], [fs::copy]) is several actions, over the inodes it opens. *)
Inductive Act : Type -> Type :=
| Update {R : Type} (f : Settings -> Settings * R) : Act R
| Exists (f : File) : Act bool
| OpenRead (f : File) : Act (result N IoError)
| ReadAll (i : N) : Act (result str IoError)
| OpenTruncate (f : File) : Act (result N IoError)
| OpenWrite (f : File) : Act (result N IoError)
| Fill (i : N) (s : str) : Act (result unit IoError)
| SyncAll (i : N) : Act (result unit IoError)
| CreateDirAll (d : str) : Act (result unit IoError)
| Rename (a b : File) : Act (result unit IoError)
| Say (n : Notice) : Act unit
| CountRequest : Act unit
| NextGeneration : Act N
| CachedChannel : Act bool
| Resolve : Act (result bool str)
| Subscribe : Act (result unit str)
| CacheChannel : Act unit
| AwaitMatch (generation : N) (expected : EnvelopeState) : Act (result unit AckFailure)
| LockTransition : Act unit
| UnlockTransition : Act unit.

Inductive Prog (A : Type) : Type :=
| Ret (a : A)
| Do {R : Type} (e : Act R) (k : R -> Prog A).
Arguments Ret {A} a.
Arguments Do {A R} e k.

Fixpoint pbind {A B} (p : Prog A) (f : A -> Prog B) : Prog B :=
  match p with
  | Ret a => f a
  | Do e k => Do e (fun r => pbind (k r) f)
  end.
Definition act {R} (e : Act R) : Prog R := Do e Ret.

Notation "'let!' x ':=' p 'in' k" := (pbind p (fun x => k))
  (at level 10, x pattern, p at level 100, k at level 200) : evo_scope.

(** Early return of an error: [?]. *)
Notation "'try!' x ':=' p 'in' k" :=
  (pbind p (fun o => match o with Ok x => k | Err err => Ret (Err err) end))
  (at level 10, x pattern, p at level 100, k at level 200) : evo_scope.

(** [tokio::time::timeout]: the program is dropped after [n] actions. *)
Fixpoint within {A} (n : nat) (p : Prog A) {struct p} : Prog (option A) :=
  match p with
  | Ret a => Ret (Some a)
  | Do e k => match n with O => Ret None | S n' => Do e (fun r => within n' (k r)) end
  end.

(** ** The world *)

(** How the next call of the outside goes: well, or with an error, leaving [leftover] in
    the file it was writing. *)
Inductive Fate := Fine | Broken (e : str) (leftover : str).

(** The files are names of inodes, and an inode has its contents. *)
Record World := {
  settings : Settings;
  names : gmap File N;
  inodes : gmap N str;
  fresh : N;
  fates : list Fate;
  said : list Notice;
  requests : N;
  generation : N;
  channel : bool;
  warden : option (list Received);
  locked : bool }.

(** A world with one part replaced. *)
Definition set_settings (s : Settings) (w : World) : World :=
  {| settings := s; names := names w; inodes := inodes w; fresh := fresh w; fates := fates w;
     said := said w; requests := requests w; generation := generation w; channel := channel w;
     warden := warden w; locked := locked w |}.
Definition set_files (n : gmap File N) (i : gmap N str) (nx : N) (w : World) : World :=
  {| settings := settings w; names := n; inodes := i; fresh := nx; fates := fates w;
     said := said w; requests := requests w; generation := generation w; channel := channel w;
     warden := warden w; locked := locked w |}.
Definition set_fates (l : list Fate) (w : World) : World :=
  {| settings := settings w; names := names w; inodes := inodes w; fresh := fresh w; fates := l;
     said := said w; requests := requests w; generation := generation w; channel := channel w;
     warden := warden w; locked := locked w |}.
Definition say (n : Notice) (w : World) : World :=
  {| settings := settings w; names := names w; inodes := inodes w; fresh := fresh w; fates := fates w;
     said := said w ++ [n]; requests := requests w; generation := generation w; channel := channel w;
     warden := warden w; locked := locked w |}.
Definition set_counters (r g : N) (w : World) : World :=
  {| settings := settings w; names := names w; inodes := inodes w; fresh := fresh w; fates := fates w;
     said := said w; requests := r; generation := g; channel := channel w;
     warden := warden w; locked := locked w |}.
Definition set_channel (c : bool) (l : option (list Received)) (w : World) : World :=
  {| settings := settings w; names := names w; inodes := inodes w; fresh := fresh w; fates := fates w;
     said := said w; requests := requests w; generation := generation w; channel := c;
     warden := l; locked := locked w |}.
Definition set_locked (b : bool) (w : World) : World :=
  {| settings := settings w; names := names w; inodes := inodes w; fresh := fresh w; fates := fates w;
     said := said w; requests := requests w; generation := generation w; channel := channel w;
     warden := warden w; locked := b |}.

(** A call of the outside takes its fate; after the last one they all go well. *)
Definition next_fate (w : World) : Fate := default Fine (head (fates w)).
Definition fated {R} (w : World) (fine : World -> World * R) (broken : str -> str -> World -> World * R)
  : World * R :=
  let w' := set_fates (tail (fates w)) w in
  match next_fate w with Fine => fine w' | Broken e leftover => broken e leftover w' end.
Definition refuse {R} (e leftover : str) (w : World) : World * result R IoError := (w, Err (OtherIo e)).

(** Writing at the start of a file: what was there beyond the text stays. *)
Definition overwrite (old s : str) : str := s ++ drop (length s) old.

(** [observation_matches] *)
Definition observation_matches (observed : EnvelopeObserved) (expected_generation : N)
    (expected_state : EnvelopeState) : bool :=
  (o_generation observed =? expected_generation) && bool_decide (observed_state observed = expected_state).

(** The loop of [await_envelope_ack] over what the stream yields.  [Quiet] is the end of
    the budget of a wait; a stream with nothing more is quiet, and one that is closed
    stays closed. *)
Fixpoint recv_loop (gen : N) (expected : EnvelopeState) (stream : list Received)
  : list Received * result unit AckFailure :=
  match stream with
  | [] => ([], Err (AckTimeout gen expected))
  | Quiet :: rest => (rest, Err (AckTimeout gen expected))
  | Closed :: _ => (stream, Err AckClosed)
  | StateUpdate (Some obs) :: rest =>
      if observation_matches obs gen expected then (rest, Ok tt) else recv_loop gen expected rest
  | StateUpdate None :: rest | Lagged :: rest => recv_loop gen expected rest
  end.

(** One action. *)
Definition perform {R} (e : Act R) (w : World) : World * R :=
  match e with
  | Update f => let (s, r) := f (settings w) in (set_settings s w, r)
  | Exists f => (w, bool_decide (is_Some (names w !! f)))
  | OpenRead f | OpenWrite f =>
      fated w (fun w => (w, match names w !! f with Some i => Ok i | None => Err NotFound end)) refuse
  | ReadAll i => fated w (fun w => (w, Ok (default [] (inodes w !! i)))) refuse
  | OpenTruncate f =>
      fated w
        (fun w => match names w !! f with
                  | Some i => (set_files (names w) (<[i := []]> (inodes w)) (fresh w) w, Ok i)
                  | None => (set_files (<[f := fresh w]> (names w)) (<[fresh w := []]> (inodes w)) (fresh w + 1) w,
                             Ok (fresh w))
                  end) refuse
  | Fill i s =>
      let put t w := set_files (names w) (<[i := overwrite (default [] (inodes w !! i)) t]> (inodes w)) (fresh w) w in
      fated w (fun w => (put s w, Ok tt)) (fun e leftover w => (put leftover w, Err (OtherIo e)))
  | SyncAll _ | CreateDirAll _ => fated w (fun w => (w, Ok tt)) refuse
  | Rename a b =>
      fated w
        (fun w => match names w !! a with
                  | Some i => (set_files (<[b := i]> (delete a (names w))) (inodes w) (fresh w) w, Ok tt)
                  | None => (w, Err NotFound)
                  end) refuse
  | Say n => (say n w, tt)
  | CountRequest => (set_counters (requests w + 1) (generation w) w, tt)
  | NextGeneration =>
      let g := (generation w + 1) mod (U64_MAX + 1) in (set_counters (requests w) g w, g)
  | CachedChannel => (w, channel w)
  | Resolve => fated w (fun w => (w, Ok (bool_decide (is_Some (warden w))))) (fun e _ w => (w, Err e))
  | Subscribe => fated w (fun w => (w, Ok tt)) (fun e _ w => (w, Err e))
  | CacheChannel => (set_channel true (warden w) w, tt)
  | AwaitMatch gen expected =>
      let (rest, r) := recv_loop gen expected (default [] (warden w)) in
      (set_channel (channel w) (Some rest) w, r)
  | LockTransition => (set_locked true w, tt)
  | UnlockTransition => (set_locked false w, tt)
  end.

(** A program alone. *)
Fixpoint run {A} (p : Prog A) (w : World) : World * A :=
  match p with
  | Ret a => (w, a)
  | Do e k => let (w', r) := perform e w in run (k r) w'
  end.

(** The world after the first [n] actions: where a crash finds it. *)
Fixpoint crash {A} (n : nat) (p : Prog A) (w : World) {struct p} : World :=
  match p, n with
  | Do e k, S n' => let (w', r) := perform e w in crash n' (k r) w'
  | _, _ => w
  end.

(** Only the transition lock makes a program wait. *)
Definition can_run {R} (e : Act R) (w : World) : bool :=
  match e with LockTransition => negb (locked w) | _ => true end.
Definition step {A} (p : Prog A) (w : World) : option (World * Prog A) :=
  match p with
  | Ret _ => None
  | Do e k => if can_run e w then let (w', r) := perform e w in Some (w', k r) else None
  end.

(** Several programs, in the order [schedule] gives them actions. *)
Fixpoint interleave {A} (schedule : list nat) (ps : list (Prog A)) (w : World) : World * list (Prog A) :=
  match schedule with
  | [] => (w, ps)
  | i :: schedule' =>
      match ps !! i with
      | Some p =>
          match step p w with
          | Some (w', p') => interleave schedule' (<[i := p']> ps) w'
          | None => interleave schedule' ps w
          end
      | None => interleave schedule' ps w
      end
  end.

(** ** Errors *)

(** What a refusal says: one constructor for each message of the code, with what it
    formats in. *)
Inductive Message :=
  | NotLoaded | DeadlineExpired | UnknownRequest (request_type : str)
  | NotJson (request_type e : str) | VersionUnsupported (request_type : str) (version : N)
  | NoStatePath | SerialiseError (e : str)
  | MkdirFailed (d : str) (e : IoError) | WriteFailed (f : File) (e : IoError)
  | OpenFailed (f : File) (e : IoError) | FsyncFailed (f : File) (e : IoError)
  | RenameFailed (a b : File) (e : IoError)
  | StateUnreadable (f : File) (e : IoError) | StateUnparsable (f : File) (e : str)
  | NoLastKnownGood (f : File) | LastKnownGoodUnreadable (f : File) (e : IoError)
  | LastKnownGoodUnparsable (f : File) (e : str)
  | BadQuality (got : str) | BadMixerType (got : str) | HardwareNeedsCoordinates
  | BadVolumeCurve (got : str) | WhitespaceOnly (field : str)
  | CrossfadeRange (got : N) | PercentRange (field : str) (got : N) | StartupAboveMax (got ceiling : N)
  | BandIndexRange (got : N) | BandFreqRange (got : N) | BandGainRange (got : f32) | BandQRange (got : f32)
  | PresetNameEmpty | PresetNameLong (len : N) | PresetBandCount (got : nat)
  | PresetFreqRange (i : nat) (got : N) | PresetGainRange (i : nat) (got : f32) | PresetQRange (i : nat) (got : f32)
  | PresetCap | PresetUnknown (n : str) | PresetDrift (n : str) (got : nat)
  | TransitionRolledBack (at_phase reason : str) | TransitionFailed (at_phase reason : str).
Inductive PluginError := Permanent (m : Message) | Transient (m : Message).

(** ** The plugin *)

Section plugin.
(** [toml] writes and reads the settings; [report] is the text of an error. *)
Context (to_toml : Settings -> result str str) (from_toml : str -> result Settings str)
  (report : PluginError -> str).

(** What [load] fixes: the file, and the handles of [LoadContext]. *)
Record Handles := {
  loaded : bool; state_path : option File;
  happening_emitter : bool; subject_announcer : bool;
  subject_state_subscriber : bool; subject_querier : bool }.
Variable self : Handles.

(** [last_known_good_path], and the staging file of a write. *)
Definition last_known_good_path (path : File) : File :=
  {| dir := dir path; fname := fname path ++ lit ".lkg" |}.
Definition staging_path (path : File) : File :=
  {| dir := dir path; fname := lit "." ++ fname path ++ lit ".tmp" |}.

(** [PlaybackOptionsPlugin::settings] *)
Definition current : Prog Settings := act (Update (fun s => (s, s))).
Definition assign (s : Settings) : Prog unit := act (Update (fun _ => (s, tt))).

(** [tokio::fs::read_to_string], [write], [copy] *)
Definition read_to_string (f : File) : Prog (result str IoError) :=
  try! i := act (OpenRead f) in act (ReadAll i).
Definition write (f : File) (body : str) : Prog (result unit IoError) :=
  try! i := act (OpenTruncate f) in act (Fill i body).
Definition copy (a b : File) : Prog (result unit IoError) :=
  try! i := act (OpenRead a) in
  try! j := act (OpenTruncate b) in
  try! body := act (ReadAll i) in
  act (Fill j body).

Definition or_permanent {A} (m : IoError -> Message) (p : Prog (result A IoError)) : Prog (result A PluginError) :=
  let! r := p in Ret (map_err (fun e => Permanent (m e)) r).

(** The staged write that [persist_settings] and [restore_from_last_known_good] end with. *)
Definition write_in_place (path : File) (body : str) : Prog (result unit PluginError) :=
  try! _ := or_permanent (WriteFailed (staging_path path)) (write (staging_path path) body) in
  try! i := or_permanent (OpenFailed (staging_path path)) (act (OpenWrite (staging_path path))) in
  try! _ := or_permanent (FsyncFailed (staging_path path)) (act (SyncAll i)) in
  or_permanent (RenameFailed (staging_path path) path) (act (Rename (staging_path path) path)).

(** [load_settings_from_disk] *)
Definition load_settings_from_disk : Prog (result Settings PluginError) :=
  match state_path self with
  | None => Ret (Ok Settings_default)
  | Some path =>
      let! r := read_to_string path in
      Ret match r with
          | Ok body => map_err (fun e => Permanent (StateUnparsable path e)) (from_toml body)
          | Err NotFound => Ok Settings_default
          | Err e => Err (Permanent (StateUnreadable path e))
          end
  end.

(** [persist_settings]: a copy that fails is only logged. *)
Definition persist_settings : Prog (result unit PluginError) :=
  match state_path self with
  | None => Ret (Err (Permanent NoStatePath))
  | Some path =>
      let! there := act (Exists path) in
      let! _ := (if there then copy path (last_known_good_path path) else Ret (Ok tt)) in
      let! snapshot := current in
      match to_toml snapshot with
      | Err e => Ret (Err (Permanent (SerialiseError e)))
      | Ok body =>
          try! _ := or_permanent (MkdirFailed (dir path)) (act (CreateDirAll (dir path))) in
          write_in_place path body
      end
  end.

(** [restore_from_last_known_good] *)
Definition restore_from_last_known_good : Prog (result Settings PluginError) :=
  match state_path self with
  | None => Ret (Err (Permanent NoStatePath))
  | Some path =>
      let lkg := last_known_good_path path in
      let! there := act (Exists lkg) in
      if negb there then Ret (Err (Permanent (NoLastKnownGood lkg)))
      else
        try! body := or_permanent (LastKnownGoodUnreadable lkg) (read_to_string lkg) in
        match from_toml body with
        | Err e => Ret (Err (Permanent (LastKnownGoodUnparsable lkg e)))
        | Ok s => try! _ := write_in_place path body in Ret (Ok s)
        end
  end.

(** [publish_settings_state], [emit_changed]: the state is published by a task of its own. *)
Definition publish_settings_state : Prog unit :=
  if subject_announcer self then
    let! s := current in act (Say (SettingsState s))
  else Ret tt.
Definition emit_changed (field : str) (new_value : Value) : Prog unit :=
  let! _ := (if happening_emitter self then
               let! s := current in act (Say (Changed field new_value s))
             else Ret tt) in
  publish_settings_state.

(** [announce_settings_subject], [announce_envelope_requested_subject] *)
Definition announce_settings_subject : Prog unit :=
  if subject_announcer self then let! s := current in act (Say (AnnouncedSettings s)) else Ret tt.
Definition announce_envelope_requested_subject : Prog unit :=
  if subject_announcer self then act (Say AnnouncedEnvelope) else Ret tt.
End plugin.

(** ** Running a program *)

(** [I] holds before every action and at the end, where [Q] holds of the answer. *)
Fixpoint holds (I : World -> Prop) {A} (p : Prog A) (Q : World -> A -> Prop) (w : World) : Prop :=
  I w /\ match p with
         | Ret a => Q w a
         | Do e k => let (w', r) := perform e w in holds I (k r) Q w'
         end.

Lemma holds_compose I {A B} (p : Prog A) (k : A -> Prog B) Q w :
  holds I p (fun w' a => holds I (k a) Q w') w -> holds I (pbind p k) Q w.
Proof.
  revert w. induction p as [a|R e f IH]; intros w; cbn [pbind holds]; [tauto|].
  destruct (perform e w) as [w' r]. intros [HI H]. split; [done|]. by apply IH.
Qed.

Lemma holds_mono (I J : World -> Prop) {A} (p : Prog A) (Q R : World -> A -> Prop) w :
  (forall w, I w -> J w) -> (forall w a, I w -> Q w a -> R w a) -> holds I p Q w -> holds J p R w.
Proof.
  intros HJ HR. revert w. induction p as [a|X e f IH]; intros w; cbn [holds]; [intros [? ?]; auto|].
  destruct (perform e w) as [w' r]. intros [HI H]. split; [auto|]. by apply IH.
Qed.

Lemma holds_start I {A} (p : Prog A) Q w : holds I p Q w -> I w.
Proof. destruct p; cbn [holds]; tauto. Qed.

Lemma holds_run I {A} (p : Prog A) Q w : holds I p Q w -> I (run p w).1 /\ Q (run p w).1 (run p w).2.
Proof.
  revert w. induction p as [a|R e f IH]; intros w; cbn [holds run]; [tauto|].
  destruct (perform e w) as [w' r]. intros [_ H]. by apply IH.
Qed.

Lemma holds_crash I {A} n (p : Prog A) Q w : holds I p Q w -> I (crash n p w).
Proof.
  revert n w. induction p as [a|R e f IH]; intros [|n] w; cbn [holds crash]; try tauto.
  destruct (perform e w) as [w' r]. intros [_ H]. by apply IH.
Qed.

Lemma holds_done (I : World -> Prop) {A} (a : A) (Q : World -> A -> Prop) w : I w -> Q w a -> holds I (Ret a) Q w.
Proof. done. Qed.

Lemma run_bind {A B} (p : Prog A) (k : A -> Prog B) w :
  run (pbind p k) w = run (k (run p w).2) (run p w).1.
Proof.
  revert w. induction p as [a|R e f IH]; intros w; cbn [pbind run]; [done|].
  destruct (perform e w) as [w' r]. apply IH.
Qed.

(** A program cut short stays within what the whole program keeps. *)
Lemma holds_within I {A} n (p : Prog A) Q w :
  holds I p Q w -> holds I (within n p) (fun w' o => forall a, o = Some a -> Q w' a) w.
Proof.
  revert n w. induction p as [a|R e f IH]; intros n w; cbn [holds within].
  - intros [HI HQ]. split; [done|]. cbn beta. by intros ? [= <-].
  - destruct n as [|n]; cbn [holds]; [by intros [HI _]|].
    destruct (perform e w) as [w' r]. intros [HI H]. split; [done|]. by apply IH.
Qed.

(** ** The files *)

Definition content (w : World) (f : File) : option str := i ← names w !! f; inodes w !! i.

(** Every name has an inode of its own, allocated before. *)
Record fs_ok (w : World) : Prop := {
  named : forall f i, names w !! f = Some i -> i < fresh w /\ is_Some (inodes w !! i);
  distinct : forall f g i, names w !! f = Some i -> names w !! g = Some i -> f = g }.

(** What is not of the files. *)
Definition meta (w : World) :=
  (settings w, said w, requests w, generation w, channel w, warden w, locked w).

(** [w'] differs from [w] in the files of [fs] only. *)
Record only (fs : list File) (w w' : World) : Prop := {
  only_ok : fs_ok w';
  only_meta : meta w' = meta w;
  only_content : forall f, f ∉ fs -> content w' f = content w f }.

Lemma only_refl fs w : fs_ok w -> only fs w w.
Proof. by split. Qed.
Lemma only_trans fs w1 w2 w3 : only fs w1 w2 -> only fs w2 w3 -> only fs w1 w3.
Proof.
  intros [? ? H1] [? ? H2]. split; [done|congruence|]. intros f Hf. by rewrite H2, H1.
Qed.
Lemma only_weaken fs gs w w' : fs ⊆ gs -> only fs w w' -> only gs w w'.
Proof. intros Hs [? ? H]. split; [done..|]. intros f Hf. apply H. set_solver. Qed.

Lemma content_ok w f i : fs_ok w -> names w !! f = Some i -> content w f = inodes w !! i.
Proof. intros _ H. unfold content. by rewrite H. Qed.
Lemma content_None w f : fs_ok w -> content w f = None <-> names w !! f = None.
Proof.
  intros Hok. unfold content. destruct (names w !! f) as [i|] eqn:E; cbn; [|done].
  destruct (named w Hok f i E) as [_ [b ->]]. done.
Qed.

(** A call that fails, or that changes nothing. *)
Lemma fated_cases {R} w (fine : World -> World * R) broken (P : World * R -> Prop) :
  P (fine (set_fates (tail (fates w)) w)) ->
  (forall e l, fates w <> [] -> P (broken e l (set_fates (tail (fates w)) w))) ->
  P (fated w fine broken).
Proof.
  unfold fated, next_fate. destruct (fates w) as [|[|e l] fs]; cbn; intros H1 H2; auto.
Qed.

Lemma only_fates fs l w : fs_ok w -> only fs w (set_fates l w).
Proof. intros [H1 H2]. split; [by split|done|done]. Qed.
Lemma fates_tail w : fates w = [] -> tail (fates w) = [].
Proof. by intros ->. Qed.

(** What is known after a call: where it may have written, that without faults there is no
    fault after it either, and what its answer says. *)
Definition called (fs : list File) (w w' : World) : Prop :=
  only fs w w' /\ (fates w = [] -> fates w' = []).

Lemma called_refl fs w : fs_ok w -> called fs w w.
Proof. split; [by apply only_refl|done]. Qed.
Lemma called_trans fs w1 w2 w3 : called fs w1 w2 -> called fs w2 w3 -> called fs w1 w3.
Proof. intros [? ?] [? ?]. split; [by eapply only_trans|auto]. Qed.
Lemma called_weaken fs gs w w' : fs ⊆ gs -> called fs w w' -> called gs w w'.
Proof. intros ? [? ?]. split; [by eapply only_weaken|done]. Qed.
Lemma called_fates fs w : fs_ok w -> called fs w (set_fates (tail (fates w)) w).
Proof. split; [by apply only_fates|by apply fates_tail]. Qed.

Lemma holds_call fs {R} (e : Act R) (Q : World -> R -> Prop) w0 w :
  called fs w0 w -> called fs w (perform e w).1 -> Q (perform e w).1 (perform e w).2 ->
  holds (called fs w0) (act e) Q w.
Proof.
  intros H0 H1 HQ. unfold act. cbn [holds]. destruct (perform e w) as [w' r].
  split; [done|]. split; [|done]. by eapply called_trans.
Qed.

(** *** The calls, one by one *)

Lemma open_spec f w : fs_ok w ->
  called [] w (perform (OpenRead f) w).1 /\ perform (OpenWrite f) w = perform (OpenRead f) w /\
  names (perform (OpenRead f) w).1 = names w /\ inodes (perform (OpenRead f) w).1 = inodes w /\
  match (perform (OpenRead f) w).2 with
  | Ok i => names w !! f = Some i
  | Err e => fates w = [] -> names w !! f = None /\ e = NotFound
  end.
Proof.
  intros Hok. cbn [perform]. apply fated_cases; cbn.
  - split_and!; [by apply called_fates|done..|]. by destruct (names w !! f).
  - intros e l Hf. split_and!; [by apply called_fates|done..].
Qed.

Lemma read_spec i w : fs_ok w ->
  called [] w (perform (ReadAll i) w).1 /\
  names (perform (ReadAll i) w).1 = names w /\ inodes (perform (ReadAll i) w).1 = inodes w /\
  match (perform (ReadAll i) w).2 with
  | Ok b => b = default [] (inodes w !! i)
  | Err e => fates w <> []
  end.
Proof.
  intros Hok. cbn [perform]. apply fated_cases; cbn; [|intros e l Hf]; split_and!; first [done|by apply called_fates].
Qed.

Lemma set_files_inode_ok w i b : fs_ok w -> fs_ok (set_files (names w) (<[i:=b]> (inodes w)) (fresh w) w).
Proof.
  intros [H1 H2]. split; cbn; [|done]. intros f j Hj. destruct (H1 f j Hj) as [? ?]. split; [done|].
  destruct (decide (i = j)) as [->|]; [by rewrite lookup_insert_eq|by rewrite lookup_insert_ne].
Qed.

Lemma content_inode w f i b g : fs_ok w -> names w !! f = Some i ->
  content (set_files (names w) (<[i:=b]> (inodes w)) (fresh w) w) g = if decide (g = f) then Some b else content w g.
Proof.
  intros Hok Hf. unfold content; cbn. destruct (decide (g = f)) as [->|Hg].
  - rewrite Hf. cbn. by rewrite lookup_insert_eq.
  - destruct (names w !! g) as [j|] eqn:Ej; [|done]. cbn. apply lookup_insert_ne.
    intros <-. apply Hg. by apply (distinct w Hok g f i).
Qed.

(** A lone write: of an inode under the name it was opened by. *)
Lemma only_inode w f i b : fs_ok w -> names w !! f = Some i ->
  only [f] w (set_files (names w) (<[i:=b]> (inodes w)) (fresh w) w).
Proof.
  intros Hok Hf. split; [by apply set_files_inode_ok|done|]. intros g Hg.
  rewrite (content_inode w f i b g) by done. rewrite decide_False; [done|set_solver].
Qed.

Lemma truncate_spec f w : fs_ok w ->
  called [f] w (perform (OpenTruncate f) w).1 /\
  match (perform (OpenTruncate f) w).2 with
  | Ok i => names (perform (OpenTruncate f) w).1 !! f = Some i /\ inodes (perform (OpenTruncate f) w).1 !! i = Some []
            /\ forall g j, g <> f -> names w !! g = Some j -> names (perform (OpenTruncate f) w).1 !! g = Some j
  | Err e => fates w <> []
  end.
Proof.
  intros Hok. cbn [perform]. apply fated_cases; cbn; [|intros e l Hf; by split; [apply called_fates|]].
  set (w1 := set_fates (tail (fates w)) w).
  assert (Hok1 : fs_ok w1) by (by destruct (only_fates [] (tail (fates w)) w Hok)).
  destruct (names w !! f) as [i|] eqn:Ef; cbn.
  - split; [|split_and!; [done|by rewrite lookup_insert_eq|done]].
    apply (called_trans _ w w1); [by apply called_fates|]. split; [by apply (only_inode w1 f i [])|done].
  - split.
    + apply (called_trans _ w w1); [by apply called_fates|]. split; [|done]. split; [|done|].
      * split; cbn.
        -- intros g j. rewrite lookup_insert. case_decide.
           ++ intros [= <-]. split; [lia|by rewrite lookup_insert_eq].
           ++ intros Hg. destruct (named w Hok g j Hg) as [Hj ?]. split; [lia|]. by rewrite lookup_insert_ne by lia.
        -- intros g h j. rewrite !lookup_insert. do 2 case_decide; subst; try done.
           ++ intros [= <-] Hh. destruct (named w Hok _ _ Hh); lia.
           ++ intros Hh [= <-]. destruct (named w Hok _ _ Hh); lia.
           ++ apply (distinct w Hok).
      * intros g Hg. unfold content; cbn. rewrite lookup_insert_ne by set_solver.
        destruct (names w !! g) as [j|] eqn:Ej; [|done]. cbn. destruct (named w Hok g j Ej).
        by rewrite lookup_insert_ne by lia.
    + split_and!; [by rewrite lookup_insert_eq..|]. intros g j Hg Ej. by rewrite lookup_insert_ne.
Qed.

Lemma fill_spec f i s w : fs_ok w -> names w !! f = Some i ->
  called [f] w (perform (Fill i s) w).1 /\
  match (perform (Fill i s) w).2 with
  | Ok _ => content (perform (Fill i s) w).1 f = Some (overwrite (default [] (inodes w !! i)) s)
  | Err e => fates w <> []
  end.
Proof.
  intros Hok Hf. cbn [perform]. set (w1 := set_fates (tail (fates w)) w).
  assert (Hok1 : fs_ok w1) by (by destruct (only_fates [] (tail (fates w)) w Hok)).
  assert (forall b, called [f] w (set_files (names w1) (<[i:=b]> (inodes w1)) (fresh w1) w1)) as Hc.
  { intros b. apply (called_trans _ w w1); [by apply called_fates|]. split; [by apply only_inode|done]. }
  apply fated_cases; cbn; [|intros e l Hne]; (split; [apply Hc|]); [|done].
  rewrite (content_inode w1 f i _ f Hok1 Hf). by rewrite decide_True.
Qed.

Lemma quiet_spec (e : Act (result unit IoError)) w : fs_ok w -> (exists i, e = SyncAll i) \/ (exists d, e = CreateDirAll d) ->
  called [] w (perform e w).1 /\ names (perform e w).1 = names w /\
  match (perform e w).2 with Ok _ => True | Err _ => fates w <> [] end.
Proof.
  intros Hok [[i ->]|[d ->]]; cbn [perform]; apply fated_cases; cbn;
    [|intros ? ? ?| |intros ? ? ?]; split_and!; first [done|by apply called_fates].
Qed.

Lemma rename_spec a b w : fs_ok w -> a <> b ->
  called [a; b] w (perform (Rename a b) w).1 /\
  match (perform (Rename a b) w).2 with
  | Ok _ => content (perform (Rename a b) w).1 b = content w a
  | Err e => content (perform (Rename a b) w).1 b = content w b /\ (fates w = [] -> content w a = None)
  end.
Proof.
  intros Hok Hab. cbn [perform]. set (w1 := set_fates (tail (fates w)) w).
  assert (Hok1 : fs_ok w1) by (by destruct (only_fates [] (tail (fates w)) w Hok)).
  apply fated_cases; cbn; [|intros e l Hf; split_and!; first [done|by apply called_fates]].
  destruct (names w !! a) as [i|] eqn:Ea; cbn.
  - split; [|unfold content; cbn; by rewrite lookup_insert_eq, Ea].
    apply (called_trans _ w w1); [by apply called_fates|]. split; [|done]. split; [|done|].
    + split; cbn.
      * intros g j. rewrite lookup_insert. case_decide; [intros [= <-]; by apply (named w Hok a)|].
        rewrite lookup_delete. case_decide; [done|]. apply (named w Hok).
      * intros g h j. rewrite !lookup_insert, !lookup_delete. repeat case_decide; subst; try done.
        -- intros [= <-] Hh. by destruct (distinct w Hok a h i Ea Hh).
        -- intros Hh [= <-]. by destruct (distinct w Hok a g i Ea Hh).
        -- apply (distinct w Hok).
    + intros g Hg. unfold content; cbn. rewrite lookup_insert_ne, lookup_delete_ne; [done|set_solver..].
  - split; [apply (called_weaken []); [set_solver|by apply called_fates]|].
    split; [done|]. intros _. unfold content. by rewrite Ea.
Qed.

(** *** The programs on the files *)

(** [p], started where the files are well formed, writes to [fs] only, and ends as [Q]
    says of the worlds before and after. *)
Definition does (fs : list File) {A} (p : Prog A) (Q : World -> World -> A -> Prop) : Prop :=
  forall w, fs_ok w -> holds (called fs w) p (Q w) w.

Lemma called_ok fs w w' : called fs w w' -> fs_ok w'.
Proof. intros [[? _ _] _]. done. Qed.
Lemma called_content fs w w' f : called fs w w' -> f ∉ fs -> content w' f = content w f.
Proof. intros [[_ _ H] _]. apply H. Qed.
Lemma called_faults fs w w' : called fs w w' -> fates w' <> [] -> fates w <> [].
Proof. intros [_ H] Hne Hw. auto. Qed.

Lemma holds_does fs gs {A} (p : Prog A) R Q w0 w :
  called fs w0 w -> does gs p R -> gs ⊆ fs ->
  (forall w' a, called gs w w' -> called fs w0 w' -> R w w' a -> Q w' a) -> holds (called fs w0) p Q w.
Proof.
  intros H0 Hp Hs Hk. pose proof (called_ok _ _ _ H0) as Hok.
  assert (Hc : forall w', called gs w w' -> called fs w0 w').
  { intros w' Hw. eapply called_trans; [done|by eapply called_weaken]. }
  eapply holds_mono; [exact Hc| |exact (Hp w Hok)]. intros w' a Hw HR. eauto.
Qed.

Lemma holds_step fs gs {A B} (p : Prog A) R (k : A -> Prog B) Q w0 w :
  called fs w0 w -> does gs p R -> gs ⊆ fs ->
  (forall w' a, called gs w w' -> called fs w0 w' -> R w w' a -> holds (called fs w0) (k a) Q w') ->
  holds (called fs w0) (pbind p k) Q w.
Proof. intros. apply holds_compose. by eapply holds_does. Qed.

Lemma does_act fs {R} (e : Act R) (Q : World -> World -> R -> Prop) :
  (forall w, fs_ok w -> called fs w (perform e w).1 /\ Q w (perform e w).1 (perform e w).2) -> does fs (act e) Q.
Proof.
  intros H w Hok. destruct (H w Hok) as [? ?]. by apply (holds_call fs e (Q w) w w); [apply called_refl|..].
Qed.

Definition opens (f : File) (w w' : World) (r : result N IoError) : Prop :=
  names w' = names w /\ inodes w' = inodes w /\
  match r with Ok i => names w !! f = Some i | Err e => fates w = [] -> content w f = None /\ e = NotFound end.
Lemma does_open_read f : does [] (act (OpenRead f)) (opens f).
Proof.
  apply does_act. intros w Hok. destruct (open_spec f w Hok) as (H & _ & Hn & Hi & Hr).
  unfold opens. split_and!; [done..|]. revert Hr. destruct (perform (OpenRead f) w).2; [done|].
  intros Hr Hf. rewrite content_None by done. by apply Hr.
Qed.
Lemma does_open_write f : does [] (act (OpenWrite f)) (opens f).
Proof.
  apply does_act. intros w Hok. destruct (open_spec f w Hok) as (H & -> & Hn & Hi & Hr).
  unfold opens. split_and!; [done..|]. revert Hr. destruct (perform (OpenRead f) w).2; [done|].
  intros Hr Hf. rewrite content_None by done. by apply Hr.
Qed.

Lemma does_write f body :
  does [f] (write f body) (fun w w' r =>
    match r with Ok _ => content w' f = Some body | Err _ => fates w <> [] end).
Proof.
  intros w Hok. unfold write. apply holds_compose.
  destruct (truncate_spec f w Hok) as [H1 H2]. apply (holds_call [f] _ _ w w); [by apply called_refl|done|].
  destruct (perform (OpenTruncate f) w) as [w1 [i|e]]; cbn [fst snd] in *; [|by apply holds_done].
  destruct H2 as (Hn & Hi & _). destruct (fill_spec f i body w1 (called_ok _ _ _ H1) Hn) as [H3 H4].
  apply (holds_call [f] _ _ w w1); [done..|].
  destruct (perform (Fill i body) w1) as [w2 [u|e]]; cbn [fst snd] in *.
  - rewrite H4, Hi. cbn. unfold overwrite. by rewrite drop_nil, app_nil_r.
  - by eapply called_faults.
Qed.

Lemma does_copy a b : a <> b ->
  does [b] (copy a b) (fun w w' r =>
    match r with
    | Ok _ => content w' b = content w a
    | Err _ => fates w = [] -> content w a = None
    end).
Proof.
  intros Hab w Hok. unfold copy. eapply (holds_step [b] []); [by apply called_refl|apply does_open_read|set_solver|].
  intros w1 [i|e] H1 H1' (Hn1 & Hi1 & Hr1); [|apply holds_done; [done|]; intros Hf; by apply Hr1]. cbn beta iota. apply holds_compose.
  destruct (truncate_spec b w1 (called_ok _ _ _ H1)) as [H2 H2r].
  apply (holds_call [b] _ _ w w1); [done..|].
  destruct (perform (OpenTruncate b) w1) as [w2 [j|e]]; cbn [fst snd] in *.
  2: { apply holds_done; [by eapply called_trans|]. intros Hf. destruct H2r. by apply H1. }
  destruct H2r as (Hj & Hj0 & Hkeep). assert (H12 : called [b] w w2) by (by eapply called_trans).
  pose proof (called_ok _ _ _ H12) as Hok2. apply holds_compose.
  destruct (read_spec i w2 Hok2) as (H3 & Hn3 & Hi3 & H3r).
  apply (holds_call [b] _ _ w w2); [done|by eapply called_weaken, H3; set_solver|].
  destruct (perform (ReadAll i) w2) as [w3 [body|e]]; cbn [fst snd] in *.
  2: { apply holds_done; [eapply called_trans; [done|]; by eapply called_weaken, H3; set_solver|].
       intros Hf. destruct H3r. by apply H12. }
  assert (Hn2 : names w2 !! a = Some i) by (apply Hkeep; [done|by rewrite Hn1]).
  assert (Hbody : Some body = content w a).
  { rewrite <-(called_content _ _ _ a H12) by set_solver. unfold content. rewrite Hn2; cbn.
    destruct (named w2 Hok2 a i Hn2) as [_ [c Hc]]. rewrite H3r, Hc. done. }
  assert (H13 : called [b] w w3) by (eapply called_trans; [done|]; by eapply called_weaken, H3; set_solver).
  assert (Hn3j : names w3 !! b = Some j) by (by rewrite Hn3).
  destruct (fill_spec b j body w3 (called_ok _ _ _ H13) Hn3j) as [H4 H4r].
  apply (holds_call [b] _ _ w w3); [done..|].
  destruct (perform (Fill j body) w3) as [w4 [u|e]]; cbn [fst snd] in *.
  - rewrite H4r, Hi3, Hj0. cbn. unfold overwrite. by rewrite drop_nil, app_nil_r.
  - intros Hf. destruct H4r. by apply H13.
Qed.

Lemma does_read_to_string f :
  does [] (read_to_string f) (fun w w' r =>
    match r with
    | Ok b => content w f = Some b
    | Err e => fates w = [] -> content w f = None /\ e = NotFound
    end).
Proof.
  intros w Hok. unfold read_to_string.
  eapply (holds_step [] []); [by apply called_refl|apply does_open_read|set_solver|].
  intros w1 [i|e] H1 _ (Hn1 & Hi1 & Hr1); [|by apply holds_done]. cbn beta iota.
  destruct (read_spec i w1 (called_ok _ _ _ H1)) as (H3 & Hn3 & Hi3 & H3r).
  apply (holds_call [] _ _ w w1); [done..|].
  destruct (perform (ReadAll i) w1) as [w3 [body|e]]; cbn [fst snd] in *.
  - unfold content. rewrite Hr1; cbn. destruct (named w Hok f i Hr1) as [_ [c Hc]].
    by rewrite H3r, Hi1, Hc.
  - intros Hf. destruct H3r. by apply H1.
Qed.

Lemma does_quiet (e : Act (result unit IoError)) : (exists i, e = SyncAll i) \/ (exists d, e = CreateDirAll d) ->
  does [] (act e) (fun w w' r => match r with Ok _ => True | Err _ => fates w <> [] end).
Proof. intros He. apply does_act. intros w Hok. destruct (quiet_spec e w Hok He) as (? & _ & ?). done. Qed.

Lemma does_rename a b : a <> b ->
  does [a; b] (act (Rename a b)) (fun w w' r =>
    match r with
    | Ok _ => content w' b = content w a
    | Err _ => content w' b = content w b /\ (fates w = [] -> content w a = None)
    end).
Proof. intros Hab. apply does_act. intros w Hok. by apply rename_spec. Qed.

(** An error of the file system, reported. *)
Lemma does_or_permanent fs {A} (m : IoError -> Message) (p : Prog (result A IoError)) Q R :
  does fs p Q ->
  (forall w w' a, Q w w' (Ok a) -> R w w' (Ok a)) ->
  (forall w w' e, Q w w' (Err e) -> R w w' (Err (Permanent (m e)))) ->
  does fs (or_permanent m p) R.
Proof.
  intros Hp H1 H2 w Hok. unfold or_permanent. eapply holds_step; [by apply called_refl|exact Hp|done|].
  intros w' [a|e] Hw _ HQ; apply holds_done; cbn; auto.
Qed.

(** One call after another, under any invariant that the files written so far keep. *)
Lemma holds_seq (J : World -> Prop) gs {A B} (p : Prog A) R (k : A -> Prog B) Q w :
  fs_ok w -> does gs p R -> (forall w', called gs w w' -> J w') ->
  (forall w' a, called gs w w' -> R w w' a -> holds J (k a) Q w') ->
  holds J (pbind p k) Q w.
Proof.
  intros Hok Hp HJ Hk. apply holds_compose. eapply holds_mono; [exact HJ| |exact (Hp w Hok)].
  intros w' a Hw HR. by apply Hk.
Qed.

Lemma path_lkg path : last_known_good_path path <> path.
Proof.
  intros H. apply (f_equal (fun f => length (fname f))) in H. cbn [fname last_known_good_path staging_path] in H.
  rewrite length_app in H.
  change (length (lit ".lkg")) with 4%nat in H. lia.
Qed.
Lemma path_staging path : staging_path path <> path.
Proof.
  intros H. apply (f_equal (fun f => length (fname f))) in H. cbn [fname last_known_good_path staging_path] in H.
  rewrite !length_app in H.
  change (length (lit ".")) with 1%nat in H. lia.
Qed.
Lemma lkg_staging path : last_known_good_path path <> staging_path path.
Proof.
  intros H. apply (f_equal (fun f => length (fname f))) in H. cbn [fname last_known_good_path staging_path] in H.
  rewrite !length_app in H.
  change (length (lit ".lkg")) with 4%nat in H. change (length (lit ".")) with 1%nat in H.
  change (length (lit ".tmp")) with 4%nat in H. lia.
Qed.

Section store.
Context (to_toml : Settings -> result str str) (from_toml : str -> result Settings str).
Variable self : Handles.

(** The state file is what it was, or all of [body]. *)
Definition whole (path : File) (body : str) (w w' : World) : Prop :=
  content w' path = content w path \/ content w' path = Some body.

Lemma holds_write_in_place path body w : fs_ok w ->
  holds (fun w' => called [staging_path path; path] w w' /\ whole path body w w')
    (write_in_place path body)
    (fun w' r => match r with
                 | Ok _ => content w' path = Some body
                 | Err _ => content w' path = content w path /\ fates w <> []
                 end) w.
Proof.
  intros Hok. unfold write_in_place. pose proof (path_staging path) as Hne.
  assert (Hpre : forall w', called [staging_path path] w w' ->
            (called [staging_path path; path] w w' /\ whole path body w w') /\ content w' path = content w path).
  { intros w' Hw. assert (content w' path = content w path) as Hc by (apply (called_content _ _ _ _ Hw); set_solver).
    split; [|done]. split; [by eapply called_weaken, Hw; set_solver|by left]. }
  eapply (holds_seq _ [staging_path path]); [done| |by intros w' Hw; apply Hpre|].
  { apply (does_or_permanent _ _ _ _ (fun w w' r =>
      match r with Ok _ => content w' (staging_path path) = Some body | Err _ => fates w <> [] end)
      (does_write (staging_path path) body)); done. }
  intros w1 [u|e] H1 HR1; cbn beta iota in *; [|by apply holds_done; [by apply Hpre|split; [by apply Hpre|]]].
  eapply (holds_seq _ []); [by eapply called_ok| | |].
  { apply (does_or_permanent _ _ _ _ (fun w w' r =>
      match r with Ok _ => True | Err _ => fates w = [] -> content w (staging_path path) = None end)
      (does_open_write (staging_path path))); [done|]. intros x x' e (_ & _ & He) Hf. by apply He. }
  { intros w2 H2. apply Hpre. eapply called_trans; [done|]. by eapply called_weaken, H2; set_solver. }
  intros w2 r2 H2 HR2. assert (H12 : called [staging_path path] w w2).
  { eapply called_trans; [done|]. by eapply called_weaken, H2; set_solver. }
  destruct r2 as [i|e]; cbn beta iota in *.
  2: { apply holds_done; [by apply Hpre|]. split; [by apply Hpre|]. intros Hf.
       assert (fates w1 = []) as Hf1 by (by apply H1). rewrite (HR2 Hf1) in HR1. done. }
  eapply (holds_seq _ []); [by eapply called_ok| | |].
  { apply (does_or_permanent _ _ _ _ (fun w w' r =>
      match r with Ok _ => True | Err _ => fates w <> [] end)
      (does_quiet (SyncAll i) (or_introl (ex_intro _ i eq_refl)))); done. }
  { intros w3 H3. apply Hpre. eapply called_trans; [done|]. by eapply called_weaken, H3; set_solver. }
  intros w3 r3 H3 HR3. assert (H13 : called [staging_path path] w w3).
  { eapply called_trans; [done|]. by eapply called_weaken, H3; set_solver. }
  destruct r3 as [u3|e]; cbn beta iota in *.
  2: { apply holds_done; [by apply Hpre|]. split; [by apply Hpre|]. exact (called_faults _ _ _ H12 HR3). }
  assert (Hst : content w3 (staging_path path) = Some body).
  { rewrite (called_content [] w2 w3 _ H3), (called_content [] w1 w2 _ H2) by apply not_elem_of_nil. done. }
  unfold or_permanent, act. cbn [pbind holds].
  destruct (rename_spec (staging_path path) path w3 (called_ok _ _ _ H13) Hne) as [H4 H4r].
  split; [by apply Hpre|].
  destruct (perform (Rename (staging_path path) path) w3) as [w4 [u4|e]]; cbn [fst snd holds map_err] in *.
  - assert (Hc : content w4 path = Some body) by congruence.
    split; [|done]. split; [|by right]. eapply called_trans; [|done]. by eapply called_weaken, H13; set_solver.
  - destruct H4r as [Hc Hs]. assert (Hcw : content w4 path = content w path).
    { rewrite Hc. by apply Hpre. }
    split; [split; [|by left]|split; [done|]].
    + eapply called_trans; [|done]. by eapply called_weaken, H13; set_solver.
    + intros Hf. assert (fates w3 = []) as Hf3 by (by apply H13). rewrite (Hs Hf3) in Hst. done.
Qed.

Lemma set_settings_same w : set_settings (settings w) w = w.
Proof. by destruct w. Qed.

Lemma holds_current (I : World -> Prop) {A} (k : Settings -> Prog A) Q w :
  I w -> holds I (k (settings w)) Q w -> holds I (let! s := current in k s) Q w.
Proof.
  intros HI Hk. unfold current, act. cbn [pbind holds perform]. rewrite set_settings_same. done.
Qed.
Lemma holds_exists (I : World -> Prop) f {A} (k : bool -> Prog A) Q w :
  fs_ok w -> I w -> holds I (k (bool_decide (is_Some (content w f)))) Q w ->
  holds I (let! b := act (Exists f) in k b) Q w.
Proof.
  intros Hok HI Hk. unfold act. cbn [pbind holds perform]. split; [done|].
  rewrite (bool_decide_ext _ (is_Some (content w f))); [done|].
  rewrite <-!not_eq_None_Some, content_None by done. done.
Qed.

(** At every moment the state file is the old one or all of the new. *)
Definition old_or_new (path : File) (w w' : World) : Prop :=
  content w' path = content w path \/
  exists body, to_toml (settings w) = Ok body /\ content w' path = Some body.
Definition store_files (path : File) : list File := [last_known_good_path path; staging_path path; path].

Definition persisted (path : File) (w w' : World) (r : result unit PluginError) : Prop :=
  match r with
  | Ok _ => exists body, to_toml (settings w) = Ok body /\ content w' path = Some body
  | Err _ => content w' path = content w path /\ (fates w <> [] \/ exists e, to_toml (settings w) = Err e)
  end /\
  (fates w = [] -> forall old, content w path = Some old -> content w' (last_known_good_path path) = Some old).

Lemma holds_snapshot path w : fs_ok w ->
  holds (called [last_known_good_path path] w)
    (if bool_decide (is_Some (content w path)) then copy path (last_known_good_path path) else Ret (Ok tt))
    (fun w' _ => fates w = [] -> forall old, content w path = Some old ->
                 content w' (last_known_good_path path) = Some old) w.
Proof.
  intros Hok. pose proof (path_lkg path). case_bool_decide as Hthere.
  - eapply holds_mono; [exact (fun w H => H)| |by apply (does_copy path (last_known_good_path path)); [congruence|]].
    intros w1 [u|e] _ H1 Hf old Hold; [congruence|]. by rewrite (H1 Hf) in Hold.
  - apply holds_done; [by apply called_refl|]. intros _ old Hold. destruct Hthere. by rewrite Hold.
Qed.

Lemma holds_persist path w : fs_ok w -> state_path self = Some path ->
  holds (fun w' => called (store_files path) w w' /\ old_or_new path w w')
    (persist_settings to_toml self) (persisted path w) w.
Proof.
  intros Hok Hpath. unfold persist_settings. rewrite Hpath.
  pose proof (path_lkg path) as Hl. pose proof (lkg_staging path) as Hls.
  apply holds_exists; [done|split; [by apply called_refl|by left]|]. apply holds_compose.
  assert (Hkeep : forall w', called [last_known_good_path path] w w' ->
            called (store_files path) w w' /\ content w' path = content w path).
  { intros w' Hw. split; [by eapply called_weaken, Hw; unfold store_files; set_solver|].
    apply (called_content _ _ _ _ Hw). set_solver. }
  eapply holds_mono; [| |exact (holds_snapshot path w Hok)].
  { intros w' Hw. destruct (Hkeep w' Hw) as [? Hc]. split; [done|by left]. }
  intros w1 c H1 Hlkg. cbn beta in Hlkg. clear c. destruct (Hkeep w1 H1) as [Hc1 Hp1].
  assert (Hs1 : settings w1 = settings w) by (by destruct H1 as [[_ [= ->] _] _]).
  apply holds_current; [split; [done|by left]|]. rewrite Hs1.
  destruct (to_toml (settings w)) as [body|e] eqn:Ebody.
  2: { apply holds_done; [split; [done|by left]|]. split; [split; [done|eauto]|done]. }
  eapply (holds_seq _ [] _ (fun w w' r => match r with Ok _ => True | Err _ => fates w <> [] end));
    [by eapply called_ok| | |].
  { apply (does_or_permanent _ _ _ _ _ (does_quiet (CreateDirAll (dir path)) (or_intror (ex_intro _ _ eq_refl)))); done. }
  { intros w2 H2. split.
    - eapply called_trans; [done|]. by eapply called_weaken, H2; set_solver.
    - left. rewrite (called_content _ _ _ _ H2); [done|]. apply not_elem_of_nil. }
  intros w2 r2 H2 HR2.
  assert (Hsame : forall f, content w2 f = content w1 f).
  { intros f. apply (called_content _ _ _ _ H2). apply not_elem_of_nil. }
  assert (H12 : called (store_files path) w w2).
  { eapply called_trans; [done|]. by eapply called_weaken, H2; set_solver. }
  destruct r2 as [u|e]; cbn beta iota in *.
  2: { apply holds_done; [split; [done|left; by rewrite Hsame]|]. split; [split|].
       - by rewrite Hsame.
       - left. by eapply called_faults, HR2.
       - intros Hf old Hold. rewrite Hsame. auto. }
  eapply holds_mono; [| |exact (holds_write_in_place path body w2 (called_ok _ _ _ H2))].
  - intros w3 [H3 H3w]. split.
    + eapply called_trans; [done|]. by eapply called_weaken, H3; unfold store_files; set_solver.
    + destruct H3w as [Hw|Hw]; [left; by rewrite Hw, Hsame|right; eauto].
  - intros w3 r3 [H3 _] HR3. split.
    + destruct r3; [eauto|]. destruct HR3 as [Hc3 Hf3]. split; [by rewrite Hc3, Hsame|].
      left. by eapply called_faults, Hf3.
    + intros Hf old Hold. rewrite (called_content _ _ _ _ H3), Hsame; [by auto|set_solver].
Qed.

(** ** Reading back *)

Definition restored (path : File) (w w' : World) (r : result Settings PluginError) : Prop :=
  match r with
  | Ok s => exists body, content w (last_known_good_path path) = Some body /\ from_toml body = Ok s /\
                         content w' path = Some body
  | Err _ => content w' path = content w path /\
             (fates w <> [] \/ content w (last_known_good_path path) = None \/
              exists body e, content w (last_known_good_path path) = Some body /\ from_toml body = Err e)
  end.

Lemma holds_restore path w : fs_ok w -> state_path self = Some path ->
  holds (fun w' => called [staging_path path; path] w w' /\
                   (content w' path = content w path \/
                    exists body s, content w (last_known_good_path path) = Some body /\ from_toml body = Ok s /\
                                   content w' path = Some body))
    (restore_from_last_known_good from_toml self) (restored path w) w.
Proof.
  intros Hok Hpath. unfold restore_from_last_known_good. rewrite Hpath.
  apply holds_exists; [done|split; [by apply called_refl|by left]|].
  case_bool_decide as Hthere; cbn [negb].
  2: { apply holds_done; [split; [by apply called_refl|by left]|]. split; [done|].
       right; left. apply eq_None_not_Some. done. }
  eapply (holds_seq _ [] _ (fun w w' r =>
    match r with Ok b => content w (last_known_good_path path) = Some b
               | Err _ => fates w = [] -> content w (last_known_good_path path) = None end)); [done| | |].
  { apply (does_or_permanent _ _ _ _ _ (does_read_to_string (last_known_good_path path))); [done|]. intros x x' e He Hf. by apply He. }
  { intros w1 H1. split; [by eapply called_weaken, H1; set_solver|].
    left. rewrite (called_content _ _ _ _ H1); [done|apply not_elem_of_nil]. }
  intros w1 r1 H1 HR1.
  assert (Hsame : forall f, content w1 f = content w f).
  { intros f. apply (called_content _ _ _ _ H1). apply not_elem_of_nil. }
  assert (H01 : called [staging_path path; path] w w1) by (by eapply called_weaken, H1; set_solver).
  destruct r1 as [body|e]; cbn beta iota in *.
  2: { apply holds_done; [split; [done|left; apply Hsame]|]. split; [apply Hsame|]. left. intros Hf.
       rewrite (HR1 Hf) in Hthere. by destruct Hthere. }
  destruct (from_toml body) as [s|e] eqn:Es.
  2: { apply holds_done; [split; [done|left; apply Hsame]|]. split; [apply Hsame|]. eauto 6. }
  apply holds_compose. eapply holds_mono; [| |exact (holds_write_in_place path body w1 (called_ok _ _ _ H1))].
  - intros w2 [H2 H2w]. split; [by eapply called_trans|].
    destruct H2w as [Hw|Hw]; [left; by rewrite Hw, Hsame|right; eauto].
  - intros w2 r2 [H2 H2w] HR2. assert (called [staging_path path; path] w w2) by (by eapply called_trans).
    destruct r2 as [u|e]; cbn beta iota in *; apply holds_done.
    + split; [done|]. right. by exists body, s.
    + by exists body.
    + split; [done|left; by rewrite (proj1 HR2), Hsame].
    + split; [by rewrite (proj1 HR2), Hsame|]. left. by eapply called_faults, HR2.
Qed.

Definition read_back (path : File) (w : World) (r : result Settings PluginError) : Prop :=
  match r with
  | Ok s => s = Settings_default \/ exists body, content w path = Some body /\ from_toml body = Ok s
  | Err _ => True
  end /\
  (fates w = [] ->
   match content w path with
   | None => r = Ok Settings_default
   | Some body => forall s, from_toml body = Ok s <-> r = Ok s
   end).

Lemma holds_load path w : fs_ok w -> state_path self = Some path ->
  holds (called [] w) (load_settings_from_disk from_toml self) (fun _ r => read_back path w r) w.
Proof.
  intros Hok Hpath. unfold load_settings_from_disk. rewrite Hpath. apply holds_compose.
  eapply holds_mono; [exact (fun w H => H)| |exact (does_read_to_string path w Hok)].
  intros w1 [body|e] H1 HR1; (apply holds_done; [done|]); split.
  - destruct (from_toml body) eqn:E; cbn; eauto.
  - intros _. rewrite HR1. intros s. destruct (from_toml body); cbn; split; congruence.
  - destruct e; cbn; auto.
  - intros Hf. by destruct (HR1 Hf) as [-> ->].
Qed.

End store.

(** ** Crash safety *)

Section properties.
Context (to_toml : Settings -> result str str) (from_toml : str -> result Settings str).
Context (toml_reads_back : forall s body, to_toml s = Ok body -> from_toml body = Ok s).
Variable self : Handles.

(** What a plugin that starts again reads. *)
Definition rebooted (w : World) : result Settings PluginError :=
  (run (load_settings_from_disk from_toml self) (set_fates [] w)).2.

Lemma rebooted_reads path w body s : fs_ok w -> state_path self = Some path ->
  content w path = Some body -> from_toml body = Ok s -> rebooted w = Ok s.
Proof.
  intros Hok Hpath Hc Hs. unfold rebooted.
  destruct (only_fates [] [] w Hok) as [Hok' _ _].
  destruct (holds_run _ _ _ _ (holds_load from_toml self path (set_fates [] w) Hok' Hpath)) as [_ [_ H]].
  specialize (H eq_refl). change (content (set_fates [] w) path) with (content w path) in H.
  rewrite Hc in H. by apply H.
Qed.

(** C5: A crash at any moment of a write of the settings, or of a restore, leaves a file that
    reads as the settings before or as the new ones, whatever fails on the way. *)
Theorem settings_survive_a_crash path w n old s0 :
  fs_ok w -> state_path self = Some path -> content w path = Some old -> from_toml old = Ok s0 ->
  (let r := rebooted (crash n (persist_settings to_toml self) w) in r = Ok s0 \/ r = Ok (settings w)) /\
  (let r := rebooted (crash n (restore_from_last_known_good from_toml self) w) in
   r = Ok s0 \/
   exists body s, content w (last_known_good_path path) = Some body /\ from_toml body = Ok s /\ r = Ok s).
Proof.
  intros Hok Hpath Hold Hs0. split.
  - destruct (holds_crash _ n _ _ _ (holds_persist to_toml from_toml self path w Hok Hpath)) as [Hc [Hw|(body & Hb & Hw)]].
    + left. eapply rebooted_reads; [by eapply called_ok|done|by rewrite Hw|done].
    + right. eapply rebooted_reads; [by eapply called_ok|done|done|by apply toml_reads_back].
  - destruct (holds_crash _ n _ _ _ (holds_restore from_toml self path w Hok Hpath))
      as [Hc [Hw|(body & s & Hl & Hs & Hw)]].
    + left. eapply rebooted_reads; [by eapply called_ok|done|by rewrite Hw|done].
    + right. exists body, s. split_and!; [done..|]. by eapply rebooted_reads; [eapply called_ok|..].
Qed.

End properties.

(** ** A concrete file format

    The settings as one number for each field and no text at all as the defaults, for the
    examples. *)

#[export] Instance MixerType_countable : Countable MixerType.
Proof.
  apply (inj_countable' (fun m => match m with Hardware => 0 | Software => 1 | NoMixer => 2 end)
           (fun n => match n with 0 => Hardware | 1 => Software | _ => NoMixer end)). by intros [].
Defined.
#[export] Instance VolumeCurve_eq_dec : EqDecision VolumeCurve.
Proof. solve_decision. Defined.
#[export] Instance VolumeCurve_countable : Countable VolumeCurve.
Proof.
  apply (inj_countable' (fun m => match m with Linear => 0 | Log => 1 | Natural => 2 end)
           (fun n => match n with 0 => Linear | 1 => Log | _ => Natural end)). by intros [].
Defined.
#[export] Instance f32_eq_dec : EqDecision spec_float.
Proof. solve_decision. Defined.
#[export] Instance f32_countable : Countable spec_float.
Proof.
  apply (inj_countable'
    (fun x => match x with
              | S754_zero b => inl (inl b) | S754_infinity b => inl (inr b) | S754_nan => inr (inl tt)
              | S754_finite b m e => inr (inr (b, m, e)) end)
    (fun t => match t with
              | inl (inl b) => S754_zero b | inl (inr b) => S754_infinity b | inr (inl tt) => S754_nan
              | inr (inr (b, m, e)) => S754_finite b m e end)). by intros [].
Defined.
#[export] Instance EqBand_eq_dec : EqDecision EqBand.
Proof. solve_decision. Defined.
#[export] Instance EqBand_countable : Countable EqBand.
Proof.
  apply (inj_countable' (fun b => (freq_hz b, gain_db b : spec_float, q b : spec_float))
    (fun '(f, g, q) => {| freq_hz := f; gain_db := g; q := q |})). by intros [].
Defined.
#[export] Instance NamedEqPreset_eq_dec : EqDecision NamedEqPreset.
Proof. solve_decision. Defined.
#[export] Instance NamedEqPreset_countable : Countable NamedEqPreset.
Proof.
  apply (inj_countable' (fun p => (name p, bands p)) (fun '(n, b) => {| name := n; bands := b |})). by intros [].
Defined.
#[export] Instance ResamplingPolicy_eq_dec : EqDecision ResamplingPolicy.
Proof. solve_decision. Defined.
#[export] Instance ResamplingPolicy_countable : Countable ResamplingPolicy.
Proof.
  apply (inj_countable' (fun p => (enabled p, target_bitdepth p, target_samplerate p, quality p))
    (fun '(e, b, s, q) => {| enabled := e; target_bitdepth := b; target_samplerate := s; quality := q |})).
  by intros [].
Defined.
(** One number for each field. *)
Definition code {A} `{Countable A} (a : A) : N := Npos (encode a).
Definition uncode {A} `{Countable A} (c : N) : option A := match c with Npos p => decode p | N0 => None end.
Lemma uncode_code {A} `{Countable A} (a : A) : uncode (code a) = Some a.
Proof. apply decode_encode. Qed.
Definition demo_text (s : Settings) : str :=
  [code (v s); code (resampling s); code (mixer_type s); code (mixer_device s); code (mixer_control
   s); code (dop s); code (output_device s); code (volume_normalization s); code
   (startup_volume_percent s); code (max_volume_percent s); code (volume_curve s); code
   (exclusive_mode s); code (crossfade_seconds s); code (gapless s); code (eq_engaged s); code
   (eq_bands s); code (eq_presets s)].
Definition demo_parse (t : str) : option Settings :=
  match t with
  | [c0; c1; c2; c3; c4; c5; c6; c7; c8; c9; c10; c11; c12; c13; c14; c15; c16] =>
      x0 ← uncode c0;
      x1 ← uncode c1;
      x2 ← uncode c2;
      x3 ← uncode c3;
      x4 ← uncode c4;
      x5 ← uncode c5;
      x6 ← uncode c6;
      x7 ← uncode c7;
      x8 ← uncode c8;
      x9 ← uncode c9;
      x10 ← uncode c10;
      x11 ← uncode c11;
      x12 ← uncode c12;
      x13 ← uncode c13;
      x14 ← uncode c14;
      x15 ← uncode c15;
      x16 ← uncode c16;
      Some {| v := x0; resampling := x1; mixer_type := x2; mixer_device := x3; mixer_control := x4;
               dop := x5; output_device := x6; volume_normalization := x7; startup_volume_percent :=
               x8; max_volume_percent := x9; volume_curve := x10; exclusive_mode := x11;
               crossfade_seconds := x12; gapless := x13; eq_engaged := x14; eq_bands := x15;
               eq_presets := x16 |}
  | _ => None
  end.
Definition demo_to_toml (s : Settings) : result str str := Ok (demo_text s).
Definition demo_from_toml (t : str) : result Settings str :=
  match t with [] => Ok Settings_default | _ => ok_or (demo_parse t) (lit "malformed") end.
Lemma demo_reads_back s body : demo_to_toml s = Ok body -> demo_from_toml body = Ok s.
Proof.
  intros [= <-]. cbn [demo_from_toml demo_text demo_parse]. rewrite !uncode_code. by destruct s.
Qed.
Definition demo_path : File := {| dir := lit "/state"; fname := lit "state.toml" |}.
Definition demo_self : Handles :=
  {| loaded := true; state_path := Some demo_path; happening_emitter := true; subject_announcer := true;
     subject_state_subscriber := true; subject_querier := true |}.
(** The settings [s], on the disk too. *)
Definition demo_world (s : Settings) (fs : list Fate) (stream : option (list Received)) : World :=
  {| settings := s; names := {[ demo_path := 0 ]}; inodes := {[ 0 := demo_text s ]}; fresh := 1;
     fates := fs; said := []; requests := 0; generation := 0; channel := false; warden := stream; locked := false |}.
Lemma demo_world_ok s fs stream : fs_ok (demo_world s fs stream).
Proof.
  split; cbn.
  - intros f i [<- <-]%lookup_singleton_Some. split; [lia|by eexists].
  - intros f g i [Hf _]%lookup_singleton_Some [Hg _]%lookup_singleton_Some. congruence.
Qed.
Lemma demo_content s fs stream : content (demo_world s fs stream) demo_path = Some (demo_text s).
Proof. unfold content. cbn [names demo_world]. rewrite lookup_singleton_eq. reflexivity. Qed.

Lemma settings_survive_a_crash_witness :
  let w := demo_world (with_dop true Settings_default) [Fine; Fine; Broken (lit "disk full") [7]] None in
  let r := rebooted demo_from_toml demo_self (crash 6 (persist_settings demo_to_toml demo_self) w) in
  r = Ok (with_dop true Settings_default) \/ r = Ok (settings w).
Proof.
  apply (settings_survive_a_crash demo_to_toml demo_from_toml demo_reads_back demo_self demo_path
    (demo_world (with_dop true Settings_default) [Fine; Fine; Broken (lit "disk full") [7]] None) 6
    (demo_text (with_dop true Settings_default))).
  - apply demo_world_ok.
  - reflexivity.
  - apply demo_content.
  - apply demo_reads_back. reflexivity.
Defined.
