(* ===== verification/Options.v ===== *)
(** * The verbs of the playback options ([plugins/org.evoframework.playback.options/src/lib.rs])

    The payloads of the requests, the handler of each request type as a program over the
    actions of [OptionsStore], the mixer transition that the handler of [set_mixer_type]
    runs under the transition lock, and the dispatch. *)

From stdpp Require Import gmap countable.
From Stdlib Require Import SpecFloat.
From S2P Require Import Prelude Transition OptionsStore.
Local Open Scope N_scope.

(** ** Payloads *)

(** [HasPayloadVersion], and [serde_json::from_slice] for a type of payload. *)
Class HasPayloadVersion (T : Type) := payload_version : T -> N.
Class Deserialize (Body T : Type) := from_slice : Body -> result T str.

(** A missing version is the current one. *)
Definition default_payload_version : N := PAYLOAD_VERSION.

Record EmptyPayload := { e_v : N }.
Record SetResamplingPayload := { sr_v : N; sr_policy : ResamplingPolicy }.
Record SetMixerTypePayload := { smt_v : N; smt_value : str }.
Record SetDopPayload := { sd_v : N; sd_value : bool }.
Record SetMixerDevicePayload := { smd_v : N; smd_value : str }.
Record SetMixerControlPayload := { smc_v : N; smc_value : str }.
Record SetOutputDevicePayload := { sod_v : N; sod_value : str }.
Record SetVolumeNormalizationPayload := { svn_v : N; svn_value : bool }.
Record SetVolumePercentPayload := { svp_v : N; svp_value : N }.
Record SetVolumeCurvePayload := { svc_v : N; svc_value : str }.
Record SetExclusiveModePayload := { sem_v : N; sem_value : bool }.
Record SetCrossfadeSecondsPayload := { scs_v : N; scs_value : N }.
Record SetGaplessPayload := { sg_v : N; sg_value : bool }.
Record SetEqEngagedPayload := { see_v : N; see_value : bool }.
Record SetEqBandPayload := { seb_v : N; seb_index : N; seb_freq_hz : N; seb_gain_db : f32; seb_q : f32 }.
Record SaveEqPresetPayload := { sep_v : N; sep_name : str; sep_bands : list EqBand }.
Record NameOnlyEqPresetPayload := { nop_v : N; nop_name : str }.

#[export] Instance EmptyPayload_version : HasPayloadVersion EmptyPayload := e_v.
#[export] Instance SetResamplingPayload_version : HasPayloadVersion SetResamplingPayload := sr_v.
#[export] Instance SetMixerTypePayload_version : HasPayloadVersion SetMixerTypePayload := smt_v.
#[export] Instance SetDopPayload_version : HasPayloadVersion SetDopPayload := sd_v.
#[export] Instance SetMixerDevicePayload_version : HasPayloadVersion SetMixerDevicePayload := smd_v.
#[export] Instance SetMixerControlPayload_version : HasPayloadVersion SetMixerControlPayload := smc_v.
#[export] Instance SetOutputDevicePayload_version : HasPayloadVersion SetOutputDevicePayload := sod_v.
#[export] Instance SetVolumeNormalizationPayload_version : HasPayloadVersion SetVolumeNormalizationPayload := svn_v.
#[export] Instance SetVolumePercentPayload_version : HasPayloadVersion SetVolumePercentPayload := svp_v.
#[export] Instance SetVolumeCurvePayload_version : HasPayloadVersion SetVolumeCurvePayload := svc_v.
#[export] Instance SetExclusiveModePayload_version : HasPayloadVersion SetExclusiveModePayload := sem_v.
#[export] Instance SetCrossfadeSecondsPayload_version : HasPayloadVersion SetCrossfadeSecondsPayload := scs_v.
#[export] Instance SetGaplessPayload_version : HasPayloadVersion SetGaplessPayload := sg_v.
#[export] Instance SetEqEngagedPayload_version : HasPayloadVersion SetEqEngagedPayload := see_v.
#[export] Instance SetEqBandPayload_version : HasPayloadVersion SetEqBandPayload := seb_v.
#[export] Instance SaveEqPresetPayload_version : HasPayloadVersion SaveEqPresetPayload := sep_v.
#[export] Instance NameOnlyEqPresetPayload_version : HasPayloadVersion NameOnlyEqPresetPayload := nop_v.

(** [Response]: the bodies that the handlers encode. *)
Inductive Response := SimpleOk | SettingsBody (s : Settings) | ListEqPresets (presets : list NamedEqPreset).

(** [REQUEST_TYPES], one constructor for each, with its name. *)
Inductive Verb :=
  | GetSettings | SetResampling | SetMixerType | SetMixerDevice | SetMixerControl | SetDop
  | SetOutputDevice | SetVolumeNormalization | SetStartupVolume | SetMaxVolume | SetVolumeCurve
  | SetExclusiveMode | SetCrossfadeSeconds | SetGapless | SetEqEngaged | SetEqBand
  | ListEqPresetsVerb | SaveEqPreset | RecallEqPreset | DeleteEqPreset
  | RestoreLastKnownGood | ResetToDefaults.
#[export] Instance Verb_eq_dec : EqDecision Verb.
Proof. solve_decision. Defined.
Definition verb_name (vb : Verb) : str :=
  match vb with
  | GetSettings => lit "options.get_settings"
  | SetResampling => lit "options.set_resampling"
  | SetMixerType => lit "options.set_mixer_type"
  | SetMixerDevice => lit "options.set_mixer_device"
  | SetMixerControl => lit "options.set_mixer_control"
  | SetDop => lit "options.set_dop"
  | SetOutputDevice => lit "options.set_output_device"
  | SetVolumeNormalization => lit "options.set_volume_normalization"
  | SetStartupVolume => lit "options.set_startup_volume"
  | SetMaxVolume => lit "options.set_max_volume"
  | SetVolumeCurve => lit "options.set_volume_curve"
  | SetExclusiveMode => lit "options.set_exclusive_mode"
  | SetCrossfadeSeconds => lit "options.set_crossfade_seconds"
  | SetGapless => lit "options.set_gapless"
  | SetEqEngaged => lit "options.set_eq_engaged"
  | SetEqBand => lit "options.set_eq_band"
  | ListEqPresetsVerb => lit "options.list_eq_presets"
  | SaveEqPreset => lit "options.save_eq_preset"
  | RecallEqPreset => lit "options.recall_eq_preset"
  | DeleteEqPreset => lit "options.delete_eq_preset"
  | RestoreLastKnownGood => lit "options.restore_last_known_good"
  | ResetToDefaults => lit "options.reset_to_defaults"
  end.
Definition REQUEST_TYPES : list Verb :=
  [GetSettings; SetResampling; SetMixerType; SetMixerDevice; SetMixerControl; SetDop; SetOutputDevice;
   SetVolumeNormalization; SetStartupVolume; SetMaxVolume; SetVolumeCurve; SetExclusiveMode;
   SetCrossfadeSeconds; SetGapless; SetEqEngaged; SetEqBand; ListEqPresetsVerb; SaveEqPreset;
   RecallEqPreset; DeleteEqPreset; RestoreLastKnownGood; ResetToDefaults].
Definition verb_of (request_type : str) : option Verb :=
  snd <$> list_find (fun vb => verb_name vb = request_type) REQUEST_TYPES.

(** ** Validation *)

(** [validate_preset_name]: the length is in bytes. *)
Definition validate_preset_name (n : str) : result unit PluginError :=
  if str_is_empty n then Err (Permanent PresetNameEmpty)
  else if EQ_PRESET_NAME_MAX_LEN <? str_len n then Err (Permanent (PresetNameLong (str_len n)))
  else Ok tt.

(** [validate_eq_band], and the loop over the bands of a preset. *)
Definition validate_eq_band (i : nat) (b : EqBand) : result unit PluginError :=
  if negb (in_range EQ_BAND_FREQ_MIN EQ_BAND_FREQ_MAX (freq_hz b)) then
    Err (Permanent (PresetFreqRange i (freq_hz b)))
  else if negb (in_range_f32 EQ_BAND_GAIN_MIN_DB EQ_BAND_GAIN_MAX_DB (gain_db b)) then
    Err (Permanent (PresetGainRange i (gain_db b)))
  else if negb (in_range_f32 EQ_BAND_Q_MIN EQ_BAND_Q_MAX (q b)) then
    Err (Permanent (PresetQRange i (q b)))
  else Ok tt.
Fixpoint validate_eq_bands (i : nat) (bs : list EqBand) : result unit PluginError :=
  match bs with
  | [] => Ok tt
  | b :: bs' => let? _ := validate_eq_band i b in validate_eq_bands (S i) bs'
  end.

(** The tests of [handle_set_eq_band]. *)
Definition check_eq_band (p : SetEqBandPayload) : result EqBand PluginError :=
  if Nat.leb EQ_BAND_COUNT (N.to_nat (seb_index p)) then Err (Permanent (BandIndexRange (seb_index p)))
  else if negb (in_range EQ_BAND_FREQ_MIN EQ_BAND_FREQ_MAX (seb_freq_hz p)) then
    Err (Permanent (BandFreqRange (seb_freq_hz p)))
  else if negb (in_range_f32 EQ_BAND_GAIN_MIN_DB EQ_BAND_GAIN_MAX_DB (seb_gain_db p)) then
    Err (Permanent (BandGainRange (seb_gain_db p)))
  else if negb (in_range_f32 EQ_BAND_Q_MIN EQ_BAND_Q_MAX (seb_q p)) then
    Err (Permanent (BandQRange (seb_q p)))
  else Ok {| freq_hz := seb_freq_hz p; gain_db := seb_gain_db p; q := seb_q p |}.

(** ** What the handlers do to the settings under the lock

    Each block between the lock and its release is one function of the settings: the new
    settings and what the block gives, or the refusal it returns with. *)

Definition Block (R : Type) : Type := Settings -> Settings * result R PluginError.

(** [handle_set_eq_band]: the bands are padded to their number first. *)
Definition pad_bands (bs : list EqBand) : list EqBand :=
  bs ++ repeat EqBand_default (EQ_BAND_COUNT - length bs).
Definition put_band (i : N) (b : EqBand) : Block (list EqBand) := fun s =>
  let bs := <[N.to_nat i := b]> (pad_bands (eq_bands s)) in (with_eq_bands bs s, Ok bs).

(** [handle_save_eq_preset]: the first preset of the name is overwritten. *)
Definition find_preset (n : str) (ps : list NamedEqPreset) : option NamedEqPreset :=
  snd <$> list_find (fun p => name p = n) ps.
Fixpoint overwrite_preset (n : str) (bs : list EqBand) (ps : list NamedEqPreset) : list NamedEqPreset :=
  match ps with
  | [] => []
  | p :: ps' =>
      if bool_decide (name p = n) then {| name := name p; bands := bs |} :: ps'
      else p :: overwrite_preset n bs ps'
  end.
Definition put_preset (n : str) (bs : list EqBand) : Block (list NamedEqPreset) := fun s =>
  match find_preset n (eq_presets s) with
  | Some _ => let ps := overwrite_preset n bs (eq_presets s) in (with_eq_presets ps s, Ok ps)
  | None =>
      if Nat.leb EQ_PRESET_LIBRARY_MAX_COUNT (length (eq_presets s)) then (s, Err (Permanent PresetCap))
      else let ps := eq_presets s ++ [{| name := n; bands := bs |}] in (with_eq_presets ps s, Ok ps)
  end.

(** [handle_recall_eq_preset], [handle_delete_eq_preset] *)
Definition take_preset (n : str) : Block (list EqBand) := fun s =>
  match find_preset n (eq_presets s) with
  | None => (s, Err (Permanent (PresetUnknown n)))
  | Some p =>
      if bool_decide (length (bands p) = EQ_BAND_COUNT) then (with_eq_bands (bands p) s, Ok (bands p))
      else (s, Err (Permanent (PresetDrift n (length (bands p)))))
  end.
Definition drop_preset (n : str) : Block (list NamedEqPreset) := fun s =>
  let ps := filter (fun p => name p <> n) (eq_presets s) in
  if bool_decide (length ps = length (eq_presets s)) then
    (with_eq_presets ps s, Err (Permanent (PresetUnknown n)))
  else (with_eq_presets ps s, Ok ps).

(** [handle_set_startup_volume], [handle_set_max_volume] *)
Definition put_startup (n : N) : Block unit := fun s =>
  if max_volume_percent s <? n then (s, Err (Permanent (StartupAboveMax n (max_volume_percent s))))
  else (with_startup_volume_percent n s, Ok tt).
Definition put_max (n : N) : Block bool := fun s =>
  let clamped := n <? startup_volume_percent s in
  let s := with_max_volume_percent n s in
  (if clamped then with_startup_volume_percent n s else s, Ok clamped).

(** A plain assignment of a field. *)
Definition put (f : Settings -> Settings) : Block unit := fun s => (f s, Ok tt).

(** The refusal of a coordinate of white space. *)
Definition whitespace_only (value : str) : bool := negb (str_is_empty value) && str_is_empty (trim value).

(** ** The handlers *)

Section plugin.
Context {Body : Type}
  `{!Deserialize Body EmptyPayload, !Deserialize Body SetResamplingPayload, !Deserialize Body SetMixerTypePayload,
    !Deserialize Body SetDopPayload, !Deserialize Body SetMixerDevicePayload, !Deserialize Body SetMixerControlPayload,
    !Deserialize Body SetOutputDevicePayload, !Deserialize Body SetVolumeNormalizationPayload,
    !Deserialize Body SetVolumePercentPayload, !Deserialize Body SetVolumeCurvePayload,
    !Deserialize Body SetExclusiveModePayload, !Deserialize Body SetCrossfadeSecondsPayload,
    !Deserialize Body SetGaplessPayload, !Deserialize Body SetEqEngagedPayload, !Deserialize Body SetEqBandPayload,
    !Deserialize Body SaveEqPresetPayload, !Deserialize Body NameOnlyEqPresetPayload}.
Context (to_toml : Settings -> result str str) (from_toml : str -> result Settings str)
  (report : PluginError -> str) (canonical_id : str).
Variable self : Handles.
Local Notation persist_settings := (persist_settings to_toml self).
Local Notation load_settings_from_disk := (load_settings_from_disk from_toml self).
Local Notation restore_from_last_known_good := (restore_from_last_known_good from_toml self).
Local Notation emit_changed := (emit_changed self).
Local Notation publish_settings_state := (publish_settings_state self).

(** The request, with the point at which the overall budget of a transition ends when it
    does: after that number of actions. *)
Record Request := {
  request_type : str; past_deadline : bool; payload : Body; transition_budget : option nat }.

(** [parse_versioned] *)
Definition parse_versioned {T} `{HasPayloadVersion T, !Deserialize Body T} (req : Request) : result T PluginError :=
  match from_slice (payload req) with
  | Err e => Err (Permanent (NotJson (request_type req) e))
  | Ok parsed =>
      if payload_version parsed =? PAYLOAD_VERSION then Ok parsed
      else Err (Permanent (VersionUnsupported (request_type req) (payload_version parsed)))
  end.

Definition with_payload {T} `{HasPayloadVersion T, !Deserialize Body T} (req : Request)
    (k : T -> Prog (result Response PluginError)) : Prog (result Response PluginError) :=
  match parse_versioned req with Ok p => k p | Err e => Ret (Err e) end.

(** What every setter ends with: the settings are written out, the change is announced,
    and the answer is encoded. *)
Definition change {R} (block : Block R) (announce : R -> Prog unit) : Prog (result Response PluginError) :=
  try! r := act (Update block) in
  try! _ := persist_settings in
  let! _ := announce r in
  Ret (Ok SimpleOk).

Definition handle_get_settings (req : Request) : Prog (result Response PluginError) :=
  with_payload req (fun _ : EmptyPayload =>
  let! s := current in Ret (Ok (SettingsBody s))).

Definition known_quality (s : str) : bool :=
  bool_decide (s ∈ [lit "very_high"; lit "high"; lit "medium"; lit "low"; lit "quick"; []]).
Definition handle_set_resampling (req : Request) : Prog (result Response PluginError) :=
  with_payload req (fun p : SetResamplingPayload =>
  if enabled (sr_policy p) && negb (known_quality (quality (sr_policy p))) then
    Ret (Err (Permanent (BadQuality (quality (sr_policy p)))))
  else change (put (with_resampling (sr_policy p)))
         (fun _ => emit_changed (lit "resampling") (VPolicy (sr_policy p)))).

Definition handle_set_dop (req : Request) : Prog (result Response PluginError) :=
  with_payload req (fun p : SetDopPayload =>
  change (put (with_dop (sd_value p))) (fun _ => emit_changed (lit "dop") (VBool (sd_value p)))).

Definition handle_set_exclusive_mode (req : Request) : Prog (result Response PluginError) :=
  with_payload req (fun p : SetExclusiveModePayload =>
  change (put (with_exclusive_mode (sem_value p)))
    (fun _ => emit_changed (lit "exclusive_mode") (VBool (sem_value p)))).

Definition handle_set_crossfade_seconds (req : Request) : Prog (result Response PluginError) :=
  with_payload req (fun p : SetCrossfadeSecondsPayload =>
  if CROSSFADE_SECONDS_MAX <? scs_value p then Ret (Err (Permanent (CrossfadeRange (scs_value p))))
  else change (put (with_crossfade_seconds (scs_value p)))
         (fun _ => emit_changed (lit "crossfade_seconds") (VNumber (scs_value p)))).

Definition handle_set_gapless (req : Request) : Prog (result Response PluginError) :=
  with_payload req (fun p : SetGaplessPayload =>
  change (put (with_gapless (sg_value p))) (fun _ => emit_changed (lit "gapless") (VBool (sg_value p)))).

Definition handle_set_eq_engaged (req : Request) : Prog (result Response PluginError) :=
  with_payload req (fun p : SetEqEngagedPayload =>
  change (put (with_eq_engaged (see_value p))) (fun _ => emit_changed (lit "eq_engaged") (VBool (see_value p)))).

Definition handle_set_eq_band (req : Request) : Prog (result Response PluginError) :=
  with_payload req (fun p : SetEqBandPayload =>
  match check_eq_band p with
  | Err e => Ret (Err e)
  | Ok b => change (put_band (seb_index p) b) (fun bs => emit_changed (lit "eq_bands") (VBands bs))
  end).

Definition handle_list_eq_presets (req : Request) : Prog (result Response PluginError) :=
  with_payload req (fun _ : EmptyPayload =>
  let! s := current in Ret (Ok (ListEqPresets (eq_presets s)))).

Definition handle_save_eq_preset (req : Request) : Prog (result Response PluginError) :=
  with_payload req (fun p : SaveEqPresetPayload =>
  match validate_preset_name (sep_name p) with
  | Err e => Ret (Err e)
  | Ok _ =>
      if negb (bool_decide (length (sep_bands p) = EQ_BAND_COUNT)) then
        Ret (Err (Permanent (PresetBandCount (length (sep_bands p)))))
      else match validate_eq_bands 0 (sep_bands p) with
           | Err e => Ret (Err e)
           | Ok _ => change (put_preset (sep_name p) (sep_bands p))
                       (fun ps => emit_changed (lit "eq_presets") (VPresets ps))
           end
  end).

Definition handle_recall_eq_preset (req : Request) : Prog (result Response PluginError) :=
  with_payload req (fun p : NameOnlyEqPresetPayload =>
  match validate_preset_name (nop_name p) with
  | Err e => Ret (Err e)
  | Ok _ => change (take_preset (nop_name p)) (fun bs => emit_changed (lit "eq_bands") (VBands bs))
  end).

Definition handle_delete_eq_preset (req : Request) : Prog (result Response PluginError) :=
  with_payload req (fun p : NameOnlyEqPresetPayload =>
  match validate_preset_name (nop_name p) with
  | Err e => Ret (Err e)
  | Ok _ => change (drop_preset (nop_name p)) (fun ps => emit_changed (lit "eq_presets") (VPresets ps))
  end).

Definition handle_set_mixer_device (req : Request) : Prog (result Response PluginError) :=
  with_payload req (fun p : SetMixerDevicePayload =>
  if whitespace_only (smd_value p) then Ret (Err (Permanent (WhitespaceOnly (lit "mixer_device"))))
  else change (put (with_mixer_device (smd_value p)))
         (fun _ => emit_changed (lit "mixer_device") (VString (smd_value p)))).

Definition handle_set_mixer_control (req : Request) : Prog (result Response PluginError) :=
  with_payload req (fun p : SetMixerControlPayload =>
  if whitespace_only (smc_value p) then Ret (Err (Permanent (WhitespaceOnly (lit "mixer_control"))))
  else change (put (with_mixer_control (smc_value p)))
         (fun _ => emit_changed (lit "mixer_control") (VString (smc_value p)))).

Definition handle_set_output_device (req : Request) : Prog (result Response PluginError) :=
  with_payload req (fun p : SetOutputDevicePayload =>
  if whitespace_only (sod_value p) then Ret (Err (Permanent (WhitespaceOnly (lit "output_device"))))
  else change (put (with_output_device (sod_value p)))
         (fun _ => emit_changed (lit "output_device") (VString (sod_value p)))).

Definition handle_set_volume_normalization (req : Request) : Prog (result Response PluginError) :=
  with_payload req (fun p : SetVolumeNormalizationPayload =>
  change (put (with_volume_normalization (svn_value p)))
    (fun _ => emit_changed (lit "volume_normalization") (VBool (svn_value p)))).

Definition handle_set_startup_volume (req : Request) : Prog (result Response PluginError) :=
  with_payload req (fun p : SetVolumePercentPayload =>
  if 100 <? svp_value p then
    Ret (Err (Permanent (PercentRange (lit "startup_volume_percent") (svp_value p))))
  else change (put_startup (svp_value p))
         (fun _ => emit_changed (lit "startup_volume_percent") (VNumber (svp_value p)))).

Definition handle_set_max_volume (req : Request) : Prog (result Response PluginError) :=
  with_payload req (fun p : SetVolumePercentPayload =>
  if 100 <? svp_value p then
    Ret (Err (Permanent (PercentRange (lit "max_volume_percent") (svp_value p))))
  else change (put_max (svp_value p)) (fun startup_clamped =>
         let! _ := emit_changed (lit "max_volume_percent") (VNumber (svp_value p)) in
         if startup_clamped then emit_changed (lit "startup_volume_percent") (VNumber (svp_value p))
         else Ret tt)).

Definition handle_set_volume_curve (req : Request) : Prog (result Response PluginError) :=
  with_payload req (fun p : SetVolumeCurvePayload =>
  match volume_curve_from_wire (svc_value p) with
  | None => Ret (Err (Permanent (BadVolumeCurve (svc_value p))))
  | Some c => change (put (with_volume_curve c))
                (fun _ => emit_changed (lit "volume_curve") (VString (svc_value p)))
  end).

Definition handle_restore_last_known_good (req : Request) : Prog (result Response PluginError) :=
  with_payload req (fun _ : EmptyPayload =>
  try! restored := restore_from_last_known_good in
  let! _ := assign restored in
  let! _ := emit_changed (lit "restore_last_known_good") (VSettings restored) in
  Ret (Ok SimpleOk)).

Definition handle_reset_to_defaults (req : Request) : Prog (result Response PluginError) :=
  with_payload req (fun _ : EmptyPayload =>
  change (put (fun _ => Settings_default))
    (fun _ => emit_changed (lit "reset_to_defaults") (VSettings Settings_default))).

(** ** The mixer transition *)

(** [publish_envelope_requested]: the request is published by a task of its own. *)
Definition publish_envelope_requested (state : EnvelopeState) : Prog (result N str) :=
  if subject_announcer self then
    let! gen := act NextGeneration in
    let! _ := act (Say (EnvelopeRequest gen state)) in
    Ret (Ok gen)
  else Ret (Err (lit "subject_announcer unpopulated; cannot publish envelope")).

(** [ensure_envelope_observed_channel]: whether there is a channel. *)
Definition ensure_envelope_observed_channel : Prog (result bool str) :=
  let! cached := act CachedChannel in
  if cached then Ret (Ok true)
  else if negb (subject_state_subscriber self) then Ret (Ok false)
  else if negb (subject_querier self) then Ret (Ok false)
  else
    let! id := act Resolve in
    match id with
    | Err e => Ret (Err (lit "resolve envelope_observed addressing: " ++ e))
    | Ok false => Ret (Ok false)
    | Ok true =>
        let! sub := act Subscribe in
        match sub with
        | Err e => Ret (Err (lit "subscribe envelope_observed: " ++ e))
        | Ok _ => let! _ := act CacheChannel in Ret (Ok true)
        end
    end.

Definition ENVELOPE_ACK_TIMEOUT_MS : N := 5000.
Definition ack_reason (f : AckFailure) : str :=
  match f with
  | AckClosed => lit "envelope_observed stream closed before ack (canonical_id=" ++ canonical_id ++ lit ")"
  | AckTimeout gen expected =>
      lit "envelope ack timeout after " ++ dec ENVELOPE_ACK_TIMEOUT_MS ++ lit "ms (generation=" ++ dec gen ++
      lit ", expected_state=" ++ (match expected with Muted => lit "Muted" | Unmuted => lit "Unmuted" end) ++ lit ")"
  end.

(** [await_envelope_ack]: without a channel there is no warden to wait for. *)
Definition await_envelope_ack (gen : N) (expected : EnvelopeState) : Prog (result unit str) :=
  try! there := ensure_envelope_observed_channel in
  if (there : bool) then
    let! r := act (AwaitMatch gen expected) in Ret (map_err ack_reason r)
  else Ret (Ok tt).

(** [emit_lifecycle] and its four uses: by a task of its own. *)
Definition emit_lifecycle (n : Notice) : Prog unit :=
  if happening_emitter self then act (Say n) else Ret tt.

(** [rollback_or_fail], [rollback_or_fail_restore] *)
Definition rollback_or_fail (from to : MixerType) (at_phase reason : str) : Prog TransitionOutcome :=
  let! _ := emit_lifecycle (RolledBackMixer from to at_phase reason) in
  Ret (RolledBack at_phase reason).
Definition rollback_or_fail_restore (from to : MixerType) (at_phase reason : str) (prior_settings : Settings)
  : Prog TransitionOutcome :=
  let! _ := assign prior_settings in
  let! r := persist_settings in
  match r with
  | Ok _ =>
      let! _ := publish_settings_state in
      let! _ := emit_lifecycle (RolledBackMixer from to at_phase reason) in
      Ret (RolledBack at_phase reason)
  | Err rollback_err =>
      let combined := reason ++ lit "; rollback failed: " ++ report rollback_err in
      let! _ := emit_lifecycle (FailedMixer from to at_phase combined) in
      Ret (Failed at_phase combined)
  end.

Definition mixer_type_debug (m : MixerType) : str :=
  match m with Hardware => lit "Hardware" | Software => lit "Software" | NoMixer => lit "None" end.

(** [run_mixer_transition] *)
Definition run_mixer_transition (from to : MixerType) : Prog TransitionOutcome :=
  if bool_decide (from = to) then Ret NoOp
  else
  let! _ := emit_lifecycle (Started from to) in
  let! subscribed := ensure_envelope_observed_channel in
  match subscribed with
  | Err e => rollback_or_fail from to (lit "pre_subscribe") e
  | Ok _ =>
  let! s := current in
  let carried_level := startup_volume_percent s in
  let! muting := publish_envelope_requested Muted in
  match muting with
  | Err e => rollback_or_fail from to (lit "pre_mute") e
  | Ok pre_mute_generation =>
  let! muted := await_envelope_ack pre_mute_generation Muted in
  match muted with
  | Err e => rollback_or_fail from to (lit "pre_mute") e
  | Ok _ =>
  let! prior_settings := current in
  let! _ := act (Update (fun s => (with_mixer_type to s, tt))) in
  let! persisted := persist_settings in
  match persisted with
  | Err e =>
      let! _ := assign prior_settings in
      rollback_or_fail from to (lit "set_new_authority") (report e)
  | Ok _ =>
  let! _ := publish_settings_state in
  let! now := current in
  if negb (bool_decide (mixer_type now = to)) then
    rollback_or_fail_restore from to (lit "verify_effective_level")
      (lit "post-persist mixer_type " ++ mixer_type_debug (mixer_type now) ++ lit " != target " ++ mixer_type_debug to)
      prior_settings
  else
  let effective_level := carried_level in
  let! unmuting := publish_envelope_requested Unmuted in
  match unmuting with
  | Err e => rollback_or_fail_restore from to (lit "unmute") e prior_settings
  | Ok unmute_generation =>
  let! unmuted := await_envelope_ack unmute_generation Unmuted in
  match unmuted with
  | Err e => rollback_or_fail_restore from to (lit "unmute") e prior_settings
  | Ok _ =>
      let! _ := emit_lifecycle (AppliedMixer from to carried_level effective_level) in
      Ret (Applied effective_level)
  end end end end end end.

(** [handle_set_mixer_type]: the settings are read before the lock is taken, and the guard
    of the lock is dropped on every way out. *)
Definition TRANSITION_OVERALL_TIMEOUT_MS : N := 30000.
Definition budget_reason : str :=
  lit "transition_timed_out after " ++ dec TRANSITION_OVERALL_TIMEOUT_MS ++
  lit "ms (inner orchestration did not return within the overall budget)".
Definition handle_set_mixer_type (req : Request) : Prog (result Response PluginError) :=
  with_payload req (fun p : SetMixerTypePayload =>
  match mixer_type_from_wire (smt_value p) with
  | None => Ret (Err (Permanent (BadMixerType (smt_value p))))
  | Some to =>
  let! s := current in
  let from := mixer_type s in
  if bool_decide (to = Hardware) && (str_is_empty (mixer_device s) || str_is_empty (mixer_control s)) then
    Ret (Err (Permanent HardwareNeedsCoordinates))
  else
  let! _ := act LockTransition in
  let! outcome := (match transition_budget req with
                   | None => let! o := run_mixer_transition from to in Ret (Some o)
                   | Some n => within n (run_mixer_transition from to)
                   end) in
  match outcome with
  | None =>
      let! disk := load_settings_from_disk in
      let! _ := (match disk with Ok restored => assign restored | Err _ => Ret tt end) in
      let! _ := emit_lifecycle (FailedMixer from to (lit "overall_budget") budget_reason) in
      let! _ := act UnlockTransition in
      Ret (Err (Permanent (TransitionFailed (lit "overall_budget") budget_reason)))
  | Some o =>
      let! _ := act UnlockTransition in
      Ret match o with
          | Applied _ | NoOp => Ok SimpleOk
          | RolledBack at_phase reason => Err (Permanent (TransitionRolledBack at_phase reason))
          | Failed at_phase reason => Err (Permanent (TransitionFailed at_phase reason))
          end
  end end).

(** ** The dispatch *)

(** [handle_request] *)
Definition handle (vb : Verb) : Request -> Prog (result Response PluginError) :=
  match vb with
  | GetSettings => handle_get_settings
  | SetResampling => handle_set_resampling
  | SetMixerType => handle_set_mixer_type
  | SetMixerDevice => handle_set_mixer_device
  | SetMixerControl => handle_set_mixer_control
  | SetDop => handle_set_dop
  | SetOutputDevice => handle_set_output_device
  | SetVolumeNormalization => handle_set_volume_normalization
  | SetStartupVolume => handle_set_startup_volume
  | SetMaxVolume => handle_set_max_volume
  | SetVolumeCurve => handle_set_volume_curve
  | SetExclusiveMode => handle_set_exclusive_mode
  | SetCrossfadeSeconds => handle_set_crossfade_seconds
  | SetGapless => handle_set_gapless
  | SetEqEngaged => handle_set_eq_engaged
  | SetEqBand => handle_set_eq_band
  | ListEqPresetsVerb => handle_list_eq_presets
  | SaveEqPreset => handle_save_eq_preset
  | RecallEqPreset => handle_recall_eq_preset
  | DeleteEqPreset => handle_delete_eq_preset
  | RestoreLastKnownGood => handle_restore_last_known_good
  | ResetToDefaults => handle_reset_to_defaults
  end.
Definition handle_request (req : Request) : Prog (result Response PluginError) :=
  if negb (loaded self) then Ret (Err (Permanent NotLoaded))
  else if past_deadline req then Ret (Err (Transient DeadlineExpired))
  else match verb_of (request_type req) with
       | None => Ret (Err (Permanent (UnknownRequest (request_type req))))
       | Some vb => let! _ := act CountRequest in handle vb req
       end.

End plugin.

(** ** Load and unload *)

(** [load]: [unload] forgets the emitter only. *)
Record LoadContext := { state_dir : str; has_subscriber : bool; has_querier : bool }.
Definition STATE_FILENAME : str := lit "state.toml".
Definition PlaybackOptionsPlugin_new : Handles :=
  {| loaded := false; state_path := None; happening_emitter := false; subject_announcer := false;
     subject_state_subscriber := false; subject_querier := false |}.
Definition load (from_toml : str -> result Settings str) (ctx : LoadContext) (self : Handles)
  : Prog (Handles * result unit PluginError) :=
  let path := default {| dir := state_dir ctx; fname := STATE_FILENAME |} (state_path self) in
  let self := {| loaded := loaded self; state_path := Some path; happening_emitter := happening_emitter self;
                 subject_announcer := subject_announcer self;
                 subject_state_subscriber := subject_state_subscriber self;
                 subject_querier := subject_querier self |} in
  let! r := load_settings_from_disk from_toml self in
  match r with
  | Err e => Ret (self, Err e)
  | Ok loaded_settings =>
      let! _ := assign loaded_settings in
      let self := {| loaded := true; state_path := Some path; happening_emitter := true; subject_announcer := true;
                     subject_state_subscriber := has_subscriber ctx; subject_querier := has_querier ctx |} in
      let! _ := announce_settings_subject self in
      let! _ := announce_envelope_requested_subject self in
      Ret (self, Ok tt)
  end.
Definition unload (self : Handles) : Handles :=
  {| loaded := false; state_path := state_path self; happening_emitter := false;
     subject_announcer := subject_announcer self; subject_state_subscriber := subject_state_subscriber self;
     subject_querier := subject_querier self |}.

(** ** What a request asks for

    The settings that a setter is to give, with the fields it announces, as a function of
    the request and of the settings alone. *)

Section spec.
Context {Body : Type}
  `{!Deserialize Body EmptyPayload, !Deserialize Body SetResamplingPayload, !Deserialize Body SetMixerTypePayload,
    !Deserialize Body SetDopPayload, !Deserialize Body SetMixerDevicePayload, !Deserialize Body SetMixerControlPayload,
    !Deserialize Body SetOutputDevicePayload, !Deserialize Body SetVolumeNormalizationPayload,
    !Deserialize Body SetVolumePercentPayload, !Deserialize Body SetVolumeCurvePayload,
    !Deserialize Body SetExclusiveModePayload, !Deserialize Body SetCrossfadeSecondsPayload,
    !Deserialize Body SetGaplessPayload, !Deserialize Body SetEqEngagedPayload, !Deserialize Body SetEqBandPayload,
    !Deserialize Body SaveEqPresetPayload, !Deserialize Body NameOnlyEqPresetPayload}.

Definition Edit : Type := result (Settings * list (str * Value)) PluginError.
Definition asks {T} `{HasPayloadVersion T, !Deserialize Body T} (req : Request) (k : T -> Edit) : Edit :=
  let? p := parse_versioned req in k p.
Definition unless {A} (b : bool) (m : Message) (r : result A PluginError) : result A PluginError :=
  if b then Err (Permanent m) else r.

Definition edit (vb : Verb) (req : Request) (s : Settings) : option Edit :=
  match vb with
  | SetResampling => Some (asks req (fun p : SetResamplingPayload =>
      unless (enabled (sr_policy p) && negb (known_quality (quality (sr_policy p)))) (BadQuality (quality (sr_policy p)))
        (Ok (with_resampling (sr_policy p) s, [(lit "resampling", VPolicy (sr_policy p))]))))
  | SetDop => Some (asks req (fun p : SetDopPayload =>
      Ok (with_dop (sd_value p) s, [(lit "dop", VBool (sd_value p))])))
  | SetMixerDevice => Some (asks req (fun p : SetMixerDevicePayload =>
      unless (whitespace_only (smd_value p)) (WhitespaceOnly (lit "mixer_device"))
        (Ok (with_mixer_device (smd_value p) s, [(lit "mixer_device", VString (smd_value p))]))))
  | SetMixerControl => Some (asks req (fun p : SetMixerControlPayload =>
      unless (whitespace_only (smc_value p)) (WhitespaceOnly (lit "mixer_control"))
        (Ok (with_mixer_control (smc_value p) s, [(lit "mixer_control", VString (smc_value p))]))))
  | SetOutputDevice => Some (asks req (fun p : SetOutputDevicePayload =>
      unless (whitespace_only (sod_value p)) (WhitespaceOnly (lit "output_device"))
        (Ok (with_output_device (sod_value p) s, [(lit "output_device", VString (sod_value p))]))))
  | SetVolumeNormalization => Some (asks req (fun p : SetVolumeNormalizationPayload =>
      Ok (with_volume_normalization (svn_value p) s, [(lit "volume_normalization", VBool (svn_value p))])))
  | SetStartupVolume => Some (asks req (fun p : SetVolumePercentPayload =>
      unless (100 <? svp_value p) (PercentRange (lit "startup_volume_percent") (svp_value p))
        (unless (max_volume_percent s <? svp_value p) (StartupAboveMax (svp_value p) (max_volume_percent s))
          (Ok (with_startup_volume_percent (svp_value p) s,
               [(lit "startup_volume_percent", VNumber (svp_value p))])))))
  | SetMaxVolume => Some (asks req (fun p : SetVolumePercentPayload =>
      unless (100 <? svp_value p) (PercentRange (lit "max_volume_percent") (svp_value p))
        (Ok (with_max_volume_percent (svp_value p)
               (with_startup_volume_percent (N.min (startup_volume_percent s) (svp_value p)) s),
             (lit "max_volume_percent", VNumber (svp_value p)) ::
             (if svp_value p <? startup_volume_percent s
              then [(lit "startup_volume_percent", VNumber (svp_value p))] else [])))))
  | SetVolumeCurve => Some (asks req (fun p : SetVolumeCurvePayload =>
      match volume_curve_from_wire (svc_value p) with
      | None => Err (Permanent (BadVolumeCurve (svc_value p)))
      | Some c => Ok (with_volume_curve c s, [(lit "volume_curve", VString (svc_value p))])
      end))
  | SetExclusiveMode => Some (asks req (fun p : SetExclusiveModePayload =>
      Ok (with_exclusive_mode (sem_value p) s, [(lit "exclusive_mode", VBool (sem_value p))])))
  | SetCrossfadeSeconds => Some (asks req (fun p : SetCrossfadeSecondsPayload =>
      unless (CROSSFADE_SECONDS_MAX <? scs_value p) (CrossfadeRange (scs_value p))
        (Ok (with_crossfade_seconds (scs_value p) s, [(lit "crossfade_seconds", VNumber (scs_value p))]))))
  | SetGapless => Some (asks req (fun p : SetGaplessPayload =>
      Ok (with_gapless (sg_value p) s, [(lit "gapless", VBool (sg_value p))])))
  | SetEqEngaged => Some (asks req (fun p : SetEqEngagedPayload =>
      Ok (with_eq_engaged (see_value p) s, [(lit "eq_engaged", VBool (see_value p))])))
  | SetEqBand => Some (asks req (fun p : SetEqBandPayload =>
      let? b := check_eq_band p in
      let bs := <[N.to_nat (seb_index p) := b]> (pad_bands (eq_bands s)) in
      Ok (with_eq_bands bs s, [(lit "eq_bands", VBands bs)])))
  | SaveEqPreset => Some (asks req (fun p : SaveEqPresetPayload =>
      let? _ := validate_preset_name (sep_name p) in
      unless (negb (bool_decide (length (sep_bands p) = EQ_BAND_COUNT))) (PresetBandCount (length (sep_bands p)))
        (let? _ := validate_eq_bands 0 (sep_bands p) in
         let fresh_name := bool_decide (find_preset (sep_name p) (eq_presets s) = None) in
         unless (fresh_name && Nat.leb EQ_PRESET_LIBRARY_MAX_COUNT (length (eq_presets s))) PresetCap
           (let ps := if fresh_name then eq_presets s ++ [{| name := sep_name p; bands := sep_bands p |}]
                      else overwrite_preset (sep_name p) (sep_bands p) (eq_presets s) in
            Ok (with_eq_presets ps s, [(lit "eq_presets", VPresets ps)])))))
  | RecallEqPreset => Some (asks req (fun p : NameOnlyEqPresetPayload =>
      let? _ := validate_preset_name (nop_name p) in
      match find_preset (nop_name p) (eq_presets s) with
      | None => Err (Permanent (PresetUnknown (nop_name p)))
      | Some e =>
          unless (negb (bool_decide (length (bands e) = EQ_BAND_COUNT))) (PresetDrift (nop_name p) (length (bands e)))
            (Ok (with_eq_bands (bands e) s, [(lit "eq_bands", VBands (bands e))]))
      end))
  | DeleteEqPreset => Some (asks req (fun p : NameOnlyEqPresetPayload =>
      let? _ := validate_preset_name (nop_name p) in
      unless (bool_decide (find_preset (nop_name p) (eq_presets s) = None)) (PresetUnknown (nop_name p))
        (let ps := filter (fun e => name e <> nop_name p) (eq_presets s) in
         Ok (with_eq_presets ps s, [(lit "eq_presets", VPresets ps)]))))
  | ResetToDefaults => Some (asks req (fun _ : EmptyPayload =>
      Ok (Settings_default, [(lit "reset_to_defaults", VSettings Settings_default)])))
  | GetSettings | ListEqPresetsVerb | SetMixerType | RestoreLastKnownGood => None
  end.

End spec.

(** ** The setters *)

(** What [emit_changed] sends. *)
Definition change_notices (self : Handles) (s : Settings) (fv : str * Value) : list Notice :=
  (if happening_emitter self then [Changed fv.1 fv.2 s] else []) ++
  (if subject_announcer self then [SettingsState s] else []).
Definition says (l : list Notice) (w : World) : World := fold_left (fun w n => say n w) l w.

Lemma says_app l m w : says (l ++ m) w = says m (says l w).
Proof. apply fold_left_app. Qed.
Lemma says_spec l w : settings (says l w) = settings w /\ said (says l w) = said w ++ l /\
  (forall f, content (says l w) f = content w f) /\ (fs_ok w -> fs_ok (says l w)) /\ fates (says l w) = fates w.
Proof.
  revert w. induction l as [|n l IH]; intros w; cbn [says fold_left]; [by rewrite app_nil_r|].
  destruct (IH (say n w)) as (H1 & H2 & H3 & H4 & H5). unfold says in *.
  rewrite H1, H2, H5. split_and!; [done|cbn; by rewrite <-app_assoc| |intros [? ?]; apply H4; by split|done].
  intros f. by rewrite H3.
Qed.

Lemma run_emit_changed self f v w :
  run (emit_changed self f v) w = (says (change_notices self (settings w) (f, v)) w, tt).
Proof.
  unfold emit_changed, publish_settings_state, current, act, change_notices.
  destruct (happening_emitter self), (subject_announcer self);
    cbn [pbind run perform fst snd app says fold_left]; by rewrite ?set_settings_same;
    cbn [settings say]; rewrite ?set_settings_same.
Qed.

(** *** The presets *)

Lemma find_preset_None n ps : find_preset n ps = None <-> Forall (fun p => name p <> n) ps.
Proof. unfold find_preset. rewrite fmap_None, list_find_None. done. Qed.
Lemma find_preset_cons n p ps :
  find_preset n (p :: ps) = if bool_decide (name p = n) then Some p else find_preset n ps.
Proof.
  unfold find_preset. cbn [list_find]. case_bool_decide; [by rewrite decide_True|].
  rewrite decide_False by done. by destruct (list_find _ ps) as [[? ?]|].
Qed.
Lemma find_preset_Some n ps p : find_preset n ps = Some p -> p ∈ ps /\ name p = n.
Proof.
  induction ps as [|e ps IH]; [done|]. rewrite find_preset_cons. case_bool_decide as Hn.
  - intros [= <-]. split; [apply list_elem_of_here|done].
  - intros H. destruct (IH H). split; [by apply list_elem_of_further|done].
Qed.
Lemma find_preset_app n ps qs :
  find_preset n (ps ++ qs) = match find_preset n ps with Some p => Some p | None => find_preset n qs end.
Proof.
  induction ps as [|e ps IH]; cbn [app]; [done|]. rewrite !find_preset_cons. by case_bool_decide.
Qed.
Lemma find_overwrite m n bs ps :
  bands <$> find_preset m (overwrite_preset n bs ps) =
  if bool_decide (m = n) then (fun _ => bs) <$> find_preset n ps else bands <$> find_preset m ps.
Proof.
  induction ps as [|e ps IH]; cbn [overwrite_preset]; [by case_bool_decide|].
  destruct (bool_decide_reflect (name e = n)) as [<-|Hn]; rewrite !find_preset_cons; cbn [name].
  - repeat case_bool_decide; subst; done.
  - rewrite (bool_decide_eq_false_2 (name e = n) Hn).
    destruct (bool_decide_reflect (name e = m)) as [<-|Hm]; [by rewrite bool_decide_eq_false_2|exact IH].
Qed.
Lemma filter_presets_None n ps : find_preset n ps = None -> filter (fun e => name e <> n) ps = ps.
Proof. rewrite find_preset_None. induction 1; [done|]. rewrite filter_cons_True by done. by f_equal. Qed.
Lemma filter_presets_length n ps :
  bool_decide (length (filter (fun e => name e <> n) ps) = length ps) = bool_decide (find_preset n ps = None).
Proof.
  apply bool_decide_ext. split; [|by intros ->%filter_presets_None].
  intros Hl. rewrite find_preset_None. induction ps as [|e ps IH]; [done|].
  pose proof (length_filter (fun e => name e <> n) ps).
  rewrite filter_cons in Hl. case_decide as He; cbn in Hl; [|lia]. constructor; [done|]. apply IH. lia.
Qed.
Lemma find_filter m n ps :
  find_preset m (filter (fun e => name e <> n) ps) = if bool_decide (m = n) then None else find_preset m ps.
Proof.
  induction ps as [|e ps IH]; [by case_bool_decide|]. rewrite filter_cons, find_preset_cons.
  destruct (decide (name e <> n)) as [He|He].
  - rewrite find_preset_cons, IH. repeat case_bool_decide; congruence.
  - rewrite IH. apply dec_stable in He. repeat case_bool_decide; congruence.
Qed.
Lemma with_eq_presets_same s : with_eq_presets (eq_presets s) s = s.
Proof. by destruct s. Qed.

(** *** A setter, run *)

(** How a request for [e] ends: refused with nothing done, or the settings changed and
    either written and announced, or neither. *)
Section commits.
Context (to_toml : Settings -> result str str) (self : Handles).

Definition commits (path : File) (w : World) (e : Edit) (o : World * result Response PluginError) : Prop :=
  match e with
  | Err err => o = (w, Err err)
  | Ok (s', evs) =>
      settings o.1 = s' /\ fs_ok o.1 /\
      match o.2 with
      | Ok answer =>
          answer = SimpleOk /\ said o.1 = said w ++ concat (map (change_notices self s') evs) /\
          exists body, to_toml s' = Ok body /\ content o.1 path = Some body
      | Err _ =>
          said o.1 = said w /\ content o.1 path = content w path /\
          (fates w <> [] \/ exists err, to_toml s' = Err err)
      end /\
      (fates w = [] -> fates o.1 = [] /\
       forall old, content w path = Some old -> content o.1 (last_known_good_path path) = Some old)
  end.

Lemma set_settings_ok s w : fs_ok w -> fs_ok (set_settings s w).
Proof. intros [? ?]. by split. Qed.

Lemma run_change {R} path (block : Block R) (announce : R -> Prog unit) (ev : R -> list (str * Value)) w :
  fs_ok w -> state_path self = Some path ->
  (forall r w, run (announce r) w = (says (concat (map (change_notices self (settings w)) (ev r))) w, tt)) ->
  (forall e, (block (settings w)).2 = Err e -> (block (settings w)).1 = settings w) ->
  commits path w (let? r := (block (settings w)).2 in Ok ((block (settings w)).1, ev r))
    (run (change to_toml self block announce) w).
Proof.
  intros Hok Hpath Hann Hrefuse. unfold change, act. cbn [pbind run perform].
  destruct (block (settings w)) as [s' [r|e]] eqn:Eb; cbn [fst snd run commits].
  2: { cbn in Hrefuse. by rewrite (Hrefuse e eq_refl), set_settings_same. }
  rewrite run_bind. set (w1 := set_settings s' w).
  assert (Hok1 : fs_ok w1) by (by apply set_settings_ok).
  destruct (holds_run _ _ _ _ (holds_persist to_toml (fun _ => Err []) self path w1 Hok1 Hpath)) as [[Hc _] Hp].
  destruct (run (persist_settings to_toml self) w1) as [w2 [u|e]]; cbn [fst snd run] in *.
  - rewrite run_bind, Hann. cbn [fst snd run].
    destruct (says_spec (concat (map (change_notices self (settings w2)) (ev r))) w2) as (H1 & H2 & H3 & H4 & H5).
    destruct Hc as [[Hok2 Hm _] Hf2]. injection Hm as Hs Hsaid _ _ _ _ _.
    rewrite H1, H2, !H3, H5, Hs, Hsaid. cbn. destruct Hp as [Hp Hl]. split_and!; auto. rewrite <-Hs. by apply H4.
  - destruct Hc as [[Hok2 Hm _] Hf2]. injection Hm as Hs Hsaid _ _ _ _ _.
    destruct Hp as [[Hp1 Hp2] Hl]. split_and!; auto.
Qed.

End commits.

(** ** The theorems *)

Section theorems.
Context {Body : Type}
  `{!Deserialize Body EmptyPayload, !Deserialize Body SetResamplingPayload, !Deserialize Body SetMixerTypePayload,
    !Deserialize Body SetDopPayload, !Deserialize Body SetMixerDevicePayload, !Deserialize Body SetMixerControlPayload,
    !Deserialize Body SetOutputDevicePayload, !Deserialize Body SetVolumeNormalizationPayload,
    !Deserialize Body SetVolumePercentPayload, !Deserialize Body SetVolumeCurvePayload,
    !Deserialize Body SetExclusiveModePayload, !Deserialize Body SetCrossfadeSecondsPayload,
    !Deserialize Body SetGaplessPayload, !Deserialize Body SetEqEngagedPayload, !Deserialize Body SetEqBandPayload,
    !Deserialize Body SaveEqPresetPayload, !Deserialize Body NameOnlyEqPresetPayload}.
Context (to_toml : Settings -> result str str) (from_toml : str -> result Settings str)
  (report : PluginError -> str) (canonical_id : str).
Variable self : Handles.
Implicit Types (req : Request (Body := Body)).
Local Notation handle := (handle to_toml from_toml report canonical_id self).
Local Notation handle_request := (handle_request to_toml from_toml report canonical_id self).
Local Notation commits := (commits to_toml self).

Lemma run_emit_one f v w :
  run (emit_changed self f v) w = (says (concat (map (change_notices self (settings w)) [(f, v)])) w, tt).
Proof. rewrite run_emit_changed. cbn [map concat]. by rewrite app_nil_r. Qed.

(** A plain assignment. *)
Lemma run_put path f field value w : fs_ok w -> state_path self = Some path ->
  commits path w (Ok (f (settings w), [(field, value)]))
    (run (change to_toml self (put f) (fun _ => emit_changed self field value)) w).
Proof.
  intros Hok Hpath.
  apply (run_change to_toml self path (put f) _ (fun _ => [(field, value)]) w Hok Hpath); [|done].
  intros _ w'. apply run_emit_one.
Qed.

(** A handler that only announces the one field of its block. *)
Lemma run_block {R} path (block : Block R) field (value : R -> Value) w e : fs_ok w -> state_path self = Some path ->
  (forall e, (block (settings w)).2 = Err e -> (block (settings w)).1 = settings w) ->
  e = (let? r := (block (settings w)).2 in Ok ((block (settings w)).1, [(field, value r)])) ->
  commits path w e (run (change to_toml self block (fun r => emit_changed self field (value r))) w).
Proof.
  intros Hok Hpath Hrefuse ->. apply (run_change to_toml self path block _ (fun r => [(field, value r)])); try done.
  intros r w'. apply run_emit_one.
Qed.

Lemma put_max_spec n s :
  (put_max n s).1 = with_max_volume_percent n (with_startup_volume_percent (N.min (startup_volume_percent s) n) s).
Proof.
  unfold put_max. cbn [fst]. destruct s as [? ? ? ? ? ? ? ? st ? ? ? ? ? ? ? ?]. cbn.
  destruct (N.ltb_spec n st) as [E|E]; unfold with_max_volume_percent, with_startup_volume_percent; cbn; f_equal; lia.
Qed.

Lemma run_set_max path n w : fs_ok w -> state_path self = Some path ->
  commits path w
    (Ok (with_max_volume_percent n (with_startup_volume_percent (N.min (startup_volume_percent (settings w)) n) (settings w)),
         (lit "max_volume_percent", VNumber n) ::
         (if n <? startup_volume_percent (settings w) then [(lit "startup_volume_percent", VNumber n)] else [])))
    (run (change to_toml self (put_max n) (fun startup_clamped =>
       let! _ := emit_changed self (lit "max_volume_percent") (VNumber n) in
       if startup_clamped then emit_changed self (lit "startup_volume_percent") (VNumber n) else Ret tt)) w).
Proof.
  intros Hok Hpath.
  set (ev := fun b : bool => (lit "max_volume_percent", VNumber n) ::
               (if b then [(lit "startup_volume_percent", VNumber n)] else [])).
  assert (forall (announce : bool -> Prog unit),
    (forall r w, run (announce r) w = (says (concat (map (change_notices self (settings w)) (ev r))) w, tt)) ->
    commits path w (Ok ((put_max n (settings w)).1, ev (n <? startup_volume_percent (settings w))))
      (run (change to_toml self (put_max n) announce) w)) as H.
  { intros announce Ha. by apply (run_change to_toml self path (put_max n) announce ev). }
  match goal with |- context [change _ _ _ ?a] => specialize (H a) end.
  rewrite put_max_spec in H. apply H.
  intros b w'. rewrite run_bind, run_emit_changed. cbn [fst snd].
    destruct b; cbn [ev map concat]; rewrite ?app_nil_r; [|done]. rewrite run_emit_changed, says_app.
    by destruct (says_spec (change_notices self (settings w') (lit "max_volume_percent", VNumber n)) w') as [-> _].
Qed.

(** The payload read, and a test refused. *)
Ltac parsed p :=
  unfold with_payload; match goal with |- context [parse_versioned ?r] => destruct (parse_versioned r) as [p|?] end;
  cbn beta iota; [|reflexivity].
Ltac tested := unfold unless at 1; match goal with |- context [if ?b then Err _ else _] => destruct b end;
  [reflexivity|].

Lemma commits_named path p w (k : Prog (result Response PluginError)) (e : Edit) n : 
  (validate_preset_name n = Ok tt -> commits path w e (run k w)) ->
  p = n ->
  commits path w (let? _ := validate_preset_name p in e)
    (run (match validate_preset_name p with Err e => Ret (Err e) | Ok _ => k end) w).
Proof. intros H ->. destruct (validate_preset_name n) as [[]|]; [by apply H|reflexivity]. Qed.

(** A request of a setter, from its payload to its answer. *)
Lemma handle_commits path vb req w e :
  fs_ok w -> state_path self = Some path -> edit vb req (settings w) = Some e ->
  commits path w e (run (handle vb req) w).
Proof.
  intros Hok Hpath He.
  destruct vb; try discriminate He; cbn [edit] in He; apply (inj Some) in He as <-; unfold asks; cbn [Options.handle].
  - unfold handle_set_resampling. parsed p. tested. by apply run_put.
  - unfold handle_set_mixer_device. parsed p. tested. by apply run_put.
  - unfold handle_set_mixer_control. parsed p. tested. by apply run_put.
  - unfold handle_set_dop. parsed p. by apply run_put.
  - unfold handle_set_output_device. parsed p. tested. by apply run_put.
  - unfold handle_set_volume_normalization. parsed p. by apply run_put.
  - unfold handle_set_startup_volume. parsed p. tested.
    apply (run_block path (put_startup (svp_value p)) _ (fun _ => VNumber (svp_value p))); try done.
    + intros e. unfold put_startup. by destruct (_ <? _).
    + unfold put_startup, unless. by destruct (_ <? _).
  - unfold handle_set_max_volume. parsed p. tested. by apply run_set_max.
  - unfold handle_set_volume_curve. parsed p. destruct (volume_curve_from_wire _); [by apply run_put|reflexivity].
  - unfold handle_set_exclusive_mode. parsed p. by apply run_put.
  - unfold handle_set_crossfade_seconds. parsed p. tested. by apply run_put.
  - unfold handle_set_gapless. parsed p. by apply run_put.
  - unfold handle_set_eq_engaged. parsed p. by apply run_put.
  - unfold handle_set_eq_band. parsed p. destruct (check_eq_band p) as [b|]; [|reflexivity].
    by apply (run_block path (put_band (seb_index p) b) _ VBands).
  - unfold handle_save_eq_preset. parsed p. apply (commits_named _ _ _ _ _ (sep_name p)); [intros _|done].
    tested. destruct (validate_eq_bands _ _); [|reflexivity].
    apply (run_block path (put_preset (sep_name p) (sep_bands p)) _ VPresets); try done;
      unfold put_preset, unless; destruct (find_preset _ _) eqn:E.
    + done.
    + intros e. by destruct (Nat.leb _ _).
    + by rewrite bool_decide_eq_false_2.
    + rewrite bool_decide_eq_true_2 by done. cbn [andb]. by destruct (Nat.leb _ _).
  - unfold handle_recall_eq_preset. parsed p. apply (commits_named _ _ _ _ _ (nop_name p)); [intros _|done].
    apply (run_block path (take_preset (nop_name p)) _ VBands); try done;
      unfold take_preset, unless; destruct (find_preset _ _) as [e|]; try done.
    + intros e'. by case_bool_decide.
    + by case_bool_decide.
  - unfold handle_delete_eq_preset. parsed p. apply (commits_named _ _ _ _ _ (nop_name p)); [intros _|done].
    apply (run_block path (drop_preset (nop_name p)) _ VPresets); try done; unfold drop_preset, unless;
      rewrite filter_presets_length; case_bool_decide as E; try done.
    intros e _. cbn. by rewrite filter_presets_None, with_eq_presets_same.
  - unfold handle_reset_to_defaults. parsed p. apply (run_put path (fun _ => Settings_default)); done.
Qed.

(** ** Bounds *)

Definition band_ok (b : EqBand) : bool :=
  in_range EQ_BAND_FREQ_MIN EQ_BAND_FREQ_MAX (freq_hz b) &&
  in_range_f32 EQ_BAND_GAIN_MIN_DB EQ_BAND_GAIN_MAX_DB (gain_db b) && in_range_f32 EQ_BAND_Q_MIN EQ_BAND_Q_MAX (q b).
Definition bands_ok (bs : list EqBand) : Prop := length bs = EQ_BAND_COUNT /\ Forall (fun b => band_ok b = true) bs.
Definition preset_ok (p : NamedEqPreset) : Prop :=
  name p <> [] /\ str_len (name p) <= EQ_PRESET_NAME_MAX_LEN /\ bands_ok (bands p).
Record valid (s : Settings) : Prop := {
  valid_volume : startup_volume_percent s <= max_volume_percent s /\ max_volume_percent s <= 100;
  valid_crossfade : crossfade_seconds s <= CROSSFADE_SECONDS_MAX;
  valid_quality : enabled (resampling s) = true -> known_quality (quality (resampling s)) = true;
  valid_coordinates : whitespace_only (mixer_device s) = false /\ whitespace_only (mixer_control s) = false /\
                      whitespace_only (output_device s) = false;
  valid_bands : bands_ok (eq_bands s);
  valid_presets : Forall preset_ok (eq_presets s) /\ NoDup (map name (eq_presets s)) /\
                  (length (eq_presets s) <= EQ_PRESET_LIBRARY_MAX_COUNT)%nat }.

Lemma valid_default : valid Settings_default.
Proof.
  split; cbn; try done; try (split_and!; [done..|]); try lia; try constructor; try done; try lia.
  all: by repeat constructor.
Qed.

Lemma validate_eq_bands_ok i bs : validate_eq_bands i bs = Ok tt -> Forall (fun b => band_ok b = true) bs.
Proof.
  revert i. induction bs as [|b bs IH]; intros i; cbn [validate_eq_bands]; [by constructor|].
  unfold validate_eq_band, band_ok at 1.
  destruct (in_range _ _ _) eqn:E1, (in_range_f32 _ _ (gain_db b)) eqn:E2, (in_range_f32 _ _ (q b)) eqn:E3;
    cbn [negb]; try discriminate. intros H. constructor; [unfold band_ok; by rewrite E1, E2, E3|by eapply IH].
Qed.
Lemma check_eq_band_ok p b : check_eq_band p = Ok b -> band_ok b = true /\ (N.to_nat (seb_index p) < EQ_BAND_COUNT)%nat.
Proof.
  unfold check_eq_band, band_ok. destruct (Nat.leb_spec EQ_BAND_COUNT (N.to_nat (seb_index p))); [done|].
  destruct (in_range _ _ _) eqn:E1, (in_range_f32 _ _ (seb_gain_db p)) eqn:E2, (in_range_f32 _ _ (seb_q p)) eqn:E3;
    cbn [negb]; try discriminate. intros [= <-]. cbn. by rewrite E1, E2, E3.
Qed.
Lemma validate_preset_name_ok n : validate_preset_name n = Ok tt -> n <> [] /\ str_len n <= EQ_PRESET_NAME_MAX_LEN.
Proof.
  unfold validate_preset_name. destruct n as [|c n]; [done|]. cbn [str_is_empty].
  destruct (N.ltb_spec EQ_PRESET_NAME_MAX_LEN (str_len (c :: n))); [done|]. done.
Qed.

(** *** The blocks keep the bounds *)

Lemma valid_put_band i b s : valid s -> band_ok b = true -> (N.to_nat i < EQ_BAND_COUNT)%nat -> valid (put_band i b s).1.
Proof.
  intros [Hv Hc Hq Hco [Hl Hb] Hp] Hb0 Hi. unfold put_band. cbn [fst]. split; cbn; try done.
  unfold pad_bands. rewrite Hl. rewrite Nat.sub_diag, app_nil_r. split; [by rewrite length_insert|].
  by apply Forall_insert.
Qed.
Lemma overwrite_names n bs ps : map name (overwrite_preset n bs ps) = map name ps.
Proof. induction ps as [|e ps IH]; [done|]. cbn. case_bool_decide; cbn; by rewrite ?IH. Qed.
Lemma overwrite_ok n bs ps : bands_ok bs -> Forall preset_ok ps -> Forall preset_ok (overwrite_preset n bs ps).
Proof.
  intros Hbs. induction 1 as [|e ps He Hps IH]; [by constructor|]. cbn. case_bool_decide; constructor; try done.
  destruct He as (? & ? & ?). done.
Qed.
Lemma valid_put_preset n bs s : valid s -> n <> [] -> str_len n <= EQ_PRESET_NAME_MAX_LEN -> bands_ok bs ->
  valid (put_preset n bs s).1.
Proof.
  intros Hs Hn Hl Hbs. pose proof Hs as [Hv Hc Hq Hco Hb (Hp & Hnd & Hlen)]. unfold put_preset.
  destruct (find_preset n (eq_presets s)) as [e|] eqn:E.
  - split; cbn; try done. split_and!; [by apply overwrite_ok|by rewrite overwrite_names|].
    by rewrite <-(length_map name), overwrite_names, length_map.
  - destruct (Nat.leb_spec EQ_PRESET_LIBRARY_MAX_COUNT (length (eq_presets s))) as [?|Hroom]; [done|].
    split; try done. cbn [eq_presets with_eq_presets fst]. split_and!.
    + apply Forall_app. split; [done|]. by constructor.
    + rewrite map_app. apply NoDup_app. split_and!; [done| |apply NoDup_singleton].
      intros m Hm Hin. apply list_elem_of_singleton in Hin. cbn in Hin. subst m.
      apply list_elem_of_fmap in Hm as (e & He1 & He). rewrite find_preset_None, Forall_forall in E. by apply (E e).
    + rewrite length_app. cbn. lia.
Qed.
Lemma valid_take_preset n s : valid s -> valid (take_preset n s).1.
Proof.
  intros Hs. pose proof Hs as [Hv Hc Hq Hco Hb (Hp & Hnd & Hlen)]. unfold take_preset.
  destruct (find_preset n (eq_presets s)) as [e|] eqn:E; [|done]. case_bool_decide; [|done].
  destruct (find_preset_Some _ _ _ E) as [He _]. split; cbn; try done.
  rewrite Forall_forall in Hp. apply (Hp e He).
Qed.
Lemma filter_names n ps : NoDup (map name ps) -> NoDup (map name (filter (fun p => name p <> n) ps)).
Proof.
  induction ps as [|e ps IH]; [done|]. cbn [map]. intros [He Hps]%NoDup_cons. rewrite filter_cons.
  case_decide; cbn [map]; [|by apply IH]. apply NoDup_cons. split; [|by apply IH].
  intros (x & Hx & [_ Hin]%list_elem_of_filter)%list_elem_of_fmap. apply He, list_elem_of_fmap. eauto.
Qed.
Lemma valid_drop_preset n s : valid s -> valid (drop_preset n s).1.
Proof.
  intros [Hv Hc Hq Hco Hb (Hp & Hnd & Hlen)]. unfold drop_preset.
  assert (valid (with_eq_presets (filter (fun p => name p <> n) (eq_presets s)) s)); [|by case_bool_decide].
  split; cbn; try done. split_and!.
  - rewrite Forall_forall in Hp |- *. intros x [_ Hx]%list_elem_of_filter. by apply Hp.
  - by apply filter_names.
  - etrans; [apply length_filter|done].
Qed.
Lemma valid_put_startup n s : valid s -> valid (put_startup n s).1.
Proof.
  intros Hs. pose proof Hs as [Hv Hc Hq Hco Hb Hp]. unfold put_startup.
  destruct (N.ltb_spec (max_volume_percent s) n); [done|]. split; cbn; try done. lia.
Qed.
Lemma valid_put_max n s : valid s -> n <= 100 -> valid (put_max n s).1.
Proof.
  intros [Hv Hc Hq Hco Hb Hp] Hn. rewrite put_max_spec. split; cbn; try done. lia.
Qed.
Lemma valid_mixer_type m s : valid s -> valid (with_mixer_type m s).
Proof. intros [? ? ? ? ? ?]. by split. Qed.

(** *** The programs keep the bounds *)

Section invariant.
Context (toml_reads_back : forall s body, to_toml s = Ok body -> from_toml body = Ok s).
Variable path : File.
Context (Hpath : state_path self = Some path).

(** The settings are within the bounds, and so are those of the state file. *)
Record sound (w : World) : Prop := {
  sound_files : fs_ok w;
  sound_memory : valid (settings w);
  sound_disk : forall body s, content w path = Some body -> from_toml body = Ok s -> valid s }.

(** [p] keeps [sound] at every step, and answers with what has [P]. *)
Definition keepsv {A} (p : Prog A) (P : A -> Prop) : Prop :=
  forall w, sound w -> holds sound p (fun _ a => P a) w.
Definition keeps {A} (p : Prog A) : Prop := keepsv p (fun _ => True).

Lemma keepsv_ret {A} (a : A) (P : A -> Prop) : P a -> keepsv (Ret a) P.
Proof. by intros HP w Hw. Qed.
Lemma keepsv_bind {A B} (p : Prog A) (k : A -> Prog B) P R :
  keepsv p P -> (forall a, P a -> keepsv (k a) R) -> keepsv (pbind p k) R.
Proof.
  intros Hp Hk w Hw. apply holds_compose. eapply holds_mono; [done| |by apply Hp].
  intros w' a Hw' HP. by apply Hk.
Qed.
Lemma keepsv_weaken {A} (p : Prog A) (P R : A -> Prop) : keepsv p P -> (forall a, P a -> R a) -> keepsv p R.
Proof. intros Hp HPR w Hw. eapply holds_mono; [done| |by apply Hp]. auto. Qed.
Lemma keeps_done {A} (a : A) : keeps (Ret a).
Proof. by apply keepsv_ret. Qed.
Lemma keeps_seq {A B} (p : Prog A) (k : A -> Prog B) : keeps p -> (forall a, keeps (k a)) -> keeps (pbind p k).
Proof. intros Hp Hk. eapply keepsv_bind; [exact Hp|]. intros a _. apply Hk. Qed.
Lemma keepsv_act {R} (e : Act R) (P : R -> Prop) :
  (forall w, sound w -> sound (perform e w).1 /\ P (perform e w).2) -> keepsv (act e) P.
Proof.
  intros H w Hw. unfold act. cbn [holds]. destruct (H w Hw) as [? ?]. by destruct (perform e w).
Qed.

(** What does not touch the settings nor the files. *)
Lemma sound_same w w' : settings w' = settings w -> names w' = names w -> inodes w' = inodes w -> fresh w' = fresh w ->
  sound w -> sound w'.
Proof.
  intros Hs Hn Hi Hf [[H1 H2] Hm Hd]. split; [split| |]; unfold content; rewrite ?Hs, ?Hn, ?Hi, ?Hf; done.
Qed.
Lemma sound_set_settings s w : sound w -> valid s -> sound (set_settings s w).
Proof. intros [? ? ?] ?. split; [by apply set_settings_ok|done..]. Qed.

Lemma keeps_aside {R} (e : Act R) :
  match e with
  | Say _ | CountRequest | NextGeneration | CachedChannel | Resolve | Subscribe | CacheChannel | AwaitMatch _ _
  | LockTransition | UnlockTransition => True
  | _ => False
  end -> keeps (act e).
Proof.
  intros He. apply keepsv_act. intros w Hw. split; [|done].
  destruct e; try done; cbn [perform]; try by apply (sound_same w).
  - apply fated_cases; intros; by apply (sound_same w).
  - apply fated_cases; intros; by apply (sound_same w).
  - destruct (recv_loop _ _ _). by apply (sound_same w).
Qed.
Lemma keepsv_current : keepsv current valid.
Proof. apply keepsv_act. intros w Hw. cbn. rewrite set_settings_same. split; [done|apply Hw]. Qed.
Lemma keeps_assign s : valid s -> keeps (assign s).
Proof. intros Hs. apply keepsv_act. intros w Hw. cbn. split; [by apply sound_set_settings|done]. Qed.
Lemma keeps_mutation {R} (f : Settings -> Settings * R) : (forall s, valid s -> valid (f s).1) -> keeps (act (Update f)).
Proof.
  intros Hf. apply keepsv_act. intros w Hw. cbn. specialize (Hf (settings w) (sound_memory w Hw)).
  destruct (f (settings w)) as [s r]. cbn in *. split; [by apply sound_set_settings|done].
Qed.

Lemma keeps_persist : keeps (persist_settings to_toml self).
Proof.
  intros w Hw. eapply holds_mono; [| |exact (holds_persist to_toml from_toml self path w (sound_files w Hw) Hpath)];
    [|done]. intros w' [[[Hok Hm Hc] _] Hon]. injection Hm as Hs _ _ _ _ _ _. destruct Hw as [_ Hv Hd].
  split; [done|by rewrite Hs|]. intros body s Hb Hs0. destruct Hon as [Hon|(b & Hb' & Hon)]; [apply (Hd body); congruence|].
  assert (b = body) as -> by congruence. apply toml_reads_back in Hb'. assert (s = settings w) as -> by congruence. done.
Qed.
Lemma keepsv_load :
  keepsv (load_settings_from_disk from_toml self) (fun r => match r with Ok s => valid s | Err _ => True end).
Proof.
  intros w Hw. eapply holds_mono; [| |exact (holds_load from_toml self path w (sound_files w Hw) Hpath)].
  - intros w' [[Hok Hm Hc] _]. injection Hm as Hs _ _ _ _ _ _. destruct Hw as [_ Hv Hd].
    split; [done|by rewrite Hs|]. intros body s Hb. apply Hd. rewrite <-Hb. symmetry. apply Hc, not_elem_of_nil.
  - intros w' [s|e] _ [Hr _]; [|done]. destruct Hr as [->|(body & Hb & Hs)]; [apply valid_default|].
    by apply (sound_disk w Hw body).
Qed.

Lemma keeps_publish : keeps (publish_settings_state self).
Proof.
  unfold publish_settings_state. destruct (subject_announcer self); [|apply keeps_done].
  eapply keepsv_bind; [apply keepsv_current|]. intros s _. by apply keeps_aside.
Qed.
Lemma keeps_emit_changed f v : keeps (emit_changed self f v).
Proof.
  apply keeps_seq; [|intros _; apply keeps_publish]. destruct (happening_emitter self); [|apply keeps_done].
  eapply keepsv_bind; [apply keepsv_current|]. intros s _. by apply keeps_aside.
Qed.
Lemma keeps_lifecycle n : keeps (emit_lifecycle self n).
Proof. unfold emit_lifecycle. destruct (happening_emitter self); [by apply keeps_aside|apply keeps_done]. Qed.

Lemma keeps_change {R} (block : Block R) announce :
  (forall s, valid s -> valid (block s).1) -> (forall r, keeps (announce r)) ->
  keeps (change to_toml self block announce).
Proof.
  intros Hb Ha. unfold change. apply keeps_seq; [by apply keeps_mutation|]. intros [r|e]; [|apply keeps_done].
  apply keeps_seq; [apply keeps_persist|]. intros [u|e]; [|apply keeps_done].
  apply keeps_seq; [apply Ha|]. intros _. apply keeps_done.
Qed.
Lemma keeps_put f announce : (forall s, valid s -> valid (f s)) -> (forall r, keeps (announce r)) ->
  keeps (change to_toml self (put f) announce).
Proof. intros Hf. by apply keeps_change. Qed.

Lemma keeps_ensure : keeps (ensure_envelope_observed_channel self).
Proof.
  unfold ensure_envelope_observed_channel. apply keeps_seq; [by apply keeps_aside|]. intros cached.
  destruct cached; [apply keeps_done|]. do 2 (destruct (negb _); [apply keeps_done|]).
  apply keeps_seq; [by apply keeps_aside|]. intros [[]|e]; try apply keeps_done.
  apply keeps_seq; [by apply keeps_aside|]. intros [u|e]; [|apply keeps_done].
  apply keeps_seq; [by apply keeps_aside|]. intros _. apply keeps_done.
Qed.
Lemma keeps_await gen expected : keeps (await_envelope_ack canonical_id self gen expected).
Proof.
  apply keeps_seq; [apply keeps_ensure|]. intros [[]|e]; try apply keeps_done.
  apply keeps_seq; [by apply keeps_aside|]. intros r. apply keeps_done.
Qed.
Lemma keeps_request_envelope st : keeps (publish_envelope_requested self st).
Proof.
  unfold publish_envelope_requested. destruct (subject_announcer self); [|apply keeps_done].
  do 2 (apply keeps_seq; [by apply keeps_aside|]; intros ?). apply keeps_done.
Qed.
Lemma keeps_rollback from to ph reason : keeps (rollback_or_fail self from to ph reason).
Proof. apply keeps_seq; [apply keeps_lifecycle|]. intros _. apply keeps_done. Qed.
Lemma keeps_rollback_restore from to ph reason prior : valid prior ->
  keeps (rollback_or_fail_restore to_toml report self from to ph reason prior).
Proof.
  intros Hp. apply keeps_seq; [by apply keeps_assign|]. intros _. apply keeps_seq; [apply keeps_persist|].
  intros [u|e].
  - apply keeps_seq; [apply keeps_publish|]. intros _. apply keeps_seq; [apply keeps_lifecycle|]. intros _. apply keeps_done.
  - apply keeps_seq; [apply keeps_lifecycle|]. intros _. apply keeps_done.
Qed.

Lemma keeps_transition from to : keeps (run_mixer_transition to_toml report canonical_id self from to).
Proof.
  unfold run_mixer_transition. case_bool_decide; [apply keeps_done|].
  apply keeps_seq; [apply keeps_lifecycle|]. intros _.
  apply keeps_seq; [apply keeps_ensure|]. intros [?|e]; [|apply keeps_rollback].
  eapply keepsv_bind; [apply keepsv_current|]. intros s _.
  apply keeps_seq; [apply keeps_request_envelope|]. intros [gen|e]; [|apply keeps_rollback].
  apply keeps_seq; [apply keeps_await|]. intros [?|e]; [|apply keeps_rollback].
  eapply keepsv_bind; [apply keepsv_current|]. intros prior Hprior.
  apply keeps_seq; [apply keeps_mutation; apply valid_mixer_type|]. intros _.
  apply keeps_seq; [apply keeps_persist|]. intros [?|e].
  2: { apply keeps_seq; [by apply keeps_assign|]. intros _. apply keeps_rollback. }
  apply keeps_seq; [apply keeps_publish|]. intros _.
  eapply keepsv_bind; [apply keepsv_current|]. intros now _.
  destruct (negb _); [by apply keeps_rollback_restore|].
  apply keeps_seq; [apply keeps_request_envelope|]. intros [gen2|e]; [|by apply keeps_rollback_restore].
  apply keeps_seq; [apply keeps_await|]. intros [?|e]; [|by apply keeps_rollback_restore].
  apply keeps_seq; [apply keeps_lifecycle|]. intros _. apply keeps_done.
Qed.
Lemma keeps_within {A} n (p : Prog A) : keeps p -> keeps (within n p).
Proof. intros Hp w Hw. eapply holds_mono; [done| |by apply holds_within, Hp]. done. Qed.

Ltac keep_field := apply keeps_put; [intros s [? ? ? ? ? ?]; split; cbn; first [done|tauto]|intros _; apply keeps_emit_changed].

Lemma keeps_handle vb req : vb <> RestoreLastKnownGood -> keeps (handle vb req).
Proof.
  intros Hvb. destruct vb; try done; cbn [Options.handle].
  1: unfold handle_get_settings. 2: unfold handle_set_resampling. 3: unfold handle_set_mixer_type.
  4: unfold handle_set_mixer_device. 5: unfold handle_set_mixer_control. 6: unfold handle_set_dop.
  7: unfold handle_set_output_device. 8: unfold handle_set_volume_normalization. 9: unfold handle_set_startup_volume.
  10: unfold handle_set_max_volume. 11: unfold handle_set_volume_curve. 12: unfold handle_set_exclusive_mode.
  13: unfold handle_set_crossfade_seconds. 14: unfold handle_set_gapless. 15: unfold handle_set_eq_engaged.
  16: unfold handle_set_eq_band. 17: unfold handle_list_eq_presets. 18: unfold handle_save_eq_preset.
  19: unfold handle_recall_eq_preset. 20: unfold handle_delete_eq_preset. 21: unfold handle_reset_to_defaults.
  all: unfold with_payload; destruct (parse_versioned req) as [p|e]; [|apply keeps_done].
  - eapply keepsv_bind; [apply keepsv_current|]. intros s _. apply keeps_done.
  - destruct (enabled _ && _) eqn:E; [apply keeps_done|].
    apply keeps_put; [|intros _; apply keeps_emit_changed].
    intros s [? ? ? ? ? ?]; split; cbn; try done. intros He. rewrite He in E. cbn in E. by apply negb_false_iff in E.
  - destruct (mixer_type_from_wire _) as [to|]; [|apply keeps_done].
    eapply keepsv_bind; [apply keepsv_current|]. intros s Hs. destruct (_ && _); [apply keeps_done|].
    apply keeps_seq; [by apply keeps_aside|]. intros _. apply keeps_seq.
    { destruct (transition_budget req); [apply keeps_within, keeps_transition|].
      apply keeps_seq; [apply keeps_transition|]. intros o. apply keeps_done. }
    intros [o|].
    + apply keeps_seq; [by apply keeps_aside|]. intros _. apply keeps_done.
    + eapply keepsv_bind; [apply keepsv_load|]. intros [restored|e] Hr.
      all: apply keeps_seq; [try by apply keeps_assign|]; [..|intros _]; try apply keeps_done.
      all: apply keeps_seq; [apply keeps_lifecycle|]; intros _.
      all: apply keeps_seq; [by apply keeps_aside|]; intros _; apply keeps_done.
  - destruct (whitespace_only _) eqn:E; [apply keeps_done|keep_field].
  - destruct (whitespace_only _) eqn:E; [apply keeps_done|keep_field].
  - keep_field.
  - destruct (whitespace_only _) eqn:E; [apply keeps_done|keep_field].
  - keep_field.
  - destruct (100 <? _); [apply keeps_done|]. apply keeps_change; [apply valid_put_startup|].
    intros _. apply keeps_emit_changed.
  - destruct (N.ltb_spec 100 (svp_value p)); [apply keeps_done|].
    apply keeps_change; [intros s Hs; by apply valid_put_max|].
    intros b. apply keeps_seq; [apply keeps_emit_changed|]. intros _. destruct b; [apply keeps_emit_changed|apply keeps_done].
  - destruct (volume_curve_from_wire _); [keep_field|apply keeps_done].
  - keep_field.
  - destruct (N.ltb_spec CROSSFADE_SECONDS_MAX (scs_value p)); [apply keeps_done|keep_field].
  - keep_field.
  - keep_field.
  - destruct (check_eq_band p) as [b|] eqn:E; [|apply keeps_done]. apply check_eq_band_ok in E as [? ?].
    apply keeps_change; [intros s Hs; by apply valid_put_band|]. intros bs. apply keeps_emit_changed.
  - eapply keepsv_bind; [apply keepsv_current|]. intros s _. apply keeps_done.
  - destruct (validate_preset_name _) as [[]|] eqn:En; [|apply keeps_done]. apply validate_preset_name_ok in En as [? ?].
    case_bool_decide; cbn [negb]; [|apply keeps_done].
    destruct (validate_eq_bands _ _) as [[]|] eqn:Eb; [|apply keeps_done]. apply validate_eq_bands_ok in Eb.
    apply keeps_change; [intros s Hs; by apply valid_put_preset|]. intros bs. apply keeps_emit_changed.
  - destruct (validate_preset_name _); [|apply keeps_done].
    apply keeps_change; [intros s Hs; by apply valid_take_preset|]. intros bs. apply keeps_emit_changed.
  - destruct (validate_preset_name _); [|apply keeps_done].
    apply keeps_change; [intros s Hs; by apply valid_drop_preset|]. intros bs. apply keeps_emit_changed.
  - apply keeps_put; [intros s _; apply valid_default|intros _; apply keeps_emit_changed].
Qed.

Lemma keeps_request req : verb_of (request_type req) <> Some RestoreLastKnownGood -> keeps (handle_request req).
Proof.
  intros Hv. unfold Options.handle_request. destruct (negb _); [apply keeps_done|].
  destruct (past_deadline req); [apply keeps_done|]. destruct (verb_of _) as [vb|]; [|apply keeps_done].
  apply keeps_seq; [by apply keeps_aside|]. intros _. apply keeps_handle. congruence.
Qed.

(** Requests one after another, the last one cut by a crash after [n] actions. *)
Fixpoint serve (reqs : list (Request (Body := Body))) (w : World) : World :=
  match reqs with [] => w | req :: reqs' => serve reqs' (run (handle_request req) w).1 end.

(** C4: From settings within their bounds, on a disk that holds such settings, any sequence of
    requests, with any payloads, faults and transitions that time out, keeps the settings in
    memory and on the disk within them, even if the last request is cut at any action: the
    startup volume is at most the ceiling and the ceiling at most 100, the cross fade is at
    most 30 seconds, there are 10 bands within their ranges, and at most 32 presets with
    different names and bands within the ranges.  A restore of the last-known-good copy is
    not covered: it takes what the file says. *)
Theorem settings_stay_valid reqs req n w :
  sound w -> Forall (fun req => verb_of (request_type req) <> Some RestoreLastKnownGood) (reqs ++ [req]) ->
  sound (crash n (handle_request req) (serve reqs w)).
Proof.
  intros Hw [Hreqs Hreq]%Forall_app. rewrite Forall_singleton in Hreq.
  enough (sound (serve reqs w)) as Hs by exact (holds_crash _ n _ _ _ (keeps_request req Hreq _ Hs)).
  clear req n Hreq. revert w Hw. induction Hreqs as [|req reqs Hreq _ IH]; intros w Hw; cbn [serve]; [done|].
  apply IH. by apply (holds_run _ _ _ _ (keeps_request req Hreq w Hw)).
Qed.
End invariant.

(** ** Setters *)

(** C6: A request of a setter that is admitted either is refused, and then nothing but the
    count of requests changes, or changes the settings to those it asks for; these are
    then written to the state file and announced, with the old file kept as the
    last-known-good copy when nothing fails, and answered with [ok]; or an error of the
    disk is answered, the file is as before and nothing is announced. *)
Theorem setter_commits path req vb w e :
  fs_ok w -> state_path self = Some path -> loaded self = true -> past_deadline req = false ->
  verb_of (request_type req) = Some vb -> edit vb req (settings w) = Some e ->
  commits path (set_counters (requests w + 1) (generation w) w) e (run (handle_request req) w).
Proof.
  intros Hok Hpath Hl Hd Hv He. unfold Options.handle_request. rewrite Hl, Hd, Hv. unfold act. cbn [negb pbind run perform].
  apply handle_commits; [by destruct Hok; split|done|done].
Qed.

(** *** Restoring *)

Lemma run_restore path w old s : fs_ok w -> state_path self = Some path -> fates w = [] ->
  content w (last_known_good_path path) = Some old -> from_toml old = Ok s ->
  let o := run (restore_from_last_known_good from_toml self) w in
  o.2 = Ok s /\ fs_ok o.1 /\ fates o.1 = [] /\ said o.1 = said w /\
  content o.1 path = Some old /\ content o.1 (last_known_good_path path) = Some old.
Proof.
  intros Hok Hpath Hf Hl Hs. cbn zeta.
  destruct (holds_run _ _ _ _ (holds_restore from_toml self path w Hok Hpath)) as [[[Hc Hf'] _] Hr].
  destruct (run _ w) as [w' r]. cbn [fst snd] in *. unfold restored in Hr.
  destruct Hc as [Hok' Hm Hc]. injection Hm as _ Hsaid _ _ _ _ _.
  destruct r as [s'|e].
  - destruct Hr as (body & Hb & Hs' & Hp). assert (body = old) as -> by congruence.
    split_and!; [congruence|done|auto|done|done|]. rewrite Hc; [done|].
    pose proof (path_lkg path). pose proof (lkg_staging path). set_solver.
  - destruct Hr as [_ [Hr|[Hr|(body & e' & Hb & He)]]]; congruence.
Qed.

(** C8: When nothing fails, a restore after a setter gives the settings before the setter, in
    memory and on the disk, and a second restore changes nothing more. *)
Theorem restore_undoes_a_setter path vb req req' w old body s' evs p :
  fs_ok w -> state_path self = Some path -> fates w = [] ->
  content w path = Some old -> from_toml old = Ok (settings w) ->
  edit vb req (settings w) = Some (Ok (s', evs)) -> to_toml s' = Ok body ->
  parse_versioned (T := EmptyPayload) req' = Ok p ->
  let o1 := run (handle vb req) w in
  let o2 := run (handle RestoreLastKnownGood req') o1.1 in
  let o3 := run (handle RestoreLastKnownGood req') o2.1 in
  o1.2 = Ok SimpleOk /\ settings o1.1 = s' /\
  o2.2 = Ok SimpleOk /\ settings o2.1 = settings w /\ content o2.1 path = Some old /\
  o3.2 = Ok SimpleOk /\ settings o3.1 = settings w /\ content o3.1 path = Some old.
Proof.
  intros Hok Hpath Hf Hold Hs0 He Hbody Hp o1.
  pose proof (handle_commits path vb req w _ Hok Hpath He) as Hc. fold o1 in Hc.
  assert (Hagain : forall w1, fs_ok w1 -> fates w1 = [] -> content w1 (last_known_good_path path) = Some old ->
    let o := run (handle RestoreLastKnownGood req') w1 in
    o.2 = Ok SimpleOk /\ settings o.1 = settings w /\ content o.1 path = Some old /\
    fs_ok o.1 /\ fates o.1 = [] /\ content o.1 (last_known_good_path path) = Some old).
  { intros w1 Hok1 Hf1 Hl1. cbn [Options.handle]. unfold handle_restore_last_known_good, with_payload. rewrite Hp.
    destruct (run_restore path w1 old (settings w) Hok1 Hpath Hf1 Hl1 Hs0) as (H1 & H2 & H3 & H4 & H5 & H6).
    rewrite run_bind. destruct (run _ w1) as [w2 r]. cbn [fst snd] in *. subst r. cbn [run pbind assign act perform].
    rewrite run_bind, run_emit_changed. cbn [fst snd run].
    match goal with |- context [says ?l ?w3] => destruct (says_spec l w3) as (E1 & E2 & E3 & E4 & E5) end.
    rewrite E1, !E3, E5. split_and!; try done. apply E4. by apply set_settings_ok. }
  destruct Hc as (H1 & H2 & H3 & H4). destruct (H4 Hf) as [H5 H6].
  destruct (Hagain o1.1 H2 H5 (H6 old Hold)) as (R1 & R2 & R3 & R4 & R5 & R6).
  destruct (Hagain _ R4 R5 R6) as (S1 & S2 & S3 & _).
  cbn zeta. split_and!; try done. destruct o1.2 as [answer|e]; [by destruct H3 as (-> & _)|].
  destruct H3 as (_ & _ & [H|[err H]]); congruence.
Qed.

(** ** Presets *)

(** The library is a map from names to bands: a preset saved is found with its bands and
    recalled as they are, one deleted is gone and is refused, and no other is touched. *)
Theorem presets_are_a_map req s s' evs :
  (forall p, parse_versioned req = Ok p -> edit SaveEqPreset req s = Some (Ok (s', evs)) ->
     eq_bands s' = eq_bands s /\
     (forall m, bands <$> find_preset m (eq_presets s') =
        if bool_decide (m = sep_name p) then Some (sep_bands p) else bands <$> find_preset m (eq_presets s)) /\
     forall req' p', parse_versioned req' = Ok p' -> nop_name p' = sep_name p ->
       edit RecallEqPreset req' s' =
       Some (Ok (with_eq_bands (sep_bands p) s', [(lit "eq_bands", VBands (sep_bands p))]))) /\
  (forall p, parse_versioned req = Ok p -> edit DeleteEqPreset req s = Some (Ok (s', evs)) ->
     eq_bands s' = eq_bands s /\
     (forall m, find_preset m (eq_presets s') =
        if bool_decide (m = nop_name p) then None else find_preset m (eq_presets s)) /\
     edit RecallEqPreset req s' = Some (Err (Permanent (PresetUnknown (nop_name p))))).
Proof.
  split; intros p Hp He; cbn [edit] in He; apply (inj Some) in He; unfold asks in He; rewrite Hp in He; cbn beta iota in He.
  - destruct (validate_preset_name (sep_name p)) as [[]|] eqn:En; [|done]. unfold unless in He at 1.
    destruct (bool_decide_reflect (length (sep_bands p) = EQ_BAND_COUNT)) as [Hlen|]; [|done]. cbn [negb] in He.
    destruct (validate_eq_bands 0 (sep_bands p)) eqn:Eb; [|done]. unfold unless in He.
    destruct (_ && _) in He; [done|]. injection He as <- _. split; [done|].
    assert (Hfind : forall m, bands <$> find_preset m
              (if bool_decide (find_preset (sep_name p) (eq_presets s) = None)
               then eq_presets s ++ [{| name := sep_name p; bands := sep_bands p |}]
               else overwrite_preset (sep_name p) (sep_bands p) (eq_presets s)) =
              if bool_decide (m = sep_name p) then Some (sep_bands p) else bands <$> find_preset m (eq_presets s)).
    { intros m. case_bool_decide as E1.
      - rewrite find_preset_app, find_preset_cons. cbn [name].
        destruct (decide (m = sep_name p)) as [->|E2]; [by rewrite E1, !bool_decide_eq_true_2|].
        rewrite !bool_decide_eq_false_2 by congruence. by destruct (find_preset m _).
      - rewrite find_overwrite. case_bool_decide; [|done].
        destruct (find_preset (sep_name p) (eq_presets s)) eqn:E; [done|congruence]. }
    split; [exact Hfind|]. intros req' p' Hp' Hn. cbn [edit]. unfold asks. rewrite Hp'. cbn beta iota. rewrite Hn, En.
    specialize (Hfind (sep_name p)). rewrite (bool_decide_eq_true_2 (sep_name p = sep_name p) eq_refl) in Hfind. cbn [eq_presets with_eq_presets].
    destruct (find_preset _ _) as [e|]; [|done]. injection Hfind as ->. unfold unless.
    by rewrite (bool_decide_eq_true_2 _ Hlen).
  - destruct (validate_preset_name (nop_name p)) as [[]|] eqn:En; [|done]. unfold unless in He.
    case_bool_decide; [done|]. injection He as <- _. split; [done|]. cbn [eq_presets with_eq_presets].
    split; [intros m; apply find_filter|]. cbn [edit]. unfold asks. rewrite Hp. cbn beta iota. rewrite En.
    cbn [eq_presets with_eq_presets]. by rewrite find_filter, bool_decide_eq_true_2.
Qed.

(** ** The transition lock *)

(** Whether a program that owns the lock ([b]) still does after an action; [None] when the
    action would take a lock it has or give one it has not. *)
Definition lock_after {R} (e : Act R) (b : bool) : option bool :=
  match e with
  | LockTransition => if b then None else Some true
  | UnlockTransition => if b then Some false else None
  | _ => Some b
  end.
Fixpoint balanced {A} (b b' : bool) (p : Prog A) : Prop :=
  match p with
  | Ret _ => b = b'
  | Do e k => match lock_after e b with Some b1 => forall r, balanced b1 b' (k r) | None => False end
  end.

Lemma balanced_bind {A B} b b1 b' (p : Prog A) (k : A -> Prog B) :
  balanced b b1 p -> (forall a, balanced b1 b' (k a)) -> balanced b b' (pbind p k).
Proof.
  revert b. induction p as [a|R e f IH]; intros b; cbn [balanced pbind]; [by intros ->|].
  destruct (lock_after e b); [|done]. intros H Hk r. by apply IH.
Qed.
Lemma free_bind {A B} b (p : Prog A) (k : A -> Prog B) :
  balanced b b p -> (forall a, balanced b b (k a)) -> balanced b b (pbind p k).
Proof. apply balanced_bind. Qed.
Lemma balanced_within {A} n b (p : Prog A) : (forall b, balanced b b p) -> balanced b b (within n p).
Proof.
  intros H. assert (balanced true true p /\ balanced false false p) as [Ht Hf] by done. clear H.
  revert n b Ht Hf. induction p as [a|R e f IH]; intros n b; cbn [balanced within]; [done|].
  destruct n as [|n]; [done|]. cbn [balanced]. destruct e; cbn [lock_after]; try done; intros Ht Hf r; by apply IH.
Qed.

Ltac lockfree :=
  repeat match goal with
  | |- forall _, _ => intros ?
  | |- balanced _ _ (Ret _) => reflexivity
  | |- balanced _ _ (act _) => cbn [balanced act lock_after]
  | |- balanced _ _ (pbind _ _) => apply free_bind
  | |- balanced _ _ (match ?x with _ => _ end) => destruct x
  | |- _ = _ => reflexivity
  | |- balanced _ _ (let _ := _ in _) => cbn zeta
  end.

Create HintDb lockfree.
Lemma free_write_in_place path body b : balanced b b (write_in_place path body).
Proof. unfold write_in_place, or_permanent, write. lockfree. Qed.
Hint Resolve free_write_in_place : lockfree.
Lemma free_persist b : balanced b b (persist_settings to_toml self).
Proof. unfold persist_settings, or_permanent, copy, current. lockfree; auto with lockfree. Qed.
Hint Resolve free_persist : lockfree.
Lemma free_load b : balanced b b (load_settings_from_disk from_toml self).
Proof. unfold load_settings_from_disk, read_to_string. lockfree. Qed.
Lemma free_restore b : balanced b b (restore_from_last_known_good from_toml self).
Proof. unfold restore_from_last_known_good, or_permanent, read_to_string. lockfree; auto with lockfree. Qed.
Lemma free_publish b : balanced b b (publish_settings_state self).
Proof. unfold publish_settings_state, current. lockfree. Qed.
Hint Resolve free_load free_restore free_publish : lockfree.
Lemma free_emit_changed f v b : balanced b b (emit_changed self f v).
Proof. unfold emit_changed, current. lockfree; auto with lockfree. Qed.
Lemma free_lifecycle n b : balanced b b (emit_lifecycle self n).
Proof. unfold emit_lifecycle. lockfree. Qed.
Lemma free_ensure b : balanced b b (ensure_envelope_observed_channel self).
Proof. unfold ensure_envelope_observed_channel. lockfree. Qed.
Hint Resolve free_emit_changed free_lifecycle free_ensure : lockfree.
Lemma free_change {R} (block : Block R) announce b :
  (forall r, balanced b b (announce r)) -> balanced b b (change to_toml self block announce).
Proof. intros Ha. unfold change. lockfree; auto with lockfree. Qed.
Lemma free_rollback_restore from to ph reason prior b :
  balanced b b (rollback_or_fail_restore to_toml report self from to ph reason prior).
Proof. unfold rollback_or_fail_restore, assign. lockfree; auto with lockfree. Qed.
Hint Resolve free_change free_rollback_restore : lockfree.
Lemma free_transition from to b : balanced b b (run_mixer_transition to_toml report canonical_id self from to).
Proof.
  unfold run_mixer_transition, rollback_or_fail, publish_envelope_requested, await_envelope_ack, current, assign.
  lockfree; auto with lockfree.
Qed.
Hint Resolve free_transition : lockfree.

Lemma balanced_set_mixer_type req : balanced false false (handle SetMixerType req).
Proof.
  cbn [Options.handle]. unfold handle_set_mixer_type, with_payload, current.
  destruct (parse_versioned req) as [p|e]; [|done]. destruct (mixer_type_from_wire _) as [to|]; [|done].
  apply free_bind; [done|]. intros s. destruct (_ && _); [done|].
  apply (balanced_bind _ true); [done|]. intros _. apply (balanced_bind _ true).
  - destruct (transition_budget req); [apply balanced_within; auto with lockfree|]. lockfree. auto with lockfree.
  - intros [o|]; [by destruct o|]. apply (balanced_bind _ true); [auto with lockfree|]. intros disk.
    apply (balanced_bind _ true); [unfold assign; lockfree|]. intros _.
    apply (balanced_bind _ true); [auto with lockfree|]. intros _. done.
Qed.

Lemma balanced_request req : balanced false false (handle_request req).
Proof.
  unfold Options.handle_request. destruct (negb _); [done|]. destruct (past_deadline req); [done|].
  destruct (verb_of _) as [vb|]; [|done]. apply free_bind; [done|]. intros _.
  destruct vb; try apply balanced_set_mixer_type; cbn [Options.handle].
  1: unfold handle_get_settings. 2: unfold handle_set_resampling.
  3: unfold handle_set_mixer_device. 4: unfold handle_set_mixer_control. 5: unfold handle_set_dop.
  6: unfold handle_set_output_device. 7: unfold handle_set_volume_normalization. 8: unfold handle_set_startup_volume.
  9: unfold handle_set_max_volume. 10: unfold handle_set_volume_curve. 11: unfold handle_set_exclusive_mode.
  12: unfold handle_set_crossfade_seconds. 13: unfold handle_set_gapless. 14: unfold handle_set_eq_engaged.
  15: unfold handle_set_eq_band. 16: unfold handle_list_eq_presets. 17: unfold handle_save_eq_preset.
  18: unfold handle_recall_eq_preset. 19: unfold handle_delete_eq_preset. 20: unfold handle_restore_last_known_good.
  21: unfold handle_reset_to_defaults.
  all: unfold with_payload, current, assign; lockfree; auto with lockfree; apply free_change; lockfree; auto with lockfree.
Qed.

(** *** Interleaving *)

(** The owner of the lock, when there is one; every other program has not taken it, or has
    given it back. *)
Definition one_owner {A} (w : World) (ps : list (Prog A)) : Prop :=
  if locked w then exists i p, ps !! i = Some p /\ balanced true false p /\
                     forall j p', j <> i -> ps !! j = Some p' -> balanced false false p'
  else Forall (balanced false false) ps.

Lemma perform_locked {R} (e : Act R) w :
  locked (perform e w).1 = match e with LockTransition => true | UnlockTransition => false | _ => locked w end.
Proof.
  destruct e; cbn [perform]; try done; try (apply fated_cases; intros; cbn; try done; by destruct (names w !! _)).
  - by destruct (f _).
  - by destruct (recv_loop _ _ _).
Qed.
Lemma step_spec {A} (p : Prog A) w w' p' : step p w = Some (w', p') ->
  (balanced false false p -> (locked w' = locked w /\ balanced false false p') \/
     (locked w = false /\ locked w' = true /\ balanced true false p')) /\
  (balanced true false p -> (locked w' = locked w /\ balanced true false p') \/
     (locked w' = false /\ balanced false false p')).
Proof.
  destruct p as [a|R e k]; [done|]. cbn [step]. destruct (can_run e w) eqn:Er; [|done].
  pose proof (perform_locked e w) as Hl. destruct (perform e w) as [w1 r] eqn:Ep. cbn [fst] in Hl.
  intros [= <- <-]. cbn [balanced]. destruct e; cbn [lock_after can_run] in *; split; intros H; try done; eauto.
  right. split_and!; [by apply negb_true_iff|done|apply H].
Qed.

Lemma one_owner_step {A} (ps : list (Prog A)) i p p' w w' : one_owner w ps -> ps !! i = Some p ->
  step p w = Some (w', p') -> one_owner w' (<[i := p']> ps).
Proof.
  intros Hone Hi Hs. destruct (step_spec _ _ _ _ Hs) as [H0 H1]. pose proof (lookup_lt_Some _ _ _ Hi) as Hlt.
  unfold one_owner in *. destruct (locked w) eqn:Ew.
  - destruct Hone as (j & pj & Hj & Hbj & Hothers). destruct (decide (i = j)) as [->|Hij].
    + assert (pj = p) as -> by congruence. destruct (H1 Hbj) as [[-> Hb]|[-> Hb]].
      * exists j, p'. split_and!; [by apply list_lookup_insert_eq|done|]. intros k pk Hk.
        rewrite list_lookup_insert_ne by done. by apply Hothers.
      * apply Forall_lookup_2. intros k pk. destruct (decide (k = j)) as [->|Hk].
        -- rewrite list_lookup_insert_eq by done. by intros [= <-].
        -- rewrite list_lookup_insert_ne by done. by apply Hothers.
    + destruct (H0 (Hothers i p Hij Hi)) as [[-> Hb]|[? _]]; [|done].
      exists j, pj. split_and!; [by rewrite list_lookup_insert_ne|done|]. intros k pk Hk.
      destruct (decide (k = i)) as [->|Hki].
      * rewrite list_lookup_insert_eq by done. by intros [= <-].
      * rewrite list_lookup_insert_ne by done. by apply Hothers.
  - assert (Hp : balanced false false p) by (by eapply Forall_lookup_1 in Hi). destruct (H0 Hp) as [[-> Hb]|(_ & -> & Hb)].
    + by apply Forall_insert.
    + exists i, p'. split_and!; [by apply list_lookup_insert_eq|done|]. intros k pk Hk.
      rewrite list_lookup_insert_ne by done. by eapply Forall_lookup_1.
Qed.


(** ** The inline transition and the state machine of [transition.rs] *)

(** The world without what has been sent out, which no program reads. *)
Definition silent (w : World) : World :=
  {| settings := settings w; names := names w; inodes := inodes w; fresh := fresh w; fates := fates w;
     said := []; requests := requests w; generation := generation w; channel := channel w;
     warden := warden w; locked := locked w |}.

Lemma fated_silent {R} w (fine : World -> World * R) broken :
  (forall w, silent (fine w).1 = silent (fine (silent w)).1 /\ (fine w).2 = (fine (silent w)).2) ->
  (forall e l w, silent (broken e l w).1 = silent (broken e l (silent w)).1 /\ (broken e l w).2 = (broken e l (silent w)).2) ->
  silent (fated w fine broken).1 = silent (fated (silent w) fine broken).1 /\
  (fated w fine broken).2 = (fated (silent w) fine broken).2.
Proof.
  intros H1 H2. unfold fated, next_fate. cbn [fates silent].
  destruct (head (fates w)) as [[|e l]|]; cbn [default from_option].
  - exact (H1 (set_fates (tail (fates w)) w)).
  - exact (H2 e l (set_fates (tail (fates w)) w)).
  - exact (H1 (set_fates (tail (fates w)) w)).
Qed.
Lemma perform_silent {R} (e : Act R) w :
  silent (perform e w).1 = silent (perform e (silent w)).1 /\ (perform e w).2 = (perform e (silent w)).2.
Proof.
  destruct e; cbn [perform]; try done;
    try (apply fated_silent; intros; cbn; try done; by destruct (names w0 !! _)).
  - cbn [settings silent]. by destruct (f (settings w)).
  - cbn [warden silent]. by destruct (recv_loop _ _ _).
Qed.
Lemma run_silent {A} (p : Prog A) w :
  silent (run p w).1 = silent (run p (silent w)).1 /\ (run p w).2 = (run p (silent w)).2.
Proof.
  revert w. induction p as [a|R e k IH]; intros w; cbn [run]; [done|].
  destruct (perform_silent e w) as [H1 H2].
  destruct (perform e w) as [w1 r1], (perform e (silent w)) as [w2 r2]. cbn [fst snd] in *. subst r2.
  destruct (IH r1 w1) as [H3 H4], (IH r1 w2) as [H5 H6]. rewrite H3, H4, H5, H6, H1. done.
Qed.
Lemma run_pair {A} (p : Prog A) w1 w2 : silent w1 = silent w2 ->
  silent (run p w1).1 = silent (run p w2).1 /\ (run p w1).2 = (run p w2).2.
Proof.
  intros H. destruct (run_silent p w1) as [H1 H2], (run_silent p w2) as [H3 H4]. by rewrite H1, H2, H3, H4, H.
Qed.

(** The events of a transition, among all that is sent. *)
Definition is_lifecycle (n : Notice) : bool :=
  match n with Started _ _ | AppliedMixer _ _ _ _ | RolledBackMixer _ _ _ _ | FailedMixer _ _ _ _ => true | _ => false end.
Definition lifecycle (l : list Notice) : list Notice := filter (fun n => is_lifecycle n = true) l.
Definition notice_of (h : Happening) : Notice :=
  match h with
  | EmitStarted from to _ => Started from to
  | EmitApplied from to carried effective _ => AppliedMixer from to carried effective
  | EmitRolledBack from to ph reason _ => RolledBackMixer from to ph reason
  | EmitFailed from to ph reason _ => FailedMixer from to ph reason
  end.
Definition emitted (l : list Event) : list Notice :=
  omap (fun e => match e with Emit h => Some (notice_of h) | _ => None end) l.

(** The executor that the plugin would be: each phase is the part of the inline form that
    stands for it, and the rollback is of the settings that the new authority replaced. *)
Record Exec := { x_world : World; x_prior : option Settings; x_to : option MixerType }.
Definition on_world {A} (p : Prog (result A str)) (x : Exec) : Exec * result A str :=
  let (w, r) := run p (x_world x) in ({| x_world := w; x_prior := x_prior x; x_to := x_to x |}, r).

Definition phase_carried : Prog (result N str) :=
  try! _ := ensure_envelope_observed_channel self in
  let! s := current in Ret (Ok (startup_volume_percent s)).
Definition phase_envelope (st : EnvelopeState) : Prog (result unit str) :=
  try! gen := publish_envelope_requested self st in await_envelope_ack canonical_id self gen st.
Definition phase_authority (to : MixerType) : Prog (result Settings str) :=
  let! prior := current in
  let! _ := act (Update (fun s => (with_mixer_type to s, tt))) in
  let! persisted := persist_settings to_toml self in
  match persisted with
  | Err e => let! _ := assign prior in Ret (Err (report e))
  | Ok _ => let! _ := publish_settings_state self in Ret (Ok prior)
  end.
Definition phase_verify (to : MixerType) (expected : N) : Prog (result N str) :=
  let! now := current in
  if negb (bool_decide (mixer_type now = to)) then
    Ret (Err (lit "post-persist mixer_type " ++ mixer_type_debug (mixer_type now) ++ lit " != target " ++ mixer_type_debug to))
  else Ret (Ok expected).
Definition phase_rollback (prior : Settings) : Prog (result unit str) :=
  let! _ := assign prior in
  let! r := persist_settings to_toml self in
  match r with
  | Err e => Ret (Err (report e))
  | Ok _ => let! _ := publish_settings_state self in Ret (Ok tt)
  end.

Local Instance plugin_executor : TransitionExecutor Exec := {
  read_carried_level _ := on_world phase_carried;
  pre_mute := on_world (phase_envelope Muted);
  set_new_authority to _ x :=
    let (w, r) := run (phase_authority to) (x_world x) in
    match r with
    | Ok prior => ({| x_world := w; x_prior := Some prior; x_to := Some to |}, Ok tt)
    | Err e => ({| x_world := w; x_prior := x_prior x; x_to := x_to x |}, Err e)
    end;
  switch_fragment _ x := (x, Ok tt);
  restart_playback x := (x, Ok tt);
  verify_effective_level expected x := on_world (phase_verify (default NoMixer (x_to x)) expected) x;
  unmute := on_world (phase_envelope Unmuted);
  rollback _ _ x := match x_prior x with None => (x, Ok tt) | Some prior => on_world (phase_rollback prior) x end }.

(** A phase, run: it goes on, or the run ends after the rollback. *)
Lemma phase_run {A} clock from to nm s (f : Exec -> Exec * result A str) (k : A -> M TransitionOutcome) st :
  bind (phase clock from to nm s f) k st =
  let x := (f (exec st)).1 in
  match (f (exec st)).2 with
  | Ok a => k a {| exec := x; log := log st ++ [Call s None]; ticks := ticks st |}
  | Err e =>
      let x' := (rollback from nm x).1 in
      let l := log st ++ [Call s (Some e)] in
      match (rollback from nm x).2 with
      | Ok _ => ({| exec := x'; log := (l ++ [Call (Rollback from nm) None]) ++
                                       [Emit (EmitRolledBack from to nm e (clock (ticks st)))];
                    ticks := S (ticks st) |}, Err (RolledBack nm e))
      | Err e' => let combined := e ++ lit "; rollback failed: " ++ e' in
          ({| exec := x'; log := (l ++ [Call (Rollback from nm) (Some e')]) ++
                                 [Emit (EmitFailed from to nm combined (clock (ticks st)))];
              ticks := S (ticks st) |}, Err (Failed nm combined))
      end
  end.
Proof.
  unfold bind, phase, call, Transition.rollback_or_fail, emit_happening, ret, bind, call.
  destruct (f (exec st)) as [x [a|e]]; cbn [fst snd failure_of]; [done|].
  cbn [exec log ticks]. by destruct (rollback from nm x) as [x' [u|e']].
Qed.

(** The inline form, by its phases. *)
Definition rollback_to (from to : MixerType) (ph reason : str) (prior : Settings) : Prog TransitionOutcome :=
  let! r := phase_rollback prior in
  match r with
  | Ok _ =>
      let! _ := emit_lifecycle self (RolledBackMixer from to ph reason) in Ret (RolledBack ph reason)
  | Err e =>
      let combined := reason ++ lit "; rollback failed: " ++ e in
      let! _ := emit_lifecycle self (FailedMixer from to ph combined) in Ret (Failed ph combined)
  end.
Definition staged (from to : MixerType) : Prog TransitionOutcome :=
  let! _ := emit_lifecycle self (Started from to) in
  let! r := phase_carried in
  match r with
  | Err e => rollback_or_fail self from to (lit "pre_subscribe") e
  | Ok carried =>
  let! r := phase_envelope Muted in
  match r with
  | Err e => rollback_or_fail self from to (lit "pre_mute") e
  | Ok _ =>
  let! r := phase_authority to in
  match r with
  | Err e => rollback_or_fail self from to (lit "set_new_authority") e
  | Ok prior =>
  let! r := phase_verify to carried in
  match r with
  | Err e => rollback_to from to (lit "verify_effective_level") e prior
  | Ok effective =>
  let! r := phase_envelope Unmuted in
  match r with
  | Err e => rollback_to from to (lit "unmute") e prior
  | Ok _ =>
  let! _ := emit_lifecycle self (AppliedMixer from to carried effective) in Ret (Applied effective)
  end end end end end.

(** One part of the program, run on both sides. *)
Ltac part := match goal with
  | |- context [run ?p ?w] =>
      is_var w;
      lazymatch p with
      | current => idtac | act _ => idtac | assign _ => idtac | persist_settings _ _ => idtac
      | publish_settings_state _ => idtac | emit_lifecycle _ _ => idtac
      | ensure_envelope_observed_channel _ => idtac | publish_envelope_requested _ _ => idtac
      | await_envelope_ack _ _ _ _ => idtac
      end;
      let w' := fresh "w" in let r := fresh "r" in
      destruct (run p w) as [w' r]; cbn [fst snd run]
  end.

Lemma run_rollback_to from to ph reason prior w :
  run (rollback_or_fail_restore to_toml report self from to ph reason prior) w =
  run (rollback_to from to ph reason prior) w.
Proof.
  unfold rollback_or_fail_restore, rollback_to, phase_rollback. rewrite !run_bind.
  match goal with |- context [run (persist_settings to_toml self) ?w1] =>
    destruct (run (persist_settings to_toml self) w1) as [w2 [u|e]] end; cbn [fst snd run]; cbn zeta; rewrite ?run_bind; cbn [fst snd run]; rewrite ?run_bind; [|reflexivity].
  part. rewrite ?run_bind. reflexivity.
Qed.

Lemma run_staged from to w : from <> to ->
  run (run_mixer_transition to_toml report canonical_id self from to) w = run (staged from to) w.
Proof.
  intros Hne. unfold run_mixer_transition, staged. rewrite bool_decide_eq_false_2 by done.
  unfold phase_carried, phase_envelope, phase_authority, phase_verify.
  repeat (repeat progress (rewrite ?run_bind; cbn zeta; cbn [fst snd run]);
    first [reflexivity | apply run_rollback_to
          | match goal with |- context [match ?r with Ok _ => _ | Err _ => _ end] => is_var r; destruct r end
          | part | match goal with |- context [if negb ?b then _ else _] => destruct b; cbn [negb] end]).
Qed.

(** A program that sends no event of a transition. *)
Fixpoint discreet {A} (p : Prog A) : Prop :=
  match p with
  | Ret _ => True
  | Do e k => match e with Say n => is_lifecycle n = false | _ => True end /\ forall r, discreet (k r)
  end.
Lemma discreet_bind {A B} (p : Prog A) (k : A -> Prog B) : discreet p -> (forall a, discreet (k a)) -> discreet (pbind p k).
Proof. induction p as [a|R e f IH]; cbn [discreet pbind]; [auto|]. intros [He Hf] Hk. auto. Qed.
Lemma perform_said {R} (e : Act R) w : said (perform e w).1 = said w ++ (match e with Say n => [n] | _ => [] end).
Proof.
  destruct e; cbn [perform]; rewrite ?app_nil_r; try done;
    try (apply fated_cases; intros; cbn; try done; by destruct (names w !! _)).
  - by destruct (f _).
  - by destruct (recv_loop _ _ _).
Qed.
Lemma run_discreet {A} (p : Prog A) w : discreet p -> lifecycle (said (run p w).1) = lifecycle (said w).
Proof.
  revert w. induction p as [a|R e k IH]; intros w; cbn [discreet run]; [done|]. intros [He Hk].
  pose proof (perform_said e w) as Hs. destruct (perform e w) as [w' r]. cbn [fst] in Hs. rewrite IH by done.
  rewrite Hs. unfold lifecycle. rewrite filter_app. destruct e; rewrite ?filter_nil, ?app_nil_r; try done.
  rewrite filter_cons_False by (by rewrite He). rewrite filter_nil. apply app_nil_r.
Qed.

Ltac discreetly :=
  repeat match goal with
  | |- forall _, _ => intros ?
  | |- discreet (Ret _) => exact I
  | |- discreet (act _) => cbn [discreet act]; split; [done|intros ?; exact I]
  | |- discreet (pbind _ _) => apply discreet_bind
  | |- discreet (match ?x with _ => _ end) => destruct x
  end.
Lemma discreet_persist : discreet (persist_settings to_toml self).
Proof. unfold persist_settings, or_permanent, copy, current, write_in_place, or_permanent, write. discreetly. Qed.
Lemma discreet_publish : discreet (publish_settings_state self).
Proof. unfold publish_settings_state, current. discreetly. Qed.
Lemma discreet_ensure : discreet (ensure_envelope_observed_channel self).
Proof. unfold ensure_envelope_observed_channel. discreetly. Qed.
Lemma discreet_carried : discreet phase_carried.
Proof. unfold phase_carried, current. discreetly. apply discreet_ensure. Qed.
Lemma discreet_envelope st : discreet (phase_envelope st).
Proof.
  unfold phase_envelope, publish_envelope_requested, await_envelope_ack. discreetly. apply discreet_ensure.
Qed.
Lemma discreet_authority to : discreet (phase_authority to).
Proof.
  unfold phase_authority, current, assign. discreetly; first [apply discreet_persist|apply discreet_publish].
Qed.
Lemma discreet_verify to n : discreet (phase_verify to n).
Proof. unfold phase_verify, current. discreetly. Qed.
Lemma discreet_rollback prior : discreet (phase_rollback prior).
Proof.
  unfold phase_rollback, assign. discreetly; first [apply discreet_persist|apply discreet_publish].
Qed.

Section agreement.
Variables (clock : nat -> N) (from to : MixerType) (base : list Notice).

Definition sent (l : list Event) : list Notice := if happening_emitter self then emitted l else [].
Lemma sent_app l m : sent (l ++ m) = sent l ++ sent m.
Proof. unfold sent. destruct (happening_emitter self); [apply omap_app|done]. Qed.

(** The plugin's world and the executor's, and the events sent so far. *)
Record tracks (prior : option Settings) (target : option MixerType) (w : World) (st : RunState Exec) : Prop := {
  tr_world : silent w = silent (x_world (exec st));
  tr_said : lifecycle (said w) = base ++ sent (log st);
  tr_prior : x_prior (exec st) = prior;
  tr_to : x_to (exec st) = target }.

Definition ends (o : World * TransitionOutcome) (t : RunState Exec * result TransitionOutcome TransitionOutcome) : Prop :=
  silent o.1 = silent (x_world (exec t.1)) /\ lifecycle (said o.1) = base ++ sent (log t.1) /\
  match t.2 with Ok r | Err r => o.2 = r end.

Lemma run_emit_lifecycle n w :
  run (emit_lifecycle self n) w = (if happening_emitter self then say n w else w, tt).
Proof. unfold emit_lifecycle. by destruct (happening_emitter self). Qed.
Lemma emit_tracks h w l : is_lifecycle (notice_of h) = true -> lifecycle (said w) = base ++ sent l ->
  lifecycle (said (if happening_emitter self then say (notice_of h) w else w)) = base ++ sent (l ++ [Emit h]).
Proof.
  intros Hh Hl. rewrite sent_app. unfold sent at 2, emitted. destruct (happening_emitter self).
  - unfold say, lifecycle in *. cbn [said]. rewrite filter_app, Hl, filter_cons_True, filter_nil by done.
    cbn. by rewrite <-app_assoc.
  - by rewrite app_nil_r.
Qed.
Lemma say_silent n w : silent (if happening_emitter self then say n w else w) = silent w.
Proof. by destruct (happening_emitter self). Qed.
Lemma sent_call l s f : sent (l ++ [Call s f]) = sent l.
Proof. rewrite sent_app. unfold sent. destruct (happening_emitter self); cbn [emitted omap list_omap]; apply app_nil_r. Qed.

(** A phase that fails, on both sides. *)
Definition gives_up (prior : option Settings) (nm e : str) : Prog TransitionOutcome :=
  match prior with
  | None => rollback_or_fail self from to nm e
  | Some s => rollback_to from to nm e s
  end.
Lemma ends_failed prior target nm e s w x l n :
  tracks prior target w {| exec := x; log := l; ticks := n |} ->
  ends (run (gives_up prior nm e) w)
    (let x' := (rollback from nm x).1 in
     let l := l ++ [Call s (Some e)] in
     match (rollback from nm x).2 with
     | Ok _ => ({| exec := x'; log := (l ++ [Call (Rollback from nm) None]) ++
                                      [Emit (EmitRolledBack from to nm e (clock n))];
                   ticks := S n |}, Err (RolledBack nm e))
     | Err e' => let combined := e ++ lit "; rollback failed: " ++ e' in
         ({| exec := x'; log := (l ++ [Call (Rollback from nm) (Some e')]) ++
                                [Emit (EmitFailed from to nm combined (clock n))];
             ticks := S n |}, Err (Failed nm combined))
     end).
Proof.
  intros [Hw Hl Hp Ht]. cbn [exec log] in *. cbn [rollback plugin_executor]. rewrite Hp.
  destruct prior as [prior|]; cbn [gives_up].
  - unfold rollback_to, on_world. rewrite run_bind.
    destruct (run_pair (phase_rollback prior) w (x_world x) Hw) as [H1 H2].
    pose proof (run_discreet (phase_rollback prior) w (discreet_rollback prior)) as H3.
    destruct (run (phase_rollback prior) w) as [w1 r1], (run (phase_rollback prior) (x_world x)) as [w2 r2].
    cbn [fst snd] in *. subst r2. destruct r1 as [u|e']; cbn zeta; rewrite run_bind, run_emit_lifecycle; unfold ends; cbn [run fst snd exec log x_world];
      (split_and!; [by rewrite say_silent| |done]).
    + apply (emit_tracks (EmitRolledBack from to nm e (clock n))); [done|by rewrite !sent_call, H3].
    + apply (emit_tracks (EmitFailed from to nm _ (clock n))); [done|by rewrite !sent_call, H3].
  - unfold rollback_or_fail. rewrite run_bind, run_emit_lifecycle. unfold ends. cbn [run fst snd exec log x_world].
    split_and!; [by rewrite say_silent| |done].
    apply (emit_tracks (EmitRolledBack from to nm e (clock n))); [done|by rewrite !sent_call].
Qed.

(** A phase, on both sides. *)
Lemma ends_phase {A} (p : Prog (result A str)) prior target nm s f (k1 : A -> Prog TransitionOutcome) k2 w st :
  discreet p -> (forall x, x_to x = target -> f x = on_world p x) -> tracks prior target w st ->
  (forall a w' st', tracks prior target w' st' -> ends (run (k1 a) w') (k2 a st')) ->
  ends (run (let! r := p in match r with Ok a => k1 a | Err e => gives_up prior nm e end) w)
       (bind (phase clock from to nm s f) k2 st).
Proof.
  intros Hd Hf [Hw Hl Hp Ht] Hk. rewrite phase_run, run_bind, (Hf _ Ht). unfold on_world.
  destruct (run_pair p w (x_world (exec st)) Hw) as [H1 H2]. pose proof (run_discreet p w Hd) as H3.
  destruct (run p w) as [w1 r1], (run p (x_world (exec st))) as [w2 r2]. cbn [fst snd] in *. subst r2.
  destruct r1 as [a|e]; cbn zeta; cbn [fst snd].
  - apply Hk. split; cbn [exec log x_world x_prior x_to]; [done|by rewrite sent_call, H3|done..].
  - apply (ends_failed prior target); split; cbn [exec log x_world x_prior x_to]; [done|by rewrite H3|done..].
Qed.
End agreement.

(** A phase with nothing to do. *)
Lemma ends_idle clock from to base prior target nm s (o : World * TransitionOutcome) k2 w st :
  tracks base prior target w st ->
  (forall st', tracks base prior target w st' -> ends base o (k2 tt st')) ->
  ends base o (bind (phase clock from to nm s (fun x => (x, Ok tt))) k2 st).
Proof.
  intros [Hw Hl Hp Ht] Hk. rewrite phase_run. cbn [fst snd]. cbn zeta. apply Hk.
  split; cbn [exec log]; [done|by rewrite sent_call|done..].
Qed.

Lemma ends_authority clock from to base s (k1 : Settings -> Prog TransitionOutcome) k2 w st lvl :
  tracks base None None w st ->
  (forall prior w' st', tracks base (Some prior) (Some to) w' st' -> ends base (run (k1 prior) w') (k2 tt st')) ->
  ends base
    (run (let! r := phase_authority to in
          match r with Ok prior => k1 prior | Err e => rollback_or_fail self from to (lit "set_new_authority") e end) w)
    (bind (phase clock from to (lit "set_new_authority") s (set_new_authority to lvl)) k2 st).
Proof.
  intros [Hw Hl Hp Ht] Hk. rewrite phase_run, run_bind. cbn [set_new_authority plugin_executor].
  destruct (run_pair (phase_authority to) w (x_world (exec st)) Hw) as [H1 H2].
  pose proof (run_discreet (phase_authority to) w (discreet_authority to)) as H3.
  destruct (run (phase_authority to) w) as [w1 r1], (run (phase_authority to) (x_world (exec st))) as [w2 r2].
  cbn [fst snd] in *. subst r2. destruct r1 as [prior|e]; cbn zeta; cbn [fst snd].
  - apply Hk. split; cbn [exec log x_world x_prior x_to]; [done|by rewrite sent_call, H3|done..].
  - apply (ends_failed clock from to base None None). split; cbn [exec log x_world x_prior x_to]; [done|by rewrite H3|done..].
Qed.

(** C3: The inline form is the state machine of [transition.rs] on the executor made of its
    phases: the same outcome with the same phase and reason, the same events of the
    transition in the same order, and the same settings, files and envelope afterwards,
    whatever fails.  (The inline form can also give up before its first phase, when the
    channel to the warden cannot be had; that is set aside here.) *)
Theorem inline_transition_refines clock from to w b :
  (run (ensure_envelope_observed_channel self) w).2 = Ok b ->
  let o := run (run_mixer_transition to_toml report canonical_id self from to) w in
  let t := run_transition clock from to
             {| exec := {| x_world := w; x_prior := None; x_to := None |}; log := []; ticks := 0 |} in
  o.2 = t.2 /\ silent o.1 = silent (x_world (exec t.1)) /\
  lifecycle (said o.1) = lifecycle (said w) ++ sent (log t.1).
Proof.
  intros Hch. cbn zeta. unfold run_transition. destruct (bool_decide_reflect (from = to)) as [->|Hne].
  { unfold run_mixer_transition. rewrite bool_decide_eq_true_2 by done. cbn [run fst snd log exec x_world].
    unfold sent. split_and!; [done..|]. destruct (happening_emitter self); by rewrite app_nil_r. }
  rewrite run_staged by done.
  set (st0 := {| exec := {| x_world := w; x_prior := None; x_to := None |}; log := []; ticks := 0%nat |}).
  enough (ends (lifecycle (said w)) (run (staged from to) w) (run_phases clock from to st0)) as (H1 & H2 & H3).
  { destruct (run_phases clock from to st0) as [st' [r|r]]; cbn [fst snd] in *; done. }
  unfold run_phases, staged. rewrite run_bind, run_emit_lifecycle. cbn [fst snd].
  set (w1 := if happening_emitter self then say (Started from to) w else w).
  unfold bind at 1, emit_happening at 1. cbn [exec log ticks]. set (st1 := {| exec := exec st0; log := _; ticks := _ |}).
  assert (Ht1 : tracks (lifecycle (said w)) None None w1 st1).
  { split; [by unfold w1; rewrite say_silent| |done..].
    apply (emit_tracks (lifecycle (said w)) (EmitStarted from to (clock 0%nat)) w []); [done|].
    unfold sent. destruct (happening_emitter self); by rewrite app_nil_r. }
  assert (Hc : exists c, (run phase_carried w1).2 = Ok c).
  { assert (Hs1 : silent w1 = silent w) by (unfold w1; by rewrite say_silent).
    destruct (run_pair (ensure_envelope_observed_channel self) w1 w Hs1) as [_ He]. rewrite Hch in He.
    unfold phase_carried. rewrite run_bind, He, run_bind. cbn [run snd]. eauto. }
  clearbody w1 st1. destruct Hc as [c Hc]. rewrite run_bind, phase_run. destruct Ht1 as [Hw1 Hl1 Hp1 Hx1].
  cbn [read_carried_level plugin_executor]. unfold on_world at 1 2 3 4.
  destruct (run_pair phase_carried w1 (x_world (exec st1)) Hw1) as [H1 H2].
  pose proof (run_discreet phase_carried w1 discreet_carried) as H3.
  destruct (run phase_carried w1) as [w2 r2], (run phase_carried (x_world (exec st1))) as [x2 r2'].
  cbn [fst snd] in *. subst r2 r2'. cbn zeta. cbn [fst snd].
  match goal with |- ends _ _ (bind _ _ ?st) => assert (Ht2 : tracks (lifecycle (said w)) None None w2 st) end.
  { split; cbn [exec log x_world x_prior x_to]; [done|by rewrite sent_call, H3|done..]. }
  revert Ht2. generalize w2. match goal with |- context [bind _ _ ?st] => generalize st end. clear.
  intros st2 w2 Ht2.
  eapply (ends_phase clock from to _ (phase_envelope Muted) None None (lit "pre_mute"));
    [apply discreet_envelope|done|exact Ht2|]. clear. intros _ w3 st3 Ht3. cbn beta.
  eapply ends_authority; [exact Ht3|]. clear. intros prior w4 st4 Ht4. cbn beta.
  apply (ends_idle clock from to _ (Some prior) (Some to) _ _ _ _ w4); [exact Ht4|]. clear. intros st5 Ht5.
  apply (ends_idle clock from to _ (Some prior) (Some to) _ _ _ _ w4); [exact Ht5|]. clear. intros st6 Ht6.
  eapply (ends_phase clock from to _ (phase_verify to c) (Some prior) (Some to) (lit "verify_effective_level"));
    [apply discreet_verify|by intros x; cbn; intros ->|exact Ht6|]. clear. intros eff w7 st7 Ht7. cbn beta.
  eapply (ends_phase clock from to _ (phase_envelope Unmuted) (Some prior) (Some to) (lit "unmute"));
    [apply discreet_envelope|done|exact Ht7|]. clear. intros _ w8 st8 [Hw Hl _ _]. cbn beta.
  rewrite run_bind, run_emit_lifecycle. unfold bind, emit_happening, ret, ends. cbn [run fst snd exec log].
  split_and!; [by rewrite say_silent| |done].
  by apply (emit_tracks _ (EmitApplied from to c eff (clock (ticks st8)))).
Qed.

(** A stream that is closed stays the channel of the plugin: from then on every change of
    the mixer type is rolled back, until the plugin is started again. *)
Theorem closed_channel_refuses_every_transition from to w l :
  from <> to -> subject_announcer self = true -> channel w = true -> warden w = Some (Closed :: l) ->
  let o := run (run_mixer_transition to_toml report canonical_id self from to) w in
  o.2 = RolledBack (lit "pre_mute") (ack_reason canonical_id AckClosed) /\
  settings o.1 = settings w /\ channel o.1 = true /\ warden o.1 = Some (Closed :: l).
Proof.
  intros Hne Ha Hc Hw. unfold run_mixer_transition. rewrite bool_decide_eq_false_2 by done. cbn zeta.
  rewrite run_bind, run_emit_lifecycle. cbn [fst snd].
  set (w1 := if happening_emitter self then say (Started from to) w else w).
  assert (channel w1 = true /\ warden w1 = Some (Closed :: l) /\ settings w1 = settings w) as (Hc1 & Hw1 & Hs1).
  { unfold w1. by destruct (happening_emitter self). }
  clearbody w1. unfold rollback_or_fail, await_envelope_ack, ensure_envelope_observed_channel,
    publish_envelope_requested, current, act. rewrite Ha.
  cbn [pbind run perform]. rewrite Hc1. cbn [pbind run perform]. rewrite set_settings_same.
  unfold say, set_counters. cbn [channel]. rewrite Hc1. cbn [pbind run perform warden]. rewrite Hw1.
  cbn [default recv_loop]. unfold emit_lifecycle, act.
  by destruct (happening_emitter self); cbn -[lit ack_reason].
Qed.
End theorems.

(** ** Examples *)

(** Bodies that are read already, for the examples. *)
Inductive DemoBody :=
  | DEmpty | DBool (b : bool) | DText (s : str) | DNumber (n : N) | DPolicy (p : ResamplingPolicy)
  | DBand (i : N) (b : EqBand) | DPreset (n : str) (bs : list EqBand).
Definition demo_read {T} (f : DemoBody -> option T) (b : DemoBody) : result T str :=
  ok_or (f b) (lit "another shape").
#[export] Instance demo_empty : Deserialize DemoBody EmptyPayload :=
  demo_read (fun b => match b with DEmpty => Some {| e_v := 1 |} | _ => None end).
#[export] Instance demo_resampling : Deserialize DemoBody SetResamplingPayload :=
  demo_read (fun b => match b with DPolicy p => Some {| sr_v := 1; sr_policy := p |} | _ => None end).
#[export] Instance demo_mixer_type : Deserialize DemoBody SetMixerTypePayload :=
  demo_read (fun b => match b with DText s => Some {| smt_v := 1; smt_value := s |} | _ => None end).
#[export] Instance demo_dop : Deserialize DemoBody SetDopPayload :=
  demo_read (fun b => match b with DBool x => Some {| sd_v := 1; sd_value := x |} | _ => None end).
#[export] Instance demo_device : Deserialize DemoBody SetMixerDevicePayload :=
  demo_read (fun b => match b with DText s => Some {| smd_v := 1; smd_value := s |} | _ => None end).
#[export] Instance demo_control : Deserialize DemoBody SetMixerControlPayload :=
  demo_read (fun b => match b with DText s => Some {| smc_v := 1; smc_value := s |} | _ => None end).
#[export] Instance demo_output : Deserialize DemoBody SetOutputDevicePayload :=
  demo_read (fun b => match b with DText s => Some {| sod_v := 1; sod_value := s |} | _ => None end).
#[export] Instance demo_normalization : Deserialize DemoBody SetVolumeNormalizationPayload :=
  demo_read (fun b => match b with DBool x => Some {| svn_v := 1; svn_value := x |} | _ => None end).
#[export] Instance demo_percent : Deserialize DemoBody SetVolumePercentPayload :=
  demo_read (fun b => match b with DNumber n => Some {| svp_v := 1; svp_value := n |} | _ => None end).
#[export] Instance demo_curve : Deserialize DemoBody SetVolumeCurvePayload :=
  demo_read (fun b => match b with DText s => Some {| svc_v := 1; svc_value := s |} | _ => None end).
#[export] Instance demo_exclusive : Deserialize DemoBody SetExclusiveModePayload :=
  demo_read (fun b => match b with DBool x => Some {| sem_v := 1; sem_value := x |} | _ => None end).
#[export] Instance demo_crossfade : Deserialize DemoBody SetCrossfadeSecondsPayload :=
  demo_read (fun b => match b with DNumber n => Some {| scs_v := 1; scs_value := n |} | _ => None end).
#[export] Instance demo_gapless : Deserialize DemoBody SetGaplessPayload :=
  demo_read (fun b => match b with DBool x => Some {| sg_v := 1; sg_value := x |} | _ => None end).
#[export] Instance demo_engaged : Deserialize DemoBody SetEqEngagedPayload :=
  demo_read (fun b => match b with DBool x => Some {| see_v := 1; see_value := x |} | _ => None end).
#[export] Instance demo_band : Deserialize DemoBody SetEqBandPayload :=
  demo_read (fun b => match b with
    | DBand i b => Some {| seb_v := 1; seb_index := i; seb_freq_hz := freq_hz b; seb_gain_db := gain_db b; seb_q := q b |}
    | _ => None end).
#[export] Instance demo_save : Deserialize DemoBody SaveEqPresetPayload :=
  demo_read (fun b => match b with DPreset n bs => Some {| sep_v := 1; sep_name := n; sep_bands := bs |} | _ => None end).
#[export] Instance demo_name : Deserialize DemoBody NameOnlyEqPresetPayload :=
  demo_read (fun b => match b with DText s => Some {| nop_v := 1; nop_name := s |} | _ => None end).

Definition demo_req (vb : Verb) (b : DemoBody) : Request :=
  {| request_type := verb_name vb; past_deadline := false; payload := b; transition_budget := None |}.
Definition demo_report (e : PluginError) : str := lit "error".
Definition demo_handle (req : Request (Body := DemoBody)) : Prog (result Response PluginError) :=
  handle_request demo_to_toml demo_from_toml demo_report (lit "id") demo_self req.

Definition demo_settings : Settings :=
  with_max_volume_percent 40 (with_mixer_device (lit "hw:0") (with_mixer_control (lit "Master") Settings_default)).

(** *** What goes wrong *)

(** A setter whose write fails is refused, but its change stays in force and is on the disk
    after the next setter that works. *)
Theorem refused_change_takes_effect :
  let w := demo_world demo_settings [Fine; Fine; Fine; Fine; Broken (lit "read-only") []] None in
  let o := run (demo_handle (demo_req SetMaxVolume (DNumber 90))) w in
  let o2 := run (demo_handle (demo_req SetDop (DBool true))) o.1 in
  is_ok o.2 = false /\ said o.1 = [] /\ content o.1 demo_path = content w demo_path /\
  max_volume_percent (settings o.1) = 90 /\ is_ok o2.2 = true /\
  content o2.1 demo_path = Some (demo_text (with_dop true (with_max_volume_percent 90 demo_settings))).
Proof. vm_compute. repeat split. Qed.

(** Two setters at once write through the same staging file: the one truncates it while the
    other is about to rename it over the settings.  The first is answered [ok], and a crash
    then leaves a file that reads as the defaults, whatever ceiling the operator had set. *)
Theorem staging_file_is_shared :
  let w := demo_world demo_settings [] None in
  let o := interleave (repeat 0%nat 13 ++ repeat 1%nat 10 ++ repeat 0%nat 5)
             [demo_handle (demo_req SetDop (DBool true)); demo_handle (demo_req SetGapless (DBool false))] w in
  o.2 !! 0%nat = Some (Ret (Ok SimpleOk)) /\ content o.1 demo_path = Some [] /\
  rebooted demo_from_toml demo_self o.1 = Ok Settings_default /\
  max_volume_percent (settings o.1) = 40 /\ max_volume_percent Settings_default = 100.
Proof. vm_compute. repeat split. Qed.

(** The stream of the warden: it mutes, and does not unmute in time. *)
Definition demo_mutes_only : list Received :=
  [StateUpdate (Some {| o_generation := 1; observed_state := Muted |}); Quiet].

(** A setter that is answered [ok] while a transition waits for the warden is undone by the
    rollback of that transition, in memory and on the disk. *)
Theorem rollback_undoes_other_setters :
  let w := demo_world demo_settings [] (Some demo_mutes_only) in
  let o := interleave (repeat 0%nat 34 ++ repeat 1%nat 18 ++ repeat 0%nat 17)
             [demo_handle (demo_req SetMixerType (DText (lit "none"))); demo_handle (demo_req SetDop (DBool true))] w in
  o.2 !! 1%nat = Some (Ret (Ok SimpleOk)) /\ (exists e, o.2 !! 0%nat = Some (Ret (Err e))) /\
  settings o.1 = demo_settings /\ content o.1 demo_path = Some (demo_text demo_settings).
Proof. vm_compute. split_and!; try reflexivity. eexists. reflexivity. Qed.

(** After a transition that is rolled back the last-known-good copy holds the mode that
    failed: restoring it puts that mode in force. *)
Theorem restore_brings_the_failed_mode_back :
  let w := demo_world demo_settings [] (Some demo_mutes_only) in
  let o := run (demo_handle (demo_req SetMixerType (DText (lit "none")))) w in
  let o2 := run (demo_handle (demo_req RestoreLastKnownGood DEmpty)) o.1 in
  o.2 = Err (Permanent (TransitionRolledBack (lit "unmute") (ack_reason (lit "id") (AckTimeout 2 Unmuted)))) /\
  mixer_type (settings o.1) = Software /\ is_ok o2.2 = true /\ mixer_type (settings o2.1) = NoMixer.
Proof. vm_compute. repeat split. Qed.

(** A transition rolled back because the settings could not be written has muted the chain,
    and no release of it is ever asked for. *)
Theorem rolled_back_and_muted :
  let w := demo_world demo_settings
             (repeat Fine 6 ++ [Broken (lit "read-only") []])
             (Some [StateUpdate (Some {| o_generation := 1; observed_state := Muted |})]) in
  let o := run (demo_handle (demo_req SetMixerType (DText (lit "none")))) w in
  o.2 = Err (Permanent (TransitionRolledBack (lit "set_new_authority") (lit "error"))) /\
  said o.1 = [Started Software NoMixer; EnvelopeRequest 1 Muted;
              RolledBackMixer Software NoMixer (lit "set_new_authority") (lit "error")].
Proof. vm_compute. repeat split. Qed.

(** The coordinates that the hardware mixer needs are asked for when it is chosen, and can be
    cleared afterwards. *)
Theorem hardware_loses_its_coordinates :
  let w := demo_world demo_settings [] None in
  let o := run (demo_handle (demo_req SetMixerType (DText (lit "hardware")))) w in
  let o2 := run (demo_handle (demo_req SetMixerDevice (DText []))) o.1 in
  is_ok o.2 = true /\ is_ok o2.2 = true /\
  mixer_type (settings o2.1) = Hardware /\ mixer_device (settings o2.1) = [].
Proof. vm_compute. repeat split. Qed.

(** A last-known-good copy cut short is taken as it reads: with no band left, here. *)
Theorem restore_takes_a_torn_copy :
  let w := demo_world demo_settings
             [Fine; Fine; Fine; Broken (lit "disk full") (demo_text (with_eq_bands [] demo_settings))] None in
  let o := run (demo_handle (demo_req SetDop (DBool true))) w in
  let o2 := run (demo_handle (demo_req RestoreLastKnownGood DEmpty)) o.1 in
  is_ok o.2 = true /\ is_ok o2.2 = true /\ eq_bands (settings o2.1) = [].
Proof. vm_compute. repeat split. Qed.

(** *** Witnesses *)

Lemma demo_verb vb : verb_of (verb_name vb) = Some vb.
Proof. destruct vb; vm_compute; reflexivity. Qed.

Lemma demo_valid : valid demo_settings.
Proof.
  by destruct valid_default as [Hv Hc Hq Hco Hb Hp]; split.
Qed.
Lemma demo_sound fs stream : sound demo_from_toml demo_path (demo_world demo_settings fs stream).
Proof.
  split; [apply demo_world_ok|apply demo_valid|].
  intros body s Hc Hs. rewrite demo_content in Hc. injection Hc as <-.
  rewrite (demo_reads_back demo_settings _ eq_refl) in Hs. injection Hs as <-. apply demo_valid.
Qed.

Lemma settings_stay_valid_witness :
  let w := demo_world demo_settings [Fine; Broken (lit "disk full") [7]] (Some demo_mutes_only) in
  sound demo_from_toml demo_path
    (crash 20 (demo_handle (demo_req SetMixerType (DText (lit "none"))))
       (serve demo_to_toml demo_from_toml demo_report (lit "id") demo_self
          [demo_req SetMaxVolume (DNumber 20); demo_req SetStartupVolume (DNumber 50);
           demo_req SaveEqPreset (DPreset (lit "flat") default_eq_bands)] w)).
Proof.
  apply (settings_stay_valid demo_to_toml demo_from_toml demo_report (lit "id") demo_self demo_reads_back demo_path
    eq_refl).
  - apply demo_sound.
  - repeat constructor; vm_compute; discriminate.
Defined.

Lemma setter_commits_witness :
  let w := demo_world demo_settings [] None in
  commits demo_to_toml demo_self demo_path (set_counters 1 0 w)
    (Ok (with_max_volume_percent 20 (with_startup_volume_percent 20 demo_settings),
         [(lit "max_volume_percent", VNumber 20); (lit "startup_volume_percent", VNumber 20)]))
    (run (demo_handle (demo_req SetMaxVolume (DNumber 20))) w).
Proof.
  apply (setter_commits demo_to_toml demo_from_toml demo_report (lit "id") demo_self demo_path
    (demo_req SetMaxVolume (DNumber 20)) SetMaxVolume (demo_world demo_settings [] None)).
  - apply demo_world_ok.
  - reflexivity.
  - reflexivity.
  - reflexivity.
  - apply demo_verb.
  - vm_compute. reflexivity.
Defined.

Lemma restore_undoes_a_setter_witness :
  let w := demo_world demo_settings [] None in
  let o1 := run (handle demo_to_toml demo_from_toml demo_report (lit "id") demo_self ResetToDefaults
                   (demo_req ResetToDefaults DEmpty)) w in
  o1.2 = Ok SimpleOk /\ settings o1.1 = Settings_default /\
  settings (run (handle demo_to_toml demo_from_toml demo_report (lit "id") demo_self RestoreLastKnownGood
                   (demo_req RestoreLastKnownGood DEmpty)) o1.1).1 = demo_settings.
Proof.
  destruct (restore_undoes_a_setter demo_to_toml demo_from_toml demo_report (lit "id") demo_self demo_path
    ResetToDefaults (demo_req ResetToDefaults DEmpty) (demo_req RestoreLastKnownGood DEmpty)
    (demo_world demo_settings [] None) (demo_text demo_settings) (demo_text Settings_default) Settings_default
    [(lit "reset_to_defaults", VSettings Settings_default)] {| e_v := 1 |}) as (H1 & H2 & _ & H3 & _).
  - apply demo_world_ok.
  - reflexivity.
  - reflexivity.
  - apply demo_content.
  - by apply demo_reads_back.
  - reflexivity.
  - reflexivity.
  - reflexivity.
  - split_and!; [exact H1|exact H2|exact H3].
Defined.

Lemma presets_are_a_map_witness :
  bands <$> find_preset (lit "flat") (eq_presets
      (with_eq_presets [{| name := lit "flat"; bands := default_eq_bands |}] demo_settings)) = Some default_eq_bands.
Proof.
  refine (proj1 (proj2 (proj1 (presets_are_a_map (demo_req SaveEqPreset (DPreset (lit "flat") default_eq_bands)) demo_settings
    (with_eq_presets [{| name := lit "flat"; bands := default_eq_bands |}] demo_settings)
    [(lit "eq_presets", VPresets [{| name := lit "flat"; bands := default_eq_bands |}])])
    {| sep_v := 1; sep_name := lit "flat"; sep_bands := default_eq_bands |} _ _)) (lit "flat")); vm_compute; reflexivity.
Defined.


Lemma inline_transition_refines_witness :
  let w := demo_world demo_settings [] (Some demo_mutes_only) in
  (run (run_mixer_transition demo_to_toml demo_report (lit "id") demo_self Software NoMixer) w).2 =
  (@run_transition Exec (plugin_executor demo_to_toml demo_report (lit "id") demo_self) (fun _ => 0) Software NoMixer
     {| exec := {| x_world := w; x_prior := None; x_to := None |}; log := []; ticks := 0 |}).2.
Proof.
  apply (inline_transition_refines demo_to_toml demo_report (lit "id") demo_self (fun _ => 0) Software NoMixer
    (demo_world demo_settings [] (Some demo_mutes_only)) true). vm_compute. reflexivity.
Defined.

Lemma closed_channel_refuses_every_transition_witness :
  let w := set_channel true (Some [Closed]) (demo_world demo_settings [] None) in
  let o := run (run_mixer_transition demo_to_toml demo_report (lit "id") demo_self Software NoMixer) w in
  o.2 = RolledBack (lit "pre_mute") (ack_reason (lit "id") AckClosed) /\
  settings o.1 = demo_settings /\ channel o.1 = true /\ warden o.1 = Some [Closed].
Proof.
  apply (closed_channel_refuses_every_transition demo_to_toml demo_report (lit "id") demo_self Software NoMixer
    (set_channel true (Some [Closed]) (demo_world demo_settings [] None)) []); [discriminate|reflexivity..].
Defined.
