(* ===== verification/OptionsRender.v ===== *)
(** * Rendering the playback options ([plugins/org.evoframework.delivery.alsa/src/options_render.rs])

    The settings that [Options] publishes are read out of their JSON, rendered as a fragment
    of the ALSA configuration and written to the drop-in file by an observer of the settings
    subject ([lib.rs]); what [aplay] and [amixer] print is read too.  A reader of such
    fragments gives the chain of stages that a device name stands for; the theorems compare
    it with the settings, end to end. *)

From stdpp Require Import gmap.
From S2P Require Import Prelude Transition OptionsStore Options.
Local Open Scope N_scope.

(** ** Data *)

(** [serde_json::Value] *)
Inductive Json :=
  | JNull | JBool (b : bool) | JNumber (n : N) | JFloat (x : f32) | JString (s : str)
  | JArray (l : list Json) | JObject (l : list (str * Json)).

(** [Value::get] on an object, [as_str], [as_bool], [as_u64] *)
Definition get (key : str) (j : Json) : option Json :=
  match j with
  | JObject l => match list_find (fun e => e.1 = key) l with Some (_, (_, v)) => Some v | None => None end
  | _ => None
  end.
Definition as_str (j : Json) : option str := match j with JString s => Some s | _ => None end.
Definition as_bool (j : Json) : option bool := match j with JBool b => Some b | _ => None end.
Definition as_u64 (j : Json) : option N := match j with JNumber n => Some n | _ => None end.

(** [options_render::Resampling], [OptionsSettings], [RenderTarget], [EffectiveMixer] *)
Record Resampling := { r_enabled : bool; r_target_rate_hz : N }.
Record OptionsSettings := {
  r_mixer_type : option MixerType; r_mixer_control : option str; r_output_device : option str;
  r_resampling : option Resampling; r_exclusive_mode : option bool }.
Inductive RenderTarget := Main | SourceLocal.
Inductive EffectiveMixer := MixNone | MixSoftware | MixHardware (ctrl : str).

Definition DEFAULT_OUTPUT_DEVICE : str := lit "hw:CARD=DAC,DEV=0".

(** ** Descriptors of a device *)

(** What follows [hw:CARD=] or [hw:] *)
Definition after_card (descriptor : str) : option str :=
  match strip_prefix (lit "hw:CARD=") descriptor with
  | Some rest => Some rest
  | None => strip_prefix (lit "hw:") descriptor
  end.
(** [parse_card_name], [parse_card_device] *)
Definition parse_card_name (descriptor : str) : str :=
  match after_card descriptor with
  | Some rest => default rest (head (split_char 44 rest))
  | None => descriptor
  end.
Definition parse_card_device (descriptor : str) : N :=
  match after_card descriptor with
  | None => 0
  | Some rest =>
      default 0 (
        s ← split_char 44 rest !! 1%nat;
        parse_u32 (trim (default s (strip_prefix (lit "DEV=") s))))
  end.

(** ** The renderer *)

Definition front_pcm_name (t : RenderTarget) : str :=
  match t with Main => lit "evo" | SourceLocal => lit "evo_local" end.
Definition node_prefix (t : RenderTarget) : str :=
  match t with Main => lit "evo" | SourceLocal => lit "evo_local" end.

Definition non_empty (o : option str) : option str :=
  match o with Some s => if str_is_empty s then None else Some s | None => None end.
Definition output_device_of (s : OptionsSettings) : str :=
  default DEFAULT_OUTPUT_DEVICE (non_empty (r_output_device s)).
Definition exclusive_of (s : OptionsSettings) : bool := default false (r_exclusive_mode s).
Definition resampling_node (s : OptionsSettings) : option N :=
  if exclusive_of s then None
  else match r_resampling s with
       | Some r => if r_enabled r then Some (r_target_rate_hz r) else None
       | None => None
       end.
Definition mixer_kind (s : OptionsSettings) : EffectiveMixer :=
  if exclusive_of s then
    match r_mixer_type s, r_mixer_control s with
    | Some Hardware, Some ctrl => if str_is_empty ctrl then MixNone else MixHardware ctrl
    | _, _ => MixNone
    end
  else
    match r_mixer_type s, r_mixer_control s with
    | Some Hardware, Some ctrl => if str_is_empty ctrl then MixSoftware else MixHardware ctrl
    | Some Hardware, None => MixSoftware
    | Some Software, _ => MixSoftware
    | Some NoMixer, _ | None, _ => MixNone
    end.

Definition quoted (s : str) : str := [DQUOTE] ++ s ++ [DQUOTE].

Definition header : list str :=
  [lit "# Auto-generated by org.evoframework.delivery.alsa";
   lit "# at runtime from the audio.options.settings subject";
   lit "# operator state. DO NOT EDIT BY HAND " ++ [8212] ++ lit " the file is";
   lit "# rewritten on every operator gesture against the";
   lit "# playback.options plugin's settings surface."; []].

Definition hw_lines (device : str) : list str :=
  [lit "    type hw"; lit "    card " ++ quoted (parse_card_name device);
   lit "    device " ++ dec (parse_card_device device)].
Definition hint_lines (description : str) : list str :=
  [lit "    hint {"; lit "        show on"; lit "        description " ++ quoted description; lit "    }"].
Definition pcm_open (n : str) : str := lit "pcm." ++ n ++ lit " {".

(** [render_drop_in_for_target], line by line. *)
Definition render_lines (s : OptionsSettings) (t : RenderTarget) : list str :=
  let device := output_device_of s in
  let terminus := node_prefix t ++ lit "_terminus" in
  let rate := node_prefix t ++ lit "_rate" in
  let mixer := node_prefix t ++ lit "_mixer" in
  header ++
  [pcm_open terminus] ++ hw_lines device ++ [lit "}"; []] ++
  (match resampling_node s with
   | Some hz =>
       [pcm_open rate; lit "    type plug"; lit "    slave {"; lit "        pcm " ++ quoted terminus;
        lit "        rate " ++ dec hz; lit "    }"; lit "}"; []]
   | None => []
   end) ++
  (match mixer_kind s with
   | MixSoftware =>
       [pcm_open mixer; lit "    type softvol";
        lit "    slave.pcm " ++ quoted (match resampling_node s with Some _ => rate | None => terminus end);
        lit "    control.name " ++ quoted (lit "Evo Master");
        lit "    control.card " ++ quoted (parse_card_name device); lit "}"; []]
   | _ => []
   end) ++
  (if exclusive_of s then
     [pcm_open (front_pcm_name t)] ++ hw_lines device ++
     hint_lines (lit "evo modular pipeline (bit-perfect)") ++ [lit "}"; []]
   else
     let slave := match mixer_kind s, resampling_node s with
                  | MixSoftware, _ => mixer
                  | _, Some _ => rate
                  | _, None => terminus
                  end in
     [pcm_open (front_pcm_name t); lit "    type plug"; lit "    slave.pcm " ++ quoted slave] ++
     hint_lines (lit "evo modular pipeline (options-rendered)") ++ [lit "}"; []]) ++
  [lit "ctl.evo {"; lit "    type hw"; lit "    card " ++ quoted (parse_card_name device)] ++
  (match mixer_kind s with
   | MixHardware ctrl => [lit "    # hardware-mixer control: " ++ quoted ctrl]
   | _ => []
   end) ++ [lit "}"].
Definition render_drop_in_for_target (s : OptionsSettings) (t : RenderTarget) : str := unlines (render_lines s t).
Definition render_drop_in (s : OptionsSettings) : str := render_drop_in_for_target s Main.

(** ** Reading the settings subject *)

(** [extract_options_settings_from_state]; a rate is cut to 32 bits. *)
Definition mixer_type_of_state (s : str) : option MixerType :=
  let s := to_ascii_lowercase s in
  if bool_decide (s = lit "none") then Some NoMixer
  else if bool_decide (s = lit "software") then Some Software
  else if bool_decide (s = lit "hardware") then Some Hardware
  else None.
Definition device_of_state (j : Json) : option str :=
  match as_str j with Some s => Some s | None => get (lit "pcm") j ≫= as_str end.
Definition extract_options_settings_from_state (state : Json) : OptionsSettings :=
  {| r_mixer_type := (get (lit "mixer_type") state ≫= as_str) ≫= mixer_type_of_state;
     r_mixer_control := non_empty (get (lit "mixer_control") state ≫= as_str);
     r_output_device := non_empty (get (lit "output_device") state ≫= device_of_state);
     r_resampling := r ← get (lit "resampling") state;
                     enabled ← get (lit "enabled") r ≫= as_bool;
                     rate ← get (lit "target_rate_hz") r ≫= as_u64;
                     Some {| r_enabled := enabled; r_target_rate_hz := rate mod 2 ^ 32 |};
     r_exclusive_mode := get (lit "exclusive_mode") state ≫= as_bool |}.

(** What [publish_settings_state] of the options plugin sends: [serde_json::to_value] of
    the derived [Serialize]. *)
Definition policy_json (p : ResamplingPolicy) : Json :=
  JObject [(lit "enabled", JBool (enabled p)); (lit "target_bitdepth", JString (target_bitdepth p));
           (lit "target_samplerate", JString (target_samplerate p)); (lit "quality", JString (quality p))].
Definition band_json (b : EqBand) : Json :=
  JObject [(lit "freq_hz", JNumber (freq_hz b)); (lit "gain_db", JFloat (gain_db b)); (lit "q", JFloat (q b))].
Definition preset_json (p : NamedEqPreset) : Json :=
  JObject [(lit "name", JString (name p)); (lit "bands", JArray (map band_json (bands p)))].
Definition settings_json (s : Settings) : Json :=
  JObject
    [(lit "v", JNumber (v s)); (lit "resampling", policy_json (resampling s));
     (lit "mixer_type", JString (mixer_type_wire (mixer_type s)));
     (lit "mixer_device", JString (mixer_device s)); (lit "mixer_control", JString (mixer_control s));
     (lit "dop", JBool (dop s)); (lit "output_device", JString (output_device s));
     (lit "volume_normalization", JBool (volume_normalization s));
     (lit "startup_volume_percent", JNumber (startup_volume_percent s));
     (lit "max_volume_percent", JNumber (max_volume_percent s));
     (lit "volume_curve", JString (volume_curve_wire (volume_curve s)));
     (lit "exclusive_mode", JBool (exclusive_mode s)); (lit "crossfade_seconds", JNumber (crossfade_seconds s));
     (lit "gapless", JBool (gapless s)); (lit "eq_engaged", JBool (eq_engaged s));
     (lit "eq_bands", JArray (map band_json (eq_bands s))); (lit "eq_presets", JArray (map preset_json (eq_presets s)))].

(** ** The observer of the settings subject ([lib.rs]) *)

(** [atomic_write_drop_in], with the calls of the file system of [OptionsStore]. *)
Definition tmp_path (path : File) : File := {| dir := dir path; fname := fname path ++ lit ".tmp" |}.
Definition atomic_write_drop_in (path : File) (body : str) : Prog (result unit IoError) :=
  try! _ := write (tmp_path path) body in act (Rename (tmp_path path) path).

(** [detect_options_render_target] *)
Definition detect_options_render_target (asound_conf : result str IoError) : RenderTarget :=
  match asound_conf with
  | Ok body => if str_contains (lit "pcm.evo_local") body then SourceLocal else Main
  | Err _ => Main
  end.

(** An event of the observer's task: an update with its state, a gap, the end of the stream
    or the shutdown; and what it emits. *)
Inductive ObserverEvent := Updated (state : option Json) | Gap | StreamClosed | Shutdown.
Inductive Emitted := OptionsObserved (settings_state : Json) | OptionsRendered (render_bytes : N) (write_ok : bool).

(** The task of [spawn_options_observer]: what it emitted, with the world it leaves. *)
Definition observe (target : RenderTarget) (path : File) (state : option Json) : Prog (list Emitted) :=
  let settings_state := default JNull state in
  let settings := extract_options_settings_from_state settings_state in
  let body := match target with
              | Main => render_drop_in settings
              | SourceLocal => render_drop_in_for_target settings target
              end in
  let! outcome := atomic_write_drop_in path body in
  Ret [OptionsObserved settings_state; OptionsRendered (str_len body) (is_ok outcome)].
Fixpoint options_observer (target : RenderTarget) (path : File) (events : list ObserverEvent) : Prog (list Emitted) :=
  match events with
  | [] | StreamClosed :: _ | Shutdown :: _ => Ret []
  | Gap :: rest => options_observer target path rest
  | Updated state :: rest =>
      let! emitted := observe target path state in
      let! more := options_observer target path rest in
      Ret (emitted ++ more)
  end.

(** ** What the ALSA tools print ([lib.rs]) *)

(** [AplayCard], [parse_aplay_l] *)
Record AplayCard := { alsa_id : str; display_name : str }.
Definition bare (pending : option str) : list AplayCard :=
  match pending with Some n => [{| alsa_id := n; display_name := [] |}] | None => [] end.
Fixpoint aplay_go (pending : option str) (ls : list str) : list AplayCard :=
  match ls with
  | [] => bare pending
  | l :: ls' =>
      match l with
      | [] => aplay_go pending ls'
      | c :: _ =>
          if is_whitespace c then
            match pending with
            | Some n => {| alsa_id := n; display_name := trim l |} :: aplay_go None ls'
            | None => aplay_go None ls'
            end
          else bare pending ++ aplay_go (Some (trim l)) ls'
      end
  end.
Definition parse_aplay_l (stdout : str) : list AplayCard := aplay_go None (lines stdout).

(** [parse_amixer_scontrols]: what stands between the first two apostrophes. *)
Definition APOSTROPHE : char := 39.
Definition scontrol (line : str) : option str :=
  let line := trim line in
  if negb (starts_with (lit "Simple mixer control") line) then None
  else
    '(_, rest) ← split_once [APOSTROPHE] line;
    '(n, _) ← split_once [APOSTROPHE] rest;
    Some n.
Definition parse_amixer_scontrols (stdout : str) : list str := omap scontrol (lines stdout).

(** [asound_conf_defines_pcm_evo] *)
Definition asound_conf_defines_pcm_evo (asound_conf : str) : bool :=
  existsb (fun line =>
    let line := trim_start line in
    if starts_with (lit "#") line then false
    else starts_with (lit "pcm.evo ") line || starts_with (lit "pcm.evo" ++ [TAB]) line) (lines asound_conf).

(** ** A reader of such fragments

    Line by line: a block opens with a name and closes, and within blocks a key has a value.
    An entry of the result is the path of names with dots, and the value without quotes. *)

Inductive LineKind := Blank | Opens (n : str) | Closes | Pair (key value : str).
Definition unquote (s : str) : str :=
  match strip_prefix [DQUOTE] s with
  | Some r => default s (strip_suffix [DQUOTE] r)
  | None => s
  end.
Definition classify_trimmed (l : str) : LineKind :=
  match l with
  | [] => Blank
  | c :: _ =>
      if c =? 35 then Blank
      else if bool_decide (l = lit "}") then Closes
      else match strip_suffix (lit " {") l with
           | Some n => Opens n
           | None => match split_once (lit " ") l with
                     | Some (k, v) => Pair k (unquote v)
                     | None => Pair l []
                     end
           end
  end.
Definition classify (l : str) : LineKind := classify_trimmed (trim l).

Definition dotted (path : list str) (key : str) : str := foldr (fun n k => n ++ lit "." ++ k) key path.
Fixpoint read_kinds (path : list str) (ks : list LineKind) : list (str * str) :=
  match ks with
  | [] => []
  | Blank :: ks' => read_kinds path ks'
  | Opens n :: ks' => read_kinds (path ++ [n]) ks'
  | Closes :: ks' => read_kinds (removelast path) ks'
  | Pair k v :: ks' => (dotted path k, v) :: read_kinds path ks'
  end.
Definition read_conf (body : str) : list (str * str) := read_kinds [] (map classify (lines body)).

Definition entry (key : str) (conf : list (str * str)) : option str :=
  match list_find (fun e => e.1 = key) conf with Some (_, (_, v)) => Some v | None => None end.

(** The stages a PCM goes through, each with its parameters as they are written. *)
Inductive Stage := HwStage (card device : str) | PlugStage (rate : option str) | SoftvolStage (control card : str).
Fixpoint stages (fuel : nat) (conf : list (str * str)) (pcm : str) : option (list Stage) :=
  match fuel with
  | O => None
  | S fuel' =>
      let at_ k := entry (lit "pcm." ++ pcm ++ lit "." ++ k) conf in
      let onward (st : Stage) := match at_ (lit "slave.pcm") with
                                 | Some next => match stages fuel' conf next with Some l => Some (st :: l) | None => None end
                                 | None => None
                                 end in
      match at_ (lit "type") with
      | None => None
      | Some ty =>
          if bool_decide (ty = lit "hw") then
            match at_ (lit "card"), at_ (lit "device") with Some c, Some d => Some [HwStage c d] | _, _ => None end
          else if bool_decide (ty = lit "plug") then onward (PlugStage (at_ (lit "slave.rate")))
          else if bool_decide (ty = lit "softvol") then
            match at_ (lit "control.name"), at_ (lit "control.card") with
            | Some n, Some c => onward (SoftvolStage n c)
            | _, _ => None
            end
          else None
      end
  end.

(** What the settings ask for: nothing but the device when the playback is exclusive, and
    otherwise a conversion, the volume in software when the mixer is, and a conversion to a
    fixed rate when resampling is on. *)
Definition hw_stage (s : OptionsSettings) : Stage :=
  HwStage (parse_card_name (output_device_of s)) (dec (parse_card_device (output_device_of s))).
Definition wanted_stages (s : OptionsSettings) : list Stage :=
  if exclusive_of s then [hw_stage s]
  else [PlugStage None] ++
       (match mixer_kind s with
        | MixSoftware => [SoftvolStage (lit "Evo Master") (parse_card_name (output_device_of s))]
        | _ => []
        end) ++
       (match resampling_node s with Some hz => [PlugStage (Some (dec hz))] | None => [] end) ++
       [hw_stage s].

(** Names that can stand between quotes. *)
Definition plain (s : str) : Prop := LF ∉ s /\ DQUOTE ∉ s.
Definition plain_settings (s : OptionsSettings) : Prop :=
  plain (parse_card_name (output_device_of s)) /\
  match r_mixer_control s with Some c => plain c | None => True end.

(** *** Its lemmas *)

Lemma unquote_quoted s : unquote (quoted s) = s.
Proof.
  unfold unquote, quoted. cbn [app strip_prefix]. rewrite N.eqb_refl. unfold strip_suffix.
  rewrite rev_app_distr. cbn [rev app strip_prefix]. by rewrite N.eqb_refl, rev_involutive.
Qed.
Lemma unquote_dec n : unquote (dec n) = dec n.
Proof.
  unfold unquote. destruct (strip_prefix [DQUOTE] (dec n)) as [r|] eqn:E; [|done].
  apply strip_prefix_Some in E. exfalso. apply (dec_not_elem DQUOTE n); [done|]. rewrite E. left.
Qed.

(** A key, a space and a value that ends otherwise than a block opens. *)
Lemma classify_pair indent k v c d w :
  Forall (fun c => is_whitespace c = true) indent -> k = c :: w -> is_whitespace c = false -> c <> 35 ->
  32 ∉ k -> last v = Some d -> is_whitespace d = false -> d <> 123 -> d <> 125 ->
  classify (indent ++ k ++ lit " " ++ v) = Pair k (unquote v).
Proof.
  intros Hi -> Hc Hsharp Hk Hv Hd Hopen Hclose.
  assert (Ht : trim (indent ++ (c :: w) ++ lit " " ++ v) = (c :: w) ++ lit " " ++ v).
  { induction Hi as [|i indent Hi _ IH]; cbn [app].
    - apply last_Some in Hv as [v' ->].
      replace (c :: w ++ lit " " ++ v' ++ [d]) with (c :: (w ++ lit " " ++ v') ++ [d]) by (by rewrite <-!app_assoc).
      by apply trim_delimited.
    - by rewrite trim_space. }
  unfold classify. rewrite Ht. unfold classify_trimmed. cbn [app].
  rewrite (proj2 (N.eqb_neq c 35) Hsharp).
  assert (Hlast : last (c :: w ++ lit " " ++ v) = Some d).
  { change (c :: w ++ lit " " ++ v) with ((c :: w) ++ lit " " ++ v). by rewrite !last_app, Hv. }
  rewrite bool_decide_eq_false_2; [|intros Heq; rewrite Heq in Hlast; cbv in Hlast; congruence].
  destruct (strip_suffix (lit " {") (c :: w ++ lit " " ++ v)) as [n|] eqn:Es.
  { exfalso. unfold strip_suffix in Es. destruct (strip_prefix _ (rev _)) as [r|] eqn:Er; [|done].
    apply strip_prefix_Some in Er. apply (f_equal (fun l => last (rev l))) in Er. rewrite rev_involutive, Hlast in Er.
    rewrite rev_app_distr, rev_involutive, last_app in Er. cbv in Er. congruence. }
  change (split_once (lit " ") (c :: w ++ lit " " ++ v)) with (split_once [32] ((c :: w) ++ 32 :: v)).
  by rewrite split_once_char_intro.
Qed.

(** Closed facts. *)
Ltac decided := apply (bool_decide_unpack _); vm_compute; exact I.

Lemma last_quoted s : last (quoted s) = Some DQUOTE.
Proof. unfold quoted. by rewrite app_assoc, last_snoc. Qed.
Lemma last_dec n : exists d, last (dec n) = Some d /\ is_ascii_digit d = true.
Proof.
  destruct (last (dec n)) as [d|] eqn:E.
  - exists d. split; [done|]. apply last_Some in E as [l E]. pose proof (dec_digits n) as Hd.
    rewrite E in Hd. apply Forall_app in Hd as [_ Hd]. by inversion Hd.
  - apply last_None in E. by destruct (dec_nonempty n).
Qed.
Lemma digit_char d : is_ascii_digit d = true -> is_whitespace d = false /\ d <> 123 /\ d <> 125 /\ d <> CR.
Proof.
  unfold is_ascii_digit, in_range. intros [H1%N.leb_le H2%N.leb_le]%andb_true_iff. split_and!; try (unfold CR; lia).
  assert (d = 48 \/ d = 49 \/ d = 50 \/ d = 51 \/ d = 52 \/ d = 53 \/ d = 54 \/ d = 55 \/ d = 56 \/ d = 57) as H by lia.
  by repeat destruct H as [->|H]; [..|subst].
Qed.

Lemma spaces_repeat n : Forall (fun c => is_whitespace c = true) (repeat 32 n).
Proof. induction n; by constructor. Qed.

(** The lines with a value of the settings. *)
Lemma classify_quoted n c w x : is_whitespace c = false -> c <> 35 -> 32 ∉ c :: w ->
  classify (repeat 32 n ++ (c :: w) ++ lit " " ++ quoted x) = Pair (c :: w) x.
Proof.
  intros Hc Hs Hk. rewrite (classify_pair (repeat 32 n) (c :: w) (quoted x) c DQUOTE w); try done.
  - by rewrite unquote_quoted.
  - apply spaces_repeat.
  - apply last_quoted.
Qed.
Lemma classify_dec n c w x : is_whitespace c = false -> c <> 35 -> 32 ∉ c :: w ->
  classify (repeat 32 n ++ (c :: w) ++ lit " " ++ dec x) = Pair (c :: w) (dec x).
Proof.
  intros Hc Hs Hk. destruct (last_dec x) as (d & Hl & Hd). destruct (digit_char d Hd) as (? & ? & ? & _).
  rewrite (classify_pair (repeat 32 n) (c :: w) (dec x) c d w); try done.
  - by rewrite unquote_dec.
  - apply spaces_repeat.
Qed.
Lemma classify_comment x : classify (lit "    # hardware-mixer control: " ++ quoted x) = Blank.
Proof.
  change (lit "    # hardware-mixer control: " ++ quoted x)
    with (32 :: 32 :: 32 :: 32 :: lit "# hardware-mixer control: " ++ quoted x).
  unfold classify. rewrite !trim_space by done.
  assert (H : exists s, trim (lit "# hardware-mixer control: " ++ quoted x) = 35 :: s).
  { change (lit "# hardware-mixer control: " ++ quoted x) with (35 :: lit " hardware-mixer control: " ++ [DQUOTE] ++ x ++ [DQUOTE]).
    rewrite !app_assoc, trim_delimited by done. eauto. }
  destruct H as [s H].
  change (classify_trimmed (trim (lit "# hardware-mixer control: " ++ quoted x)) = Blank). by rewrite H.
Qed.

Lemma classify_card x : classify (lit "    card " ++ quoted x) = Pair (lit "card") x.
Proof. apply (classify_quoted 4 99 (lit "ard") x); [done|lia|]. decided. Qed.
Lemma classify_control_card x : classify (lit "    control.card " ++ quoted x) = Pair (lit "control.card") x.
Proof. apply (classify_quoted 4 99 (lit "ontrol.card") x); [done|lia|]. decided. Qed.
Lemma classify_device n : classify (lit "    device " ++ dec n) = Pair (lit "device") (dec n).
Proof. apply (classify_dec 4 100 (lit "evice") n); [done|lia|]. decided. Qed.
Lemma classify_rate n : classify (lit "        rate " ++ dec n) = Pair (lit "rate") (dec n).
Proof. apply (classify_dec 8 114 (lit "ate") n); [done|lia|]. decided. Qed.

Lemma one_line_quoted pre x : LF ∉ pre -> LF ∉ x -> one_line (pre ++ quoted x).
Proof.
  intros Hp Hx. apply one_line_app; [done|by destruct x|]. split; [|by rewrite last_quoted].
  unfold quoted. rewrite !elem_of_app. intros [H|[H|H]]; [by apply list_elem_of_singleton in H|done|by apply list_elem_of_singleton in H].
Qed.
Lemma one_line_dec_end pre n : LF ∉ pre -> one_line (pre ++ dec n).
Proof.
  intros Hp. apply one_line_app; [done|apply dec_nonempty|]. destruct (last_dec n) as (d & Hl & Hd).
  split; [by apply dec_not_elem|]. rewrite Hl. destruct (digit_char d Hd) as (_ & _ & _ & ?). congruence.
Qed.

(** Every line of a fragment is a line. *)
Ltac a_line Hcard Hctrl :=
  match goal with
  | |- one_line (_ ++ quoted (parse_card_name _)) => apply Hcard; decided
  | |- one_line (_ ++ quoted ?c) => is_var c; apply one_line_quoted; [decided|by apply Hctrl]
  | |- one_line (_ ++ dec _) => apply one_line_dec_end; decided
  | |- one_line _ => decided
  end.
Ltac the_lines Hcard Hctrl :=
  repeat match goal with
  | |- Forall _ (_ ++ _) => apply Forall_app_2
  | |- Forall _ (_ :: _) => apply Forall_cons_2; [a_line Hcard Hctrl|]
  | |- Forall _ [] => apply Forall_nil_2
  end.
Lemma control_plain s ctrl : plain_settings s -> mixer_kind s = MixHardware ctrl -> LF ∉ ctrl.
Proof.
  intros [_ Hm]. unfold mixer_kind. destruct (r_mixer_control s) as [c|].
  - destruct Hm as [Hm _]. destruct (exclusive_of s), (r_mixer_type s) as [[]|], (str_is_empty c); try done; intros H; by injection H as <-.
  - by destruct (exclusive_of s), (r_mixer_type s) as [[]|].
Qed.
Lemma render_one_line s t : plain_settings s -> Forall one_line (render_lines s t).
Proof.
  intros Hs. pose proof (proj1 (proj1 Hs)) as Hc. unfold render_lines, hw_lines, hint_lines.
  assert (Hcard : forall pre, LF ∉ pre -> one_line (pre ++ quoted (parse_card_name (output_device_of s)))).
  { intros pre Hp. by apply one_line_quoted. }
  pose proof (fun ctrl => control_plain s ctrl Hs) as Hctrl.
  destruct t, (exclusive_of s), (resampling_node s), (mixer_kind s) as [| |ctrl] eqn:Em; unfold header; cbv zeta;
    the_lines Hcard Hctrl.
Qed.

(** What the lines of a fragment are. *)
Lemma read_kinds_unlines ls : Forall one_line ls -> read_conf (unlines ls) = read_kinds [] (map classify ls).
Proof. intros H. unfold read_conf. by rewrite lines_unlines. Qed.

Ltac classes :=
  repeat rewrite map_app; cbn [map]; repeat first
   [rewrite classify_card | rewrite classify_control_card | rewrite classify_device | rewrite classify_rate | rewrite classify_comment].

(** The chain of a fragment. *)
Lemma rendered_chain s t : plain_settings s ->
  stages 5 (read_conf (render_drop_in_for_target s t)) (front_pcm_name t) = Some (wanted_stages s).
Proof.
  intros Hs. unfold render_drop_in_for_target. rewrite read_kinds_unlines by by apply render_one_line.
  unfold render_lines, wanted_stages, hw_stage, hw_lines, hint_lines.
  generalize (parse_card_name (output_device_of s)), (parse_card_device (output_device_of s)). intros card device.
  destruct t, (exclusive_of s), (resampling_node s) as [hz|], (mixer_kind s) as [| |ctrl]; cbv zeta; classes.
  all: repeat match goal with |- context [dec ?n] => generalize (dec n); intros ? end.
  all: vm_compute; reflexivity.
Qed.

(** ** The observer *)

(** The states it renders: those before the stream ends. *)
Fixpoint updates (events : list ObserverEvent) : list Json :=
  match events with
  | [] | StreamClosed :: _ | Shutdown :: _ => []
  | Gap :: rest => updates rest
  | Updated state :: rest => default JNull state :: updates rest
  end.
(** The drop-in of a state. *)
Definition drop_in_of (t : RenderTarget) (state : Json) : str :=
  render_drop_in_for_target (extract_options_settings_from_state state) t.

Lemma body_of t state :
  match t with
  | Main => render_drop_in (extract_options_settings_from_state state)
  | SourceLocal => render_drop_in_for_target (extract_options_settings_from_state state) t
  end = drop_in_of t state.
Proof. by destruct t. Qed.

Lemma staged_elsewhere path : tmp_path path <> path.
Proof.
  intros H. apply (f_equal (fun f => length (fname f))) in H. cbn [fname tmp_path] in H.
  rewrite length_app in H. change (length (lit ".tmp")) with 4%nat in H. lia.
Qed.

(** The drop-in and its staging file are all that changes, and until the end the drop-in is
    what it was. *)
Definition replaced (path : File) (body : str) (w w' : World) : Prop :=
  called [tmp_path path; path] w w' /\ (content w' path = content w path \/ content w' path = Some body).
Lemma holds_atomic_write path body w : fs_ok w ->
  holds (replaced path body w) (atomic_write_drop_in path body)
    (fun w' r => match r with
                 | Ok _ => content w' path = Some body
                 | Err _ => content w' path = content w path /\ fates w <> []
                 end) w.
Proof.
  intros Hok. pose proof (staged_elsewhere path) as Hne.
  assert (Hpre : forall w', called [tmp_path path] w w' -> replaced path body w w' /\ content w' path = content w path).
  { intros w' Hw. assert (content w' path = content w path) as Hc by (apply (called_content _ _ _ _ Hw); set_solver).
    split; [|done]. split; [by eapply called_weaken, Hw; set_solver|by left]. }
  unfold atomic_write_drop_in.
  eapply (holds_seq _ [tmp_path path]); [done|apply does_write|by intros w' Hw; apply Hpre|].
  intros w1 [u|e] H1 HR1; cbn beta iota in *; [|by apply holds_done; [by apply Hpre|split; [by apply Hpre|]]].
  unfold act. cbn [holds].
  destruct (rename_spec (tmp_path path) path w1 (called_ok _ _ _ H1) Hne) as [H2 H2r].
  split; [by apply Hpre|].
  assert (Hc2 : forall w2, called [tmp_path path; path] w1 w2 -> called [tmp_path path; path] w w2).
  { intros w2 Hw2. eapply called_trans; [|done]. by eapply called_weaken, H1; set_solver. }
  destruct (perform (Rename (tmp_path path) path) w1) as [w2 [u2|e]]; cbn [fst snd] in *.
  - assert (content w2 path = Some body) by congruence. split; [|done]. split; [by apply Hc2|by right].
  - destruct H2r as [Hc Hs]. assert (Hcw : content w2 path = content w path) by (rewrite Hc; by apply Hpre).
    split; [split; [by apply Hc2|by left]|]. split; [done|]. intros Hf.
    assert (Hf1 : fates w1 = []) by (by apply H1). rewrite (Hs Hf1) in HR1. done.
Qed.

(** The drop-in is what it was or the rendering of a state that was published. *)
Definition rendered_from (t : RenderTarget) (path : File) (states : list Json) (w w' : World) : Prop :=
  called [tmp_path path; path] w w' /\
  (content w' path = content w path \/ exists st, st ∈ states /\ content w' path = Some (drop_in_of t st)).
Lemma rendered_from_trans t path sts sts' w w1 w2 :
  rendered_from t path sts w w1 -> rendered_from t path sts' w1 w2 -> rendered_from t path (sts ++ sts') w w2.
Proof.
  intros [Hc1 H1] [Hc2 H2]. split; [by eapply called_trans|].
  destruct H2 as [->|(st & Hst & H2)]; [destruct H1 as [?|(st & Hst & H1)]; [by left|]|]; right; exists st; set_solver.
Qed.

Definition emits (st : Json) (t : RenderTarget) (ok : bool) : list Emitted :=
  [OptionsObserved st; OptionsRendered (str_len (drop_in_of t st)) ok].

Lemma holds_observe t path state w : fs_ok w ->
  let st := default JNull state in
  holds (rendered_from t path [st] w) (observe t path state)
    (fun w' out => exists ok, out = emits st t ok /\
       (if ok then content w' path = Some (drop_in_of t st) else content w' path = content w path /\ fates w <> [])) w.
Proof.
  intros Hok st. unfold observe. fold st. rewrite body_of. apply holds_compose.
  eapply holds_mono; [| |exact (holds_atomic_write path (drop_in_of t st) w Hok)].
  - intros w' [Hc [H|H]]; (split; [done|]); [by left|]. right. exists st. set_solver.
  - intros w' r [Hc Hw] HR. split; [split; [done|]|].
    + destruct Hw as [?|H]; [by left|right; exists st; set_solver].
    + exists (is_ok r). by destruct r.
Qed.

(** An observer that saw the states [states] with the outcomes [oks]. *)
Fixpoint emitted_of (t : RenderTarget) (states : list Json) (oks : list bool) : list Emitted :=
  match states, oks with
  | st :: states', ok :: oks' => emits st t ok ++ emitted_of t states' oks'
  | _, _ => []
  end.
(** What the file holds after: the last state whose write succeeded. *)
Fixpoint last_written (t : RenderTarget) (states : list Json) (oks : list bool) (old : option str) : option str :=
  match states, oks with
  | st :: states', ok :: oks' => last_written t states' oks' (if ok then Some (drop_in_of t st) else old)
  | _, _ => old
  end.

Lemma holds_observer t path events : forall w, fs_ok w ->
  holds (rendered_from t path (updates events) w) (options_observer t path events)
    (fun w' out => exists oks, length oks = length (updates events) /\ out = emitted_of t (updates events) oks /\
       content w' path = last_written t (updates events) oks (content w path) /\
       (fates w = [] -> Forall (fun ok => ok = true) oks)) w.
Proof.
  assert (Hdone : forall w, fs_ok w -> rendered_from t path [] w w) by (by split; [apply called_refl|left]).
  induction events as [|[state| | |] events IH]; intros w Hok; cbn [updates options_observer];
    try (apply holds_done; [by apply Hdone|by exists []]); [|by apply IH].
  set (st := default JNull state). apply holds_compose.
  eapply holds_mono; [| |exact (holds_observe t path state w Hok)]; fold st; cbv zeta.
  { intros w' [Hc [H|(x & Hx & H)]]; (split; [done|]); [by left|right; exists x; set_solver]. }
  intros w1 out Hw1 (ok & -> & Hok1). apply holds_compose.
  assert (Hcont : content w1 path = if ok then Some (drop_in_of t st) else content w path) by (destruct ok; [done|by destruct Hok1]).
  eapply holds_mono; [| |exact (IH w1 (called_ok _ _ _ (proj1 Hw1)))].
  - intros w2 Hw2. by apply (rendered_from_trans t path [st] _ w w1 w2).
  - intros w2 more Hw2 (oks & Hlen & -> & Hlast & Hfine).
    apply holds_done; [by apply (rendered_from_trans t path [st] _ w w1 w2)|].
    exists (ok :: oks). cbn [length emitted_of last_written]. rewrite Hlen, Hlast, Hcont. split_and!; [done..|].
    intros Hf. constructor; [destruct ok; [done|by destruct Hok1]|]. apply Hfine. by apply (proj1 Hw1).
Qed.

Lemma last_written_fine t states oks old : Forall (fun ok => ok = true) oks -> length oks = length states ->
  last_written t states oks old = match last states with Some st => Some (drop_in_of t st) | None => old end.
Proof.
  revert oks old. induction states as [|st states IH]; intros [|ok oks] old Hf Hlen; try done.
  inversion Hf as [|? ? -> Hf']; subst. cbn [last_written]. rewrite IH by (try done; by injection Hlen).
  rewrite last_cons. by destruct (last states).
Qed.

(** The drop-in is never torn: wherever the observer is cut off, the file is what it was or
    the whole rendering of a state that was published. *)
Theorem drop_in_is_never_torn t path events n w : fs_ok w ->
  let w' := crash n (options_observer t path events) w in
  content w' path = content w path \/
  exists st, st ∈ updates events /\ content w' path = Some (drop_in_of t st).
Proof.
  intros Hok w'. exact (proj2 (holds_crash _ n _ _ _ (holds_observer t path events w Hok))).
Qed.

(** ** From the settings to the device *)

(** What [extract_options_settings_from_state] reads of what the options plugin publishes. *)
Lemma extract_settings s :
  extract_options_settings_from_state (settings_json s) =
  {| r_mixer_type := Some (mixer_type s); r_mixer_control := non_empty (Some (mixer_control s));
     r_output_device := non_empty (Some (output_device s)); r_resampling := None;
     r_exclusive_mode := Some (exclusive_mode s) |}.
Proof.
  unfold extract_options_settings_from_state, settings_json. f_equal.
  by destruct (mixer_type s).
Qed.

(** What the settings promise of the sound path. *)
Definition device_of (s : Settings) : str :=
  if str_is_empty (output_device s) then DEFAULT_OUTPUT_DEVICE else output_device s.
Definition software_volume (s : Settings) : bool :=
  match mixer_type s with
  | Software => true
  | Hardware => str_is_empty (mixer_control s)
  | NoMixer => false
  end.
Definition device_chain (s : Settings) : list Stage :=
  let card := parse_card_name (device_of s) in
  let hw := HwStage card (dec (parse_card_device (device_of s))) in
  if exclusive_mode s then [hw]
  else PlugStage None ::
       (if software_volume s then [SoftvolStage (lit "Evo Master") card] else []) ++ [hw].

Lemma str_is_empty_spec s : str_is_empty s = true <-> s = [].
Proof. by destruct s. Qed.
Lemma output_device_extracted s :
  output_device_of (extract_options_settings_from_state (settings_json s)) = device_of s.
Proof.
  rewrite extract_settings. unfold output_device_of, device_of. cbn [r_output_device non_empty].
  destruct (str_is_empty (output_device s)) eqn:E; cbn [non_empty default]; [done|]. by rewrite E.
Qed.
Lemma wanted_extracted s :
  wanted_stages (extract_options_settings_from_state (settings_json s)) = device_chain s.
Proof.
  unfold wanted_stages, hw_stage. rewrite !output_device_extracted, extract_settings. unfold device_chain, software_volume.
  unfold exclusive_of, mixer_kind, resampling_node, exclusive_of; cbn [r_exclusive_mode r_mixer_type r_mixer_control r_resampling default].
  destruct (exclusive_mode s); [done|]. cbn [non_empty].
  destruct (mixer_type s), (str_is_empty (mixer_control s)) eqn:E; rewrite ?E; done.
Qed.

Lemma extracted_plain s : plain (parse_card_name (device_of s)) -> plain (mixer_control s) ->
  plain_settings (extract_options_settings_from_state (settings_json s)).
Proof.
  intros Hcard Hctrl. split; [by rewrite output_device_extracted|]. rewrite extract_settings. cbn [r_mixer_control non_empty].
  by destruct (str_is_empty (mixer_control s)).
Qed.

(** The settings that are published reach the device: without faults of the file system, the
    drop-in stands for the chain that the last of them promises. *)
Lemma observer_reaches t path events w s : fs_ok w -> fates w = [] ->
  last (updates events) = Some (settings_json s) ->
  plain (parse_card_name (device_of s)) -> plain (mixer_control s) ->
  exists body, content (run (options_observer t path events) w).1 path = Some body /\
               stages 5 (read_conf body) (front_pcm_name t) = Some (device_chain s).
Proof.
  intros Hok Hf Hlast Hcard Hctrl.
  destruct (holds_run _ _ _ _ (holds_observer t path events w Hok)) as [_ (oks & Hlen & _ & Hc & Hfine)].
  exists (drop_in_of t (settings_json s)). split.
  - rewrite Hc, last_written_fine by auto. by rewrite Hlast.
  - rewrite <-wanted_extracted. apply rendered_chain. by apply extracted_plain.
Qed.

(** A device named as [aplay -L] and the operator name it. *)
Lemma descriptor_card card n : 44 ∉ card ->
  parse_card_name (lit "hw:CARD=" ++ card ++ lit ",DEV=" ++ dec n) = card.
Proof.
  intros Hc. unfold parse_card_name, after_card. rewrite strip_prefix_app.
  change (lit ",DEV=" ++ dec n) with (44 :: lit "DEV=" ++ dec n). by rewrite split_char_piece.
Qed.
Lemma descriptor_device card n : 44 ∉ card -> n <= U32_MAX ->
  parse_card_device (lit "hw:CARD=" ++ card ++ lit ",DEV=" ++ dec n) = n.
Proof.
  intros Hc Hn. unfold parse_card_device, after_card. rewrite strip_prefix_app.
  change (lit ",DEV=" ++ dec n) with (44 :: lit "DEV=" ++ dec n). rewrite split_char_piece by done.
  rewrite split_char_last.
  2: { rewrite elem_of_app. intros [H|H]; [revert H; decided|]. revert H. by apply dec_not_elem. }
  cbn [lookup list_lookup mbind option_bind]. rewrite strip_prefix_app. cbn [default].
  change (default 0 (parse_u32 (trim (dec n))) = n).
  unfold parse_u32. rewrite trim_tidy by apply dec_tidy. by rewrite parse_uint_dec.
Qed.


(** ** The listing of [aplay -L] *)

Definition indented (l : str) : str := lit "    " ++ l.
Definition printed_card (e : AplayCard * list str) : list str :=
  alsa_id e.1 :: indented (display_name e.1) :: map indented e.2.

Definition printable (e : AplayCard * list str) : Prop :=
  tidy (alsa_id e.1) /\ (display_name e.1 = [] \/ tidy (display_name e.1)) /\ Forall one_line (printed_card e).

Lemma aplay_extra ls rest : aplay_go None (map indented ls ++ rest) = aplay_go None rest.
Proof. by induction ls. Qed.
Lemma aplay_card e rest : printable e -> aplay_go None (printed_card e ++ rest) = e.1 :: aplay_go None rest.
Proof.
  destruct e as [[id nm] extra]. intros (Hid & Hnm & _). cbn in Hid, Hnm. unfold printed_card. cbn [alsa_id display_name fst snd app].
  pose proof Hid as (Hne & Hh & _). destruct id as [|c id]; [done|]. cbn [aplay_go]. rewrite (Hh c eq_refl). cbn [bare app].
  rewrite (trim_tidy (c :: id)) by done.
  change (indented nm) with (32 :: 32 :: 32 :: 32 :: nm). cbn [aplay_go].
  change (is_whitespace 32) with true. cbn iota. rewrite !trim_space by done.
  rewrite aplay_extra. f_equal. f_equal. destruct Hnm as [->|Hnm]; [done|by apply trim_tidy].
Qed.

(** What the tool lists is what is read. *)
Theorem aplay_listing_roundtrip entries : Forall printable entries ->
  parse_aplay_l (unlines (concat (map printed_card entries))) = map fst entries.
Proof.
  intros H. unfold parse_aplay_l. rewrite lines_unlines.
  - induction H as [|e entries He _ IH]; [done|]. cbn [map concat]. by rewrite aplay_card, IH.
  - induction H as [|e entries He _ IH]; [done|]. cbn [map concat]. apply Forall_app_2; [apply He|done].
Qed.

(** ** What goes wrong *)

(** The policy of resampling that the operator sets never reaches the device: the renderer
    looks for a key [target_rate_hz] that the settings do not have. *)
Theorem resampling_is_never_rendered s p t :
  drop_in_of t (settings_json (with_resampling p s)) = drop_in_of t (settings_json s).
Proof. unfold drop_in_of. rewrite !extract_settings. reflexivity. Qed.

(** A device whose name holds a quote and line feeds is accepted, and what follows in it is
    read as configuration. *)
Definition device_with_a_block : str :=
  lit "hw:CARD=DAC" ++ [DQUOTE; LF] ++ lit "}" ++ [LF] ++ lit "pcm.!default {" ++ [LF] ++ lit "type null" ++ [LF] ++ lit "#".
Theorem device_name_opens_a_block :
  let o := run (demo_handle (demo_req SetOutputDevice (DText device_with_a_block))) (demo_world demo_settings [] None) in
  o.2 = Ok SimpleOk /\
  entry (lit "pcm.!default.type") (read_conf (drop_in_of Main (settings_json (settings o.1)))) = Some (lit "null").
Proof. vm_compute. repeat split. Qed.

(** A control whose name holds an apostrophe is listed cut short. *)
Theorem amixer_cuts_at_an_apostrophe :
  parse_amixer_scontrols (lit "Simple mixer control 'Master's Voice',0") = [lit "Master"].
Proof. vm_compute. repeat split. Qed.

(** ** Concrete runs *)

Definition demo_drop_in : File := {| dir := lit "/etc/asound.conf.d"; fname := lit "evo-options.conf" |}.
Definition demo_state (s : Settings) : Json := settings_json (with_output_device (lit "hw:CARD=DAC,DEV=1") s).


Lemma drop_in_is_never_torn_witness :
  let w := demo_world demo_settings [] None in
  let w' := crash 4 (options_observer Main demo_drop_in [Updated (Some (demo_state demo_settings)); Updated None]) w in
  content w' demo_drop_in = content w demo_drop_in \/
  exists st, st ∈ updates [Updated (Some (demo_state demo_settings)); Updated None] /\
             content w' demo_drop_in = Some (drop_in_of Main st).
Proof. apply drop_in_is_never_torn. apply demo_world_ok. Defined.
