(* ===== verification/Durations.v ===== *)
(** * Numbers with a fraction, and durations

    [f64] as far as the code parses, adds, divides and prints it: a finite value is a sign
    and a natural times a power of two, and every operation is the exact result rounded to
    53 bits, half to even.  A [Duration] is a number of nanoseconds.  The lemmas show where
    a time in milliseconds goes through an [f64] unchanged. *)

From S2P Require Import Prelude.
Local Open Scope N_scope.

(** ** Rounding *)

(** [p / q] to the nearest integer, half to even. *)
Definition round_half_even (p q : N) : N :=
  let d := p / q in
  let r := p mod q in
  if 2 * r <? q then d
  else if q <? 2 * r then d + 1
  else if N.even d then d else d + 1.

Inductive f64 := Nan | Inf (negative : bool) | Fin (negative : bool) (m : N) (e : Z).

(** [2 ^ e] and [2 ^ -e], whichever is whole. *)
Definition up (e : Z) : N := 2 ^ Z.to_N e.
Definition down (e : Z) : N := 2 ^ Z.to_N (- e).
(** [p / (q * 2^e)] as a ratio. *)
Definition scale (p q : N) (e : Z) : N * N := (p * down e, q * up e).

(** The exponent that leaves 53 bits, and no less than that of the smallest numbers. *)
Definition exponent (p q : N) : Z :=
  let e := (Z.of_N (N.log2 p) - Z.of_N (N.log2 q) - 53)%Z in
  let '(a, b) := scale p q e in
  Z.max (-1074) (if 2 ^ 53 * b <=? a then (e + 1)%Z else e).
Definition of_ratio (negative : bool) (p q : N) : f64 :=
  if p =? 0 then Fin negative 0 0
  else
    let e := exponent p q in
    let '(a, b) := scale p q e in
    let m := round_half_even a b in
    if 2 ^ 1024 * down e <=? m * up e then Inf negative else Fin negative m e.

(** [str::parse::<f64>] *)
Fixpoint digits (s : str) : list N * str :=
  match s with
  | c :: s' => if is_ascii_digit c then let '(ds, r) := digits s' in (c - 48 :: ds, r) else ([], s)
  | [] => ([], [])
  end.
Definition number (ds : list N) : N := foldl (fun n d => n * 10 + d) 0 ds.
Definition signed_rest (s : str) : bool * str :=
  match s with
  | c :: s' => if c =? 45 then (true, s') else if c =? 43 then (false, s') else (false, s)
  | [] => (false, [])
  end.
(** What follows an [e]. *)
Definition parse_exponent (s : str) : option Z :=
  match s with
  | [] => Some 0%Z
  | c :: s' =>
      if (c =? 101) || (c =? 69) then
        let '(negative, s'') := signed_rest s' in
        match digits s'' with
        | (d :: ds, []) => Some (let n := Z.of_N (number (d :: ds)) in if negative then (- n)%Z else n)
        | _ => None
        end
      else None
  end.
Definition parse_f64 (s : str) : option f64 :=
  match s with
  | [] => None
  | _ =>
      let '(negative, body) := signed_rest s in
      let '(whole, rest) := digits body in
      let '(fraction, rest) := match rest with
                               | c :: r => if c =? 46 then digits r else ([], rest)
                               | [] => ([], [])
                               end in
      if bool_decide (whole = [] /\ fraction = []) then
        let word := to_ascii_lowercase body in
        if bool_decide (word = lit "nan") then Some Nan
        else if bool_decide (word = lit "inf") || bool_decide (word = lit "infinity") then Some (Inf negative)
        else None
      else
        match parse_exponent rest with
        | None => None
        | Some e =>
            let n := number (whole ++ fraction) in
            let e := (e - Z.of_nat (length fraction))%Z in
            Some (of_ratio negative (n * 10 ^ Z.to_N e) (10 ^ Z.to_N (- e)))
        end
  end.

(** [is_finite], [secs < 0.0] *)
Definition is_finite (x : f64) : bool := match x with Fin _ _ _ => true | _ => false end.
Definition negative (x : f64) : bool :=
  match x with Nan => false | Inf n => n | Fin n m _ => n && negb (m =? 0) end.

(** A finite value as a ratio; addition and division of values that are not negative. *)
Definition ratio (x : f64) : N * N := match x with Fin _ m e => (m * up e, down e) | _ => (0, 1) end.
Definition of_int (n : N) : f64 := of_ratio false n 1.
Definition plus (x y : f64) : f64 :=
  let '(p, q) := ratio x in
  let '(p', q') := ratio y in
  of_ratio false (p * q' + p' * q) (q * q').
Definition quotient (x y : f64) : f64 :=
  let '(p, q) := ratio x in
  let '(p', q') := ratio y in
  of_ratio false (p * q') (q * p').

(** ** Durations *)

Definition NANOS_PER_SEC : N := 10 ^ 9.
Definition from_secs (secs : N) : N := secs * NANOS_PER_SEC.
(** [Duration::from_secs_f64]; no value is a panic. *)
Definition from_secs_f64 (x : f64) : option N :=
  match x with
  | Fin _ m e =>
      if negative x || (2 ^ 64 * down e <=? m * up e) then None
      else Some (round_half_even (m * up e * NANOS_PER_SEC) (down e))
  | _ => None
  end.
(** [Duration::as_secs_f64] *)
Definition as_secs_f64 (d : N) : f64 :=
  plus (of_int (d / NANOS_PER_SEC)) (quotient (of_int (d mod NANOS_PER_SEC)) (of_int NANOS_PER_SEC)).

(** A number in three digits at least, and [format!("{:.3}")] of a value that is not
    negative. *)
Definition pad3 (n : N) : str := replicate (3 - length (dec n)) 48 ++ dec n.
Definition thousandths (n : N) : str := dec (n / 1000) ++ lit "." ++ pad3 (n mod 1000).
Definition format_3 (x : f64) : str :=
  let '(p, q) := ratio x in thousandths (round_half_even (p * 1000) q).

(** ** Lemmas *)

Lemma pow2_pos n : 0 < 2 ^ n.
Proof. apply N.neq_0_lt_0, N.pow_nonzero. lia. Qed.
Lemma up_pos e : 0 < up e.
Proof. apply pow2_pos. Qed.
Lemma down_pos e : 0 < down e.
Proof. apply pow2_pos. Qed.
#[export] Hint Resolve pow2_pos up_pos down_pos : evo.

(** The error of a rounding is at most a half. *)
Lemma round_half_even_error p q : 0 < q ->
  2 * p <= 2 * (round_half_even p q * q) + q /\ 2 * (round_half_even p q * q) <= 2 * p + q.
Proof.
  intros Hq. unfold round_half_even. pose proof (N.div_mod p q ltac:(lia)) as Hp.
  pose proof (N.mod_lt p q ltac:(lia)) as Hr. remember (p / q) as d. remember (p mod q) as r.
  destruct (N.ltb_spec (2 * r) q); [nia|]. destruct (N.ltb_spec q (2 * r)); [nia|]. destruct (N.even d); nia.
Qed.
(** A number closer than a half is the one. *)
Lemma round_half_even_near p q r : 0 < q -> 2 * p < 2 * (r * q) + q -> 2 * (r * q) < 2 * p + q -> round_half_even p q = r.
Proof. intros Hq H1 H2. destruct (round_half_even_error p q Hq). nia. Qed.
Lemma round_half_even_exact p q : 0 < q -> round_half_even (p * q) q = p.
Proof. intros Hq. apply round_half_even_near; lia. Qed.

Lemma scale_step e : up (e + 1) * down e = 2 * (up e * down (e + 1)).
Proof.
  unfold up, down. destruct (Z.lt_ge_cases e 0) as [He|He].
  - replace (Z.to_N (e + 1)) with 0 by lia. replace (Z.to_N e) with 0 by lia.
    replace (Z.to_N (- e)) with (1 + Z.to_N (- (e + 1))) by lia. rewrite N.pow_add_r. lia.
  - replace (Z.to_N (- e)) with 0 by lia. replace (Z.to_N (- (e + 1))) with 0 by lia.
    replace (Z.to_N (e + 1)) with (1 + Z.to_N e) by lia. rewrite N.pow_add_r. lia.
Qed.

(** The first choice of the exponent leaves 53 bits or 54. *)
Lemma first_exponent p q : 0 < p -> 0 < q ->
  let e := (Z.of_N (N.log2 p) - Z.of_N (N.log2 q) - 53)%Z in
  2 ^ 52 * (q * up e) <= p * down e /\ p * down e < 2 ^ 54 * (q * up e).
Proof.
  intros Hp Hq e. destruct (N.log2_spec p Hp) as [Hp1 Hp2], (N.log2_spec q Hq) as [Hq1 Hq2].
  rewrite N.pow_succ_r' in Hp2, Hq2.
  assert (H : 2 ^ 53 * 2 ^ N.log2 q * up e = 2 ^ N.log2 p * down e).
  { unfold up, down. rewrite <-!N.pow_add_r. f_equal. lia. }
  pose proof (up_pos e). pose proof (down_pos e). change (2 ^ 53) with (2 * 2 ^ 52) in H. change (2 ^ 54) with (4 * 2 ^ 52).
  generalize dependent (2 ^ 52). generalize dependent (2 ^ N.log2 p). generalize dependent (2 ^ N.log2 q).
  generalize dependent (up e). generalize dependent (down e). clear e.
  intros dn Hdn un Hun lq Hq1 Hq2 lp Hp1 Hp2 k H. split.
  - assert (k * (q * un) <= k * (2 * lq * un)) by (apply N.mul_le_mono_l, N.mul_le_mono_r; lia). nia.
  - assert (p * dn < 2 * lp * dn) by (apply N.mul_lt_mono_pos_r; lia). nia.
Qed.

(** A result that is neither too small nor too large is off by one part in 2^53 at most. *)
Lemma of_ratio_close neg p q : 0 < p -> 0 < q -> q <= p * 2 ^ 1000 -> p < q * 2 ^ 1000 ->
  exists m e, of_ratio neg p q = Fin neg m e /\
    2 ^ 53 * (m * up e * q) <= (2 ^ 53 + 1) * (p * down e) /\
    (2 ^ 53 - 1) * (p * down e) <= 2 ^ 53 * (m * up e * q) /\
    2 ^ 52 * (q * up e) <= p * down e.
Proof.
  intros Hp Hq Hsmall Hlarge. unfold of_ratio. rewrite (proj2 (N.eqb_neq p 0)) by lia.
  destruct (first_exponent p q Hp Hq) as [H1 H2]. set (e0 := (Z.of_N (N.log2 p) - Z.of_N (N.log2 q) - 53)%Z) in *.
  assert (He : (-1074 < e0)%Z).
  { subst e0. assert (N.log2 q < N.log2 p + 1001); [|lia].
    apply N.log2_lt_pow2; [done|]. destruct (N.log2_spec p Hp) as [_ Hp2].
    replace (N.log2 p + 1001) with (N.succ (N.log2 p) + 1000) by lia. rewrite N.pow_add_r.
    eapply N.le_lt_trans; [exact Hsmall|]. apply N.mul_lt_mono_pos_r; auto with evo. }
  assert (He' : exists e, exponent p q = e /\ 2 ^ 52 * (q * up e) <= p * down e /\ p * down e < 2 ^ 53 * (q * up e)).
  { unfold exponent, scale. fold e0. destruct (N.leb_spec (2 ^ 53 * (q * up e0)) (p * down e0)) as [H|H].
    - exists (e0 + 1)%Z. split; [lia|]. pose proof (scale_step e0) as Hs.
      change (2 ^ 54) with (2 * 2 ^ 53) in *. change (2 ^ 53) with (2 * 2 ^ 52) in *.
      pose proof (up_pos e0). pose proof (down_pos e0). pose proof (up_pos (e0 + 1)). pose proof (down_pos (e0 + 1)).
      generalize dependent (2 ^ 52). intros k. intros.
      split; [apply (N.mul_le_mono_pos_r _ _ (2 * up e0))|apply (N.mul_lt_mono_pos_r (2 * up e0))]; [lia| |lia|].
      + replace (p * down (e0 + 1) * (2 * up e0)) with (p * down e0 * up (e0 + 1)) by nia.
        replace (k * (q * up (e0 + 1)) * (2 * up e0)) with (2 * k * (q * up e0) * up (e0 + 1)) by nia.
        by apply N.mul_le_mono_r.
      + replace (p * down (e0 + 1) * (2 * up e0)) with (p * down e0 * up (e0 + 1)) by nia.
        replace (2 * k * (q * up (e0 + 1)) * (2 * up e0)) with (2 * (2 * k) * (q * up e0) * up (e0 + 1)) by nia.
        by apply N.mul_lt_mono_pos_r.
    - exists e0. split; [lia|]. done. }
  destruct He' as (e & -> & Hb & Ht). unfold scale.
  assert (Hqu : 0 < q * up e) by (pose proof (up_pos e); nia).
  destruct (round_half_even_error (p * down e) (q * up e) Hqu) as [R1 R2].
  set (m := round_half_even (p * down e) (q * up e)) in *.
  assert (C1 : 2 ^ 53 * (m * up e * q) <= (2 ^ 53 + 1) * (p * down e)).
  { change (2 ^ 53) with (2 * 2 ^ 52). generalize dependent (2 ^ 52). intros k. intros. nia. }
  assert (C2 : (2 ^ 53 - 1) * (p * down e) <= 2 ^ 53 * (m * up e * q)).
  { change (2 ^ 53) with (2 * 2 ^ 52). generalize dependent (2 ^ 52). intros k. intros.
    rewrite N.mul_sub_distr_r. nia. }
  exists m, e. split; [|done].
  rewrite (proj2 (N.leb_gt _ _)); [done|].
  apply (N.mul_lt_mono_pos_l q); [done|]. pose proof (down_pos e) as Hdn.
  assert (p * down e < q * 2 ^ 1000 * down e) by (by apply N.mul_lt_mono_pos_r).
  change (2 ^ 1024) with (2 ^ 24 * 2 ^ 1000). generalize dependent (2 ^ 1000). intros K. intros.
  change (2 ^ 53) with 9007199254740992 in *. change (2 ^ 24) with 16777216. nia.
Qed.

(** ** Times in milliseconds *)

(** A whole number below 2^53 is itself. *)
Lemma of_int_exact n : n < 2 ^ 53 -> exists b, 0 < b /\ ratio (of_int n) = (n * b, b).
Proof.
  intros Hn. unfold of_int. destruct (N.eq_dec n 0) as [->|Hne]; [exists 1; done|].
  destruct (first_exponent n 1 ltac:(lia) ltac:(lia)) as [H1 H2]. unfold of_ratio.
  rewrite (proj2 (N.eqb_neq n 0)) by done. set (e0 := (Z.of_N (N.log2 n) - Z.of_N (N.log2 1) - 53)%Z) in *.
  assert (Hl : N.log2 n < 53) by (apply N.log2_lt_pow2; lia).
  assert (He0 : (-54 < e0 < 0)%Z) by (subst e0; change (N.log2 1) with 0; lia).
  assert (He : exists e, exponent n 1 = e /\ (-54 < e <= 0)%Z).
  { unfold exponent, scale. fold e0. destruct (2 ^ 53 * (1 * up e0) <=? n * down e0); eexists; (split; [reflexivity|lia]). }
  destruct He as (e & -> & He). unfold scale.
  assert (Hu : up e = 1) by (unfold up; by replace (Z.to_N e) with 0 by lia).
  replace (1 * up e) with 1 by lia. rewrite Hu. pose proof (round_half_even_exact (n * down e) 1 ltac:(lia)) as Hr.
  rewrite N.mul_1_r in Hr. rewrite Hr.
  rewrite (proj2 (N.leb_gt _ _)).
  - exists (down e). split; [apply down_pos|]. cbn [ratio]. by rewrite Hu, N.mul_1_r.
  - rewrite N.mul_1_r. apply N.mul_lt_mono_pos_r; [apply down_pos|]. eapply N.lt_trans; [exact Hn|]. by apply N.pow_lt_mono_r.
Qed.

(** What the player prints of a time in milliseconds. *)
Definition millis (t : N) : f64 := of_ratio false t 1000.

Lemma from_secs_millis t : t < 2 ^ 22 * 1000 -> from_secs_f64 (millis t) = Some (t * 10 ^ 6).
Proof.
  intros Ht. destruct (N.eq_dec t 0) as [->|Hne]; [done|]. unfold millis.
  destruct (of_ratio_close false t 1000) as (m & e & -> & H1 & H2 & H3); [lia|done| | |].
  { change 1000 with (1 * 1000) at 1. apply N.mul_le_mono; [lia|]. by vm_compute. }
  { change (2 ^ 22 * 1000) with 4194304000 in Ht. eapply N.lt_trans; [exact Ht|]. by vm_compute. }
  change (2 ^ 22 * 1000) with 4194304000 in Ht. change (2 ^ 52) with 4503599627370496 in H3.
  change (2 ^ 53) with 9007199254740992 in *. change (9007199254740992 + 1) with 9007199254740993 in H1.
  change (9007199254740992 - 1) with 9007199254740991 in H2.
  pose proof (up_pos e). pose proof (down_pos e).
  assert (Hlarge : 2 ^ 30 * up e < down e) by (change (2 ^ 30) with 1073741824; nia).
  assert (Hu : up e = 1).
  { unfold up, down in *. destruct (Z.le_gt_cases e 0); [by replace (Z.to_N e) with 0 by lia|].
    replace (Z.to_N (- e)) with 0 in Hlarge by lia. change (2 ^ 30) with 1073741824 in Hlarge. change (2 ^ 0) with 1 in Hlarge. nia. }
  rewrite Hu in H1, H2, H3, Hlarge. change (2 ^ 30) with 1073741824 in Hlarge. rewrite N.mul_1_r in *. cbn [from_secs_f64 negative andb orb].
  rewrite Hu, N.mul_1_r.
  rewrite (proj2 (N.leb_gt _ _)).
  - f_equal. apply round_half_even_near; [done|..]; unfold NANOS_PER_SEC; change (10 ^ 9) with 1000000000; change (10 ^ 6) with 1000000; nia.
  - change (2 ^ 64) with 18446744073709551616. nia.
Qed.

(** The fraction of a second, and the sum: each within one part in 2^53. *)
Lemma quotient_close n q : 0 < n -> n < 2 ^ 30 -> 0 < q -> q < 2 ^ 30 ->
  let '(a, b) := ratio (quotient (of_int n) (of_int q)) in
  0 < b /\ 2 ^ 53 * (a * q) <= (2 ^ 53 + 1) * (n * b) /\ (2 ^ 53 - 1) * (n * b) <= 2 ^ 53 * (a * q).
Proof.
  intros Hn Hn' Hq Hq'. unfold quotient.
  assert (H30 : 2 ^ 30 < 2 ^ 53) by done.
  destruct (of_int_exact n ltac:(lia)) as (b1 & Hb1 & ->), (of_int_exact q ltac:(lia)) as (b2 & Hb2 & ->).
  assert (Hb : 0 < b1 * b2) by nia.
  replace (n * b1 * b2) with (n * (b1 * b2)) by lia. replace (b1 * (q * b2)) with (q * (b1 * b2)) by lia.
  set (k := b1 * b2) in *. clearbody k.
  assert (H1000 : 2 ^ 30 < 2 ^ 1000) by (by vm_compute).
  destruct (of_ratio_close false (n * k) (q * k)) as (m & e & -> & H1 & H2 & _); [nia|nia| | |].
  { replace (n * k * 2 ^ 1000) with (n * 2 ^ 1000 * k) by lia. apply N.mul_le_mono_r. generalize dependent (2 ^ 1000). intros. nia. }
  { replace (q * k * 2 ^ 1000) with (q * 2 ^ 1000 * k) by lia. apply N.mul_lt_mono_pos_r; [done|].
    generalize dependent (2 ^ 1000). intros. nia. }
  cbn [ratio]. pose proof (down_pos e). generalize dependent (m * up e). intros a. intros.
  split; [done|]. generalize dependent (2 ^ 53). intros K. intros.
  split; apply (N.mul_le_mono_pos_r _ _ k); try done; nia.
Qed.

(** Two roundings on the way do not move a number of thousandths. *)
Lemma thousandths_kept K s r a b A B :
  0 < b -> 0 < B -> 0 < K -> r < 1000 -> 2 * (1000 * s + 2 * r + 2) <= K ->
  K * (a * 1000) <= (K + 1) * (r * b) -> (K - 1) * (r * b) <= K * (a * 1000) ->
  K * (A * b) <= (K + 1) * ((s * b + a) * B) -> (K - 1) * ((s * b + a) * B) <= K * (A * b) ->
  round_half_even (A * 1000) B = 1000 * s + r.
Proof.
  intros Hb HB HK Hr Ht L1 L2 U1 U2. set (t := 1000 * s + r).
  assert (S1 : K * ((s * b + a) * 1000) <= (K * t + r) * b) by (subst t; nia).
  assert (S2 : (K * t - r) * b <= K * ((s * b + a) * 1000)).
  { rewrite N.mul_sub_distr_r in *. subst t. nia. }
  assert (T1 : K * K * (A * 1000) <= (K + 1) * (K * t + r) * B).
  { apply (N.mul_le_mono_pos_r _ _ b); [done|]. clear - U1 S1.
    apply (N.mul_le_mono_l _ _ (1000 * K)) in U1. apply (N.mul_le_mono_l _ _ ((K + 1) * B)) in S1. lia. }
  assert (T2 : (K - 1) * (K * t - r) * B <= K * K * (A * 1000)).
  { apply (N.mul_le_mono_pos_r _ _ b); [done|]. clear - U2 S2.
    apply (N.mul_le_mono_l _ _ (1000 * K)) in U2. apply (N.mul_le_mono_l _ _ ((K - 1) * B)) in S2.
    generalize dependent (K - 1). generalize dependent (K * t - r). intros w kk U2 S2. clear t. etransitivity; [|etransitivity; [exact S2|]]; [apply N.eq_le_incl; ring|]. etransitivity; [|etransitivity; [exact U2|]]; apply N.eq_le_incl; ring. }
  assert (Htr : t + r + 1 <= K / 2 /\ 2 * (K / 2) <= K) 
    by (split; [apply N.div_le_lower_bound; [done|]; subst t; clear - Ht; lia|by apply N.Div0.mul_div_le]).
  destruct Htr as [Htr HK2]. set (h := K / 2) in *. clearbody h t.
  assert (HrK : r < K) by lia. clear L1 L2 U1 U2 S1 S2 Ht.
  apply (N.mul_le_mono_l _ _ K) in Htr, HK2. apply round_half_even_near; [done|..].
  - assert (E : (K + 1) * (K * t + r) < K * K * t + K * h) by lia.
    apply (N.mul_lt_mono_pos_r B) in E; [|done]. apply (N.mul_le_mono_r _ _ B) in HK2.
    apply (N.mul_lt_mono_pos_l (K * K)); [lia|]. lia.
  - assert (E : K * K * t < (K - 1) * (K * t - r) + K * h) by nia.
    apply (N.mul_lt_mono_pos_r B) in E; [|done]. apply (N.mul_le_mono_r _ _ B) in HK2.
    apply (N.mul_lt_mono_pos_l (K * K)); [lia|]. lia.
Qed.

Lemma split_millis t : t * 10 ^ 6 / NANOS_PER_SEC = t / 1000 /\ (t * 10 ^ 6) mod NANOS_PER_SEC = t mod 1000 * 10 ^ 6.
Proof.
  change NANOS_PER_SEC with (1000 * 10 ^ 6). split; [by rewrite N.Div0.div_mul_cancel_r|by rewrite N.Div0.mul_mod_distr_r].
Qed.

Lemma zero_ratio q : of_ratio false 0 q = Fin false 0 0.
Proof. done. Qed.

Lemma format_millis t : t < 2 ^ 50 -> format_3 (as_secs_f64 (t * 10 ^ 6)) = thousandths t.
Proof.
  intros Ht. change (2 ^ 50) with 1125899906842624 in Ht. pose proof (N.div_mod' t 1000) as Hdiv. pose proof (N.mod_lt t 1000 ltac:(done)) as Hr.
  unfold as_secs_f64, format_3. destruct (split_millis t) as [-> ->].
  set (s := t / 1000) in *. set (r := t mod 1000) in *. clearbody s r.
  assert (Hq : exists a b, ratio (quotient (of_int (r * 10 ^ 6)) (of_int NANOS_PER_SEC)) = (a, b) /\ 0 < b /\
             2 ^ 53 * (a * 1000) <= (2 ^ 53 + 1) * (r * b) /\ (2 ^ 53 - 1) * (r * b) <= 2 ^ 53 * (a * 1000)).
  { destruct (N.eq_dec r 0) as [->|Hr0]; [exists 0, 1; vm_compute; done|].
    pose proof (quotient_close (r * 10 ^ 6) NANOS_PER_SEC) as H. change (10 ^ 6) with 1000000 in *.
    change NANOS_PER_SEC with 1000000000 in *. change (2 ^ 30) with 1073741824 in H.
    specialize (H ltac:(lia) ltac:(lia) ltac:(lia) ltac:(lia)). destruct (ratio _) as [a b]. exists a, b. split; [done|].
    destruct H as (Hb & H1 & H2). split; [done|]. generalize dependent (2 ^ 53). intros K. intros. split; nia. }
  destruct Hq as (a & b & Hab & Hb & L1 & L2). destruct (of_int_exact s) as (c & Hc & Hs).
  { change (2 ^ 53) with 9007199254740992. lia. }
  unfold plus. rewrite Hs, Hab.
  assert (Hsum : exists A B, ratio (of_ratio false (s * c * b + a * c) (c * b)) = (A, B) /\ 0 < B /\
             2 ^ 53 * (A * b) <= (2 ^ 53 + 1) * ((s * b + a) * B) /\ (2 ^ 53 - 1) * ((s * b + a) * B) <= 2 ^ 53 * (A * b)).
  { destruct (N.eq_dec (s * b + a) 0) as [H0|H0].
    - replace (s * c * b + a * c) with ((s * b + a) * c) by lia. rewrite H0. exists 0, 1. cbn [N.mul]. split; [done|].
      split; [done|]. rewrite !N.mul_0_r. lia.
    - replace (s * c * b + a * c) with ((s * b + a) * c) by lia. replace (c * b) with (b * c) by lia.
      assert (Hab2 : a <= 2 * b /\ b <= 2000 * (s * b + a)).
      { change (2 ^ 53) with 9007199254740992 in L1, L2. clear - L1 L2 Hr H0 Hb. split; [nia|].
        destruct (N.eq_dec r 0) as [->|]; [|nia]. destruct (N.eq_dec s 0) as [->|]; nia. }
      assert (HP : 0 < (s * b + a) * c) by (apply N.mul_pos_pos; lia). assert (HQ : 0 < b * c) by (by apply N.mul_pos_pos).
      pose proof (of_ratio_close false ((s * b + a) * c) (b * c) HP HQ) as Hclose.
      assert (HK : 2000 < 2 ^ 1000 /\ 1152921504606846976 < 2 ^ 1000) by (split; by vm_compute).
      generalize dependent (2 ^ 1000). intros K Hclose HK.
      destruct Hclose as (m & e & -> & H1 & H2 & _).
      { replace ((s * b + a) * c * K) with ((s * b + a) * K * c) by lia. apply N.mul_le_mono_r.
        destruct Hab2 as [_ H2]. eapply N.le_trans; [exact H2|]. rewrite (N.mul_comm 2000). apply N.mul_le_mono_l. lia. }
      { replace (b * c * K) with (b * K * c) by lia. apply N.mul_lt_mono_pos_r; [done|].
        apply N.le_lt_trans with (b * (s + 2)); [lia|]. apply N.mul_lt_mono_pos_l; lia. }
      exists (m * up e), (down e). cbn [ratio]. split; [done|]. split; [apply down_pos|].
      clear HK. generalize dependent (2 ^ 53). intros. split; apply (N.mul_le_mono_pos_r _ _ c); lia. }
  destruct Hsum as (A & B & -> & HB & U1 & U2). f_equal.
  rewrite (thousandths_kept (2 ^ 53) s r a b A B); [lia|done|done|done|done| |done..].
  change (2 ^ 53) with 9007199254740992. lia.
Qed.

(** ** Printing and parsing *)

Lemma digits_app ds r : Forall (fun c => is_ascii_digit c = true) ds ->
  (forall c, head r = Some c -> is_ascii_digit c = false) -> digits (ds ++ r) = (map (fun c => c - 48) ds, r).
Proof.
  intros Hd Hr. induction Hd as [|c ds Hc _ IH]; cbn [app digits map].
  - destruct r as [|c r]; [done|]. cbn [digits]. by rewrite (Hr c).
  - by rewrite Hc, IH.
Qed.
Lemma parse_digits_number ds acc : Forall (fun c => is_ascii_digit c = true) ds ->
  parse_digits acc ds = Some (foldl (fun n d => n * 10 + d) acc (map (fun c => c - 48) ds)).
Proof. intros Hd. revert acc. induction Hd as [|c ds Hc _ IH]; intros acc; cbn; [done|]. by rewrite Hc, IH. Qed.
Lemma number_dec n : number (map (fun c => c - 48) (dec n)) = n.
Proof.
  pose proof (parse_digits_dec n) as H. rewrite parse_digits_number in H by apply dec_digits. by injection H.
Qed.
Lemma number_app ds ds' : number (ds ++ ds') = number ds * 10 ^ N.of_nat (length ds') + number ds'.
Proof.
  unfold number. rewrite foldl_app. generalize (foldl (fun n d => n * 10 + d) 0 ds). intros n.
  assert (H : forall l a, foldl (fun n d => n * 10 + d) a l = a * 10 ^ N.of_nat (length l) + foldl (fun n d => n * 10 + d) 0 l).
  { clear. induction l as [|d l IH]; intros a; cbn [foldl length]; [lia|]. rewrite IH, (IH (0 * 10 + d)).
    rewrite Nat2N.inj_succ, N.pow_succ_r'. lia. }
  apply H.
Qed.

(** Three digits of a number below 1000. *)
Lemma pad3_digits n : n < 1000 ->
  Forall (fun c => is_ascii_digit c = true) (pad3 n) /\ length (pad3 n) = 3%nat /\ number (map (fun c => c - 48) (pad3 n)) = n.
Proof.
  intros Hn. assert (Hall : Forall (fun n => Forall (fun c => is_ascii_digit c = true) (pad3 n) /\
    length (pad3 n) = 3%nat /\ number (map (fun c => c - 48) (pad3 n)) = n) (map N.of_nat (seq 0 1000))).
  { apply (bool_decide_unpack _). vm_compute. exact I. }
  rewrite Forall_forall in Hall. apply Hall. apply list_elem_of_fmap. exists (N.to_nat n). split; [lia|].
  apply elem_of_seq. lia.
Qed.

(** Reading three digits after the point gives the ratio to the nearest value. *)
Theorem parse_thousandths t : parse_f64 (thousandths t) = Some (millis t).
Proof.
  unfold thousandths. pose proof (N.mod_lt t 1000 ltac:(done)) as Hr. destruct (pad3_digits _ Hr) as (P1 & P2 & P3).
  pose proof (dec_digits (t / 1000)) as Hd. pose proof (dec_nonempty (t / 1000)) as Hne.
  unfold parse_f64. destruct (dec (t / 1000)) as [|c s] eqn:Ec; [done|]. rewrite <-Ec in *. clear Hne.
  assert (Hs : signed_rest (dec (t / 1000) ++ lit "." ++ pad3 (t mod 1000)) = (false, dec (t / 1000) ++ lit "." ++ pad3 (t mod 1000))).
  { rewrite Ec in *. inversion Hd as [|? ? Hc]; subst. cbn [app signed_rest].
    destruct (N.eqb_spec c 45) as [->|]; [done|]. by destruct (N.eqb_spec c 43) as [->|]. }
  assert (Hl : exists c s, dec (t / 1000) ++ lit "." ++ pad3 (t mod 1000) = c :: s) by (rewrite Ec; by eexists _, _).
  destruct Hl as (c' & s' & Hl). rewrite Hl at 1. rewrite Hs. rewrite digits_app by (try done; intros ? [= <-]; done).
  change (lit "." ++ pad3 (t mod 1000)) with (46 :: pad3 (t mod 1000)). cbn iota. rewrite N.eqb_refl.
  rewrite <-(app_nil_r (pad3 (t mod 1000))), digits_app by done.
  rewrite bool_decide_eq_false_2 by (rewrite Ec; by intros [? _]). cbn [parse_exponent].
  rewrite length_map, P2, number_app, number_dec, P3, length_map, P2. cbn [N.of_nat].
  change (0 - Z.of_nat 3)%Z with (-3)%Z. change (Z.to_N (-3)) with 0. change (Z.to_N (- -3)) with 3.
  unfold millis. do 2 f_equal. change (10 ^ N.of_nat 3) with 1000. rewrite N.mul_1_r. pose proof (N.div_mod' t 1000). lia.
Qed.
