(* ===== verification/MpdReplies.v ===== *)
(** * What the player answers ([crates/evo-mpd-shared/src/types.rs] and the parsers of
    [connection.rs])

    The data of an answer and the functions that read them from its fields.  A [Duration]
    is in nanoseconds; a panic is no value of an outer option.  The theorems print the data
    the way the player does and read them back. *)

From stdpp Require Import gmap.
From S2P Require Import Prelude MpdProtocol MpdServer Durations.
Local Open Scope N_scope.

(** ** Data ([types.rs]) *)

(** [MpdStatus], [MpdStats] *)
Record MpdStatus := {
  s_state : PlayState; s_song_position : option N; s_elapsed : option N; s_duration : option N;
  s_volume : option N; s_repeat : bool; s_random : bool; s_single : bool; s_consume : bool;
  s_crossfade_seconds : N; s_updating_db : option N }.
Record MpdStats := { artists : N; albums : N; songs : N; db_update_unix_s : option N }.

(** The members that [MpdSong], [MpdQueueItem], [MpdPlaylistEntry] and the file of a
    library listing share. *)
Record Tagged := {
  t_file : str; t_title : option str; t_artist : option str; t_album : option str;
  t_duration : option N; t_classical : ClassicalTags }.
Record MpdSong := { song_tags : Tagged; codec_name : option str }.
Record MpdQueueItem := { q_id : N; q_position : N; q_tags : Tagged }.
Record MpdPlaylistEntry := { p_position : N; p_tags : Tagged }.
Record MpdPlaylistSummary := { p_name : str; p_last_modified : option str }.
Record MpdSticker := { sticker_name : str; sticker_value : str }.
Record MpdStickerMatch := { m_file : str; m_sticker : MpdSticker }.
Inductive MpdLibraryEntry :=
  | Directory (path : str) (last_modified : option str)
  | File (tags : Tagged) (albumartist : option str)
  | Playlist (path : str) (last_modified : option str).
Record MpdMount := { mount_name : str; mount_storage_uri : str }.
Record MpdNeighbor := { neighbor_uri : str; neighbor_name : str }.

(** [IdleSubsystem] *)
Inductive IdleSubsystem :=
  | Database | Update | StoredPlaylist | QueueChanged | Player | Mixer | Output | Options | Partition
  | Sticker | Subscription | Message | Neighbor | Mount | Other (s : str).
Definition subsystem_names : list (str * IdleSubsystem) :=
  [(lit "database", Database); (lit "update", Update); (lit "stored_playlist", StoredPlaylist);
   (lit "playlist", QueueChanged); (lit "player", Player); (lit "mixer", Mixer); (lit "output", Output);
   (lit "options", Options); (lit "partition", Partition); (lit "sticker", Sticker);
   (lit "subscription", Subscription); (lit "message", Message); (lit "neighbor", Neighbor); (lit "mount", Mount)].
(** [IdleSubsystem::as_protocol_str], [from_protocol_str] *)
Definition subsystem_str (s : IdleSubsystem) : str :=
  match s with
  | Database => lit "database" | Update => lit "update" | StoredPlaylist => lit "stored_playlist"
  | QueueChanged => lit "playlist" | Player => lit "player" | Mixer => lit "mixer" | Output => lit "output"
  | Options => lit "options" | Partition => lit "partition" | Sticker => lit "sticker"
  | Subscription => lit "subscription" | Message => lit "message" | Neighbor => lit "neighbor"
  | Mount => lit "mount" | Other s => s
  end.
Definition subsystem_of (s : str) : IdleSubsystem :=
  match list_find (fun e => e.1 = s) subsystem_names with Some (_, (_, i)) => i | None => Other s end.

(** [MpdSearchField] *)
Inductive MpdSearchField :=
  | AnyField | ArtistField | AlbumArtistField | AlbumField | TitleField | GenreField | ComposerField
  | FileField | BaseField | DateField.
Definition search_field_str (f : MpdSearchField) : str :=
  match f with
  | AnyField => lit "any" | ArtistField => lit "artist" | AlbumArtistField => lit "albumartist"
  | AlbumField => lit "album" | TitleField => lit "title" | GenreField => lit "genre"
  | ComposerField => lit "composer" | FileField => lit "file" | BaseField => lit "base" | DateField => lit "date"
  end.

(** [some_if_non_empty], [ClassicalTags::try_apply]; no value where the key is another. *)
Definition some_if_non_empty (v : str) : option str := if str_is_empty (trim v) then None else Some v.
Definition try_apply (key value : str) (c : ClassicalTags) : option ClassicalTags :=
  let '{| composer := a; composer_sort := b; conductor := d; ensemble := e; performer := p; work := w;
          work_sort := ws; movement := m; movement_number := mn; original_date := od; recording_date := rd;
          record_label := l; medium := md |} := c in
  let new a b d e p w ws m mn od rd l md :=
    Some {| composer := a; composer_sort := b; conductor := d; ensemble := e; performer := p; work := w;
            work_sort := ws; movement := m; movement_number := mn; original_date := od; recording_date := rd;
            record_label := l; medium := md |} in
  let x := some_if_non_empty value in
  if bool_decide (key = lit "Composer") then new x b d e p w ws m mn od rd l md
  else if bool_decide (key = lit "ComposerSort") then new a x d e p w ws m mn od rd l md
  else if bool_decide (key = lit "Conductor") then new a b x e p w ws m mn od rd l md
  else if bool_decide (key = lit "Ensemble") then new a b d x p w ws m mn od rd l md
  else if bool_decide (key = lit "Performer") then new a b d e x w ws m mn od rd l md
  else if bool_decide (key = lit "Work") then new a b d e p x ws m mn od rd l md
  else if bool_decide (key = lit "WorkSort") then new a b d e p w x m mn od rd l md
  else if bool_decide (key = lit "Movement") then new a b d e p w ws x mn od rd l md
  else if bool_decide (key = lit "MovementNumber") then new a b d e p w ws m (parse_u32 (trim value)) od rd l md
  else if bool_decide (key = lit "OriginalDate") then new a b d e p w ws m mn x rd l md
  else if bool_decide (key = lit "Date") then new a b d e p w ws m mn od x l md
  else if bool_decide (key = lit "Label") then new a b d e p w ws m mn od rd x md
  else if bool_decide (key = lit "Media") then new a b d e p w ws m mn od rd l x
  else None.

(** [derive_source_codec_name] *)
Definition codecs : list (str * str) :=
  [(lit "flac", lit "flac"); (lit "wav", lit "wav"); (lit "aif", lit "aiff"); (lit "aiff", lit "aiff");
   (lit "ape", lit "ape"); (lit "alac", lit "alac"); (lit "m4a", lit "alac"); (lit "wv", lit "wavpack");
   (lit "tta", lit "tta"); (lit "shn", lit "shorten"); (lit "dsf", lit "dsf"); (lit "dff", lit "dff");
   (lit "mp3", lit "mp3"); (lit "ogg", lit "vorbis"); (lit "oga", lit "vorbis"); (lit "opus", lit "opus");
   (lit "aac", lit "aac"); (lit "mp4", lit "aac"); (lit "wma", lit "wma"); (lit "mpc", lit "musepack");
   (lit "mod", lit "mod"); (lit "s3m", lit "mod"); (lit "xm", lit "mod"); (lit "it", lit "mod"); (lit "spx", lit "speex")].
(** What follows the last [c], if there is one. *)
Definition after_last (c : char) (s : str) : option str :=
  match split_once [c] (rev s) with Some (p, _) => Some (rev p) | None => None end.
Definition derive_source_codec_name (path : str) : option str :=
  if str_is_empty path then None
  else
    let filename := default path (after_last 47 path) in
    raw_ext ← after_last 46 filename;
    if str_is_empty raw_ext then None
    else
      let ext := to_ascii_lowercase raw_ext in
      let ext := take_while (fun c => negb ((c =? 63) || (c =? 35) || (c =? 38))) ext in
      e ← list_find (fun e => e.1 = ext) codecs; Some e.2.2.

(** ** The values of a field *)

Definition parse_u64 : str -> option N := parse_uint U64_MAX.
Definition unparseable (field value : str) : MpdError := Protocol (UnparseableField field value).
(** [parse_u32_field], [parse_u64_field] *)
Definition parse_u32_field (field value : str) : result N MpdError := ok_or (parse_u32 value) (unparseable field value).
Definition parse_u64_field (field value : str) : result N MpdError := ok_or (parse_u64 value) (unparseable field value).
(** [str::parse::<i32>]: a value of [Z] in range. *)
Definition parse_i32 (s : str) : option Z :=
  let '(negative, body) := signed_rest s in
  match body with
  | [] => None
  | _ => n ← parse_digits 0 body;
         let z := (if negative then - Z.of_N n else Z.of_N n)%Z in
         if (- 2 ^ 31 <=? z)%Z && (z <? 2 ^ 31)%Z then Some z else None
  end.
(** [parse_volume_field] *)
Definition parse_volume_field (value : str) : result (option N) MpdError :=
  let? raw := ok_or (parse_i32 value) (unparseable (lit "volume") value) in
  Ok (if (0 <=? raw)%Z && (raw <=? 100)%Z then Some (Z.to_N raw) else None).
(** [parse_duration_secs_field] *)
Definition parse_duration_secs_field (field value : str) : option (result (option N) MpdError) :=
  match parse_f64 value with
  | None => Some (Err (unparseable field value))
  | Some secs =>
      if negb (is_finite secs) || negative secs then Some (Ok None)
      else d ← from_secs_f64 secs; Some (Ok (Some d))
  end.

(** ** The loops over fields *)

(** A loop with early return, and a step that may panic. *)
Definition Parse (A : Type) : Type := option (result A MpdError).
Definition pass {A} (a : A) : Parse A := Some (Ok a).
Definition reject {A} (e : MpdError) : Parse A := Some (Err e).
Definition lift {A} (r : result A MpdError) : Parse A := Some r.
Definition andthen {A B} (p : Parse A) (k : A -> Parse B) : Parse B :=
  match p with None => None | Some (Err e) => Some (Err e) | Some (Ok a) => k a end.
Fixpoint over {A} (step : Field -> A -> Parse A) (fs : list Field) (a : A) : Parse A :=
  match fs with
  | [] => pass a
  | f :: fs' => andthen (step f a) (over step fs')
  end.

(** The loop of a listing: a field that opens an item builds the one before it. *)
Fixpoint listing {B E} (opens : N -> Field -> option B) (absorb : Field -> B -> option B) (build : B -> option E)
    (next : N) (current : option B) (fs : list Field) : option (list E) :=
  let finish := match current with Some b => match build b with Some e => [e] | None => [] end | None => [] end in
  match fs with
  | [] => Some finish
  | f :: fs' =>
      match opens next f with
      | Some b => rest ← listing opens absorb build (sat_add U32_MAX next 1) (Some b) fs'; Some (finish ++ rest)
      | None =>
          match current with
          | None => listing opens absorb build next None fs'
          | Some b => b' ← absorb f b; listing opens absorb build next (Some b') fs'
          end
      end
  end.
Definition keyed {B} (k : str) (b : str -> B) (f : Field) : option B :=
  if bool_decide (key f = k) then Some (b (value f)) else None.

Definition fresh (file : str) : Tagged :=
  {| t_file := file; t_title := None; t_artist := None; t_album := None; t_duration := None; t_classical := no_tags |}.
Definition with_title x t := {| t_file := t_file t; t_title := x; t_artist := t_artist t; t_album := t_album t; t_duration := t_duration t; t_classical := t_classical t |}.
Definition with_artist x t := {| t_file := t_file t; t_title := t_title t; t_artist := x; t_album := t_album t; t_duration := t_duration t; t_classical := t_classical t |}.
Definition with_album x t := {| t_file := t_file t; t_title := t_title t; t_artist := t_artist t; t_album := x; t_duration := t_duration t; t_classical := t_classical t |}.
Definition with_duration x t := {| t_file := t_file t; t_title := t_title t; t_artist := t_artist t; t_album := t_album t; t_duration := x; t_classical := t_classical t |}.
Definition with_classical x t := {| t_file := t_file t; t_title := t_title t; t_artist := t_artist t; t_album := t_album t; t_duration := t_duration t; t_classical := x |}.

(** A field of a song in a listing; a duration that cannot be read is left out. *)
Definition absorb_time (f : Field) (t : Tagged) : Tagged :=
  match t_duration t, parse_u64 (value f) with
  | None, Some secs => with_duration (Some (from_secs secs)) t
  | _, _ => t
  end.
Definition absorb_tags (f : Field) (t : Tagged) : option Tagged :=
  match try_apply (key f) (value f) (t_classical t) with
  | Some c => Some (with_classical c t)
  | None =>
      if bool_decide (key f = lit "Title") then Some (with_title (Some (value f)) t)
      else if bool_decide (key f = lit "Artist") then Some (with_artist (Some (value f)) t)
      else if bool_decide (key f = lit "Album") then Some (with_album (Some (value f)) t)
      else if bool_decide (key f = lit "duration") then
        match parse_duration_secs_field (lit "duration") (value f) with
        | None => None
        | Some (Ok (Some d)) => Some (with_duration (Some d) t)
        | Some _ => Some t
        end
      else if bool_decide (key f = lit "Time") then Some (absorb_time f t)
      else Some t
  end.

(** ** The parsers *)

(** [parse_queue_items], [QueueItemBuilder] *)
Record QueueItemBuilder := { b_tags : Tagged; b_position : option N; b_id : option N }.
Definition build_queue_item (b : QueueItemBuilder) : option MpdQueueItem :=
  position ← b_position b;
  id ← b_id b;
  Some {| q_id := id; q_position := position; q_tags := b_tags b |}.
Definition absorb_queue_field (f : Field) (b : QueueItemBuilder) : option QueueItemBuilder :=
  if bool_decide (key f = lit "Pos") then
    Some (match parse_u32 (value f) with
          | Some p => {| b_tags := b_tags b; b_position := Some p; b_id := b_id b |}
          | None => b
          end)
  else if bool_decide (key f = lit "Id") then
    Some (match parse_u32 (value f) with
          | Some i => {| b_tags := b_tags b; b_position := b_position b; b_id := Some i |}
          | None => b
          end)
  else t ← absorb_tags f (b_tags b); Some {| b_tags := t; b_position := b_position b; b_id := b_id b |}.
Definition parse_queue_items (fs : list Field) : option (list MpdQueueItem) :=
  listing (fun _ => keyed (lit "file") (fun p => {| b_tags := fresh p; b_position := None; b_id := None |}))
    absorb_queue_field build_queue_item 0 None fs.

(** [parse_playlist_entries], [parse_playlist_summaries] *)
Definition parse_playlist_entries (fs : list Field) : option (list MpdPlaylistEntry) :=
  listing (fun next => keyed (lit "file") (fun p => {| p_position := next; p_tags := fresh p |}))
    (fun f e => t ← absorb_tags f (p_tags e); Some {| p_position := p_position e; p_tags := t |}) Some 0 None fs.
Definition parse_playlist_summaries (fs : list Field) : option (list MpdPlaylistSummary) :=
  listing (fun _ => keyed (lit "playlist") (fun n => {| p_name := n; p_last_modified := None |}))
    (fun f s => Some (if bool_decide (key f = lit "Last-Modified")
                      then {| p_name := p_name s; p_last_modified := Some (value f) |} else s)) Some 0 None fs.

(** [parse_mounts], [parse_neighbors] *)
Definition parse_mounts (fs : list Field) : option (list MpdMount) :=
  listing (fun _ => keyed (lit "mount") (fun n => {| mount_name := n; mount_storage_uri := [] |}))
    (fun f m => Some (if bool_decide (key f = lit "storage")
                      then {| mount_name := mount_name m; mount_storage_uri := value f |} else m)) Some 0 None fs.
Definition parse_neighbors (fs : list Field) : option (list MpdNeighbor) :=
  listing (fun _ => keyed (lit "neighbor") (fun u => {| neighbor_uri := u; neighbor_name := [] |}))
    (fun f m => Some (if bool_decide (key f = lit "name")
                      then {| neighbor_uri := neighbor_uri m; neighbor_name := value f |} else m)) Some 0 None fs.

(** [parse_library_entries], [LibraryEntryBuilder] *)
Definition open_library_entry (f : Field) : option MpdLibraryEntry :=
  if bool_decide (key f = lit "directory") then Some (Directory (value f) None)
  else if bool_decide (key f = lit "file") then Some (File (fresh (value f)) None)
  else if bool_decide (key f = lit "playlist") then Some (Playlist (value f) None)
  else None.
Definition absorb_library_field (f : Field) (e : MpdLibraryEntry) : option MpdLibraryEntry :=
  match e with
  | Directory p m => Some (Directory p (if bool_decide (key f = lit "Last-Modified") then Some (value f) else m))
  | Playlist p m => Some (Playlist p (if bool_decide (key f = lit "Last-Modified") then Some (value f) else m))
  | File t a =>
      if bool_decide (key f = lit "AlbumArtist") then Some (File t (Some (value f)))
      else t' ← absorb_tags f t; Some (File t' a)
  end.
Definition parse_library_entries (fs : list Field) : option (list MpdLibraryEntry) :=
  listing (fun _ => open_library_entry) absorb_library_field Some 0 None fs.

(** [parse_status] *)
Definition no_status : MpdStatus :=
  {| s_state := Stopped; s_song_position := None; s_elapsed := None; s_duration := None; s_volume := None;
     s_repeat := false; s_random := false; s_single := false; s_consume := false; s_crossfade_seconds := 0;
     s_updating_db := None |}.
Definition set_state x s := {| s_state := x; s_song_position := s_song_position s; s_elapsed := s_elapsed s; s_duration := s_duration s; s_volume := s_volume s; s_repeat := s_repeat s; s_random := s_random s; s_single := s_single s; s_consume := s_consume s; s_crossfade_seconds := s_crossfade_seconds s; s_updating_db := s_updating_db s |}.
Definition set_song x s := {| s_state := s_state s; s_song_position := x; s_elapsed := s_elapsed s; s_duration := s_duration s; s_volume := s_volume s; s_repeat := s_repeat s; s_random := s_random s; s_single := s_single s; s_consume := s_consume s; s_crossfade_seconds := s_crossfade_seconds s; s_updating_db := s_updating_db s |}.
Definition set_elapsed x s := {| s_state := s_state s; s_song_position := s_song_position s; s_elapsed := x; s_duration := s_duration s; s_volume := s_volume s; s_repeat := s_repeat s; s_random := s_random s; s_single := s_single s; s_consume := s_consume s; s_crossfade_seconds := s_crossfade_seconds s; s_updating_db := s_updating_db s |}.
Definition set_duration x s := {| s_state := s_state s; s_song_position := s_song_position s; s_elapsed := s_elapsed s; s_duration := x; s_volume := s_volume s; s_repeat := s_repeat s; s_random := s_random s; s_single := s_single s; s_consume := s_consume s; s_crossfade_seconds := s_crossfade_seconds s; s_updating_db := s_updating_db s |}.
Definition set_volume x s := {| s_state := s_state s; s_song_position := s_song_position s; s_elapsed := s_elapsed s; s_duration := s_duration s; s_volume := x; s_repeat := s_repeat s; s_random := s_random s; s_single := s_single s; s_consume := s_consume s; s_crossfade_seconds := s_crossfade_seconds s; s_updating_db := s_updating_db s |}.
Definition set_modes rp rd sg cs s := {| s_state := s_state s; s_song_position := s_song_position s; s_elapsed := s_elapsed s; s_duration := s_duration s; s_volume := s_volume s; s_repeat := rp; s_random := rd; s_single := sg; s_consume := cs; s_crossfade_seconds := s_crossfade_seconds s; s_updating_db := s_updating_db s |}.
Definition set_xfade x s := {| s_state := s_state s; s_song_position := s_song_position s; s_elapsed := s_elapsed s; s_duration := s_duration s; s_volume := s_volume s; s_repeat := s_repeat s; s_random := s_random s; s_single := s_single s; s_consume := s_consume s; s_crossfade_seconds := x; s_updating_db := s_updating_db s |}.
Definition set_updating x s := {| s_state := s_state s; s_song_position := s_song_position s; s_elapsed := s_elapsed s; s_duration := s_duration s; s_volume := s_volume s; s_repeat := s_repeat s; s_random := s_random s; s_single := s_single s; s_consume := s_consume s; s_crossfade_seconds := s_crossfade_seconds s; s_updating_db := x |}.

Definition one (v : str) : bool := bool_decide (v = lit "1").
(** The state has been seen, and the rest. *)
Definition status_field (f : Field) (a : bool * MpdStatus) : Parse (bool * MpdStatus) :=
  let '(seen, s) := a in
  let k := key f in
  let v := value f in
  let set s' := pass (seen, s') in
  if bool_decide (k = lit "state") then
    if bool_decide (v = lit "play") then pass (true, set_state Playing s)
    else if bool_decide (v = lit "pause") then pass (true, set_state Paused s)
    else if bool_decide (v = lit "stop") then pass (true, set_state Stopped s)
    else reject (Protocol (UnknownPlayState v))
  else if bool_decide (k = lit "song") then andthen (lift (parse_u32_field (lit "song") v)) (fun n => set (set_song (Some n) s))
  else if bool_decide (k = lit "elapsed") then andthen (parse_duration_secs_field (lit "elapsed") v) (fun d => set (set_elapsed d s))
  else if bool_decide (k = lit "duration") then andthen (parse_duration_secs_field (lit "duration") v) (fun d => set (set_duration d s))
  else if bool_decide (k = lit "volume") then andthen (lift (parse_volume_field v)) (fun n => set (set_volume n s))
  else if bool_decide (k = lit "repeat") then set (set_modes (one v) (s_random s) (s_single s) (s_consume s) s)
  else if bool_decide (k = lit "random") then set (set_modes (s_repeat s) (one v) (s_single s) (s_consume s) s)
  else if bool_decide (k = lit "single") then
    set (set_modes (s_repeat s) (s_random s) (negb (bool_decide (v = lit "0"))) (s_consume s) s)
  else if bool_decide (k = lit "consume") then set (set_modes (s_repeat s) (s_random s) (s_single s) (one v) s)
  else if bool_decide (k = lit "xfade") then set (set_xfade (default 0 (parse_u32 v)) s)
  else if bool_decide (k = lit "updating_db") then set (set_updating (parse_u32 v) s)
  else set s.
Definition parse_status (fs : list Field) : Parse MpdStatus :=
  andthen (over status_field fs (false, no_status)) (fun a =>
    if fst a then pass (snd a) else reject (Protocol (MissingField (lit "state")))).

(** [parse_current_song]; here a duration that cannot be read is an error. *)
Definition song_field (f : Field) (a : bool * Tagged) : Parse (bool * Tagged) :=
  let '(seen, t) := a in
  match try_apply (key f) (value f) (t_classical t) with
  | Some c => pass (seen, with_classical c t)
  | None =>
      if bool_decide (key f = lit "file") then
        pass (true, {| t_file := value f; t_title := t_title t; t_artist := t_artist t; t_album := t_album t;
                       t_duration := t_duration t; t_classical := t_classical t |})
      else if bool_decide (key f = lit "Title") then pass (seen, with_title (Some (value f)) t)
      else if bool_decide (key f = lit "Artist") then pass (seen, with_artist (Some (value f)) t)
      else if bool_decide (key f = lit "Album") then pass (seen, with_album (Some (value f)) t)
      else if bool_decide (key f = lit "duration") then
        andthen (parse_duration_secs_field (lit "duration") (value f)) (fun d => pass (seen, with_duration d t))
      else if bool_decide (key f = lit "Time") then pass (seen, absorb_time f t)
      else pass (seen, t)
  end.
Definition parse_current_song (fs : list Field) : Parse (option MpdSong) :=
  match fs with
  | [] => pass None
  | _ =>
      andthen (over song_field fs (false, fresh [])) (fun a =>
        pass (if fst a then Some {| song_tags := snd a; codec_name := derive_source_codec_name (t_file (snd a)) |} else None))
  end.

(** [parse_stats] *)
Definition stats_field (f : Field) (s : MpdStats) : Parse MpdStats :=
  if bool_decide (key f = lit "artists") then
    andthen (lift (parse_u32_field (lit "artists") (value f))) (fun n =>
      pass {| artists := n; albums := albums s; songs := songs s; db_update_unix_s := db_update_unix_s s |})
  else if bool_decide (key f = lit "albums") then
    andthen (lift (parse_u32_field (lit "albums") (value f))) (fun n =>
      pass {| artists := artists s; albums := n; songs := songs s; db_update_unix_s := db_update_unix_s s |})
  else if bool_decide (key f = lit "songs") then
    andthen (lift (parse_u32_field (lit "songs") (value f))) (fun n =>
      pass {| artists := artists s; albums := albums s; songs := n; db_update_unix_s := db_update_unix_s s |})
  else if bool_decide (key f = lit "db_update") then
    andthen (lift (parse_u64_field (lit "db_update") (value f))) (fun n =>
      pass {| artists := artists s; albums := albums s; songs := songs s; db_update_unix_s := Some n |})
  else pass s.
Definition parse_stats (fs : list Field) : Parse MpdStats :=
  over stats_field fs {| artists := 0; albums := 0; songs := 0; db_update_unix_s := None |}.

(** [sticker_parse_value], [sticker_split_pair], [parse_sticker_list], [parse_sticker_find] *)
Definition sticker_parse_value (raw expected_name : str) : option str := strip_prefix (expected_name ++ lit "=") raw.
Definition sticker_split_pair (raw : str) : option (str * str) := split_once (lit "=") raw.
Definition parse_sticker_list (fs : list Field) : list MpdSticker :=
  omap (fun f => if bool_decide (key f = lit "sticker")
                 then p ← sticker_split_pair (value f); Some {| sticker_name := p.1; sticker_value := p.2 |}
                 else None) fs.
Fixpoint sticker_find_go (current_file : option str) (fs : list Field) : list MpdStickerMatch :=
  match fs with
  | [] => []
  | f :: fs' =>
      if bool_decide (key f = lit "file") then sticker_find_go (Some (value f)) fs'
      else if bool_decide (key f = lit "sticker") then
        match current_file, sticker_split_pair (value f) with
        | Some path, Some (n, v) =>
            {| m_file := path; m_sticker := {| sticker_name := n; sticker_value := v |} |} :: sticker_find_go current_file fs'
        | _, _ => sticker_find_go current_file fs'
        end
      else sticker_find_go current_file fs'
  end.
Definition parse_sticker_find (fs : list Field) : list MpdStickerMatch := sticker_find_go None fs.

(** The values of [list_tag] and [list_tag_filtered], the pairs of [list_tag_grouped], and
    the counts of [count_grouped_by_tag]. *)
Definition listed_values (fs : list Field) : list str :=
  omap (fun f => let trimmed := trim (value f) in if str_is_empty trimmed then None else Some trimmed) fs.
Fixpoint grouped_go (tag_lower group_lower current_group : str) (fs : list Field) : list (str * str) :=
  match fs with
  | [] => []
  | f :: fs' =>
      let key_lower := to_ascii_lowercase (key f) in
      if bool_decide (key_lower = group_lower) then grouped_go tag_lower group_lower (trim (value f)) fs'
      else if bool_decide (key_lower = tag_lower) then
        let v := trim (value f) in
        (if str_is_empty v then [] else [(v, current_group)]) ++ grouped_go tag_lower group_lower current_group fs'
      else grouped_go tag_lower group_lower current_group fs'
  end.
Definition grouped_pairs (tag group_by : str) (fs : list Field) : list (str * str) :=
  grouped_go (to_ascii_lowercase tag) (to_ascii_lowercase group_by) [] fs.
Fixpoint counts_go (tag_lower : str) (current_value : option str) (fs : list Field) (out : gmap str N) : gmap str N :=
  match fs with
  | [] => out
  | f :: fs' =>
      let key_lower := to_ascii_lowercase (key f) in
      if bool_decide (key_lower = tag_lower) then counts_go tag_lower (Some (trim (value f))) fs' out
      else if bool_decide (key_lower = lit "songs") then
        counts_go tag_lower current_value fs'
          (match current_value, parse_u64 (trim (value f)) with
           | Some v, Some n => if str_is_empty v then out else <[v := n]> out
           | _, _ => out
           end)
      else counts_go tag_lower current_value fs' out
  end.
Definition grouped_counts (tag : str) (fs : list Field) : gmap str N := counts_go (to_ascii_lowercase tag) None fs ∅.

(** ** Lemmas on listings *)

Section listings.
Context {B E : Type} (opens : N -> Field -> option B) (absorb : Field -> B -> option B) (build : B -> option E).

Fixpoint absorbs (fs : list Field) (b : B) : option B :=
  match fs with
  | [] => Some b
  | f :: fs' => b' ← absorb f b; absorbs fs' b'
  end.
Lemma absorbs_app fs fs' b : absorbs (fs ++ fs') b = (b' ← absorbs fs b; absorbs fs' b').
Proof. revert b. induction fs as [|f fs IH]; intros b; [done|]. cbn. destruct (absorb f b); [apply IH|done]. Qed.

(** The fields of one item, the [n]-th. *)
Definition fields_of (n : N) (fs : list Field) (e : E) : Prop :=
  exists f0 rest b0 b, fs = f0 :: rest /\ opens n f0 = Some b0 /\ Forall (fun f => forall n, opens n f = None) rest /\
    absorbs rest b0 = Some b /\ build b = Some e.

Definition finished (current : option B) : list E :=
  match current with Some b => match build b with Some e => [e] | None => [] end | None => [] end.

Lemma listing_rest next b b' rest more : Forall (fun f => forall n, opens n f = None) rest -> absorbs rest b = Some b' ->
  listing opens absorb build next (Some b) (rest ++ more) = listing opens absorb build next (Some b') more.
Proof.
  intros Hr. revert b. induction Hr as [|f rest Hf _ IH]; intros b; cbn [absorbs app]; [by intros [= ->]|].
  destruct (absorb f b) as [b''|] eqn:Ef; [|done]. cbn [mbind option_bind]. intros Ha. cbn [listing]. rewrite Hf, Ef. by apply IH.
Qed.

Fixpoint printed (next : N) (es : list (E * list Field)) : Prop :=
  match es with
  | [] => True
  | (e, fs) :: es' => fields_of next fs e /\ printed (sat_add U32_MAX next 1) es'
  end.
(** The items printed one after the other are the items read. *)
Lemma listing_printed es : forall next current, printed next es ->
  listing opens absorb build next current (concat es.*2) = Some (finished current ++ es.*1).
Proof.
  induction es as [|[e fs] es IH]; intros next current; cbn [printed].
  { intros _. cbn. by rewrite app_nil_r. }
  intros [(f0 & rest & b0 & b & -> & Ho & Hr & Ha & Hb) Hall]. rewrite !fmap_cons. cbn [concat fst snd app listing].
  rewrite Ho, (listing_rest _ _ b rest (concat es.*2) Hr Ha), IH by done. cbn [mbind option_bind finished]. by rewrite Hb.
Qed.
(** Where the number of the item does not matter. *)
Lemma printed_all (print : E -> list Field) es next :
  Forall (fun e => forall n, fields_of n (print e) e) es -> printed next (map (fun e => (e, print e)) es).
Proof. intros H. revert next. induction H; intros next; cbn; auto. Qed.
Lemma listing_printed_all (print : E -> list Field) es next :
  Forall (fun e => forall n, fields_of n (print e) e) es ->
  listing opens absorb build next None (concat (map print es)) = Some es.
Proof.
  intros H. pose proof (listing_printed (map (fun e => (e, print e)) es) next None (printed_all print es next H)) as Hl.
  rewrite <-!list_fmap_compose in Hl. cbn [finished app] in Hl. rewrite <-(list_fmap_id es) at 2. exact Hl.
Qed.
End listings.

(** ** What the player prints *)

Definition opt_field (k : str) (o : option str) : list Field :=
  match o with Some v => [{| key := k; value := v |}] | None => [] end.
Definition field (k : string) (v : str) : Field := {| key := lit k; value := v |}.

(** The fields of the classical tags, and of a song: a time in milliseconds is printed twice, in whole
    seconds and in thousandths. *)
Definition classical_fields (c : ClassicalTags) : list Field :=
  opt_field (lit "Composer") (composer c) ++ opt_field (lit "ComposerSort") (composer_sort c) ++
  opt_field (lit "Conductor") (conductor c) ++ opt_field (lit "Ensemble") (ensemble c) ++
  opt_field (lit "Performer") (performer c) ++ opt_field (lit "Work") (work c) ++
  opt_field (lit "WorkSort") (work_sort c) ++ opt_field (lit "Movement") (movement c) ++
  opt_field (lit "MovementNumber") (option_map dec (movement_number c)) ++
  opt_field (lit "OriginalDate") (original_date c) ++ opt_field (lit "Date") (recording_date c) ++
  opt_field (lit "Label") (record_label c) ++ opt_field (lit "Media") (medium c).
Definition ms (d : N) : N := d / 10 ^ 6.
Definition tag_fields (t : Tagged) : list Field :=
  classical_fields (t_classical t) ++ opt_field (lit "Title") (t_title t) ++
  opt_field (lit "Artist") (t_artist t) ++ opt_field (lit "Album") (t_album t) ++
  opt_field (lit "Time") (option_map (fun d => dec ((ms d + 500) / 1000)) (t_duration t)) ++
  opt_field (lit "duration") (option_map (fun d => thousandths (ms d)) (t_duration t)).

(** What can be printed: tags that are not blank, and a duration in milliseconds below 48
    days. *)
Definition visible (o : option str) : Prop := forall v, o = Some v -> str_is_empty (trim v) = false.
Definition classical_ok (c : ClassicalTags) : Prop :=
  visible (composer c) /\ visible (composer_sort c) /\ visible (conductor c) /\ visible (ensemble c) /\
  visible (performer c) /\ visible (work c) /\ visible (work_sort c) /\ visible (movement c) /\
  (forall n, movement_number c = Some n -> n <= U32_MAX) /\ visible (original_date c) /\
  visible (recording_date c) /\ visible (record_label c) /\ visible (medium c).
Definition timed (o : option N) : Prop := forall d, o = Some d -> exists t, d = t * 10 ^ 6 /\ t < 2 ^ 22 * 1000.
Definition tagged_ok (t : Tagged) : Prop := classical_ok (t_classical t) /\ timed (t_duration t).

Lemma visible_kept v : str_is_empty (trim v) = false -> some_if_non_empty v = Some v.
Proof. unfold some_if_non_empty. by intros ->. Qed.

Lemma ms_millis t : ms (t * 10 ^ 6) = t.
Proof. unfold ms. by rewrite N.div_mul. Qed.
Lemma duration_printed k t : t < 2 ^ 22 * 1000 -> parse_duration_secs_field k (thousandths t) = Some (Ok (Some (t * 10 ^ 6))).
Proof.
  intros Ht. unfold parse_duration_secs_field. rewrite parse_thousandths.
  pose proof (from_secs_millis t Ht) as Hd.
  assert (Hf : negb (is_finite (millis t)) || negative (millis t) = false).
  { destruct (millis t) as [| |n m e]; [done..|]. cbn [from_secs_f64 is_finite negb orb] in *.
    by destruct (negative (Fin n m e)). }
  by rewrite Hf, Hd.
Qed.

(** One optional field, after which the others follow. *)
Lemma absorbs_opt {A} (absorb : Field -> A -> option A) k o (set : option str -> A) rest a :
  set None = a -> (forall v, o = Some v -> absorb {| key := k; value := v |} a = Some (set (Some v))) ->
  absorbs absorb (opt_field k o ++ rest) a = absorbs absorb rest (set o).
Proof. intros <- H. destruct o as [v|]; [|done]. cbn [opt_field app absorbs]. by rewrite (H v). Qed.

Lemma tag_applied f t c : try_apply (key f) (value f) (t_classical t) = Some c -> absorb_tags f t = Some (with_classical c t).
Proof. unfold absorb_tags. by intros ->. Qed.

Lemma movement_kept mn : (forall n, mn = Some n -> n <= U32_MAX) -> (option_map dec mn ≫= parse_u32) = mn.
Proof. intros H. destruct mn as [n|]; [|done]. cbn. apply parse_uint_dec. by apply H. Qed.

Ltac absorbed C k o f :=
  rewrite (absorbs_opt absorb_tags k o f);
    [|reflexivity|intros v Hv; apply tag_applied; unfold C; cbn -[some_if_non_empty parse_u32 trim];
                  first [rewrite visible_kept by auto; reflexivity
                        |apply fmap_Some in Hv as (n & -> & ->); rewrite (trim_tidy _ (dec_tidy _)); reflexivity]].

Lemma classical_absorbed c t rest : classical_ok c -> t_classical t = no_tags ->
  absorbs absorb_tags (classical_fields c ++ rest) t = absorbs absorb_tags rest (with_classical c t).
Proof.
  destruct c as [a b d e p w ws m mn od rd l md], t as [file ti ar al du cl]. cbn [t_classical]. intros Hok ->.
  destruct Hok as (Ha & Hb & Hd & He & Hp & Hw & Hws & Hm & Hmn & Hod & Hrd & Hl & Hmd).
  cbn [composer composer_sort conductor ensemble performer work work_sort movement movement_number original_date recording_date record_label medium] in *.
  set (C a b d e p w ws m mn od rd l md := {| t_file := file; t_title := ti; t_artist := ar; t_album := al; t_duration := du;
    t_classical := {| composer := a; composer_sort := b; conductor := d; ensemble := e; performer := p; work := w; work_sort := ws;
      movement := m; movement_number := mn; original_date := od; recording_date := rd; record_label := l; medium := md |} |}).
  change (absorbs absorb_tags (classical_fields _ ++ rest) _) with
    (absorbs absorb_tags (classical_fields {| composer := a; composer_sort := b; conductor := d; ensemble := e; performer := p; work := w; work_sort := ws;
      movement := m; movement_number := mn; original_date := od; recording_date := rd; record_label := l; medium := md |} ++ rest)
      (C None None None None None None None None None None None None None)).
  unfold classical_fields. rewrite <-!app_assoc.
  cbn [composer composer_sort conductor ensemble performer work work_sort movement movement_number original_date recording_date record_label medium].
  absorbed C (lit "Composer") a (fun x => C x None None None None None None None None None None None None).
  absorbed C (lit "ComposerSort") b (fun x => C a x None None None None None None None None None None None).
  absorbed C (lit "Conductor") d (fun x => C a b x None None None None None None None None None None).
  absorbed C (lit "Ensemble") e (fun x => C a b d x None None None None None None None None None).
  absorbed C (lit "Performer") p (fun x => C a b d e x None None None None None None None None).
  absorbed C (lit "Work") w (fun x => C a b d e p x None None None None None None None).
  absorbed C (lit "WorkSort") ws (fun x => C a b d e p w x None None None None None None).
  absorbed C (lit "Movement") m (fun x => C a b d e p w ws x None None None None None).
  absorbed C (lit "MovementNumber") (option_map dec mn) (fun x => C a b d e p w ws m (x ≫= parse_u32) None None None None).
  rewrite movement_kept by done.
  absorbed C (lit "OriginalDate") od (fun x => C a b d e p w ws m mn x None None None).
  absorbed C (lit "Date") rd (fun x => C a b d e p w ws m mn od x None None).
  absorbed C (lit "Label") l (fun x => C a b d e p w ws m mn od rd x None).
  absorbed C (lit "Media") md (fun x => C a b d e p w ws m mn od rd l x).
  reflexivity.
Qed.

Lemma absorb_Time v t : absorb_tags {| key := lit "Time"; value := v |} t = Some (absorb_time {| key := lit "Time"; value := v |} t).
Proof. by destruct t as [? ? ? ? ? []]. Qed.
Lemma absorb_duration v t d : parse_duration_secs_field (lit "duration") v = Some (Ok (Some d)) ->
  absorb_tags {| key := lit "duration"; value := v |} t = Some (with_duration (Some d) t).
Proof.
  intros H. unfold absorb_tags. assert (Hn : try_apply (lit "duration") v (t_classical t) = None) by (by destruct (t_classical t)).
  cbn [key value]. rewrite Hn.
  change (bool_decide (lit "duration" = lit "Title")) with false. change (bool_decide (lit "duration" = lit "Artist")) with false.
  change (bool_decide (lit "duration" = lit "Album")) with false. change (bool_decide (lit "duration" = lit "duration")) with true.
  by rewrite H.
Qed.

(** The fields of a song give its tags. *)
Lemma tags_absorbed t rest : tagged_ok t ->
  absorbs absorb_tags (tag_fields t ++ rest) (fresh (t_file t)) = absorbs absorb_tags rest t.
Proof.
  intros [Hc Hd]. unfold tag_fields. rewrite <-!app_assoc, classical_absorbed by done.
  destruct t as [file ti ar al du c]. unfold with_classical, fresh. cbn in Hc, Hd |- *.
  rewrite (absorbs_opt absorb_tags (lit "Title") ti (fun x => {| t_file := file; t_title := x; t_artist := None; t_album := None; t_duration := None; t_classical := c |}));
    [|done|by destruct c].
  rewrite (absorbs_opt absorb_tags (lit "Artist") ar (fun x => {| t_file := file; t_title := ti; t_artist := x; t_album := None; t_duration := None; t_classical := c |}));
    [|done|by destruct c].
  rewrite (absorbs_opt absorb_tags (lit "Album") al (fun x => {| t_file := file; t_title := ti; t_artist := ar; t_album := x; t_duration := None; t_classical := c |}));
    [|done|by destruct c].
  destruct du as [d|]; [|done]. destruct (Hd d eq_refl) as (t & -> & Ht). cbn [option_map opt_field app absorbs].
  rewrite ms_millis, absorb_Time. cbn [mbind option_bind].
  rewrite (absorb_duration _ _ (t * 10 ^ 6)) by by apply duration_printed.
  unfold absorb_time, with_duration. cbn [t_duration value]. by destruct (parse_u64 _).
Qed.

(** ** Round trips *)

Definition queue_fields (i : MpdQueueItem) : list Field :=
  field "file" (t_file (q_tags i)) :: tag_fields (q_tags i) ++
  [field "Pos" (dec (q_position i)); field "Id" (dec (q_id i))].
Definition queue_item_ok (i : MpdQueueItem) : Prop :=
  q_id i <= U32_MAX /\ q_position i <= U32_MAX /\ tagged_ok (q_tags i).

(** Keys of the fields of a song. *)
Definition tag_keys : list str :=
  map lit ["Composer"; "ComposerSort"; "Conductor"; "Ensemble"; "Performer"; "Work"; "WorkSort"; "Movement";
           "MovementNumber"; "OriginalDate"; "Date"; "Label"; "Media"; "Title"; "Artist"; "Album"; "Time"; "duration"]%string.
Lemma opt_field_key k o f : f ∈ opt_field k o -> key f = k.
Proof. destruct o; cbn; [|by rewrite elem_of_nil]. by intros ->%list_elem_of_singleton. Qed.
Lemma tag_fields_keys t : Forall (fun f => key f ∈ tag_keys) (tag_fields t).
Proof.
  apply Forall_forall. intros f. unfold tag_fields, classical_fields. rewrite !elem_of_app. intros H.
  destruct_or! H; apply opt_field_key in H as ->; apply (bool_decide_unpack _); vm_compute; exact I.
Qed.
(** An absorption that passes the fields of a song to the tags. *)
Lemma absorbs_through {B} (absorb : Field -> B -> option B) (get : B -> Tagged) (put : Tagged -> B -> B) :
  (forall b, put (get b) b = b) -> (forall t t' b, put t' (put t b) = put t' b) -> (forall t b, get (put t b) = t) ->
  (forall f b, key f ∈ tag_keys -> absorb f b = option_map (fun t => put t b) (absorb_tags f (get b))) ->
  forall fs b, Forall (fun f => key f ∈ tag_keys) fs ->
    absorbs absorb fs b = option_map (fun t => put t b) (absorbs absorb_tags fs (get b)).
Proof.
  intros Hid Hput Hget Ha fs b Hfs. revert b. induction Hfs as [|f fs Hf _ IH]; intros b; cbn [absorbs].
  - cbn. by rewrite Hid.
  - rewrite Ha by done. destruct (absorb_tags f (get b)) as [t|]; [|done]. cbn. rewrite IH, Hget.
    destruct (absorbs absorb_tags fs t); [|done]. cbn. by rewrite Hput.
Qed.

(** The queue the player lists is the queue that is read. *)
Theorem queue_items_roundtrip items : Forall queue_item_ok items ->
  parse_queue_items (concat (map queue_fields items)) = Some items.
Proof.
  intros H. unfold parse_queue_items. apply listing_printed_all. eapply Forall_impl; [exact H|].
  intros [id pos t] (Hid & Hpos & Ht) n. cbn in Hid, Hpos, Ht. unfold queue_fields. cbn [q_id q_position q_tags].
  eexists _, _, _, {| b_tags := t; b_position := Some pos; b_id := Some id |}. split; [reflexivity|].
  split; [reflexivity|]. split; [|split; [|reflexivity]].
  - apply Forall_app_2; [|by repeat constructor].
    eapply Forall_impl; [apply tag_fields_keys|]. intros f Hf _. cbn beta in Hf. unfold keyed.
    rewrite bool_decide_eq_false_2; [done|]. intros Hk. rewrite Hk in Hf. revert Hf. by apply (bool_decide_unpack _).
  - rewrite absorbs_app.
    rewrite (absorbs_through absorb_queue_field b_tags (fun t b => {| b_tags := t; b_position := b_position b; b_id := b_id b |}));
      [|by intros []|done|done| |apply tag_fields_keys].
    + cbn [b_tags b_position b_id]. pose proof (tags_absorbed t [] Ht) as Ha. rewrite app_nil_r in Ha.
      change (value (field "file" (t_file t))) with (t_file t). rewrite Ha.
      cbn [option_map mbind option_bind absorbs]. unfold absorb_queue_field, field. cbn [key value].
      change (bool_decide (lit "Pos" = lit "Pos")) with true. change (bool_decide (lit "Id" = lit "Pos")) with false.
      change (bool_decide (lit "Id" = lit "Id")) with true. cbn iota. unfold parse_u32. rewrite !parse_uint_dec by done. done.
    + intros f b Hf. unfold absorb_queue_field.
      rewrite !bool_decide_eq_false_2; [by destruct (absorb_tags f (b_tags b))|..];
        intros Hk; rewrite Hk in Hf; revert Hf; by apply (bool_decide_unpack _).
Qed.

Definition playlist_fields (e : MpdPlaylistEntry) : list Field :=
  field "file" (t_file (p_tags e)) :: tag_fields (p_tags e).
Lemma not_tag_key (k : str) : bool_decide (k ∈ tag_keys) = false -> forall f, key f ∈ tag_keys -> key f <> k.
Proof. intros Hk f Hf <-. by apply bool_decide_eq_false in Hk. Qed.

(** The entries of a stored playlist are numbered in order. *)
Theorem playlist_entries_roundtrip es : Forall (fun e => tagged_ok (p_tags e)) es ->
  (forall i e, es !! i = Some e -> p_position e = N.of_nat i) -> N.of_nat (length es) <= U32_MAX ->
  parse_playlist_entries (concat (map playlist_fields es)) = Some es.
Proof.
  intros Hok Hpos Hlen. unfold parse_playlist_entries. set (opens := fun next : N => keyed _ _). set (absorb := fun (f : Field) e => _).
  assert (Hp : forall next, (forall i e, es !! i = Some e -> p_position e = next + N.of_nat i) ->
            next + N.of_nat (length es) <= U32_MAX ->
            printed opens absorb Some next (map (fun e => (e, playlist_fields e)) es)).
  { clear Hpos Hlen. induction Hok as [|e es He _ IH]; intros next Hpos Hlen; cbn [map printed]; [done|]. split.
    - exists (field "file" (t_file (p_tags e))), (tag_fields (p_tags e)). eexists _, e. split; [done|]. split; [reflexivity|].
      split; [|split; [|done]].
      + eapply Forall_impl; [apply tag_fields_keys|]. intros f Hf m. unfold opens, keyed.
        by rewrite bool_decide_eq_false_2 by by apply (not_tag_key (lit "file") eq_refl).
      + rewrite (absorbs_through absorb p_tags (fun t e => {| p_position := p_position e; p_tags := t |}));
          [|by intros []|done|done| |apply tag_fields_keys].
        * cbn [p_tags p_position]. pose proof (tags_absorbed (p_tags e) [] He) as Ha. rewrite app_nil_r in Ha.
          change (value (field "file" (t_file (p_tags e)))) with (t_file (p_tags e)). rewrite Ha. cbn [absorbs option_map].
          specialize (Hpos 0%nat e eq_refl). rewrite N.add_0_r in Hpos. rewrite <-Hpos. by destruct e.
        * intros f b _. unfold absorb. by destruct (absorb_tags f (p_tags b)).
    - replace (sat_add U32_MAX next 1) with (next + 1) by (unfold sat_add; cbn [length] in Hlen; lia).
      apply IH; [|cbn [length] in Hlen; lia]. intros i e' Hi. rewrite (Hpos (S i) e' Hi). lia. }
  pose proof (listing_printed opens absorb Some _ 0 None (Hp 0 ltac:(intros i e Hi; rewrite (Hpos i e Hi); lia) ltac:(lia))) as Hl.
  rewrite <-!list_fmap_compose in Hl. cbn [finished app] in Hl. rewrite <-(list_fmap_id es) at 2. exact Hl.
Qed.

Definition library_fields (e : MpdLibraryEntry) : list Field :=
  match e with
  | Directory p m => field "directory" p :: opt_field (lit "Last-Modified") m
  | Playlist p m => field "playlist" p :: opt_field (lit "Last-Modified") m
  | File t a => field "file" (t_file t) :: tag_fields t ++ opt_field (lit "AlbumArtist") a
  end.
Definition library_entry_ok (e : MpdLibraryEntry) : Prop := match e with File t _ => tagged_ok t | _ => True end.

(** A listing of the library is read back: directories, songs and playlists in order. *)
Theorem library_entries_roundtrip es : Forall library_entry_ok es ->
  parse_library_entries (concat (map library_fields es)) = Some es.
Proof.
  intros H. unfold parse_library_entries. apply listing_printed_all. eapply Forall_impl; [exact H|].
  intros [p m|t a|p m] He n; cbn [library_fields library_entry_ok] in *.
  1, 3: eexists _, _, _, _; (split; [reflexivity|]; split; [reflexivity|]; split; [|split; [|reflexivity]]);
        destruct m; [by repeat constructor..|done|done].
  eexists _, _, _, (File t a). split; [reflexivity|]. split; [reflexivity|]. split; [|split; [|reflexivity]].
  - apply Forall_app_2; [|destruct a; by repeat constructor].
    eapply Forall_impl; [apply tag_fields_keys|]. intros f Hf m. cbn beta in Hf. unfold open_library_entry.
    rewrite !bool_decide_eq_false_2; [done|..]; by apply not_tag_key.
  - change (value (field "file" (t_file t))) with (t_file t). rewrite absorbs_app.
    assert (Ha : forall fs b a', Forall (fun f => key f ∈ tag_keys) fs -> absorbs absorb_library_field fs (File b a') =
              option_map (fun t => File t a') (absorbs absorb_tags fs b)).
    { intros fs b a' Hfs. revert b. induction Hfs as [|f fs Hf _ IH]; intros b; [done|]. cbn [absorbs].
      assert (E : absorb_library_field f (File b a') = option_map (fun t => File t a') (absorb_tags f b)).
      { unfold absorb_library_field. rewrite bool_decide_eq_false_2 by (by apply not_tag_key). by destruct (absorb_tags f b). }
      rewrite E. destruct (absorb_tags f b); [|done]. cbn. by rewrite IH. }
    rewrite Ha by apply tag_fields_keys. pose proof (tags_absorbed t [] He) as Ht. rewrite app_nil_r in Ht. rewrite Ht.
    by destruct a.
Qed.

(** *** The status *)

Definition timed_field (k : str) (o : option N) : list Field := opt_field k (option_map (fun d => thousandths (ms d)) o).
Definition flag (b : bool) : str := if b then lit "1" else lit "0".
Definition state_word (s : PlayState) : str :=
  match s with Playing => lit "play" | Paused => lit "pause" | Stopped => lit "stop" end.
Definition status_fields (s : MpdStatus) : list Field :=
  opt_field (lit "volume") (option_map dec (s_volume s)) ++
  [field "repeat" (flag (s_repeat s)); field "random" (flag (s_random s)); field "single" (flag (s_single s));
   field "consume" (flag (s_consume s)); field "xfade" (dec (s_crossfade_seconds s)); field "state" (state_word (s_state s))] ++
  opt_field (lit "song") (option_map dec (s_song_position s)) ++ timed_field (lit "elapsed") (s_elapsed s) ++
  timed_field (lit "duration") (s_duration s) ++ opt_field (lit "updating_db") (option_map dec (s_updating_db s)).
Definition bounded (mx : N) (o : option N) : Prop := forall n, o = Some n -> n <= mx.
Definition status_ok_to_print (s : MpdStatus) : Prop :=
  bounded 100 (s_volume s) /\ bounded U32_MAX (s_song_position s) /\ timed (s_elapsed s) /\ timed (s_duration s) /\
  s_crossfade_seconds s <= U32_MAX /\ bounded U32_MAX (s_updating_db s).

Lemma over_opt {A T} (step : Field -> A -> Parse A) k (pr : T -> str) (o : option T) (set : option T -> A) rest :
  (forall v, o = Some v -> step {| key := k; value := pr v |} (set None) = pass (set (Some v))) ->
  over step (opt_field k (option_map pr o) ++ rest) (set None) = over step rest (set o).
Proof. intros H. destruct o as [v|]; [|done]. cbn [option_map opt_field app over]. by rewrite (H v). Qed.
Lemma over_cons {A} (step : Field -> A -> Parse A) f fs a a' : step f a = pass a' -> over step (f :: fs) a = over step fs a'.
Proof. intros H. cbn [over]. by rewrite H. Qed.

Lemma parse_i32_dec n : n < 2 ^ 31 -> parse_i32 (dec n) = Some (Z.of_N n).
Proof.
  intros Hn. unfold parse_i32. pose proof (dec_digits n) as Hd. pose proof (dec_nonempty n) as Hne.
  pose proof (parse_digits_dec n) as Hp. destruct (dec n) as [|c s] eqn:E; [done|].
  assert (Hs : signed_rest (c :: s) = (false, c :: s)).
  { inversion Hd as [|? ? Hc]; subst. cbn [signed_rest].
    destruct (N.eqb_spec c 45) as [->|]; [done|]. by destruct (N.eqb_spec c 43) as [->|]. }
  rewrite Hs, Hp. cbn [mbind option_bind]. change (2 ^ 31) with 2147483648 in Hn.
  rewrite (proj2 (Z.leb_le _ _)), (proj2 (Z.ltb_lt _ _)) by lia. done.
Qed.
Lemma volume_printed n : n <= 100 -> parse_volume_field (dec n) = Ok (Some n).
Proof.
  intros Hn. unfold parse_volume_field. rewrite parse_i32_dec by (change (2 ^ 31) with 2147483648; lia). cbn [ok_or].
  rewrite (proj2 (Z.leb_le 0 (Z.of_N n))), (proj2 (Z.leb_le (Z.of_N n) 100)) by lia. cbn. by rewrite N2Z.id.
Qed.
Lemma u32_printed k n : n <= U32_MAX -> parse_u32_field k (dec n) = Ok n.
Proof. intros Hn. unfold parse_u32_field, parse_u32. by rewrite parse_uint_dec. Qed.

(** The status that the player prints is the status that is read. *)
Theorem status_roundtrip s : status_ok_to_print s -> parse_status (status_fields s) = Some (Ok s).
Proof.
  intros (Hv & Hs & He & Hd & Hx & Hu). unfold parse_status, status_fields.
  destruct s as [st song el du vol rp rd sg cs xf ud].
  cbn [s_state s_song_position s_elapsed s_duration s_volume s_repeat s_random s_single s_consume s_crossfade_seconds s_updating_db] in *.
  set (S seen st song el du vol rp rd sg cs xf ud := (seen, {| s_state := st; s_song_position := song; s_elapsed := el; s_duration := du;
    s_volume := vol; s_repeat := rp; s_random := rd; s_single := sg; s_consume := cs; s_crossfade_seconds := xf; s_updating_db := ud |}) : bool * MpdStatus).
  change (false, no_status) with (S false Stopped None None None None false false false false 0 None).
  rewrite (over_opt status_field (lit "volume") dec vol (fun x => S false Stopped None None None x false false false false 0 None)).
  2: { intros v Hvol. cbn -[parse_volume_field]. by rewrite volume_printed by by apply Hv. }
  cbn [app].
  rewrite (over_cons _ _ _ _ (S false Stopped None None None vol rp false false false 0 None)) by by destruct rp.
  rewrite (over_cons _ _ _ _ (S false Stopped None None None vol rp rd false false 0 None)) by by destruct rd.
  rewrite (over_cons _ _ _ _ (S false Stopped None None None vol rp rd sg false 0 None)) by by destruct sg.
  rewrite (over_cons _ _ _ _ (S false Stopped None None None vol rp rd sg cs 0 None)) by by destruct cs.
  rewrite (over_cons _ _ _ _ (S false Stopped None None None vol rp rd sg cs xf None)).
  2: { cbn -[parse_u32]. unfold parse_u32. by rewrite parse_uint_dec. }
  rewrite (over_cons _ _ _ _ (S true st None None None vol rp rd sg cs xf None)) by by destruct st.
  rewrite (over_opt status_field (lit "song") dec song (fun x => S true st x None None vol rp rd sg cs xf None)).
  2: { intros v Hsong. cbn -[parse_u32_field]. by rewrite u32_printed by by apply Hs. }
  unfold timed_field.
  rewrite (over_opt status_field (lit "elapsed") _ el (fun x => S true st song x None vol rp rd sg cs xf None)).
  2: { intros v Hel. destruct (He v Hel) as (t & -> & Ht). cbn -[parse_duration_secs_field ms N.mul N.pow]. rewrite ms_millis, duration_printed by done. reflexivity. }
  rewrite (over_opt status_field (lit "duration") _ du (fun x => S true st song el x vol rp rd sg cs xf None)).
  2: { intros v Hel. destruct (Hd v Hel) as (t & -> & Ht). cbn -[parse_duration_secs_field ms N.mul N.pow]. rewrite ms_millis, (duration_printed (lit "duration")) by done. reflexivity. }
  rewrite <-(app_nil_r (opt_field _ _)).
  rewrite (over_opt status_field (lit "updating_db") dec ud (fun x => S true st song el du vol rp rd sg cs xf x)); [done|].
  intros v Hud. cbn -[parse_u32]. unfold parse_u32. by rewrite parse_uint_dec by by apply Hu.
Qed.

(** ** Subsystems of [idle] *)

Theorem subsystem_roundtrip s : subsystem_of (subsystem_str s) = s <-> (forall o, s = Other o -> o ∉ subsystem_names.*1).
Proof.
  split.
  - intros H o -> Ho. cbn [subsystem_str] in H. unfold subsystem_of in H.
    destruct (list_find _ _) as [[i [n x]]|] eqn:E.
    + apply list_find_Some in E as (E & Hn & _). cbn [fst] in Hn. subst n x.
      apply list_elem_of_lookup_2 in E. revert E. clear. unfold subsystem_names.
      rewrite !elem_of_cons, elem_of_nil. intros E. destruct_or! E; congruence.
    + apply list_find_None in E. apply list_elem_of_fmap in Ho as (e & -> & He). rewrite Forall_forall in E. by apply (E e).
  - intros H. destruct s as [| | | | | | | | | | | | | |o]; try reflexivity. cbn [subsystem_str]. unfold subsystem_of.
    destruct (list_find _ _) as [[i [n x]]|] eqn:E; [|done].
    apply list_find_Some in E as (E & Hn & _). cbn [fst] in Hn. subst n. exfalso. apply (H o eq_refl).
    apply list_elem_of_fmap. exists (o, x). split; [done|]. by eapply list_elem_of_lookup_2.
Qed.

(** ** What goes wrong *)

(** A time that is no duration is a panic, not an error: the conversion to a [Duration] is
    not the checked one. *)
Theorem huge_time_panics :
  parse_current_song [field "file" (lit "a.flac"); field "duration" (lit "1e20")] = None /\
  parse_status [field "state" (lit "play"); field "elapsed" (lit "18446744073709551616")] = None /\
  parse_queue_items [field "file" (lit "a.flac"); field "duration" (lit "2e19")] = None.
Proof. vm_compute. repeat split. Qed.

(** A duration that cannot be read is left out of a listing, and takes the whole current
    song with it. *)
Theorem duration_refuses_the_song :
  parse_playlist_entries [field "file" (lit "a.flac"); field "duration" (lit "?")] =
    Some [{| p_position := 0; p_tags := fresh (lit "a.flac") |}] /\
  parse_current_song [field "file" (lit "a.flac"); field "duration" (lit "?")] =
    Some (Err (unparseable (lit "duration") (lit "?"))).
Proof. vm_compute. repeat split. Qed.
