(* ===== verification/MpdLink.v ===== *)
(** * The connection to the player ([crates/evo-mpd-shared/src/connection.rs], [framing.rs],
    [endpoint.rs])

    A link is the peer on the other side of the socket with what it has sent and was not
    read yet, each line with the time it takes to come; lines come whole, so a read that is
    given up finds its line again.  The verbs of [MpdConnection] write
    a command and read its answer.  The theorems relate a conversation to the answers of
    the peer, and a peer that carries the commands out to the player of [MpdServer]. *)

From stdpp Require Import gmap.
From S2P Require Import Prelude MpdProtocol MpdServer Durations MpdReplies.
Local Open Scope N_scope.

(** ** Data *)

(** [ConnectTimeouts], in milliseconds, and [MpdEndpoint] *)
Record ConnectTimeouts := { connect : N; welcome : N; command : N }.
Definition ConnectTimeouts_default : ConnectTimeouts := {| connect := 5000; welcome := 2000; command := 3000 |}.
Inductive MpdEndpoint := Tcp (host : str) (port : N) | Unix (path : str).
(** [MpdEndpoint::tcp], [MpdEndpoint::unix] *)
Definition tcp (host : str) (port : N) : result MpdEndpoint ConfigError :=
  if str_is_empty (trim host) then Err EmptyHost else Ok (Tcp host port).
Definition unix (path : str) : result MpdEndpoint ConfigError :=
  if str_is_empty path then Err EmptyPath else Ok (Unix path).

(** Something that a read will deliver, [after] so many milliseconds: a text up to a line
    feed or the end of the stream, or a failure. *)
Inductive Delivery := Text (s : str) | Broken (e : IoErrorKind).
Record Arrival := { after : N; what : Delivery }.
(** How a write ended. *)
Inductive WriteOutcome := Written | WriteFailed (e : IoErrorKind) | WriteElapsed.
(** The other side: what it sends, in reaction to the bytes it hears. *)
Class Peer (P : Type) := hear : list N -> P -> P * list Arrival * WriteOutcome.

(** [MpdConnection], with the clock. *)
Record Link (P : Type) := {
  peer : P; inbox : list Arrival; version : MpdVersion; endpoint : MpdEndpoint; command_timeout : N; clock : N }.
Arguments peer {P} _. Arguments inbox {P} _. Arguments version {P} _. Arguments endpoint {P} _.
Arguments command_timeout {P} _. Arguments clock {P} _.

(** ** Reading and writing ([framing.rs]) *)

(** A read with a deadline: what is left to read, how long it took and what it delivered.  A line
    that comes too late stays on its way, and the end of the stream is read again and again. *)
Definition timed_read (budget : N) (ib : list Arrival) : list Arrival * N * ReadOutcome :=
  match ib with
  | [] => ([], budget, ReadElapsed)
  | a :: rest =>
      if after a <=? budget then
        match what a with
        | Text [] => ({| after := 0; what := Text [] |} :: rest, after a, ReadText [])
        | Text s => (rest, after a, ReadText s)
        | Broken e => (rest, after a, ReadFailed e)
        end
      else ({| after := after a - budget; what := what a |} :: rest, budget, ReadElapsed)
  end.

Section loops.
Context (budget : N -> N) (operation : str) (stop : N -> option MpdError) (recast : N -> MpdError -> MpdError).
Context {S R : Type} (step : ClassifiedLine -> S -> S + result R MpdError).

(** The loops that read an answer: at every turn [stop] is asked with the time, a line is
    read within the budget and classified, and [step] goes on or ends. *)
Fixpoint read_loop (ib : list Arrival) (now : N) (s : S) : list Arrival * N * result R MpdError :=
  match stop now with
  | Some e => (ib, now, Err e)
  | None =>
      let '(ib', took, outcome) := timed_read (budget now) ib in
      match read_line_with_timeout outcome (budget now) operation with
      | Err e => (ib', now + took, Err (recast (now + took) e))
      | Ok line =>
          match classify_line line with
          | Err e => (ib', now + took, Err (Protocol e))
          | Ok c =>
              match step c s with
              | inr r => (ib', now + took, r)
              | inl s' => match ib with [] => (ib', now + took, Err (Transport Closed)) | _ :: rest => read_loop rest (now + took) s' end
              end
          end
      end
  end.
End loops.

(** The answer to one command: fields until [OK]. *)
Definition response_step (c : ClassifiedLine) (fields : list Field) : list Field + result (list Field) MpdError :=
  match c with
  | LineOk => inr (Ok fields)
  | LineListOk => inr (Err (Protocol UnexpectedListOk))
  | LineAck code pos cmd message => inr (Err (Ack code pos cmd message))
  | LineField f => inl (fields ++ [f])
  end.
(** The answer of [idle]. *)
Definition idle_step (c : ClassifiedLine) (changed : list IdleSubsystem) :
    list IdleSubsystem + result (list IdleSubsystem) MpdError :=
  match c with
  | LineOk => inr (Ok changed)
  | LineListOk => inr (Err (Protocol UnexpectedListOk))
  | LineAck code pos cmd message => inr (Err (Ack code pos cmd message))
  | LineField f => inl (if bool_decide (key f = lit "changed") then changed ++ [subsystem_of (value f)] else changed)
  end.
(** The answers to a list of commands, each ended by [list_OK]. *)
Definition groups_step (c : ClassifiedLine) (a : list (list Field) * list Field) :
    list (list Field) * list Field + result (list (list Field)) MpdError :=
  let '(groups, current) := a in
  match c with
  | LineListOk => inl (groups ++ [current], [])
  | LineOk => inr (Ok (if bool_decide (current = []) then groups else groups ++ [current]))
  | LineAck code pos cmd message => inr (Err (Ack code pos cmd message))
  | LineField f => inl (groups, current ++ [f])
  end.

Section verbs.
Context {P : Type} `{Peer P}.

Definition never (now : N) : option MpdError := None.
Definition as_is (now : N) (e : MpdError) : MpdError := e.

(** [write_all_with_timeout] *)
Definition write_all (bytes : list N) (operation : str) (l : Link P) : Link P * result unit MpdError :=
  let '(p, arrivals, outcome) := hear bytes (peer l) in
  let l' t := {| peer := p; inbox := inbox l ++ arrivals; version := version l; endpoint := endpoint l;
                 command_timeout := command_timeout l; clock := clock l + t |} in
  match outcome with
  | Written => (l' 0, Ok tt)
  | WriteFailed e => (l' 0, Err (Transport (Io e)))
  | WriteElapsed => (l' (command_timeout l), Err (Timeout operation (command_timeout l)))
  end.
(** A loop over the link. *)
Definition reading {R} (loop : list Arrival -> N -> list Arrival * N * result R MpdError) (l : Link P) :
    Link P * result R MpdError :=
  let '(ib, now, r) := loop (inbox l) (clock l) in
  ({| peer := peer l; inbox := ib; version := version l; endpoint := endpoint l;
      command_timeout := command_timeout l; clock := now |}, r).

(** [dispatch] *)
Definition dispatch (cmd : str) (args : list str) (l : Link P) : Link P * result (list Field) MpdError :=
  match serialise_command cmd args with
  | Err e => (l, Err (Protocol e))
  | Ok bytes =>
      let '(l, w) := write_all bytes (lit "write_command") l in
      match w with
      | Err e => (l, Err e)
      | Ok _ =>
          reading (fun ib now => read_loop (fun _ => command_timeout l) (lit "read_response") never as_is response_step ib now []) l
      end
  end.

(** [idle]: every read gets what is left of the budget (one that the clock can add). *)
Definition idle (subsystems : list IdleSubsystem) (budget : N) (l : Link P) : Link P * result (list IdleSubsystem) MpdError :=
  let start := clock l in
  match serialise_command (lit "idle") (map subsystem_str subsystems) with
  | Err e => (l, Err (Protocol e))
  | Ok bytes =>
      let '(l, w) := write_all bytes (lit "write_idle") l in
      match w with
      | Err e => (l, Err e)
      | Ok _ =>
          let remaining now := start + budget - now in
          reading (fun ib now => read_loop remaining (lit "read_idle")
                    (fun now => if remaining now =? 0 then Some (Timeout (lit "idle") (now - start)) else None)
                    (fun now e => match e with Timeout _ _ => Timeout (lit "idle") (now - start) | _ => e end)
                    idle_step ib now []) l
      end
  end.

(** The payload of a list of commands. *)
Fixpoint serialise_all (commands : list (str * list str)) : result (list N) ProtocolError :=
  match commands with
  | [] => Ok []
  | (cmd, args) :: rest =>
      let? bytes := serialise_command cmd args in
      let? more := serialise_all rest in
      Ok (bytes ++ more)
  end.
Definition list_payload (begin : str) (commands : list (str * list str)) : result (list N) ProtocolError :=
  let? body := serialise_all commands in
  Ok (as_bytes begin ++ [LF] ++ body ++ as_bytes (lit "command_list_end") ++ [LF]).
(** [command_list], [command_list_ok] *)
Definition command_list (commands : list (str * list str)) (l : Link P) : Link P * result unit MpdError :=
  match commands with
  | [] => (l, Ok tt)
  | _ =>
      match list_payload (lit "command_list_begin") commands with
      | Err e => (l, Err (Protocol e))
      | Ok bytes =>
          let '(l, w) := write_all bytes (lit "command_list_write") l in
          match w with
          | Err e => (l, Err e)
          | Ok _ =>
              let '(l, r) := reading (fun ib now => read_loop (fun _ => command_timeout l) (lit "command_list_response") never as_is
                                        response_step ib now []) l in
              (l, let? _ := r in Ok tt)
          end
      end
  end.
Definition command_list_ok (commands : list (str * list str)) (l : Link P) : Link P * result (list (list Field)) MpdError :=
  match commands with
  | [] => (l, Ok [])
  | _ =>
      match list_payload (lit "command_list_ok_begin") commands with
      | Err e => (l, Err (Protocol e))
      | Ok bytes =>
          let '(l, w) := write_all bytes (lit "command_list_ok_write") l in
          match w with
          | Err e => (l, Err e)
          | Ok _ =>
              reading (fun ib now => read_loop (fun _ => command_timeout l) (lit "command_list_ok_response") never as_is
                         groups_step ib now ([], [])) l
          end
      end
  end.

(** ** The verbs ([MpdConnection]) *)

Definition Verb (A : Type) : Type := Link P -> Link P * Parse A.
Definition call {A} (cmd : string) (args : list str) (k : list Field -> Parse A) : Verb A :=
  fun l => let '(l, r) := dispatch (lit cmd) args l in (l, andthen (lift r) k).
Definition simple (cmd : string) (args : list str) : Verb unit := call cmd args (fun _ => pass tt).
Definition total {A} (f : list Field -> A) (fs : list Field) : Parse A := pass (f fs).
(** A parser that does not fail but may panic. *)
Definition parsed {A} (f : list Field -> option A) (fs : list Field) : Parse A := option_map Ok (f fs).
Definition on_off (b : bool) : str := if b then lit "1" else lit "0".
Fixpoint flatten (pairs : list (str * str)) : list str :=
  match pairs with [] => [] | (tag, value) :: rest => tag :: value :: flatten rest end.
(** The first field with a key. *)
Definition first (k : string) (fs : list Field) : option str :=
  option_map (fun f => value f.2) (list_find (fun f => key f = lit k) fs).

Definition status : Verb MpdStatus := call "status" [] parse_status.
Definition current_song : Verb (option MpdSong) := call "currentsong" [] parse_current_song.
Definition ping : Verb unit := simple "ping" [].
Definition stats : Verb MpdStats := call "stats" [] parse_stats.

Definition play : Verb unit := simple "play" [].
Definition play_position (pos : N) : Verb unit := simple "play" [dec pos].
Definition pause (paused : bool) : Verb unit := simple "pause" [on_off paused].
Definition stop : Verb unit := simple "stop" [].
Definition clear : Verb unit := simple "clear" [].
Definition add (path : str) : Verb unit := simple "add" [path].
Definition next : Verb unit := simple "next" [].
Definition previous : Verb unit := simple "previous" [].
Definition seek (pos : N) : Verb unit := simple "seekcur" [format_3 (as_secs_f64 pos)].
Definition seek_relative (delta_ms : Z) : Verb unit :=
  let abs_ms := Z.abs_N delta_ms in
  let sign := if (delta_ms <? 0)%Z then lit "-" else lit "+" in
  simple "seekcur" [sign ++ dec (abs_ms / 1000) ++ lit "." ++ pad3 (abs_ms mod 1000)].
Definition set_volume (volume : N) : Verb unit := simple "setvol" [dec volume].
Definition set_crossfade (seconds : N) : Verb unit := simple "crossfade" [dec seconds].
Definition set_single (enabled : bool) : Verb unit := simple "single" [on_off enabled].
Definition set_repeat (enabled : bool) : Verb unit := simple "repeat" [on_off enabled].
Definition set_random (enabled : bool) : Verb unit := simple "random" [on_off enabled].
Definition set_consume (enabled : bool) : Verb unit := simple "consume" [on_off enabled].
Definition disable_output (index : N) : Verb unit := simple "disableoutput" [dec index].
Definition enable_output (index : N) : Verb unit := simple "enableoutput" [dec index].

Definition playlistinfo : Verb (list MpdQueueItem) := call "playlistinfo" [] (parsed parse_queue_items).
Definition playlistfind (tag value : str) : Verb (list MpdQueueItem) := call "playlistfind" [tag; value] (parsed parse_queue_items).
Definition added_id (fs : list Field) : Parse N :=
  match first "Id" fs with
  | Some v => lift (parse_u32_field (lit "Id") v)
  | None => reject (Protocol (MissingField (lit "Id")))
  end.
Definition addid (uri : str) (position : option N) : Verb N :=
  call "addid" (match position with Some p => [uri; dec p] | None => [uri] end) added_id.
Definition addtagid (id : N) (tag value : str) : Verb unit := simple "addtagid" [dec id; tag; value].
Definition deleteid (id : N) : Verb unit := simple "deleteid" [dec id].
Definition moveid (id to_position : N) : Verb unit := simple "moveid" [dec id; dec to_position].

Definition listplaylists : Verb (list MpdPlaylistSummary) := call "listplaylists" [] (parsed parse_playlist_summaries).
Definition listplaylistinfo (name : str) : Verb (list MpdPlaylistEntry) := call "listplaylistinfo" [name] (parsed parse_playlist_entries).
Definition load_playlist (name : str) : Verb unit := simple "load" [name].
Definition save_playlist (name : str) : Verb unit := simple "save" [name].
Definition playlistadd (name uri : str) : Verb unit := simple "playlistadd" [name; uri].
Definition playlistdelete (name : str) (position : N) : Verb unit := simple "playlistdelete" [name; dec position].
Definition playlistclear (name : str) : Verb unit := simple "playlistclear" [name].
Definition playlistmove (name : str) (from to : N) : Verb unit := simple "playlistmove" [name; dec from; dec to].
Definition rename_playlist (from_name to_name : str) : Verb unit := simple "rename" [from_name; to_name].
Definition rm_playlist (name : str) : Verb unit := simple "rm" [name].
(** [playlist_file_counts]; a group that is missing is no count. *)
Definition files_in (group : list Field) : N := N.of_nat (length (filter (fun f => key f = lit "file") group)) mod 2 ^ 32.
Definition playlist_file_counts (names : list str) : Verb (list (option N)) := fun l =>
  match names with
  | [] => (l, pass [])
  | _ =>
      let '(l, r) := command_list_ok (map (fun n => (lit "listplaylist", [n])) names) l in
      (l, lift (let? groups := r in Ok (imap (fun i _ => files_in <$> groups !! i) names)))
  end.

(** Commands with pairs of tag and value; no pairs is no command. *)
Definition with_pairs {A} (pairs : list (str * str)) (none : A) (v : Verb A) : Verb A :=
  match pairs with [] => fun l => (l, pass none) | _ => v end.
Definition songs_count (fs : list Field) : Parse N :=
  match first "songs" fs with
  | Some v => lift (ok_or (parse_u64 (trim v)) (unparseable (lit "songs") v))
  | None => pass 0
  end.
Definition count_matching (pairs : list (str * str)) : Verb N := with_pairs pairs 0 (call "count" (flatten pairs) songs_count).
Definition findadd (pairs : list (str * str)) : Verb unit := with_pairs pairs tt (simple "findadd" (flatten pairs)).
Definition searchadd (pairs : list (str * str)) : Verb unit := with_pairs pairs tt (simple "searchadd" (flatten pairs)).
Definition searchaddpl (name : str) (pairs : list (str * str)) : Verb unit :=
  with_pairs pairs tt (simple "searchaddpl" (name :: flatten pairs)).

(** Stickers; that there is none is not an error. *)
Definition sticker (args : list string) (rest : list str) {A} (k : list Field -> Parse A) : Verb A :=
  call "sticker" (map lit args ++ rest) k.
Definition unless_missing {A} (missing : A) (v : Verb A) : Verb A := fun l =>
  let '(l, r) := v l in
  (l, match r with Some (Err (Ack code _ _ _)) => if code =? 50 then pass missing else r | _ => r end).
Fixpoint sticker_value_of (name : str) (fs : list Field) : option str :=
  match fs with
  | [] => None
  | f :: fs' =>
      if bool_decide (key f = lit "sticker") then
        match sticker_parse_value (value f) name with Some v => Some v | None => sticker_value_of name fs' end
      else sticker_value_of name fs'
  end.
Definition sticker_get (uri name : str) : Verb (option str) :=
  unless_missing None (sticker ["get"; "song"]%string [uri; name] (total (sticker_value_of name))).
Definition sticker_set (uri name value : str) : Verb unit := sticker ["set"; "song"]%string [uri; name; value] (total (fun _ => tt)).
Definition sticker_delete (uri name : str) : Verb unit :=
  unless_missing tt (sticker ["delete"; "song"]%string [uri; name] (total (fun _ => tt))).
Definition sticker_list (uri : str) : Verb (list MpdSticker) := sticker ["list"; "song"]%string [uri] (total parse_sticker_list).
Definition sticker_find (base name : str) (equal_to : option str) : Verb (list MpdStickerMatch) :=
  sticker ["find"; "song"]%string ([base; name] ++ match equal_to with Some v => [lit "="; v] | None => [] end)
    (total parse_sticker_find).

(** The library. *)
Definition at_path (path : str) : list str := if str_is_empty path then [] else [path].
Definition lsinfo (path : str) : Verb (list MpdLibraryEntry) := call "lsinfo" (at_path path) (parsed parse_library_entries).
Definition listallinfo (path : str) : Verb (list MpdLibraryEntry) := call "listallinfo" (at_path path) (parsed parse_library_entries).
Definition find (f : MpdSearchField) (query : str) : Verb (list MpdLibraryEntry) :=
  call "find" [search_field_str f; query] (parsed parse_library_entries).
Definition find_multi (pairs : list (MpdSearchField * str)) : Verb (list MpdLibraryEntry) :=
  call "find" (flatten (map (fun p => (search_field_str p.1, p.2)) pairs)) (parsed parse_library_entries).
Definition search (f : MpdSearchField) (query : str) : Verb (list MpdLibraryEntry) :=
  call "search" [search_field_str f; query] (parsed parse_library_entries).
Definition list_tag (tag : str) : Verb (list str) := call "list" [tag] (total listed_values).
Definition list_tag_grouped (tag group_by : str) : Verb (list (str * str)) :=
  call "list" [tag; lit "group"; group_by] (total (grouped_pairs tag group_by)).
Definition count_grouped_by_tag (tag : str) : Verb (gmap str N) := call "count" [lit "group"; tag] (total (grouped_counts tag)).
Definition list_tag_filtered (tag filter_tag filter_value : str) : Verb (list str) :=
  call "list" [tag; filter_tag; filter_value] (total listed_values).
Definition optional (path : option str) : list str := match path with Some p => [p] | None => [] end.
Definition update (path : option str) : Verb unit := simple "update" (optional path).
Definition rescan (path : option str) : Verb unit := simple "rescan" (optional path).
Definition listmounts : Verb (list MpdMount) := call "listmounts" [] (parsed parse_mounts).
Definition mount_storage (name storage : str) : Verb unit := simple "mount" [name; storage].
Definition unmount_storage (name : str) : Verb unit := simple "unmount" [name].
Definition listneighbors : Verb (list MpdNeighbor) := call "listneighbors" [] (parsed parse_neighbors).

(** ** Connecting *)

Inductive Dialled := Connected (p : P) (greeting : list Arrival) | ConnectFailed (e : IoErrorKind) | ConnectElapsed.
(** [open_streams] *)
Definition open_streams (e : MpdEndpoint) (budget : N) (outcome : Dialled) : result (P * list Arrival) MpdError :=
  match outcome with
  | Connected p greeting => Ok (p, greeting)
  | ConnectFailed err =>
      Err (Transport (match e with
                      | Tcp host port => TcpConnect (host ++ lit ":" ++ dec port) err
                      | Unix path => UnixConnect path err
                      end))
  | ConnectElapsed => Err (Timeout (match e with Tcp _ _ => lit "tcp_connect" | Unix _ => lit "unix_connect" end) budget)
  end.
(** [handshake], [connect_with_timeouts] *)
Definition handshake (p : P) (greeting : list Arrival) (e : MpdEndpoint) (timeouts : ConnectTimeouts) (now : N) :
    result (Link P) MpdError :=
  let '(ib, took, outcome) := timed_read (welcome timeouts) greeting in
  let? line := read_line_with_timeout outcome (welcome timeouts) (lit "welcome") in
  let? v := map_err Protocol (parse_welcome line) in
  Ok {| peer := p; inbox := ib; version := v; endpoint := e; command_timeout := command timeouts; clock := now + took |}.
Definition connect_with_timeouts (e : MpdEndpoint) (timeouts : ConnectTimeouts) (outcome : Dialled) (now : N) :
    result (Link P) MpdError :=
  let? s := open_streams e (connect timeouts) outcome in
  handshake s.1 s.2 e timeouts now.
End verbs.

(** ** Answers *)

(** What a peer answers to one command: fields, or a refusal. *)
Inductive Answer := Fields (fs : list Field) | Refused (code position : N) (cmd message : str).
Definition field_line (f : Field) : str := key f ++ lit ": " ++ value f.
Definition answer_lines (a : Answer) : list str :=
  match a with
  | Fields fs => map field_line fs ++ [lit "OK"]
  | Refused code pos cmd message => [render_ack code pos cmd message]
  end.
Definition answer_result (a : Answer) : result (list Field) MpdError :=
  match a with Fields fs => Ok fs | Refused code pos cmd message => Err (Ack code pos cmd message) end.

(** A line the framing accepts; a field that is read back; an answer made of such. *)
Definition sendable (l : str) : Prop := one_line l /\ str_len (l ++ [LF]) <= LINE_MAX.
#[export] Instance sendable_dec l : Decision (sendable l).
Proof. unfold sendable. apply _. Defined.
Definition speakable (f : Field) : Prop :=
  sendable (field_line f) /\ key f <> [] /\ 58 ∉ key f /\ starts_with (lit "ACK [") (field_line f) = false.
Definition answer_ok (a : Answer) : Prop :=
  match a with
  | Fields fs => Forall speakable fs
  | Refused code pos cmd message =>
      code <= U32_MAX /\ pos <= U32_MAX /\ 125 ∉ cmd /\ sendable (render_ack code pos cmd message)
  end.
(** The lines come one after the other, each within the time. *)
Definition delivered (t : N) (ls : list str) (arrs : list Arrival) : Prop :=
  Forall2 (fun l a => after a <= t /\ what a = Text (l ++ [LF])) ls arrs.

Lemma read_delivered t op l a ib : sendable l -> after a <= t -> what a = Text (l ++ [LF]) ->
  timed_read t (a :: ib) = (ib, after a, ReadText (l ++ [LF])) /\ read_line_with_timeout (ReadText (l ++ [LF])) t op = Ok l.
Proof.
  intros [[Hlf Hcr] Hlen] Ha Hw. unfold timed_read. rewrite (proj2 (N.leb_le _ _)) by done. rewrite Hw. split.
  - by destruct l.
  - apply read_line_strips_terminator; [|done]. left. split; [done|].
    unfold ends_with, strip_suffix. destruct (rev l) as [|c r] eqn:E; [done|]. cbn [rev app strip_prefix].
    destruct (N.eqb_spec CR c) as [<-|]; [|done]. exfalso. apply Hcr.
    rewrite <-(rev_involutive l), E. cbn [rev]. by rewrite last_snoc.
Qed.

Section reads.
Context (t : N) (op : str).
Notation loop step := (read_loop (fun _ => t) op never as_is step).

(** One line of an answer. *)
Lemma loop_line {S R} (step : ClassifiedLine -> S -> S + result R MpdError) l c a ib now s :
  sendable l -> classify_line l = Ok c -> after a <= t -> what a = Text (l ++ [LF]) ->
  loop step (a :: ib) now s =
    match step c s with inr r => (ib, now + after a, r) | inl s' => loop step ib (now + after a) s' end.
Proof.
  intros Hl Hc Ha Hw. destruct (read_delivered t op l a ib Hl Ha Hw) as [Hr Hline]. cbn [read_loop never]. rewrite Hr, Hline, Hc. done.
Qed.

Definition total_time (arrs : list Arrival) : N := foldr (fun a n => after a + n) 0 arrs.

Lemma classify_speakable f : speakable f -> classify_line (field_line f) = Ok (LineField f).
Proof. intros (_ & Hne & Hc & Ha). destruct f as [k v]. by apply classify_field_roundtrip. Qed.

(** The fields of an answer, under a step that collects them. *)
Lemma loop_fields {S R} (step : ClassifiedLine -> S -> S + result R MpdError) (collect : list Field -> S -> S) fs arrs ib now s :
  (forall s, collect [] s = s) -> (forall f s, step (LineField f) s = inl (collect [f] s)) ->
  (forall f fs s, collect fs (collect [f] s) = collect (f :: fs) s) ->
  Forall speakable fs -> delivered t (map field_line fs) arrs ->
  loop step (arrs ++ ib) now s = loop step ib (now + total_time arrs) (collect fs s).
Proof.
  intros Hnil Hstep Hcons Hfs. revert arrs now s. induction Hfs as [|f fs Hf _ IH]; intros arrs now s Hd.
  - apply Forall2_nil_inv_l in Hd as ->. cbn [app total_time foldr]. by rewrite Hnil, N.add_0_r.
  - cbn [map] in Hd. apply Forall2_cons_inv_l in Hd as (a & arrs' & (Ha & Hw) & Hd & ->). cbn [app].
    rewrite (loop_line step _ _ _ _ _ _ (proj1 Hf) (classify_speakable f Hf) Ha Hw), (Hstep f), IH by done.
    rewrite Hcons. cbn [total_time foldr]. by rewrite N.add_assoc.
Qed.

(** An answer is read whole, and nothing more. *)
Lemma loop_answer a arrs ib now : answer_ok a -> delivered t (answer_lines a) arrs ->
  loop response_step (arrs ++ ib) now [] = (ib, now + total_time arrs, answer_result a).
Proof.
  destruct a as [fs|code pos cmd message]; cbn [answer_ok answer_lines answer_result].
  - intros Hfs Hd. apply Forall2_app_inv_l in Hd as (arrs1 & arrs2 & Hd1 & Hd2 & ->).
    rewrite <-app_assoc, (loop_fields response_step (fun fs acc => acc ++ fs) fs arrs1 (arrs2 ++ ib) now []);
      [|by intros; rewrite app_nil_r|done|by intros; rewrite <-app_assoc|done..].
    apply Forall2_cons_inv_l in Hd2 as (a & arrs' & (Ha & Hw) & Hd2 & ->). apply Forall2_nil_inv_l in Hd2 as ->. cbn [app].
    rewrite (loop_line response_step (lit "OK") LineOk); [|apply (bool_decide_unpack _); vm_compute; exact I|done..].
    cbn [response_step app]. unfold total_time. rewrite foldr_app. cbn [foldr]. do 2 f_equal.
    assert (Hs : forall l n, foldr (fun a n => after a + n) n l = foldr (fun a n => after a + n) 0 l + n).
    { clear. induction l as [|a l IH]; intros n; cbn; [done|]. rewrite IH. lia. }
    rewrite (Hs arrs1 (after a + 0)). lia.
  - intros (Hc & Hp & Hb & Hs) Hd. apply Forall2_cons_inv_l in Hd as (a & arrs' & (Ha & Hw) & Hd2 & ->).
    apply Forall2_nil_inv_l in Hd2 as ->. cbn [app].
    rewrite (loop_line response_step _ (LineAck code pos cmd message) _ _ _ _ Hs); [|by apply classify_ack_roundtrip|done..].
    cbn [response_step total_time foldr]. by rewrite N.add_0_r.
Qed.
End reads.

(** ** Conversations *)

(** A peer that answers: what it makes of a command, where [fit] says that it can print the
    answer; every answer comes within the time [t]. *)
Class Obedient (P : Type) `{Peer P} (t : N) := {
  fit : str -> list str -> P -> Prop;
  reply : str -> list str -> P -> P * Answer;
  obeys : forall cmd args bytes p, fit cmd args p -> serialise_command cmd args = Ok bytes ->
    exists arrs, hear bytes p = ((reply cmd args p).1, arrs, Written) /\
      delivered t (answer_lines (reply cmd args p).2) arrs /\ answer_ok (reply cmd args p).2 }.

Section conversations.
Context {P : Type} `{Hpeer : Peer P}.

(** The link after a command: another peer, a later time, and nothing left to read. *)
Definition moved (p : P) (now : N) (l : Link P) : Link P :=
  {| peer := p; inbox := []; version := version l; endpoint := endpoint l; command_timeout := command_timeout l; clock := now |}.
Definition at_rest (t : N) (l : Link P) : Prop := inbox l = [] /\ command_timeout l = t.

Lemma dispatch_answered t cmd args bytes p' arrs a (l : Link P) :
  at_rest t l -> serialise_command cmd args = Ok bytes -> hear bytes (peer l) = (p', arrs, Written) ->
  delivered t (answer_lines a) arrs -> answer_ok a ->
  dispatch cmd args l = (moved p' (clock l + total_time arrs) l, answer_result a).
Proof.
  intros [Hib Ht] Hs Hh Hd Ha. unfold dispatch. rewrite Hs. unfold write_all. rewrite Hh.
  unfold reading. cbn [inbox clock peer command_timeout version endpoint]. rewrite Hib, N.add_0_r, Ht. cbn [app].
  rewrite <-(app_nil_r arrs). rewrite (loop_answer t (lit "read_response") a arrs [] (clock l) Ha Hd).
  rewrite app_nil_r. unfold moved. by rewrite Ht.
Qed.

Context (t : N) `{!Obedient P t}.

Lemma dispatch_obeyed cmd args (l : Link P) bytes :
  at_rest t l -> serialise_command cmd args = Ok bytes -> fit cmd args (peer l) ->
  exists now, dispatch cmd args l = (moved (reply cmd args (peer l)).1 now l, answer_result (reply cmd args (peer l)).2).
Proof.
  intros Hl Hs Hf. destruct (obeys cmd args bytes (peer l) Hf Hs) as (arrs & Hh & Hd & Ha).
  exists (clock l + total_time arrs). by apply (dispatch_answered t cmd args bytes).
Qed.
Lemma dispatch_forbidden cmd args (l : Link P) e : serialise_command cmd args = Err e -> dispatch cmd args l = (l, Err (Protocol e)).
Proof. intros Hs. unfold dispatch. by rewrite Hs. Qed.

(** Commands one after the other, and what the peer alone makes of them: a command with a
    forbidden character does not reach it. *)
Fixpoint converse (cmds : list (str * list str)) (l : Link P) : Link P * list (result (list Field) MpdError) :=
  match cmds with
  | [] => (l, [])
  | (cmd, args) :: rest =>
      let '(l, r) := dispatch cmd args l in
      let '(l, rs) := converse rest l in
      (l, r :: rs)
  end.
Fixpoint replies (cmds : list (str * list str)) (p : P) : P * list (result (list Field) MpdError) :=
  match cmds with
  | [] => (p, [])
  | (cmd, args) :: rest =>
      match serialise_command cmd args with
      | Err e => let '(p, rs) := replies rest p in (p, Err (Protocol e) :: rs)
      | Ok _ =>
          let '(p, a) := reply cmd args p in
          let '(p, rs) := replies rest p in
          (p, answer_result a :: rs)
      end
  end.
(** Every command of the conversation is one that the peer can answer when it comes. *)
Fixpoint fits (cmds : list (str * list str)) (p : P) : Prop :=
  match cmds with
  | [] => True
  | (cmd, args) :: rest =>
      match serialise_command cmd args with
      | Err _ => fits rest p
      | Ok _ => fit cmd args p /\ fits rest (reply cmd args p).1
      end
  end.


(** A verb on a peer that answers is its parser on the answer. *)
Lemma call_obeyed {A} cmd args bytes (k : list Field -> Parse A) (l : Link P) :
  at_rest t l -> serialise_command (lit cmd) args = Ok bytes -> fit (lit cmd) args (peer l) ->
  exists now, call cmd args k l = (moved (reply (lit cmd) args (peer l)).1 now l,
                                   andthen (lift (answer_result (reply (lit cmd) args (peer l)).2)) k).
Proof. intros Hl Hs Hf. destruct (dispatch_obeyed (lit cmd) args l bytes Hl Hs Hf) as [now E]. exists now. unfold call. by rewrite E. Qed.
End conversations.

(** ** Lists of commands *)

Section lists.
Context {P : Type} `{Hpeer : Peer P}.

Definition group_lines (g : list Field) : list str := map field_line g ++ [lit "list_OK"].
Lemma loop_groups t op gs arrs ib now done_ : Forall (Forall speakable) gs ->
  delivered t (concat (map group_lines gs) ++ [lit "OK"]) arrs ->
  exists now', read_loop (fun _ => t) op never as_is groups_step (arrs ++ ib) now (done_, []) = (ib, now', Ok (done_ ++ gs)).
Proof.
  intros Hgs. revert arrs now done_. induction Hgs as [|g gs Hg _ IH]; intros arrs now done_ Hd; cbn [map concat app] in Hd.
  - apply Forall2_cons_inv_l in Hd as (a & arrs' & (Ha & Hw) & Hd & ->). apply Forall2_nil_inv_l in Hd as ->. cbn [app].
    rewrite (loop_line t op groups_step (lit "OK") LineOk); [|apply (bool_decide_unpack _); vm_compute; exact I|done..].
    cbn [groups_step]. rewrite bool_decide_eq_true_2 by done. eexists. by rewrite app_nil_r.
  - unfold group_lines in Hd at 1. rewrite <-!app_assoc in Hd. apply Forall2_app_inv_l in Hd as (arrs1 & arrs2 & Hd1 & Hd2 & ->).
    cbn [app] in Hd2. apply Forall2_cons_inv_l in Hd2 as (a & arrs' & (Ha & Hw) & Hd2 & ->). rewrite <-app_assoc. cbn [app].
    rewrite (loop_fields t op groups_step (fun fs s => (s.1, s.2 ++ fs)) g arrs1 (a :: arrs' ++ ib) now (done_, []));
      [|by intros []; cbn; rewrite app_nil_r|by intros f []|by intros f fs []; cbn; rewrite <-app_assoc|done..].
    rewrite (loop_line t op groups_step (lit "list_OK") LineListOk); [|apply (bool_decide_unpack _); vm_compute; exact I|done..].
    cbn [groups_step fst snd app]. destruct (IH arrs' (now + total_time arrs1 + after a) (done_ ++ [g]) Hd2) as [now' ->].
    exists now'. by rewrite <-app_assoc.
Qed.

(** A batch is answered command by command, an empty answer being one too. *)
Theorem command_list_ok_groups t commands bytes p' arrs gs (l : Link P) :
  commands <> [] -> at_rest t l -> list_payload (lit "command_list_ok_begin") commands = Ok bytes ->
  hear bytes (peer l) = (p', arrs, Written) -> Forall (Forall speakable) gs ->
  delivered t (concat (map group_lines gs) ++ [lit "OK"]) arrs ->
  exists now, command_list_ok commands l = (moved p' now l, Ok gs).
Proof.
  intros Hne [Hib Ht] Hs Hh Hgs Hd. unfold command_list_ok. destruct commands as [|c commands]; [done|].
  rewrite Hs. unfold write_all. rewrite Hh. unfold reading. cbn [inbox clock peer command_timeout version endpoint].
  rewrite Hib, N.add_0_r, Ht. cbn [app]. rewrite <-(app_nil_r arrs).
  destruct (loop_groups t (lit "command_list_ok_response") gs arrs [] (clock l) [] Hgs Hd) as [now ->].
  exists now. unfold moved. by rewrite Ht.
Qed.

(** The counts of files are those of the answers, in the order of the names; a name whose
    answer is missing has none. *)
Theorem file_counts_correct t names bytes p' arrs gs (l : Link P) :
  names <> [] -> at_rest t l ->
  list_payload (lit "command_list_ok_begin") (map (fun n => (lit "listplaylist", [n])) names) = Ok bytes ->
  hear bytes (peer l) = (p', arrs, Written) -> Forall (Forall speakable) gs ->
  delivered t (concat (map group_lines gs) ++ [lit "OK"]) arrs ->
  exists now out, playlist_file_counts names l = (moved p' now l, Some (Ok out)) /\ length out = length names /\
    forall i, (i < length names)%nat -> out !! i = Some (files_in <$> gs !! i).
Proof.
  intros Hne Hl Hs Hh Hgs Hd.
  destruct (command_list_ok_groups t (map (fun n => (lit "listplaylist", [n])) names) bytes p' arrs gs l) as [now E]; try done.
  { by destruct names. }
  exists now. eexists. unfold playlist_file_counts. destruct names as [|n names]; [done|]. rewrite E. split; [reflexivity|].
  split; [by rewrite length_imap|]. intros i Hi. rewrite list_lookup_imap.
  destruct ((n :: names) !! i) eqn:Ei; [done|]. apply lookup_ge_None in Ei. lia.
Qed.

(** A batch with a forbidden character in any of its commands is not sent at all. *)
Theorem forbidden_batch_is_not_sent commands (l : Link P) :
  (exists cmd args s, (cmd, args) ∈ commands /\ s ∈ cmd :: args /\ exists c, c ∈ s /\ forbidden c = true) ->
  (exists e, command_list commands l = (l, Err (Protocol e))) /\ (exists e, command_list_ok commands l = (l, Err (Protocol e))).
Proof.
  intros (cmd & args & s & Hc & Hs & Hf).
  assert (Hall : exists e, serialise_all commands = Err e).
  { induction commands as [|[cmd' args'] commands IH]; [by apply elem_of_nil in Hc|]. cbn [serialise_all].
    apply elem_of_cons in Hc as [[= <- <-]|Hc].
    - pose proof (serialise_command_total cmd args) as Ht. destruct (serialise_command cmd args) as [b|e]; [|by exists e].
      exfalso. rewrite Forall_forall in Ht. specialize (Ht s Hs). rewrite Forall_forall in Ht. destruct Hf as (c & Hc & Hf).
      specialize (Ht c Hc). congruence.
    - destruct (IH Hc) as [e He]. destruct (serialise_command cmd' args'); [|by eexists]. cbn. rewrite He. by exists e. }
  destruct Hall as [e He]. destruct commands as [|c commands]; [by apply elem_of_nil in Hc|].
  unfold command_list, command_list_ok, list_payload. rewrite He. split; by exists e.
Qed.
End lists.

(** ** Time *)

Lemma timed_read_time b ib : (timed_read b ib).1.2 <= b.
Proof. unfold timed_read. destruct ib as [|a ib]; cbn; [done|].
  destruct (N.leb_spec (after a) b); [|done]. by destruct (what a) as [[]|].
Qed.

Lemma timed_read_elapsed b ib : (timed_read b ib).2 = ReadElapsed -> (timed_read b ib).1.2 = b.
Proof.
  unfold timed_read. destruct ib as [|a ib]; cbn; [done|]. destruct (after a <=? b); [|done]. by destruct (what a) as [[]|].
Qed.
Lemma read_line_timeout outcome b op o n : read_line_with_timeout outcome b op = Err (Timeout o n) -> outcome = ReadElapsed.
Proof.
  destruct outcome as [t|e|]; unfold read_line_with_timeout; [|by destruct e|done]. by repeat case_match.
Qed.

(** The waiting of [idle]. *)
Definition remaining (start budget now : N) : N := start + budget - now.
Definition idle_stop (start budget now : N) : option MpdError :=
  if remaining start budget now =? 0 then Some (Timeout (lit "idle") (now - start)) else None.
Definition idle_recast (start now : N) (e : MpdError) : MpdError :=
  match e with Timeout _ _ => Timeout (lit "idle") (now - start) | _ => e end.
Lemma idle_loop_time start budget ib : forall now s, start <= now <= start + budget ->
  let '(_, now', r) := read_loop (remaining start budget) (lit "read_idle") (idle_stop start budget) (idle_recast start) idle_step ib now s in
  start <= now' <= start + budget /\ forall e, r = Err (Timeout (lit "idle") e) -> e = budget /\ now' = start + budget.
Proof.
  induction ib as [|a ib IH]; intros now s Hnow.
  - cbn [read_loop]. unfold idle_stop. destruct (N.eqb_spec (remaining start budget now) 0) as [H0|H0]; unfold remaining in *.
    + split; [done|]. intros e [= <-]. lia.
    + cbn. unfold idle_recast. split; [lia|]. intros e [= <-]. lia.
  - cbn [read_loop]. unfold idle_stop. destruct (N.eqb_spec (remaining start budget now) 0) as [H0|H0]; unfold remaining in *.
    { split; [done|]. intros e [= <-]. lia. }
    set (b := start + budget - now) in *.
    pose proof (timed_read_time b (a :: ib)) as Ht. pose proof (timed_read_elapsed b (a :: ib)) as He.
    destruct (timed_read b (a :: ib)) as [[ib' took] outcome]. cbn [fst snd] in *.
    destruct (read_line_with_timeout outcome b (lit "read_idle")) as [line|e] eqn:El.
    + destruct (classify_line line) as [c|e]; [|split; [lia|done]].
      destruct c; cbn [idle_step]; try (split; [lia|done]). apply IH. lia.
    + split; [lia|]. intros e' He'. destruct e; cbn [idle_recast] in He'; try done. injection He' as <-.
      apply read_line_timeout in El as ->. specialize (He eq_refl). lia.
Qed.

Section waiting.
Context {P : Type} `{Hpeer : Peer P}.

(** [idle] never waits past its budget, and a timeout reports the time that was waited. *)
Theorem idle_within_budget subsystems budget (l : Link P) :
  let '(l', r) := idle subsystems budget l in
  clock l' <= clock l + N.max budget (command_timeout l) /\
  forall e, r = Err (Timeout (lit "idle") e) -> e = budget /\ clock l' = clock l + budget.
Proof.
  unfold idle. destruct (serialise_command _ _) as [bytes|e0]; [|split; [lia|done]].
  unfold write_all. destruct (hear bytes (peer l)) as [[p arrs] [|e0|]]; cbn [clock];
    [|split; [lia|done]|split; [lia|by intros e [= _]]].
  unfold reading. cbn [clock inbox]. rewrite N.add_0_r.
  pose proof (idle_loop_time (clock l) budget (inbox l ++ arrs) (clock l) [] ltac:(lia)) as H. unfold remaining, idle_stop, idle_recast in H.
  destruct (read_loop _ _ _ _ _ _ _ _) as [[ib now] r]. cbn [clock]. destruct H as [H1 H2]. split; [lia|].
  intros e He. destruct (H2 e He). lia.
Qed.
End waiting.

(** ** A peer that plays a script *)

Definition Script : Type := list (list Arrival * WriteOutcome).
#[export] Instance script_peer : Peer Script := fun _ s =>
  match s with [] => ([], [], Written) | (arrs, w) :: rest => (rest, arrs, w) end.
Definition at_once (ls : list str) : list Arrival := map (fun l => {| after := 0; what := Text (l ++ [LF]) |}) ls.
Definition fresh_link {P} (p : P) : Link P :=
  {| peer := p; inbox := []; version := {| major := 0; minor := 24; patch := 0 |}; endpoint := Tcp (lit "localhost") 6600;
     command_timeout := 3000; clock := 0 |}.

(** *** What goes wrong *)

(** A command that timed out leaves its answer on the way, and the next command takes it for
    its own. *)
Theorem late_answer_is_taken_for_the_next :
  let script := [({| after := 4000; what := Text (lit "state: play" ++ [LF]) |} :: at_once [lit "OK"], Written);
                 (at_once [lit "state: stop"; lit "OK"], Written)] in
  let o := status (fresh_link script) in
  let o2 := status o.1 in
  o.2 = Some (Err (Timeout (lit "read_response") 3000)) /\ option_map (map_err (fun _ => tt)) o2.2 = Some (Ok (set_state Playing no_status)) /\
  inbox o2.1 = at_once [lit "state: stop"; lit "OK"].
Proof. vm_compute. repeat split. Qed.

(** A line that is no field ends the command with an error and leaves the rest of the
    answer to the next command, which has no error to show. *)
Theorem malformed_line_leaves_the_rest :
  let script := [(at_once [lit "volume 10"; lit "state: play"; lit "OK"], Written);
                 (at_once [lit "state: stop"; lit "OK"], Written)] in
  let o := status (fresh_link script) in
  let o2 := status o.1 in
  o.2 = Some (Err (Protocol (MalformedKeyValue (lit "volume 10")))) /\
  o2.2 = Some (Ok (set_state Playing no_status)) /\ inbox o2.1 = at_once [lit "state: stop"; lit "OK"].
Proof. vm_compute. repeat split. Qed.

(** The deadline of a command is one for each line: a peer that sends a line now and then
    is waited for as long as it likes. *)
Definition slow (n : nat) : Script :=
  [(repeat {| after := 2000; what := Text (lit "volume: 10" ++ [LF]) |} n ++ at_once [lit "OK"], Written)].
Theorem command_waits_without_end n :
  clock (ping (fresh_link (slow n))).1 = 2000 * N.of_nat n /\ (ping (fresh_link (slow n))).2 = Some (Ok tt).
Proof.
  assert (Hd : delivered 3000 (answer_lines (Fields (repeat {| key := lit "volume"; value := lit "10" |} n)))
                 (repeat {| after := 2000; what := Text (lit "volume: 10" ++ [LF]) |} n ++ at_once [lit "OK"])).
  { cbn [answer_lines]. apply Forall2_app; [|by repeat constructor]. induction n as [|n IH]; cbn; constructor; [done|apply IH]. }
  assert (Hok : answer_ok (Fields (repeat {| key := lit "volume"; value := lit "10" |} n))).
  { apply Forall_forall. intros f Hf. apply list_elem_of_In, repeat_spec in Hf as ->.
    split; [apply (bool_decide_unpack _); vm_compute; exact I|]. split; [done|]. split; [|done].
    by apply (bool_decide_unpack _). }
  unfold ping, simple, call.
  rewrite (dispatch_answered 3000 (lit "ping") [] _ [] _ _ (fresh_link (slow n)) (conj eq_refl eq_refl) eq_refl eq_refl Hd Hok).
  split; [|done]. cbn [moved clock fst fresh_link]. rewrite N.add_0_l. clear. unfold total_time.
  rewrite foldr_app. change (foldr (fun a n => after a + n) 0 (at_once [lit "OK"])) with 0.
  induction n as [|n IH]; [done|]. cbn [repeat foldr after]. rewrite IH. lia.
Qed.
