(* ===== verification/MpdPlayer.v ===== *)
(** * The player behind the wire

    A player that is the one in memory of [MpdServer] and speaks the protocol: it reads a
    command line, carries it out and prints the answer.  The theorem shows that the verbs
    of the connection to it do what the commands of the player do directly, so that what
    is proved of clients of that interface holds of clients of the connection. *)

From stdpp Require Import gmap.
From S2P Require Import Prelude MpdProtocol MpdServer Durations MpdReplies MpdLink.
Local Open Scope N_scope.

(** ** The player *)

(** A command line: the word up to a space or the end of the line, and the arguments. *)
Definition read_command (bytes : list N) : option (str * list str) :=
  let word := take_while (fun b => negb ((b =? 32) || (b =? LF))) bytes in
  let rest := drop (length word) bytes in
  cmd ← from_utf8 word;
  raw ← unquote_args (S (length rest)) rest;
  args ← mapM from_utf8 raw;
  Some (cmd, args).

(** What is said of the outcome of a command. *)
Definition answer {A} (print : A -> list Field) (o : MemPlayer * result A MpdError) : MemPlayer * Answer :=
  (o.1, match o.2 with
        | Ok a => Fields (print a)
        | Err (Ack code position cmd message) => Refused code position cmd message
        | Err _ => Refused 5 0 [] []
        end).
Definition done_ (o : MemPlayer * result unit MpdError) : MemPlayer * Answer := answer (fun _ => []) o.
Definition print_status (s : MpdServer.MpdStatus) : list Field :=
  field "state" (state_word (state s)) :: opt_field (lit "song") (option_map dec (song_position s)).
Definition print_items (items : list MpdServer.MpdQueueItem) : list Field :=
  concat (map (fun i => [field "file" (file_path i); field "Pos" (dec (position i)); field "Id" (dec (id i))]) items).
Definition files (fs : list str) : list Field := map (field "file") fs.

(** The commands it knows. *)
Definition unknown (m : MemPlayer) : MemPlayer * Answer := (m, Refused 5 0 [] []).
Definition numbered (s : str) (m : MemPlayer) (k : N -> MemPlayer * Answer) : MemPlayer * Answer :=
  match parse_u32 s with Some n => k n | None => (m, Refused 2 0 [] []) end.
Definition execute (cmd : str) (args : list str) (m : MemPlayer) : MemPlayer * Answer :=
  let named c := bool_decide (cmd = lit c) in
  match args with
  | [] =>
      if named "playlistinfo" then answer print_items (MpdServer.playlistinfo m)
      else if named "status" then answer print_status (MpdServer.status m)
      else if named "currentsong" then answer (fun o => match o with Some u => files [u] | None => [] end) (MpdServer.current_song m)
      else if named "listplaylists" then answer (map (field "playlist")) (MpdServer.listplaylists m)
      else if named "stop" then done_ (MpdServer.stop m)
      else if named "clear" then done_ (MpdServer.clear m)
      else if named "play" then done_ (MpdServer.play m)
      else unknown m
  | [a] =>
      if named "play" then numbered a m (fun p => done_ (MpdServer.play_position p m))
      else if named "pause" then done_ (MpdServer.pause (bool_decide (a = lit "1")) m)
      else if named "addid" then answer (fun n => [field "Id" (dec n)]) (MpdServer.addid a None m)
      else if named "deleteid" then numbered a m (fun n => done_ (MpdServer.deleteid n m))
      else if named "listplaylistinfo" then answer (fun es => files (map entry_file es)) (MpdServer.listplaylistinfo a m)
      else if named "rm" then done_ (MpdServer.rm_playlist a m)
      else if named "save" then done_ (MpdServer.save_playlist a m)
      else unknown m
  | [a; b] =>
      if named "addid" then numbered b m (fun p => answer (fun n => [field "Id" (dec n)]) (MpdServer.addid a (Some p) m))
      else if named "moveid" then numbered a m (fun n => numbered b m (fun p => done_ (MpdServer.moveid n p m)))
      else if named "find" then answer files (MpdServer.find_file b m)
      else if named "playlistdelete" then numbered b m (fun p => done_ (MpdServer.playlistdelete a p m))
      else unknown m
  | [a; b; c] =>
      if named "addtagid" then numbered a m (fun n => done_ (MpdServer.addtagid n b c m)) else unknown m
  | [a; b; c; d] =>
      if named "sticker" then
        answer (fun o => match o with Some v => [field "sticker" (d ++ lit "=" ++ v)] | None => [] end) (MpdServer.sticker_get c d m)
      else unknown m
  | _ => unknown m
  end.

(** A peer that carries out what it reads and answers at once. *)
Definition serving {M} (execute : str -> list str -> M -> M * Answer) (bytes : list N) (m : M) : M * list Arrival * WriteOutcome :=
  match read_command bytes with
  | Some (cmd, args) =>
      let '(m', a) := execute cmd args m in (m', at_once (answer_lines a), Written)
  | None => (m, at_once (answer_lines (Refused 5 0 [] [])), Written)
  end.
#[export] Instance mem_peer : Peer MemPlayer := serving execute.

(** ** It hears what the connection says *)

Definition sayable (s : str) : Prop := Forall unicode s.
Definition command_word (s : str) : Prop := sayable s /\ 32 ∉ s /\ LF ∉ s.

Lemma take_command_word w rest : Forall (fun b => (b =? 32) || (b =? LF) = false) w ->
  (exists b, head rest = Some b /\ (b =? 32) || (b =? LF) = true) ->
  take_while (fun b => negb ((b =? 32) || (b =? LF))) (w ++ rest) = w.
Proof.
  intros Hw (b & Hh & Hb). induction Hw as [|c w Hc _ IH]; cbn [app take_while].
  - destruct rest as [|b' rest]; [done|]. injection Hh as ->. cbn [take_while]. by rewrite Hb.
  - rewrite Hc. cbn [negb]. by rewrite IH.
Qed.
Lemma encode_arguments_length args r : encode_arguments args = Ok r -> (length args <= length r)%nat.
Proof.
  revert r. induction args as [|arg args IH]; intros r; cbn [encode_arguments]; [by intros [= <-]|].
  destruct (encode_argument arg) as [a|]; [|done]. destruct (encode_arguments args) as [r'|] eqn:E; [|done].
  intros [= <-]. specialize (IH r' eq_refl). cbn [length]. rewrite length_app. lia.
Qed.
Lemma encode_arguments_head args r : encode_arguments args = Ok r -> exists b, head (r ++ [LF]) = Some b /\ (b =? 32) || (b =? LF) = true.
Proof.
  destruct args as [|arg args]; cbn [encode_arguments]; [intros [= <-]; by exists LF|].
  destruct (encode_argument arg); [|done]. destruct (encode_arguments args); [|done]. intros [= <-]. by exists 32.
Qed.

Lemma command_heard cmd args bytes : command_word cmd -> Forall sayable args -> serialise_command cmd args = Ok bytes ->
  read_command bytes = Some (cmd, args).
Proof.
  intros (Hu & Hs & Hl) Hargs. unfold serialise_command. destruct (check_chars cmd) as [u|]; [|done].
  destruct (encode_arguments args) as [r|] eqn:Er; [|done]. intros [= <-]. unfold read_command.
  rewrite (take_command_word (as_bytes cmd) (r ++ [LF])); [| |by eapply encode_arguments_head].
  2: { apply Forall_forall. intros b Hb. apply orb_false_iff. unfold as_bytes in Hb.
       apply elem_of_concat_map in Hb as (c & Hc & Hb). split; apply N.eqb_neq; intros ->;
       apply encode_utf8_low in Hb; try done; congruence. }
  rewrite drop_app_length, from_utf8_as_bytes by done. cbn [mbind option_bind].
  rewrite (arguments_read_back args r) by (try done; rewrite length_app; pose proof (encode_arguments_length args r Er); lia).
  cbn [mbind option_bind]. assert (Hm : mapM from_utf8 (map as_bytes args) = Some args).
  { clear Er. apply mapM_Some. apply Forall2_fmap_l. induction Hargs; constructor; [by apply from_utf8_as_bytes|done]. }
  by rewrite Hm.
Qed.

(** Where it can print the answer, such a peer does what it is told. *)
#[program] Definition serving_obedient {M} (execute : str -> list str -> M -> M * Answer) : @Obedient M (serving execute) 3000 := {|
  fit cmd args m := command_word cmd /\ Forall sayable args /\ answer_ok (execute cmd args m).2;
  reply := execute |}.
Next Obligation.
  intros M execute cmd args bytes m (Hc & Ha & Hok) Hs. unfold hear, serving. rewrite (command_heard cmd args bytes Hc Ha Hs).
  destruct (execute cmd args m) as [m' a]. exists (at_once (answer_lines a)). split; [done|]. split; [|done].
  unfold at_once, delivered. apply Forall2_fmap_r. apply Forall_Forall2_diag. by apply Forall_forall.
Qed.
#[export] Instance mem_obedient : Obedient MemPlayer 3000 := serving_obedient execute.

(** ** What it can print *)

Lemma pretty_N_go_length k n s : n < 10 ^ N.of_nat k -> (length (lit (pretty_N_go n s)) <= k + length (lit s))%nat.
Proof.
  revert n s. induction k as [|k IH]; intros n s Hn.
  - assert (n = 0) as -> by (cbn in Hn; lia). by rewrite pretty_N_go_0.
  - destruct (decide (0 < n)) as [Hp|Hp]; [|assert (n = 0) as -> by lia; rewrite pretty_N_go_0; lia].
    rewrite pretty_N_go_step by done. etransitivity; [apply IH|rewrite lit_cons; cbn [length]; lia].
    apply N.Div0.div_lt_upper_bound. rewrite Nat2N.inj_succ, N.pow_succ_r' in Hn. lia.
Qed.
Lemma dec_length n : n <= U32_MAX -> (length (dec n) <= 10)%nat.
Proof.
  intros Hn. unfold dec, pretty, pretty_N. case_decide; [apply (bool_decide_unpack _); vm_compute; exact I|].
  pose proof (pretty_N_go_length 10 n "") as Hl. specialize (Hl ltac:(unfold U32_MAX in Hn; change (10 ^ N.of_nat 10) with 10000000000; lia)).
  change (length (lit "")) with 0%nat in Hl. lia.
Qed.
Lemma digits_len s : Forall (fun c => is_ascii_digit c = true) s -> str_len s = N.of_nat (length s).
Proof.
  induction 1 as [|c s Hc _ IH]; [done|]. cbn [str_len foldr length]. unfold str_len in IH. rewrite IH.
  unfold is_ascii_digit, in_range in Hc. apply andb_prop in Hc as [H1%N.leb_le H2%N.leb_le].
  unfold utf8_width. rewrite (proj2 (N.ltb_lt c 128)) by lia. lia.
Qed.

(** A value that fits in a line after a short key. *)
Definition value_ok (v : str) : Prop := one_line v /\ str_len v <= 60000.
Definition short_key (k : str) : Prop :=
  k <> [] /\ LF ∉ k /\ 58 ∉ k /\ str_len k <= 1000 /\ forall v, starts_with (lit "ACK [") (k ++ lit ": " ++ v) = false.
Lemma value_speakable k v : short_key k -> value_ok v -> speakable {| key := k; value := v |}.
Proof.
  intros (Hk & Hlf & Hc & Hl & Ha) [Hv Hlen]. unfold speakable, field_line, sendable. cbn [key value]. split; [|done].
  split.
  - rewrite app_assoc. destruct v as [|c v].
    + rewrite app_nil_r. split; [|by rewrite last_snoc || rewrite last_app].
      rewrite elem_of_app. intros [?|H]; [done|]. by apply (bool_decide_unpack (LF ∈ lit ": ")) in H || (revert H; by apply (bool_decide_unpack _)).
    + apply one_line_app; [|done|done]. rewrite elem_of_app. intros [?|H]; [done|]. revert H. by apply (bool_decide_unpack _).
  - rewrite !str_len_app. change (str_len (lit ": ")) with 2. change (str_len [LF]) with 1. unfold LINE_MAX. lia.
Qed.
Lemma dec_value n : n <= U32_MAX -> value_ok (dec n).
Proof.
  intros Hn. split; [split; [by apply dec_not_elem|]|].
  - intros H. apply last_Some in H as [l H]. pose proof (dec_digits n) as Hd. rewrite H in Hd.
    apply Forall_app in Hd as [_ Hd]. inversion Hd; subst. done.
  - rewrite digits_len by apply dec_digits. pose proof (dec_length n Hn). lia.
Qed.

(** The player can print its state. *)
Record printable (m : MemPlayer) : Prop := {
  rows_printable : Forall (fun r => r.1 <= U32_MAX /\ value_ok r.2) (m_rows m);
  rows_few : N.of_nat (length (m_rows m)) <= U32_MAX;
  next_small : next_song (m_rows m) <= U32_MAX;
  song_small : bounded U32_MAX (song_position (m_status m));
  playlists_printable : forall n l, m_playlists m !! n = Some l -> value_ok n /\ Forall value_ok l /\ N.of_nat (length l) <= U32_MAX;
  library_printable : Forall value_ok (m_library m) }.

(** ** The commands of the interface *)

Inductive Call : Type -> Type :=
| CallStatus : Call MpdServer.MpdStatus
| CallPlaylistinfo : Call (list MpdServer.MpdQueueItem)
| CallStickerGet (uri name : str) : Call (option str)
| CallFindFile (uri : str) : Call (list str)
| CallCurrentSong : Call (option str)
| CallListplaylists : Call (list str)
| CallListplaylistinfo (name : str) : Call (list MpdServer.MpdPlaylistEntry)
| CallStop : Call unit
| CallClear : Call unit
| CallPlay : Call unit
| CallPlayPosition (pos : N) : Call unit
| CallPause (on : bool) : Call unit
| CallAddid (uri : str) (pos : option N) : Call N
| CallAddtagid (song : N) (tag value : str) : Call unit
| CallDeleteid (song : N) : Call unit
| CallMoveid (song to : N) : Call unit
| CallPlaylistdelete (name : str) (pos : N) : Call unit
| CallRm (name : str) : Call unit
| CallSave (name : str) : Call unit.

(** On the player itself. *)
Definition direct {A} (c : Call A) : MemPlayer -> MemPlayer * result A MpdError :=
  match c with
  | CallStatus => MpdServer.status
  | CallPlaylistinfo => MpdServer.playlistinfo
  | CallStickerGet u n => MpdServer.sticker_get u n
  | CallFindFile u => MpdServer.find_file u
  | CallCurrentSong => MpdServer.current_song
  | CallListplaylists => MpdServer.listplaylists
  | CallListplaylistinfo n => MpdServer.listplaylistinfo n
  | CallStop => MpdServer.stop
  | CallClear => MpdServer.clear
  | CallPlay => MpdServer.play
  | CallPlayPosition p => MpdServer.play_position p
  | CallPause b => MpdServer.pause b
  | CallAddid u p => MpdServer.addid u p
  | CallAddtagid n t v => MpdServer.addtagid n t v
  | CallDeleteid n => MpdServer.deleteid n
  | CallMoveid n p => MpdServer.moveid n p
  | CallPlaylistdelete n p => MpdServer.playlistdelete n p
  | CallRm n => MpdServer.rm_playlist n
  | CallSave n => MpdServer.save_playlist n
  end.

(** Through a connection, with the members that the interface has. *)
Definition status_of (s : MpdReplies.MpdStatus) : MpdServer.MpdStatus :=
  {| state := s_state s; song_position := s_song_position s |}.
Definition item_of (i : MpdReplies.MpdQueueItem) : MpdServer.MpdQueueItem :=
  {| id := q_id i; position := q_position i; file_path := t_file (q_tags i); title := t_title (q_tags i);
     artist := t_artist (q_tags i); album := t_album (q_tags i); duration := ms <$> t_duration (q_tags i);
     classical := t_classical (q_tags i) |}.
Definition entry_of (e : MpdReplies.MpdPlaylistEntry) : MpdServer.MpdPlaylistEntry :=
  {| entry_position := p_position e; entry_file := t_file (p_tags e) |}.
Definition file_of (e : MpdLibraryEntry) : option str := match e with File t _ => Some (t_file t) | _ => None end.
Definition vmap {P A B} (f : A -> B) (v : Link P -> Link P * Parse A) : Link P -> Link P * Parse B :=
  fun l => let '(l, r) := v l in (l, andthen r (fun a => pass (f a))).
Definition over_wire {A} (c : Call A) : Link MemPlayer -> Link MemPlayer * Parse A :=
  match c with
  | CallStatus => vmap status_of MpdLink.status
  | CallPlaylistinfo => vmap (map item_of) MpdLink.playlistinfo
  | CallStickerGet u n => MpdLink.sticker_get u n
  | CallFindFile u => vmap (omap file_of) (MpdLink.find FileField u)
  | CallCurrentSong => vmap (option_map (fun s => t_file (song_tags s))) MpdLink.current_song
  | CallListplaylists => vmap (map p_name) MpdLink.listplaylists
  | CallListplaylistinfo n => vmap (map entry_of) (MpdLink.listplaylistinfo n)
  | CallStop => MpdLink.stop
  | CallClear => MpdLink.clear
  | CallPlay => MpdLink.play
  | CallPlayPosition p => MpdLink.play_position p
  | CallPause b => MpdLink.pause b
  | CallAddid u p => MpdLink.addid u p
  | CallAddtagid n t v => MpdLink.addtagid n t v
  | CallDeleteid n => MpdLink.deleteid n
  | CallMoveid n p => MpdLink.moveid n p
  | CallPlaylistdelete n p => MpdLink.playlistdelete n p
  | CallRm n => MpdLink.rm_playlist n
  | CallSave n => MpdLink.save_playlist n
  end.

(** Arguments that can be said. *)
Definition says (s : str) : Prop := sayable s /\ Forall (fun c => forbidden c = false) s.
Definition callable {A} (c : Call A) : Prop :=
  match c with
  | CallStickerGet u n => says u /\ says n
  | CallFindFile u | CallListplaylistinfo u | CallRm u | CallSave u => says u
  | CallPlayPosition p | CallDeleteid p => p <= U32_MAX
  | CallAddid u p => says u /\ bounded U32_MAX p
  | CallAddtagid n t v => n <= U32_MAX /\ says t /\ says v
  | CallMoveid n p => n <= U32_MAX /\ p <= U32_MAX
  | CallPlaylistdelete n p => says n /\ p <= U32_MAX
  | _ => True
  end.

Lemma digits_said s : Forall (fun c => is_ascii_digit c = true) s -> says s.
Proof.
  intros H. split; (eapply Forall_impl; [exact H|]); intros c Hc;
    unfold is_ascii_digit, in_range in Hc; apply andb_prop in Hc as [H1%N.leb_le H2%N.leb_le].
  - left. lia.
  - unfold forbidden, LF, CR, NUL. by rewrite !(proj2 (N.eqb_neq c _)) by lia.
Qed.
Lemma dec_said n : says (dec n).
Proof. apply digits_said, dec_digits. Qed.
Lemma said_decide s : bool_decide (Forall (fun c => c < 128 /\ forbidden c = false) s) = true -> says s.
Proof.
  intros H%bool_decide_eq_true. split; (eapply Forall_impl; [exact H|]); cbn; intros c [Hc Hf]; [|done]. left. lia.
Qed.

(** A call on a player that can print the answer. *)
Lemma wire_call {A} cmd args (k : list Field -> Parse A) (l : Link MemPlayer) :
  at_rest 3000 l -> bool_decide (Forall (fun c => c < 128 /\ c <> 32 /\ forbidden c = false) (lit cmd)) = true ->
  Forall says args -> answer_ok (execute (lit cmd) args (peer l)).2 ->
  exists now, call cmd args k l = (moved (execute (lit cmd) args (peer l)).1 now l,
                                   andthen (lift (answer_result (execute (lit cmd) args (peer l)).2)) k).
Proof.
  intros Hl Hc%bool_decide_eq_true Hargs Hok. rewrite Forall_forall in Hc.
  pose proof (serialise_command_total (lit cmd) args) as Ht.
  destruct (serialise_command (lit cmd) args) as [bytes|e] eqn:Es.
  - destruct (call_obeyed (P := MemPlayer) 3000 cmd args bytes k l Hl Es) as [now E]; [|by exists now].
    split; [|split; [|done]].
    + split; [apply Forall_forall; intros c H; left; destruct (Hc c H); lia|].
      split; intros H; destruct (Hc _ H) as (_ & H32 & Hf); done.
    + eapply Forall_impl; [exact Hargs|]. by intros s [Hs _].
  - exfalso. destruct Ht as (ch & s & _ & Hs & Hch & Hf). apply elem_of_cons in Hs as [->|Hs].
    + destruct (Hc ch Hch) as (_ & _ & Hf'). congruence.
    + rewrite Forall_forall in Hargs. destruct (Hargs s Hs) as [_ Hs']. rewrite Forall_forall in Hs'.
      specialize (Hs' ch Hch). congruence.
Qed.

(** An outcome of the player in memory: carried out, or one of its refusals. *)
Definition settled {A} (r : result A MpdError) : Prop :=
  match r with Ok _ => True | Err e => exists code, code ∈ [2; 50; 56] /\ e = refusal code end.
Lemma refusal_ok code : code ∈ [2; 50; 56] -> answer_ok (Refused code 0 [] []).
Proof.
  intros H. repeat (apply elem_of_cons in H as [->|H]; [split; [done|]; split; [done|]; split; [apply not_elem_of_nil|];
    apply (bool_decide_unpack _); vm_compute; exact I|]). by apply elem_of_nil in H.
Qed.
Lemma answered {A} (print : A -> list Field) (o : MemPlayer * result A MpdError) :
  settled o.2 -> (forall a, o.2 = Ok a -> Forall speakable (print a)) ->
  answer_ok (answer print o).2 /\ answer_result (answer print o).2 = (let? a := o.2 in Ok (print a)).
Proof.
  destruct o as [m [a|e]]; cbn; [intros _ H; split; [by apply H|done]|].
  intros (code & Hc & ->) _. split; [by apply refusal_ok|done].
Qed.

(** A command whose answer is printed and parsed back. *)
Lemma wire_printed {A B} cmd args (k : list Field -> Parse B) (f : A -> B) print (o : MemPlayer * result A MpdError) (l : Link MemPlayer) :
  at_rest 3000 l -> bool_decide (Forall (fun c => c < 128 /\ c <> 32 /\ forbidden c = false) (lit cmd)) = true ->
  Forall says args -> execute (lit cmd) args (peer l) = answer print o -> settled o.2 ->
  (forall a, o.2 = Ok a -> Forall speakable (print a) /\ k (print a) = pass (f a)) ->
  exists now, call cmd args k l = (moved o.1 now l, Some (let? a := o.2 in Ok (f a))).
Proof.
  intros Hl Hc Hargs He Hs Hk. destruct (answered print o Hs (fun a Ha => proj1 (Hk a Ha))) as [Hok Hr].
  destruct (wire_call cmd args k l Hl Hc Hargs) as [now E]; [by rewrite He|].
  exists now. rewrite E, He, Hr. f_equal. destruct o as [m [a|e]]; cbn [fst snd lift andthen]; [|done].
  by destruct (Hk a eq_refl) as [_ ->].
Qed.
Lemma wire_simple cmd args (o : MemPlayer * result unit MpdError) (l : Link MemPlayer) :
  at_rest 3000 l -> bool_decide (Forall (fun c => c < 128 /\ c <> 32 /\ forbidden c = false) (lit cmd)) = true ->
  Forall says args -> execute (lit cmd) args (peer l) = done_ o -> settled o.2 ->
  exists now, simple cmd args l = (moved o.1 now l, Some o.2).
Proof.
  intros Hl Hc Hargs He Hs.
  destruct (wire_printed cmd args (fun _ => pass tt) (fun a => a) (fun _ => []) o l Hl Hc Hargs He Hs) as [now E].
  { intros [] _. by split. }
  exists now. unfold simple. rewrite E. by destruct o as [m [[]|e]].
Qed.

Lemma short_key_intro c s : c <> 65 -> bool_decide (LF ∉ c :: s /\ 58 ∉ c :: s /\ str_len (c :: s) <= 1000) = true -> short_key (c :: s).
Proof.
  intros Hc (H1 & H2 & H3)%bool_decide_eq_true. split_and!; try done. intros v. unfold starts_with. cbn [app strip_prefix lit].
  change (lit "ACK [") with [65; 67; 75; 32; 91]. cbn [strip_prefix]. by rewrite (proj2 (N.eqb_neq 65 c)).
Qed.
Lemma field_speakable (k : string) v c s : lit k = c :: s -> c <> 65 ->
  bool_decide (LF ∉ c :: s /\ 58 ∉ c :: s /\ str_len (c :: s) <= 1000) = true -> value_ok v -> speakable (field k v).
Proof. intros E Hc Hd Hv. unfold field. rewrite E. apply value_speakable; [by apply short_key_intro|done]. Qed.
Ltac speak := eapply field_speakable; [reflexivity|done|reflexivity|].

(** ** Answers read back *)

Lemma concat_singletons {A B} (g : A -> B) l : concat (map (fun a => [g a]) l) = map g l.
Proof. induction l as [|a l IH]; [done|]. cbn. by rewrite IH. Qed.

Definition wire_item (i : nat) (r : Row) : MpdReplies.MpdQueueItem :=
  {| q_id := r.1; q_position := N.of_nat i; q_tags := fresh r.2 |}.
Lemma items_read rows : Forall (fun r => r.1 <= U32_MAX) rows -> N.of_nat (length rows) <= U32_MAX ->
  andthen (parsed parse_queue_items (print_items (MpdServer.listing rows))) (fun q => pass (map item_of q)) =
    pass (MpdServer.listing rows).
Proof.
  intros Hr Hlen.
  assert (Hp : print_items (MpdServer.listing rows) = concat (map queue_fields (imap wire_item rows))).
  { unfold print_items, MpdServer.listing. by rewrite !fmap_imap. }
  unfold parsed. rewrite Hp, queue_items_roundtrip.
  - cbn [option_map andthen]. do 2 f_equal. unfold MpdServer.listing. by rewrite fmap_imap.
  - apply Forall_lookup. intros i q. rewrite list_lookup_imap. destruct (rows !! i) as [r|] eqn:E; [|done].
    cbn. intros [= <-]. split; [by eapply (Forall_lookup_1 _ _ _ _ Hr) in E|].
    apply lookup_lt_Some in E. cbn. split; [lia|]. split; [|by intros d].
    repeat split; by intros ?.
Qed.

Lemma entries_read fs : N.of_nat (length fs) <= U32_MAX ->
  let es := imap (fun i f => {| entry_position := N.of_nat i; entry_file := f |}) fs in
  andthen (parsed parse_playlist_entries (files (map entry_file es))) (fun q => pass (map entry_of q)) = pass es.
Proof.
  intros Hlen es. set (ws := imap (fun i f => {| p_position := N.of_nat i; p_tags := fresh f |}) fs).
  assert (Hp : files (map entry_file es) = concat (map playlist_fields ws)).
  { unfold files, es. rewrite !fmap_imap.
    rewrite (map_ext_in playlist_fields (fun e => [field "file" (t_file (p_tags e))])).
    - rewrite concat_singletons. unfold ws. by rewrite fmap_imap.
    - intros e He. apply list_elem_of_In in He. unfold ws in He. apply elem_of_lookup_imap in He as (i & f & -> & _). done. }
  unfold parsed. rewrite Hp, playlist_entries_roundtrip.
  - cbn [option_map andthen]. do 2 f_equal. unfold ws, es. by rewrite fmap_imap.
  - apply Forall_forall. intros e (i & f & -> & _)%elem_of_lookup_imap. split; [repeat split; by intros ?|by intros d].
  - intros i e. unfold ws. rewrite list_lookup_imap. destruct (fs !! i); [|done]. by intros [= <-].
  - unfold ws. by rewrite length_imap.
Qed.

Lemma names_read ns : andthen (parsed parse_playlist_summaries (map (field "playlist") ns)) (fun q => pass (map p_name q)) = pass ns.
Proof.
  set (mk n := {| p_name := n; p_last_modified := None |}). set (print s := [field "playlist" (p_name s)]).
  assert (Hp : map (field "playlist") ns = concat (map print (map mk ns))).
  { rewrite (concat_singletons (fun s => field "playlist" (p_name s))). by rewrite map_map. }
  unfold parsed, parse_playlist_summaries. rewrite Hp, listing_printed_all.
  - cbn [option_map andthen]. rewrite map_map. cbn. by rewrite map_id.
  - apply Forall_forall. intros s Hs n. apply list_elem_of_fmap in Hs as (x & -> & _).
    exists (field "playlist" x), [], (mk x), (mk x). split; [done|]. split; [done|]. split; [constructor|done].
Qed.

Lemma files_read fs : andthen (parsed parse_library_entries (files fs)) (fun q => pass (omap file_of q)) = pass fs.
Proof.
  set (mk f := File (fresh f) None).
  assert (Hp : files fs = concat (map library_fields (map mk fs))).
  { unfold files. rewrite map_map. by rewrite <-(concat_singletons (field "file")). }
  unfold parsed. rewrite Hp, library_entries_roundtrip.
  - cbn [option_map andthen]. do 2 f_equal. clear Hp. induction fs as [|f fs IH]; [done|]. cbn. f_equal. exact IH.
  - apply Forall_forall. intros e (f & -> & _)%list_elem_of_fmap. split; [repeat split; by intros ?|by intros d].
Qed.

Lemma status_read s : bounded U32_MAX (song_position s) ->
  andthen (parse_status (print_status s)) (fun q => pass (status_of q)) = pass s.
Proof.
  destruct s as [st [n|]]; intros Hn; [|by destruct st].
  cbn [song_position] in Hn. specialize (Hn n eq_refl). pose proof (u32_printed (lit "song") n Hn) as Hu.
  unfold parse_status, print_status. cbn [song_position option_map opt_field state].
  rewrite (over_cons status_field _ _ _ (true, set_state st no_status)) by by destruct st.
  rewrite (over_cons status_field _ _ _ (true, set_song (Some n) (set_state st no_status))); [by destruct st|].
  unfold status_field, field. cbn [key value]. change (bool_decide (lit "song" = lit "state")) with false.
  change (bool_decide (lit "song" = lit "song")) with true. cbn iota. by rewrite Hu.
Qed.
Lemma added_read n : n <= U32_MAX -> added_id [field "Id" (dec n)] = pass n.
Proof.
  intros Hn. unfold added_id. change (first "Id" [field "Id" (dec n)]) with (Some (dec n)). cbn iota beta.
  by rewrite u32_printed.
Qed.

(** ** The player through the wire *)

Lemma wire_read {A B} cmd args (k : list Field -> Parse B) (f : B -> A) print (o : MemPlayer * result A MpdError) (l : Link MemPlayer) :
  at_rest 3000 l -> bool_decide (Forall (fun c => c < 128 /\ c <> 32 /\ forbidden c = false) (lit cmd)) = true ->
  Forall says args -> execute (lit cmd) args (peer l) = answer print o -> settled o.2 ->
  (forall a, o.2 = Ok a -> Forall speakable (print a) /\ andthen (k (print a)) (fun b => pass (f b)) = pass a) ->
  exists now, vmap f (call cmd args k) l = (moved o.1 now l, Some o.2).
Proof.
  intros Hl Hc Hargs He Hs Hk.
  destruct (wire_printed cmd args (fun fs => andthen (k fs) (fun b => pass (f b))) (fun a => a) print o l Hl Hc Hargs He Hs Hk)
    as [now E].
  exists now. revert E. unfold vmap, call. destruct (dispatch _ _ _) as [l' [fs|e]]; cbn [lift andthen].
  - intros ->. by destruct o as [m []].
  - intros ->. by destruct o as [m []].
Qed.

Lemma files_speakable fs : Forall value_ok fs -> Forall speakable (files fs).
Proof. intros H. apply Forall_fmap. eapply Forall_impl; [exact H|]. intros f Hf. by speak. Qed.
Lemma status_speakable s : bounded U32_MAX (song_position s) -> Forall speakable (print_status s).
Proof.
  intros Hb. unfold print_status. constructor.
  - speak. destruct (state s); (split; [|by apply N.leb_le]); apply (bool_decide_unpack _); vm_compute; exact I.
  - destruct (song_position s) as [n|]; [|constructor]. apply list.Forall_singleton. speak. apply dec_value. by apply Hb.
Qed.
Lemma items_speakable m : printable m -> Forall speakable (print_items (MpdServer.listing (m_rows m))).
Proof.
  intros Hm. apply Forall_concat. apply Forall_fmap. apply Forall_lookup. intros i q. unfold MpdServer.listing.
  rewrite list_lookup_imap. destruct (m_rows m !! i) as [r|] eqn:E; [|done]. intros [= <-].
  destruct (Forall_lookup_1 _ _ _ _ (rows_printable m Hm) E) as [Hid Hf]. apply lookup_lt_Some in E.
  pose proof (rows_few m Hm). cbn [compose id position file_path].
  rewrite !list.Forall_cons. split; [by speak|]. split; [speak; apply dec_value; cbn; lia|]. split; [|constructor].
  speak. by apply dec_value.
Qed.

Lemma entry_files fs : map entry_file (imap (fun i f => {| entry_position := N.of_nat i; entry_file := f |}) fs) = fs.
Proof. rewrite fmap_imap. apply list_eq. intros i. rewrite list_lookup_imap. by destruct (fs !! i). Qed.
Ltac said := cbn [map app]; rewrite ?list.Forall_cons; split_and?; try apply list.Forall_nil_2; try apply dec_said; try (apply said_decide; reflexivity); try tauto.

Lemma numbered_said n m k : n <= U32_MAX -> numbered (dec n) m k = k n.
Proof. intros Hn. unfold numbered, parse_u32. by rewrite parse_uint_dec. Qed.
Ltac settle := cbn; repeat case_match; try done; eexists; (split; [|reflexivity]); apply (bool_decide_unpack _); vm_compute; exact I.
Lemma wire_added u p (l : Link MemPlayer) : at_rest 3000 l -> printable (peer l) -> says u -> bounded U32_MAX p ->
  exists now, MpdLink.addid u p l = (moved (MpdServer.addid u p (peer l)).1 now l, Some (MpdServer.addid u p (peer l)).2).
Proof.
  intros Hl Hm Hu Hp. unfold MpdLink.addid.
  destruct (wire_printed "addid" (match p with Some p => [u; dec p] | None => [u] end) added_id (fun n => n) (fun n => [field "Id" (dec n)])
    (MpdServer.addid u p (peer l)) l) as [now E]; [done|reflexivity|destruct p; said| | | |].
  - destruct p as [p|]; [|reflexivity]. apply numbered_said. by apply Hp.
  - settle.
  - intros n Ha. assert (Hn : n <= U32_MAX).
    { revert Ha. cbn. repeat case_match; cbn; try done. intros [= <-]. apply (next_small _ Hm). }
    split; [|by apply added_read]. apply list.Forall_singleton. speak. by apply dec_value.
  - exists now. rewrite E. by destruct (MpdServer.addid u p (peer l)) as [m []].
Qed.


(** ** A player on the wire *)

Definition quoted_song : str := lit "a " ++ 34 :: lit "b.flac".
Definition shelf : MemPlayer :=
  {| m_rows := [(1, lit "one.flac"); (2, lit "two.flac")]; m_status := {| state := Playing; song_position := Some 1 |};
     m_library := [lit "one.flac"; lit "two.flac"; quoted_song]; m_playlists := {[ lit "mix" := [lit "one.flac"] ]};
     m_log := [] |}.
Lemma one_line_value v : bool_decide (one_line v /\ str_len v <= 60000) = true -> value_ok v.
Proof. apply bool_decide_eq_true_1. Qed.
Lemma shelf_printable : printable shelf.
Proof.
  split; cbn [shelf m_rows m_status m_library m_playlists song_position].
  - repeat (apply list.Forall_cons; split); [..|by constructor]; (split; [done|by apply one_line_value]).
  - done.
  - done.
  - by intros n [= <-].
  - intros n l [<- <-]%lookup_singleton_Some. split; [by apply one_line_value|]. split; [|done].
    apply list.Forall_singleton. by apply one_line_value.
  - repeat (apply list.Forall_cons; split); [..|by constructor]; by apply one_line_value.
Qed.


(** A song is added, a position that is out of range is refused, a command with a line feed
    is not sent, and the next one still gets its own answer. *)
Definition talk : list (str * list str) :=
  [(lit "addid", [lit "two.flac"]); (lit "play", [lit "9"]); (lit "rm", [[LF]]); (lit "currentsong", [])].
Lemma word_decide s : bool_decide (Forall (fun c => c < 128) s /\ 32 ∉ s /\ LF ∉ s) = true -> command_word s.
Proof. intros (H & H1 & H2)%bool_decide_eq_true. split; [|done]. eapply Forall_impl; [exact H|]. intros c Hc. left. cbn in Hc. lia. Qed.
Lemma says_sayable s : bool_decide (Forall (fun c => c < 128 /\ forbidden c = false) s) = true -> sayable s.
Proof. intros H. by destruct (said_decide s H). Qed.
Lemma fits_sent cmd args bytes cmds (m : MemPlayer) : serialise_command cmd args = Ok bytes ->
  command_word cmd /\ Forall sayable args /\ answer_ok (execute cmd args m).2 -> fits 3000 cmds (execute cmd args m).1 ->
  fits 3000 ((cmd, args) :: cmds) m.
Proof. intros E Hf Hr. cbn [fits]. by rewrite E. Qed.
Lemma fits_unsent cmd args e cmds (m : MemPlayer) : serialise_command cmd args = Err e -> fits 3000 cmds m ->
  fits 3000 ((cmd, args) :: cmds) m.
Proof. intros E Hr. cbn [fits]. by rewrite E. Qed.
Lemma id_speakable n : n <= U32_MAX -> speakable (field "Id" (dec n)).
Proof. intros Hn. speak. by apply dec_value. Qed.
Lemma talk_fits : fits 3000 talk shelf.
Proof.
  eapply fits_sent; [reflexivity| |].
  { split; [by apply word_decide|]. split; [apply list.Forall_singleton; by apply says_sayable|].
    apply list.Forall_singleton. by apply id_speakable. }
  eapply fits_sent; [reflexivity| |].
  { split; [by apply word_decide|]. split; [apply list.Forall_singleton; by apply says_sayable|]. by apply (refusal_ok 2), (bool_decide_unpack _). }
  eapply fits_unsent; [reflexivity|].
  eapply fits_sent; [reflexivity| |exact I].
  split; [by apply word_decide|]. split; [constructor|]. apply files_speakable, list.Forall_singleton. by apply one_line_value.
Qed.

(** ** The status of any player *)

Lemma ascii_value v : Forall (fun c => 32 <= c < 128) v -> (length v <= 1000)%nat -> value_ok v.
Proof.
  intros Hv Hl. assert (Hlen : str_len v = N.of_nat (length v)).
  { clear Hl. induction Hv as [|c v [_ Hc] _ IH]; [done|]. cbn [str_len foldr length]. unfold str_len in IH. rewrite IH.
    unfold utf8_width. rewrite (proj2 (N.ltb_lt c 128)) by done. lia. }
  rewrite Forall_forall in Hv. split; [split|lia].
  - intros H. apply Hv in H. unfold LF in H. lia.
  - intros H. apply last_Some in H as [l ->]. destruct (Hv CR) as [H _]; [rewrite elem_of_app; right; by apply list_elem_of_singleton|done].
Qed.
Lemma digits_ascii s : Forall (fun c => is_ascii_digit c = true) s -> Forall (fun c => 32 <= c < 128) s.
Proof.
  intros H. eapply Forall_impl; [exact H|]. intros c Hc. unfold is_ascii_digit, in_range in Hc.
  apply andb_prop in Hc as [H1%N.leb_le H2%N.leb_le]. lia.
Qed.
Lemma thousandths_value n : n < 2 ^ 22 * 1000 -> value_ok (thousandths n).
Proof.
  intros Hn. change (2 ^ 22 * 1000) with 4194304000 in Hn. change U32_MAX with 4294967295 in *.
  assert (H1 : n / 1000 <= U32_MAX) by (apply N.Div0.div_le_upper_bound; change U32_MAX with 4294967295; nia).
  assert (H2 : n mod 1000 <= U32_MAX) by (pose proof (N.mod_lt n 1000); change U32_MAX with 4294967295; lia).
  unfold thousandths, pad3. apply ascii_value.
  - rewrite !Forall_app. split_and!; try apply digits_ascii, dec_digits; [by apply list.Forall_singleton|].
    apply Forall_replicate. done.
  - rewrite !length_app, length_replicate. pose proof (dec_length _ H1). pose proof (dec_length _ H2).
    change (length (lit ".")) with 1%nat. lia.
Qed.
Lemma printed_status_speakable s : status_ok_to_print s -> Forall speakable (status_fields s).
Proof.
  intros (Hv & Hp & He & Hd & Hx & Hu). unfold status_fields.
  assert (Hnum : forall k mx (o : option N) c r, mx <= U32_MAX -> bounded mx o -> lit k = c :: r -> c <> 65 ->
    bool_decide (LF ∉ c :: r /\ 58 ∉ c :: r /\ str_len (c :: r) <= 1000) = true -> Forall speakable (opt_field (lit k) (option_map dec o))).
  { intros k mx o c r Hmx Ho Ek Hc Hk. destruct o as [n|]; [|constructor]. apply list.Forall_singleton.
    eapply (field_speakable k); [exact Ek|done|done|]. apply dec_value. specialize (Ho n eq_refl). lia. }
  assert (Htime : forall k (o : option N) c r, timed o -> lit k = c :: r -> c <> 65 ->
    bool_decide (LF ∉ c :: r /\ 58 ∉ c :: r /\ str_len (c :: r) <= 1000) = true -> Forall speakable (timed_field (lit k) o)).
  { intros k o c r Ho Ek Hc Hk. destruct o as [d|]; [|constructor]. apply list.Forall_singleton.
    destruct (Ho d eq_refl) as (t & -> & Ht). rewrite ms_millis.
    eapply (field_speakable k); [exact Ek|done|done|]. by apply thousandths_value. }
  assert (Hflag : forall b, value_ok (flag b)) by (intros []; by apply one_line_value).
  rewrite !Forall_app, !list.Forall_cons. split_and!; try apply list.Forall_nil_2; try (speak; apply Hflag).
  - by eapply (Hnum "volume"%string 100).
  - speak. by apply dec_value.
  - speak. destruct (s_state s); by apply one_line_value.
  - by eapply (Hnum "song"%string U32_MAX).
  - by eapply (Htime "elapsed"%string).
  - by eapply (Htime "duration"%string).
  - by eapply (Hnum "updating_db"%string U32_MAX).
Qed.

(** C17: A player that answers with its status, line by line and each line in time, is known by
    the connection to be in that status; its modes, its volume and its times to the
    millisecond included. *)
Theorem status_over_the_wire {P} `{Peer P} t s bytes p' arrs (l : Link P) :
  status_ok_to_print s -> at_rest t l -> serialise_command (lit "status") [] = Ok bytes ->
  hear bytes (peer l) = (p', arrs, Written) -> delivered t (answer_lines (Fields (status_fields s))) arrs ->
  MpdLink.status l = (moved p' (clock l + total_time arrs) l, Some (Ok s)).
Proof.
  intros Hs Hl Hb Hh Hd. unfold MpdLink.status, call.
  rewrite (dispatch_answered t (lit "status") [] bytes p' arrs (Fields (status_fields s)) l); [|done..|by apply printed_status_speakable].
  cbn [answer_result lift andthen]. by rewrite status_roundtrip.
Qed.

Lemma status_over_the_wire_witness :
  let s := {| s_state := Paused; s_song_position := Some 7; s_elapsed := Some (61500 * 10 ^ 6); s_duration := Some (240123 * 10 ^ 6);
              s_volume := Some 85; s_repeat := true; s_random := false; s_single := true; s_consume := false;
              s_crossfade_seconds := 5; s_updating_db := Some 12 |} in
  let arrs := at_once (answer_lines (Fields (status_fields s))) in
  let l := fresh_link [(arrs, Written)] in
  status_ok_to_print s /\ MpdLink.status l = (moved [] (clock l + total_time arrs) l, Some (Ok s)).
Proof.
  intros s arrs l. assert (H : status_ok_to_print s).
  { split_and!; try (intros n [= <-]; done); [| |done].
    - intros d [= <-]. by exists 61500.
    - intros d [= <-]. by exists 240123. }
  split; [exact H|]. eapply (status_over_the_wire 3000 s); [exact H|done|reflexivity|reflexivity|].
  unfold arrs, at_once, delivered. apply Forall2_fmap_r, Forall_Forall2_diag. by apply Forall_forall.
Defined.
