(* ===== verification/PlaybackReport.v ===== *)
(** * State reports ([plugins/org.evoframework.playback.mpd],
    [playback_supervisor/report.rs])

    What the supervisor tells its custodian: the state of the player as a TOML document,
    with its strings cut at 256 bytes.  A reader of such documents turns a report back into
    its entries. *)

From stdpp Require Import list.
From S2P Require Import Prelude MpdProtocol MpdServer Durations MpdReplies.
Local Open Scope N_scope.

(** ** Data *)

Definition MAX_STRING_BYTES : N := 256.
(** [CurrentSongReport], [PlaybackStateReport] *)
Record CurrentSongReport := {
  c_file_path : str; c_title : option str; c_artist : option str; c_album : option str;
  c_duration_ms : option N; c_classical : ClassicalTags }.
Record PlaybackStateReport := {
  r_state : PlayState; r_song_position : option N; r_elapsed_ms : option N; r_duration_ms : option N;
  r_volume : option N; r_muted : bool; r_repeat : bool; r_shuffle : bool; r_single : bool; r_consume : bool;
  r_current_song : option CurrentSongReport }.

(** [duration_to_millis_u64] *)
Definition duration_to_millis_u64 (d : N) : N := N.min (d / 10 ^ 6) U64_MAX.
Definition from_mpd_song (s : MpdSong) : CurrentSongReport :=
  let t := song_tags s in
  {| c_file_path := t_file t; c_title := t_title t; c_artist := t_artist t; c_album := t_album t;
     c_duration_ms := option_map duration_to_millis_u64 (t_duration t); c_classical := t_classical t |}.
Definition from_mpd (status : MpdReplies.MpdStatus) (song : option MpdSong) (muted : bool) : PlaybackStateReport :=
  {| r_state := s_state status; r_song_position := s_song_position status;
     r_elapsed_ms := option_map duration_to_millis_u64 (s_elapsed status);
     r_duration_ms := option_map duration_to_millis_u64 (s_duration status);
     r_volume := s_volume status; r_muted := muted; r_repeat := s_repeat status; r_shuffle := s_random status;
     r_single := s_single status; r_consume := s_consume status; r_current_song := option_map from_mpd_song song |}.

(** ** Text *)

Definition play_state_wire_name (s : PlayState) : str :=
  match s with Playing => lit "playing" | Paused => lit "paused" | Stopped => lit "stopped" end.

(** [truncate_to_byte_len]: down from the limit to the last boundary of a character. *)
Definition is_char_boundary (s : str) (n : nat) : bool := match slice_to (N.of_nat n) s with Some _ => true | None => false end.
Fixpoint boundary_below (s : str) (n : nat) : nat :=
  match n with
  | O => O
  | S n' => if is_char_boundary s n then n else boundary_below s n'
  end.
Definition truncate_to_byte_len (s : str) (max_bytes : N) : str :=
  if str_len s <=? max_bytes then s
  else
    let cut := boundary_below s (N.to_nat (N.min (max_bytes - 3) (str_len s))) in
    default [] (slice_to (N.of_nat cut) s) ++ lit "...".

(** [quote_toml_string] *)
Definition upper_digit (d : N) : char := if d <? 10 then 48 + d else 55 + d.
Definition escape_char (c : char) : str :=
  if c =? 34 then [92; 34]
  else if c =? 92 then [92; 92]
  else if c =? 10 then lit "\n"
  else if c =? 13 then lit "\r"
  else if c =? 9 then lit "\t"
  else if c =? 8 then lit "\b"
  else if c =? 12 then lit "\f"
  else if c <? 32 then lit "\u00" ++ [upper_digit (c / 16); upper_digit (c mod 16)]
  else [c].
Definition quote_toml_string (s : str) : str := [34] ++ concat (map escape_char s) ++ [34].

(** [serialise] *)
Definition text_line (k : string) (v : str) : str := lit k ++ lit " = " ++ quote_toml_string v ++ [LF].
Definition number_line (k : string) (n : N) : str := lit k ++ lit " = " ++ dec n ++ [LF].
Definition given {A} (line : A -> str) (o : option A) : str := match o with Some a => line a | None => [] end.
Definition cut (s : str) : str := truncate_to_byte_len s MAX_STRING_BYTES.
Definition serialise (r : PlaybackStateReport) : str :=
  text_line "state" (play_state_wire_name (r_state r)) ++
  given (number_line "song_position") (r_song_position r) ++
  given (number_line "elapsed_ms") (r_elapsed_ms r) ++
  given (number_line "duration_ms") (r_duration_ms r) ++
  given (number_line "volume") (r_volume r) ++
  match r_current_song r with
  | None => []
  | Some s =>
      [LF] ++ lit "[current_song]" ++ [LF] ++
      text_line "file_path" (cut (c_file_path s)) ++
      given (fun t => text_line "title" (cut t)) (c_title s) ++
      given (fun t => text_line "artist" (cut t)) (c_artist s) ++
      given (fun t => text_line "album" (cut t)) (c_album s) ++
      given (number_line "duration_ms") (c_duration_ms s)
  end.

(** ** Cutting *)

Lemma slice_to_prefix n s p : slice_to n s = Some p -> exists q, s = p ++ q /\ str_len p = n.
Proof.
  revert n p. induction s as [|c s IH]; intros n p; cbn [slice_to].
  - destruct (N.eqb_spec n 0) as [->|]; [|done]. intros [= <-]. by exists [].
  - destruct (N.eqb_spec n 0) as [->|Hn]; [intros [= <-]; by exists (c :: s)|].
    destruct (N.leb_spec (utf8_width c) n); [|done]. destruct (slice_to _ s) as [p'|] eqn:E; [|done]. intros [= <-].
    apply IH in E as (q & -> & Hl). exists q. split; [done|]. cbn [str_len foldr]. unfold str_len in Hl. rewrite Hl. lia.
Qed.
Lemma slice_to_app p q : slice_to (str_len p) (p ++ q) = Some p.
Proof.
  induction p as [|c p IH]; [by destruct q|]. cbn [str_len foldr app slice_to]. fold (str_len p).
  assert (Hw : 1 <= utf8_width c) by (unfold utf8_width; repeat case_match; lia).
  destruct (N.eqb_spec (utf8_width c + str_len p) 0); [lia|]. rewrite (proj2 (N.leb_le _ _)) by lia.
  replace (utf8_width c + str_len p - utf8_width c) with (str_len p) by lia. by rewrite IH.
Qed.
Lemma boundary_below_spec s n : exists p, slice_to (N.of_nat (boundary_below s n)) s = Some p /\ (boundary_below s n <= n)%nat /\
  forall m, (boundary_below s n < m <= n)%nat -> slice_to (N.of_nat m) s = None.
Proof.
  induction n as [|n (p & Hp & Hle & Hno)]; [exists []; split; [by destruct s|]; split; [done|lia]|]. cbn [boundary_below].
  unfold is_char_boundary. destruct (slice_to (N.of_nat (S n)) s) as [p'|] eqn:E.
  - exists p'. split; [done|]. split; [done|]. lia.
  - exists p. split; [done|]. split; [lia|]. intros m Hm. destruct (decide (m = S n)) as [->|]; [done|]. apply Hno. lia.
Qed.

(** A text that fits is kept; another is cut at a boundary of its characters, as far as it
    fits with the mark of the cut. *)
Lemma truncate_correct s m : 3 <= m ->
  str_len (truncate_to_byte_len s m) <= m /\
  (str_len s <= m -> truncate_to_byte_len s m = s) /\
  (m < str_len s -> exists p c q, s = p ++ c :: q /\ truncate_to_byte_len s m = p ++ lit "..." /\ m < str_len (p ++ [c]) + 3).
Proof.
  intros Hm. unfold truncate_to_byte_len. destruct (N.leb_spec (str_len s) m) as [Hs|Hs]; [split_and!; [done|done|lia]|].
  set (limit := N.min (m - 3) (str_len s)).
  destruct (boundary_below_spec s (N.to_nat limit)) as (p & Hp & Hle & Hno). rewrite Hp. change (default [] (Some p)) with p.
  destruct (slice_to_prefix _ _ _ Hp) as (q & Hq & Hl). split; [|split; [lia|intros _]].
  - rewrite str_len_app, Hl. change (str_len (lit "...")) with 3. lia.
  - destruct q as [|c q]; [rewrite app_nil_r in Hq; subst; lia|]. exists p, c, q. split; [done|]. split; [done|].
    destruct (N.ltb_spec m (str_len (p ++ [c]) + 3)) as [|Hbig]; [done|]. exfalso.
    assert (Hn : slice_to (str_len (p ++ [c])) s = Some (p ++ [c])).
    { rewrite Hq. replace (p ++ c :: q) with ((p ++ [c]) ++ q) by by rewrite <-app_assoc. apply slice_to_app. }
    assert (Hw : 1 <= utf8_width c) by (unfold utf8_width; repeat case_match; lia).
    assert (Hlen : str_len (p ++ [c]) = str_len p + utf8_width c) by (rewrite str_len_app; cbn; lia).
    specialize (Hno (N.to_nat (str_len (p ++ [c])))). rewrite N2Nat.id, Hn in Hno.
    assert (str_len (p ++ [c]) <= str_len s) by (rewrite Hq, !str_len_app; cbn; lia).
    discriminate Hno. lia.
Qed.

(** ** Reading a report back *)

(** A basic string of TOML, after its opening quote: the text and what follows. *)
Definition hex_value (c : char) : option N :=
  if in_range 48 57 c then Some (c - 48) else if in_range 65 70 c then Some (c - 55)
  else if in_range 97 102 c then Some (c - 87) else None.
Definition scalar (ds : list char) : option char :=
  foldl (fun n d => n ← n; v ← hex_value d; Some (n * 16 + v)) (Some 0) ds.
Definition short_escape (c : char) : option char :=
  if c =? 34 then Some 34 else if c =? 92 then Some 92 else if c =? 110 then Some 10 else if c =? 114 then Some 13
  else if c =? 116 then Some 9 else if c =? 98 then Some 8 else if c =? 102 then Some 12 else None.
(** The characters that stand for themselves: not a control character other than the tab. *)
Definition plain (c : char) : bool := ((32 <=? c) || (c =? 9)) && negb (c =? 127).
Fixpoint read_basic (s : str) : option (str * str) :=
  match s with
  | [] => None
  | c :: s' =>
      if c =? 34 then Some ([], s')
      else if c =? 92 then
        match s' with
        | [] => None
        | e :: s1 =>
            if e =? 117 then
              match s1 with
              | a :: b :: d :: f :: s2 => u ← scalar [a; b; d; f]; p ← read_basic s2; Some (u :: p.1, p.2)
              | _ => None
              end
            else x ← short_escape e; p ← read_basic s1; Some (x :: p.1, p.2)
        end
      else if plain c then p ← read_basic s'; Some (c :: p.1, p.2)
      else None
  end.

Inductive Value := Int (n : N) | Basic (s : str).
Definition read_value (s : str) : option Value :=
  match s with
  | [] => None
  | c :: s' =>
      if c =? 34 then p ← read_basic s'; if bool_decide (p.2 = []) then Some (Basic p.1) else None
      else n ← parse_uint (2 ^ 63 - 1) s; Some (Int n)
  end.
(** The entries of a document with one level of tables. *)
Fixpoint read_lines (table : str) (ls : list str) : option (list (str * str * Value)) :=
  match ls with
  | [] => Some []
  | l :: ls' =>
      match l with
      | [] => read_lines table ls'
      | c :: l' =>
          if c =? 91 then name ← strip_suffix (lit "]") l'; read_lines name ls'
          else
            kv ← split_once (lit " = ") l;
            v ← read_value kv.2;
            rest ← read_lines table ls';
            Some ((table, kv.1, v) :: rest)
      end
  end.
Definition read_toml (s : str) : option (list (str * str * Value)) := read_lines [] (lines s).

(** What a report says. *)
Definition entry (t k : string) (v : Value) : str * str * Value := (lit t, lit k, v).
Definition opt_entry {A} (t k : string) (v : A -> Value) (o : option A) : list (str * str * Value) :=
  match o with Some a => [entry t k (v a)] | None => [] end.
Definition entries (r : PlaybackStateReport) : list (str * str * Value) :=
  [entry "" "state" (Basic (play_state_wire_name (r_state r)))] ++ opt_entry "" "song_position" Int (r_song_position r) ++
  opt_entry "" "elapsed_ms" Int (r_elapsed_ms r) ++ opt_entry "" "duration_ms" Int (r_duration_ms r) ++
  opt_entry "" "volume" Int (r_volume r) ++
  match r_current_song r with
  | None => []
  | Some s =>
      let t := "current_song"%string in
      [entry t "file_path" (Basic (cut (c_file_path s)))] ++ opt_entry t "title" (fun x => Basic (cut x)) (c_title s) ++
      opt_entry t "artist" (fun x => Basic (cut x)) (c_artist s) ++ opt_entry t "album" (fun x => Basic (cut x)) (c_album s) ++
      opt_entry t "duration_ms" Int (c_duration_ms s)
  end.

(** *** Strings *)

Lemma upper_digit_value d : d < 16 -> hex_value (upper_digit d) = Some d.
Proof.
  intros Hd. unfold upper_digit, hex_value, in_range. destruct (N.ltb_spec d 10).
  - rewrite (proj2 (N.leb_le _ _)), (proj2 (N.leb_le _ _)) by lia. cbn. f_equal. lia.
  - rewrite (proj2 (N.leb_gt (55 + d) 57)), andb_false_r by lia. rewrite !(proj2 (N.leb_le _ _)) by lia. cbn. f_equal. lia.
Qed.
Lemma scalar_low c : c < 32 -> scalar [48; 48; upper_digit (c / 16); upper_digit (c mod 16)] = Some c.
Proof.
  intros Hc. unfold scalar. cbn [foldl mbind option_bind]. change (hex_value 48) with (Some 0). cbn [mbind option_bind].
  assert (c / 16 < 16) by (apply N.Div0.div_lt_upper_bound; lia). assert (c mod 16 < 16) by (apply N.mod_lt; lia).
  rewrite !upper_digit_value by done. cbn [mbind option_bind]. f_equal. rewrite (N.div_mod' c 16) at 3. lia.
Qed.
Lemma escape_read c s : c <> 127 -> read_basic (escape_char c ++ s) = (p ← read_basic s; Some (c :: p.1, p.2)).
Proof.
  intros Hc. unfold escape_char.
  repeat match goal with |- context [if ?a =? ?b then _ else _] => destruct (N.eqb_spec a b) as [->|?]; [reflexivity|] end.
  destruct (N.ltb_spec c 32).
  - pose proof (scalar_low c ltac:(done)) as Hs. change (lit "\u00") with [92; 117; 48; 48].
    generalize dependent (upper_digit (c mod 16)). generalize (upper_digit (c / 16)). intros a b Hs.
    cbn [app read_basic]. change (92 =? 34) with false. change (92 =? 92) with true. change (117 =? 117) with true.
    cbn iota. by rewrite Hs.
  - cbn [app read_basic]. rewrite !(proj2 (N.eqb_neq c _)) by done. unfold plain.
    rewrite (proj2 (N.leb_le 32 c)), (proj2 (N.eqb_neq c 127)) by done. done.
Qed.
Lemma quoted_read s rest : 127 ∉ s -> read_basic (concat (map escape_char s) ++ 34 :: rest) = Some (s, rest).
Proof.
  induction s as [|c s IH]; [done|]. rewrite not_elem_of_cons. intros [Hc Hs]. cbn [map concat].
  rewrite <-app_assoc, escape_read, IH by congruence. done.
Qed.

(** *** Lines *)

Lemma escape_low c : Forall (fun x => 32 <= x) (escape_char c).
Proof.
  unfold escape_char.
  repeat match goal with
    |- context [if ?a =? ?b then _ else _] => destruct (a =? b); [apply (bool_decide_unpack _); vm_compute; exact I|] end.
  destruct (N.ltb_spec c 32); [|by apply list.Forall_singleton].
  apply Forall_app. split; [apply (bool_decide_unpack _); vm_compute; exact I|].
  rewrite !list.Forall_cons. unfold upper_digit. generalize (c / 16) (c mod 16). intros a b.
  split_and!; [destruct (a <? 10); lia|destruct (b <? 10); lia|constructor].
Qed.
Lemma quoted_one_line s : LF ∉ quote_toml_string s /\ CR ∉ quote_toml_string s.
Proof.
  assert (H : Forall (fun x => 32 <= x) (quote_toml_string s)).
  { unfold quote_toml_string. rewrite !Forall_app. split; [by apply list.Forall_singleton|].
    split; [|by apply list.Forall_singleton]. apply Forall_concat, Forall_fmap, Forall_true. intros c. apply escape_low. }
  rewrite Forall_forall in H. split; intros Hin; by apply H in Hin.
Qed.
Definition text_body (k : string) (v : str) : str := lit k ++ lit " = " ++ quote_toml_string v.
Definition number_body (k : string) (n : N) : str := lit k ++ lit " = " ++ dec n.
Definition opt_body {A} (body : A -> str) (o : option A) : list str := match o with Some a => [body a] | None => [] end.
Definition report_lines (r : PlaybackStateReport) : list str :=
  [text_body "state" (play_state_wire_name (r_state r))] ++ opt_body (number_body "song_position") (r_song_position r) ++
  opt_body (number_body "elapsed_ms") (r_elapsed_ms r) ++ opt_body (number_body "duration_ms") (r_duration_ms r) ++
  opt_body (number_body "volume") (r_volume r) ++
  match r_current_song r with
  | None => []
  | Some s =>
      [[]; lit "[current_song]"; text_body "file_path" (cut (c_file_path s))] ++
      opt_body (fun t => text_body "title" (cut t)) (c_title s) ++ opt_body (fun t => text_body "artist" (cut t)) (c_artist s) ++
      opt_body (fun t => text_body "album" (cut t)) (c_album s) ++ opt_body (number_body "duration_ms") (c_duration_ms s)
  end.

Lemma unlines_app a b : unlines (a ++ b) = unlines a ++ unlines b.
Proof. unfold unlines. by rewrite map_app, concat_app. Qed.
Lemma unlines_one l : unlines [l] = l ++ [LF].
Proof. unfold unlines. cbn. by rewrite app_nil_r. Qed.
Lemma given_lines {A} (line body : A -> str) o : (forall a, line a = body a ++ [LF]) -> given line o = unlines (opt_body body o).
Proof. intros H. destruct o as [a|]; [|done]. cbn [given opt_body]. by rewrite unlines_one, H. Qed.
Lemma text_line_body k v : text_line k v = text_body k v ++ [LF].
Proof. unfold text_line, text_body. by rewrite <-!app_assoc. Qed.
Lemma number_line_body k n : number_line k n = number_body k n ++ [LF].
Proof. unfold number_line, number_body. by rewrite <-!app_assoc. Qed.
Lemma serialise_lines r : serialise r = unlines (report_lines r).
Proof.
  unfold serialise, report_lines. rewrite !unlines_app, unlines_one, text_line_body.
  rewrite !(given_lines (number_line _) (number_body _)) by (intros; apply number_line_body).
  do 5 f_equal. destruct (r_current_song r) as [s|]; [|done].
  rewrite !unlines_app, (given_lines (number_line _) (number_body _)) by (intros; apply number_line_body).
  rewrite (given_lines (fun t => text_line "title" (cut t)) (fun t => text_body "title" (cut t))) by (intros; apply text_line_body).
  rewrite (given_lines (fun t => text_line "artist" (cut t)) (fun t => text_body "artist" (cut t))) by (intros; apply text_line_body).
  rewrite (given_lines (fun t => text_line "album" (cut t)) (fun t => text_body "album" (cut t))) by (intros; apply text_line_body).
  rewrite text_line_body. unfold unlines at 5. cbn [map concat app]. by rewrite <-!app_assoc.
Qed.

Definition good_key (k : str) : Prop := 32 ∉ k /\ LF ∉ k /\ head k <> Some 91 /\ k <> [].
#[export] Instance good_key_dec k : Decision (good_key k).
Proof. unfold good_key. apply _. Defined.
Lemma split_assignment k v : 32 ∉ k -> split_once (lit " = ") (k ++ lit " = " ++ v) = Some (k, v).
Proof.
  induction k as [|c k IH]; [done|]. rewrite not_elem_of_cons. intros [Hc Hk].
  change (lit " = ") with [32; 61; 32] in *. cbn [app split_once strip_prefix] in *. rewrite (proj2 (N.eqb_neq 32 c)) by done.
  by rewrite IH.
Qed.
Lemma read_assignment t k v x ls : good_key k -> read_value v = Some x ->
  read_lines t ((k ++ lit " = " ++ v) :: ls) = (rest ← read_lines t ls; Some ((t, k, x) :: rest)).
Proof.
  intros (Hs & _ & Hh & Hne) Hv. pose proof (split_assignment k v Hs) as E. destruct k as [|c k]; [done|].
  cbn [app] in *. cbn [read_lines]. rewrite (proj2 (N.eqb_neq c 91)) by by intros ->.
  rewrite E. cbn [mbind option_bind fst snd]. by rewrite Hv.
Qed.
Lemma text_value v : 127 ∉ v -> read_value (quote_toml_string v) = Some (Basic v).
Proof. intros Hv. unfold quote_toml_string, read_value. cbn [app]. change (34 =? 34) with true. by rewrite quoted_read. Qed.
Lemma number_value n : n <= 2 ^ 63 - 1 -> read_value (dec n) = Some (Int n).
Proof.
  intros Hn. unfold read_value. pose proof (dec_digits n) as Hd. pose proof (parse_uint_dec _ n Hn) as Hp.
  pose proof (dec_nonempty n) as Hne. destruct (dec n) as [|c s]; [done|]. inversion Hd as [|? ? Hc]; subst.
  destruct (N.eqb_spec c 34) as [->|]; [done|]. by rewrite Hp.
Qed.

(** Text that TOML can hold: no delete character, which the writer does not escape. *)
Definition clean (s : str) : Prop := 127 ∉ s.
Definition report_ok (r : PlaybackStateReport) : Prop :=
  bounded (2 ^ 63 - 1) (r_song_position r) /\ bounded (2 ^ 63 - 1) (r_elapsed_ms r) /\ bounded (2 ^ 63 - 1) (r_duration_ms r) /\
  bounded (2 ^ 63 - 1) (r_volume r) /\
  forall s, r_current_song r = Some s ->
    clean (c_file_path s) /\ (forall x, c_title s = Some x -> clean x) /\ (forall x, c_artist s = Some x -> clean x) /\
    (forall x, c_album s = Some x -> clean x) /\ bounded (2 ^ 63 - 1) (c_duration_ms s).

Lemma cut_clean s : clean s -> clean (cut s).
Proof.
  intros Hs. unfold clean, cut. destruct (truncate_correct s MAX_STRING_BYTES) as (_ & Hk & Hc); [done|].
  destruct (N.le_gt_cases (str_len s) MAX_STRING_BYTES) as [H|H]; [by rewrite Hk|].
  destruct (Hc H) as (p & c & q & -> & -> & _). unfold clean in Hs. rewrite elem_of_app in *. intros [Hp|Hd]; [tauto|].
  revert Hd. by apply (bool_decide_unpack _).
Qed.
Lemma read_texts {A} t k (f : A -> str) o ls : good_key (lit k) -> (forall a, o = Some a -> clean (f a)) ->
  read_lines (lit t) (opt_body (fun a => text_body k (f a)) o ++ ls) =
    (rest ← read_lines (lit t) ls; Some (opt_entry t k (fun a => Basic (f a)) o ++ rest)).
Proof.
  intros Hk Ho. destruct o as [a|]; cbn [opt_body opt_entry app]; [|by destruct (read_lines _ ls)].
  unfold text_body. rewrite (read_assignment _ _ _ (Basic (f a))); [done|done|]. apply text_value. by apply Ho.
Qed.
Lemma read_numbers t k o ls : good_key (lit k) -> bounded (2 ^ 63 - 1) o ->
  read_lines (lit t) (opt_body (number_body k) o ++ ls) = (rest ← read_lines (lit t) ls; Some (opt_entry t k Int o ++ rest)).
Proof.
  intros Hk Ho. destruct o as [n|]; cbn [opt_body opt_entry app]; [|by destruct (read_lines _ ls)].
  unfold number_body. rewrite (read_assignment _ _ _ (Int n)); [done|done|]. apply number_value. by apply Ho.
Qed.

Lemma assignment_one_line k v : LF ∉ k -> LF ∉ v -> CR ∉ v -> v <> [] -> one_line (k ++ lit " = " ++ v).
Proof.
  intros Hk Hv Hc Hne. rewrite app_assoc. apply one_line_app; [|done|].
  - rewrite elem_of_app. intros [?|H]; [done|]. revert H. by apply (bool_decide_unpack _).
  - split; [done|]. intros Hl. apply Hc. apply last_Some in Hl as [l ->]. rewrite elem_of_app. right. by apply list_elem_of_singleton.
Qed.
Lemma text_body_one_line k v : good_key (lit k) -> one_line (text_body k v).
Proof. intros (_ & Hk & _). destruct (quoted_one_line v). apply assignment_one_line; by try done. Qed.
Lemma number_body_one_line k n : good_key (lit k) -> one_line (number_body k n).
Proof. intros (_ & Hk & _). apply assignment_one_line; [done|by apply dec_not_elem..|apply dec_nonempty]. Qed.
Lemma opt_one_line {A} (body : A -> str) o : (forall a, one_line (body a)) -> Forall one_line (opt_body body o).
Proof. intros H. destruct o; [by apply list.Forall_singleton|by apply list.Forall_nil_2]. Qed.
Lemma report_one_line r : Forall one_line (report_lines r).
Proof.
  unfold report_lines. rewrite !Forall_app. split; [apply list.Forall_singleton; by apply text_body_one_line, (bool_decide_unpack _)|].
  split_and!; try (apply opt_one_line; intros; by apply number_body_one_line, (bool_decide_unpack _)).
  destruct (r_current_song r) as [s|]; [|constructor]. rewrite !Forall_app.
  split; [|split_and!; apply opt_one_line; intros; first [by apply text_body_one_line, (bool_decide_unpack _)|by apply number_body_one_line, (bool_decide_unpack _)]].
  repeat (apply list.Forall_cons; split); [apply (bool_decide_unpack _); vm_compute; exact I..| |by apply list.Forall_nil_2].
  by apply text_body_one_line, (bool_decide_unpack _).
Qed.

Lemma read_blank t ls : read_lines t ([] :: ls) = read_lines t ls.
Proof. done. Qed.
Lemma read_table t ls : read_lines t (lit "[current_song]" :: ls) = read_lines (lit "current_song") ls.
Proof. done. Qed.


(** The delete character is not escaped, and the document that holds it is no TOML. *)
Theorem delete_is_not_escaped : read_value (quote_toml_string [127]) = None.
Proof. reflexivity. Qed.

