(* ===== verification/Supervisor.v ===== *)
(** * The playback supervisor ([plugins/org.evoframework.playback.mpd],
    [playback_supervisor/actor.rs], [command.rs], [mute_cell.rs])

    The task that holds a connection for commands and one for [idle], tries a command,
    reconnects with a backoff and tries once more, and reports what the player does.  It
    runs over the connection of [MpdLink]; what a connection attempt finds, at a time, is an
    argument.  The theorems show what a command does to any player that has a transport, a
    volume and modes, and when it gets through. *)

From stdpp Require Import list.
From S2P Require Import Prelude MpdProtocol MpdServer Durations MpdReplies MpdLink MpdPlayer PlaybackReport Paths.
Local Open Scope N_scope.

(** ** Data *)

(** [PlaybackCommand]; a [Duration] is in nanoseconds. *)
Inductive PlaybackCommand :=
| Play | PlayPosition (pos : N) | Pause (on : bool) | Stop | Next | Previous | Seek (to : N) | SeekRelative (delta_ms : Z)
| SetVolume (v : N) | SetMute (on : bool) | SetRepeat (on : bool) | SetShuffle (on : bool) | SetSingle (on : bool)
| SetConsume (on : bool) | LoadAndPlay (path : str).
(** [PlaybackError]; the text of a protocol violation is that of the error. *)
Inductive PlaybackError :=
| Refusal (code : N) (message : str)
| ConnectionExhausted (attempts : N)
| Violation (e : MpdError)
| IsShutdown.
(** [AudioProtocolSettings] *)
Record AudioProtocolSettings := { crossfade_seconds : N; gapless : bool }.
(** [SupervisorMessage], [IdleEvent] *)
Inductive SupervisorMessage := Command (c : PlaybackCommand) | QueryState | CycleOutput.
Inductive IdleEvent := Changed (subsystems : list IdleSubsystem) | Exhausted.

(** Constants, in milliseconds. *)
Definition RECONNECT_INITIAL : N := 100.
Definition RECONNECT_MAX : N := 10000.
Definition RECONNECT_MAX_ATTEMPTS : N := 10.
Definition IDLE_BUDGET : N := 86400 * 1000.
Definition IDLE_SUBSYSTEMS : list IdleSubsystem := [Player; Mixer; Options; QueueChanged].

(** [BackoffState], its number of attempts; [new], [next_delay]. *)
Record BackoffState := { attempt : N }.
Definition new_backoff : BackoffState := {| attempt := 0 |}.
Definition next_delay (b : BackoffState) : option (N * BackoffState) :=
  if RECONNECT_MAX_ATTEMPTS <=? attempt b then None
  else
    let raw := RECONNECT_INITIAL * N.shiftl 1 (N.min (attempt b) 16) in
    Some (if RECONNECT_MAX <? raw then RECONNECT_MAX else raw, {| attempt := attempt b + 1 |}).

(** [error_calls_for_reconnect], [classify_connect_error], [classify_command_error] *)
Definition error_calls_for_reconnect (e : MpdError) : bool := match e with Transport _ | Timeout _ _ => true | _ => false end.
Definition classify_connect_error (e : MpdError) : PlaybackError :=
  match e with
  | Transport _ | Timeout _ _ => ConnectionExhausted 1
  | Protocol _ | Config _ => Violation e
  | Ack code _ _ message => Refusal code message
  end.
Definition classify_command_error (e : MpdError) : PlaybackError :=
  match e with
  | Ack code _ _ message => Refusal code message
  | Transport _ | Timeout _ _ => ConnectionExhausted RECONNECT_MAX_ATTEMPTS
  | Protocol _ | Config _ => Violation e
  end.

(** What goes out: a report to the custodian, and the subjects of the framework. *)
Inductive Emission (F : Type) :=
| Reported (payload : str)
| SongAnnounced (s : MpdSong)
| SourceCodec (name : option str)
| SourceFormat (f : option F)
| NowPlaying (r : PlaybackStateReport).
Arguments Reported {F} payload. Arguments SongAnnounced {F} s. Arguments SourceCodec {F} name.
Arguments SourceFormat {F} f. Arguments NowPlaying {F} r.

(** [SupervisorTask], with the mute cell and [FileEmissionTracker]; [emissions] is what went
    out. *)
Record Session (P F : Type) := {
  conn : Link P; muted : bool; pre_mute_volume : N; emitted_file : option str; probed_file : option str;
  emissions : list (Emission F) }.
Arguments conn {P F} _. Arguments muted {P F} _. Arguments pre_mute_volume {P F} _. Arguments emitted_file {P F} _.
Arguments probed_file {P F} _. Arguments emissions {P F} _.

(** Verbs one after the other. *)
Definition vthen {P A B} (v : Verb (P := P) A) (k : A -> Verb (P := P) B) : Verb (P := P) B := fun l =>
  let '(l, r) := v l in
  match r with None => (l, None) | Some (Err e) => (l, Some (Err e)) | Some (Ok a) => k a l end.
Definition vdone {P A} (a : A) : Verb (P := P) A := fun l => (l, pass a).
Notation "'let<' x ':=' v 'in' k" := (vthen v (fun x => k)) (at level 200, x pattern, v at level 100, k at level 200).

Section task.
Context {P F : Type} `{Hpeer : Peer P}.
(** What a connection attempt at a time finds of the player, the configuration of the task, and the reader of the
    heads of files. *)
Context (dial : N -> P -> Dialled (P := P)) (e : MpdEndpoint) (timeouts : ConnectTimeouts).
Context (music_directory : option str) (probe_source_format : str -> str -> option F).
Notation Session := (Session P F).

Definition with_conn (l : Link P) (s : Session) : Session :=
  {| conn := l; muted := muted s; pre_mute_volume := pre_mute_volume s; emitted_file := emitted_file s;
     probed_file := probed_file s; emissions := emissions s |}.
Definition with_muted (b : bool) (s : Session) : Session :=
  {| conn := conn s; muted := b; pre_mute_volume := pre_mute_volume s; emitted_file := emitted_file s;
     probed_file := probed_file s; emissions := emissions s |}.
Definition with_pre_mute (v : N) (s : Session) : Session :=
  {| conn := conn s; muted := muted s; pre_mute_volume := v; emitted_file := emitted_file s;
     probed_file := probed_file s; emissions := emissions s |}.
Definition with_files (emitted probed : option str) (s : Session) : Session :=
  {| conn := conn s; muted := muted s; pre_mute_volume := pre_mute_volume s; emitted_file := emitted;
     probed_file := probed; emissions := emissions s |}.
Definition emit (x : Emission F) (s : Session) : Session :=
  {| conn := conn s; muted := muted s; pre_mute_volume := pre_mute_volume s; emitted_file := emitted_file s;
     probed_file := probed_file s; emissions := emissions s ++ [x] |}.
Definition on_conn {A} (v : Verb (P := P) A) (s : Session) : Session * Parse A := let '(l, r) := v (conn s) in (with_conn l s, r).

(** ** Commands *)

(** [start_or_resume_playback] *)
Definition start_or_resume_playback : Verb (P := P) unit :=
  let< status := MpdLink.status in
  match s_state status with
  | Playing => vdone tt
  | Paused => MpdLink.pause false
  | Stopped => match s_song_position status with Some _ => MpdLink.play | None => MpdLink.play_position 0 end
  end.

(** [dispatch_command] *)
Definition dispatch_command (c : PlaybackCommand) (s : Session) : Session * Parse unit :=
  match c with
  | Play => on_conn start_or_resume_playback s
  | PlayPosition p => on_conn (MpdLink.play_position p) s
  | Pause true => on_conn (MpdLink.pause true) s
  | Pause false => on_conn start_or_resume_playback s
  | Stop => on_conn MpdLink.stop s
  | Next => on_conn MpdLink.next s
  | Previous => on_conn MpdLink.previous s
  | Seek d => on_conn (MpdLink.seek d) s
  | SeekRelative delta_ms => on_conn (MpdLink.seek_relative delta_ms) s
  | SetVolume v =>
      let s := if 0 <? v then with_muted false s else s in
      on_conn (MpdLink.set_volume v) s
  | SetMute true =>
      let silence s := on_conn (MpdLink.set_volume 0) (with_muted true s) in
      if muted s then silence s
      else
        let '(s, r) := on_conn MpdLink.status s in
        match r with
        | None => (s, None)
        | Some (Err err) => (s, Some (Err err))
        | Some (Ok status) =>
            silence (match s_volume status with
                     | Some current => if 0 <? current then with_pre_mute current s else s
                     | None => s
                     end)
        end
  | SetMute false =>
      let s := with_muted false s in
      on_conn (MpdLink.set_volume (pre_mute_volume s)) s
  | SetRepeat b => on_conn (MpdLink.set_repeat b) s
  | SetShuffle b => on_conn (MpdLink.set_random b) s
  | SetSingle b => on_conn (MpdLink.set_single b) s
  | SetConsume b => on_conn (MpdLink.set_consume b) s
  | LoadAndPlay path =>
      on_conn (let< _ := MpdLink.clear in let< _ := MpdLink.add path in MpdLink.play) s
  end.

(** [do_query], [do_cycle_output] *)
Definition do_query (s : Session) : Session * Parse PlaybackStateReport :=
  on_conn (let< status := MpdLink.status in
           let< song := MpdLink.current_song in
           vdone (from_mpd status song (muted s))) s.
Definition do_cycle_output : Session -> Session * Parse unit :=
  on_conn (let< _ := MpdLink.disable_output 0 in MpdLink.enable_output 0).

(** ** Reconnecting *)

Definition at_time (now : N) (l : Link P) : Link P :=
  {| peer := peer l; inbox := inbox l; version := version l; endpoint := endpoint l; command_timeout := command_timeout l; clock := now |}.
(** One attempt; the time that a failed attempt takes is left out. *)
Definition open_attempt (now : N) (p : P) : result (Link P) MpdError := connect_with_timeouts e timeouts (dial now p) now.
(** The loop that sleeps and tries, until a connection, an error that [again] does not
    take, or the end of the attempts, their number given; [S RECONNECT_MAX_ATTEMPTS] turns are enough. *)
Inductive Reconnection := Reconnected (l : Link P) | GaveUp (attempts : N) | Rejected (err : MpdError).
Fixpoint reconnect_loop (fuel : nat) (again : MpdError -> bool) (b : BackoffState) (now : N) (p : P) : N * Reconnection :=
  match fuel with
  | O => (now, GaveUp (attempt b))
  | S fuel =>
      match next_delay b with
      | None => (now, GaveUp (attempt b))
      | Some (delay, b) =>
          match open_attempt (now + delay) p with
          | Ok l => (now + delay, Reconnected l)
          | Err err => if again err then reconnect_loop fuel again b (now + delay) p else (now + delay, Rejected err)
          end
      end
  end.
Definition reconnecting (again : MpdError -> bool) (l : Link P) : N * Reconnection :=
  reconnect_loop (S (N.to_nat RECONNECT_MAX_ATTEMPTS)) again new_backoff (clock l) (peer l).

(** [reconnect_cmd_conn] *)
Definition reconnect_cmd_conn (s : Session) : Session * result unit PlaybackError :=
  match reconnecting error_calls_for_reconnect (conn s) with
  | (_, Reconnected l) => (with_conn l s, Ok tt)
  | (now, GaveUp n) => (with_conn (at_time now (conn s)) s, Err (ConnectionExhausted n))
  | (now, Rejected err) => (with_conn (at_time now (conn s)) s, Err (classify_command_error err))
  end.

(** [handle_command], [handle_query], [handle_cycle_output]: try, reconnect, try again. *)
Definition try_twice {A} (f : Session -> Session * Parse A) (s : Session) : Session * option (result A PlaybackError) :=
  let '(s, r) := f s in
  match r with
  | None => (s, None)
  | Some (Ok a) => (s, Some (Ok a))
  | Some (Err err) =>
      if negb (error_calls_for_reconnect err) then (s, Some (Err (classify_command_error err)))
      else
        let '(s, reconnected) := reconnect_cmd_conn s in
        match reconnected with
        | Err err => (s, Some (Err err))
        | Ok _ => let '(s, r) := f s in (s, option_map (map_err classify_command_error) r)
        end
  end.
Definition handle_command (c : PlaybackCommand) : Session -> Session * option (result unit PlaybackError) := try_twice (dispatch_command c).
Definition handle_query : Session -> Session * option (result PlaybackStateReport PlaybackError) := try_twice do_query.
Definition handle_cycle_output : Session -> Session * option (result unit PlaybackError) := try_twice do_cycle_output.

(** ** Reports *)

(** [maybe_emit_subjects] *)
Definition maybe_emit_subjects (song : option MpdSong) (s : Session) : Session :=
  match song with
  | None => s
  | Some g =>
      let file := t_file (song_tags g) in
      if str_is_empty file then s
      else if bool_decide (emitted_file s = Some file) then s
      else with_files (Some file) (probed_file s) (emit (SongAnnounced g) s)
  end.
(** [maybe_probe_source_format] *)
Definition maybe_probe_source_format (song : option MpdSong) (s : Session) : Session :=
  match song with
  | None =>
      match probed_file s with
      | Some _ => emit (SourceFormat None) (with_files (emitted_file s) None s)
      | None => s
      end
  | Some g =>
      let file := t_file (song_tags g) in
      if bool_decide (probed_file s = Some file) then s
      else
        let s := with_files (emitted_file s) (Some file) s in
        match music_directory with
        | None => emit (SourceFormat None) s
        | Some base =>
            match codec_name g with
            | None => emit (SourceFormat None) s
            | Some codec_hint => emit (SourceFormat (probe_source_format (join base file) codec_hint)) s
            end
        end
  end.
(** What a report publishes, once the status and the song are known. *)
Definition publish (status : MpdReplies.MpdStatus) (song : option MpdSong) (s : Session) : Session :=
  let report := from_mpd status song (muted s) in
  let s := emit (Reported (serialise report)) s in
  let s := maybe_emit_subjects song s in
  let s := emit (SourceCodec (g ← song; codec_name g)) s in
  let s := maybe_probe_source_format song s in
  emit (NowPlaying report) s.
Definition read_state : Verb (P := P) (MpdReplies.MpdStatus * option MpdSong) :=
  let< status := MpdLink.status in let< song := MpdLink.current_song in vdone (status, song).
(** [emit_best_effort_report]: a failed query is no error, and a panic ends the task. *)
Definition emit_best_effort_report (s : Session) : option Session :=
  let '(s, r) := on_conn read_state s in
  match r with
  | None => None
  | Some (Err _) => Some s
  | Some (Ok (status, song)) => Some (publish status song s)
  end.
(** [emit_initial_report] *)
Definition emit_initial_report (s : Session) : Session * option (result unit PlaybackError) :=
  let '(s, r) := on_conn read_state s in
  match r with
  | None => (s, None)
  | Some (Err err) => (s, Some (Err (classify_command_error err)))
  | Some (Ok (status, song)) => (publish status song s, Some (Ok tt))
  end.

(** [apply_audio_protocol_settings]: refusals are logged. *)
Definition apply_audio_protocol_settings (settings : AudioProtocolSettings) (s : Session) : Session :=
  let s := (on_conn (MpdLink.set_crossfade (crossfade_seconds settings)) s).1 in
  (on_conn (MpdLink.set_single (negb (gapless settings))) s).1.

(** [spawn]: the session, and the connection of the idle task. *)
Definition spawn (p : P) (now : N) (settings : AudioProtocolSettings) (mute : bool) :
    option (result (Session * Link P) PlaybackError) :=
  match map_err classify_connect_error (open_attempt now p) with
  | Err err => Some (Err err)
  | Ok cmd_conn =>
      match map_err classify_connect_error (open_attempt (clock cmd_conn) (peer cmd_conn)) with
      | Err err => Some (Err err)
      | Ok idle_conn =>
          let s := {| conn := cmd_conn; muted := mute; pre_mute_volume := 50; emitted_file := None; probed_file := None;
                      emissions := [] |} in
          let '(s, r) := emit_initial_report (apply_audio_protocol_settings settings s) in
          match r with
          | None => None
          | Some (Err err) => Some (Err err)
          | Some (Ok _) => Some (Ok (s, idle_conn))
          end
      end
  end.

(** ** The loop ([SupervisorTask::run]) *)

(** What waits in the channels: [senders], [idle_open] and [settings_open] say that the other
    ends still exist. *)
Record Channels := {
  shutdown : bool; messages : list SupervisorMessage; senders : bool; idle_events : list IdleEvent; idle_open : bool;
  settings : option AudioProtocolSettings; settings_open : bool }.
Inductive Reply := Done (r : result unit PlaybackError) | State (r : result PlaybackStateReport PlaybackError).
(** The arms of the [select!], and what a turn comes to. *)
Inductive Arm := ShutdownArm | CommandArm (m : option SupervisorMessage) | IdleArm (ev : option IdleEvent) | SettingsArm (x : option AudioProtocolSettings).
(** The first arm that is ready, in the order they are written. *)
Definition ready_arm (i : Channels) : option (Arm * Channels) :=
  if shutdown i then Some (ShutdownArm, i)
  else
    match messages i with
    | m :: ms =>
        Some (CommandArm (Some m), {| shutdown := false; messages := ms; senders := senders i; idle_events := idle_events i;
                idle_open := idle_open i; settings := settings i; settings_open := settings_open i |})
    | [] =>
        if negb (senders i) then Some (CommandArm None, i)
        else
          match idle_events i with
          | ev :: evs =>
              Some (IdleArm (Some ev), {| shutdown := false; messages := []; senders := true; idle_events := evs;
                      idle_open := idle_open i; settings := settings i; settings_open := settings_open i |})
          | [] =>
              if negb (idle_open i) then Some (IdleArm None, i)
              else
                match settings i with
                | Some x => Some (SettingsArm (Some x), {| shutdown := false; messages := []; senders := true; idle_events := [];
                                    idle_open := true; settings := None; settings_open := settings_open i |})
                | None => if negb (settings_open i) then Some (SettingsArm None, i) else None
                end
          end
    end.

Inductive Outcome := Waits | Returns | Panics | Goes (s : Session) (reply : option Reply) (i : Channels).
(** The next turn with a report; a panic ends the task. *)
Definition reported (s : Session) (reply : option Reply) (i : Channels) : Outcome :=
  match emit_best_effort_report s with Some s => Goes s reply i | None => Panics end.
Definition turn (s : Session) (i : Channels) : Outcome :=
  match ready_arm i with
  | None => Waits
  | Some (ShutdownArm, _) | Some (CommandArm None, _) => Returns
  | Some (CommandArm (Some (Command c)), i) =>
      match handle_command c s with
      | (_, None) => Panics
      | (s, Some r) => if is_ok r then reported s (Some (Done r)) i else Goes s (Some (Done r)) i
      end
  | Some (CommandArm (Some CycleOutput), i) =>
      match handle_cycle_output s with (_, None) => Panics | (s, Some r) => Goes s (Some (Done r)) i end
  | Some (CommandArm (Some QueryState), i) =>
      match handle_query s with (_, None) => Panics | (s, Some r) => Goes s (Some (State r)) i end
  | Some (IdleArm None, i) | Some (IdleArm (Some Exhausted), i) => Goes s None i
  | Some (IdleArm (Some (Changed _)), i) => reported s None i
  | Some (SettingsArm (Some x), i) => Goes (apply_audio_protocol_settings x s) None i
  | Some (SettingsArm None, i) => Goes s None i
  end.

(** ** The idle task ([idle_task]) *)

(** One turn: the connection with the event it sent, if any, or the end.  Every failure leads
    to a reconnection, and a new connection to an event, since what happened meanwhile was
    not told. *)
Inductive IdleTurn := IdleGoes (l : Link P) (ev : option IdleEvent) | IdleEnds (ev : IdleEvent).
Definition idle_turn (l : Link P) : IdleTurn :=
  match MpdLink.idle IDLE_SUBSYSTEMS IDLE_BUDGET l with
  | (l, Ok []) => IdleGoes l None
  | (l, Ok changed) => IdleGoes l (Some (Changed changed))
  | (l, Err _) =>
      match reconnecting (fun _ => true) l with
      | (_, Reconnected l) => IdleGoes l (Some (Changed IDLE_SUBSYSTEMS))
      | _ => IdleEnds Exhausted
      end
  end.
End task.

(** ** The backoff *)

(** The waits before the attempts. *)
Definition delays : list N := [100; 200; 400; 800; 1600; 3200; 6400; 10000; 10000; 10000].
Definition total (ds : list N) : N := foldr N.add 0 ds.

Section backoff.
Context {P : Type} (dial : N -> P -> Dialled (P := P)) (e : MpdEndpoint) (timeouts : ConnectTimeouts).
Notation open := (open_attempt dial e timeouts).

Fixpoint try_delays (again : MpdError -> bool) (ds : list N) (now : N) (p : P) : N * Reconnection (P := P) :=
  match ds with
  | [] => (now, GaveUp RECONNECT_MAX_ATTEMPTS)
  | d :: ds =>
      match open (now + d) p with
      | Ok l => (now + d, Reconnected l)
      | Err err => if again err then try_delays again ds (now + d) p else (now + d, Rejected err)
      end
  end.
(** The attempts before the [k]-th fail with an error after which one tries again. *)
Definition when (ds : list N) (now : N) (k : nat) : N := now + total (take (S k) ds).
Definition failing (again : MpdError -> bool) (ds : list N) (now : N) (p : P) (k : nat) : Prop :=
  forall j, (j < k)%nat -> exists err, open (when ds now j) p = Err err /\ again err = true.

Lemma reconnecting_delays again l : reconnecting dial e timeouts again l = try_delays again delays (clock l) (peer l).
Proof. reflexivity. Qed.

Lemma when_S d ds now k : when (d :: ds) now (S k) = when ds (now + d) k.
Proof. unfold when. cbn [take total foldr]. unfold total. lia. Qed.
Lemma when_0 d ds now : when (d :: ds) now 0 = now + d.
Proof. unfold when, total. change (foldr N.add 0 (take 1 (d :: ds))) with (d + 0). lia. Qed.
Lemma failing_S again d ds now p k err : open (now + d) p = Err err -> again err = true ->
  failing again ds (now + d) p k -> failing again (d :: ds) now p (S k).
Proof.
  intros Ho Ha Hf [|j] Hj; [exists err; by rewrite when_0|]. rewrite when_S. apply Hf. lia.
Qed.
Lemma failing_inv again d ds now p k : failing again (d :: ds) now p (S k) ->
  (exists err, open (now + d) p = Err err /\ again err = true) /\ failing again ds (now + d) p k.
Proof.
  intros Hf. split; [specialize (Hf 0%nat ltac:(lia)); by rewrite when_0 in Hf|].
  intros j Hj. specialize (Hf (S j) ltac:(lia)). by rewrite when_S in Hf.
Qed.

Lemma try_delays_correct again ds now p :
  match try_delays again ds now p with
  | (t, Reconnected l) => exists k, (k < length ds)%nat /\ t = when ds now k /\ open t p = Ok l /\ failing again ds now p k
  | (t, Rejected err) => exists k, (k < length ds)%nat /\ t = when ds now k /\ open t p = Err err /\ again err = false /\ failing again ds now p k
  | (t, GaveUp n) => n = RECONNECT_MAX_ATTEMPTS /\ t = now + total ds /\ failing again ds now p (length ds)
  end.
Proof.
  revert now. induction ds as [|d ds IH]; intros now; cbn [try_delays]; [split; [done|]; split; [unfold total; cbn [foldr]; lia|]; intros j Hj; cbn in Hj; lia|].
  assert (H0 : failing again (d :: ds) now p 0) by (intros j Hj; lia).
  destruct (open (now + d) p) as [l|err] eqn:Eo.
  - exists 0%nat. rewrite when_0. split; [cbn; lia|]. done.
  - destruct (again err) eqn:Ea; [|exists 0%nat; rewrite when_0; split; [cbn; lia|done]].
    specialize (IH (now + d)). destruct (try_delays again ds (now + d) p) as [t [l|n|err']].
    + destruct IH as (k & Hk & -> & Ho & Hf). exists (S k). rewrite when_S. split; [cbn; lia|]. split; [done|]. split; [done|].
      by eapply failing_S.
    + destruct IH as (-> & -> & Hf). split; [done|]. split; [unfold total; cbn [foldr]; lia|]. by eapply failing_S.
    + destruct IH as (k & Hk & -> & Ho & Hr & Hf). exists (S k). rewrite when_S. split; [cbn; lia|]. split_and!; try done.
      by eapply failing_S.
Qed.
Lemma try_delays_found again ds now p k l : (k < length ds)%nat -> failing again ds now p k -> open (when ds now k) p = Ok l ->
  try_delays again ds now p = (when ds now k, Reconnected l).
Proof.
  revert now k. induction ds as [|d ds IH]; intros now k Hk Hf Ho; [cbn in Hk; lia|]. cbn [try_delays]. destruct k as [|k].
  - rewrite when_0 in *. by rewrite Ho.
  - apply failing_inv in Hf as [(err & E & Ha) Hf]. rewrite when_S in *. rewrite E, Ha. apply IH; [cbn in Hk; lia|done..].
Qed.
End backoff.

(** ** Commands on a player *)

(** What the commands do to a player: its volume, its transport over a queue of so many
    songs, and its modes; [None] where it refuses. *)
Inductive Knob :=
| KVolume (n : N) | KPause (b : bool) | KStop | KPlay | KPlayAt (p : N) | KRepeat (b : bool) | KRandom (b : bool)
| KSingle (b : bool) | KConsume (b : bool).
Definition knob_words (k : Knob) : string * list str :=
  match k with
  | KVolume n => ("setvol"%string, [dec n])
  | KPause b => ("pause"%string, [on_off b])
  | KStop => ("stop"%string, [])
  | KPlay => ("play"%string, [])
  | KPlayAt p => ("play"%string, [dec p])
  | KRepeat b => ("repeat"%string, [on_off b])
  | KRandom b => ("random"%string, [on_off b])
  | KSingle b => ("single"%string, [on_off b])
  | KConsume b => ("consume"%string, [on_off b])
  end.
Definition playing_at (song : N) (d : MpdReplies.MpdStatus) : MpdReplies.MpdStatus := set_song (Some song) (set_state Playing d).
Definition knob_step (songs : N) (k : Knob) (d : MpdReplies.MpdStatus) : option MpdReplies.MpdStatus :=
  match k with
  | KVolume n => if n <=? 100 then Some (MpdReplies.set_volume (Some n) d) else None
  | KPause b => Some (match s_state d with Stopped => d | _ => set_state (if b then Paused else Playing) d end)
  | KStop => Some (set_state Stopped d)
  | KPlay => Some (if songs =? 0 then d else playing_at (default 0 (s_song_position d)) d)
  | KPlayAt p => if p <? songs then Some (playing_at p d) else None
  | KRepeat b => Some (set_modes b (s_random d) (s_single d) (s_consume d) d)
  | KRandom b => Some (set_modes (s_repeat d) b (s_single d) (s_consume d) d)
  | KSingle b => Some (set_modes (s_repeat d) (s_random d) b (s_consume d) d)
  | KConsume b => Some (set_modes (s_repeat d) (s_random d) (s_single d) b d)
  end.

(** A player with such a state: it tells its status and does what the commands say. *)
Class Deck (P : Type) `{Obedient P t} := {
  deck : P -> MpdReplies.MpdStatus;
  songs : P -> N;
  in_order : P -> Prop;
  deck_status p : in_order p -> fit (lit "status") [] p /\
    exists fs, reply (lit "status") [] p = (p, Fields fs) /\ parse_status fs = Some (Ok (deck p));
  deck_knob k p d : in_order p -> knob_step (songs p) k (deck p) = Some d ->
    fit (lit (knob_words k).1) (knob_words k).2 p /\
    exists p', reply (lit (knob_words k).1) (knob_words k).2 p = (p', Fields []) /\ deck p' = d /\ songs p' = songs p /\ in_order p' }.

(** What a command of the supervisor does, given what it knows: the player, whether it is muted, and the volume
    to go back to. *)
Record Sound := { sounding : MpdReplies.MpdStatus; mute : bool; remembered : N }.
Definition on_sound (f : MpdReplies.MpdStatus -> option MpdReplies.MpdStatus) (x : Sound) : option Sound :=
  d ← f (sounding x); Some {| sounding := d; mute := mute x; remembered := remembered x |}.
Definition resume_spec (songs : N) (d : MpdReplies.MpdStatus) : option MpdReplies.MpdStatus :=
  match s_state d with
  | Playing => Some d
  | Paused => knob_step songs (KPause false) d
  | Stopped => match s_song_position d with Some _ => knob_step songs KPlay d | None => knob_step songs (KPlayAt 0) d end
  end.
Definition volume_spec (songs : N) (n : N) (m : bool) (r : N) (x : Sound) : option Sound :=
  d ← knob_step songs (KVolume n) (sounding x); Some {| sounding := d; mute := m; remembered := r |}.
Definition command_spec (songs : N) (c : PlaybackCommand) (x : Sound) : option Sound :=
  match c with
  | Play | Pause false => on_sound (resume_spec songs) x
  | PlayPosition p => on_sound (knob_step songs (KPlayAt p)) x
  | Pause true => on_sound (knob_step songs (KPause true)) x
  | Stop => on_sound (knob_step songs KStop) x
  | SetVolume v => volume_spec songs v (if 0 <? v then false else mute x) (remembered x) x
  | SetMute true =>
      volume_spec songs 0 true
        (if mute x then remembered x
         else match s_volume (sounding x) with
              | Some v => if 0 <? v then v else remembered x
              | None => remembered x
              end) x
  | SetMute false => volume_spec songs (remembered x) false (remembered x) x
  | SetRepeat b => on_sound (knob_step songs (KRepeat b)) x
  | SetShuffle b => on_sound (knob_step songs (KRandom b)) x
  | SetSingle b => on_sound (knob_step songs (KSingle b)) x
  | SetConsume b => on_sound (knob_step songs (KConsume b)) x
  | Next | Previous | Seek _ | SeekRelative _ | LoadAndPlay _ => None
  end.

Section refinement.
Context {P F : Type} `{Hpeer : Peer P} {t : N} `{!Obedient P t} `{!Deck P}.
Context (dial : N -> P -> Dialled (P := P)) (e : MpdEndpoint) (timeouts : ConnectTimeouts).
Notation Session := (Session P F).

Definition sound_of (s : Session) : Sound :=
  {| sounding := deck (peer (conn s)); mute := muted s; remembered := pre_mute_volume s |}.
(** The connection is at rest, to a player that is in order. *)
Definition steady (l : Link P) : Prop := at_rest t l /\ in_order (peer l).
Definition stocked (s : Session) : N := songs (peer (conn s)).

Lemma said_words k : exists bytes, serialise_command (lit (knob_words k).1) (knob_words k).2 = Ok bytes.
Proof.
  pose proof (serialise_command_total (lit (knob_words k).1) (knob_words k).2) as Ht.
  destruct (serialise_command _ _) as [bytes|err]; [by exists bytes|]. exfalso.
  destruct Ht as (ch & w & _ & Hw & Hch & Hf).
  assert (H : Forall (fun w => Forall (fun c => forbidden c = false) w) (lit (knob_words k).1 :: (knob_words k).2)).
  { destruct k as [n|[]| | |p|[]|[]|[]|[]]; cbn [knob_words fst snd]; repeat (apply list.Forall_cons; split);
      try apply list.Forall_nil_2; try apply dec_said; by apply (bool_decide_unpack _). }
  rewrite Forall_forall in H. specialize (H w Hw). rewrite Forall_forall in H. specialize (H ch Hch). congruence.
Qed.
Lemma turn_knob k l d : steady l -> knob_step (songs (peer l)) k (deck (peer l)) = Some d ->
  exists l', simple (knob_words k).1 (knob_words k).2 l = (l', pass tt) /\ steady l' /\ deck (peer l') = d /\ songs (peer l') = songs (peer l).
Proof.
  intros [Hl Hp] Hk. destruct (said_words k) as [bytes Hb]. destruct (deck_knob k (peer l) d Hp Hk) as (Hf & p' & Hr & Hd & Hs & Hp').
  destruct (call_obeyed t (knob_words k).1 (knob_words k).2 bytes (fun _ => pass tt) l Hl Hb Hf) as [now E].
  exists (moved p' now l). unfold simple. rewrite E, Hr. cbn [fst snd answer_result lift andthen]. split; [done|].
  split; [|done]. split; [|done]. split; [done|apply Hl].
Qed.
Lemma ask_status l : steady l -> exists l', MpdLink.status l = (l', pass (deck (peer l))) /\ steady l' /\ peer l' = peer l.
Proof.
  intros [Hl Hp]. destruct (deck_status (peer l) Hp) as (Hf & fs & Hr & Hs).
  destruct (call_obeyed t "status" [] _ parse_status l Hl eq_refl Hf) as [now E].
  exists (moved (peer l) now l). unfold MpdLink.status. rewrite E, Hr. cbn [fst snd answer_result lift andthen]. rewrite Hs.
  split; [done|]. split; [|done]. split; [|done]. split; [done|apply Hl].
Qed.

(** The session after a command that went well. *)
Definition became (x : Sound) (s s' : Session) : Prop := steady (conn s') /\ sound_of s' = x /\ stocked s' = stocked s.
Lemma session_knob k v (s : Session) d : v = simple (knob_words k).1 (knob_words k).2 -> steady (conn s) ->
  knob_step (stocked s) k (deck (peer (conn s))) = Some d ->
  exists s', on_conn v s = (s', pass tt) /\ became {| sounding := d; mute := muted s; remembered := pre_mute_volume s |} s s'.
Proof.
  intros -> Hs Hk. destruct (turn_knob k (conn s) d Hs Hk) as (l' & E & Hl & Hd & Hn).
  exists (with_conn l' s). unfold on_conn. rewrite E. split; [done|]. unfold became, sound_of, stocked. cbn. by rewrite Hd.
Qed.
Lemma session_resume (s : Session) d : steady (conn s) -> resume_spec (stocked s) (deck (peer (conn s))) = Some d ->
  exists s', on_conn start_or_resume_playback s = (s', pass tt) /\ became {| sounding := d; mute := muted s; remembered := pre_mute_volume s |} s s'.
Proof.
  intros Hs Hd. destruct (ask_status (conn s) Hs) as (l & El & Hl & Hp). unfold resume_spec, stocked in *.
  assert (Hk : forall k v, v = simple (knob_words k).1 (knob_words k).2 -> knob_step (songs (peer (conn s))) k (deck (peer (conn s))) = Some d ->
    exists s', (let '(l', r) := v l in (with_conn l' s, r)) = (s', pass tt) /\ became {| sounding := d; mute := muted s; remembered := pre_mute_volume s |} s s').
  { intros k v Ev Hk. destruct (session_knob k v (with_conn l s) d Ev) as (s' & E & Hb); [done|by cbn; unfold stocked; cbn; rewrite Hp|].
    exists s'. split; [exact E|]. destruct Hb as (H1 & H2 & H3). split; [done|]. split; [done|]. rewrite H3. unfold stocked. cbn. by rewrite Hp. }
  unfold on_conn, start_or_resume_playback, vthen. rewrite El. cbn [pass].
  destruct (s_state (deck (peer (conn s)))).
  - injection Hd as <-. exists (with_conn l s). split; [done|]. unfold became, sound_of, stocked. cbn. by rewrite Hp.
  - by apply (Hk (KPause false)).
  - destruct (s_song_position (deck (peer (conn s)))); [by apply (Hk KPlay)|by apply (Hk (KPlayAt 0))].
Qed.

Ltac knob k := match goal with H : on_sound _ _ = Some _ |- _ =>
  unfold on_sound in H; cbn [sounding mute remembered sound_of] in H;
  destruct (knob_step _ k _) as [d|] eqn:Hk; [|done]; injection H as <-; by apply (session_knob k) end.

Lemma dispatch_correct c (s : Session) x : steady (conn s) -> command_spec (stocked s) c (sound_of s) = Some x ->
  exists s', dispatch_command c s = (s', pass tt) /\ became x s s'.
Proof.
  intros Hs Hx. destruct c as [|p|[]| | | | | |v|[]|b|b|b|b|path]; cbn [command_spec dispatch_command] in *; try done.
  - unfold on_sound in Hx. cbn in Hx. destruct (resume_spec _ _) as [d|] eqn:Hd; [|done]. injection Hx as <-. by apply session_resume.
  - knob (KPlayAt p).
  - knob (KPause true).
  - unfold on_sound in Hx. cbn in Hx. destruct (resume_spec _ _) as [d|] eqn:Hd; [|done]. injection Hx as <-. by apply session_resume.
  - knob KStop.
  - unfold volume_spec in Hx. destruct (knob_step _ _ _) as [d|] eqn:Hk; [|done]. injection Hx as <-.
    set (s1 := if 0 <? v then with_muted false s else s).
    assert (H1 : conn s1 = conn s /\ pre_mute_volume s1 = pre_mute_volume s /\ muted s1 = if 0 <? v then false else muted s)
      by (unfold s1; by destruct (0 <? v)). destruct H1 as (H1 & H2 & H3).
    destruct (session_knob (KVolume v) (MpdLink.set_volume v) s1 d eq_refl) as (s' & E & Hb); [by rewrite H1| |].
    { unfold stocked. rewrite H1. exact Hk. }
    exists s'. split; [exact E|]. unfold became, stocked in *. rewrite H1, H2, H3 in Hb. exact Hb.
  - unfold volume_spec in Hx. destruct (knob_step _ _ _) as [d|] eqn:Hk; [|done]. injection Hx as <-. cbn [sound_of mute remembered sounding].
    assert (Hsil : forall s1 : Session, steady (conn s1) -> peer (conn s1) = peer (conn s) ->
      exists s', on_conn (MpdLink.set_volume 0) (with_muted true s1) = (s', pass tt) /\
        became {| sounding := d; mute := true; remembered := pre_mute_volume s1 |} s s').
    { intros s1 Hs1 Hp. destruct (session_knob (KVolume 0) (MpdLink.set_volume 0) (with_muted true s1) d eq_refl) as (s' & E & Hb); [done| |].
      { unfold stocked. cbn. rewrite Hp. exact Hk. }
      exists s'. split; [exact E|]. unfold became, stocked in *. cbn in Hb. by rewrite Hp in Hb. }
    destruct (muted s) eqn:Hm; [by apply Hsil|].
    destruct (ask_status (conn s) Hs) as (l & El & Hl & Hp). unfold on_conn at 1. rewrite El. cbn [pass].
    destruct (s_volume (deck (peer (conn s)))) as [v|]; [destruct (0 <? v)|];
      (destruct (Hsil (with_conn l s)) as (s' & E & Hb); [done|done|]); try by exists s'.
    apply (Hsil (with_pre_mute v (with_conn l s))); done.
  - unfold volume_spec in Hx. destruct (knob_step _ _ _) as [d|] eqn:Hk; [|done]. injection Hx as <-.
    by apply (session_knob (KVolume (pre_mute_volume s)) _ (with_muted false s)).
  - knob (KRepeat b).
  - knob (KRandom b).
  - knob (KSingle b).
  - knob (KConsume b).
Qed.

(** A command on a steady connection does to the player what it says, and is not repeated. *)
Lemma handle_correct c (s : Session) x : steady (conn s) -> command_spec (stocked s) c (sound_of s) = Some x ->
  exists s', handle_command dial e timeouts c s = (s', Some (Ok tt)) /\ became x s s'.
Proof.
  intros Hs Hx. destruct (dispatch_correct c s x Hs Hx) as (s' & E & Hb). exists s'. split; [|done].
  unfold handle_command, try_twice. by rewrite E.
Qed.

(** Commands one after the other. *)
Fixpoint commands (cs : list PlaybackCommand) (s : Session) : Session * list (option (result unit PlaybackError)) :=
  match cs with
  | [] => (s, [])
  | c :: cs =>
      let '(s, r) := handle_command dial e timeouts c s in
      let '(s, rs) := commands cs s in
      (s, r :: rs)
  end.
Fixpoint commands_spec (n : N) (cs : list PlaybackCommand) (x : Sound) : option Sound :=
  match cs with [] => Some x | c :: cs => x ← command_spec n c x; commands_spec n cs x end.
Lemma commands_correct cs (s : Session) x : steady (conn s) -> commands_spec (stocked s) cs (sound_of s) = Some x ->
  exists s', commands cs s = (s', repeat (Some (Ok tt)) (length cs)) /\ became x s s'.
Proof.
  revert s. induction cs as [|c cs IH]; intros s Hs; cbn [commands commands_spec].
  { intros [= <-]. exists s. done. }
  intros Hx. destruct (command_spec _ c _) as [y|] eqn:Hy; [|done]. cbn [mbind option_bind] in Hx.
  destruct (handle_correct c s y Hs Hy) as (s1 & -> & H1 & H2 & H3). rewrite <-H2, <-H3 in Hx.
  destruct (IH s1 H1 Hx) as (s' & -> & H1' & H2' & H3'). exists s'. split; [done|]. split; [done|]. split; [done|].
  by rewrite H3'.
Qed.

(** Commands that do not turn the volume up again. *)
Definition hushed (c : PlaybackCommand) : bool :=
  match c with SetVolume v => v =? 0 | SetMute b => b | _ => true end.
Lemma knob_volume n k d d' : knob_step n k d = Some d' -> (forall v, k <> KVolume v) -> s_volume d' = s_volume d.
Proof.
  destruct k; cbn; intros H Hk; repeat case_match; simplify_eq; try done. by destruct (Hk n0).
Qed.
Lemma resume_volume n d d' : resume_spec n d = Some d' -> s_volume d' = s_volume d.
Proof. unfold resume_spec. repeat case_match; intros H'; simplify_eq; try done; eapply knob_volume; try exact H'; done. Qed.
Lemma on_sound_inv f x y : on_sound f x = Some y -> exists d, f (sounding x) = Some d /\ sounding y = d /\ mute y = mute x /\ remembered y = remembered x.
Proof. unfold on_sound. destruct (f (sounding x)) as [d|]; [|done]. intros [= <-]. by exists d. Qed.
Lemma volume_inv n v m r x y : volume_spec n v m r x = Some y -> s_volume (sounding y) = Some v /\ mute y = m /\ remembered y = r.
Proof. unfold volume_spec. destruct (knob_step n (KVolume v) (sounding x)) as [d|] eqn:E; [|done]. intros [= <-].
  cbn in E. by destruct (v <=? 100); simplify_eq. Qed.
Definition silent (r : N) (x : Sound) : Prop := s_volume (sounding x) = Some 0 /\ mute x = true /\ remembered x = r.
Lemma hushed_silent n c r x y : hushed c = true -> silent r x -> command_spec n c x = Some y -> silent r y.
Proof.
  intros Hc (Hv & Hm & Hr) Hy. unfold silent.
  destruct c as [|p|[]| | | | | |v|[]|b|b|b|b|path]; cbn [command_spec hushed] in *; try done;
    first [apply on_sound_inv in Hy as (d & Hd & <- & -> & ->); split_and!; try done; rewrite <-Hv;
             first [by eapply resume_volume|by eapply knob_volume]
          |apply volume_inv in Hy as (-> & -> & ->)].
  - apply N.eqb_eq in Hc as ->. done.
  - by rewrite Hm.
Qed.
Lemma hushed_all n cs r x y : Forall (fun c => hushed c = true) cs -> silent r x -> commands_spec n cs x = Some y -> silent r y.
Proof.
  intros Hc. revert x. induction Hc as [|c cs Hc _ IH]; intros x Hx; cbn [commands_spec]; [by intros [= <-]|].
  destruct (command_spec n c x) as [z|] eqn:Ez; [|done]. apply IH. by eapply hushed_silent.
Qed.
Lemma commands_spec_app n cs cs' x : commands_spec n (cs ++ cs') x = (y ← commands_spec n cs x; commands_spec n cs' y).
Proof. revert x. induction cs as [|c cs IH]; intros x; [done|]. cbn. destruct (command_spec n c x); [apply IH|done]. Qed.


End refinement.

(** ** The end of the attempts *)

Section attempts.
Context {P F : Type} `{Hpeer : Peer P}.
Context (dial : N -> P -> Dialled (P := P)) (e : MpdEndpoint) (timeouts : ConnectTimeouts).

(** C13: Reconnecting ends: with the connection of the first attempt that succeeds, the error of the
    first that fails for good, or after ten attempts and 42.7 seconds of waiting; an attempt is made only when all
    before it failed in passing. *)
Theorem reconnect_correct (s : Session P F) :
  let open k := open_attempt dial e timeouts (when delays (clock (conn s)) k) (peer (conn s)) in
  let passing k := forall j, (j < k)%nat -> exists err, open j = Err err /\ error_calls_for_reconnect err = true in
  match reconnect_cmd_conn dial e timeouts s with
  | (s', Ok _) => exists k, (k < 10)%nat /\ open k = Ok (conn s') /\ passing k
  | (s', Err err) =>
      (err = ConnectionExhausted 10 /\ passing 10%nat /\ clock (conn s') = clock (conn s) + 42700) \/
      exists k err', (k < 10)%nat /\ open k = Err err' /\ error_calls_for_reconnect err' = false /\
        err = classify_command_error err' /\ passing k
  end.
Proof.
  intros open passing. unfold reconnect_cmd_conn. rewrite reconnecting_delays.
  pose proof (try_delays_correct dial e timeouts error_calls_for_reconnect delays (clock (conn s)) (peer (conn s))) as H.
  destruct (try_delays _ _ _ _ _ _ _) as [now [l|n|err]].
  - destruct H as (k & Hk & -> & Ho & Hf). exists k. cbn. done.
  - destruct H as (-> & -> & Hf). left. done.
  - destruct H as (k & Hk & -> & Ho & Hr & Hf). right. by exists k, err.
Qed.
End attempts.

(** ** The source format follows the song *)

Section formats.
Context {P F : Type} `{Hpeer : Peer P}.
Context (music_directory : option str) (probe_source_format : str -> str -> option F).
Notation Session := (Session P F).
Notation report := (emit_best_effort_report music_directory probe_source_format).

Definition format_of (x : Emission F) : option (option F) := match x with SourceFormat f => Some f | _ => None end.
Definition song_of (x : Emission F) : option (option str) :=
  match x with NowPlaying r => Some (c_file_path <$> r_current_song r) | _ => None end.
(** The format and the song that subscribers see. *)
Definition shown_format (s : Session) : option F := default None (last (omap format_of (emissions s))).
Definition shown_song (s : Session) : option str := default None (last (omap song_of (emissions s))).
(** The format of a file, read from its head. *)
Definition format_at (file : option str) : option F :=
  f ← file; base ← music_directory; codec ← derive_source_codec_name f; probe_source_format (join base f) codec.

Lemma shown_emit (x : Emission F) (s : Session) :
  shown_format (emit x s) = match x with SourceFormat f => f | _ => shown_format s end.
Proof. unfold shown_format, emit. cbn [emissions]. rewrite omap_app. destruct x; cbn; by rewrite ?app_nil_r, ?last_snoc. Qed.

Definition coherent (s : Session) : Prop := shown_format s = format_at (probed_file s).
Definition tagged_codec (song : option MpdSong) : Prop :=
  forall g, song = Some g -> codec_name g = derive_source_codec_name (t_file (song_tags g)).

Lemma probe_coherent song (s : Session) : coherent s -> tagged_codec song ->
  let s' := maybe_probe_source_format music_directory probe_source_format song s in
  coherent s' /\ probed_file s' = (t_file ∘ song_tags) <$> song.
Proof.
  intros Hs Hc. unfold coherent, maybe_probe_source_format in *. destruct song as [g|]; cbn [fmap option_fmap option_map compose].
  - specialize (Hc g eq_refl). case_bool_decide as E; [by rewrite E in *|].
    destruct music_directory as [base|] eqn:Em; [|rewrite shown_emit; cbn; unfold format_at; by rewrite Em].
    destruct (codec_name g) as [c|]; rewrite shown_emit; cbn; unfold format_at; cbn; by rewrite Em, <-Hc.
  - destruct (probed_file s) eqn:E; [by rewrite shown_emit|]. by rewrite E.
Qed.
Lemma announced_shown song (s : Session) :
  shown_format (maybe_emit_subjects song s) = shown_format s /\ probed_file (maybe_emit_subjects song s) = probed_file s.
Proof.
  unfold maybe_emit_subjects. destruct song as [g|]; [|done]. destruct (str_is_empty _); [done|]. case_bool_decide; [done|].
  unfold shown_format, with_files, emit. cbn [emissions probed_file]. by rewrite omap_app, app_nil_r.
Qed.

Lemma now_playing_shown status song m (s : Session) : coherent s -> probed_file s = (t_file ∘ song_tags) <$> song ->
  let s' := emit (NowPlaying (from_mpd status song m)) s in
  coherent s' /\ shown_song s' = (t_file ∘ song_tags) <$> song /\ shown_format s' = format_at (shown_song s').
Proof.
  intros Hs Hp s'. assert (Hf : shown_format s' = shown_format s) by apply shown_emit.
  assert (Hsong : shown_song s' = (t_file ∘ song_tags) <$> song).
  { unfold shown_song, s', emit. cbn [emissions]. rewrite omap_app. cbn. rewrite last_snoc. by destruct song. }
  unfold coherent in *. split; [by rewrite Hf|]. split; [exact Hsong|]. by rewrite Hf, Hsong, Hs, Hp.
Qed.

(** Every report leaves the subjects in step: the format that is shown is that of the song
    that is shown. *)
Lemma publish_coherent status song (s : Session) : coherent s -> tagged_codec song ->
  let s' := publish music_directory probe_source_format status song s in
  coherent s' /\ shown_song s' = (t_file ∘ song_tags) <$> song /\ shown_format s' = format_at (shown_song s').
Proof.
  intros Hs Hc. unfold publish. set (s1 := maybe_emit_subjects _ _). set (s2 := emit _ s1).
  assert (H2 : coherent s2).
  { unfold coherent, s2. rewrite shown_emit. unfold emit. cbn [probed_file].
    destruct (announced_shown song (emit (Reported (serialise (from_mpd status song (muted s)))) s)) as [H1 H3].
    fold s1 in H1, H3. rewrite H1, H3, shown_emit. exact Hs. }
  destruct (probe_coherent song s2 H2 Hc) as [H3 Hp]. set (s3 := maybe_probe_source_format _ _ _ _) in *.
  by apply now_playing_shown.
Qed.

Lemma parsed_codec fs song : parse_current_song fs = Some (Ok song) -> tagged_codec song.
Proof.
  unfold parse_current_song, tagged_codec. destruct fs as [|f fs]; [by intros [= <-] g|].
  destruct (over _ _ _) as [[[seen t]|]|]; cbn; [|done..]. intros [= <-] g. destruct seen; [|done]. by intros [= <-].
Qed.
Lemma queried_codec l l' song : MpdLink.current_song l = (l', Some (Ok song)) -> tagged_codec song.
Proof.
  unfold MpdLink.current_song, call. destruct (dispatch _ _ _) as [l1 [fs|err]]; cbn [lift andthen]; [|done].
  intros [= _ H]. by eapply parsed_codec.
Qed.

(** The life of the task: from [spawn], turn after turn, with anything in the channels. *)
Context (dial : N -> P -> Dialled (P := P)) (e : MpdEndpoint) (timeouts : ConnectTimeouts).
Inductive living : Session -> Prop :=
| spawned p now settings mute s idle_conn :
    spawn dial e timeouts music_directory probe_source_format p now settings mute = Some (Ok (s, idle_conn)) -> living s
| turned s i s' reply i' :
    living s -> turn dial e timeouts music_directory probe_source_format s i = Goes s' reply i' -> living s'.

(** What commands leave alone. *)
Definition unsaid (s s' : Session) : Prop := emissions s' = emissions s /\ probed_file s' = probed_file s.
Lemma on_conn_unsaid {A} (v : Verb (P := P) A) s : unsaid s (on_conn v s).1.
Proof. unfold on_conn. by destruct (v (conn s)). Qed.
Lemma dispatch_unsaid c s : unsaid s (dispatch_command c s).1.
Proof.
  destruct c as [|p|[]| | | | | |v|[]|b|b|b|b|path]; try apply on_conn_unsaid; cbn [dispatch_command].
  - destruct (0 <? v); [apply (on_conn_unsaid _ (with_muted false s))|apply on_conn_unsaid].
  - destruct (muted s); [apply (on_conn_unsaid _ (with_muted true s))|].
    pose proof (on_conn_unsaid MpdLink.status s) as H. destruct (on_conn MpdLink.status s) as [s1 [[st|err]|]]; cbn [fst] in *; try done.
    destruct (s_volume st) as [v|]; [destruct (0 <? v)|];
      match goal with |- unsaid s (on_conn ?w ?x).1 => pose proof (on_conn_unsaid w x) as [H1 H2]; destruct H as [H3 H4];
        split; [by rewrite H1|by rewrite H2] end.
  - apply (on_conn_unsaid _ (with_muted false s)).
Qed.
Lemma reconnect_unsaid s : unsaid s (reconnect_cmd_conn dial e timeouts s).1.
Proof. unfold reconnect_cmd_conn. by destruct (reconnecting _ _ _ _ _) as [now [l|n|err]]. Qed.
Lemma try_unsaid {A} (f : Session -> Session * Parse A) s : (forall s, unsaid s (f s).1) -> unsaid s (try_twice dial e timeouts f s).1.
Proof.
  intros Hf. unfold try_twice. pose proof (Hf s) as H. destruct (f s) as [s1 [[a|err]|]]; try done.
  destruct (negb _); [done|]. pose proof (reconnect_unsaid s1) as H'.
  destruct (reconnect_cmd_conn dial e timeouts s1) as [s2 [u|err']].
  - pose proof (Hf s2) as H2. destruct (f s2) as [s3 r]. cbn [fst] in *. destruct H, H', H2. split; congruence.
  - cbn [fst] in *. destruct H, H'. split; congruence.
Qed.

Definition in_step (s : Session) : Prop := coherent s /\ shown_format s = format_at (shown_song s).
Lemma unsaid_in_step s s' : unsaid s s' -> in_step s -> in_step s'.
Proof. intros [H1 H2] [H3 H4]. unfold in_step, coherent, shown_format, shown_song in *. by rewrite H1, H2. Qed.
Lemma now_playing_in_step status song m s : coherent s -> probed_file s = (t_file ∘ song_tags) <$> song ->
  in_step (emit (NowPlaying (from_mpd status song m)) s).
Proof. intros Hs Hp. by destruct (now_playing_shown status song m s Hs Hp) as (H1 & _ & H3). Qed.
Lemma read_codec s s' status song : on_conn (F := F) read_state s = (s', Some (Ok (status, song))) -> tagged_codec song.
Proof.
  unfold on_conn, read_state, vthen. destruct (MpdLink.status (conn s)) as [l [[st|err]|]]; cbn [pass]; [|done..].
  destruct (MpdLink.current_song l) as [l' [[g|err]|]] eqn:Eg; cbn; [|done..]. intros [= _ _ <-]. by eapply queried_codec.
Qed.
Lemma read_in_step s s' status song : in_step s -> on_conn read_state s = (s', Some (Ok (status, song))) ->
  in_step (publish music_directory probe_source_format status song s').
Proof.
  intros Hs E. pose proof (on_conn_unsaid read_state s) as Hu. rewrite E in Hu.
  destruct (unsaid_in_step _ _ Hu Hs) as [H1 _].
  by destruct (publish_coherent status song s' H1 (read_codec _ _ _ _ E)) as (H2 & _ & H3).
Qed.
Lemma report_in_step s s' : in_step s -> report s = Some s' -> in_step s'.
Proof.
  intros Hs. unfold emit_best_effort_report. pose proof (on_conn_unsaid read_state s) as Hu.
  destruct (on_conn read_state s) as [s1 [[[status song]|err]|]] eqn:E; [| |done].
  - intros [= <-]. by eapply read_in_step.
  - intros [= <-]. by eapply unsaid_in_step.
Qed.
Lemma reported_in_step s r i s' r' i' : in_step s -> reported music_directory probe_source_format s r i = Goes s' r' i' -> in_step s'.
Proof. intros Hs. unfold reported. destruct (report s) as [s1|] eqn:E; [|done]. intros [= <- _ _]. by eapply report_in_step. Qed.
Lemma apply_unsaid x s : unsaid s (apply_audio_protocol_settings x s).
Proof.
  unfold apply_audio_protocol_settings. set (s1 := (on_conn _ s).1).
  destruct (on_conn_unsaid (MpdLink.set_crossfade (crossfade_seconds x)) s) as [H1 H2].
  destruct (on_conn_unsaid (MpdLink.set_single (negb (gapless x))) s1) as [H3 H4]. split; unfold s1 in *; congruence.
Qed.

End formats.

(** ** A player with a volume *)

Record Amp := { amp : MpdReplies.MpdStatus; amp_songs : N }.
Definition knob_of (cmd : str) (args : list str) : option Knob :=
  let named c := bool_decide (cmd = lit c) in
  match args with
  | [] => if named "stop" then Some KStop else if named "play" then Some KPlay else None
  | [a] =>
      let on := bool_decide (a = lit "1") in
      if named "setvol" then KVolume <$> parse_u32 a
      else if named "play" then KPlayAt <$> parse_u32 a
      else if named "pause" then Some (KPause on)
      else if named "repeat" then Some (KRepeat on)
      else if named "random" then Some (KRandom on)
      else if named "single" then Some (KSingle on)
      else if named "consume" then Some (KConsume on)
      else None
  | _ => None
  end.
Definition amp_execute (cmd : str) (args : list str) (p : Amp) : Amp * Answer :=
  if bool_decide (cmd = lit "status" /\ args = []) then (p, Fields (status_fields (amp p)))
  else
    match k ← knob_of cmd args; knob_step (amp_songs p) k (amp p) with
    | Some d => ({| amp := d; amp_songs := amp_songs p |}, Fields [])
    | None => (p, Refused 2 0 [] [])
    end.
#[export] Instance amp_peer : Peer Amp := serving amp_execute.
#[export] Instance amp_obedient : Obedient Amp 3000 := serving_obedient amp_execute.

Definition amp_ok (p : Amp) : Prop := status_ok_to_print (amp p) /\ amp_songs p <= U32_MAX.
Lemma knob_step_ok n k d d' : n <= U32_MAX -> status_ok_to_print d -> knob_step n k d = Some d' -> status_ok_to_print d'.
Proof.
  intros Hn (H1 & H2 & H3 & H4 & H5 & H6). unfold status_ok_to_print.
  destruct k; cbn [knob_step]; intros H; repeat case_match; simplify_eq; split_and!; try done; intros x [= <-].
  - by apply N.leb_le.
  - destruct (s_song_position d) as [q|]; [by apply H2|done].
  - match goal with H : (_ <? _) = true |- _ => apply N.ltb_lt in H end. lia.
Qed.
Lemma knob_known n k d d' : n <= U32_MAX -> knob_step n k d = Some d' -> knob_of (lit (knob_words k).1) (knob_words k).2 = Some k.
Proof.
  intros Hn H. destruct k as [v|[]| | |p|[]|[]|[]|[]]; try reflexivity; cbn in H.
  - destruct (N.leb_spec v 100); [|done]. cbn -[dec parse_u32]. unfold parse_u32. rewrite parse_uint_dec; [done|]. change U32_MAX with 4294967295. lia.
  - destruct (N.ltb_spec p n); [|done]. cbn -[dec parse_u32]. unfold parse_u32. rewrite parse_uint_dec; [done|lia].
Qed.
Lemma knob_sayable k : command_word (lit (knob_words k).1) /\ Forall sayable (knob_words k).2 /\
  bool_decide (lit (knob_words k).1 = lit "status" /\ (knob_words k).2 = []) = false.
Proof.
  destruct k as [v|[]| | |p|[]|[]|[]|[]]; (split; [by apply word_decide|]; split; [|first [reflexivity|by apply bool_decide_eq_false_2; intros []]]);
    cbn [knob_words snd]; first [apply list.Forall_nil_2|apply list.Forall_singleton; first [by apply says_sayable|apply dec_said]].
Qed.
#[export] Program Instance amp_deck : Deck (t := 3000) Amp := { deck := amp; songs := amp_songs; in_order := amp_ok }.
Next Obligation.
  intros p [Hp Hn]. split; [split; [by apply word_decide|]; split; [constructor|by apply printed_status_speakable]|].
  exists (status_fields (amp p)). split; [reflexivity|]. by apply status_roundtrip.
Qed.
Next Obligation.
  intros k p d [Hp Hn] Hk. destruct (knob_sayable k) as (Hw & Ha & Hst). pose proof (knob_known _ _ _ _ Hn Hk) as Hknown.
  assert (E : amp_execute (lit (knob_words k).1) (knob_words k).2 p = ({| amp := d; amp_songs := amp_songs p |}, Fields [])).
  { unfold amp_execute. rewrite Hst, Hknown. cbn [mbind option_bind]. by rewrite Hk. }
  split; [split; [done|]; split; [done|]; rewrite E; constructor|].
  eexists. split; [exact E|]. split; [done|]. split; [done|]. split; [|done]. by eapply knob_step_ok.
Qed.

(** ** Sessions at work *)

Definition greeting : list Arrival := at_once [lit "OK MPD 0.24.0"].
Definition session {P F} (l : Link P) : Session P F :=
  {| conn := l; muted := false; pre_mute_volume := 50; emitted_file := None; probed_file := None; emissions := [] |}.
Definition localhost : MpdEndpoint := Tcp (lit "localhost") 6600.
Definition loud : Amp := {| amp := MpdReplies.set_volume (Some 60) (playing_at 1 no_status); amp_songs := 3 |}.
Lemma loud_ok : amp_ok loud.
Proof. split; [|done]. by split_and!; try done; intros n [= <-]. Qed.
Definition nobody (now : N) (p : Amp) : Dialled (P := Amp) := ConnectElapsed.


(** A player that comes back after half a second; the connection to it was closed. *)
Definition back_later (now : N) (p : Amp) : Dialled (P := Amp) :=
  if now <? 500 then ConnectFailed (OtherIo (lit "refused")) else Connected p greeting.
Definition closed_link : Link Amp :=
  {| peer := loud; inbox := [{| after := 0; what := Text [] |}]; version := version (fresh_link loud); endpoint := localhost;
     command_timeout := 3000; clock := 0 |}.

(** A player that plays a script, and lists what it heard. *)
Record Listener := { heard : list (list N); script : Script }.
#[export] Instance listener_peer : Peer Listener := fun bytes p =>
  match script p with
  | [] => ({| heard := heard p ++ [bytes]; script := [] |}, [], Written)
  | (arrs, w) :: rest => ({| heard := heard p ++ [bytes]; script := rest |}, arrs, w)
  end.
Definition answering (answers : Script) (now : N) (p : Listener) : Dialled (P := Listener) :=
  Connected {| heard := heard p; script := answers |} greeting.
Definition ok : list Arrival * WriteOutcome := (at_once [lit "OK"], Written).
Definition says_status (state file : string) : Script :=
  [(at_once [lit "state: " ++ lit state; lit "OK"], Written); (at_once [lit "file: " ++ lit file; lit "OK"], Written)].

(** The song changes, and the format that is shown with it. *)
Definition demo_probe (path codec : str) : option str := Some (path ++ lit " " ++ codec).
Definition demo_answers : Script := ok :: ok :: says_status "play" "a.flac" ++ says_status "play" "b.dsf".
Definition demo_spawn : option (result (Session Listener str * Link Listener) PlaybackError) :=
  spawn (answering demo_answers) localhost ConnectTimeouts_default (Some (lit "/music")) demo_probe {| heard := []; script := [] |} 0
    {| crossfade_seconds := 0; gapless := true |} false.
Definition woken : Channels :=
  {| shutdown := false; messages := []; senders := true; idle_events := [Changed [Player]]; idle_open := true; settings := None; settings_open := true |}.
Definition demo_session : option (Session Listener str) :=
  match demo_spawn with
  | Some (Ok (s, _)) =>
      match turn (answering demo_answers) localhost ConnectTimeouts_default (Some (lit "/music")) demo_probe s woken with
      | Goes s' _ _ => Some s'
      | _ => None
      end
  | _ => None
  end.
Lemma demo_living s : demo_session = Some s -> living (Some (lit "/music")) demo_probe (answering demo_answers) localhost ConnectTimeouts_default s.
Proof.
  unfold demo_session. destruct demo_spawn as [[[s0 l]|]|] eqn:E0; [|done..]. destruct (turn _ _ _ _ _ s0 woken) as [| | |s1 r i] eqn:E1; [done..|].
  intros [= <-]. eapply turned; [|exact E1]. eapply spawned. exact E0.
Qed.

(** *** What goes wrong *)

(** A command that was carried out but answered too late is sent again: one press skips two
    songs. *)
Theorem late_answer_skips_twice :
  let s : Session Listener unit := session (fresh_link {| heard := []; script := [([{| after := 4000; what := Text (lit "OK" ++ [LF]) |}], Written)] |}) in
  let o := handle_command (answering [ok]) localhost ConnectTimeouts_default Next s in
  o.2 = Some (Ok tt) /\ heard (peer (conn o.1)) = [as_bytes (lit "next" ++ [LF]); as_bytes (lit "next" ++ [LF])].
Proof. vm_compute. split; reflexivity. Qed.

(** A second attempt that is not answered counts as ten attempts to connect, where the first
    one had succeeded. *)
Theorem second_timeout_counts_ten :
  let s : Session Listener unit := session (fresh_link {| heard := []; script := [] |}) in
  let o := handle_command (answering []) localhost ConnectTimeouts_default Stop s in
  o.2 = Some (Err (ConnectionExhausted 10)) /\ clock (conn o.1) = 3000 + 100 + 3000.
Proof. vm_compute. split; reflexivity. Qed.

(** After a violation of the protocol the connection is kept, and the next query is answered
    with what was left of the first: the player said that it had stopped. *)
Theorem violation_keeps_the_connection :
  let script := [(at_once [lit "volume 10"; lit "state: play"; lit "OK"], Written);
                 (at_once [lit "state: stop"; lit "OK"], Written); ok] in
  let s : Session Listener unit := session (fresh_link {| heard := []; script := script |}) in
  let o := handle_query (answering []) localhost ConnectTimeouts_default s in
  let o2 := handle_query (answering []) localhost ConnectTimeouts_default o.1 in
  o.2 = Some (Err (Violation (Protocol (MalformedKeyValue (lit "volume 10"))))) /\
  option_map (fun r => match r with Ok x => Some (r_state x) | Err _ => None end) o2.2 = Some (Some Playing).
Proof. vm_compute. split; reflexivity. Qed.

(** Once the idle task has ended its channel is always ready: the loop goes round without
    waiting, and does not come to the settings. *)
Theorem ended_idle_spins {P F} `{Peer P} dial e timeouts base probe (s : Session P F) (i : Channels) :
  shutdown i = false -> messages i = [] -> senders i = true -> idle_events i = [] -> idle_open i = false ->
  turn dial e timeouts base probe s i = Goes s None i.
Proof. intros H1 H2 H3 H4 H5. unfold turn, ready_arm. by rewrite H1, H2, H3, H4, H5. Qed.
