(* ===== verification/Observers.v ===== *)
(** * Tasks beside the supervisor ([plugins/org.evoframework.playback.mpd],
    [playback_supervisor/ambient_observer.rs], [startup_volume.rs])

    The ambient observer publishes what plays as long as the plugin is loaded, as a step
    machine over its two connections and the notification that stops it.  The startup-volume
    applier sets a volume when the settings arrive and watches that it stays. *)

From stdpp Require Import list relations.
From S2P Require Import Prelude MpdProtocol MpdServer Durations MpdReplies MpdLink MpdPlayer PlaybackReport Paths Supervisor.
Local Open Scope N_scope.

(** ** The ambient observer *)

Section ambient.
Context {P F : Type} `{Hpeer : Peer P}.
Context (dial : N -> P -> Dialled (P := P)) (e : MpdEndpoint) (timeouts : ConnectTimeouts).
Context (music_directory : option str) (probe_source_format : str -> str -> option F).
Notation Session := (Session P F).
Notation open := (open_attempt dial e timeouts).

(** Where the task of [run] is: at the top of its loop, connecting, in [run_inner] with the
    connection for [idle], waiting for the next attempt, or ended. *)
Inductive Stage := Top | Opening | Idling (idle_conn : Link P) | Sleeping | Exited | Panicked.
(** The task: the session has the command connection, the last file that was probed and what
    went out; [permit] is the notification that is stored. *)
Record Observer := { stage : Stage; permit : bool; view : Session }.
Definition at_stage (g : Stage) (o : Observer) : Observer := {| stage := g; permit := permit o; view := view o |}.
Definition taken (g : Stage) (o : Observer) : Observer := {| stage := g; permit := false; view := view o |}.

(** [open_pair] at a time *)
Definition open_pair (now : N) (p : P) : option (Link P * Link P) :=
  match open now p with
  | Ok cmd_conn => match open (clock cmd_conn) (peer cmd_conn) with Ok idle_conn => Some (cmd_conn, idle_conn) | Err _ => None end
  | Err _ => None
  end.
(** [emit_now_playing], given the mute of the moment *)
Definition announce (status : MpdReplies.MpdStatus) (song : option MpdSong) (s : Session) : Session :=
  let s := emit (SourceCodec (g ← song; codec_name g)) s in
  let s := maybe_probe_source_format music_directory probe_source_format song s in
  emit (NowPlaying (from_mpd status song (muted s))) s.
Definition emit_now_playing (mute : bool) (s : Session) : option Session :=
  let '(s, r) := on_conn read_state (with_muted mute s) in
  match r with
  | None => None
  | Some (Err _) => Some s
  | Some (Ok (status, song)) => Some (announce status song s)
  end.
Definition after_emit (mute : bool) (g : Stage) (o : Observer) : Observer :=
  match emit_now_playing mute (view o) with
  | Some s => {| stage := g; permit := permit o; view := s |}
  | None => at_stage Panicked o
  end.

(** A step; where a [select!] has several arms that are ready, each is a step. *)
Inductive step : Observer -> Observer -> Prop :=
| top_exits o : stage o = Top -> permit o = true -> step o (taken Exited o)
| top_goes_on o : stage o = Top -> step o (at_stage Opening o)
| opened o now mute cmd_conn idle_conn : stage o = Opening -> open_pair now (peer (conn (view o))) = Some (cmd_conn, idle_conn) ->
    step o (after_emit mute (Idling idle_conn) {| stage := Opening; permit := permit o; view := with_conn cmd_conn (view o) |})
| not_opened o now : stage o = Opening -> open_pair now (peer (conn (view o))) = None -> step o (at_stage Sleeping o)
| slept o : stage o = Sleeping -> step o (at_stage Top o)
| woken_up o : stage o = Sleeping -> permit o = true -> step o (taken Top o)
| idle_stopped o l : stage o = Idling l -> permit o = true -> step o (taken Top o)
| idle_nothing o l l' : stage o = Idling l -> MpdLink.idle IDLE_SUBSYSTEMS IDLE_BUDGET l = (l', Ok []) -> step o (at_stage (Idling l') o)
| idle_changed o l l' ev evs mute : stage o = Idling l -> MpdLink.idle IDLE_SUBSYSTEMS IDLE_BUDGET l = (l', Ok (ev :: evs)) ->
    step o (after_emit mute (Idling l') o)
| idle_failed o l l' err : stage o = Idling l -> MpdLink.idle IDLE_SUBSYSTEMS IDLE_BUDGET l = (l', Err err) -> step o (at_stage Top o).
(** [AmbientObserverHandle::stop] stores the notification, then waits for the task to end. *)
Definition stop (o : Observer) : Observer := {| stage := stage o; permit := true; view := view o |}.

(** *** What subscribers see *)

Notation in_step := (in_step music_directory probe_source_format).
Lemma announce_in_step status song (s : Session) : in_step s -> tagged_codec song -> in_step (announce status song s).
Proof.
  intros [Hs Hf] Hc. unfold announce. set (s1 := emit (SourceCodec _) s).
  assert (H1 : coherent music_directory probe_source_format s1) by (unfold coherent, s1; rewrite shown_emit; exact Hs).
  destruct (probe_coherent music_directory probe_source_format song s1 H1 Hc) as [H2 Hp].
  set (s2 := maybe_probe_source_format _ _ _ _) in *. apply now_playing_in_step; [exact H2|exact Hp].
Qed.
Lemma emitted_in_step mute (s s' : Session) : in_step s -> emit_now_playing mute s = Some s' -> in_step s'.
Proof.
  intros Hs. unfold emit_now_playing.
  assert (H0 : in_step (with_muted mute s)) by (apply (unsaid_in_step _ _ s); [by split|exact Hs]).
  pose proof (on_conn_unsaid read_state (with_muted mute s)) as Hu.
  destruct (on_conn read_state (with_muted mute s)) as [s1 [[[status song]|err]|]] eqn:E; [| |done].
  - intros [= <-]. apply announce_in_step; [by eapply unsaid_in_step|]. by eapply read_codec.
  - intros [= <-]. by eapply unsaid_in_step.
Qed.
Lemma after_emit_in_step mute g o : in_step (view o) -> in_step (view (after_emit mute g o)).
Proof. intros Ho. unfold after_emit. destruct (emit_now_playing mute (view o)) as [s|] eqn:E; [by eapply emitted_in_step|done]. Qed.

Lemma step_in_step o o' : in_step (view o) -> step o o' -> in_step (view o').
Proof. intros Ho H. destruct H; try exact Ho; by apply after_emit_in_step. Qed.

(** In every run of the observer, across its reconnections, the source format that is shown is that of the song
    that is shown. *)
Theorem observed_format_follows_the_song o o' : emissions (view o) = [] -> probed_file (view o) = None -> rtc step o o' ->
  shown_format (view o') = format_at music_directory probe_source_format (shown_song (view o')).
Proof.
  intros He Hp Hr. assert (Ho : in_step (view o)).
  { unfold Supervisor.in_step, coherent, shown_format, shown_song. rewrite !He, ?Hp. split; reflexivity. }
  assert (in_step (view o')) as [_ Hf]; [|exact Hf]. clear He Hp. induction Hr as [|a b c Hab _ IH]; [done|].
  apply IH. by eapply step_in_step.
Qed.

(** *** Stopping *)

Lemma unpermitted o o' : permit o = false -> stage o <> Exited -> step o o' -> permit o' = false /\ stage o' <> Exited.
Proof.
  intros Hp Hs H. destruct H; cbn; try congruence; try (by split); unfold after_emit; destruct (emit_now_playing _ _); cbn; by split.
Qed.
(** A stop that reaches the observer while it idles or waits is used up there: the loop goes on, and never
    ends, so that the one who stops it waits for ever. *)
Theorem stop_is_swallowed o o1 o2 : (stage o = Sleeping \/ exists l, stage o = Idling l) -> step (stop o) o1 -> permit o1 = false ->
  rtc step o1 o2 -> stage o2 <> Exited.
Proof.
  intros Hs H Hp Hr. assert (H1 : stage o1 <> Exited).
  { clear Hr. intros E. remember (stop o) as so eqn:Eso.
    assert (Hso : stage so = stage o /\ permit so = true) by by subst. clear Eso. destruct Hso as [Hg Hpp].
    destruct H; unfold after_emit in *; try destruct (emit_now_playing _ _); cbn in *; try congruence.
    destruct Hs as [Hs|[? Hs]]; congruence. }
  clear H Hs. induction Hr as [|a b c Hab _ IH]; [done|]. destruct (unpermitted a b Hp H1 Hab) as [Hp' H1']. by apply IH.
Qed.
End ambient.

(** ** The startup volume *)

(** [StartupVolume], [effective] *)
Record StartupVolume := { startup_percent : N; max_percent : N }.
Definition effective (v : StartupVolume) : N := N.min (startup_percent v) (max_percent v).
Definition APPLY_DEADLINE : N := 60000.
Definition INITIAL_BACKOFF : N := 200.
Definition MAX_BACKOFF : N := 5000.
Definition STABILITY_WINDOW : N := 2000.
Definition STABILITY_POLL_INTERVAL : N := 250.

Section startup.
Context {P : Type} `{Hpeer : Peer P}.
Context (dial : N -> P -> Dialled (P := P)) (e : MpdEndpoint) (timeouts : ConnectTimeouts).
Notation open := (open_attempt dial e timeouts).

(** How a cycle ended; the texts of the errors are left out. *)
Inductive Cycle := Stable | Failed | Crashed | OutOfFuel.
(** The polls up to the end of the window, each over a connection of its own. *)
Fixpoint verify (fuel : nat) (end_ level now : N) (p : P) : N * P * Cycle :=
  match fuel with
  | O => (now, p, OutOfFuel)
  | S fuel =>
      if end_ <=? now then (now, p, Stable)
      else
        let now := now + STABILITY_POLL_INTERVAL in
        match open now p with
        | Err _ => (now, p, Failed)
        | Ok conn =>
            let '(conn, r) := MpdLink.status conn in
            match r with
            | None => (clock conn, peer conn, Crashed)
            | Some (Err _) => (clock conn, peer conn, Failed)
            | Some (Ok status) =>
                if bool_decide (s_volume status = Some level) then verify fuel end_ level (clock conn) (peer conn)
                else (clock conn, peer conn, Failed)
            end
        end
  end.
(** [apply_and_verify_stable]: nine turns are enough, since each takes a quarter of a second. *)
Definition apply_and_verify_stable (level now : N) (p : P) : N * P * Cycle :=
  match open now p with
  | Err _ => (now, p, Failed)
  | Ok conn =>
      let '(conn, r) := MpdLink.set_volume level conn in
      match r with
      | None => (clock conn, peer conn, Crashed)
      | Some (Err _) => (clock conn, peer conn, Failed)
      | Some (Ok _) => verify 9 (clock conn + STABILITY_WINDOW) level (clock conn) (peer conn)
      end
  end.

(** The loop of [run] once the settings are known: cycles until one is stable, the deadline
    is over or the task is stopped, at [stop_at] if ever. *)
Inductive Settled := Applied (attempts : nat) | GaveUpAt (attempts : nat) | Stopped | Died | NoFuel.
Fixpoint settle (fuel : nat) (stop_at : option N) (deadline backoff level now : N) (attempts : nat) (p : P) : N * P * Settled :=
  match fuel with
  | O => (now, p, NoFuel)
  | S fuel =>
      let attempts := S attempts in
      let '(now, p, c) := apply_and_verify_stable level now p in
      match c with
      | Stable => (now, p, Applied attempts)
      | Crashed => (now, p, Died)
      | Failed | OutOfFuel =>
          if deadline <=? now then (now, p, GaveUpAt attempts)
          else
            match stop_at with
            | Some at_ => if at_ <=? now + backoff then (now, p, Stopped)
                          else settle fuel stop_at deadline (N.min (backoff * 2) MAX_BACKOFF) level (now + backoff) attempts p
            | None => settle fuel stop_at deadline (N.min (backoff * 2) MAX_BACKOFF) level (now + backoff) attempts p
            end
      end
  end.
Definition apply_startup (stop_at : option N) (v : StartupVolume) (now : N) (p : P) : N * P * Settled :=
  settle 301 stop_at (now + APPLY_DEADLINE) INITIAL_BACKOFF (effective v) now 0 p.

(** *** The applier ends *)

Lemma dispatch_clock cmd args (l : Link P) : clock l <= clock (dispatch cmd args l).1.
Proof.
  unfold dispatch. destruct (serialise_command cmd args) as [b|err]; [|done]. unfold write_all.
  destruct (hear b (peer l)) as [[p arrs] []]; cbn; [|lia|lia]. unfold reading. cbn [clock inbox]. rewrite N.add_0_r.
  assert (H : forall ib now s, now <= (read_loop (fun _ => command_timeout l) (lit "read_response") never as_is response_step ib now s).1.2).
  { induction ib as [|a ib IH]; intros now s; cbn [read_loop never].
    - cbn. lia.
    - destruct (timed_read (command_timeout l) (a :: ib)) as [[ib' took] out]. destruct (read_line_with_timeout _ _ _) as [line|]; [|cbn; lia].
      destruct (classify_line line) as [c|]; [|cbn; lia]. destruct (response_step c s); [|cbn; lia].
      etransitivity; [|apply IH]. lia. }
  specialize (H (inbox l ++ arrs) (clock l) []). destruct (read_loop _ _ _ _ _ _ _ _) as [[ib now] r]. exact H.
Qed.
Lemma call_clock {A} cmd args (k : list Field -> Parse A) (l : Link P) : clock l <= (clock (call cmd args k l).1).
Proof. unfold call. pose proof (dispatch_clock (lit cmd) args l). by destruct (dispatch (lit cmd) args l). Qed.
Lemma open_clock now p l : open now p = Ok l -> now <= clock l.
Proof.
  unfold open_attempt, connect_with_timeouts, handshake. destruct (open_streams _ _ _) as [[p' g]|]; [|done]. cbn [fst snd].
  destruct (timed_read _ g) as [[ib took] out]. destruct (read_line_with_timeout _ _ _); [|done].
  destruct (map_err _ _); [|done]. intros [= <-]. cbn. lia.
Qed.
Lemma verify_later fuel end_ level now p : now <= (verify fuel end_ level now p).1.1.
Proof.
  revert now p. induction fuel as [|fuel IH]; intros now p; cbn [verify]; [done|]. destruct (end_ <=? now); [done|].
  destruct (open (now + STABILITY_POLL_INTERVAL) p) as [conn|] eqn:Eo; [|cbn; lia]. apply open_clock in Eo.
  pose proof (call_clock "status" [] parse_status conn) as H. unfold MpdLink.status.
  destruct (call "status" [] parse_status conn) as [conn' [[st|]|]]; cbn [fst] in H; [case_bool_decide|..]; try (cbn; lia).
  etransitivity; [|apply IH]. lia.
Qed.
Lemma verify_fuel fuel end_ level now p : end_ <= now + STABILITY_POLL_INTERVAL * N.of_nat fuel ->
  (verify (S fuel) end_ level now p).2 <> OutOfFuel.
Proof.
  revert now p. induction fuel as [|fuel IH]; intros now p Hf.
  - cbn [verify]. by rewrite (proj2 (N.leb_le _ _)) by lia.
  - cbn [verify]. destruct (end_ <=? now); [done|].
    destruct (open (now + STABILITY_POLL_INTERVAL) p) as [conn|] eqn:Eo; [|done]. apply open_clock in Eo.
    pose proof (call_clock "status" [] parse_status conn) as H. unfold MpdLink.status.
    destruct (call "status" [] parse_status conn) as [conn' [[st|]|]]; cbn [fst] in H; [case_bool_decide|..]; try done.
    apply IH. unfold STABILITY_POLL_INTERVAL in *. lia.
Qed.
Lemma cycle_ends level now p : let '(now', _, c) := apply_and_verify_stable level now p in now <= now' /\ c <> OutOfFuel.
Proof.
  unfold apply_and_verify_stable. destruct (open now p) as [conn|] eqn:Eo; [|done]. apply open_clock in Eo.
  pose proof (call_clock "setvol" [dec level] (fun _ => pass tt) conn) as H. unfold MpdLink.set_volume, simple.
  destruct (call "setvol" [dec level] _ conn) as [conn' [[u|]|]]; cbn [fst] in H; [|split; [lia|done]..].
  pose proof (verify_later 9 (clock conn' + STABILITY_WINDOW) level (clock conn') (peer conn')) as H1.
  pose proof (verify_fuel 8 (clock conn' + STABILITY_WINDOW) level (clock conn') (peer conn')) as H2.
  destruct (verify 9 _ _ _ _) as [[now' p'] c]. cbn [fst snd] in *. split; [lia|]. apply H2.
  unfold STABILITY_WINDOW, STABILITY_POLL_INTERVAL. lia.
Qed.
Lemma settle_ends fuel stop_at deadline backoff level now attempts p :
  INITIAL_BACKOFF <= backoff -> deadline <= now + INITIAL_BACKOFF * N.of_nat fuel ->
  (settle (S fuel) stop_at deadline backoff level now attempts p).2 <> NoFuel.
Proof.
  revert backoff now attempts p. induction fuel as [|fuel IH]; intros backoff now attempts p Hb Hd.
  all: cbn [settle]; pose proof (cycle_ends level now p) as Hc; destruct (apply_and_verify_stable level now p) as [[now' p'] c]; destruct Hc as [Hn Hc].
  - destruct c; try done; by rewrite (proj2 (N.leb_le deadline now')) by lia.
  - assert (Hgo : (settle (S fuel) stop_at deadline (N.min (backoff * 2) MAX_BACKOFF) level (now' + backoff) (S attempts) p').2 <> NoFuel).
    { apply IH; unfold INITIAL_BACKOFF, MAX_BACKOFF in *; lia. }
    destruct c; try done; (destruct (deadline <=? now'); [done|]); (destruct stop_at as [at_|]; [destruct (at_ <=? _); [done|]|]); exact Hgo.
Qed.
(** Whatever the player does, the applier comes to an end: applied, given up or stopped. *)
Theorem startup_ends stop_at v now p : (apply_startup stop_at v now p).2 <> NoFuel.
Proof. apply settle_ends; unfold INITIAL_BACKOFF, APPLY_DEADLINE; lia. Qed.
End startup.

(** *** The volume holds *)

Section holding.
Context {P : Type} `{Hpeer : Peer P} `{!Obedient P 3000} `{!Deck P}.
Context (dial : N -> P -> Dialled (P := P)) (e : MpdEndpoint).
Context (Hdial : forall now p, dial now p = Connected p greeting).
Notation open := (open_attempt dial e ConnectTimeouts_default).

Lemma open_found now p : in_order p -> exists l, open now p = Ok l /\ steady (t := 3000) l /\ peer l = p.
Proof. intros Hp. unfold open_attempt. rewrite Hdial. by eexists. Qed.
Lemma verify_holds fuel end_ level now p : in_order p -> s_volume (deck p) = Some level ->
  let '(_, p', c) := verify dial e ConnectTimeouts_default fuel end_ level now p in
  s_volume (deck p') = Some level /\ (c = Stable \/ c = OutOfFuel).
Proof.
  revert now p. induction fuel as [|fuel IH]; intros now p Hp Hv; cbn [verify]; [auto|].
  destruct (end_ <=? now); [auto|]. destruct (open_found (now + STABILITY_POLL_INTERVAL) p Hp) as (l & -> & Hl & Hpeer_l).
  destruct (ask_status l Hl) as (l' & -> & [_ Hl'] & Hpeer_l'). cbn [pass]. rewrite Hpeer_l, bool_decide_eq_true_2 by done.
  rewrite Hpeer_l', Hpeer_l in *. by apply IH.
Qed.

Lemma settle_stable fuel stop_at deadline backoff level now attempts p now' p' :
  apply_and_verify_stable dial e ConnectTimeouts_default level now p = (now', p', Stable) ->
  settle dial e ConnectTimeouts_default (S fuel) stop_at deadline backoff level now attempts p = (now', p', Applied (S attempts)).
Proof. intros E. cbn [settle]. by rewrite E. Qed.

(** A player that can be reached gets the startup volume at the first attempt, never above the ceiling,
    and still has it when the applier is done. *)
Theorem startup_volume_applied v stop_at now p : in_order p -> effective v <= 100 ->
  let '(_, p', r) := apply_startup dial e ConnectTimeouts_default stop_at v now p in
  r = Applied 1 /\ s_volume (deck p') = Some (N.min (startup_percent v) (max_percent v)).
Proof.
  intros Hp Hv. unfold apply_startup. pose proof (cycle_ends dial e ConnectTimeouts_default (effective v) now p) as Hc.
  assert (Ha : let '(_, p', c) := apply_and_verify_stable dial e ConnectTimeouts_default (effective v) now p in
            s_volume (deck p') = Some (effective v) /\ (c = Stable \/ c = OutOfFuel)).
  { unfold apply_and_verify_stable. destruct (open_found now p Hp) as (l & -> & Hl & Hpeer_l).
    destruct (turn_knob (KVolume (effective v)) l (MpdReplies.set_volume (Some (effective v)) (deck (peer l))) Hl) as (l' & E & [_ Hl'] & Hd & _).
    { cbn [knob_step]. by rewrite (proj2 (N.leb_le _ _)). }
    change (simple (knob_words (KVolume (effective v))).1 (knob_words (KVolume (effective v))).2) with (MpdLink.set_volume (P := P) (effective v)) in E.
    rewrite E. cbn [pass]. apply verify_holds; [done|]. by rewrite Hd. }
  destruct (apply_and_verify_stable _ _ _ _ now p) as [[now' p'] c] eqn:E. destruct Hc as [_ Hc].
  destruct Ha as [Ha [->| ->]]; [|done]. by rewrite (settle_stable _ _ _ _ _ _ _ _ _ _ E).
Qed.
End holding.

(** *** Examples *)

Lemma startup_volume_applied_witness :
  let v := {| startup_percent := 70; max_percent := 55 |} in
  amp_ok loud /\ effective v <= 100 /\
  let '(_, p', r) := apply_startup (fun _ p => Connected p greeting) localhost ConnectTimeouts_default None v 0 loud in
  r = Applied 1 /\ s_volume (deck p') = Some (N.min 70 55).
Proof.
  intros v. split; [exact loud_ok|]. split; [by apply N.leb_le|].
  apply (startup_volume_applied (P := Amp) (fun _ p => Connected p greeting) localhost (fun _ _ => eq_refl) v None 0 loud).
  - exact loud_ok.
  - by apply N.leb_le.
Defined.

(** An observer of a player that rests, when it is stopped. *)
Definition resting : Observer (P := Amp) (F := unit) := {| stage := Idling (fresh_link loud); permit := false; view := session (fresh_link loud) |}.
Lemma stop_is_swallowed_witness :
  let dial now (p : Amp) := Connected p greeting in
  let step := step dial localhost ConnectTimeouts_default None (fun _ _ => None) in
  step (stop resting) (taken Top (stop resting)) /\
  forall o, rtc step (taken Top (stop resting)) o -> stage o <> Exited.
Proof.
  intros dial step. assert (H : step (stop resting) (taken Top (stop resting))) by (eapply idle_stopped; reflexivity).
  split; [exact H|]. intros o. eapply (stop_is_swallowed _ _ _ _ _ resting); [right; by eexists|exact H|reflexivity].
Defined.
