(* ===== verification/SourceProbe.v ===== *)
(** * Probing the head of a music file ([plugins/org.evoframework.playback.mpd],
    [source_probe.rs])

    The readers of the headers of sixteen file formats, and of the directives of
    [mpd.conf].  Bytes are [N] below 256, an offset is a [usize] of 64 bits, and its
    arithmetic is that of a release build, which wraps.  The walks over chunks have fuel;
    that they run out of any amount is a file on which the code does not end.  The theorems
    write headers and read them back, and say which files are read in the end. *)

From stdpp Require Import list.
From S2P Require Import Prelude.
Local Open Scope N_scope.

(** ** Formats (of the framework's SDK, as far as they are built here) *)

Inductive PcmCodec := PcmS16Le | PcmS24Le | PcmS32Le.
Inductive DsdRate := Dsd64 | Dsd128 | Dsd256 | Dsd512.
Inductive EncodedBitrate := Cbr (kbps : N) | Vbr (avg_kbps : N) | Unknown.
(** A DSD stream is always of the transport for native USB. *)
Inductive AudioFormat :=
| Pcm (codec : PcmCodec) (rate_hz channels : N)
| Dsd (rate : DsdRate) (channels : N)
| EncodedPassthrough (codec : str) (rate_hz channels : N) (bitrate : option EncodedBitrate).

(** ** Reading bytes *)

Definition PROBE_HEAD_BYTES : N := 4096.
Definition len (b : list N) : N := N.of_nat (length b).
Definition w64 (n : N) : N := n mod 2 ^ 64.
(** [checked_add] of a [usize] *)
Definition checked_add (a b : N) : option N := if a + b <? 2 ^ 64 then Some (a + b) else None.

(** [b.get(i..)] and [b.get(i..i + n)] *)
Fixpoint skip (i : N) (b : list N) : option (list N) :=
  if i =? 0 then Some b else match b with [] => None | _ :: b' => skip (i - 1) b' end.
Fixpoint firsts (n : nat) (b : list N) : option (list N) :=
  match n with
  | O => Some []
  | S n => match b with [] => None | c :: b' => option_map (cons c) (firsts n b') end
  end.
Definition get (b : list N) (i : N) (n : nat) : option (list N) := s ← skip i b; firsts n s.
Definition byte_at (b : list N) (i : N) : option N := s ← get b i 1; head s.

Definition from_be (s : list N) : N := foldl (fun n c => n * 256 + c) 0 s.
Definition from_le (s : list N) : N := from_be (rev s).
Definition u32_le (b : list N) (i : N) : option N := from_le <$> get b i 4.
Definition u32_be (b : list N) (i : N) : option N := from_be <$> get b i 4.
Definition u64_le (b : list N) (i : N) : option N := from_le <$> get b i 8.
Definition u64_be_at (b : list N) (i : N) : option N := from_be <$> get b i 8.
Definition u16_le (b : list N) (i : N) : option N := from_le <$> get b i 2.
Definition u16_be (b : list N) (i : N) : option N := from_be <$> get b i 2.
Definition check_magic (b : list N) (i : N) (magic : string) : bool :=
  match get b i (length (lit magic)) with Some s => bool_decide (s = lit magic) | None => false end.
Definition check (c : bool) : option unit := if c then Some tt else None.
(** The low byte, [as u8]. *)
Definition as_u8 (n : N) : N := n mod 256.
Definition bits_of (n shift mask : N) : N := N.land (N.shiftr n shift) mask.

Definition dsd_rate_from_hz (hz : N) : option DsdRate :=
  if hz =? 2822400 then Some Dsd64 else if hz =? 5644800 then Some Dsd128
  else if hz =? 11289600 then Some Dsd256 else if hz =? 22579200 then Some Dsd512 else None.
Definition clamp_channels (n : N) : option N := if (n =? 0) || (32 <? n) then None else Some n.
Definition pcm_codec_from_bits (bits : N) : option PcmCodec :=
  if bits =? 16 then Some PcmS16Le else if bits =? 24 then Some PcmS24Le else if bits =? 32 then Some PcmS32Le else None.
Definition pcm (bits rate_hz channels : N) : option AudioFormat :=
  codec ← pcm_codec_from_bits bits; ch ← clamp_channels channels; Some (Pcm codec rate_hz ch).
Definition encoded (codec : string) (rate_hz channels : N) (bitrate : option EncodedBitrate) : option AudioFormat :=
  ch ← clamp_channels channels; Some (EncodedPassthrough (lit codec) rate_hz ch bitrate).

(** ** Walks *)

(** A reader with loops: no value at all when it does not end. *)
Definition Probe (A : Type) : Type := option (option A).
Definition ends {A} (o : option A) : Probe A := Some o.
Definition then_ {A B} (p : Probe A) (k : A -> option B) : Probe B :=
  match p with None => None | Some None => Some None | Some (Some a) => Some (k a) end.
Definition onward {A B} (p : Probe A) (k : A -> Probe B) : Probe B :=
  match p with None => None | Some None => Some None | Some (Some a) => k a end.
Definition given_ {A B} (o : option A) (k : A -> Probe B) : Probe B := match o with None => Some None | Some a => k a end.

(** A loop: a turn ends it with an answer or gives the next state; with no fuel left it has
    not ended. *)
Inductive Turn (S A : Type) := Done (o : option A) | Next (s : S).
Arguments Done {S A} _.
Arguments Next {S A} _.
Definition need {S A B} (o : option B) (k : B -> Turn S A) : Turn S A := match o with None => Done None | Some b => k b end.
Fixpoint loop {S A} (turn : S -> Turn S A) (fuel : nat) (s : S) : Probe A :=
  match fuel with
  | O => None
  | Datatypes.S fuel => match turn s with Done o => ends o | Next s => loop turn fuel s end
  end.

(** A walk over chunks: [header] bytes of a chunk must be there, [size] reads how far the next
    one is, with the checks of the format; the search ends at the first chunk named. *)
Definition chunk_turn (b : list N) (header : N) (name : list N -> N -> option (list N))
    (advance : list N -> N -> option N) (id : string) (cursor : N) : Turn N N :=
  if w64 (cursor + header) <=? len b then
    need (name b cursor) (fun chunk_id =>
    need (advance b cursor) (fun adv =>
      if bool_decide (chunk_id = lit id) then Done (Some cursor)
      else need (checked_add cursor adv) Next))
  else Done None.
Definition find_chunk (fuel : nat) (b : list N) (header : N) (name : list N -> N -> option (list N))
    (advance : list N -> N -> option N) (id : string) (cursor : N) : Probe N :=
  loop (chunk_turn b header name advance id) fuel cursor.
(** A chunk with its size, padded to two bytes; the sum wraps. *)
Definition padded (header : N) (size : list N -> N -> option N) (b : list N) (cursor : N) : option N :=
  n ← size b (cursor + 4); Some (w64 (header + n + N.land n 1)).
Definition name_first (b : list N) (cursor : N) : option (list N) := get b cursor 4.
Definition find_riff_chunk (fuel : nat) (b : list N) (start : N) (id : string) : Probe N :=
  find_chunk fuel b 8 name_first (padded 8 u32_le) id start.
Definition find_aiff_chunk (fuel : nat) (b : list N) (start : N) (id : string) : Probe N :=
  find_chunk fuel b 8 name_first (padded 8 u32_be) id start.
Definition find_dff_subchunk (fuel : nat) (b : list N) (start : N) (id : string) : Probe N :=
  find_chunk fuel b 12 name_first (padded 12 u64_be_at) id start.
(** [atom_at], [step_into_atom], [find_atom_within]: the size comes first and counts itself. *)
Definition atom_at (b : list N) (cursor : N) : option (N * list N) :=
  size ← u32_be b cursor; ty ← get b (cursor + 4) 4; Some (size, ty).
Definition step_into_atom (b : list N) (cursor : N) (expected : string) : option N :=
  a ← atom_at b cursor; if bool_decide (a.2 = lit expected) then checked_add cursor a.1 else None.
Definition atom_name (b : list N) (cursor : N) : option (list N) := a ← atom_at b cursor; Some a.2.
Definition atom_advance (b : list N) (cursor : N) : option N := a ← atom_at b cursor; if a.1 <? 8 then None else Some a.1.
Definition find_atom_within (fuel : nat) (b : list N) (start : N) (id : string) : Probe N :=
  find_chunk fuel b 8 atom_name atom_advance id start.

(** ** DSD and PCM *)

Definition parse_dsf (head : list N) : option AudioFormat :=
  _ ← check (check_magic head 0 "DSD ");
  _ ← check (check_magic head 28 "fmt ");
  channels ← u32_le head 52;
  sample_rate ← u32_le head 56;
  rate ← dsd_rate_from_hz sample_rate;
  ch ← clamp_channels channels;
  Some (Dsd rate ch).

(** The chunks inside of [PROP]: the rate and the channels, until both are known. *)
Definition both (rate_hz channels : option N) : option (N * N) := r ← rate_hz; c ← channels; Some (r, c).
Definition dff_turn (head : list N) (s : option N * option N * N) : Turn (option N * option N * N) (N * N) :=
  let '(rate_hz, channels, cursor) := s in
  if w64 (cursor + 12) <=? len head then
    need (get head cursor 4) (fun id =>
    need (u64_be_at head (cursor + 4)) (fun chunk_size =>
      let body := cursor + 12 in
      let rate_hz := if bool_decide (id = lit "FS  ") then u32_be head body else rate_hz in
      need (if bool_decide (id = lit "CHNL") then Some <$> u16_be head body else Some channels) (fun channels =>
        let advance := w64 (12 + chunk_size + N.land chunk_size 1) in
        need (checked_add cursor advance) (fun cursor =>
          match both rate_hz channels with
          | Some rc => Done (Some rc)
          | None => Next (rate_hz, channels, cursor)
          end))))
  else Done (both rate_hz channels).
Definition parse_dff (fuel : nat) (head : list N) : Probe AudioFormat :=
  if negb (check_magic head 0 "FRM8") then ends None
  else if negb (check_magic head 12 "DSD ") then ends None
  else
    onward (find_dff_subchunk fuel head 16 "PROP") (fun prop_offset =>
      let prop_body_offset := prop_offset + 12 in
      if negb (check_magic head prop_body_offset "SND ") then ends None
      else
        then_ (loop (dff_turn head) fuel (None, None, prop_body_offset + 4)) (fun rc =>
          rate ← dsd_rate_from_hz rc.1;
          ch ← clamp_channels rc.2;
          Some (Dsd rate ch))).

Definition parse_flac (head : list N) : option AudioFormat :=
  _ ← check (check_magic head 0 "fLaC");
  t ← byte_at head 4;
  _ ← check (N.land t 127 =? 0);
  packed ← get head 18 8;
  let bits := from_be packed in
  let sample_rate := bits_of bits 44 1048575 in
  let channels := bits_of bits 41 7 + 1 in
  let bits_per_sample := bits_of bits 36 31 + 1 in
  _ ← check (negb (sample_rate =? 0));
  pcm bits_per_sample sample_rate channels.

Definition parse_wav (fuel : nat) (head : list N) : Probe AudioFormat :=
  if negb (check_magic head 0 "RIFF") then ends None
  else if negb (check_magic head 8 "WAVE") then ends None
  else
    then_ (find_riff_chunk fuel head 12 "fmt ") (fun fmt_offset =>
      let body := fmt_offset + 8 in
      format_tag ← u16_le head body;
      channels ← u16_le head (body + 2);
      sample_rate ← u32_le head (body + 4);
      bits ← u16_le head (body + 14);
      _ ← check ((format_tag =? 1) || (format_tag =? 65534));
      pcm (as_u8 bits) sample_rate channels).

(** [ieee_754_extended_to_u32] *)
Definition ieee_754_extended_to_u32 (bytes : list N) : option N :=
  b0 ← bytes !! 0%nat;
  b1 ← bytes !! 1%nat;
  let sign := bits_of b0 7 1 in
  let exponent := N.lor (N.shiftl (N.land b0 127) 8) b1 in
  let mantissa := from_be (drop 2 bytes) in
  if negb (sign =? 0) || (exponent =? 32767) then None
  else if (exponent =? 0) && (mantissa =? 0) then None
  else
    let bias := 16446 in
    if bias <? exponent then
      let shift := exponent - bias in
      if shift <? 64 then
        let v := w64 (N.shiftl mantissa shift) in
        if U32_MAX <? v then None else Some v
      else None
    else if exponent =? bias then Some (mantissa mod 2 ^ 32)
    else
      let s := bias - exponent in
      if 64 <=? s then None else Some (N.shiftr mantissa s mod 2 ^ 32).
Definition parse_aiff (fuel : nat) (head : list N) : Probe AudioFormat :=
  if negb (check_magic head 0 "FORM") then ends None
  else
    given_ (get head 8 4) (fun form_type =>
      if negb (bool_decide (form_type = lit "AIFF")) && negb (bool_decide (form_type = lit "AIFC")) then ends None
      else
        then_ (find_aiff_chunk fuel head 12 "COMM") (fun comm_offset =>
          let body := comm_offset + 8 in
          channels ← u16_be head body;
          bits ← u16_be head (body + 6);
          ext ← get head (body + 8) 10;
          sample_rate ← ieee_754_extended_to_u32 ext;
          pcm (as_u8 bits) sample_rate channels)).

(** ** MPEG-4, ADTS and the simple lossless headers *)

Definition walk_to_stsd_entry (fuel : nat) (head : list N) : Probe (list N * list N) :=
  let cursor := match step_into_atom head 0 "ftyp" with Some c => c | None => 0 end in
  onward (find_atom_within fuel head cursor "moov") (fun moov_off =>
  onward (find_atom_within fuel head (moov_off + 8) "trak") (fun trak_off =>
  onward (find_atom_within fuel head (trak_off + 8) "mdia") (fun mdia_off =>
  onward (find_atom_within fuel head (mdia_off + 8) "minf") (fun minf_off =>
  onward (find_atom_within fuel head (minf_off + 8) "stbl") (fun stbl_off =>
  then_ (find_atom_within fuel head (stbl_off + 8) "stsd") (fun stsd_off =>
    let entries_start := stsd_off + 8 + 8 in
    if len head <? entries_start + 8 then None
    else
      entry ← atom_at head entries_start;
      body ← skip (entries_start + 8) head;
      Some (entry.2, body))))))).

Definition m4a_entry_sample_rate (entry_body : list N) : option N :=
  raw ← u32_be entry_body 24; Some (bits_of raw 16 65535).
Definition m4a_entry_channels (entry_body : list N) : option N := u16_be entry_body 16.
Definition m4a_entry_samplesize (entry_body : list N) : option N := as_u8 <$> u16_be entry_body 18.

(** The length of a descriptor, and the bytes it took; [more] of its four may still be read. *)
Fixpoint descriptor_length_go (more : nat) (bytes : list N) (offset value consumed : N) : option (N * N) :=
  match more with
  | O => None
  | S more =>
      b ← byte_at bytes (offset + consumed);
      let value := N.lor (N.shiftl value 7 mod 2 ^ 32) (N.land b 127) in
      if N.land b 128 =? 0 then Some (value, consumed + 1)
      else descriptor_length_go more bytes offset value (consumed + 1)
  end.
Definition mpeg_descriptor_length (bytes : list N) (offset : N) : option (N * N) :=
  descriptor_length_go 4 bytes offset 0 0.

Definition has_flag (flags mask : N) : bool := negb (N.land flags mask =? 0).
Definition m4a_aac_avg_bitrate (fuel : nat) (entry_body : list N) : Probe N :=
  then_ (find_atom_within fuel entry_body 28 "esds") (fun esds_off =>
    let esds_body := esds_off + 8 in
    let p := esds_body + 4 in
    tag ← byte_at entry_body p;
    if negb (tag =? 3) then None
    else
      es_desc ← mpeg_descriptor_length entry_body (p + 1);
      let q := p + 1 + es_desc.2 in
      flags ← byte_at entry_body (q + 2);
      let q := q + 3 in
      let q := if has_flag flags 128 then q + 2 else q in
      q ← (if has_flag flags 64 then url_len ← byte_at entry_body q; Some (q + (1 + url_len)) else Some q);
      let q := if has_flag flags 32 then q + 2 else q in
      tag ← byte_at entry_body q;
      if negb (tag =? 4) then None
      else
        dcd ← mpeg_descriptor_length entry_body (q + 1);
        let dcd_body := q + 1 + dcd.2 in
        u32_be entry_body (dcd_body + 1 + 1 + 3 + 4)).

Definition aac_bitrate (bps : N) : EncodedBitrate := if 0 <? bps then Vbr (bps / 1000) else Unknown.
(** What [parse_m4a] makes of the entry found. *)
Definition m4a_format (fuel : nat) (entry : list N * list N) : Probe AudioFormat :=
  let entry_atom_name := entry.1 in
  let entry_body := entry.2 in
  given_ (m4a_entry_sample_rate entry_body) (fun rate_hz =>
  given_ (m4a_entry_channels entry_body) (fun channels =>
  given_ (m4a_entry_samplesize entry_body) (fun bits =>
    if bool_decide (entry_atom_name = lit "alac") || bool_decide (entry_atom_name = lit "lpcm") then
      ends (pcm bits rate_hz channels)
    else if bool_decide (entry_atom_name = lit "mp4a") || bool_decide (entry_atom_name = lit "aac ") then
      (** a bit rate that cannot be read is none, not the end of the probe *)
      match m4a_aac_avg_bitrate fuel entry_body with
      | None => None
      | Some bps => ends (encoded "aac" rate_hz channels (aac_bitrate <$> bps))
      end
    else ends None))).
Definition parse_m4a (fuel : nat) (head : list N) : Probe AudioFormat :=
  onward (walk_to_stsd_entry fuel head) (m4a_format fuel).

Definition AAC_SR : list N :=
  [96000; 88200; 64000; 48000; 44100; 32000; 24000; 22050; 16000; 12000; 11025; 8000; 7350; 0; 0; 0].
Definition parse_aac_adts (head : list N) : option AudioFormat :=
  b ← get head 0 6;
  match b with
  | [_; _; b2; b3; b4; b5] =>
      let sr_index := bits_of b2 2 15 in
      let channels := N.lor (N.shiftl (N.land b2 1) 2) (bits_of b3 6 3) in
      rate_hz ← AAC_SR !! N.to_nat sr_index;
      if rate_hz =? 0 then None
      else
        let frame_length := N.lor (N.lor (N.shiftl (N.land b3 3) 11) (N.shiftl b4 3)) (bits_of b5 5 7) in
        let bitrate :=
          if 0 <? frame_length then
            let kbps := frame_length * 8 * rate_hz / 1024 / 1000 in
            if 0 <? kbps then Cbr kbps else Unknown
          else Unknown in
        encoded "aac" rate_hz channels (Some bitrate)
  | _ => None
  end.
Definition parse_aac_or_m4a (fuel : nat) (head : list N) : Probe AudioFormat :=
  match head with
  | b0 :: b1 :: _ => if (b0 =? 255) && (N.land b1 246 =? 240) then ends (parse_aac_adts head) else parse_m4a fuel head
  | _ => parse_m4a fuel head
  end.

Definition parse_ape (head : list N) : option AudioFormat :=
  _ ← check (check_magic head 0 "MAC ");
  version ← u16_le head 4;
  if version <? 3980 then None
  else
    descriptor_size ← u32_le head 8;
    let header_off := descriptor_size in
    bits ← u16_le head (header_off + 12);
    channels ← u16_le head (header_off + 14);
    rate_hz ← u32_le head (header_off + 16);
    pcm (as_u8 bits) rate_hz channels.

Definition WAVPACK_SR : list N :=
  [6000; 8000; 9600; 11025; 12000; 16000; 22050; 24000; 32000; 44100; 48000; 64000; 88200; 96000; 192000].
Definition parse_wavpack (head : list N) : option AudioFormat :=
  _ ← check (check_magic head 0 "wvpk");
  flags ← u32_le head 24;
  let bytes_per_sample := N.land flags 3 + 1 in
  let bits := as_u8 (bytes_per_sample * 8) in
  let mono := bits_of flags 2 1 in
  let channels := if mono =? 1 then 1 else 2 in
  let sr_index := bits_of flags 23 15 in
  rate_hz ← WAVPACK_SR !! N.to_nat sr_index;
  pcm bits rate_hz channels.

Definition parse_tta (head : list N) : option AudioFormat :=
  _ ← check (check_magic head 0 "TTA1");
  channels ← u16_le head 6;
  bits ← u16_le head 8;
  rate_hz ← u32_le head 10;
  pcm (as_u8 bits) rate_hz channels.

(** ** MPEG audio layer III *)

Definition MPEG1_L3 : list N := [0; 32; 40; 48; 56; 64; 80; 96; 112; 128; 160; 192; 224; 256; 320; 0].
Definition MPEG2_L3 : list N := [0; 8; 16; 24; 32; 40; 48; 56; 64; 80; 96; 112; 128; 144; 160; 0].
Definition mp3_bitrate_kbps (version_bits bitrate_index : N) : option N :=
  table ← (if version_bits =? 3 then Some MPEG1_L3
           else if (version_bits =? 2) || (version_bits =? 0) then Some MPEG2_L3 else None);
  val ← table !! N.to_nat bitrate_index;
  if val =? 0 then None else Some val.

Definition cbr_of (first_frame_kbps : option N) : option EncodedBitrate := Cbr <$> first_frame_kbps.
Definition xing_offset (mpeg1 stereo : bool) : N :=
  match mpeg1, stereo with true, true => 36 | true, false => 21 | false, true => 21 | false, false => 13 end.
Definition mp3_bitrate (head : list N) (frame_offset version_bits mode_bits : N) (first_frame_kbps : option N)
    : option EncodedBitrate :=
  let mpeg1 := version_bits =? 3 in
  let stereo := negb (mode_bits =? 3) in
  o ← checked_add frame_offset 4;
  tag_offset ← checked_add o (xing_offset mpeg1 stereo);
  let is_xing := check_magic head tag_offset "Xing" in
  let is_info := check_magic head tag_offset "Info" in
  if is_xing || is_info then
    flags ← u32_be head (tag_offset + 4);
    let cursor := tag_offset + 8 in
    fc ← (if has_flag flags 1 then v ← u32_be head cursor; Some (Some v, cursor + 4) else Some (None, cursor));
    total_bytes ← (if has_flag flags 2 then Some <$> u32_be head fc.2 else Some None);
    match fc.1, total_bytes with
    | Some frames, Some bytes =>
        if 0 <? frames then
          let samples_per_frame := if mpeg1 then 1152 else 576 in
          if is_info then
            match first_frame_kbps with Some kbps => Some (Cbr kbps) | None => Some Unknown end
          else
            let bytes_per_frame := bytes / frames in
            let kbps := bytes_per_frame * 8 * 44100 / samples_per_frame / 1000 mod 2 ^ 32 in
            if 0 <? kbps then Some (Vbr kbps) else cbr_of first_frame_kbps
        else cbr_of first_frame_kbps
    | _, _ => cbr_of first_frame_kbps
    end
  else cbr_of first_frame_kbps.

(** The sampling rates of MPEG 1, 2 and 2.5. *)
Definition mp3_rate (version_bits sr_index : N) : option N :=
  match version_bits, sr_index with
  | 3, 0 => Some 44100 | 3, 1 => Some 48000 | 3, 2 => Some 32000
  | 2, 0 => Some 22050 | 2, 1 => Some 24000 | 2, 2 => Some 16000
  | 0, 0 => Some 11025 | 0, 1 => Some 12000 | 0, 2 => Some 8000
  | _, _ => None
  end.
(** The rate of a frame whose four bytes these are, if they are one's. *)
Definition mp3_frame_rate (b0 b1 b2 : N) : option N :=
  if negb (b0 =? 255) then None
  else if negb (N.land b1 224 =? 224) then None
  else if negb (bits_of b1 1 3 =? 1) then None
  else if bits_of b2 2 3 =? 3 then None
  else mp3_rate (bits_of b1 3 3) (bits_of b2 2 3).
(** The frame found at [i], of which [rest] is what follows, [head] being the file's head. *)
Definition mp3_frame (head : list N) (i b1 b2 b3 rate : N) : option AudioFormat :=
  let version_bits := bits_of b1 3 3 in
  let mode_bits := bits_of b3 6 3 in
  let channels := if mode_bits =? 3 then 1 else 2 in
  let bitrate_index := bits_of b2 4 15 in
  let first_frame_kbps := mp3_bitrate_kbps version_bits bitrate_index in
  encoded "mp3" rate channels (mp3_bitrate head i version_bits mode_bits first_frame_kbps).
(** [for i in skip..head.len().saturating_sub(4)]: one more byte than a header has must be left. *)
Fixpoint mp3_scan (head rest : list N) (i : N) : option AudioFormat :=
  match rest with
  | b0 :: ((b1 :: b2 :: b3 :: _ :: _) as rest') =>
      match mp3_frame_rate b0 b1 b2 with
      | Some rate => mp3_frame head i b1 b2 b3 rate
      | None => mp3_scan head rest' (i + 1)
      end
  | _ => None
  end.
Definition synchsafe (s : list N) : N :=
  match s with
  | [s0; s1; s2; s3] =>
      N.lor (N.lor (N.lor (N.shiftl (N.land s0 127) 21) (N.shiftl (N.land s1 127) 14)) (N.shiftl (N.land s2 127) 7)) (N.land s3 127)
  | _ => 0
  end.
Definition id3_skip (head : list N) : option N :=
  if (10 <=? len head) && check_magic head 0 "ID3" then s ← get head 6 4; Some (10 + synchsafe s) else Some 0.
Definition parse_mp3 (head : list N) : option AudioFormat :=
  i ← id3_skip head;
  match skip i head with Some rest => mp3_scan head rest i | None => None end.

(** ** Ogg: Vorbis, Opus, Speex *)

(** The packet ends with the first segment of less than 255 bytes. *)
Fixpoint lacing (seg_table : list N) : N :=
  match seg_table with
  | [] => 0
  | b :: rest => if b <? 255 then b else b + lacing rest
  end.
Definition ogg_first_packet (head : list N) : option (list N) :=
  _ ← check (check_magic head 0 "OggS");
  seg_count ← byte_at head 26;
  seg_table ← get head 27 (N.to_nat seg_count);
  get head (27 + seg_count) (N.to_nat (lacing seg_table)).

(** [as i32 > 0] *)
Definition positive_i32 (bits : N) : bool := (0 <? bits) && (bits <? 2 ^ 31).
Definition parse_vorbis (head : list N) : option AudioFormat :=
  packet ← ogg_first_packet head;
  first ← byte_at packet 0;
  if negb (first =? 1) then None
  else if negb (check_magic packet 1 "vorbis") then None
  else
    channels ← byte_at packet 11;
    rate_hz ← u32_le packet 12;
    nominal ← u32_le packet 20;
    encoded "vorbis" rate_hz channels (Some (if positive_i32 nominal then Vbr (nominal / 1000) else Unknown)).
Definition parse_opus (head : list N) : option AudioFormat :=
  packet ← ogg_first_packet head;
  _ ← check (check_magic packet 0 "OpusHead");
  channels ← byte_at packet 9;
  rate_hz ← u32_le packet 12;
  let rate_hz := if rate_hz =? 0 then 48000 else rate_hz in
  encoded "opus" rate_hz channels (Some Unknown).
Definition parse_speex (head : list N) : option AudioFormat :=
  packet ← ogg_first_packet head;
  _ ← check (check_magic packet 0 "Speex   ");
  rate_hz ← u32_le packet 36;
  channels ← u32_le packet 48;
  raw ← u32_le packet 52;
  let vbr := default 0 (u32_le packet 60) in
  encoded "speex" rate_hz channels
    (Some (if positive_i32 raw then if vbr =? 1 then Vbr (raw / 1000) else Cbr (raw / 1000) else Unknown)).

(** ** Windows Media *)

Definition ASF_HEADER_GUID : list N := [48; 38; 178; 117; 142; 102; 207; 17; 166; 217; 0; 170; 0; 98; 206; 108].
Definition ASF_STREAM_PROPS_GUID : list N := [145; 7; 220; 183; 183; 169; 207; 17; 142; 230; 0; 192; 12; 32; 83; 101].
Definition ASF_STREAM_TYPE_AUDIO_GUID : list N := [64; 158; 105; 248; 77; 91; 207; 17; 168; 253; 0; 128; 95; 92; 68; 43].

(** The object of the properties of an audio stream. *)
Definition wma_stream (head : list N) (body : N) : option AudioFormat :=
  let ts_data := body + 54 in
  channels ← u16_le head (ts_data + 2);
  rate_hz ← u32_le head (ts_data + 4);
  avg_bytes_per_sec ← u32_le head (ts_data + 8);
  encoded "wma" rate_hz channels
    (Some (if 0 <? avg_bytes_per_sec then Vbr (avg_bytes_per_sec * 8 / 1000 mod 2 ^ 32) else Unknown)).
(** The objects of the header; one takes the cursor on by the size it says, of whatever size. *)
Definition wma_turn (head : list N) (cursor : N) : Turn N AudioFormat :=
  if w64 (cursor + 24) <=? len head then
    need (get head cursor 16) (fun guid =>
    need (u64_le head (cursor + 16)) (fun size =>
      if bool_decide (guid = ASF_STREAM_PROPS_GUID) then
        let body := cursor + 24 in
        need (get head body 16) (fun stream_type_guid =>
          if bool_decide (stream_type_guid = ASF_STREAM_TYPE_AUDIO_GUID) then Done (wma_stream head body)
          else need (checked_add cursor size) Next)
      else need (checked_add cursor size) Next))
  else Done None.
Definition parse_wma (fuel : nat) (head : list N) : Probe AudioFormat :=
  given_ (get head 0 16) (fun guid =>
    if bool_decide (guid = ASF_HEADER_GUID) then loop (wma_turn head) fuel 30 else ends None).

(** ** Musepack *)

(** A number in groups of seven bits; [more] of its nine bytes may still be read. *)
Fixpoint varint_go (more : nat) (head : list N) (offset value read : N) : option (N * N) :=
  match more with
  | O => None
  | S more =>
      b ← byte_at head (offset + read);
      let value := N.lor (N.shiftl value 7 mod 2 ^ 64) (N.land b 127) in
      if N.land b 128 =? 0 then Some (value, read + 1) else varint_go more head offset value (read + 1)
  end.
Definition mpc_varint (head : list N) (offset : N) : option (N * N) := varint_go 9 head offset 0 0.
Definition MPC_SR : list N := [44100; 48000; 37800; 32000; 0; 0; 0; 0].
Definition SV7_SR : list N := [44100; 48000; 37800; 32000].
Definition sv8_header (head : list N) (cursor size_len : N) : option AudioFormat :=
  let body := cursor + 2 + size_len + 4 + 1 in
  sample_count ← mpc_varint head body;
  silence ← mpc_varint head (body + sample_count.2);
  packed ← byte_at head (body + sample_count.2 + silence.2);
  let sr_index := bits_of packed 5 7 in
  next ← byte_at head (body + sample_count.2 + silence.2 + 1);
  let channels := bits_of next 4 15 + 1 in
  rate_hz ← MPC_SR !! N.to_nat sr_index;
  if rate_hz =? 0 then None else encoded "musepack" rate_hz channels (Some Unknown).
Definition sv8_turn (head : list N) (cursor : N) : Turn N AudioFormat :=
  if w64 (cursor + 2) <=? len head then
    need (get head cursor 2) (fun key =>
    need (mpc_varint head (cursor + 2)) (fun size =>
      if bool_decide (key = lit "SH") then Done (sv8_header head cursor size.2)
      else need (o ← checked_add cursor 2; o ← checked_add o size.2; checked_add o size.1) Next))
  else Done None.
Definition parse_musepack_sv8 (fuel : nat) (head : list N) : Probe AudioFormat := loop (sv8_turn head) fuel 4.
Definition parse_musepack_sv7 (head : list N) : option AudioFormat :=
  word ← u32_le head 8;
  rate_hz ← SV7_SR !! N.to_nat (bits_of word 16 3);
  Some (EncodedPassthrough (lit "musepack") rate_hz 2 (Some Unknown)).
Definition parse_musepack (fuel : nat) (head : list N) : Probe AudioFormat :=
  if check_magic head 0 "MPCK" then parse_musepack_sv8 fuel head
  else if check_magic head 0 "MP+ " then ends (parse_musepack_sv7 head)
  else ends None.

Definition parse_tracker (head : list N) : option AudioFormat := None.

(** ** The probe *)

Inductive Codec := Cdsf | Cdff | Cflac | Cwav | Caiff | Calac | Caac | Cape | Cwavpack | Ctta | Cmp3 | Cvorbis
                 | Copus | Cspeex | Cwma | Cmusepack | Cmod.
#[global] Instance codec_eq_dec : EqDecision Codec. Proof. solve_decision. Defined.
Definition codec_names : list (str * Codec) :=
  [(lit "dsf", Cdsf); (lit "dff", Cdff); (lit "flac", Cflac); (lit "wav", Cwav); (lit "aiff", Caiff); (lit "alac", Calac);
   (lit "aac", Caac); (lit "ape", Cape); (lit "wavpack", Cwavpack); (lit "tta", Ctta); (lit "mp3", Cmp3);
   (lit "vorbis", Cvorbis); (lit "opus", Copus); (lit "speex", Cspeex); (lit "wma", Cwma); (lit "musepack", Cmusepack);
   (lit "mod", Cmod)].
(** The parser of a hint; that of [shorten] and of any other is none. *)
Definition codec_of (codec_hint : str) : option Codec :=
  snd <$> head (filter (fun p => p.1 = codec_hint) codec_names).
Definition parse (fuel : nat) (c : Codec) (head : list N) : Probe AudioFormat :=
  match c with
  | Cdsf => ends (parse_dsf head)
  | Cdff => parse_dff fuel head
  | Cflac => ends (parse_flac head)
  | Cwav => parse_wav fuel head
  | Caiff => parse_aiff fuel head
  | Calac => parse_m4a fuel head
  | Caac => parse_aac_or_m4a fuel head
  | Cape => ends (parse_ape head)
  | Cwavpack => ends (parse_wavpack head)
  | Ctta => ends (parse_tta head)
  | Cmp3 => ends (parse_mp3 head)
  | Cvorbis => ends (parse_vorbis head)
  | Copus => ends (parse_opus head)
  | Cspeex => ends (parse_speex head)
  | Cwma => parse_wma fuel head
  | Cmusepack => parse_musepack fuel head
  | Cmod => ends (parse_tracker head)
  end.
Definition dispatch (fuel : nat) (codec_hint : str) (head : list N) : Probe AudioFormat :=
  match codec_of codec_hint with Some c => parse fuel c head | None => ends None end.

(** A file is the answers of its reads: how many bytes each gives, no answer being an error. *)
Fixpoint read_head_go (reads : list (option (list N))) (total : list N) : option (list N) :=
  if PROBE_HEAD_BYTES <=? len total then Some total
  else
    match reads with
    | None :: _ => None
    | Some [] :: _ | [] => Some total
    | Some bytes :: reads => read_head_go reads (total ++ firstn (N.to_nat PROBE_HEAD_BYTES - length total) bytes)
    end.
Definition read_head (reads : list (option (list N))) : option (list N) :=
  total ← read_head_go reads []; if bool_decide (total = []) then None else Some total.
(** [None] for a file that cannot be opened. *)
Definition probe_source_format (fuel : nat) (file : option (list (option (list N)))) (codec_hint : str) : Probe AudioFormat :=
  given_ (reads ← file; read_head reads) (dispatch fuel codec_hint).

(** ** Directives of [mpd.conf] *)

(** [str::find] of a character, as the text before it *)
Fixpoint up_to_char (c : char) (s : str) : option str :=
  match s with [] => None | d :: s => if c =? d then Some [] else cons d <$> up_to_char c s end.
Definition QUOTE : char := 34.
(** The value of what follows the name of a directive: none when the parser gives up. *)
Definition directive_value (rest : str) : option str :=
  let rest := trim_start rest in
  let rest := trim_start (match strip_prefix (lit "=") rest with Some r => r | None => rest end) in
  match strip_prefix [QUOTE] rest with
  | Some stripped => up_to_char QUOTE stripped
  | None => head (split_whitespace rest)
  end.
Fixpoint directive_lines (directive : str) (ls : list str) : option str :=
  match ls with
  | [] => None
  | raw :: ls =>
      let line := trim raw in
      if str_is_empty line || starts_with (lit "#") line then directive_lines directive ls
      else
        match strip_prefix directive line with
        | None => directive_lines directive ls
        | Some rest =>
            value ← directive_value rest;
            if str_is_empty value then directive_lines directive ls else Some value
        end
  end.
Definition parse_mpd_directive (contents directive : str) : option str := directive_lines directive (lines contents).
Definition parse_music_directory (contents : str) : option str := parse_mpd_directive contents (lit "music_directory").
(** [None] for a file that cannot be read, here and below. *)
Definition load_music_directory_from_mpd_conf (conf : option str) : option str :=
  contents ← conf; parse_music_directory contents.
Definition load_playlist_directory_from_mpd_conf (conf : option str) : option str :=
  contents ← conf; parse_mpd_directive contents (lit "playlist_directory").

(** ** Reading *)

Lemma skip_spec i b s : skip i b = Some s <-> i <= len b /\ s = drop (N.to_nat i) b.
Proof.
  unfold len. revert i s. induction b as [|c b IH]; intros i s; cbn [skip]; destruct (N.eqb_spec i 0) as [->|Hi].
  - split; [intros [= <-]; split; [lia|done]|by intros [_ ->]].
  - split; [done|]. cbn [length]. intros [H _]. lia.
  - split; [intros [= <-]; split; [lia|done]|by intros [_ ->]].
  - rewrite IH. replace (N.to_nat i) with (S (N.to_nat (i - 1))) by lia. cbn [length drop].
    split; intros [H ->]; (split; [lia|done]).
Qed.
Lemma firsts_spec n b s : firsts n b = Some s <-> (n <= length b)%nat /\ s = take n b.
Proof.
  revert b s. induction n as [|n IH]; intros [|c b] s; cbn [firsts length take].
  1, 2: split; [intros [= <-]; split; [lia|done]|by intros [_ ->]].
  - split; [done|]. intros [H _]. lia.
  - destruct (firsts n b) as [r|] eqn:E; cbn.
    + apply IH in E as [H ->]. split; [intros [= <-]; split; [lia|done]|by intros [_ ->]].
    + split; [done|]. intros [H ->]. assert (firsts n b = Some (take n b)) as E2 by (apply IH; split; [lia|done]).
      by rewrite E in E2.
Qed.
Lemma get_spec b i n s : get b i n = Some s <-> i + N.of_nat n <= len b /\ s = take n (drop (N.to_nat i) b).
Proof.
  unfold get. destruct (skip i b) as [r|] eqn:E; cbn.
  - apply skip_spec in E as [H ->]. rewrite firsts_spec, length_drop. unfold len in *.
    split; (intros [H1 ->]; split; [lia|done]).
  - split; [done|]. intros [H _]. assert (skip i b = Some (drop (N.to_nat i) b)) as E2 by (apply skip_spec; split; [lia|done]).
    by rewrite E in E2.
Qed.
Lemma get_inside b i n s : get b i n = Some s -> i + N.of_nat n <= len b.
Proof. by intros [H _]%get_spec. Qed.
Lemma byte_inside b i c : byte_at b i = Some c -> i + 1 <= len b.
Proof. unfold byte_at. intros (s & H & _)%bind_Some. by apply get_inside in H. Qed.
(** What stands at the offset is what is read there. *)
Lemma get_at pre s post n : n = length s -> get (pre ++ s ++ post) (len pre) n = Some s.
Proof.
  intros ->. apply get_spec. unfold len. rewrite Nat2N.id, drop_app_length, take_app_length, !length_app.
  split; [lia|done].
Qed.

Lemma checked_add_Some a b n : checked_add a b = Some n -> n = a + b /\ n < 2 ^ 64.
Proof. unfold checked_add. destruct (N.ltb_spec (a + b) (2 ^ 64)); [|done]. by intros [= <-]. Qed.
Lemma checked_add_ok a b : a + b < 2 ^ 64 -> checked_add a b = Some (a + b).
Proof. intros H. unfold checked_add. by apply N.ltb_lt in H as ->. Qed.

(** ** Loops *)

Section Loops.
Context {S A : Type} (turn : S -> Turn S A) (measure : S -> nat).

Inductive reaches : S -> S -> Prop :=
  | reaches_refl s : reaches s s
  | reaches_turn s s' s'' : turn s = Next s' -> reaches s' s'' -> reaches s s''.

  (** A state whose turn changes nothing. *)
Definition stuck (s : S) : Prop := turn s = Next s.

Lemma loop_stuck s s' fuel : reaches s s' -> stuck s' -> loop turn fuel s = None.
  Proof.
    intros Hr Hs. revert fuel. induction Hr as [s|s t s' Ht _ IH]; intros fuel.
    - induction fuel as [|fuel IH]; [done|]. cbn. by rewrite Hs.
    - destruct fuel as [|fuel]; [done|]. cbn. rewrite Ht. by apply IH.
  Qed.
Lemma loop_more fuel fuel' s r : (fuel <= fuel')%nat -> loop turn fuel s = Some r -> loop turn fuel' s = Some r.
  Proof.
    revert fuel' s. induction fuel as [|fuel IH]; intros fuel' s Hle; [done|].
    destruct fuel' as [|fuel']; [lia|]. cbn. destruct (turn s) as [o|s']; [done|]. apply IH. lia.
  Qed.
  (** A turn that gives a smaller state, or one that gets no further. *)
Definition progress : Prop := forall s s', turn s = Next s' -> (measure s' < measure s)%nat \/ stuck s'.
Lemma loop_ends_or_sticks (Hp : progress) s fuel :
    (measure s < fuel)%nat -> (exists o, loop turn fuel s = Some o) \/ exists s', reaches s s' /\ stuck s'.
  Proof.
    revert s. induction fuel as [|fuel IH]; intros s Hm; [lia|]. cbn.
    destruct (turn s) as [o|s'] eqn:Ht; [left; by exists o|].
    destruct (Hp s s' Ht) as [Hlt|Hs]; [|right; exists s'; split; [eapply reaches_turn; [exact Ht|constructor]|done]].
    destruct (IH s') as [?|(s'' & Hr & Hs)]; [lia|by left|right; exists s''; split; [by eapply reaches_turn|done]].
  Qed.
Lemma loop_ends s fuel :
    (forall s s', turn s = Next s' -> (measure s' < measure s)%nat) -> (measure s < fuel)%nat ->
    exists o, loop turn fuel s = Some o.
  Proof.
    intros Hp. revert s. induction fuel as [|fuel IH]; intros s Hm; [lia|]. cbn.
    destruct (turn s) as [o|s'] eqn:Ht; [by exists o|]. apply Hp in Ht. apply IH. lia.
  Qed.
End Loops.

Lemma need_Next {S A B} (o : option B) (k : B -> Turn S A) s : need o k = Next s -> exists b, o = Some b /\ k b = Next s.
Proof. destruct o as [b|]; [by exists b|done]. Qed.

(** What is left of the file after a cursor. *)
Definition left_of (b : list N) (cursor : N) : nat := N.to_nat (len b - cursor).

Lemma left_of_less b c c' : c < len b -> c < c' -> (left_of b c' < left_of b c)%nat.
Proof. unfold left_of. lia. Qed.

(** A walk whose chunks are not empty ends. *)
Lemma find_chunk_ends b header name advance id c fuel :
  (forall c s, name b c = Some s -> c < len b) -> (forall c n, advance b c = Some n -> 0 < n) ->
  (length b < fuel)%nat -> exists o, find_chunk fuel b header name advance id c = Some o.
Proof.
  intros Hn Ha Hf. apply (loop_ends _ (left_of b)); [|unfold left_of, len; lia]. clear c. intros c c' H.
  unfold chunk_turn in H. destruct (w64 (c + header) <=? len b); [|done].
  apply need_Next in H as (s & Hs & H). apply need_Next in H as (n & Hadv & H).
  destruct (bool_decide _); [done|]. apply need_Next in H as (c1 & Hc & [= <-]).
  apply checked_add_Some in Hc as [-> _]. apply Hn in Hs. apply Ha in Hadv. apply left_of_less; lia.
Qed.

(** ** Which probes end *)

(** [p] has one answer: [n] turns and any more of them give it, and fewer give it or none. *)
Definition settles {A} (n : nat) (p : nat -> Probe A) : Prop :=
  exists o, (forall fuel, (n <= fuel)%nat -> p fuel = Some o) /\ (forall fuel, p fuel = None \/ p fuel = Some o).
Definition hangs {A} (p : nat -> Probe A) : Prop := forall fuel, p fuel = None.

Create HintDb probe.
Section Settles.
Context {A B : Type} (n : nat).

Lemma settles_ends (o : option A) : settles n (fun _ => ends o).
  Proof. exists o. split; [done|by right]. Qed.
Lemma settles_then (p : nat -> Probe A) (k : A -> option B) : settles n p -> settles n (fun f => then_ (p f) k).
  Proof.
    intros [[a|] [H Hl]]; [exists (k a)|exists None]; (split; [intros f Hf; by rewrite H|]);
      intros f; destruct (Hl f) as [-> | ->]; by auto.
  Qed.
Lemma settles_onward (p : nat -> Probe A) (k : nat -> A -> Probe B) :
    settles n p -> (forall a, settles n (fun f => k f a)) -> settles n (fun f => onward (p f) (k f)).
  Proof.
    intros [[a|] [H Hl]] Hk.
    - destruct (Hk a) as [o [Ho Hol]]. exists o. split; [intros f Hf; rewrite H by done; by apply Ho|].
      intros f. destruct (Hl f) as [-> | ->]; [by left|apply Hol].
    - exists None. split; [intros f Hf; by rewrite H|]. intros f. destruct (Hl f) as [-> | ->]; by auto.
  Qed.
Lemma settles_given (o : option A) (k : nat -> A -> Probe B) :
    (forall a, settles n (fun f => k f a)) -> settles n (fun f => given_ o (k f)).
  Proof. intros Hk. destruct o as [a|]; [apply Hk|]. exists None. split; [done|by right]. Qed.
Lemma settles_if (c : bool) (p q : nat -> Probe A) :
    settles n p -> settles n q -> settles n (fun f => if c then p f else q f).
  Proof. by destruct c. Qed.
Lemma settles_match {C} (p : nat -> Probe A) (k : option A -> option C) :
    settles n p -> settles n (fun f => match p f with None => None | Some a => ends (k a) end).
  Proof.
    intros [o [H Hl]]. exists (k o). split; [intros f Hf; by rewrite H|].
    intros f. destruct (Hl f) as [-> | ->]; by auto.
  Qed.
End Settles.

Lemma loop_settles {S A} (turn : S -> Turn S A) n s : (exists o, loop turn n s = Some o) -> settles n (fun f => loop turn f s).
Proof.
  intros [o H]. exists o. split; [intros f Hf; by eapply loop_more|].
  intros f. destruct (loop turn f s) as [o'|] eqn:E; [right|by left].
  apply (loop_more turn f (f + n)) in E; [|lia]. apply (loop_more turn n (f + n)) in H; [|lia]. congruence.
Qed.
Lemma find_settles n b header name advance id c :
  (forall c s, name b c = Some s -> c < len b) -> (forall c m, advance b c = Some m -> 0 < m) -> (length b < n)%nat ->
  settles n (fun f => find_chunk f b header name advance id c).
Proof. intros Hn Ha Hl. apply loop_settles. by apply find_chunk_ends. Qed.

Lemma name_first_inside b c s : name_first b c = Some s -> c < len b.
Proof. intros H%get_inside. lia. Qed.
Lemma atom_inside b c a : atom_at b c = Some a -> c + 8 <= len b.
Proof. unfold atom_at. intros (n & _ & (t & Ht & _)%bind_Some)%bind_Some. apply get_inside in Ht. lia. Qed.

Lemma atom_settles_any n b c id : (length b < n)%nat -> settles n (fun f => find_atom_within f b c id).
Proof.
  intros Hb. apply find_settles; [| |done].
  - unfold atom_name. intros ? ? (a & Ha & _)%bind_Some. apply atom_inside in Ha. lia.
  - unfold atom_advance. intros ? ? (a & _ & H)%bind_Some. destruct (N.ltb_spec a.1 8); [done|]. injection H as <-. lia.
Qed.

Section Reading.
Context (head : list N) (Hbytes : Forall (fun c => c < 256) head).

Lemma from_be_bound s : Forall (fun c => c < 256) s -> from_be s < 256 ^ len s.
  Proof.
    unfold from_be, len. rewrite <-(N.mul_1_l (256 ^ _)).
    enough (forall acc m, acc < m -> Forall (fun c => c < 256) s ->
            foldl (fun n c => n * 256 + c) acc s < m * 256 ^ N.of_nat (length s)) as E by (intros H; apply E; [lia|done]).
    induction s as [|c s IH]; intros acc m Hm H; cbn [foldl length].
    - rewrite N.pow_0_r. lia.
    - inversion H; subst. replace (N.of_nat (S (length s))) with (N.succ (N.of_nat (length s))) by lia.
      rewrite N.pow_succ_r', N.mul_assoc. apply IH; [lia|done].
  Qed.
Lemma get_bytes i n s : get head i n = Some s -> Forall (fun c => c < 256) s /\ length s = n.
  Proof.
    intros [H ->]%get_spec. split; [by apply Forall_take, Forall_drop|].
    unfold len in H. rewrite length_take, length_drop. lia.
  Qed.
Lemma read_bound i n v : from_be <$> get head i n = Some v -> v < 256 ^ N.of_nat n.
  Proof.
    intros (s & Hs & ->)%fmap_Some. apply get_bytes in Hs as [Hs <-]. by apply from_be_bound.
  Qed.
Lemma read_le_bound i n v : from_le <$> get head i n = Some v -> v < 256 ^ N.of_nat n.
  Proof.
    intros (s & Hs & ->)%fmap_Some. apply get_bytes in Hs as [Hs <-]. unfold from_le.
    replace (length s) with (length (rev s)) by apply length_rev. apply from_be_bound. by apply Forall_rev.
  Qed.

Lemma land_1 n : N.land n 1 <= 1.
  Proof. change 1 with (N.ones 1) at 1. rewrite N.land_ones. change (2 ^ 1) with 2. pose proof (N.mod_lt n 2). lia. Qed.
Lemma padded_32 (u32 : list N -> N -> option N) c m :
    (forall i v, u32 head i = Some v -> v < 2 ^ 32) -> padded 8 u32 head c = Some m -> 0 < m.
  Proof.
    intros Hv. unfold padded. intros (n & Hn & [= <-])%bind_Some. apply Hv in Hn. pose proof (land_1 n).
    unfold w64. rewrite N.mod_small by lia. lia.
  Qed.
Context (n : nat) (Hn : (length head < n)%nat).

Lemma riff_settles c id : settles n (fun f => find_riff_chunk f head c id).
  Proof.
    apply find_settles; [apply name_first_inside| |done].
    intros ? ?. apply padded_32. intros i v. apply read_le_bound.
  Qed.
Lemma aiff_settles c id : settles n (fun f => find_aiff_chunk f head c id).
  Proof.
    apply find_settles; [apply name_first_inside| |done].
    intros ? ?. apply padded_32. intros i v. apply read_bound.
  Qed.
Lemma atom_settles c id : settles n (fun f => find_atom_within f head c id).
  Proof. by apply atom_settles_any. Qed.

Lemma varint_reads more h i v k r : varint_go more h i v k = Some r -> k < r.2.
  Proof.
    revert v k. induction more as [|more IH]; intros v k; cbn [varint_go]; [done|].
    intros (b & _ & H)%bind_Some. destruct (_ =? 0); [injection H as <-; cbn; lia|]. apply IH in H. lia.
  Qed.
Lemma sv8_settles c : settles n (fun f => loop (sv8_turn head) f c).
  Proof.
    apply loop_settles, (loop_ends _ (left_of head)); [|unfold left_of, len; lia]. clear c. intros c c' H.
    unfold sv8_turn in H. destruct (w64 (c + 2) <=? len head); [|done].
    apply need_Next in H as (key & Hkey & H). apply need_Next in H as (size & Hsize & H).
    destruct (bool_decide _); [done|]. apply need_Next in H as (c1 & Hc & [= <-]).
    apply bind_Some in Hc as (o & Ho & Hc). apply bind_Some in Hc as (o' & Ho' & Hc).
    apply checked_add_Some in Ho as [-> _], Ho' as [-> _], Hc as [-> _].
    apply get_inside in Hkey. apply left_of_less; lia.
  Qed.
End Reading.
#[export] Hint Resolve settles_ends settles_then settles_onward settles_given settles_if settles_match
  riff_settles aiff_settles atom_settles sv8_settles : probe.

Section Ending.
Context (head : list N) (Hbytes : Forall (fun c => c < 256) head) (n : nat) (Hn : (length head < n)%nat).

Lemma entry_shorter f entry : walk_to_stsd_entry f head = Some (Some entry) -> (length entry.2 <= length head)%nat.
  Proof.
    unfold walk_to_stsd_entry. intros H.
    repeat match type of H with onward ?p _ = _ => destruct p as [[?|]|]; [cbn [onward] in H|done..] end.
    unfold then_ in H. destruct (find_atom_within _ _ _ _) as [[o|]|]; [|done..]. injection H as H.
    destruct (len head <? _); [done|]. apply bind_Some in H as (e & _ & H). apply bind_Some in H as (b & Hb & [= <-]).
    apply skip_spec in Hb as [_ ->]. cbn. rewrite length_drop. lia.
  Qed.
Lemma m4a_format_settles entry : (length entry.2 < n)%nat -> settles n (fun f => m4a_format f entry).
  Proof.
    intros He. unfold m4a_format. do 3 (apply settles_given; intros ?).
    apply settles_if; [apply settles_ends|]. apply settles_if; [|apply settles_ends].
    apply settles_match, settles_then. by apply atom_settles_any.
  Qed.
Lemma m4a_settles : settles n (fun f => parse_m4a f head).
  Proof.
    assert (settles n (fun f => walk_to_stsd_entry f head)) as [[entry|] [H Hl]].
    { unfold walk_to_stsd_entry. auto 20 with probe. }
    2:{ exists None. unfold parse_m4a. split; [intros f Hf; by rewrite H|]. intros f. destruct (Hl f) as [-> | ->]; by auto. }
    destruct (m4a_format_settles entry) as [o [Ho Hol]]. { pose proof (entry_shorter n entry (H n (le_n n))). lia. }
    exists o. unfold parse_m4a. split; [intros f Hf; rewrite H by done; by apply Ho|].
    intros f. destruct (Hl f) as [-> | ->]; [by left|apply Hol].
  Qed.

End Ending.

(** *** The two walks that need not end *)

Section Walks.
Context (head : list N) (Hbytes : Forall (fun c => c < 256) head).

  (** An object of no size that is not the one looked for. *)
Definition empty_object : Prop := exists c, u64_le head (c + 16) = Some 0.
  (** A chunk whose size, with its header, wraps around to nothing. *)
Definition wrapping_chunk : Prop := exists c v, u64_be_at head (c + 4) = Some v /\ 2 ^ 64 - 13 <= v <= 2 ^ 64 - 12.

Lemma wma_turn_Next c c' : wma_turn head c = Next c' ->
    exists size, u64_le head (c + 16) = Some size /\ c' = c + size /\ c < len head.
  Proof.
    unfold wma_turn. intros H. destruct (w64 (c + 24) <=? len head); [|done].
    apply need_Next in H as (g & Hg & H). apply need_Next in H as (size & Hs & H). apply get_inside in Hg.
    exists size. split; [done|]. enough (c' = c + size) by (split; [done|lia]).
    assert (need (checked_add c size) (Next (A := AudioFormat)) = Next c' -> c' = c + size) as Hgo.
    { by intros (c1 & [-> _]%checked_add_Some & [= <-])%need_Next. }
    destruct (bool_decide _); [|by apply Hgo in H]. apply need_Next in H as (g' & _ & H).
    destruct (bool_decide _); [done|]. by apply Hgo in H.
  Qed.
Lemma wma_progress : progress (wma_turn head) (left_of head).
  Proof.
    intros c c' H. destruct (wma_turn_Next c c' H) as (size & _ & -> & Hin).
    destruct (N.eq_dec size 0) as [->|Hs]; [right; unfold stuck; by rewrite !N.add_0_r in *|].
    left. apply left_of_less; lia.
  Qed.
Lemma wma_stuck c : stuck (wma_turn head) c -> empty_object.
  Proof. intros H. destruct (wma_turn_Next c c H) as (size & Hs & Hc & _). exists c. rewrite Hs. f_equal. lia. Qed.

Lemma advance_wraps v : v < 2 ^ 64 -> w64 (12 + v + N.land v 1) = 0 -> 2 ^ 64 - 13 <= v <= 2 ^ 64 - 12.
  Proof.
    intros Hv. unfold w64. pose proof (land_1 v). intros H0. apply N.Div0.mod_divides in H0 as [q Hq]. nia.
  Qed.
Lemma padded_12_zero c : padded 12 u64_be_at head c = Some 0 -> wrapping_chunk.
  Proof.
    unfold padded. intros (v & Hv & [= H0])%bind_Some. exists c, v. split; [done|].
    apply advance_wraps; [|done]. by exact (read_bound head Hbytes (c + 4) 8 v Hv).
  Qed.
Lemma dff_find_turn id c c' : chunk_turn head 12 name_first (padded 12 u64_be_at) id c = Next c' ->
    exists adv, padded 12 u64_be_at head c = Some adv /\ c' = c + adv /\ c < len head.
  Proof.
    unfold chunk_turn. intros H. destruct (_ <=? _); [|done].
    apply need_Next in H as (s & Hs & H). apply need_Next in H as (adv & Ha & H). destruct (bool_decide _); [done|].
    apply need_Next in H as (c1 & Hc & [= <-]). apply checked_add_Some in Hc as [-> _].
    exists adv. split; [done|]. apply name_first_inside in Hs. done.
  Qed.
Lemma dff_find_progress id : progress (chunk_turn head 12 name_first (padded 12 u64_be_at) id) (left_of head).
  Proof.
    intros c c' H. destruct (dff_find_turn id c c' H) as (adv & _ & -> & Hin).
    destruct (N.eq_dec adv 0) as [->|Hs]; [right; unfold stuck; by rewrite !N.add_0_r in *|].
    left. apply left_of_less; lia.
  Qed.
Lemma dff_find_stuck id c : stuck (chunk_turn head 12 name_first (padded 12 u64_be_at) id) c -> wrapping_chunk.
  Proof.
    intros H. destruct (dff_find_turn id c c H) as (adv & Ha & Hc & _). apply (padded_12_zero c). rewrite Ha. f_equal. lia.
  Qed.

Lemma dff_turn_Next r ch c r' ch' c' : dff_turn head (r, ch, c) = Next (r', ch', c') ->
    exists v, u64_be_at head (c + 4) = Some v /\ c' = c + w64 (12 + v + N.land v 1) /\ c < len head
      /\ (c' = c -> dff_turn head (r', ch', c) = Next (r', ch', c)).
  Proof.
    unfold dff_turn. intros H. destruct (_ <=? _); [|done].
    apply need_Next in H as (id & Hid & H). apply need_Next in H as (v & Hv & H). apply need_Next in H as (m & Hm & H).
    apply need_Next in H as (c1 & Hc & H). destruct (both _ _) eqn:E; [done|]. injection H as <- <- <-.
    pose proof (checked_add_Some _ _ _ Hc) as [Hc1 _]. exists v. split; [done|]. split; [done|].
    split; [apply get_inside in Hid; lia|]. intros Heq. rewrite Hid. cbn [need]. rewrite Hv. cbn [need].
    assert ((if bool_decide (id = lit "CHNL") then Some <$> u16_be head (c + 12) else Some m) = Some m) as ->.
    { destruct (bool_decide (id = lit "CHNL")); done. }
    cbn [need]. rewrite Hc. cbn [need].
    assert ((if bool_decide (id = lit "FS  ") then u32_be head (c + 12)
             else if bool_decide (id = lit "FS  ") then u32_be head (c + 12) else r)
            = (if bool_decide (id = lit "FS  ") then u32_be head (c + 12) else r)) as ->.
    { by destruct (bool_decide (id = lit "FS  ")). }
    rewrite E. by rewrite Heq.
  Qed.
Definition dff_left (s : option N * option N * N) : nat := left_of head s.2.
Lemma dff_progress : progress (dff_turn head) dff_left.
  Proof.
    intros [[r ch] c] [[r' ch'] c'] H. destruct (dff_turn_Next _ _ _ _ _ _ H) as (v & _ & Hc & Hin & Hs).
    destruct (N.eq_dec (w64 (12 + v + N.land v 1)) 0) as [E|E].
    - right. unfold stuck. rewrite E, N.add_0_r in Hc. subst c'. by apply Hs.
    - left. unfold dff_left. cbn [snd]. apply left_of_less; lia.
  Qed.
Lemma dff_stuck s : stuck (dff_turn head) s -> wrapping_chunk.
  Proof.
    destruct s as [[r ch] c]. intros H. destruct (dff_turn_Next _ _ _ _ _ _ H) as (v & Hv & Hc & _).
    exists c, v. split; [done|]. apply advance_wraps; [|lia]. exact (read_bound head Hbytes (c + 4) 8 v Hv).
  Qed.
End Walks.

(** [p] settles, or it hangs and there is a reason. *)
Definition settles_or_hangs {A} (n : nat) (reason : Prop) (p : nat -> Probe A) : Prop :=
  settles n p \/ hangs p /\ reason.
Lemma loop_either {S A} (turn : S -> Turn S A) measure n reason s :
  progress turn measure -> (forall s, stuck turn s -> reason) -> (measure s < n)%nat ->
  settles_or_hangs n reason (fun f => loop turn f s).
Proof.
  intros Hp Hr Hm. destruct (loop_ends_or_sticks turn measure Hp s n Hm) as [Ho|(s' & Hs' & Hst)].
  - left. by apply loop_settles.
  - right. split; [intros f; by eapply loop_stuck|by eapply Hr].
Qed.
Lemma onward_either {A B} n reason (p : nat -> Probe A) (k : nat -> A -> Probe B) :
  settles_or_hangs n reason p -> (forall a, settles_or_hangs n reason (fun f => k f a)) ->
  settles_or_hangs n reason (fun f => onward (p f) (k f)).
Proof.
  intros [[[a|] [H Hl]]|[H Hr]] Hk.
  - destruct (Hk a) as [[o [Ho Hol]]|[Ha Hr]].
    + left. exists o. split; [intros f Hf; rewrite H by done; by apply Ho|].
      intros f. destruct (Hl f) as [-> | ->]; [by left|apply Hol].
    + right. split; [|done]. intros f. destruct (Hl f) as [-> | ->]; [done|apply Ha].
  - left. exists None. split; [intros f Hf; by rewrite H|]. intros f. destruct (Hl f) as [-> | ->]; by auto.
  - right. split; [|done]. intros f. by rewrite H.
Qed.
Lemma then_either {A B} n reason (p : nat -> Probe A) (k : A -> option B) :
  settles_or_hangs n reason p -> settles_or_hangs n reason (fun f => then_ (p f) k).
Proof. intros [H|[H Hr]]; [left; by apply settles_then|right; split; [intros f; by rewrite H|done]]. Qed.
Lemma if_either {A} n reason (c : bool) (p q : nat -> Probe A) :
  settles_or_hangs n reason p -> settles_or_hangs n reason q -> settles_or_hangs n reason (fun f => if c then p f else q f).
Proof. by destruct c. Qed.

Section Dispatch.
Context (head : list N) (Hbytes : Forall (fun c => c < 256) head) (n : nat) (Hn : (length head < n)%nat).

Lemma dff_settles_or_hangs : settles_or_hangs n (wrapping_chunk head) (fun f => parse_dff f head).
  Proof.
    assert (forall o : option AudioFormat, settles_or_hangs n (wrapping_chunk head) (fun _ => ends o)) as Hend
      by (intros o; left; apply settles_ends).
    unfold parse_dff. apply if_either; [apply Hend|]. apply if_either; [apply Hend|].
    apply onward_either.
    - apply (loop_either _ (left_of head)); [apply dff_find_progress|by apply dff_find_stuck|unfold left_of, len; lia].
    - intros off. apply if_either; [apply Hend|]. apply then_either.
      apply (loop_either _ (dff_left head)); [apply dff_progress|by apply dff_stuck|unfold dff_left, left_of, len; lia].
  Qed.
Lemma wma_settles_or_hangs : settles_or_hangs n (empty_object head) (fun f => parse_wma f head).
  Proof.
    unfold parse_wma. destruct (get head 0 16) as [guid|]; [|left; apply settles_ends]. cbn [given_].
    apply if_either; [|left; apply settles_ends].
    apply (loop_either _ (left_of head)); [apply wma_progress|apply wma_stuck|unfold left_of, len; lia].
  Qed.
Lemma other_settles c : c <> Cdff -> c <> Cwma -> settles n (fun f => parse f c head).
  Proof.
    destruct c; try done; intros _ _; unfold parse; try apply settles_ends.
    - unfold parse_wav. auto 10 using riff_settles with probe.
    - unfold parse_aiff. do 2 (apply settles_if || apply settles_given || apply settles_ends || intros ?).
      all: auto 10 using aiff_settles with probe.
    - by apply m4a_settles.
    - unfold parse_aac_or_m4a. destruct head as [|? [|? ?]]; try by apply m4a_settles.
      apply settles_if; [apply settles_ends|by apply m4a_settles].
    - unfold parse_musepack, parse_musepack_sv8. auto 10 using sv8_settles with probe.
  Qed.
End Dispatch.


(** ** Headers, written *)

(** [v] in [n] bytes *)
Fixpoint be (n : nat) (v : N) : list N := match n with O => [] | S n => be n (v / 256) ++ [v mod 256] end.
Definition le (n : nat) (v : N) : list N := rev (be n v).

Lemma be_length n v : length (be n v) = n.
Proof. revert v. induction n as [|n IH]; intros v; [done|]. cbn [be]. rewrite length_app, IH. cbn. lia. Qed.
Lemma le_length n v : length (le n v) = n.
Proof. unfold le. by rewrite length_rev, be_length. Qed.
Lemma from_be_be n v : v < 256 ^ N.of_nat n -> from_be (be n v) = v.
Proof.
  revert v. induction n as [|n IH]; intros v Hv.
  - change (256 ^ N.of_nat 0) with 1 in Hv. cbn. lia.
  - replace (N.of_nat (S n)) with (N.succ (N.of_nat n)) in Hv by lia. rewrite N.pow_succ_r' in Hv.
    assert (v / 256 < 256 ^ N.of_nat n) as Hd by (apply N.Div0.div_lt_upper_bound; exact Hv).
    cbn [be]. specialize (IH _ Hd). unfold from_be in *. rewrite foldl_app, IH. cbn [foldl].
    pose proof (N.div_mod' v 256). lia.
Qed.
Lemma from_le_le n v : v < 256 ^ N.of_nat n -> from_le (le n v) = v.
Proof. intros Hv. unfold from_le, le. rewrite rev_involutive. by apply from_be_be. Qed.

Lemma len_app a b : len (a ++ b) = len a + len b.
Proof. unfold len. rewrite length_app. lia. Qed.
Lemma len_be n v : len (be n v) = N.of_nat n.
Proof. unfold len. by rewrite be_length. Qed.
Lemma len_le n v : len (le n v) = N.of_nat n.
Proof. unfold len. by rewrite le_length. Qed.

(** What is written where, is read from there: *)
Lemma get_past p q i j n : i = len p + j -> get (p ++ q) i n = get q j n.
Proof.
  intros ->. unfold get. f_equal. destruct (skip j q) as [s|] eqn:E.
  - apply skip_spec in E as [H ->]. apply skip_spec. rewrite len_app. split; [lia|].
    unfold len. replace (N.to_nat (N.of_nat (length p) + j)) with (length p + N.to_nat j)%nat by lia. by rewrite drop_app_add.
  - destruct (skip (len p + j) (p ++ q)) as [s|] eqn:E2; [|done]. apply skip_spec in E2 as [H _]. rewrite len_app in H.
    assert (skip j q = Some (drop (N.to_nat j) q)) as E3 by (apply skip_spec; split; [lia|done]). by rewrite E in E3.
Qed.
Lemma get_here s q n : n = length s -> get (s ++ q) 0 n = Some s.
Proof. intros ->. apply (get_at [] s q). done. Qed.
Lemma get_last s n : n = length s -> get s 0 n = Some s.
Proof. intros H. rewrite <-(app_nil_r s) at 1. by apply get_here. Qed.

Lemma le_read n v q i p : i = len p -> v < 256 ^ N.of_nat n -> from_le <$> get (p ++ le n v ++ q) i n = Some v.
Proof.
  intros -> Hv. rewrite (get_at p (le n v) q n) by by rewrite le_length. cbn. by rewrite from_le_le.
Qed.
Lemma be_read n v q i p : i = len p -> v < 256 ^ N.of_nat n -> from_be <$> get (p ++ be n v ++ q) i n = Some v.
Proof.
  intros -> Hv. rewrite (get_at p (be n v) q n) by by rewrite be_length. cbn. by rewrite from_be_be.
Qed.
Lemma magic_read (m : string) q i p : i = len p -> check_magic (p ++ lit m ++ q) i m = true.
Proof. intros ->. unfold check_magic. rewrite get_at by done. by rewrite bool_decide_eq_true_2. Qed.

(** How many bytes a piece of a written header has. *)
Ltac bytes_of p :=
  lazymatch p with
  | be ?n _ => eval vm_compute in (N.of_nat n)
  | le ?n _ => eval vm_compute in (N.of_nat n)
  | lit ?s => eval vm_compute in (len (lit s))
  | [_] => constr:(1)
  | _ => lazymatch goal with H : len p = ?k |- _ => k end
  end.
Ltac piece_len :=
  rewrite ?length_app, ?len_app, ?be_length, ?le_length, ?len_be, ?len_le; first [done|unfold len in *; cbn [length]; lia].
(** Read the next piece, or pass it over. *)
Ltac read_piece :=
  lazymatch goal with
  | |- context [get (?p ++ ?q) 0 ?n] => rewrite (get_here p q n) by piece_len
  | |- context [get (?p ++ ?q) ?i ?n] =>
      let l := bytes_of p in let j := eval vm_compute in (i - l) in rewrite (get_past p q i j n) by piece_len
  end.
Ltac read_header :=
  repeat first [read_piece | rewrite bool_decide_eq_true_2 by done
               | rewrite from_be_be by done | rewrite from_le_le by done | progress cbn [fmap option_fmap option_map mbind option_bind check]].

(** *** Chunks *)

(** A walk over pieces each of which is passed over comes to their end; [mk] is the state
    of the loop at an offset. *)
Lemma loop_past {S A} (turn : S -> Turn S A) (mk : N -> S) (b : list N) junk pre post fuel :
  (forall pre' ch post', ch ∈ junk -> b = pre' ++ ch ++ post' -> turn (mk (len pre')) = Next (mk (len pre' + len ch))) ->
  b = pre ++ concat junk ++ post ->
  loop turn (length junk + fuel) (mk (len pre)) = loop turn fuel (mk (len pre + len (concat junk))).
Proof.
  revert pre. induction junk as [|ch junk IH]; intros pre Hnext Hb; cbn [length Nat.add concat] in *.
  - change (len []) with 0. by rewrite N.add_0_r.
  - cbn [loop]. rewrite (Hnext pre ch (concat junk ++ post)) by (first [left|rewrite Hb; by rewrite <-!app_assoc]).
    rewrite <-len_app, IH; [|intros pre' c post' Hc; apply Hnext; by right|rewrite Hb; by rewrite <-!app_assoc].
    f_equal. f_equal. rewrite !len_app. lia.
Qed.
Lemma loop_past_done {S A} (turn : S -> Turn S A) (mk : N -> S) (b : list N) junk pre post o fuel :
  (forall pre' ch post', ch ∈ junk -> b = pre' ++ ch ++ post' -> turn (mk (len pre')) = Next (mk (len pre' + len ch))) ->
  b = pre ++ concat junk ++ post -> turn (mk (len pre + len (concat junk))) = Done o -> (length junk < fuel)%nat ->
  loop turn fuel (mk (len pre)) = Some o.
Proof.
  intros Hn Hb Hd Hf. replace fuel with (length junk + Datatypes.S (fuel - length junk - 1))%nat by lia.
  rewrite (loop_past turn mk b junk pre post _ Hn Hb). cbn [loop]. by rewrite Hd.
Qed.

(** A chunk: its name, the number of its bytes, the bytes, and a byte more if they are odd. *)
Record Chunk := { c_id : list N; c_body : list N; c_pad : list N }.
Record ChunkKind := { k_width : nat; k_write : N -> list N; k_read : list N -> N -> option N;
  k_written : forall pre v post, v < 256 ^ N.of_nat k_width -> k_read (pre ++ k_write v ++ post) (len pre) = Some v;
  k_length : forall v, length (k_write v) = k_width }.
Definition k_riff : ChunkKind.
Proof. refine (Build_ChunkKind 4 (le 4) u32_le _ (le_length 4)). intros. by apply le_read. Defined.
Definition k_aiff : ChunkKind.
Proof. refine (Build_ChunkKind 4 (be 4) u32_be _ (be_length 4)). intros. by apply be_read. Defined.
Definition k_dff : ChunkKind.
Proof. refine (Build_ChunkKind 8 (be 8) u64_be_at _ (be_length 8)). intros. by apply be_read. Defined.

Section Chunks.
Context (k : ChunkKind).
Definition k_header : N := 4 + N.of_nat (k_width k).
Definition write_chunk (c : Chunk) : list N := c_id c ++ k_write k (len (c_body c)) ++ c_body c ++ c_pad c.
  (** A chunk that is not the one named [id], which is looked for. *)
Definition other_chunk (id : string) (c : Chunk) : Prop :=
    len (c_id c) = 4 /\ c_id c <> lit id /\ len (c_body c) < 256 ^ N.of_nat (k_width k) /\ len (c_pad c) = N.land (len (c_body c)) 1.
Definition write_chunks (cs : list Chunk) : list N := concat (map write_chunk cs).

Lemma len_write_chunk c : len (write_chunk c) = len (c_id c) + N.of_nat (k_width k) + len (c_body c) + len (c_pad c).
  Proof. unfold write_chunk. rewrite !len_app. unfold len at 2. rewrite k_length. lia. Qed.

Lemma chunk_found (b pre post : list N) (cs : list Chunk) (id : string) (size : N) fuel :
    Forall (other_chunk id) cs -> b = pre ++ write_chunks cs ++ lit id ++ k_write k size ++ post ->
    len (lit id) = 4 -> size < 256 ^ N.of_nat (k_width k) -> len b < 2 ^ 64 -> (length cs < fuel)%nat ->
    find_chunk fuel b k_header name_first (padded k_header (k_read k)) id (len pre)
    = Some (Some (len pre + len (write_chunks cs))).
  Proof.
    intros Hcs Hb Hid Hsize Hlen Hf. unfold find_chunk, write_chunks in *.
    assert (forall pre' name v post', b = pre' ++ name ++ k_write k v ++ post' -> len name = 4 -> v < 256 ^ N.of_nat (k_width k) ->
            (w64 (len pre' + k_header) <=? len b) = true /\ name_first b (len pre') = Some name
            /\ padded k_header (k_read k) b (len pre') = Some (w64 (k_header + v + N.land v 1))) as Hread.
    { intros pre' name v post' -> Hname Hv. rewrite !len_app in Hlen |- *.
      assert (len (k_write k v) = N.of_nat (k_width k)) as Hw by (unfold len; by rewrite k_length).
      split; [|split].
      - apply N.leb_le. unfold w64, k_header. rewrite N.mod_small; lia.
      - unfold name_first. apply get_at. unfold len in Hname. lia.
      - unfold padded. rewrite <-Hname at 1. rewrite <-len_app, app_assoc, k_written by done. done. }
    apply (loop_past_done _ (fun c => c) b (map write_chunk cs) pre (lit id ++ k_write k size ++ post)); [|done| |by rewrite length_map].
    - intros pre' ch post' Hch Hb'. apply list_elem_of_fmap in Hch as (c & -> & Hc).
      rewrite Forall_forall in Hcs. destruct (Hcs c Hc) as (H4 & Hne & Hw & Hp).
      unfold write_chunk in Hb'. rewrite <-!app_assoc in Hb'.
      destruct (Hread _ _ _ _ Hb' H4 Hw) as (E1 & E2 & E3). unfold chunk_turn. rewrite E1, E2. cbn [need]. rewrite E3. cbn [need].
      rewrite bool_decide_eq_false_2 by done.
      assert (len pre' + len (write_chunk c) < 2 ^ 64) as Hsmall.
      { rewrite Hb' in Hlen. rewrite !len_app in Hlen. rewrite len_write_chunk.
        assert (len (k_write k (len (c_body c))) = N.of_nat (k_width k)) by (unfold len; by rewrite k_length). lia. }
      rewrite len_write_chunk, H4, Hp in *. unfold w64, k_header. rewrite N.mod_small by lia. rewrite checked_add_ok by lia.
      cbn [need]. done || (f_equal; lia).
    - rewrite <-len_app. destruct (Hread (pre ++ concat (map write_chunk cs)) (lit id) size post) as (E1 & E2 & E3);
        [by rewrite Hb, <-!app_assoc|done|done|].
      unfold chunk_turn. rewrite E1, E2. cbn [need]. rewrite E3. cbn [need]. by rewrite bool_decide_eq_true_2.
  Qed.
End Chunks.

(** *** Atoms: the size comes first and counts the eight bytes with it. *)

Record Atom := { a_type : list N; a_body : list N }.
Definition write_atom (a : Atom) : list N := be 4 (8 + len (a_body a)) ++ a_type a ++ a_body a.
Definition write_atoms (l : list Atom) : list N := concat (map write_atom l).
Definition other_atom (id : string) (a : Atom) : Prop :=
  len (a_type a) = 4 /\ a_type a <> lit id /\ 8 + len (a_body a) < 2 ^ 32.
Lemma len_write_atom a : len (a_type a) = 4 -> len (write_atom a) = 8 + len (a_body a).
Proof. intros H. unfold write_atom. rewrite !len_app, len_be, H. lia. Qed.
Lemma atom_read pre size ty post : len ty = 4 -> size < 2 ^ 32 ->
  atom_at (pre ++ be 4 size ++ ty ++ post) (len pre) = Some (size, ty).
Proof.
  intros Ht Hs. unfold atom_at, u32_be. rewrite be_read by done. cbn [mbind option_bind].
  replace (pre ++ be 4 size ++ ty ++ post) with ((pre ++ be 4 size) ++ ty ++ post) by by rewrite <-app_assoc.
  replace (len pre + 4) with (len (pre ++ be 4 size)) by (rewrite len_app, len_be; lia).
  rewrite get_at by (unfold len in Ht; lia). done.
Qed.
Lemma atom_turn b pre size ty post id : b = pre ++ be 4 size ++ ty ++ post -> len ty = 4 -> 8 <= size < 2 ^ 32 -> len b < 2 ^ 63 ->
  chunk_turn b 8 atom_name atom_advance id (len pre)
  = if bool_decide (ty = lit id) then Done (Some (len pre)) else Next (len pre + size).
Proof.
  intros Hb Ht Hs Hl. unfold chunk_turn.
  assert (len pre + 8 <= len b) as Hin by (rewrite Hb, !len_app, len_be, Ht; lia).
  assert ((w64 (len pre + 8) <=? len b) = true) as ->.
  { apply N.leb_le. unfold w64. rewrite N.mod_small; lia. }
  assert (atom_at b (len pre) = Some (size, ty)) as Ha by (rewrite Hb; apply atom_read; [done|lia]).
  unfold atom_name, atom_advance. rewrite Ha. cbn [mbind option_bind need fst snd].
  assert ((size <? 8) = false) as -> by (apply N.ltb_ge; lia). cbn [need].
  destruct (bool_decide _); [done|]. by rewrite checked_add_ok by lia.
Qed.
Lemma atom_found (b pre post : list N) (l : list Atom) (id : string) (size : N) fuel :
  Forall (other_atom id) l -> b = pre ++ write_atoms l ++ be 4 size ++ lit id ++ post ->
  len (lit id) = 4 -> 8 <= size < 2 ^ 32 -> len b < 2 ^ 63 -> (length l < fuel)%nat ->
  find_atom_within fuel b (len pre) id = Some (Some (len pre + len (write_atoms l))).
Proof.
  intros Hl Hb Hid Hs Hlen Hf. unfold find_atom_within, find_chunk, write_atoms in *.
  apply (loop_past_done _ (fun c => c) b (map write_atom l) pre (be 4 size ++ lit id ++ post)); [|done| |by rewrite length_map].
  - intros pre' ch post' Hch Hb'. apply list_elem_of_fmap in Hch as (a & -> & Ha).
    rewrite Forall_forall in Hl. destruct (Hl a Ha) as (H4 & Hne & Hw).
    rewrite (atom_turn b pre' (8 + len (a_body a)) (a_type a) (a_body a ++ post') id); [|by rewrite Hb'; unfold write_atom; rewrite <-!app_assoc|done|lia|done].
    rewrite bool_decide_eq_false_2 by done. by rewrite len_write_atom.
  - rewrite <-len_app, (atom_turn b _ size (lit id) post id); [by rewrite bool_decide_eq_true_2|by rewrite Hb, <-!app_assoc|done..].
Qed.

(** *** The fields *)

Definition dsd_hz (rate : DsdRate) : N :=
  match rate with Dsd64 => 2822400 | Dsd128 => 5644800 | Dsd256 => 11289600 | Dsd512 => 22579200 end.
Definition codec_bits (codec : PcmCodec) : N := match codec with PcmS16Le => 16 | PcmS24Le => 24 | PcmS32Le => 32 end.
Definition channels_ok (n : N) : Prop := 1 <= n <= 32.

Lemma dsd_rate_of rate : dsd_rate_from_hz (dsd_hz rate) = Some rate.
Proof. by destruct rate. Qed.
Lemma clamp_ok n : channels_ok n -> clamp_channels n = Some n.
Proof.
  intros [H1 H2]. unfold clamp_channels. assert ((n =? 0) = false) as -> by (apply N.eqb_neq; lia).
  by assert ((32 <? n) = false) as -> by (apply N.ltb_ge; lia).
Qed.
Lemma pcm_ok codec rate n : channels_ok n -> pcm (codec_bits codec) rate n = Some (Pcm codec rate n).
Proof. intros H. unfold pcm. rewrite clamp_ok by done. by destruct codec. Qed.
Lemma as_u8_bits codec : as_u8 (codec_bits codec) = codec_bits codec.
Proof. by destruct codec. Qed.
Lemma codec_bits_small codec k : 5 < k -> codec_bits codec < 2 ^ k.
Proof. intros H. assert (2 ^ 6 <= 2 ^ k) by (apply N.pow_le_mono_r; lia). destruct codec; cbn; lia. Qed.
(** A field of bits, of a number that is [hi] above it, the field and [lo] below it. *)
Lemma bits_field hi v lo w k : v < 2 ^ w -> lo < 2 ^ k -> bits_of (hi * 2 ^ (k + w) + v * 2 ^ k + lo) k (2 ^ w - 1) = v.
Proof.
  intros Hv Hlo. unfold bits_of. rewrite N.sub_1_r, <-N.ones_equiv, N.land_ones, N.shiftr_div_pow2.
  rewrite N.pow_add_r. replace (hi * (2 ^ k * 2 ^ w) + v * 2 ^ k + lo) with ((hi * 2 ^ w + v) * 2 ^ k + lo) by lia.
  rewrite N.div_add_l by (apply N.pow_nonzero; lia). rewrite (N.div_small lo) by done. rewrite N.add_0_r.
  rewrite N.add_comm, N.Div0.mod_add. by apply N.mod_small.
Qed.

Lemma dsf_read a b rate ch rest : len a = 24 -> len b = 20 -> channels_ok ch ->
  parse_dsf (lit "DSD " ++ a ++ lit "fmt " ++ b ++ le 4 ch ++ le 4 (dsd_hz rate) ++ rest) = Some (Dsd rate ch).
Proof.
  intros Ha Hb [Hc1 Hc2]. unfold parse_dsf, check_magic, u32_le.
  assert (ch < 256 ^ N.of_nat 4) by (cbn; lia). assert (dsd_hz rate < 256 ^ N.of_nat 4) by (destruct rate; cbn; lia).
  read_header. rewrite dsd_rate_of. cbn [mbind option_bind]. by rewrite clamp_ok.
Qed.
Lemma tta_read a codec rate ch rest : len a = 2 -> channels_ok ch -> rate < 2 ^ 32 ->
  parse_tta (lit "TTA1" ++ a ++ le 2 ch ++ le 2 (codec_bits codec) ++ le 4 rate ++ rest) = Some (Pcm codec rate ch).
Proof.
  intros Ha [Hc1 Hc2] Hr. unfold parse_tta, check_magic, u16_le, u32_le.
  assert (ch < 256 ^ N.of_nat 2) by (cbn; lia). assert (codec_bits codec < 256 ^ N.of_nat 2) by (destruct codec; cbn; lia).
  assert (rate < 256 ^ N.of_nat 4) by (cbn in *; lia).
  read_header. rewrite as_u8_bits. by apply pcm_ok.
Qed.

(** [flac_bits]: the rate in 20 bits, the channels less one in 3, the bits of a sample less one
    in 5 and the number of samples in 36. *)
Definition flac_bits (rate ch bits samples : N) : N := rate * 2 ^ 44 + (ch - 1) * 2 ^ 41 + (bits - 1) * 2 ^ 36 + samples.
Lemma flac_read t a codec rate ch samples rest :
  len a = 13 -> N.land t 127 = 0 -> 1 <= ch <= 8 -> 1 <= rate < 2 ^ 20 -> samples < 2 ^ 36 ->
  parse_flac (lit "fLaC" ++ [t] ++ a ++ be 8 (flac_bits rate ch (codec_bits codec) samples) ++ rest)
  = Some (Pcm codec rate ch).
Proof.
  intros Ha Ht Hc Hr Hs. unfold parse_flac, check_magic, byte_at.
  assert (codec_bits codec - 1 < 2 ^ 5) as Hb by (destruct codec; cbn; lia).
  assert (1 <= codec_bits codec) as Hb1 by (destruct codec; cbn; lia).
  set (bits := codec_bits codec) in *.
  assert (flac_bits rate ch bits samples < 256 ^ N.of_nat 8) by (unfold flac_bits; cbn in *; lia).
  read_header. cbn [head mbind option_bind]. rewrite Ht. change (0 =? 0) with true. read_header.
  assert (bits_of (flac_bits rate ch bits samples) 44 1048575 = rate) as ->.
  { replace (flac_bits rate ch bits samples) with (0 * 2 ^ (44 + 20) + rate * 2 ^ 44 + ((ch - 1) * 2 ^ 41 + (bits - 1) * 2 ^ 36 + samples))
      by (unfold flac_bits; lia). apply (bits_field 0 rate _ 20 44); cbn in *; lia. }
  assert (bits_of (flac_bits rate ch bits samples) 41 7 = ch - 1) as ->.
  { replace (flac_bits rate ch bits samples) with (rate * 2 ^ (41 + 3) + (ch - 1) * 2 ^ 41 + ((bits - 1) * 2 ^ 36 + samples))
      by (unfold flac_bits; lia). apply (bits_field rate _ _ 3 41); cbn in *; lia. }
  assert (bits_of (flac_bits rate ch bits samples) 36 31 = bits - 1) as ->.
  { replace (flac_bits rate ch bits samples) with ((rate * 2 ^ 3 + (ch - 1)) * 2 ^ (36 + 5) + (bits - 1) * 2 ^ 36 + samples)
      by (unfold flac_bits; lia). apply (bits_field _ _ _ 5 36); cbn in *; lia. }
  assert ((rate =? 0) = false) as -> by (apply N.eqb_neq; lia). cbn [negb check mbind option_bind].
  replace (ch - 1 + 1) with ch by lia. replace (bits - 1 + 1) with bits by lia. apply pcm_ok. unfold channels_ok. lia.
Qed.

(** What follows the pieces before an offset is read from the offset on. *)
Lemma get_after pre l q j n : get (pre ++ l ++ q) (len pre + (len l + j)) n = get q j n.
Proof. rewrite app_assoc, N.add_assoc, <-len_app. by apply get_past. Qed.

Lemma wav_read size cs fsize tag ch rate a codec rest fuel :
  len size = 4 -> Forall (other_chunk k_riff "fmt ") cs -> fsize < 2 ^ 32 -> tag = 1 \/ tag = 65534 -> channels_ok ch ->
  rate < 2 ^ 32 -> len a = 6 ->
  let head := (lit "RIFF" ++ size ++ lit "WAVE") ++ write_chunks k_riff cs ++ lit "fmt " ++ le 4 fsize ++
              le 2 tag ++ le 2 ch ++ le 4 rate ++ a ++ le 2 (codec_bits codec) ++ rest in
  len head < 2 ^ 64 -> (length cs < fuel)%nat -> parse_wav fuel head = Some (Some (Pcm codec rate ch)).
Proof.
  intros Hsz Hcs Hfs Htag [Hc1 Hc2] Hr Ha head Hlen Hf. unfold parse_wav.
  assert (len (lit "RIFF" ++ size ++ lit "WAVE") = 12) as Hpre by (rewrite !len_app, Hsz; done).
  assert (check_magic head 0 "RIFF" = true) as -> by (subst head; unfold check_magic; rewrite <-!app_assoc; by read_header).
  assert (check_magic head 8 "WAVE" = true) as -> by (subst head; unfold check_magic; rewrite <-!app_assoc; by read_header).
  cbn [negb]. rewrite <-Hpre.
  assert (find_riff_chunk fuel head (len (lit "RIFF" ++ size ++ lit "WAVE")) "fmt " = Some (Some (len (lit "RIFF" ++ size ++ lit "WAVE") + len (write_chunks k_riff cs)))) as ->
    by exact (chunk_found k_riff head _ _ cs "fmt " fsize fuel Hcs eq_refl eq_refl Hfs Hlen Hf).
  cbn [then_].
  unfold u16_le, u32_le. rewrite <-!N.add_assoc. subst head. rewrite !get_after.
  assert (tag < 256 ^ N.of_nat 2) by (destruct Htag; subst; cbn; lia). assert (ch < 256 ^ N.of_nat 2) by (cbn; lia).
  assert (rate < 256 ^ N.of_nat 4) by (cbn in *; lia). assert (codec_bits codec < 256 ^ N.of_nat 2) by (destruct codec; cbn; lia).
  read_header. assert ((tag =? 1) || (tag =? 65534) = true) as -> by (by destruct Htag; subst).
  cbn [check mbind option_bind]. rewrite as_u8_bits. f_equal. by apply pcm_ok.
Qed.

(** A rate as a number of 80 bits in floating point. *)
Definition extended (rate : N) : list N := be 2 (16383 + N.log2 rate) ++ be 8 (N.shiftl rate (63 - N.log2 rate)).
Lemma extended_read rate : 1 <= rate < 2 ^ 32 -> ieee_754_extended_to_u32 (extended rate) = Some rate.
Proof.
  intros [H1 H2]. assert (N.log2 rate < 32) as Hlog by (apply N.log2_lt_pow2; lia).
  unfold extended. set (e := 16383 + N.log2 rate). assert (e / 256 < 128 /\ 0 < e) as [Hhi Hpos].
  { split; [|unfold e; lia]. apply N.Div0.div_lt_upper_bound. unfold e. lia. }
  set (b0 := e / 256 mod 256). assert (b0 = e / 256) as Hb0 by (unfold b0; apply N.mod_small; lia).
  assert (be 2 e = [b0; e mod 256]) as -> by (unfold b0; reflexivity).
  unfold ieee_754_extended_to_u32. cbn [app lookup list_lookup mbind option_bind drop]. rewrite ?drop_0.
  assert (bits_of b0 7 1 = 0) as ->.
  { unfold bits_of. rewrite N.shiftr_div_pow2, N.div_small by (rewrite Hb0; cbn; lia). done. }
  assert (N.lor (N.shiftl (N.land b0 127) 8) (e mod 256) = e) as ->.
  { change 127 with (N.ones 7). rewrite N.land_ones, N.mod_small by (rewrite Hb0; cbn; lia).
    assert (e mod 256 = N.land e (N.ones 8)) as -> by (symmetry; apply (N.land_ones e 8)).
    assert (b0 = N.shiftr e 8) as -> by (rewrite Hb0; symmetry; apply (N.shiftr_div_pow2 e 8)).
    rewrite <-N.ldiff_ones_r. apply N.bits_inj. intros i. rewrite N.lor_spec, N.land_spec, N.ldiff_spec.
    by destruct (N.testbit e i), (N.testbit (N.ones 8) i). }
  assert (from_be (be 8 (N.shiftl rate (63 - N.log2 rate))) = N.shiftl rate (63 - N.log2 rate)) as ->.
  { apply from_be_be. rewrite N.shiftl_mul_pow2. change (256 ^ N.of_nat 8) with (2 ^ 64).
    pose proof (N.log2_spec rate ltac:(lia)) as [_ Hl].
    assert (2 ^ 64 = 2 ^ N.succ (N.log2 rate) * 2 ^ (63 - N.log2 rate)) as -> by (rewrite <-N.pow_add_r; f_equal; lia).
    apply N.mul_lt_mono_pos_r; [|done]. pose proof (N.pow_nonzero 2 (63 - N.log2 rate)). lia. }
  assert ((e =? 32767) = false) as -> by (apply N.eqb_neq; unfold e; lia).
  assert ((e =? 0) = false) as -> by (apply N.eqb_neq; lia).
  change (negb (0 =? 0) || false) with false. cbn [andb].
  assert ((16446 <? e) = false) as -> by (apply N.ltb_ge; unfold e; lia).
  assert ((e =? 16446) = false) as -> by (apply N.eqb_neq; unfold e; lia).
  replace (16446 - e) with (63 - N.log2 rate) by (unfold e; lia).
  assert ((64 <=? 63 - N.log2 rate) = false) as -> by (apply N.leb_gt; lia).
  rewrite N.shiftr_shiftl_l by lia. rewrite N.sub_diag. rewrite N.shiftl_0_r. f_equal. by apply N.mod_small.
Qed.

Lemma aiff_read size (aifc : bool) cs csize ch frames codec rate rest fuel :
  len size = 4 -> Forall (other_chunk k_aiff "COMM") cs -> csize < 2 ^ 32 -> channels_ok ch -> 1 <= rate < 2 ^ 32 -> len frames = 4 ->
  let head := (lit "FORM" ++ size ++ lit (if aifc then "AIFC" else "AIFF")) ++ write_chunks k_aiff cs ++ lit "COMM" ++ be 4 csize ++
              be 2 ch ++ frames ++ be 2 (codec_bits codec) ++ extended rate ++ rest in
  len head < 2 ^ 64 -> (length cs < fuel)%nat -> parse_aiff fuel head = Some (Some (Pcm codec rate ch)).
Proof.
  intros Hsz Hcs Hfs [Hc1 Hc2] Hr Hfr head Hlen Hf. unfold parse_aiff.
  set (form := lit (if aifc then "AIFC" else "AIFF")) in *. assert (len form = 4) as Hform by (by destruct aifc).
  assert (len (lit "FORM" ++ size ++ form) = 12) as Hpre by (rewrite !len_app, Hsz, Hform; done).
  assert (check_magic head 0 "FORM" = true) as -> by (subst head; unfold check_magic; rewrite <-!app_assoc; by read_header).
  assert (get head 8 4 = Some form) as -> by (subst head; rewrite <-!app_assoc; by read_header).
  cbn [negb given_]. assert (negb (bool_decide (form = lit "AIFF")) && negb (bool_decide (form = lit "AIFC")) = false) as -> by (by destruct aifc).
  rewrite <-Hpre.
  assert (find_aiff_chunk fuel head (len (lit "FORM" ++ size ++ form)) "COMM" = Some (Some (len (lit "FORM" ++ size ++ form) + len (write_chunks k_aiff cs)))) as ->
    by exact (chunk_found k_aiff head _ _ cs "COMM" csize fuel Hcs eq_refl eq_refl Hfs Hlen Hf).
  cbn [then_].
  unfold u16_be, u32_be. rewrite <-!N.add_assoc. subst head. rewrite !get_after.
  assert (ch < 256 ^ N.of_nat 2) by (cbn; lia). assert (codec_bits codec < 256 ^ N.of_nat 2) by (destruct codec; cbn; lia).
  assert (len (extended rate) = 10) by (unfold extended; rewrite len_app, !len_be; done).
  read_header. rewrite extended_read by done. cbn [mbind option_bind]. rewrite as_u8_bits. f_equal. by apply pcm_ok.
Qed.

(** *** DSDIFF: the properties inside of a chunk *)

Definition other_property (c : Chunk) : Prop := other_chunk k_dff "FS  " c /\ other_chunk k_dff "CHNL" c.
Lemma dff_turn_at b pre name v post r c : b = pre ++ name ++ be 8 v ++ post -> len name = 4 -> v < 2 ^ 62 -> len b < 2 ^ 62 ->
  dff_turn b (r, c, len pre)
  = (let r := if bool_decide (name = lit "FS  ") then u32_be b (len pre + 12) else r in
     need (if bool_decide (name = lit "CHNL") then Some <$> u16_be b (len pre + 12) else Some c) (fun c =>
       match both r c with
       | Some rc => Done (Some rc)
       | None => Next (r, c, len pre + (12 + v + N.land v 1))
       end)).
Proof.
  intros Hb Hn Hv Hl. unfold dff_turn.
  assert (len pre + 12 <= len b) as Hin by (rewrite Hb, !len_app, len_be, Hn; lia).
  assert ((w64 (len pre + 12) <=? len b) = true) as -> by (apply N.leb_le; unfold w64; rewrite N.mod_small; lia).
  assert (get b (len pre) 4 = Some name) as -> by (rewrite Hb; apply get_at; unfold len in Hn; lia).
  assert (u64_be_at b (len pre + 4) = Some v) as ->.
  { rewrite Hb, app_assoc. unfold u64_be_at. apply be_read; [by rewrite len_app, Hn|].
    change (256 ^ N.of_nat 8) with (2 ^ 64). lia. }
  cbn [need]. pose proof (land_1 v). f_equal. unfold w64.
  rewrite N.mod_small, checked_add_ok by lia. done.
Qed.
(** Chunks of other properties leave what is known as it is. *)
Lemma dff_past b pre cs post r c fuel : Forall other_property cs -> b = pre ++ write_chunks k_dff cs ++ post -> len b < 2 ^ 62 ->
  both r c = None ->
  loop (dff_turn b) (length cs + fuel) (r, c, len pre) = loop (dff_turn b) fuel (r, c, len pre + len (write_chunks k_dff cs)).
Proof.
  intros Hcs Hb Hl Hrc. unfold write_chunks in *. rewrite <-(length_map (write_chunk k_dff) cs).
  apply (loop_past (dff_turn b) (fun o => (r, c, o)) b (map (write_chunk k_dff) cs) pre post); [|done].
  intros pre' ch post' Hch Hb'. apply list_elem_of_fmap in Hch as (k & -> & Hk). rewrite Forall_forall in Hcs.
  destruct (Hcs k Hk) as [(H4 & Hfs & _ & Hp) (_ & Hch & _ & _)].
  assert (len (c_body k) <= len b) as Hbody.
  { rewrite Hb'. rewrite !len_app, len_write_chunk. lia. }
  rewrite (dff_turn_at b pre' (c_id k) (len (c_body k)) (c_body k ++ c_pad k ++ post') r c);
    [|by rewrite Hb'; unfold write_chunk; rewrite <-!app_assoc|done|lia|done].
  rewrite !bool_decide_eq_false_2 by done. cbn [need]. rewrite Hrc, len_write_chunk, H4, Hp.
  change (N.of_nat (k_width k_dff)) with 8. do 2 f_equal; lia.
Qed.

(** What is read in a chunk at an offset past its name and size. *)
Lemma dff_field q name v n w post : len name = 4 -> w < 256 ^ N.of_nat n ->
  from_be <$> get (q ++ name ++ be 8 v ++ be n w ++ post) (len q + 12) n = Some w.
Proof.
  intros Hn Hw. replace (q ++ name ++ be 8 v ++ be n w ++ post) with ((q ++ name ++ be 8 v) ++ be n w ++ post) by by rewrite <-!app_assoc.
  apply be_read; [|done]. rewrite !len_app, len_be, Hn. lia.
Qed.
Lemma dff_rate_turn b q rate post : b = q ++ lit "FS  " ++ be 8 4 ++ be 4 (dsd_hz rate) ++ post -> len b < 2 ^ 62 ->
  dff_turn b (None, None, len q) = Next (Some (dsd_hz rate), None, len q + 16).
Proof.
  intros Hb Hl. rewrite (dff_turn_at b q (lit "FS  ") 4 (be 4 (dsd_hz rate) ++ post)) by done.
  rewrite bool_decide_eq_true_2, bool_decide_eq_false_2 by done. cbn [need].
  assert (u32_be b (len q + 12) = Some (dsd_hz rate)) as ->; [|done].
  rewrite Hb. apply dff_field; [done|destruct rate; cbn; lia].
Qed.
Lemma dff_channels_turn b q r ch ids post : b = q ++ lit "CHNL" ++ be 8 (2 + len ids) ++ be 2 ch ++ ids ++ post ->
  len b < 2 ^ 62 -> channels_ok ch -> dff_turn b (Some r, None, len q) = Done (Some (r, ch)).
Proof.
  intros Hb Hl [Hc1 Hc2]. assert (2 + len ids < 2 ^ 62) as Hids.
  { rewrite Hb, !len_app, !len_be in Hl. change (len (lit "CHNL")) with 4 in Hl. lia. }
  rewrite (dff_turn_at b q (lit "CHNL") (2 + len ids) (be 2 ch ++ ids ++ post)) by done.
  rewrite bool_decide_eq_false_2, bool_decide_eq_true_2 by done.
  assert (u16_be b (len q + 12) = Some ch) as ->; [|done].
  rewrite Hb. apply dff_field; [done|cbn; lia].
Qed.
Lemma dff_props_read b q c1 rate c2 ch ids rest fuel :
  b = q ++ write_chunks k_dff c1 ++ lit "FS  " ++ be 8 4 ++ be 4 (dsd_hz rate) ++
      write_chunks k_dff c2 ++ lit "CHNL" ++ be 8 (2 + len ids) ++ be 2 ch ++ ids ++ rest ->
  len b < 2 ^ 62 -> Forall other_property c1 -> Forall other_property c2 -> channels_ok ch ->
  (length c1 + length c2 + 2 <= fuel)%nat -> loop (dff_turn b) fuel (None, None, len q) = Some (Some (dsd_hz rate, ch)).
Proof.
  intros Hb Hl Hc1 Hc2 Hch Hf.
  replace fuel with (length c1 + S (length c2 + S (fuel - length c1 - length c2 - 2)))%nat by lia.
  rewrite (dff_past b q c1 _ _ _ _ Hc1 Hb Hl) by done. rewrite <-len_app. cbn [loop].
  erewrite (dff_rate_turn b _ rate) by (first [rewrite Hb, <-!app_assoc; reflexivity|done]).
  assert (len (q ++ write_chunks k_dff c1) + 16 = len (q ++ write_chunks k_dff c1 ++ lit "FS  " ++ be 8 4 ++ be 4 (dsd_hz rate))) as ->.
  { rewrite !len_app, !len_be. change (len (lit "FS  ")) with 4. lia. }
  erewrite (dff_past b _ c2) by (first [rewrite Hb, <-!app_assoc; reflexivity|done]). rewrite <-len_app. cbn [loop].
  by erewrite (dff_channels_turn b _ _ ch ids rest) by (first [rewrite Hb, <-!app_assoc; reflexivity|done]).
Qed.

Lemma dff_read size cs psize c1 rate c2 ch ids rest fuel :
  len size = 8 -> Forall (other_chunk k_dff "PROP") cs -> psize < 2 ^ 62 -> Forall other_property c1 -> Forall other_property c2 ->
  channels_ok ch ->
  let head := (lit "FRM8" ++ size ++ lit "DSD ") ++ write_chunks k_dff cs ++ lit "PROP" ++ be 8 psize ++ lit "SND " ++
              write_chunks k_dff c1 ++ lit "FS  " ++ be 8 4 ++ be 4 (dsd_hz rate) ++
              write_chunks k_dff c2 ++ lit "CHNL" ++ be 8 (2 + len ids) ++ be 2 ch ++ ids ++ rest in
  len head < 2 ^ 62 -> (length cs + length c1 + length c2 + 2 <= fuel)%nat -> parse_dff fuel head = Some (Some (Dsd rate ch)).
Proof.
  intros Hsz Hcs Hps Hc1 Hc2 Hch head Hlen Hf. unfold parse_dff.
  assert (len (lit "FRM8" ++ size ++ lit "DSD ") = 16) as Hpre by (rewrite !len_app, Hsz; done).
  assert (check_magic head 0 "FRM8" = true) as -> by (subst head; unfold check_magic; rewrite <-!app_assoc; by read_header).
  assert (check_magic head 12 "DSD " = true) as -> by (subst head; unfold check_magic; rewrite <-!app_assoc; by read_header).
  cbn [negb]. rewrite <-Hpre. set (p := lit "FRM8" ++ size ++ lit "DSD ") in *.
  assert (find_dff_subchunk fuel head (len p) "PROP" = Some (Some (len p + len (write_chunks k_dff cs)))) as ->.
  { apply (chunk_found k_dff head p _ cs "PROP" psize fuel Hcs eq_refl eq_refl); [|lia..].
    change (256 ^ N.of_nat _) with (2 ^ 64). lia. }
  cbn [onward]. rewrite <-!N.add_assoc. unfold check_magic at 1. unfold head at 1. rewrite get_after.
  read_header. cbn [negb].
  assert (len p + (len (write_chunks k_dff cs) + (12 + 4)) = len (p ++ write_chunks k_dff cs ++ lit "PROP" ++ be 8 psize ++ lit "SND ")) as ->
    by (rewrite !len_app, len_be; change (len (lit "PROP")) with 4; change (len (lit "SND ")) with 4; lia).
  rewrite (dff_props_read head _ c1 rate c2 ch ids rest fuel) by (first [done|lia|unfold head; by rewrite <-!app_assoc]).
  cbn [then_ fst snd]. rewrite dsd_rate_of. cbn [mbind option_bind]. by rewrite clamp_ok.
Qed.

(** *** MPEG-4: atoms inside of atoms *)

(** An atom that is entered: those before it, the size it says and its name. *)
Record Level := { l_before : list Atom; l_size : N; l_name : string }.
Definition write_level (l : Level) : list N := write_atoms (l_before l) ++ be 4 (l_size l) ++ lit (l_name l).
Definition level_ok (l : Level) : Prop :=
  Forall (other_atom (l_name l)) (l_before l) /\ 8 <= l_size l < 2 ^ 32 /\ len (lit (l_name l)) = 4.
Lemma level_found b pre l post fuel : level_ok l -> b = pre ++ write_level l ++ post -> len b < 2 ^ 63 ->
  (length (l_before l) < fuel)%nat ->
  find_atom_within fuel b (len pre) (l_name l) = Some (Some (len pre + len (write_atoms (l_before l))))
  /\ len pre + len (write_atoms (l_before l)) + 8 = len (pre ++ write_level l).
Proof.
  intros (Hl & Hs & Hn) Hb Hlen Hf. split.
  - apply (atom_found b pre post (l_before l) (l_name l) (l_size l)); try done.
    rewrite Hb. unfold write_level. by rewrite <-!app_assoc.
  - unfold write_level. rewrite !len_app, len_be, Hn. lia.
Qed.
(** The walk is entered past the first atom if that is one of [ftyp]. *)
Lemma moov_found b l post fuel : level_ok l -> b = write_level l ++ post -> len b < 2 ^ 63 -> (length (l_before l) < fuel)%nat ->
  l_name l <> "ftyp"%string ->
  find_atom_within fuel b (match step_into_atom b 0 "ftyp" with Some c => c | None => 0 end) (l_name l)
  = Some (Some (len (write_atoms (l_before l)))).
Proof.
  intros Hok Hb Hlen Hf Hname. pose proof (level_found b [] l post fuel Hok Hb Hlen Hf) as [H0 _].
  change (len []) with 0 in H0. rewrite N.add_0_l in H0.
  destruct (step_into_atom b 0 "ftyp") as [c|] eqn:E; [|done].
  unfold step_into_atom in E. apply bind_Some in E as ([size ty] & Ha & E). cbn [fst snd] in E.
  case_bool_decide as Hty; [|done]. apply checked_add_Some in E as [-> _]. rewrite N.add_0_l.
  destruct Hok as (Hl & Hs & Hn). destruct l as [[|a before] lsize lname]; cbn [l_before l_size l_name] in *.
  - exfalso. rewrite Hb in Ha. unfold write_level, write_atoms in Ha. cbn [l_before l_size l_name map concat app] in Ha.
    rewrite <-!app_assoc in Ha. pose proof (atom_read [] lsize (lit lname) post Hn (proj2 Hs)) as H. cbn [app] in H.
    change (len []) with 0 in H. rewrite H in Ha. injection Ha as _ <-. apply lit_inj in Hty. done.
  - inversion Hl as [|? ? Ha1 Hl1]; subst. destruct Ha1 as (H4 & _ & Hw).
    unfold write_level, write_atoms in Ha. cbn [l_before l_size l_name map concat] in Ha. unfold write_atom at 1 in Ha. rewrite <-!app_assoc in Ha.
    pose proof (atom_read [] (8 + len (a_body a)) (a_type a) (a_body a ++ concat (map write_atom before) ++ be 4 lsize ++ lit lname ++ post) H4 Hw) as H.
    cbn [app] in H. change (len []) with 0 in H. rewrite H in Ha. injection Ha as <- _.
    rewrite <-(len_write_atom a H4).
    assert (write_atoms (a :: before) = write_atom a ++ write_atoms before) as Hcons by done.
    rewrite Hcons, len_app. cbn [length] in Hf.
    apply (atom_found _ (write_atom a) post before lname lsize); try done; [|lia].
    unfold write_level. cbn [l_before l_size l_name]. by rewrite Hcons, <-!app_assoc.
Qed.

Lemma enter {B} fuel b pre l post (k : N -> Probe B) r : level_ok l -> b = pre ++ write_level l ++ post -> len b < 2 ^ 63 ->
  (length (l_before l) < fuel)%nat -> (forall off, off + 8 = len (pre ++ write_level l) -> k off = r) ->
  onward (find_atom_within fuel b (len pre) (l_name l)) k = r.
Proof. intros Hl Hb Hlen Hf Hk. destruct (level_found b pre l post fuel Hl Hb Hlen Hf) as [-> E]. by apply Hk. Qed.
Lemma enter_last {B} fuel b pre l post (k : N -> option B) r : level_ok l -> b = pre ++ write_level l ++ post -> len b < 2 ^ 63 ->
  (length (l_before l) < fuel)%nat -> (forall off, off + 8 = len (pre ++ write_level l) -> k off = r) ->
  then_ (find_atom_within fuel b (len pre) (l_name l)) k = Some r.
Proof. intros Hl Hb Hlen Hf Hk. destruct (level_found b pre l post fuel Hl Hb Hlen Hf) as [-> E]. cbn. f_equal. by apply Hk. Qed.

Definition the_levels (ls : list Level) (fuel : nat) : Prop :=
  Forall level_ok ls /\ map l_name ls = ["moov"; "trak"; "mdia"; "minf"; "stbl"; "stsd"]%string
  /\ Forall (fun l => (length (l_before l) < fuel)%nat) ls.
Lemma stsd_found ls vf esize ty body fuel :
  the_levels ls fuel -> len vf = 8 -> esize < 2 ^ 32 -> len ty = 4 ->
  let head := concat (map write_level ls) ++ vf ++ be 4 esize ++ ty ++ body in
  len head < 2 ^ 63 -> walk_to_stsd_entry fuel head = Some (Some (ty, body)).
Proof.
  intros (Hok & Hnames & Hf) Hvf Hes Hty head Hlen.
  destruct ls as [|moov [|trak [|mdia [|minf [|stbl [|stsd [|]]]]]]]; try done.
  rewrite !Forall_cons in Hok, Hf.
  destruct Hok as (O1 & O2 & O3 & O4 & O5 & O6 & _), Hf as (F1 & F2 & F3 & F4 & F5 & F6 & _).
  cbn [map] in Hnames. injection Hnames as N1 N2 N3 N4 N5 N6.
  assert (head = write_level moov ++ write_level trak ++ write_level mdia ++ write_level minf ++ write_level stbl ++ write_level stsd ++
          vf ++ be 4 esize ++ ty ++ body) as Hhead by (unfold head; cbn [map concat]; by rewrite app_nil_r, <-!app_assoc).
  clearbody head. unfold walk_to_stsd_entry.
  rewrite <-N1, (moov_found head moov _ fuel O1 Hhead Hlen F1) by (by rewrite N1). cbn [onward].
  pose proof (proj2 (level_found head [] moov _ fuel O1 Hhead Hlen F1)) as E1.
  change (len []) with 0 in E1. rewrite N.add_0_l in E1. cbn [app] in E1. rewrite E1, <-N2.
  eapply enter; [exact O2|exact Hhead|exact Hlen|exact F2|]. intros ? ->. rewrite <-N3. rewrite app_assoc in Hhead.
  eapply enter; [exact O3|exact Hhead|exact Hlen|exact F3|]. intros ? ->. rewrite <-N4. rewrite app_assoc in Hhead.
  eapply enter; [exact O4|exact Hhead|exact Hlen|exact F4|]. intros ? ->. rewrite <-N5. rewrite app_assoc in Hhead.
  eapply enter; [exact O5|exact Hhead|exact Hlen|exact F5|]. intros ? ->. rewrite <-N6. rewrite app_assoc in Hhead.
  eapply enter_last; [exact O6|exact Hhead|exact Hlen|exact F6|]. intros ? ->. rewrite app_assoc in Hhead.
  set (p := (((((write_level moov ++ write_level trak) ++ write_level mdia) ++ write_level minf) ++ write_level stbl) ++ write_level stsd)) in *.
  assert (len p + 8 = len (p ++ vf)) as -> by (by rewrite len_app, Hvf). rewrite app_assoc in Hhead.
  assert ((len head <? len (p ++ vf) + 8) = false) as -> by (apply N.ltb_ge; rewrite Hhead, !(len_app (p ++ vf)), !len_app, len_be; lia).
  rewrite Hhead, (atom_read _ _ _ _ Hty Hes). cbn [mbind option_bind].
  assert (skip (len (p ++ vf) + 8) ((p ++ vf) ++ be 4 esize ++ ty ++ body) = Some body) as ->; [|done].
  apply skip_spec. rewrite !(len_app (p ++ vf)), !len_app, len_be, Hty. split; [lia|].
  rewrite (app_assoc (p ++ vf)), app_assoc. symmetry. apply drop_app_length'.
  rewrite !length_app, be_length. unfold len in *. lia.
Qed.

Lemma alac_read ls vf esize (lpcm : bool) a ch codec c rate rest fuel :
  the_levels ls fuel -> len vf = 8 -> esize < 2 ^ 32 -> len a = 16 -> len c = 4 -> channels_ok ch -> rate < 2 ^ 16 ->
  let head := concat (map write_level ls) ++ vf ++ be 4 esize ++ lit (if lpcm then "lpcm" else "alac") ++
              a ++ be 2 ch ++ be 2 (codec_bits codec) ++ c ++ be 4 (rate * 2 ^ 16) ++ rest in
  len head < 2 ^ 63 -> parse_m4a fuel head = Some (Some (Pcm codec rate ch)).
Proof.
  intros Hls Hvf Hes Ha Hc Hch Hr head Hlen. unfold parse_m4a, head in *.
  rewrite stsd_found by (first [done|by destruct lpcm]). cbn [onward]. unfold m4a_format. cbn [fst snd].
  unfold m4a_entry_sample_rate, m4a_entry_channels, m4a_entry_samplesize, u32_be, u16_be.
  assert (ch < 256 ^ N.of_nat 2) by (destruct Hch; cbn; lia). assert (codec_bits codec < 256 ^ N.of_nat 2) by (destruct codec; cbn; lia).
  assert (rate * 2 ^ 16 < 256 ^ N.of_nat 4) by (cbn in *; lia).
  read_header. cbn [given_]. rewrite as_u8_bits.
  assert (bits_of (rate * 2 ^ 16) 16 65535 = rate) as ->.
  { replace (rate * 2 ^ 16) with (0 * 2 ^ (16 + 16) + rate * 2 ^ 16 + 0) by lia. apply (bits_field 0 rate 0 16 16); [done|cbn; lia]. }
  assert (bool_decide (lit (if lpcm then "lpcm" else "alac") = lit "alac") || bool_decide (lit (if lpcm then "lpcm" else "alac") = lit "lpcm") = true) as ->
    by (by destruct lpcm).
  unfold ends. f_equal. by apply pcm_ok.
Qed.

(** *** Ogg: a packet in segments of 255 bytes and one of less *)

Definition lace (n : N) : list N := repeat 255 (N.to_nat (n / 255)) ++ [n mod 255].
Lemma lacing_lace n : lacing (lace n) = n.
Proof.
  unfold lace. assert (forall k, lacing (repeat 255 k ++ [n mod 255]) = N.of_nat k * 255 + n mod 255) as H.
  { induction k as [|k IH]; cbn [repeat app lacing].
    - pose proof (N.mod_lt n 255). destruct (N.ltb_spec (n mod 255) 255); lia.
    - change (255 <? 255) with false. cbn iota. rewrite IH. lia. }
  rewrite H. pose proof (N.div_mod' n 255). lia.
Qed.
Lemma len_lace n : len (lace n) = n / 255 + 1.
Proof. unfold lace. rewrite len_app. unfold len at 1. rewrite repeat_length. change (len [n mod 255]) with 1. lia. Qed.
Definition ogg_page (a packet rest : list N) : list N :=
  lit "OggS" ++ a ++ [len packet / 255 + 1] ++ lace (len packet) ++ packet ++ rest.
Lemma ogg_read a packet rest : len a = 22 -> ogg_first_packet (ogg_page a packet rest) = Some packet.
Proof.
  intros Ha. unfold ogg_first_packet, ogg_page, check_magic, byte_at. read_header. cbn [head mbind option_bind].
  rewrite <-len_lace. set (n := len (lace (len packet))).
  assert (forall q j k, get (lit "OggS" ++ a ++ [n] ++ q) (27 + j) k = get q j k) as Hget.
  { intros q j k. rewrite !app_assoc. apply get_past. rewrite !len_app, Ha. done. }
  rewrite <-(N.add_0_r 27) at 1. rewrite Hget, get_here by (unfold n, len; lia). cbn [mbind option_bind].
  rewrite lacing_lace, Hget, (get_past _ _ n 0) by (unfold n; lia). apply get_here. unfold len. lia.
Qed.

Definition vbr_of (bits_per_second : N) : EncodedBitrate := if positive_i32 bits_per_second then Vbr (bits_per_second / 1000) else Unknown.
Lemma vorbis_read a v ch rate m nominal more rest : len a = 22 -> len v = 4 -> len m = 4 -> channels_ok ch -> rate < 2 ^ 32 ->
  nominal < 2 ^ 32 ->
  parse_vorbis (ogg_page a ([1] ++ lit "vorbis" ++ v ++ [ch] ++ le 4 rate ++ m ++ le 4 nominal ++ more) rest)
  = Some (EncodedPassthrough (lit "vorbis") rate ch (Some (vbr_of nominal))).
Proof.
  intros Ha Hv Hm Hch Hr Hn. unfold parse_vorbis. rewrite ogg_read by done. cbn [mbind option_bind].
  unfold check_magic, byte_at, u32_le. assert (rate < 256 ^ N.of_nat 4) by (cbn in *; lia). assert (nominal < 256 ^ N.of_nat 4) by (cbn in *; lia).
  read_header. cbn [head mbind option_bind negb]. change (1 =? 1) with true. cbn [negb]. read_header.
  cbn [head mbind option_bind]. read_header. unfold encoded. by rewrite clamp_ok.
Qed.
Lemma opus_read a v ch skip_ rate more rest : len a = 22 -> len v = 1 -> len skip_ = 2 -> channels_ok ch -> rate < 2 ^ 32 ->
  parse_opus (ogg_page a (lit "OpusHead" ++ v ++ [ch] ++ skip_ ++ le 4 rate ++ more) rest)
  = Some (EncodedPassthrough (lit "opus") (if rate =? 0 then 48000 else rate) ch (Some Unknown)).
Proof.
  intros Ha Hv Hs Hch Hr. unfold parse_opus. rewrite ogg_read by done. cbn [mbind option_bind].
  unfold check_magic, byte_at, u32_le. assert (rate < 256 ^ N.of_nat 4) by (cbn in *; lia).
  read_header. cbn [head mbind option_bind]. read_header. unfold encoded. by rewrite clamp_ok.
Qed.

(** *** The headers that are read back *)

(** Headers of nine formats, field by field; what the parsers do not look at is any bytes, and
    where a format has chunks before the one that is looked for, there are any. *)
Inductive Header :=
| HDsf (a b : list N) (rate : DsdRate) (ch : N)
| HDff (size : list N) (before : list Chunk) (psize : N) (before_rate : list Chunk) (rate : DsdRate)
       (before_channels : list Chunk) (ch : N) (ids : list N)
| HFlac (t : N) (a : list N) (codec : PcmCodec) (rate ch samples : N)
| HWav (size : list N) (before : list Chunk) (fsize : N) (extensible : bool) (ch rate : N) (a : list N) (codec : PcmCodec)
| HAiff (size : list N) (aifc : bool) (before : list Chunk) (csize ch : N) (frames : list N) (codec : PcmCodec) (rate : N)
| HAlac (levels : list Level) (vf : list N) (esize : N) (lpcm : bool) (a : list N) (ch : N) (codec : PcmCodec) (c : list N) (rate : N)
| HTta (a : list N) (codec : PcmCodec) (rate ch : N)
| HVorbis (a v : list N) (ch rate : N) (m : list N) (nominal : N) (more : list N)
| HOpus (a v : list N) (ch : N) (skip_ : list N) (rate : N) (more : list N).

Definition header_hint (h : Header) : str :=
  match h with
  | HDsf _ _ _ _ => lit "dsf" | HDff _ _ _ _ _ _ _ _ => lit "dff" | HFlac _ _ _ _ _ _ => lit "flac"
  | HWav _ _ _ _ _ _ _ _ => lit "wav" | HAiff _ _ _ _ _ _ _ _ => lit "aiff" | HAlac _ _ _ _ _ _ _ _ _ => lit "alac"
  | HTta _ _ _ _ => lit "tta" | HVorbis _ _ _ _ _ _ _ => lit "vorbis" | HOpus _ _ _ _ _ _ => lit "opus"
  end.
Definition header_format (h : Header) : AudioFormat :=
  match h with
  | HDsf _ _ rate ch | HDff _ _ _ _ rate _ ch _ => Dsd rate ch
  | HFlac _ _ codec rate ch _ | HWav _ _ _ _ ch rate _ codec | HAiff _ _ _ _ ch _ codec rate
  | HAlac _ _ _ _ _ ch codec _ rate | HTta _ codec rate ch => Pcm codec rate ch
  | HVorbis _ _ ch rate _ nominal _ => EncodedPassthrough (lit "vorbis") rate ch (Some (vbr_of nominal))
  | HOpus _ _ ch _ rate _ => EncodedPassthrough (lit "opus") (if rate =? 0 then 48000 else rate) ch (Some Unknown)
  end.
Definition write_header (h : Header) (rest : list N) : list N :=
  match h with
  | HDsf a b rate ch => lit "DSD " ++ a ++ lit "fmt " ++ b ++ le 4 ch ++ le 4 (dsd_hz rate) ++ rest
  | HDff size before psize c1 rate c2 ch ids =>
      (lit "FRM8" ++ size ++ lit "DSD ") ++ write_chunks k_dff before ++ lit "PROP" ++ be 8 psize ++ lit "SND " ++
      write_chunks k_dff c1 ++ lit "FS  " ++ be 8 4 ++ be 4 (dsd_hz rate) ++
      write_chunks k_dff c2 ++ lit "CHNL" ++ be 8 (2 + len ids) ++ be 2 ch ++ ids ++ rest
  | HFlac t a codec rate ch samples => lit "fLaC" ++ [t] ++ a ++ be 8 (flac_bits rate ch (codec_bits codec) samples) ++ rest
  | HWav size before fsize extensible ch rate a codec =>
      (lit "RIFF" ++ size ++ lit "WAVE") ++ write_chunks k_riff before ++ lit "fmt " ++ le 4 fsize ++
      le 2 (if extensible then 65534 else 1) ++ le 2 ch ++ le 4 rate ++ a ++ le 2 (codec_bits codec) ++ rest
  | HAiff size aifc before csize ch frames codec rate =>
      (lit "FORM" ++ size ++ lit (if aifc then "AIFC" else "AIFF")) ++ write_chunks k_aiff before ++ lit "COMM" ++ be 4 csize ++
      be 2 ch ++ frames ++ be 2 (codec_bits codec) ++ extended rate ++ rest
  | HAlac levels vf esize lpcm a ch codec c rate =>
      concat (map write_level levels) ++ vf ++ be 4 esize ++ lit (if lpcm then "lpcm" else "alac") ++
      a ++ be 2 ch ++ be 2 (codec_bits codec) ++ c ++ be 4 (rate * 2 ^ 16) ++ rest
  | HTta a codec rate ch => lit "TTA1" ++ a ++ le 2 ch ++ le 2 (codec_bits codec) ++ le 4 rate ++ rest
  | HVorbis a v ch rate m nominal more =>
      ogg_page a ([1] ++ lit "vorbis" ++ v ++ [ch] ++ le 4 rate ++ m ++ le 4 nominal ++ more) rest
  | HOpus a v ch skip_ rate more => ogg_page a (lit "OpusHead" ++ v ++ [ch] ++ skip_ ++ le 4 rate ++ more) rest
  end.
(** The widths of the fields, and that the chunks before are not the one looked for. *)
Definition header_ok (h : Header) : Prop :=
  match h with
  | HDsf a b rate ch => len a = 24 /\ len b = 20 /\ channels_ok ch
  | HDff size before psize c1 rate c2 ch ids =>
      len size = 8 /\ Forall (other_chunk k_dff "PROP") before /\ psize < 2 ^ 62 /\
      Forall other_property c1 /\ Forall other_property c2 /\ channels_ok ch
  | HFlac t a codec rate ch samples => len a = 13 /\ N.land t 127 = 0 /\ 1 <= ch <= 8 /\ 1 <= rate < 2 ^ 20 /\ samples < 2 ^ 36
  | HWav size before fsize extensible ch rate a codec =>
      len size = 4 /\ Forall (other_chunk k_riff "fmt ") before /\ fsize < 2 ^ 32 /\ channels_ok ch /\ rate < 2 ^ 32 /\ len a = 6
  | HAiff size aifc before csize ch frames codec rate =>
      len size = 4 /\ Forall (other_chunk k_aiff "COMM") before /\ csize < 2 ^ 32 /\ channels_ok ch /\ 1 <= rate < 2 ^ 32 /\ len frames = 4
  | HAlac levels vf esize lpcm a ch codec c rate =>
      Forall level_ok levels /\ map l_name levels = ["moov"; "trak"; "mdia"; "minf"; "stbl"; "stsd"]%string /\
      len vf = 8 /\ esize < 2 ^ 32 /\ len a = 16 /\ len c = 4 /\ channels_ok ch /\ rate < 2 ^ 16
  | HTta a codec rate ch => len a = 2 /\ channels_ok ch /\ rate < 2 ^ 32
  | HVorbis a v ch rate m nominal more => len a = 22 /\ len v = 4 /\ len m = 4 /\ channels_ok ch /\ rate < 2 ^ 32 /\ nominal < 2 ^ 32
  | HOpus a v ch skip_ rate more => len a = 22 /\ len v = 1 /\ len skip_ = 2 /\ channels_ok ch /\ rate < 2 ^ 32
  end.

(** There are no more chunks than bytes. *)
Lemma pieces_count {A} (write : A -> list N) (l : list A) :
  Forall (fun a => write a <> []) l -> (length l <= length (concat (map write l)))%nat.
Proof.
  induction 1 as [|a l Ha _ IH]; [done|]. cbn [map concat length]. rewrite length_app. destruct (write a); [done|cbn; lia].
Qed.
Lemma chunks_count k id cs : Forall (other_chunk k id) cs -> (length cs <= length (write_chunks k cs))%nat.
Proof.
  intros H. apply pieces_count. eapply Forall_impl; [exact H|]. intros c (H4 & _) E.
  unfold write_chunk in E. destruct (c_id c); done.
Qed.
Lemma properties_count cs : Forall other_property cs -> (length cs <= length (write_chunks k_dff cs))%nat.
Proof. intros H. apply (chunks_count _ "FS  "). eapply Forall_impl; [exact H|]. by intros c [? _]. Qed.
Lemma atoms_count l : level_ok l -> (length (l_before l) < length (write_level l))%nat.
Proof.
  intros (H & _ & _). unfold write_level. rewrite !length_app, be_length.
  pose proof (pieces_count write_atom (l_before l)) as Hc. unfold write_atoms.
  assert (Forall (fun a => write_atom a <> []) (l_before l)) as Hne. { apply Forall_forall. intros a _ E. by apply (f_equal length) in E. }
  specialize (Hc Hne). lia.
Qed.

Lemma header_read h rest fuel : header_ok h -> len (write_header h rest) <= PROBE_HEAD_BYTES ->
  (length (write_header h rest) < fuel)%nat -> dispatch fuel (header_hint h) (write_header h rest) = Some (Some (header_format h)).
Proof.
  unfold PROBE_HEAD_BYTES. intros Hok Hlen Hf.
  assert (len (write_header h rest) < 2 ^ 62) as Hsmall by (assert (4096 < 2 ^ 62) by done; lia).
  assert (2 ^ 62 < 2 ^ 63 < 2 ^ 64) as Hpow by done. clear Hlen.
  destruct h; cbn [header_ok write_header header_format header_hint] in *.
  - destruct Hok as (? & ? & ?). change (ends (parse_dsf (lit "DSD " ++ a ++ lit "fmt " ++ b ++ le 4 ch ++ le 4 (dsd_hz rate) ++ rest)) = Some (Some (Dsd rate ch))).
    by rewrite dsf_read.
  - destruct Hok as (? & Hcs & ? & H1 & H2 & ?). apply dff_read; try done.
    apply chunks_count in Hcs. apply properties_count in H1, H2. rewrite !length_app in Hf. rewrite !be_length in Hf. lia.
  - destruct Hok as (? & ? & ? & ? & ?). apply (f_equal ends). by apply flac_read.
  - destruct Hok as (? & Hcs & ? & ? & ? & ?). apply wav_read; try done; [by destruct extensible; auto|lia|].
    apply chunks_count in Hcs. rewrite !length_app in Hf. lia.
  - destruct Hok as (? & Hcs & ? & ? & ? & ?). apply aiff_read; try done; [lia|].
    apply chunks_count in Hcs. rewrite !length_app in Hf. lia.
  - destruct Hok as (Hl & Hn & ? & ? & ? & ? & ? & ?). apply alac_read; try done; [|lia]. split; [done|]. split; [done|].
    rewrite Forall_forall in Hl |- *. intros l Hin. pose proof (atoms_count l (Hl l Hin)) as Hc.
    apply list_elem_of_split in Hin as (l1 & l2 & ->). rewrite length_app in Hf. rewrite map_app, concat_app in Hf.
    cbn [map concat] in Hf. rewrite !length_app in Hf. lia.
  - destruct Hok as (? & ? & ?). apply (f_equal ends). by apply tta_read.
  - destruct Hok as (? & ? & ? & ? & ? & ?). apply (f_equal ends). by apply vorbis_read.
  - destruct Hok as (? & ? & ? & ? & ?). apply (f_equal ends). by apply opus_read.
Qed.

Lemma write_header_app h rest : write_header h rest = write_header h [] ++ rest.
Proof. destruct h; cbn [write_header]; unfold ogg_page; rewrite ?app_nil_r, <-!app_assoc; rewrite ?app_nil_r; done. Qed.

(** ** Files *)

Lemma read_head_go_spec reads total : Forall (fun r => r <> []) reads -> (length total <= 4096)%nat ->
  read_head_go (map Some reads) total = Some (take 4096 (total ++ concat reads)).
Proof.
  intros Hr. revert total. induction Hr as [|r reads Hr _ IH]; intros total Ht; cbn [map read_head_go concat]; unfold PROBE_HEAD_BYTES, len.
  - rewrite app_nil_r, take_ge by lia. by destruct (_ <=? _).
  - destruct (N.leb_spec 4096 (N.of_nat (length total))) as [H|H].
    + assert (length total = 4096%nat) as <- by lia. by rewrite take_app_length.
    + destruct r as [|c r]; [done|].
      change (N.to_nat 4096) with 4096%nat. rewrite IH by (rewrite length_app, length_take; lia).
      f_equal. rewrite <-app_assoc, !take_app. rewrite (take_ge total) by lia. f_equal.
      rewrite take_take. rewrite length_take. f_equal; [f_equal; lia|]. f_equal. lia.
Qed.

Lemma write_header_some h rest : write_header h rest <> [].
Proof.
  destruct h; try done. cbn [write_header]. intros E%(f_equal length). rewrite !length_app, !be_length in E. cbn in E. lia.
Qed.


(** *** MPEG audio: the tag before the frames *)

Definition sync_bytes (n : N) : list N :=
  [bits_of n 21 127; bits_of n 14 127; bits_of n 7 127; bits_of n 0 127].
(** The seven bits at [k], put next to those above them. *)
Lemma join_bits n k j : j = k + 7 ->
  N.lor (N.shiftl (N.shiftr n j) j) (N.shiftl (N.land (N.shiftr n k) 127) k) = N.shiftl (N.shiftr n k) k.
Proof.
  intros ->. rewrite (N.add_comm k 7), <-N.shiftl_shiftl, (N.add_comm 7 k), <-N.shiftr_shiftr, <-N.shiftl_lor. f_equal.
  set (m := N.shiftr n k). change 127 with (N.ones 7). rewrite <-N.ldiff_ones_r.
  apply N.bits_inj. intros i. rewrite N.lor_spec, N.land_spec, N.ldiff_spec. by destruct (N.testbit m i), (N.testbit (N.ones 7) i).
Qed.
Lemma synchsafe_read n : n < 2 ^ 28 -> synchsafe (sync_bytes n) = n.
Proof.
  intros Hn. unfold synchsafe, sync_bytes, bits_of. rewrite <-!N.land_assoc, !N.land_diag.
  assert (N.land (N.shiftr n 21) 127 = N.shiftr n 21) as ->.
  { change 127 with (N.ones 7). rewrite N.land_ones, N.shiftr_div_pow2. apply N.mod_small.
    apply N.Div0.div_lt_upper_bound. exact Hn. }
  rewrite (join_bits n 14 21), (join_bits n 7 14) by done.
  pose proof (join_bits n 0 7 eq_refl) as H0. rewrite !N.shiftl_0_r in H0. rewrite H0. apply N.shiftr_0_r.
Qed.
(** A tag is passed over whatever it holds, and what follows it is looked at first. *)
Lemma tag_is_passed_over v tag b1 b2 b3 x rest rate : len v = 3 -> len tag < 2 ^ 28 -> mp3_frame_rate 255 b1 b2 = Some rate ->
  let head := lit "ID3" ++ v ++ sync_bytes (len tag) ++ tag ++ 255 :: b1 :: b2 :: b3 :: x :: rest in
  parse_mp3 head = mp3_frame head (10 + len tag) b1 b2 b3 rate.
Proof.
  intros Hv Ht Hr head. unfold parse_mp3, id3_skip.
  assert (check_magic head 0 "ID3" = true) as -> by (unfold head, check_magic; by read_header).
  assert (len (sync_bytes (len tag)) = 4) as Hs by done.
  assert ((10 <=? len head) = true) as ->.
  { apply N.leb_le. unfold head. rewrite !len_app, Hv, Hs. change (len (lit "ID3")) with 3. lia. }
  cbn [andb]. assert (get head 6 4 = Some (sync_bytes (len tag))) as -> by (unfold head; by read_header).
  cbn [mbind option_bind]. rewrite synchsafe_read by done.
  assert (skip (10 + len tag) head = Some (255 :: b1 :: b2 :: b3 :: x :: rest)) as ->.
  { apply skip_spec. unfold head. rewrite !app_assoc, len_app. set (p := ((lit "ID3" ++ v) ++ sync_bytes (len tag)) ++ tag).
    assert (10 + len tag = len p) as -> by (unfold p; rewrite !len_app, Hv, Hs; done).
    split; [lia|]. symmetry. apply drop_app_length'. unfold len. lia. }
  cbn [mp3_scan]. by rewrite Hr.
Qed.

(** ** [mpd.conf] *)

Lemma up_to_char_app c s r : c ∉ s -> up_to_char c (s ++ c :: r) = Some s.
Proof.
  induction s as [|d s IH]; intros H; cbn [app up_to_char]; [by rewrite N.eqb_refl|].
  apply not_elem_of_cons in H as [Hd H]. destruct (N.eqb_spec c d); [done|]. by rewrite IH.
Qed.
(** A directive in quotes is found wherever its line is, after lines that are not of it. *)
Theorem directive_is_found (directive value : str) (before after : list str) (c : char) (name : str) :
  directive = c :: name -> is_whitespace c = false -> c <> 35 -> LF ∉ directive ->
  Forall (fun l => one_line l /\ strip_prefix directive (trim l) = None) before -> Forall one_line after ->
  value <> [] -> QUOTE ∉ value -> LF ∉ value ->
  parse_mpd_directive (unlines (before ++ (directive ++ [32; QUOTE] ++ value ++ [QUOTE]) :: after)) directive = Some value.
Proof.
  intros -> Hc Hhash Hlf Hb Ha Hv Hq Hvl. unfold parse_mpd_directive.
  set (line := (c :: name) ++ [32; QUOTE] ++ value ++ [QUOTE]).
  assert (line = c :: (name ++ [32; QUOTE] ++ value) ++ [QUOTE]) as Hline by (unfold line; by rewrite <-!app_assoc).
  rewrite lines_unlines.
  2:{ apply Forall_app. split; [eapply Forall_impl; [exact Hb|]; by intros l [? _]|]. constructor; [|done].
      split; [|rewrite Hline, app_comm_cons, last_snoc; done].
      rewrite Hline, !elem_of_cons, !elem_of_app, !elem_of_cons. rewrite elem_of_cons in Hlf.
      intros [?|[[?|[[?|[?|?%elem_of_nil]]|?]]|[?|?%elem_of_nil]]]; try done; by apply Hlf; auto. }
  induction Hb as [|l before [_ Hl] _ IH]; cbn [app directive_lines].
  - rewrite Hline, trim_delimited by done. rewrite <-Hline.
    assert (starts_with (lit "#") line = false) as ->.
    { unfold starts_with. change (strip_prefix (lit "#") line) with (if 35 =? c then Some (name ++ [32; QUOTE] ++ value ++ [QUOTE]) else None).
      by assert ((35 =? c) = false) as -> by (apply N.eqb_neq; congruence). }
    assert (str_is_empty line = false) as -> by done. cbn [orb]. unfold line. rewrite strip_prefix_app.
    unfold directive_value. change (trim_start ([32; QUOTE] ++ value ++ [QUOTE])) with (QUOTE :: value ++ [QUOTE]).
    change (strip_prefix (lit "=") (QUOTE :: value ++ [QUOTE])) with (@None str). cbn iota.
    change (trim_start (QUOTE :: value ++ [QUOTE])) with (QUOTE :: value ++ [QUOTE]).
    change (strip_prefix [QUOTE] (QUOTE :: value ++ [QUOTE])) with (Some (value ++ [QUOTE])). cbn iota.
    rewrite up_to_char_app by done. cbn [mbind option_bind]. by destruct value.
  - rewrite Hl. by destruct (_ || _).
Qed.

(** ** What goes wrong *)

(** An object of no size in a WMA file is looked at again and again: the probe does not end. *)
Theorem empty_object_hangs :
  let head := ASF_HEADER_GUID ++ repeat 0 14 ++ repeat 7 16 ++ le 8 0 in
  hangs (fun fuel => dispatch fuel (lit "wma") head).
Proof.
  intros head fuel. change (dispatch fuel (lit "wma") head) with (loop (wma_turn head) fuel 30).
  apply (loop_stuck _ 30 30); [constructor|]. by vm_compute.
Qed.
(** Nor does it where the size of a DSDIFF chunk, with its header, wraps around. *)
Theorem wrapping_chunk_hangs :
  let head := lit "FRM8" ++ be 8 0 ++ lit "DSD " ++ lit "FVER" ++ be 8 (2 ^ 64 - 12) in
  hangs (fun fuel => dispatch fuel (lit "dff") head).
Proof.
  intros head fuel.
  change (dispatch fuel (lit "dff") head) with
    (onward (loop (chunk_turn head 12 name_first (padded 12 u64_be_at) "PROP") fuel 16)
       (fun off => if negb (check_magic head (off + 12) "SND ") then ends None
                   else then_ (loop (dff_turn head) fuel (None, None, off + 12 + 4)) (fun rc =>
                          rate ← dsd_rate_from_hz rc.1; ch ← clamp_channels rc.2; Some (Dsd rate ch)))).
  rewrite (loop_stuck _ 16 16); [done|constructor|]. by vm_compute.
Qed.

Lemma le_4_halves v : v < 2 ^ 32 -> le 4 v = le 2 (v mod 2 ^ 16) ++ le 2 (v / 2 ^ 16).
Proof.
  intros H. change (2 ^ 16) with 65536. change (2 ^ 32) with 4294967296 in H.
  change (le 4 v) with [v mod 256; v / 256 mod 256; v / 256 / 256 mod 256; v / 256 / 256 / 256 mod 256].
  assert (forall u, le 2 u = [u mod 256; u / 256 mod 256]) as E by done. rewrite !E. cbn [app].
  f_equal; [zify; Z.to_euclidean_division_equations; lia|].
  f_equal; [zify; Z.to_euclidean_division_equations; lia|].
  f_equal; [zify; Z.to_euclidean_division_equations; lia|].
  f_equal; zify; Z.to_euclidean_division_equations; lia.
Qed.
(** A header of Monkey's Audio as its layout is given, the fields of it in this order: the
    number of frames is read for the bits and the channels, and those for the rate. *)
Definition ape_header (version blocks final_blocks total_frames bits channels rate : N) : list N :=
  lit "MAC " ++ le 2 version ++ le 2 0 ++ le 4 52 ++ repeat 0 40 ++
  le 2 2000 ++ le 2 0 ++ le 4 blocks ++ le 4 final_blocks ++ le 4 total_frames ++ le 2 bits ++ le 2 channels ++ le 4 rate.
Theorem ape_reads_the_frame_count version blocks final_blocks total_frames bits channels rate :
  3980 <= version < 2 ^ 16 -> total_frames < 2 ^ 32 -> bits < 2 ^ 16 -> channels < 2 ^ 16 ->
  parse_ape (ape_header version blocks final_blocks total_frames bits channels rate)
  = pcm (as_u8 (total_frames mod 2 ^ 16)) (bits + 2 ^ 16 * channels) (total_frames / 2 ^ 16).
Proof.
  intros Hv Ht Hb Hc. unfold parse_ape, ape_header, check_magic, u16_le, u32_le.
  assert (version < 256 ^ N.of_nat 2) by (cbn in *; lia). assert (len (repeat 0 40) = 40) by done.
  assert (52 < 256 ^ N.of_nat 4) by done.
  assert (bits + 2 ^ 16 * channels < 2 ^ 32) as Hbc.
  { change (2 ^ 16) with 65536 in *. change (2 ^ 32) with 4294967296. lia. }
  assert (le 2 bits ++ le 2 channels ++ le 4 rate = le 4 (bits + 2 ^ 16 * channels) ++ le 4 rate) as ->.
  { rewrite (le_4_halves _ Hbc). rewrite <-app_assoc, (N.mul_comm (2 ^ 16)).
    rewrite N.Div0.mod_add, (N.mod_small bits), (N.add_comm bits), N.div_add_l, (N.div_small bits), N.add_0_r by done. done. }
  rewrite (le_4_halves total_frames Ht), <-app_assoc.
  assert (total_frames mod 2 ^ 16 < 256 ^ N.of_nat 2) by (apply N.mod_lt; done).
  assert (total_frames / 2 ^ 16 < 256 ^ N.of_nat 2) by (apply N.Div0.div_lt_upper_bound; exact Ht).
  assert (bits + 2 ^ 16 * channels < 256 ^ N.of_nat 4) by exact Hbc.
  read_header. assert ((version <? 3980) = false) as -> by (apply N.ltb_ge; lia).
  read_header. change (52 + 12) with 64. change (52 + 14) with 66. change (52 + 16) with 68. by read_header.
Qed.

(** A tag of a variable bit rate, 36 bytes past the start of its frame as the layout says, is
    not seen: the file is said to be of the constant rate of its first frame. *)
Theorem xing_tag_is_missed :
  let frame := [255; 251; 144; 0] ++ repeat 0 32 ++ lit "Xing" ++ be 4 3 ++ be 4 1000 ++ be 4 800000 ++ repeat 0 300 in
  dispatch 1 (lit "mp3") frame = Some (Some (EncodedPassthrough (lit "mp3") 44100 2 (Some (Cbr 128)))) /\
  dispatch 1 (lit "mp3") (take 36 frame ++ repeat 0 4 ++ drop 36 frame)
  = Some (Some (EncodedPassthrough (lit "mp3") 44100 2 (Some (Vbr 245)))).
Proof. by vm_compute. Qed.

(** The number of bits is cut to eight before it is looked at. *)
Theorem bits_are_cut : parse_tta (lit "TTA1" ++ le 2 1 ++ le 2 2 ++ le 2 272 ++ le 4 44100) = Some (Pcm PcmS16Le 44100 2).
Proof. by vm_compute. Qed.
(** A rate above what 32 bits hold is cut to them, not refused. *)
Theorem extended_rate_is_cut : ieee_754_extended_to_u32 (extended (2 ^ 32 + 44100)) = Some 44100.
Proof. by vm_compute. Qed.

(** The name of a directive is taken for one that only begins with it, an opening quote
    without a closing one ends the search, and so does a directive without a value. *)
Theorem directive_is_not_delimited :
  parse_music_directory (unlines [lit "music_directory_backup /old"; lit "music_directory /music"]) = Some (lit "_backup") /\
  parse_music_directory (unlines [lit "music_directory" ++ [32; QUOTE] ++ lit "/old"; lit "music_directory /music"]) = None /\
  parse_music_directory (unlines [lit "music_directory"; lit "music_directory /music"]) = None.
Proof. by vm_compute. Qed.

(** ** Witnesses *)

Definition a_wav : Header :=
  HWav (le 4 2000) [{| c_id := lit "LIST"; c_body := lit "INFOx"; c_pad := [0] |}] 16 false 2 44100 (repeat 0 6) PcmS24Le.
Definition an_alac : Header :=
  let level before name := {| l_before := before; l_size := 600; l_name := name |} in
  HAlac [level [{| a_type := lit "ftyp"; a_body := lit "M4A " |}; {| a_type := lit "free"; a_body := repeat 0 9 |}] "moov";
         level [{| a_type := lit "mvhd"; a_body := repeat 0 100 |}] "trak"; level [{| a_type := lit "tkhd"; a_body := repeat 0 84 |}] "mdia";
         level [{| a_type := lit "mdhd"; a_body := repeat 0 24 |}] "minf"; level [] "stbl"; level [] "stsd"]%string
        (repeat 0 8) 36 false (repeat 0 16) 2 PcmS24Le (repeat 0 4) 48000.

#[local] Instance other_atom_dec id a : Decision (other_atom id a). Proof. unfold other_atom. apply _. Defined.
#[local] Instance level_ok_dec l : Decision (level_ok l). Proof. unfold level_ok. apply _. Defined.
#[local] Instance an_alac_dec : Decision (header_ok an_alac). Proof. cbn [header_ok an_alac]. unfold channels_ok. apply _. Defined.

Lemma directive_is_found_witness :
  parse_mpd_directive (unlines ([lit "# the library"; lit "bind_to_address any"] ++
    (lit "music_directory" ++ [32; QUOTE] ++ lit "/var/lib/my music" ++ [QUOTE]) :: [lit "zeroconf_enabled yes"])) (lit "music_directory")
  = Some (lit "/var/lib/my music").
Proof.
  apply (directive_is_found (lit "music_directory") (lit "/var/lib/my music") [lit "# the library"; lit "bind_to_address any"]
    [lit "zeroconf_enabled yes"] 109 (lit "usic_directory")); try done.
  - by apply (bool_decide_unpack _).
  - apply (bool_decide_unpack _). by vm_compute.
  - apply (bool_decide_unpack _). by vm_compute.
  - by apply (bool_decide_unpack _).
  - by apply (bool_decide_unpack _).
Defined.
